(* ===== verification/_CoqProject ===== *)
-Q . S2P
Prelude.v
Endian.v
StringPiece.v
Buffer.v
Date.v
TimeZone.v
Poller.v
Dispatch.v
Atomic.v
WeakCallback.v
Exception.v
Timestamp.v
TimerQueue.v
EventLoop.v
LoopLife.v
Interfaces.v
TcpConnection.v
Connector.v
LogStream.v
Format.v
Logging.v
Sync.v
Singletons.v
Queues.v
ThreadPool.v
IoThread.v
ThreadEnd.v
LoopPool.v
Inet.v
Sockets.v
Acceptor.v
TcpServer.v
TcpClient.v
ClientEnd.v
DancingLinks.v
ExactCover.v
SudokuSolver.v
SudokuBuild.v
SudokuRules.v
SudokuServer.v
SudokuBatch.v
Mains.v
