(* ===== verification/Prelude.v ===== *)
(** * ccnet: a muduo-style C++ network library, verified

    ccnet is a reactor library: every thread that does I/O runs an [EventLoop], which polls
    the kernel through an epoll object, hands events to the [Channel]s of its descriptors,
    runs due timers and then the functors other threads have queued on it. On top of it
    stand the acceptor and the connector (new sockets), [TcpConnection] (one socket with its
    buffers and its state machine), and [TcpServer] and [TcpClient], which own connections
    and let go of them again. Below it lies a base library: threads, locks and queues,
    dates and time zones, logging. The repository's application is a Sudoku server, whose
    requests a thread pool solves by dancing links, and a batch client for it.

    The development is a shallow embedding: a function of the source is a function here, with
    its name where the syntax allows; an object is a record of the object's fields; code that
    can fail returns a [res] (below), whose faults are a failed assertion, an exception, an
    access through a dangling or null pointer, a signed overflow. Assertions are compiled in.
    Machine integers are [Z] with the wrap-around or the overflow check of their C type
    written out. Objects shared by pointer live in explicit heaps ([gmap]s from pointers).
    What the kernel, the C library and the user's callbacks answer is an input: an argument of
    the handler, an event of the step relation, or a class of operations with their laws.
    Code that several threads run is a step relation between atomic actions, and theorems
    about it hold of every state reachable from construction, so of every interleaving.

    ** The files and the code they model

    - Prelude: faults, the result monad with its inversion lemmas, machine integers, liveness
      against every schedule ([inevitably]), counting in lists, the tactics and hint databases
      the files share.
    - Endian: src/net/endian.h, byte order conversion on hosts of both kinds.
    - StringPiece: src/base/string_piece.h, a pointer and a length into an array.
    - Buffer (module Buf): src/net/buffer.h and buffer.cc. The vector is a list of bytes with
      its two indices; every operation carries its assertions and the vector's length limit.
    - Date, TimeZone (modules Date, TZ): src/base/date.cc and time_zone.cc; Julian days, the
      TZif reader over a byte list, the binary search over transitions, conversions.
    - Poller (module Poll): src/net/channel.*, poller.*, epoller.* and the two functions of
      src/net/event_loop.cc that forward to the poller. Channels are objects of a heap;
      the kernel is the class [EpollKernel] with laws [EpollLaws].
    - Dispatch: a turn of EventLoop::loop() over Poller, with callbacks that are scripts of
      channel operations.
    - Atomic, Timestamp (modules Atomic, Ts): src/base/atomic.h and timestamp.*; doubles are
      rationals rounded to nearest even where addTime and timeDifference use them.
    - TimerQueue (module TQ): src/net/timer.*, timer_id.h, timer_queue.*. Timers are heap
      objects, freed by delete; the timer set and the active set hold their addresses.
    - EventLoop (module Loop): src/net/event_loop.*, the loop thread statement by statement,
      other threads between its atomic actions.
    - LoopLife: construction, the timer interface and destruction of EventLoop, TimerQueue and
      EPollPoller (src/net/event_loop.*, timer_queue.cc, epoller.cc) over the models of Poller
      and TimerQueue, whose states a loop owns.
    - WeakCallback (module Weak): src/base/weak_callback.h over an explicit count of references.
    - Exception (module Exn): src/base/exception.*, the message and the stack trace.
    - Interfaces: the classes [ByteQueue] and [ChannelI], with their laws, that the clients of a buffer and a channel
      are proved against, and the instances by Buffer and Poller.
    - TcpConnection (module Conn): src/net/tcp_connection.*; StateE, every handler, every
      function handed to the loop, as events of one relation.
    - Connector, Acceptor (modules Ctor, Acc): src/net/connector.*, acceptor.*.
    - TcpServer, TcpClient (modules Server, Client): src/net/tcp_server.*, tcp_client.*;
      connections through the class [ConnectionI] with laws [ConnectionLaws], which the
      TcpConnection model discharges; the client contains the whole connector.
    - ClientEnd: ~TcpClient and ~Connector, and what outlives them: the client's state with a
      record of who still has the connector.
    - LogStream, Format, Logging (modules Log, Format, Logging): src/base/log_stream.*,
      logging.*, the text of timestamps, dates, thread ids and event masks.
    - Sync, Queues, ThreadPool (modules Mutex, Cond, Latch, Queues, Pool): src/base/mutex.h,
      condition.*, count_down_latch.*, blocking_queue.h, bounded_blocking_queue.h,
      thread_pool.*; threads take turns under the lock, and may wake spuriously.
    - Singletons (modules Singleton, ThreadLocal, ThreadLocalSingleton): src/base/singleton.h,
      threadlocal.h, threadlocal_singleton.h over pthread_once and pthread keys.
    - IoThread, LoopPool (modules Thr, IoT, LoopPool): src/base/thread.*,
      src/net/event_loop_thread.*, event_loop_threadPool.*.
    - ThreadEnd: the catch clauses of thread.cc and thread_pool.cc, the fork handler,
      ~ThreadPool.
    - Inet (module Inet): src/net/inet_address.* and the address functions of sockets_ops.cc.
    - Sockets: src/net/socket.* and the other functions of sockets_ops.cc over the class
      [SocketKernel] of system calls with laws [SocketLaws]; the text of TCP_INFO.
    - DancingLinks (module DLX), ExactCover (XC), SudokuSolver (Solver), SudokuBuild (Build),
      SudokuRules (Rules): src/net/sudoku/sudoku.cc. DancingLinks has the nodes, a map from
      indices of the node array to records of links, with cover, uncover, get_min_column and
      the recursive solve; SudokuSolver the constructor, which makes the matrix of a board,
      and solveSudoku. The other three prove them: ExactCover that solve searches the exact
      covers of an abstract matrix, SudokuBuild and SudokuRules that the matrix built is the
      one whose exact covers are the solutions of the board by the rules of Sudoku.
    - SudokuServer, SudokuBatch (modules Sudoku, Batch): src/net/sudoku/server_threadpool.cc,
      the protocol over the buffer and the solver, and src/net/sudoku/batch.cc, the client's
      half of it with any number of clients on one loop.
    - Mains: the main functions of the two programs, from the command line to the server with
      its threads and to the batch run.

    ** What the theorems show

    - Connections: the bytes given to the kernel followed by the output buffer are exactly the
      accepted messages, in order ([stream_integrity]); within the rules each theorem states, no
      interleaving of events, functors and foreign calls fails an assertion
      ([connection_safe], [connector_safe], [server_safe], [client_safe]); callbacks come once up and once down
      ([connection_callbacks]); shutdown() flushes first ([shutdown_flushes]); when the queues
      have run dry the server's map holds exactly the connections that are up, and they do
      run dry ([server_settles]); no descriptor is lost ([acceptor_accounts]); a client can be
      destroyed under stated conditions without dangling uses ([client_destroy_safe]).
    - The reactor: no functor queued while the loop runs is stranded behind a sleeping poll
      ([no_lost_wakeup]), functors run once, in order ([functors_fifo]), and do run, within the
      turn that begins next, whatever happens meanwhile ([queued_functors_run]); the kernel's
      interest list follows the channels ([poller_mirrors_kernel]); a turn of the loop handles
      every reported channel although callbacks remove and delete others
      ([dispatch_turn_safe]); one timer expiry runs
      exactly the due timers, whatever the callbacks add and cancel ([handleRead_correct]),
      and no timer is lost or left unarmed ([timer_queue_safe]); a timer of runAfter is called
      when it is due and not before ([runAfter_on_time]); a loop that is constructed, used by its
      own thread and destroyed fails no assertion and leaves no descriptor, registration or timer behind
      ([loop_life]).
    - Sockets and callbacks: a listening socket is set up completely or the process stops
      ([listening_socket_ready]), accept does what its comment says ([accept_documented]),
      TCP_INFO is printed whole ([tcp_info_text_faithful]); a weak callback uses its object
      only while it is alive ([weak_callback_call], [weak_callbacks_interleaved]); an
      exception's trace reads back as the frames ([exception_keeps_trace]).
    - Data: the buffer refines a byte queue ([run_refines]) and rejects what is outside its
      preconditions, for sizes a vector can have ([exec_rejects]); integers, dates, zone files, UTC times, addresses and
      printed numbers survive their round trips; the binary search of the time zone agrees
      with a linear one ([findLocaltime_correct]).
    - Threads: mutual exclusion with a truthful holder ([mutex_excludes]), bounded FIFO queues
      without lost wakeups on either side ([bounded_queue_correct], [pool_correct]), the return
      of stop() and startLoop() under every schedule ([stop_terminates],
      [startLoop_returns]); singletons are made once
      ([singleton_once]) and thread-local objects are private ([threadlocal_private]); an exception
      in a pool's task ends the process, noticed ([pool_thread_ends]).
    - The application: solveSudoku terminates and answers with a solution by the rules of
      Sudoku or, exactly when there is none, with NoSolution ([solveSudoku_correct]); covering
      and uncovering restores every link ([uncover_undoes_cover]); requests without ids and their
      answers survive any cutting of the streams ([requests_any_chunks],
      [batch_session_completes]), whole requests with ids are understood ([requests_with_ids]),
      and the batch run ends with the last solution ([batch_quits_after_last]); the command lines mean
      what they say ([server_main_starts], [batch_main_runs]).
    - Logging: a statement whose text fits its buffer outputs it whole, in one call
      ([log_line_complete]), and no statement writes outside its buffer
      ([log_stream_correct]).
    - Flaws of the code that modelling showed are theorems too, each an execution that goes
      wrong: [server_gone_use_after_free], [send_outlives_connection],
      [destroyed_while_disconnecting], [startRead_after_close], [connect_again_aborts],
      [stop_then_start_aborts], [addTimer_foreign_thread_race], [failed_create_hangs],
      [unfinished_request_aborts], [missing_zone_file], [stop_abandons_tasks],
      [zone_change_ignored], [shrink_content], [disableAll_registers],
      [addTime_loses_microsecond], [no_solution_hangs], [destroy_in_callback_aborts],
      [destroy_after_stop_use_after_free], [slow_turn_aborts], [key_delete_leaks],
      [second_loop_unregisters_first], [destroyed_elsewhere_dangles], [pending_timers_leak],
      [connect_reads_past_address], [server_negative_threads_throws], [batch_never_quits],
      [slow_retry_aborts], [socket_failure_aborts], [stopRead_after_destroy],
      [foreign_send_truncates], [ensureWritable_wraps], [queue_before_loop_waits]. The rules of
      the safety theorems exclude the calls and the timing these need.

    ** Bounds and fuel

    Recursion is structural or on fuel computed from the argument: [Log.convert_loop] runs on
    20 digits' worth, since a 64-bit value has no more; [Sudoku.onMessage_loop] on the
    readable bytes plus one, since every turn consumes a line, and so for
    [Batch.onMessage_loop]; the solver's loops over rings and its recursion on the size of
    the node array plus one ([bound]), since a ring has no more nodes than the array and
    every level covers a column, and a loop that would run longer ends in the fault
    [Diverges]; the search loops of Buffer and TimeZone on the length of what they search. Running out of fuel never coincides with a
    result: the theorems prove the result itself. Sizes are bounded by the
    vector's max_size, 2^63-1; dates by the years -4799 to 1400000, where the Julian
    arithmetic stays in an int; times by 2^62 microseconds where a sum must not overflow.

    ** Not modelled

    ~TcpClient called from another thread than the loop's; ~EventLoop inside one of the loop's
    own event handlers; read, readv and write of sockets_ops.cc, which only forward to the
    system call (its answers are inputs of Buffer, TcpConnection and EventLoop); code that is
    not compiled (setNonBlockAndCloseOnExec, the C++98 half of weak_callback.h,
    async_logging.acc); the installation of SIGPIPE's handler; type names (types.h,
    callbacks.h); the tests. Memory ordering below the atomic actions named above is outside the model. The
    liveness theorems hold for every schedule that lets the threads they are about make steps
    at all. *)

From Stdlib Require Export ZArith Lia ZifyBool.
From Stdlib Require Export Strings.Byte.
From stdpp Require Export base numbers list list_numbers gmap relations.
#[global] Open Scope Z_scope.
#[global] Set Default Goal Selector "!".

Create HintDb ccnet.
Create Rewrite HintDb ccnet.

(** [lia] with the defining equations of division and remainder. *)
Ltac dlia := Z.to_euclidean_division_equations; lia.

(** ** Faults and the result monad

    The code is compiled without [NDEBUG], so a failing [assert] aborts the process; the
    other constructors are the undefined behaviours and exceptions the modelled code can
    run into. *)

Inductive fault :=
  | AssertFailed   (* assert(...) is false: abort() *)
  | OutOfBounds    (* access outside an allocated range *)
  | LengthError    (* std::length_error thrown by std::vector *)
  | UseAfterFree   (* access through a pointer to a deleted object *)
  | NullDeref      (* access through NULL, or a call of an empty std::function *)
  | IntOverflow    (* signed overflow, or a conversion out of the target's range *)
  | FatalAbort     (* LOG_FATAL: flush and abort() *)
  | Diverges.      (* a loop that has run for longer than its bound *)

#[export] Instance fault_eq_dec : EqDecision fault.
Proof. solve_decision. Defined.

Inductive res (A : Type) :=
  | Ok (a : A)
  | Err (f : fault).
Arguments Ok {A} a.
Arguments Err {A} f.

#[export] Instance res_ret : MRet res := @Ok.
#[export] Instance res_bind : MBind res := λ A B k r,
  match r with Ok a => k a | Err f => Err f end.
#[export] Instance res_eq_dec {A} `{EqDecision A} : EqDecision (res A).
Proof. solve_decision. Defined.

Definition assert_ (c : bool) : res unit := if c then Ok tt else Err AssertFailed.
Definition is_ok {A} (r : res A) : bool := match r with Ok _ => true | Err _ => false end.

Lemma bind_Ok {A B} (r : res A) (k : A → res B) b :
  r ≫= k = Ok b ↔ ∃ a, r = Ok a ∧ k a = Ok b.
Proof. destruct r; cbn; naive_solver. Qed.

Lemma assert_Ok c u : assert_ c = Ok u ↔ c = true.
Proof. destruct c, u; cbn; naive_solver. Qed.

Lemma assert_true c : c = true → assert_ c = Ok tt.
Proof. by intros ->. Qed.

(** Runs an operation over a list, threading the state: the for-loops of the source. *)
Fixpoint mfold {A S} (f : A → S → res S) (l : list A) (s : S) : res S :=
  match l with
  | [] => Ok s
  | x :: l' => s' ← f x s; mfold f l' s'
  end.

Lemma mfold_cons {A S} (f : A → S → res S) x l s :
  mfold f (x :: l) s = (s' ← f x s; mfold f l s').
Proof. done. Qed.

Lemma mfold_app {A S} (f : A → S → res S) l1 l2 s :
  mfold f (l1 ++ l2) s = (s' ← mfold f l1 s; mfold f l2 s').
Proof.
  revert s; induction l1 as [|x l1 IH]; intros s; cbn; [done|].
  destruct (f x s); cbn; auto.
Qed.

Lemma mfold_inv {A S} (P : S → Prop) (f : A → S → res S) l s s' :
  (∀ x t t', x ∈ l → P t → f x t = Ok t' → P t') →
  P s → mfold f l s = Ok s' → P s'.
Proof.
  revert s; induction l as [|x l IH]; intros s Hf Hs; cbn; [congruence|].
  intros (t & Ht & Hr)%bind_Ok.
  eapply IH; [|eapply Hf; [left|done|done]|done].
  intros y u u' ?; apply Hf; by right.
Qed.

(** ** Machine integers

    A w-bit integer is a [Z]; [uwrap] and [swrap] are the conversions to the unsigned and
    signed w-bit types. C's [/] and [%] truncate towards zero: [Z.quot] and [Z.rem]. *)

Definition uwrap (w z : Z) : Z := z mod 2 ^ w.
Definition swrap (w z : Z) : Z := (z + 2 ^ (w - 1)) mod 2 ^ w - 2 ^ (w - 1).

Definition u64 : Z → Z := uwrap 64.
Definition i32 : Z → Z := swrap 32.
Definition i64 : Z → Z := swrap 64.

Definition in_u (w z : Z) : Prop := 0 ≤ z < 2 ^ w.
Definition in_s (w z : Z) : Prop := - 2 ^ (w - 1) ≤ z < 2 ^ (w - 1).

Lemma pow_split w : 0 < w → 2 ^ w = 2 * 2 ^ (w - 1).
Proof. intros. replace w with (1 + (w - 1)) at 1 by lia. by rewrite Z.pow_add_r by lia. Qed.

Lemma uwrap_range w z : 0 ≤ w → in_u w (uwrap w z).
Proof. intros. apply Z.mod_pos_bound. by apply Z.pow_pos_nonneg. Qed.

Lemma uwrap_small w z : in_u w z → uwrap w z = z.
Proof. apply Z.mod_small. Qed.

Lemma swrap_range w z : 0 < w → in_s w (swrap w z).
Proof.
  intros Hw. unfold in_s, swrap. pose proof (pow_split w Hw) as E.
  pose proof (Z.mod_pos_bound (z + 2 ^ (w - 1)) (2 ^ w) ltac:(lia)). lia.
Qed.

Lemma swrap_small w z : 0 < w → in_s w z → swrap w z = z.
Proof.
  intros Hw [??]. unfold swrap. pose proof (pow_split w Hw).
  rewrite Z.mod_small; lia.
Qed.

(** Going through the unsigned type and back is the identity on the signed one. *)
Lemma swrap_uwrap w z : 0 < w → swrap w (uwrap w z) = swrap w z.
Proof.
  intros. unfold swrap, uwrap. by rewrite Zplus_mod_idemp_l.
Qed.

Lemma uwrap_swrap w z : 0 < w → uwrap w (swrap w z) = uwrap w z.
Proof.
  intros. unfold swrap, uwrap. rewrite Zminus_mod_idemp_l. f_equal. lia.
Qed.

Lemma u64_small z : 0 ≤ z < 18446744073709551616 → u64 z = z.
Proof. intros. by apply uwrap_small. Qed.

Lemma i32_small z : -2147483648 ≤ z < 2147483648 → i32 z = z.
Proof. intros. by apply swrap_small. Qed.

Lemma i64_small z : -9223372036854775808 ≤ z < 9223372036854775808 → i64 z = z.
Proof. intros. by apply swrap_small. Qed.

(** Signed arithmetic overflows are undefined: [checked w vs r] is the value [r] of an
    expression whose intermediate values are [vs], when all of them are w-bit integers. *)
Definition in_sb (w z : Z) : bool := (- 2 ^ (w - 1) <=? z) && (z <? 2 ^ (w - 1)).
Definition checked (w : Z) (vs : list Z) (r : Z) : res Z :=
  if forallb (in_sb w) (r :: vs) then Ok r else Err IntOverflow.

Lemma in_sb_spec w z : in_sb w z = true ↔ in_s w z.
Proof. unfold in_sb, in_s. lia. Qed.

Lemma checked_ok w vs r : Forall (in_s w) (r :: vs) → checked w vs r = Ok r.
Proof.
  intros H. unfold checked. replace (forallb (in_sb w) (r :: vs)) with true; [done|].
  symmetry. apply forallb_forall. intros x Hx. apply in_sb_spec.
  rewrite List.Forall_forall in H. auto.
Qed.

Lemma checked_Ok_inv w vs r r' : checked w vs r = Ok r' → r' = r ∧ Forall (in_s w) (r :: vs).
Proof.
  unfold checked. destruct (forallb (in_sb w) (r :: vs)) eqn:E; [|done]. intros [= <-].
  split; [done|]. apply List.Forall_forall. intros x Hx. apply in_sb_spec.
  rewrite forallb_forall in E. auto.
Qed.

(** Evaluates the next [checked] whose values are in range, by linear arithmetic. *)
Ltac checked_range :=
  rewrite checked_ok by
    (repeat first [apply Forall_nil_2 | apply Forall_cons_2]; unfold in_s;
     change (2 ^ (32 - 1)) with 2147483648; change (2 ^ (64 - 1)) with 9223372036854775808;
     cbn in *; dlia).

Lemma quot_div a b : 0 ≤ a → 0 < b → Z.quot a b = a / b.
Proof. apply Z.quot_div_nonneg. Qed.

Lemma rem_mod a b : 0 ≤ a → 0 < b → Z.rem a b = a mod b.
Proof. apply Z.rem_mod_nonneg. Qed.

(** ** Reachability of step relations *)

Lemma rtc_invariant {S} (R : relation S) (P : S → Prop) s s' :
  (∀ a b, P a → R a b → P b) → P s → rtc R s s' → P s'.
Proof. intros HR Hs Hrt. induction Hrt; eauto. Qed.

(** ** Liveness against every schedule

    [inevitably mine other P s]: from [s] the [mine] steps come to a state with [P], whichever
    of them are taken and whatever the others do. Between two of them any number of [other]
    steps may happen; after these a [mine] step must be possible, and each that is possible
    must lead on. The only thing left to the scheduler is that [mine] steps are taken at all. *)
Section Inevitably.
Context {S : Type} (mine other : relation S).

Inductive inevitably (P : S → Prop) (s : S) : Prop :=
  | inevitably_now : P s → inevitably P s
  | inevitably_later :
      (∀ s1, rtc other s s1 → ∃ s2, mine s1 s2) →
      (∀ s1 s2, rtc other s s1 → mine s1 s2 → inevitably P s2) → inevitably P s.

Lemma inevitably_trans (P Q : S → Prop) s :
  inevitably P s → (∀ s', P s' → inevitably Q s') → inevitably Q s.
Proof. induction 1 as [s Hs|s Hp _ IH]; intros HQ; [by apply HQ|]. apply inevitably_later; eauto. Qed.

(** A measure that own steps lower and the others leave alone. *)
Lemma inevitably_measure (I P : S → Prop) (m : S → nat) :
  (∀ s s', I s → other s s' → I s' ∧ m s' = m s) →
  (∀ s s', I s → mine s s' → I s' ∧ (m s' < m s)%nat) →
  (∀ s, I s → m s = 0%nat → P s) →
  (∀ s, I s → m s ≠ 0%nat → ∃ s', mine s s') →
  ∀ s, I s → inevitably P s.
Proof.
  intros Ho Hm HP Hprog s. remember (m s) as k eqn:Ek. revert s Ek.
  induction (lt_wf k) as [k _ IH]. intros s -> HI.
  destruct (decide (m s = 0%nat)) as [E|Hne]; [by apply inevitably_now, HP|].
  assert (∀ s1, rtc other s s1 → I s1 ∧ m s1 = m s) as Hrt.
  { intros s1. apply (rtc_invariant other (λ s1, I s1 ∧ m s1 = m s)); [|done].
    intros a b [Ia Ea] Hab. destruct (Ho a b Ia Hab). split; [done|congruence]. }
  apply inevitably_later.
  - intros s1 [I1 E1]%Hrt. apply Hprog; [done|congruence].
  - intros s1 s2 [I1 E1]%Hrt H12. destruct (Hm s1 s2 I1 H12) as [I2 Hlt].
    apply (IH (m s2)); [by rewrite <-E1|done|done].
Qed.
End Inevitably.

(** ** Bytes and the memory image of integers *)

Definition byte_unsigned (b : byte) : Z := Z.of_N (Byte.to_N b).
Definition byte_of_Z (z : Z) : byte := default x00 (Byte.of_N (Z.to_N (z mod 256))).

Lemma byte_unsigned_range b : 0 ≤ byte_unsigned b < 256.
Proof. unfold byte_unsigned. pose proof (Byte.to_N_bounded b). lia. Qed.

Lemma byte_unsigned_of_Z z : byte_unsigned (byte_of_Z z) = z mod 256.
Proof.
  pose proof (Z.mod_pos_bound z 256 ltac:(lia)) as Hz.
  unfold byte_unsigned, byte_of_Z.
  destruct (Byte.of_N (Z.to_N (z mod 256))) as [b|] eqn:E; cbn.
  - apply Byte.to_of_N in E. rewrite E. lia.
  - apply Byte.of_N_None_iff in E. lia.
Qed.

Lemma byte_unsigned_inj b1 b2 : byte_unsigned b1 = byte_unsigned b2 → b1 = b2.
Proof.
  unfold byte_unsigned. intros H%N2Z.inj.
  pose proof (Byte.of_to_N b1). pose proof (Byte.of_to_N b2). congruence.
Qed.

Lemma byte_of_Z_unsigned b : byte_of_Z (byte_unsigned b) = b.
Proof.
  apply byte_unsigned_inj. rewrite byte_unsigned_of_Z.
  apply Z.mod_small, byte_unsigned_range.
Qed.

#[export] Instance byte_eq_dec : EqDecision byte.
Proof. intros a b. exact (Byte.byte_eq_dec a b). Defined.

(** The [n] low-order bytes of [z], least significant first, and back. *)
Fixpoint le_bytes (n : nat) (z : Z) : list byte :=
  match n with
  | O => []
  | S n' => byte_of_Z z :: le_bytes n' (z / 256)
  end.

Fixpoint le_value (bs : list byte) : Z :=
  match bs with
  | [] => 0
  | b :: bs' => byte_unsigned b + 256 * le_value bs'
  end.

Lemma length_le_bytes n z : length (le_bytes n z) = n.
Proof. revert z; induction n as [|n IH]; intros z; cbn; auto. Qed.

Lemma le_value_range bs : 0 ≤ le_value bs < 256 ^ Z.of_nat (length bs).
Proof.
  induction bs as [|b bs IH]; [done|]. cbn [le_value length].
  rewrite Nat2Z.inj_succ, Z.pow_succ_r by lia.
  pose proof (byte_unsigned_range b). lia.
Qed.

Lemma le_value_bytes n z : le_value (le_bytes n z) = z mod 256 ^ Z.of_nat n.
Proof.
  revert z; induction n as [|n IH]; intros z; cbn [le_bytes le_value].
  - by rewrite Z.mod_1_r.
  - rewrite IH, byte_unsigned_of_Z, Nat2Z.inj_succ, Z.pow_succ_r by lia.
    rewrite Z.rem_mul_r; [lia| |apply Z.pow_pos_nonneg]; lia.
Qed.

Lemma le_bytes_value bs : le_bytes (length bs) (le_value bs) = bs.
Proof.
  induction bs as [|b bs IH]; [done|]. cbn [le_value length le_bytes].
  pose proof (byte_unsigned_range b). f_equal.
  - apply byte_unsigned_inj. rewrite byte_unsigned_of_Z.
    rewrite Z.mul_comm, Z.mod_add by lia. by apply Z.mod_small.
  - rewrite Z.mul_comm, Z.div_add by lia. by rewrite Z.div_small by lia.
Qed.

(** ** Ranges of a vector

    [slice off len l] reads [len] elements from offset [off]; [list_write off d l] is
    [memcpy(l.data() + off, d, d.size())]; [copy_loop] is [std::copy] inside one vector,
    element by element from the front, so that overlapping ranges behave as in C++. *)

Abbreviation zlen l := (Z.of_nat (length l)).

Definition slice {A} (off len : Z) (l : list A) : list A :=
  take (Z.to_nat len) (drop (Z.to_nat off) l).

Definition list_write {A} (off : Z) (d l : list A) : list A :=
  take (Z.to_nat off) l ++ d ++ drop (Z.to_nat off + length d) l.

Fixpoint copy_loop {A} (n src dst : nat) (l : list A) : list A :=
  match n with
  | O => l
  | S n' =>
      match l !! src with
      | Some x => copy_loop n' (S src) (S dst) (<[dst := x]> l)
      | None => l
      end
  end.

Lemma length_slice {A} off len (l : list A) :
  0 ≤ off → 0 ≤ len → off + len ≤ zlen l → zlen (slice off len l) = len.
Proof. intros. unfold slice. rewrite length_take, length_drop. lia. Qed.

Lemma length_list_write {A} off (d l : list A) :
  0 ≤ off → off + zlen d ≤ zlen l → length (list_write off d l) = length l.
Proof.
  intros. unfold list_write. rewrite !length_app, length_take, length_drop. lia.
Qed.

Lemma slice_all {A} (l : list A) : slice 0 (zlen l) l = l.
Proof. unfold slice. rewrite drop_0. apply firstn_all2. lia. Qed.

Lemma slice_0 {A} off (l : list A) : slice off 0 l = [].
Proof. done. Qed.

Lemma slice_slice {A} o1 n1 o2 n2 (l : list A) :
  0 ≤ o1 → 0 ≤ o2 → 0 ≤ n2 → o2 + n2 ≤ n1 →
  slice o2 n2 (slice o1 n1 l) = slice (o1 + o2) n2 l.
Proof.
  intros. unfold slice. rewrite skipn_firstn_comm, drop_drop, take_take.
  f_equal; [lia|]. f_equal. lia.
Qed.

Lemma slice_split {A} off n1 n2 (l : list A) :
  0 ≤ off → 0 ≤ n1 → 0 ≤ n2 →
  slice off (n1 + n2) l = slice off n1 l ++ slice (off + n1) n2 l.
Proof.
  intros. unfold slice.
  rewrite !Z2Nat.inj_add, <-drop_drop by lia.
  by rewrite take_take_drop.
Qed.

Lemma slice_write_before {A} off n o d (l : list A) :
  0 ≤ off → 0 ≤ n → off + n ≤ o → o ≤ zlen l →
  slice off n (list_write o d l) = slice off n l.
Proof.
  intros. unfold slice, list_write.
  rewrite drop_app_le by (rewrite length_take; lia).
  rewrite take_app_le by (rewrite length_drop, length_take; lia).
  rewrite skipn_firstn_comm, take_take. f_equal. lia.
Qed.

Lemma slice_write_same {A} o (d l : list A) :
  0 ≤ o → o ≤ zlen l → slice o (zlen d) (list_write o d l) = d.
Proof.
  intros. unfold slice, list_write.
  rewrite drop_app_length' by (rewrite length_take; lia).
  rewrite take_app_length'; [done|lia].
Qed.

Lemma slice_write_after {A} off n o d (l : list A) :
  0 ≤ o → o + zlen d ≤ off → o + zlen d ≤ zlen l →
  slice off n (list_write o d l) = slice off n l.
Proof.
  intros. unfold slice, list_write. f_equal.
  rewrite app_assoc, drop_app_ge by (rewrite length_app, length_take; lia).
  rewrite drop_drop, length_app, length_take. f_equal. lia.
Qed.

Lemma slice_lookup {A} off n (l : list A) i :
  0 ≤ off → 0 ≤ n → (Z.of_nat i < n) →
  slice off n l !! i = l !! (Z.to_nat off + i)%nat.
Proof. intros. unfold slice. rewrite lookup_take_lt by lia. by rewrite lookup_drop. Qed.

(** [std::copy] to a lower address moves the range whole: it is [memmove]. *)
Lemma length_copy_loop {A} n src dst (l : list A) : length (copy_loop n src dst l) = length l.
Proof.
  revert src dst l; induction n as [|n IH]; intros src dst l; cbn; [done|].
  destruct (l !! src); [|done]. by rewrite IH, length_insert.
Qed.

Lemma copy_loop_lookup {A} n src dst (l : list A) i :
  (dst ≤ src)%nat → (src + n ≤ length l)%nat →
  copy_loop n src dst l !! i =
    if decide (dst ≤ i < dst + n)%nat then l !! (src + (i - dst))%nat else l !! i.
Proof.
  revert src dst l; induction n as [|n IH]; intros src dst l Hd Hl; cbn.
  - rewrite decide_False by lia. done.
  - destruct (lookup_lt_is_Some_2 l src ltac:(lia)) as [x Hx]. rewrite Hx.
    rewrite IH by (rewrite ?length_insert; lia).
    destruct (decide (S dst ≤ i < S dst + n)%nat).
    + rewrite decide_True by lia. rewrite list_lookup_insert_ne by lia.
      f_equal. lia.
    + destruct (decide (i = dst)) as [->|].
      * rewrite list_lookup_insert_eq by lia. rewrite decide_True by lia.
        rewrite <-Hx. f_equal. lia.
      * rewrite list_lookup_insert_ne by lia. rewrite decide_False by lia. done.
Qed.

Lemma copy_loop_memmove {A} n src dst (l : list A) :
  0 ≤ n → 0 ≤ dst ≤ src → src + n ≤ zlen l →
  copy_loop (Z.to_nat n) (Z.to_nat src) (Z.to_nat dst) l = list_write dst (slice src n l) l.
Proof.
  intros. apply list_eq. intros i. rewrite copy_loop_lookup by lia.
  pose proof (length_slice src n l ltac:(lia) ltac:(lia) ltac:(lia)) as Hlen.
  unfold list_write. case_decide.
  - rewrite lookup_app_r by (rewrite length_take; lia).
    rewrite length_take, lookup_app_l by lia.
    rewrite slice_lookup by lia. f_equal. lia.
  - destruct (decide (i < Z.to_nat dst)%nat).
    + rewrite lookup_app_l by (rewrite length_take; lia).
      by rewrite lookup_take_lt by lia.
    + rewrite lookup_app_r by (rewrite length_take; lia).
      rewrite length_take, lookup_app_r by lia.
      rewrite lookup_drop. f_equal. lia.
Qed.

(** ** Counting in a list *)
Definition cnt {A} `{EqDecision A} (x : A) (l : list A) : nat := length (filter (λ y, y = x) l).

Section Cnt.
Context {A : Type} `{EqDecision A}.
Implicit Types (x y : A) (l : list A).

Lemma cnt_app x l1 l2 : cnt x (l1 ++ l2) = (cnt x l1 + cnt x l2)%nat.
Proof. unfold cnt. by rewrite filter_app, length_app. Qed.
Lemma cnt_cons x y l : cnt x (y :: l) = ((if decide (y = x) then 1 else 0) + cnt x l)%nat.
Proof. unfold cnt. rewrite filter_cons. by destruct (decide (y = x)). Qed.
Lemma cnt_nil x : cnt x [] = 0%nat.
Proof. done. Qed.
Lemma cnt_perm x l1 l2 : l1 ≡ₚ l2 → cnt x l1 = cnt x l2.
Proof. intros Hp. unfold cnt. by rewrite Hp. Qed.
Lemma cnt_pos x l : (0 < cnt x l)%nat ↔ x ∈ l.
Proof.
  induction l as [|y l IH].
  { rewrite cnt_nil. split; [lia|]. by intros ?%not_elem_of_nil. }
  rewrite cnt_cons, elem_of_cons, <-IH.
  destruct (decide (y = x)) as [->|]; [naive_solver lia|]. split; [auto|]. intros [->|?]; [done|lia].
Qed.
End Cnt.
#[global] Arguments cnt : simpl never.
#[export] Hint Rewrite @cnt_app @cnt_cons @cnt_nil : ccnet.

(** [byte] as a key of finite maps. *)
#[export] Instance byte_countable : Countable byte.
Proof.
  apply (inj_countable Byte.to_N Byte.of_N). intros b. apply Byte.of_to_N.
Defined.
