(* ===== verification/Endian.v ===== *)
(** * Byte order (net/endian.h)

    [hostToNetwork*] and [networkToHost*] wrap htobe/betoh of <endian.h>, which swap the
    bytes of an integer on a little-endian host and are the identity on a big-endian one.
    The host's byte order is a variable of the section, so every theorem about the wire
    format holds on both kinds of host. *)

From S2P Require Import Prelude.

Inductive endianness := LittleEndian | BigEndian.

(** The object representation of an [n]-byte unsigned integer, and its inverse. *)
Definition store (host : endianness) (n : nat) (z : Z) : list byte :=
  match host with LittleEndian => le_bytes n z | BigEndian => rev (le_bytes n z) end.
Definition load (host : endianness) (bs : list byte) : Z :=
  match host with LittleEndian => le_value bs | BigEndian => le_value (rev bs) end.

(** The integer with its [n] bytes reversed. *)
Definition bswap (n : nat) (z : Z) : Z := le_value (rev (le_bytes n z)).

(** htobe16/32/64 and be16/32/64toh. *)
Definition htobe (host : endianness) (n : nat) (z : Z) : Z :=
  match host with LittleEndian => bswap n z | BigEndian => z end.
Definition betoh (host : endianness) (n : nat) (z : Z) : Z :=
  match host with LittleEndian => bswap n z | BigEndian => z end.

Definition hostToNetwork64 (host : endianness) (host64 : Z) : Z := htobe host 8 host64.
Definition hostToNetwork32 (host : endianness) (host32 : Z) : Z := htobe host 4 host32.
Definition hostToNetwork16 (host : endianness) (host16 : Z) : Z := htobe host 2 host16.
Definition networkToHost64 (host : endianness) (net64 : Z) : Z := betoh host 8 net64.
Definition networkToHost32 (host : endianness) (net32 : Z) : Z := betoh host 4 net32.
Definition networkToHost16 (host : endianness) (net16 : Z) : Z := betoh host 2 net16.

(** The network representation: most significant byte first. *)
Definition be_bytes (n : nat) (z : Z) : list byte := rev (le_bytes n z).

Lemma length_be_bytes n z : length (be_bytes n z) = n.
Proof. unfold be_bytes. by rewrite length_rev, length_le_bytes. Qed.

Lemma length_store host n z : length (store host n z) = n.
Proof. destruct host; cbn; [|rewrite length_rev]; apply length_le_bytes. Qed.

Lemma le_bytes_mod n z : le_bytes n (z mod 256 ^ Z.of_nat n) = le_bytes n z.
Proof.
  rewrite <-le_value_bytes.
  rewrite <-(length_le_bytes n z) at 1. apply le_bytes_value.
Qed.

Lemma le_bytes_bswap n z : le_bytes n (bswap n z) = be_bytes n z.
Proof.
  unfold bswap. rewrite <-(length_be_bytes n z) at 1. apply le_bytes_value.
Qed.

(** Storing a host integer converted to network order writes its big-endian bytes. *)
Lemma store_htobe host n z : store host n (htobe host n z) = be_bytes n z.
Proof. destruct host; cbn; [apply le_bytes_bswap|done]. Qed.

(** Loading [n] bytes and converting to host order reads a big-endian number. *)
Lemma betoh_load host n bs : length bs = n → betoh host n (load host bs) = le_value (rev bs).
Proof.
  intros <-. destruct host; cbn; [|done].
  unfold bswap. by rewrite le_bytes_value.
Qed.

Lemma be_value_be_bytes n z : le_value (rev (be_bytes n z)) = z mod 256 ^ Z.of_nat n.
Proof. unfold be_bytes. rewrite rev_involutive. apply le_value_bytes. Qed.

Lemma pow256 n : 256 ^ Z.of_nat n = 2 ^ (8 * Z.of_nat n).
Proof. by rewrite Z.pow_mul_r by lia. Qed.

(** The two conversions are inverse to each other on [n]-byte integers. *)
Lemma betoh_htobe host n z :
  0 ≤ z < 256 ^ Z.of_nat n → betoh host n (htobe host n z) = z.
Proof.
  intros Hz. destruct host; cbn; [|done].
  unfold bswap at 1. rewrite le_bytes_bswap, be_value_be_bytes.
  by apply Z.mod_small.
Qed.

(** Reading the [n] network-order bytes of [x] back as a signed integer. *)
Lemma decode_wire host n x :
  (0 < n)%nat →
  swrap (8 * Z.of_nat n) (betoh host n (load host (be_bytes n x))) = swrap (8 * Z.of_nat n) x.
Proof.
  intros. rewrite betoh_load by apply length_be_bytes.
  rewrite be_value_be_bytes, pow256. apply swrap_uwrap. lia.
Qed.
