(* ===== verification/StringPiece.v ===== *)
(** * StringPiece (base/string_piece.h)

    A non-owning window on characters: a pointer and an [int] length. The pointer is
    modelled by the memory it can read, the list of the bytes from its target to the end of
    the object it points into ([NULL] reads nothing); reading past it is [OutOfBounds]. *)

From S2P Require Import Prelude.

Module SP.

Record StringPiece := mkStringPiece { ptr_ : list byte; length_ : Z }.

(** The constructors and setters. [strlen] counts the bytes before the first NUL. *)
Fixpoint strlen (s : list byte) : res Z :=
  match s with
  | [] => Err OutOfBounds
  | b :: s' => if decide (b = x00) then Ok 0 else n ← strlen s'; Ok (n + 1)
  end.

Definition StringPiece_null : StringPiece := mkStringPiece [] 0.
Definition StringPiece_cstr (str : list byte) : res StringPiece :=
  n ← strlen str; Ok (mkStringPiece str (i32 n)).
(* a std::string's data() is NUL-terminated *)
Definition StringPiece_string (str : list byte) : StringPiece :=
  mkStringPiece (str ++ [x00]) (i32 (zlen str)).
Definition StringPiece_len (offset : list byte) (len : Z) : StringPiece :=
  mkStringPiece offset len.

Definition data (s : StringPiece) : list byte := ptr_ s.
Definition size (s : StringPiece) : Z := length_ s.
Definition empty (s : StringPiece) : bool := length_ s =? 0.
Definition clear (s : StringPiece) : StringPiece := mkStringPiece [] 0.
Definition set_len (s : StringPiece) (buffer : list byte) (len : Z) : StringPiece :=
  mkStringPiece buffer len.
Definition set_cstr (s : StringPiece) (str : list byte) : res StringPiece :=
  n ← strlen str; Ok (mkStringPiece str (i32 n)).

Definition index (s : StringPiece) (i : Z) : res byte :=
  if bool_decide (0 ≤ i) then
    match ptr_ s !! Z.to_nat i with Some b => Ok b | None => Err OutOfBounds end
  else Err OutOfBounds.

Definition remove_prefix (s : StringPiece) (n : Z) : res StringPiece :=
  if bool_decide (0 ≤ n ≤ zlen (ptr_ s))
  then Ok (mkStringPiece (drop (Z.to_nat n) (ptr_ s)) (i32 (length_ s - n)))
  else Err OutOfBounds.
Definition remove_suffix (s : StringPiece) (n : Z) : StringPiece :=
  mkStringPiece (ptr_ s) (i32 (length_ s - n)).

(** memcmp(p, q, n): the first differing byte, compared as unsigned char. *)
Fixpoint memcmp (p q : list byte) (n : nat) : res Z :=
  match n, p, q with
  | O, _, _ => Ok 0
  | S n', a :: p', b :: q' =>
      let d := byte_unsigned a - byte_unsigned b in
      if d =? 0 then memcmp p' q' n' else Ok d
  | S _, _, _ => Err OutOfBounds
  end.

(** A negative [int] passed as memcmp's size_t is far larger than any object. *)
Definition memcmp_int (p q : list byte) (n : Z) : res Z :=
  if n <? 0 then Err OutOfBounds else memcmp p q (Z.to_nat n).

Definition op_eq (s x : StringPiece) : res bool :=
  if length_ s =? length_ x then
    r ← memcmp_int (ptr_ s) (ptr_ x) (length_ s); Ok (r =? 0)
  else Ok false.
Definition op_ne (s x : StringPiece) : res bool := r ← op_eq s x; Ok (negb r).

(** STRINGPIECE_BINARY_PREDICATE(cmp, auxcmp) *)
Definition binary_predicate (cmp auxcmp : Z → Z → bool) (s x : StringPiece) : res bool :=
  r ← memcmp_int (ptr_ s) (ptr_ x) (if length_ s <? length_ x then length_ s else length_ x);
  Ok (auxcmp r 0 || ((r =? 0) && cmp (length_ s) (length_ x))).
Definition op_lt : StringPiece → StringPiece → res bool := binary_predicate Z.ltb Z.ltb.
Definition op_le : StringPiece → StringPiece → res bool := binary_predicate Z.leb Z.ltb.
Definition op_ge : StringPiece → StringPiece → res bool := binary_predicate Z.geb Z.gtb.
Definition op_gt : StringPiece → StringPiece → res bool := binary_predicate Z.gtb Z.gtb.

Definition compare (s x : StringPiece) : res Z :=
  r ← memcmp_int (ptr_ s) (ptr_ x) (if length_ s <? length_ x then length_ s else length_ x);
  Ok (if r =? 0 then
        if length_ s <? length_ x then -1
        else if length_ s >? length_ x then 1 else r
      else r).

Definition as_string (s : StringPiece) : res (list byte) :=
  if bool_decide (0 ≤ length_ s ≤ zlen (ptr_ s))
  then Ok (take (Z.to_nat (length_ s)) (ptr_ s)) else Err OutOfBounds.

(** target->assign(ptr_, length_): what was in the target is gone. *)
Definition CopyToString (s : StringPiece) (target : list byte) : res (list byte) := as_string s.
Definition CopyToStdString (s : StringPiece) (target : list byte) : res (list byte) := as_string s.

(** StringArg: a C string, from a char pointer or a std::string (c_str() ends in a NUL). *)
Record StringArg := mkStringArg { str_ : list byte }.
Definition StringArg_cstr (str : list byte) : StringArg := mkStringArg str.
Definition StringArg_string (str : list byte) : StringArg := mkStringArg (str ++ [x00]).
Definition c_str (a : StringArg) : list byte := str_ a.

Definition starts_with (s x : StringPiece) : res bool :=
  if length_ s >=? length_ x then
    r ← memcmp_int (ptr_ s) (ptr_ x) (length_ x); Ok (r =? 0)
  else Ok false.

(** ** Well-formed pieces and the string they show *)

Definition wf (s : StringPiece) : Prop := 0 ≤ length_ s ≤ zlen (ptr_ s) ∧ length_ s < 2 ^ 31.
Definition view (s : StringPiece) : list byte := take (Z.to_nat (length_ s)) (ptr_ s).

(** The reference order: lexicographic on unsigned bytes, a prefix first. *)
Fixpoint lex (a b : list byte) : comparison :=
  match a, b with
  | [], [] => Eq
  | [], _ => Lt
  | _, [] => Gt
  | x :: a', y :: b' =>
      match byte_unsigned x ?= byte_unsigned y with Eq => lex a' b' | c => c end
  end.

Definition sign_of (c : comparison) : Z := match c with Eq => 0 | Lt => -1 | Gt => 1 end.

Lemma length_view s : wf s → zlen (view s) = length_ s.
Proof. intros [? _]. unfold view. rewrite length_take. lia. Qed.

Lemma memcmp_lex p q n m :
  (n ≤ length p)%nat → (m ≤ length q)%nat →
  ∃ r, memcmp p q (n `min` m) = Ok r ∧
    lex (take n p) (take m q) =
      (if r =? 0 then Nat.compare n m else r ?= 0).
Proof.
  revert q n m; induction p as [|a p IH]; intros q n m Hn Hm; cbn in Hn.
  - destruct n as [|n]; [|lia]. exists 0. destruct q as [|b q]; cbn in Hm.
    + destruct m; [done|lia].
    + by destruct m.
  - destruct n as [|n].
    { exists 0. destruct m; cbn; [by destruct q|]. destruct q; cbn in *; [lia|done]. }
    destruct m as [|m]; [by exists 0|]. destruct q as [|b q]; cbn in Hm; [lia|].
    destruct (IH q n m) as (r & Hr & Hlex); [lia..|]. cbn [Nat.min memcmp take lex].
    destruct (Z.eqb_spec (byte_unsigned a - byte_unsigned b) 0) as [E|E].
    + exists r. split; [done|].
      replace (byte_unsigned a ?= byte_unsigned b) with Eq; [done|].
      symmetry. apply Z.compare_eq_iff. lia.
    + eexists; split; [done|]. apply Z.eqb_neq in E as E'. rewrite E'.
      destruct (Z.compare_spec (byte_unsigned a) (byte_unsigned b));
        destruct (Z.compare_spec (byte_unsigned a - byte_unsigned b) 0); try done; lia.
Qed.

Lemma memcmp_int_lex s x : wf s → wf x →
  ∃ r, memcmp_int (ptr_ s) (ptr_ x)
         (if length_ s <? length_ x then length_ s else length_ x) = Ok r ∧
    lex (view s) (view x) = (if r =? 0 then length_ s ?= length_ x else r ?= 0).
Proof.
  intros [Hs _] [Hx _].
  destruct (memcmp_lex (ptr_ s) (ptr_ x) (Z.to_nat (length_ s)) (Z.to_nat (length_ x)))
    as (r & Hr & Hlex); [lia..|].
  exists r. split.
  - unfold memcmp_int. rewrite <-Hr.
    assert (∀ z, 0 ≤ z → (z <? 0) = false) as Hz by (intros; lia).
    destruct (Z.ltb_spec (length_ s) (length_ x)); rewrite Hz by lia; f_equal; lia.
  - unfold view. rewrite Hlex. destruct (r =? 0); [|done].
    by rewrite <-Z2Nat.inj_compare by lia.
Qed.

(** [compare] and the six comparison operators never read out of
    bounds on well-formed pieces and decide the lexicographic order of the shown strings. *)
Theorem comparisons_lex (s x : StringPiece) (Hs : wf s) (Hx : wf x) :
  (∃ r, compare s x = Ok r ∧ Z.sgn r = sign_of (lex (view s) (view x))) ∧
  op_lt s x = Ok (match lex (view s) (view x) with Lt => true | _ => false end) ∧
  op_le s x = Ok (match lex (view s) (view x) with Gt => false | _ => true end) ∧
  op_ge s x = Ok (match lex (view s) (view x) with Lt => false | _ => true end) ∧
  op_gt s x = Ok (match lex (view s) (view x) with Gt => true | _ => false end).
Proof.
  destruct (memcmp_int_lex s x Hs Hx) as (r & Hr & Hlex).
  unfold compare, op_lt, op_le, op_ge, op_gt, binary_predicate. rewrite Hr, Hlex. cbn.
  unfold Z.ltb, Z.leb, Z.geb, Z.gtb.
  split; [eexists; split; [done|]|];
    destruct (Z.eqb_spec r 0) as [->|?];
    destruct (Z.compare_spec (length_ s) (length_ x));
    try destruct (Z.compare_spec r 0); subst; cbn; try done; lia.
Qed.

Lemma memcmp_eq p q n :
  (n ≤ length p)%nat → (n ≤ length q)%nat →
  ∃ r, memcmp p q n = Ok r ∧ (r = 0 ↔ take n p = take n q).
Proof.
  revert q n; induction p as [|a p IH]; intros q n Hp Hq; cbn in Hp.
  - destruct n; [|lia]. exists 0. destruct q; done.
  - destruct n as [|n]; [by exists 0|]. destruct q as [|b q]; cbn in Hq; [lia|].
    destruct (IH q n) as (r & Hr & Hiff); [lia..|]. cbn [memcmp take].
    destruct (Z.eqb_spec (byte_unsigned a - byte_unsigned b) 0).
    + assert (a = b) as -> by (apply byte_unsigned_inj; lia).
      exists r. split; [done|]. rewrite Hiff. split; [by intros ->|by intros [= ->]].
    + eexists; split; [done|]. split; [lia|]. intros [= -> _]. lia.
Qed.

(** [==] decides equality of the shown strings and [starts_with] the prefix relation. *)
Theorem equality_and_prefix (s x : StringPiece) (Hs : wf s) (Hx : wf x) :
  op_eq s x = Ok (bool_decide (view s = view x)) ∧
  op_ne s x = Ok (bool_decide (view s ≠ view x)) ∧
  starts_with s x = Ok (bool_decide (view x `prefix_of` view s)).
Proof.
  pose proof (length_view s Hs) as Ls. pose proof (length_view x Hx) as Lx.
  assert (op_eq s x = Ok (bool_decide (view s = view x))) as E.
  { unfold op_eq, memcmp_int. destruct (Z.eqb_spec (length_ s) (length_ x)) as [El|El].
    - destruct Hs as [Hs _], Hx as [Hx _]. destruct (Z.ltb_spec (length_ s) 0); [lia|].
      destruct (memcmp_eq (ptr_ s) (ptr_ x) (Z.to_nat (length_ s))) as (r & -> & Hr); [lia..|].
      cbn. f_equal. unfold view. rewrite <-El. apply eq_bool_prop_intro.
      rewrite bool_decide_spec, <-Hr. split; [|by intros ->].
      intros Hr0%Is_true_true. lia.
    - rewrite bool_decide_false; [done|]. intros E. rewrite E in Ls. lia. }
  split_and!; [done| |].
  - unfold op_ne. rewrite E. cbn. f_equal. by rewrite bool_decide_not.
  - unfold starts_with, memcmp_int. destruct (Z.geb_spec (length_ s) (length_ x)) as [El|El].
    + destruct Hs as [Hs _], Hx as [Hx _]. destruct (Z.ltb_spec (length_ x) 0); [lia|].
      destruct (memcmp_eq (ptr_ s) (ptr_ x) (Z.to_nat (length_ x))) as (r & -> & Hr); [lia..|].
      cbn. f_equal. apply eq_bool_prop_intro. rewrite bool_decide_spec.
      transitivity (r = 0); [split; [intros Hr0%Is_true_true; lia|by intros ->]|].
      rewrite Hr. unfold view. split.
      * intros <-. exists (drop (Z.to_nat (length_ x)) (take (Z.to_nat (length_ s)) (ptr_ s))).
        replace (take (Z.to_nat (length_ x)) (ptr_ s)) with
          (take (Z.to_nat (length_ x)) (take (Z.to_nat (length_ s)) (ptr_ s)))
          by (rewrite take_take; f_equal; lia).
        by rewrite take_drop.
      * intros [k Hk]. apply (f_equal (take (Z.to_nat (length_ x)))) in Hk.
        rewrite take_take, take_app_length' in Hk by (rewrite length_take; lia).
        rewrite <-Hk. f_equal. lia.
    + rewrite bool_decide_false; [done|]. intros ?%prefix_length. lia.
Qed.

End SP.
