(* ===== verification/Buffer.v ===== *)
(** * Buffer (net/buffer.h, net/buffer.cc)

    The application-level buffer of a connection: a vector with a read and a write index.
    The vector is a list of bytes, the indices are [size_t] values ([Z] with wrap-around at
    2^64 written out), a [const char*] into the buffer is the index it points at, and NULL
    is [None]. Operations that assert, throw or touch memory return [res].

    [content] is the abstract value, the queue of readable bytes; [Spec] below states what
    each operation does to that queue and [exec_refines] that the code does it. *)

From S2P Require Import Prelude Endian StringPiece.

Module Buf.

Record Buffer := mkBuffer {
  buffer_ : list byte;
  readerIndex_ : Z;
  writerIndex_ : Z
}.

Definition kCheapPrepend : Z := 8.
Definition kInitialSize : Z := 1024.
Definition kCRLF : list byte := [x0d; x0a].

(** std::vector<char>: max_size() is PTRDIFF_MAX, [resize] value-initialises the tail. *)
Definition max_size : Z := 9223372036854775807.
Definition vec_make (n : Z) : res (list byte) :=
  if n >? max_size then Err LengthError else Ok (replicate (Z.to_nat n) x00).
Definition vec_resize (n : Z) (l : list byte) : res (list byte) :=
  if n >? max_size then Err LengthError
  else Ok (take (Z.to_nat n) l ++ replicate (Z.to_nat n - length l) x00).

Definition vsize (b : Buffer) : Z := zlen (buffer_ b).

Definition readableBytes (b : Buffer) : Z := u64 (writerIndex_ b - readerIndex_ b).
Definition writableBytes (b : Buffer) : Z := u64 (vsize b - writerIndex_ b).
Definition prependableBytes (b : Buffer) : Z := readerIndex_ b.

Definition newBuffer (initialSize : Z) : res Buffer :=
  v ← vec_make (u64 (kCheapPrepend + initialSize));
  let b := mkBuffer v kCheapPrepend kCheapPrepend in
  _ ← assert_ (readableBytes b =? 0);
  _ ← assert_ (writableBytes b =? initialSize);
  _ ← assert_ (prependableBytes b =? kCheapPrepend);
  Ok b.

(** swap exchanges the three members of the two buffers. *)
Definition swap (b rhs : Buffer) : Buffer * Buffer :=
  (mkBuffer (buffer_ rhs) (readerIndex_ rhs) (writerIndex_ rhs),
   mkBuffer (buffer_ b) (readerIndex_ b) (writerIndex_ b)).

Definition peek (b : Buffer) : Z := readerIndex_ b.
Definition beginWrite (b : Buffer) : Z := writerIndex_ b.

(** The bytes of the range [first, last). *)
Definition range (b : Buffer) (first last : Z) : list byte :=
  slice first (last - first) (buffer_ b).

(** std::search for a pattern: the offset of the first match, or the length of the range. *)
Fixpoint std_search (hay pat : list byte) : Z :=
  match hay with
  | [] => 0
  | _ :: hay' => if bool_decide (pat `prefix_of` hay) then 0 else 1 + std_search hay' pat
  end.

(** memchr: the offset of the first byte equal to [c]. *)
Fixpoint memchr (l : list byte) (c : byte) : option Z :=
  match l with
  | [] => None
  | x :: l' => if decide (x = c) then Some 0 else Z.succ <$> memchr l' c
  end.

Definition findCRLF (b : Buffer) : option Z :=
  let crlf := peek b + std_search (range b (peek b) (beginWrite b)) kCRLF in
  if crlf =? beginWrite b then None else Some crlf.

Definition findCRLF_from (b : Buffer) (start : Z) : res (option Z) :=
  _ ← assert_ (peek b <=? start);
  _ ← assert_ (start <=? beginWrite b);
  let crlf := start + std_search (range b start (beginWrite b)) kCRLF in
  Ok (if crlf =? beginWrite b then None else Some crlf).

Definition findEOL (b : Buffer) : option Z :=
  Z.add (peek b) <$> memchr (slice (peek b) (readableBytes b) (buffer_ b)) x0a.

Definition findEOL_from (b : Buffer) (start : Z) : res (option Z) :=
  _ ← assert_ (peek b <=? start);
  _ ← assert_ (start <=? beginWrite b);
  Ok (Z.add start <$> memchr (range b start (beginWrite b)) x0a).

Definition retrieveAll (b : Buffer) : Buffer :=
  mkBuffer (buffer_ b) kCheapPrepend kCheapPrepend.

Definition retrieve (b : Buffer) (len : Z) : res Buffer :=
  _ ← assert_ (len <=? readableBytes b);
  Ok (if len <? readableBytes b
      then mkBuffer (buffer_ b) (u64 (readerIndex_ b + len)) (writerIndex_ b)
      else retrieveAll b).

Definition retrieveUntil (b : Buffer) (end_ : Z) : res Buffer :=
  _ ← assert_ (peek b <=? end_);
  _ ← assert_ (end_ <=? beginWrite b);
  retrieve b (u64 (end_ - peek b)).

Definition retrieveInt64 (b : Buffer) : res Buffer := retrieve b 8.
Definition retrieveInt32 (b : Buffer) : res Buffer := retrieve b 4.
Definition retrieveInt16 (b : Buffer) : res Buffer := retrieve b 2.
Definition retrieveInt8 (b : Buffer) : res Buffer := retrieve b 1.

(** string result(peek(), len): reads [len] bytes of the vector. *)
Definition read_mem (b : Buffer) (off len : Z) : res (list byte) :=
  if bool_decide (0 ≤ off ∧ 0 ≤ len ∧ off + len ≤ vsize b)
  then Ok (slice off len (buffer_ b)) else Err OutOfBounds.

Definition retrieveAsString (b : Buffer) (len : Z) : res (list byte * Buffer) :=
  _ ← assert_ (len <=? readableBytes b);
  result ← read_mem b (peek b) len;
  b' ← retrieve b len;
  Ok (result, b').

Definition retrieveAllAsString (b : Buffer) : res (list byte * Buffer) :=
  retrieveAsString b (readableBytes b).

(** StringPiece(peek(), static_cast<int>(readableBytes())) *)
Definition toStringPiece (b : Buffer) : SP.StringPiece :=
  SP.StringPiece_len (drop (Z.to_nat (peek b)) (buffer_ b)) (i32 (readableBytes b)).

Definition makeSpace (b : Buffer) (len : Z) : res Buffer :=
  if u64 (writableBytes b + prependableBytes b) <? u64 (len + kCheapPrepend) then
    v ← vec_resize (u64 (writerIndex_ b + len)) (buffer_ b);
    Ok (mkBuffer v (readerIndex_ b) (writerIndex_ b))
  else
    _ ← assert_ (kCheapPrepend <? readerIndex_ b);
    let readable := readableBytes b in
    let v := copy_loop (Z.to_nat (writerIndex_ b - readerIndex_ b))
               (Z.to_nat (readerIndex_ b)) (Z.to_nat kCheapPrepend) (buffer_ b) in
    let b' := mkBuffer v kCheapPrepend (u64 (kCheapPrepend + readable)) in
    _ ← assert_ (readable =? readableBytes b');
    Ok b'.

Definition ensureWritableBytes (b : Buffer) (len : Z) : res Buffer :=
  b' ← (if writableBytes b <? len then makeSpace b len else Ok b);
  _ ← assert_ (len <=? writableBytes b');
  Ok b'.

Definition hasWritten (b : Buffer) (len : Z) : res Buffer :=
  _ ← assert_ (len <=? writableBytes b);
  Ok (mkBuffer (buffer_ b) (readerIndex_ b) (u64 (writerIndex_ b + len))).

Definition unwrite (b : Buffer) (len : Z) : res Buffer :=
  _ ← assert_ (len <=? readableBytes b);
  Ok (mkBuffer (buffer_ b) (readerIndex_ b) (u64 (writerIndex_ b - len))).

(** std::copy(d, d+len, begin()+off): [d] must have [len] bytes and the vector room. *)
Definition copy_in (b : Buffer) (off : Z) (d : list byte) (len : Z) : res Buffer :=
  if bool_decide (0 ≤ len ≤ zlen d ∧ 0 ≤ off ∧ off + len ≤ vsize b)
  then Ok (mkBuffer (list_write off (take (Z.to_nat len) d) (buffer_ b))
             (readerIndex_ b) (writerIndex_ b))
  else Err OutOfBounds.

Definition append (b : Buffer) (d : list byte) (len : Z) : res Buffer :=
  b1 ← ensureWritableBytes b len;
  b2 ← copy_in b1 (beginWrite b1) d len;
  hasWritten b2 len.

(** append(const StringPiece&): the [int] size converts to [size_t]. *)
Definition append_piece (b : Buffer) (str : SP.StringPiece) : res Buffer :=
  append b (SP.data str) (u64 (SP.size str)).

Definition prepend (b : Buffer) (d : list byte) (len : Z) : res Buffer :=
  _ ← assert_ (len <=? prependableBytes b);
  let b' := mkBuffer (buffer_ b) (u64 (readerIndex_ b - len)) (writerIndex_ b) in
  copy_in b' (readerIndex_ b') d len.

Definition shrink (b : Buffer) (reserve : Z) : res Buffer :=
  other ← newBuffer kInitialSize;
  other ← ensureWritableBytes other (u64 (readableBytes b + reserve));
  other ← append_piece other (toStringPiece b);
  Ok (fst (swap b other)).

(** ** Integers in network byte order, on a host of either endianness *)

Section Ints.
Context (host : endianness).

Definition appendInt64 (b : Buffer) (x : Z) : res Buffer :=
  let be64 := hostToNetwork64 host (uwrap 64 x) in append b (store host 8 be64) 8.
Definition appendInt32 (b : Buffer) (x : Z) : res Buffer :=
  let be32 := hostToNetwork32 host (uwrap 32 x) in append b (store host 4 be32) 4.
Definition appendInt16 (b : Buffer) (x : Z) : res Buffer :=
  let be16 := hostToNetwork16 host (uwrap 16 x) in append b (store host 2 be16) 2.
Definition appendInt8 (b : Buffer) (x : Z) : res Buffer :=
  append b (store host 1 (uwrap 8 x)) 1.

Definition peekInt64 (b : Buffer) : res Z :=
  _ ← assert_ (8 <=? readableBytes b);
  bs ← read_mem b (peek b) 8;
  Ok (swrap 64 (networkToHost64 host (load host bs))).
Definition peekInt32 (b : Buffer) : res Z :=
  _ ← assert_ (4 <=? readableBytes b);
  bs ← read_mem b (peek b) 4;
  Ok (swrap 32 (networkToHost32 host (load host bs))).
Definition peekInt16 (b : Buffer) : res Z :=
  _ ← assert_ (2 <=? readableBytes b);
  bs ← read_mem b (peek b) 2;
  Ok (swrap 16 (networkToHost16 host (load host bs))).
Definition peekInt8 (b : Buffer) : res Z :=
  _ ← assert_ (1 <=? readableBytes b);
  bs ← read_mem b (peek b) 1;
  Ok (swrap 8 (load host bs)).

Definition readInt64 (b : Buffer) : res (Z * Buffer) :=
  result ← peekInt64 b; b' ← retrieveInt64 b; Ok (result, b').
Definition readInt32 (b : Buffer) : res (Z * Buffer) :=
  result ← peekInt32 b; b' ← retrieveInt32 b; Ok (result, b').
Definition readInt16 (b : Buffer) : res (Z * Buffer) :=
  result ← peekInt16 b; b' ← retrieveInt16 b; Ok (result, b').
Definition readInt8 (b : Buffer) : res (Z * Buffer) :=
  result ← peekInt8 b; b' ← retrieveInt8 b; Ok (result, b').

Definition prependInt64 (b : Buffer) (x : Z) : res Buffer :=
  let be64 := hostToNetwork64 host (uwrap 64 x) in prepend b (store host 8 be64) 8.
Definition prependInt32 (b : Buffer) (x : Z) : res Buffer :=
  let be32 := hostToNetwork32 host (uwrap 32 x) in prepend b (store host 4 be32) 4.
Definition prependInt16 (b : Buffer) (x : Z) : res Buffer :=
  let be16 := hostToNetwork16 host (uwrap 16 x) in prepend b (store host 2 be16) 2.
Definition prependInt8 (b : Buffer) (x : Z) : res Buffer :=
  prepend b (store host 1 (uwrap 8 x)) 1.

End Ints.

(** ** readFd

    readv(2) is the kernel's: it is given the two iovecs and either fails with an errno or
    fills them in order with the bytes it read. [iov_capacity] is what the code offers. *)

Definition extrabuf_size : Z := 65536.
Definition iovcnt (b : Buffer) : Z := if writableBytes b <? extrabuf_size then 2 else 1.
Definition iov_capacity (b : Buffer) : Z :=
  if iovcnt b =? 2 then writableBytes b + extrabuf_size else writableBytes b.

(** The kernel's answer: an errno, or the bytes read (none at end of stream). *)
Inductive read_result := ReadErr (errno : Z) | ReadOk (bytes : list byte).

(** The bytes land first in the writable part of the vector, the rest in [extrabuf].
    Returns the count, or -1 with the saved errno. *)
Definition readFd (b : Buffer) (r : read_result) : res (Z * Z * Buffer) :=
  let writable := writableBytes b in
  match r with
  | ReadErr e => Ok (-1, e, b)
  | ReadOk bs =>
      let n := zlen bs in
      let first := take (Z.to_nat writable) bs in
      let extrabuf := drop (Z.to_nat writable) bs in
      let b1 := mkBuffer (list_write (writerIndex_ b) first (buffer_ b))
                  (readerIndex_ b) (writerIndex_ b) in
      if n <=? writable then
        Ok (n, 0, mkBuffer (buffer_ b1) (readerIndex_ b1) (u64 (writerIndex_ b1 + n)))
      else
        let b2 := mkBuffer (buffer_ b1) (readerIndex_ b1) (vsize b1) in
        b3 ← append b2 extrabuf (u64 (n - writable));
        Ok (n, 0, b3)
  end.

(** ** Well-formedness and the abstract value *)

Definition wf (b : Buffer) : Prop :=
  0 ≤ readerIndex_ b ≤ writerIndex_ b ∧ writerIndex_ b ≤ vsize b ≤ max_size ∧
  kCheapPrepend ≤ vsize b.

Definition content (b : Buffer) : list byte :=
  slice (readerIndex_ b) (writerIndex_ b - readerIndex_ b) (buffer_ b).

(** Room for [len] more bytes: writable already, or after moving the readable bytes to the
    front, or after growing the vector within max_size(). *)
Definition room (b : Buffer) (len : Z) : Prop :=
  len ≤ writableBytes b ∨ len + kCheapPrepend ≤ writableBytes b + prependableBytes b ∨
  writerIndex_ b + len ≤ max_size.

#[export] Instance room_dec b len : Decision (room b len).
Proof. unfold room. apply _. Defined.

Ltac unfold_consts := unfold max_size, kCheapPrepend, kInitialSize, extrabuf_size in *.

Lemma wf_readable b : wf b → readableBytes b = writerIndex_ b - readerIndex_ b.
Proof. unfold wf, readableBytes. unfold_consts. intros. apply u64_small. lia. Qed.

Lemma wf_writable b : wf b → writableBytes b = vsize b - writerIndex_ b.
Proof. unfold wf, writableBytes. unfold_consts. intros. apply u64_small. lia. Qed.

Lemma length_content b : wf b → zlen (content b) = readableBytes b.
Proof.
  intros Hwf. rewrite wf_readable by done. unfold wf, vsize in Hwf.
  apply length_slice; lia.
Qed.

(** Changes of state that keep well-formedness and have a known effect on the content. *)
Lemma content_write_end b d w' :
  wf b → zlen d ≤ vsize b - writerIndex_ b → w' = writerIndex_ b + zlen d →
  let b' := mkBuffer (list_write (writerIndex_ b) d (buffer_ b)) (readerIndex_ b) w' in
  wf b' ∧ content b' = content b ++ d.
Proof.
  unfold wf, vsize, content. cbn. intros Hwf Hd ->.
  rewrite length_list_write by lia. split; [lia|].
  replace (writerIndex_ b + zlen d - readerIndex_ b) with
    ((writerIndex_ b - readerIndex_ b) + zlen d) by lia.
  rewrite slice_split, slice_write_before by lia. f_equal.
  replace (readerIndex_ b + (writerIndex_ b - readerIndex_ b)) with (writerIndex_ b) by lia.
  rewrite slice_write_same by lia. done.
Qed.

Lemma content_write_front b d :
  wf b → zlen d ≤ readerIndex_ b →
  let b' := mkBuffer (list_write (readerIndex_ b - zlen d) d (buffer_ b))
              (readerIndex_ b - zlen d) (writerIndex_ b) in
  wf b' ∧ content b' = d ++ content b.
Proof.
  unfold wf, vsize, content. cbn. intros Hwf Hd.
  rewrite length_list_write by lia. split; [lia|].
  replace (writerIndex_ b - (readerIndex_ b - zlen d)) with
    (zlen d + (writerIndex_ b - readerIndex_ b)) by lia.
  rewrite slice_split, slice_write_same by lia. f_equal.
  rewrite slice_write_after by lia. f_equal. lia.
Qed.

Lemma content_drop_front b n :
  wf b → 0 ≤ n ≤ readableBytes b →
  let b' := mkBuffer (buffer_ b) (readerIndex_ b + n) (writerIndex_ b) in
  wf b' ∧ content b' = drop (Z.to_nat n) (content b).
Proof.
  intros Hwf Hn. rewrite wf_readable in Hn by done. unfold wf, vsize, content in *. cbn.
  split; [lia|]. unfold slice. rewrite skipn_firstn_comm, drop_drop.
  f_equal; [lia|]. f_equal. lia.
Qed.

Lemma content_take b n :
  wf b → 0 ≤ n ≤ readableBytes b →
  let b' := mkBuffer (buffer_ b) (readerIndex_ b) (writerIndex_ b - n) in
  wf b' ∧ content b' = take (length (content b) - Z.to_nat n) (content b).
Proof.
  intros Hwf Hn. pose proof (length_content b Hwf) as Hl.
  rewrite wf_readable in * by done. unfold wf, vsize, content in *. cbn.
  split; [lia|]. unfold slice at 1 3. rewrite take_take. f_equal. lia.
Qed.

Lemma retrieveAll_spec b :
  wf b → wf (retrieveAll b) ∧ content (retrieveAll b) = [].
Proof. unfold wf, vsize, content, retrieveAll. unfold_consts. cbn. split; [lia|done]. Qed.
(** ** The operations, one by one *)

Lemma newBuffer_spec n : 0 ≤ n → n + kCheapPrepend ≤ max_size →
  ∃ b, newBuffer n = Ok b ∧ wf b ∧ content b = [] ∧
       writableBytes b = n ∧ prependableBytes b = kCheapPrepend.
Proof.
  intros Hn Hmax. unfold newBuffer, vec_make. unfold_consts.
  rewrite u64_small by lia. destruct (Z.gtb_spec (8 + n) 9223372036854775807); [lia|]. cbn [mbind res_bind].
  set (b := mkBuffer _ _ _).
  assert (wf b) as Hwf.
  { unfold wf, vsize. subst b. cbn [buffer_ readerIndex_ writerIndex_]. rewrite length_replicate. unfold_consts. lia. }
  assert (writableBytes b = n) as Hw.
  { rewrite wf_writable by done. unfold vsize. subst b. cbn [buffer_ writerIndex_]. rewrite length_replicate. lia. }
  assert (readableBytes b = 0) as Hr by (rewrite wf_readable by done; done).
  assert (prependableBytes b = 8) as Hp by done.
  exists b. split_and!; try done.
  rewrite Hr, Hw, Hp, !Z.eqb_refl. done.
Qed.

Lemma makeSpace_spec b len :
  wf b → writableBytes b < len ≤ max_size → room b len →
  ∃ b', makeSpace b len = Ok b' ∧ wf b' ∧ content b' = content b ∧ len ≤ writableBytes b' ∧
        writerIndex_ b' ≤ writerIndex_ b.
Proof.
  intros Hwf Hlen Hroom. pose proof (wf_writable b Hwf) as Hw. pose proof (wf_readable b Hwf) as Hr.
  pose proof Hwf as (Hrw & Hws & H8). unfold room, makeSpace, prependableBytes in *.
  rewrite Hw in *. unfold vsize in *. unfold_consts. rewrite !u64_small by lia.
  destruct (Z.ltb_spec (zlen (buffer_ b) - writerIndex_ b + readerIndex_ b) (len + 8)) as [Hs|Hs].
  - unfold vec_resize. unfold_consts.
    destruct (Z.gtb_spec (writerIndex_ b + len) 9223372036854775807); [lia|]. cbn.
    rewrite firstn_all2 by lia. eexists; split; [done|].
    assert (wf (mkBuffer (buffer_ b ++ replicate
      (Z.to_nat (writerIndex_ b + len) - length (buffer_ b)) x00) (readerIndex_ b) (writerIndex_ b))) as Hwf'.
    { unfold wf, vsize; cbn. rewrite length_app, length_replicate. unfold_consts. lia. }
    split_and!; [done| | |done].
    + unfold content, slice; cbn. rewrite drop_app_le, take_app_le; [done| |lia].
      rewrite length_drop. lia.
    + rewrite wf_writable by done. unfold vsize; cbn. rewrite length_app, length_replicate. lia.
  - destruct (Z.ltb_spec 8 (readerIndex_ b)); [|lia]. cbn [assert_ mbind res_bind].
    rewrite ?Hr, ?u64_small by lia.
    rewrite copy_loop_memmove by lia.
    set (b' := mkBuffer _ _ _).
    assert (zlen (slice (readerIndex_ b) (writerIndex_ b - readerIndex_ b) (buffer_ b)) =
            writerIndex_ b - readerIndex_ b) as Hl by (apply length_slice; lia).
    assert (wf b') as Hwf'.
    { unfold wf, vsize, b'; cbn. rewrite length_list_write by lia. unfold_consts. lia. }
    rewrite (wf_readable b' Hwf').
    exists b'. split_and!; [|done| | |cbn; lia].
    + cbn. destruct (Z.eqb_spec (writerIndex_ b - readerIndex_ b) (8 + (writerIndex_ b - readerIndex_ b) - 8)); [done|lia].
    + unfold content. cbn. rewrite <-Hl at 1.
      replace (8 + _ - 8) with (zlen (slice (readerIndex_ b) (writerIndex_ b - readerIndex_ b) (buffer_ b))) by lia.
      apply slice_write_same; lia.
    + rewrite wf_writable by done. unfold vsize, b'; cbn. rewrite length_list_write by lia. lia.
Qed.
Lemma ensureWritableBytes_spec b len :
  wf b → len ≤ max_size → room b len →
  ∃ b', ensureWritableBytes b len = Ok b' ∧ wf b' ∧ content b' = content b ∧
        len ≤ writableBytes b' ∧ writerIndex_ b' ≤ writerIndex_ b.
Proof.
  intros Hwf Hlen Hroom. unfold ensureWritableBytes.
  destruct (Z.ltb_spec (writableBytes b) len).
  - destruct (makeSpace_spec b len) as (b' & -> & ? & ? & ? & ?); [done|lia|done|].
    exists b'. cbn. by rewrite assert_true by lia.
  - exists b. cbn. by rewrite assert_true by lia.
Qed.

Lemma ensureWritableBytes_full b len :
  wf b → len ≤ max_size → ¬ room b len → ensureWritableBytes b len = Err LengthError.
Proof.
  intros Hwf Hlen Hroom. pose proof (wf_writable b Hwf) as Hw. pose proof Hwf as (?&?&?).
  unfold room, ensureWritableBytes, makeSpace, vec_resize, prependableBytes in *.
  rewrite Hw in *. unfold_consts.
  destruct (Z.ltb_spec (vsize b - writerIndex_ b) len); [|lia]. rewrite !u64_small by lia.
  destruct (Z.ltb_spec (vsize b - writerIndex_ b + readerIndex_ b) (len + 8)); [|lia].
  by destruct (Z.gtb_spec (writerIndex_ b + len) 9223372036854775807); [|lia].
Qed.

Lemma hasWritten_copy b d :
  wf b → zlen d ≤ writableBytes b →
  ∃ b', (b2 ← copy_in b (beginWrite b) d (zlen d); hasWritten b2 (zlen d)) = Ok b' ∧
        wf b' ∧ content b' = content b ++ d ∧ writerIndex_ b' = writerIndex_ b + zlen d.
Proof.
  intros Hwf Hd. rewrite wf_writable in Hd by done. pose proof Hwf as (?&?&?).
  destruct (content_write_end b d _ Hwf Hd eq_refl) as [Hwf' Hc].
  unfold copy_in, beginWrite. rewrite bool_decide_true by (unfold vsize in *; lia).
  cbn. rewrite firstn_all2 by lia. unfold hasWritten. cbn.
  set (b2 := mkBuffer _ _ (writerIndex_ b)).
  assert (wf b2) as Hwf2.
  { clear Hwf' Hc. unfold wf, vsize, b2 in *; cbn in *.
    rewrite length_list_write by lia. lia. }
  rewrite assert_true.
  - cbn. rewrite u64_small by (unfold vsize in *; unfold_consts; lia). by eexists.
  - rewrite wf_writable by done. unfold vsize, b2 in *; cbn.
    rewrite length_list_write by lia. lia.
Qed.

Lemma append_spec b d :
  wf b → zlen d ≤ max_size → room b (zlen d) →
  ∃ b', append b d (zlen d) = Ok b' ∧ wf b' ∧ content b' = content b ++ d ∧
        writerIndex_ b' ≤ writerIndex_ b + zlen d.
Proof.
  intros Hwf Hlen Hroom. unfold append.
  destruct (ensureWritableBytes_spec b _ Hwf Hlen Hroom) as (b1 & -> & Hwf1 & <- & ? & ?).
  cbn [mbind res_bind]. destruct (hasWritten_copy b1 d) as (b' & ? & ? & ? & ?); [done..|].
  exists b'. split_and!; [done..|lia].
Qed.

Lemma append_full b d :
  wf b → zlen d ≤ max_size → ¬ room b (zlen d) → append b d (zlen d) = Err LengthError.
Proof. intros. unfold append. by rewrite ensureWritableBytes_full. Qed.

Lemma prepend_spec b d :
  wf b → zlen d ≤ readerIndex_ b →
  ∃ b', prepend b d (zlen d) = Ok b' ∧ wf b' ∧ content b' = d ++ content b.
Proof.
  intros Hwf Hd. pose proof Hwf as (?&?&?).
  destruct (content_write_front b d Hwf Hd) as [Hwf' Hc].
  unfold prepend, prependableBytes, copy_in.
  rewrite assert_true by lia. cbn. rewrite u64_small by (unfold vsize in *; unfold_consts; lia).
  rewrite bool_decide_true by (unfold vsize in *; cbn; lia).
  rewrite firstn_all2 by lia. by eexists.
Qed.

Lemma retrieve_spec b n :
  wf b → 0 ≤ n ≤ readableBytes b →
  ∃ b', retrieve b n = Ok b' ∧ wf b' ∧ content b' = drop (Z.to_nat n) (content b).
Proof.
  intros Hwf Hn. unfold retrieve. rewrite assert_true by lia. cbn.
  pose proof (length_content b Hwf) as Hl.
  destruct (Z.ltb_spec n (readableBytes b)).
  - rewrite wf_readable in Hn by done. pose proof Hwf as (?&?&?).
    rewrite u64_small by (unfold_consts; lia). eexists; split; [done|].
    apply content_drop_front; [done|]. rewrite wf_readable by done. lia.
  - eexists; split; [done|]. rewrite skipn_all2 by lia. by apply retrieveAll_spec.
Qed.

Lemma retrieve_fails b n : readableBytes b < n → retrieve b n = Err AssertFailed.
Proof.
  intros. unfold retrieve, assert_. by destruct (Z.leb_spec n (readableBytes b)); [lia|].
Qed.

Lemma read_mem_content b n :
  wf b → 0 ≤ n ≤ readableBytes b → read_mem b (peek b) n = Ok (take (Z.to_nat n) (content b)).
Proof.
  intros Hwf Hn. rewrite wf_readable in Hn by done. pose proof Hwf as (?&?&?).
  unfold read_mem, peek, content. rewrite bool_decide_true by (unfold vsize in *; lia).
  f_equal. unfold slice. rewrite take_take. f_equal. lia.
Qed.

Lemma retrieveAsString_spec b n :
  wf b → 0 ≤ n ≤ readableBytes b →
  ∃ b', retrieveAsString b n = Ok (take (Z.to_nat n) (content b), b') ∧ wf b' ∧
        content b' = drop (Z.to_nat n) (content b).
Proof.
  intros Hwf Hn. unfold retrieveAsString.
  rewrite assert_true, read_mem_content by (done || lia). cbn.
  destruct (retrieve_spec b n Hwf Hn) as (b' & -> & ?). by exists b'.
Qed.

Lemma unwrite_spec b n :
  wf b → 0 ≤ n ≤ readableBytes b →
  ∃ b', unwrite b n = Ok b' ∧ wf b' ∧
        content b' = take (length (content b) - Z.to_nat n) (content b).
Proof.
  intros Hwf Hn. unfold unwrite. rewrite assert_true by lia. cbn.
  pose proof (content_take b n Hwf Hn) as Hc.
  rewrite wf_readable in Hn by done. pose proof Hwf as (?&?&?).
  rewrite u64_small by (unfold_consts; lia). by eexists.
Qed.

Lemma readFd_room b bs :
  wf b → zlen bs ≤ iov_capacity b →
  vsize b + extrabuf_size ≤ max_size ∨ readableBytes b + 4 * extrabuf_size ≤ max_size →
  ∃ b', readFd b (ReadOk bs) = Ok (zlen bs, 0, b') ∧ wf b' ∧ content b' = content b ++ bs.
Proof.
  intros Hwf Hcap Hmax. pose proof Hwf as (?&?&?). pose proof (wf_writable b Hwf) as Hw.
  unfold readFd, iov_capacity, iovcnt in *. rewrite Hw in *.
  destruct (Z.leb_spec (zlen bs) (vsize b - writerIndex_ b)) as [Hle|Hle].
  - rewrite firstn_all2 by (unfold vsize in *; lia).
    destruct (content_write_end b bs _ Hwf Hle eq_refl). cbn.
    rewrite u64_small by (unfold_consts; lia). by eexists.
  - destruct (Z.ltb_spec (vsize b - writerIndex_ b) extrabuf_size); cbn in Hcap; [|lia].
    set (first := take _ bs). set (rest := drop _ bs).
    assert (zlen first = vsize b - writerIndex_ b) as Hf.
    { subst first. rewrite length_take. unfold vsize in *. lia. }
    assert (zlen rest = zlen bs - (vsize b - writerIndex_ b)) as Hrest.
    { subst rest. rewrite length_drop. unfold vsize in *. lia. }
    destruct (content_write_end b first (vsize b) Hwf) as [Hwf' Hc]; [lia..|]. cbn [buffer_ readerIndex_ writerIndex_].
    set (b1 := mkBuffer _ _ (vsize b)) in *.
    assert (vsize (mkBuffer (list_write (writerIndex_ b) first (buffer_ b))
              (readerIndex_ b) (writerIndex_ b)) = vsize b) as ->.
    { unfold vsize in *; cbn. rewrite length_list_write; lia. }
    fold b1. unfold_consts. rewrite <-Hrest, u64_small by lia.
    destruct (append_spec b1 rest) as (b' & Hb' & ? & Hc' & _); [done|unfold_consts; lia| |].
    { unfold room. rewrite wf_writable by done. rewrite wf_readable in Hmax by done.
      unfold b1, prependableBytes, vsize in *; cbn in *. rewrite length_list_write in * by lia.
      unfold_consts. lia. }
    rewrite Hb'. cbn. exists b'. split_and!; try done.
    rewrite Hc', Hc, <-app_assoc. f_equal. subst first rest. apply take_drop.
Qed.

Lemma readFd_spec b bs :
  wf b → zlen bs ≤ iov_capacity b → vsize b + extrabuf_size ≤ max_size →
  ∃ b', readFd b (ReadOk bs) = Ok (zlen bs, 0, b') ∧ wf b' ∧ content b' = content b ++ bs.
Proof. intros. apply readFd_room; auto. Qed.

(** Room for [len] bytes follows from a bound on the readable bytes alone. *)
Lemma room_of_readable b len :
  wf b → 0 ≤ len → readableBytes b + 2 * len + kCheapPrepend ≤ max_size → room b len.
Proof.
  intros Hwf Hlen. rewrite wf_readable by done. pose proof Hwf as (?&?&?). unfold room.
  rewrite wf_writable by done. unfold prependableBytes. lia.
Qed.

(** ** The contract: a queue of bytes

    [op] lists the state-changing operations, [exec] runs the code, [spec] says what the
    operation does to the queue of readable bytes and what it returns, and [pre] is the
    documented precondition (lengths within the readable or prependable bytes, memory
    within max_size(), and for [readFd] a kernel that does not overrun the iovecs). *)

Inductive op :=
  | OpAppend (d : list byte)
  | OpPrepend (d : list byte)
  | OpRetrieve (n : Z)
  | OpRetrieveAll
  | OpRetrieveAsString (n : Z)
  | OpRetrieveAllAsString
  | OpUnwrite (n : Z)
  | OpEnsureWritable (n : Z)
  | OpReadFd (bs : list byte).

Definition no_output (r : res Buffer) : res (list byte * Buffer) := b ← r; Ok ([], b).

Definition exec (o : op) (b : Buffer) : res (list byte * Buffer) :=
  match o with
  | OpAppend d => no_output (append b d (zlen d))
  | OpPrepend d => no_output (prepend b d (zlen d))
  | OpRetrieve n => no_output (retrieve b n)
  | OpRetrieveAll => Ok ([], retrieveAll b)
  | OpRetrieveAsString n => retrieveAsString b n
  | OpRetrieveAllAsString => retrieveAllAsString b
  | OpUnwrite n => no_output (unwrite b n)
  | OpEnsureWritable n => no_output (ensureWritableBytes b n)
  | OpReadFd bs => no_output ('(_, _, b') ← readFd b (ReadOk bs); Ok b')
  end.

Definition spec (o : op) (q : list byte) : list byte * list byte :=
  match o with
  | OpAppend d => ([], q ++ d)
  | OpPrepend d => ([], d ++ q)
  | OpRetrieve n => ([], drop (Z.to_nat n) q)
  | OpRetrieveAll => ([], [])
  | OpRetrieveAsString n => (take (Z.to_nat n) q, drop (Z.to_nat n) q)
  | OpRetrieveAllAsString => (q, [])
  | OpUnwrite n => ([], take (length q - Z.to_nat n) q)
  | OpEnsureWritable _ => ([], q)
  | OpReadFd bs => ([], q ++ bs)
  end.

Definition pre (o : op) (b : Buffer) : Prop :=
  match o with
  | OpAppend d => zlen d ≤ max_size ∧ room b (zlen d)
  | OpPrepend d => zlen d ≤ prependableBytes b
  | OpRetrieve n | OpRetrieveAsString n | OpUnwrite n => 0 ≤ n ≤ readableBytes b
  | OpRetrieveAll | OpRetrieveAllAsString => True
  | OpEnsureWritable n => n ≤ max_size ∧ room b n
  | OpReadFd bs => zlen bs ≤ iov_capacity b ∧ vsize b + extrabuf_size ≤ max_size
  end.

#[export] Instance pre_dec o b : Decision (pre o b).
Proof. destruct o; cbn [pre]; apply _. Defined.

Fixpoint run (os : list op) (b : Buffer) : res (list (list byte) * Buffer) :=
  match os with
  | [] => Ok ([], b)
  | o :: os' => '(out, b') ← exec o b; '(outs, b'') ← run os' b'; Ok (out :: outs, b'')
  end.

Fixpoint spec_run (os : list op) (q : list byte) : list (list byte) * list byte :=
  match os with
  | [] => ([], q)
  | o :: os' => let '(out, q') := spec o q in let '(outs, q'') := spec_run os' q' in (out :: outs, q'')
  end.

(** The precondition holds at each operation of the run. *)
Fixpoint admissible (os : list op) (b : Buffer) : bool :=
  match os with
  | [] => true
  | o :: os' => bool_decide (pre o b) &&
                match exec o b with Ok (_, b') => admissible os' b' | Err _ => true end
  end.

Lemma exec_refines o b :
  wf b → pre o b →
  ∃ b', exec o b = Ok (fst (spec o (content b)), b') ∧ wf b' ∧
        content b' = snd (spec o (content b)).
Proof.
  intros Hwf Hpre. pose proof (length_content b Hwf) as Hl.
  destruct o; cbn [exec spec pre fst snd] in Hpre |- *.
  - destruct (append_spec b d) as (b' & -> & ? & ? & _); [by destruct_and?..|by exists b'].
  - destruct (prepend_spec b d) as (b' & -> & ?); [done..|by exists b'].
  - destruct (retrieve_spec b n) as (b' & -> & ?); [done..|by exists b'].
  - exists (retrieveAll b). split; [done|]. by apply retrieveAll_spec.
  - by apply retrieveAsString_spec.
  - pose proof (wf_readable b Hwf). pose proof Hwf as (?&?&?).
    destruct (retrieveAsString_spec b (readableBytes b)) as (b' & Hb' & Hwf' & Hc); [done|lia|].
    unfold retrieveAllAsString. rewrite Hb'. exists b'.
    rewrite firstn_all2 by lia. split_and!; [done..|]. rewrite Hc. apply skipn_all2. lia.
  - destruct (unwrite_spec b n) as (b' & -> & ?); [done..|by exists b'].
  - destruct (ensureWritableBytes_spec b n) as (b' & -> & ? & ? & _); [by destruct_and?..|by exists b'].
  - destruct (readFd_spec b bs) as (b' & Hb' & ?); [by destruct_and?..|]. rewrite Hb'. by exists b'.
Qed.

(** C9: every sequence of buffer operations whose documented preconditions hold runs to
    completion without a failed assertion, exception or out-of-bounds access, returns
    exactly what the byte-queue specification returns, and leaves a well-formed buffer
    whose readable bytes are the specified queue. *)
Theorem run_refines (os : list op) (b : Buffer) (Hwf : wf b) (Hadm : admissible os b = true) :
  ∃ b', run os b = Ok (fst (spec_run os (content b)), b') ∧ wf b' ∧
        content b' = snd (spec_run os (content b)).
Proof.
  revert b Hwf Hadm; induction os as [|o os IH]; intros b Hwf Hadm; cbn in *; [by exists b|].
  apply andb_true_iff in Hadm as [Hpre%bool_decide_eq_true Hadm].
  destruct (exec_refines o b Hwf Hpre) as (b1 & Hex & Hwf1 & Hc1). rewrite Hex in *.
  destruct (IH b1 Hwf1 Hadm) as (b2 & Hrun & Hwf2 & Hc2). cbn. rewrite Hrun. cbn.
  exists b2. rewrite Hc1 in *.
  destruct (spec o (content b)) as [out q]. cbn in *.
  by destruct (spec_run os q).
Qed.

Definition demo_ops : list op :=
  [OpAppend [x61; x62; x63; x64; x65]; OpRetrieve 3; OpPrepend [x7a]; OpAppend [x66; x67];
   OpReadFd [x68; x69; x6a]; OpUnwrite 1; OpRetrieveAsString 2; OpEnsureWritable 40;
   OpRetrieveAllAsString].

Lemma run_refines_witness :
  ∃ b', run demo_ops (mkBuffer (replicate 14 x00) 8 8) =
          Ok ([[]; []; []; []; []; []; [x7a; x64]; []; [x65; x66; x67; x68; x69]], b') ∧
        wf b' ∧ content b' = [].
Proof.
  apply (run_refines demo_ops (mkBuffer (replicate 14 x00) 8 8)).
  - vm_compute. repeat split; discriminate.
  - vm_compute. reflexivity.
Defined.

(** C32: outside the preconditions the code stops at the assertion (or, when the vector
    would exceed max_size(), with std::length_error) before it changes the buffer or reads
    past its bytes. This is so for sizes up to the vector's max_size(), 2^63-1: with larger
    ones the sums in makeSpace wrap round ([ensureWritable_wraps]). readFd is left out, as its
    only precondition is on the kernel. *)
Theorem exec_rejects (o : op) (b : Buffer) (Hwf : wf b) (Hpre : ¬ pre o b)
    (Harg : match o with
            | OpAppend d => zlen d ≤ max_size
            | OpRetrieve n | OpRetrieveAsString n | OpUnwrite n => 0 ≤ n
            | OpEnsureWritable n => n ≤ max_size
            | OpReadFd _ => False
            | _ => True
            end) :
  exec o b = Err match o with OpAppend _ | OpEnsureWritable _ => LengthError | _ => AssertFailed end.
Proof.
  assert (∀ x y, ¬ x ≤ y → assert_ (x <=? y) = Err AssertFailed) as Ha.
  { intros x y ?. unfold assert_. by destruct (Z.leb_spec x y); [lia|]. }
  destruct o; cbn in Hpre, Harg |- *; try done.
  - rewrite append_full by naive_solver. done.
  - unfold prepend. by rewrite Ha.
  - by rewrite retrieve_fails by lia.
  - unfold retrieveAsString. by rewrite Ha by lia.
  - unfold unwrite. by rewrite Ha by lia.
  - rewrite ensureWritableBytes_full by naive_solver. done.
Qed.

Lemma exec_rejects_witness :
  exec (OpRetrieve 3) (mkBuffer (replicate 10 x00) 8 10) = Err AssertFailed.
Proof.
  apply (exec_rejects (OpRetrieve 3) (mkBuffer (replicate 10 x00) 8 10)).
  - vm_compute. repeat split; discriminate.
  - vm_compute. intros [_ H]. by apply H.
  - vm_compute. discriminate.
Defined.

(** A size near 2^64 passes every check: writerIndex_ + len wraps round, the vector is cut
    down to 11 bytes, below both the readable bytes and writerIndex_, and writableBytes(),
    which wraps round too, satisfies the assertion. *)
Theorem ensureWritable_wraps :
  ∃ b', wf (mkBuffer (replicate 1032 x00) 8 20) ∧
    ensureWritableBytes (mkBuffer (replicate 1032 x00) 8 20) (2 ^ 64 - 9) = Ok b' ∧
    vsize b' = 11 ∧ writerIndex_ b' = 20.
Proof.
  eexists. split; [vm_compute; repeat split; discriminate|]. split; [vm_compute; reflexivity|]. by vm_compute.
Qed.

(** ** Searching *)

Lemma std_search_bounds hay pat : 0 ≤ std_search hay pat ≤ zlen hay.
Proof.
  induction hay as [|x hay IH]; cbn [std_search length]; [lia|]. case_bool_decide; lia.
Qed.

Lemma std_search_found hay pat :
  pat ≠ [] → std_search hay pat ≠ zlen hay →
  pat `prefix_of` drop (Z.to_nat (std_search hay pat)) hay.
Proof.
  intros Hpat. induction hay as [|x hay IH]; cbn [std_search length]; [done|].
  case_bool_decide; [done|]. intros Hne.
  pose proof (std_search_bounds hay pat).
  replace (Z.to_nat (1 + std_search hay pat)) with (S (Z.to_nat (std_search hay pat))) by lia.
  apply IH. lia.
Qed.

Lemma std_search_first hay pat j :
  pat ≠ [] → pat `prefix_of` drop j hay → std_search hay pat ≤ Z.of_nat j.
Proof.
  intros Hpat. revert j; induction hay as [|x hay IH]; intros j Hj; cbn [std_search]; [lia|].
  case_bool_decide as Hp; [lia|]. destruct j as [|j]; [done|]. pose proof (IH j Hj). lia.
Qed.

Lemma range_content b : wf b → range b (peek b) (beginWrite b) = content b.
Proof. done. Qed.

(** The first CRLF of the readable bytes splits them into a line and the rest. *)
Definition first_line (q line rest : list byte) : Prop :=
  q = line ++ kCRLF ++ rest ∧
  ∀ line' rest', q = line' ++ kCRLF ++ rest' → (length line ≤ length line')%nat.

Lemma findCRLF_Some b p :
  wf b → findCRLF b = Some p →
  ∃ line rest, first_line (content b) line rest ∧ p = peek b + zlen line ∧
               p + 2 ≤ beginWrite b.
Proof.
  intros Hwf. unfold findCRLF. rewrite range_content by done.
  pose proof (length_content b Hwf) as Hl. rewrite wf_readable in Hl by done.
  set (k := std_search (content b) kCRLF).
  pose proof (std_search_bounds (content b) kCRLF) as Hk. fold k in Hk.
  destruct (Z.eqb_spec (peek b + k) (beginWrite b)) as [?|Hne]; [done|]. intros [= <-].
  unfold peek, beginWrite in *.
  destruct (std_search_found (content b) kCRLF) as [rest Hrest]; [done|fold k; lia|]. fold k in Hrest.
  exists (take (Z.to_nat k) (content b)), rest.
  assert (content b = take (Z.to_nat k) (content b) ++ kCRLF ++ rest) as Hsplit.
  { rewrite <-Hrest. by rewrite take_drop. }
  assert (zlen (take (Z.to_nat k) (content b)) = k) as Hlk by (rewrite length_take; lia).
  split_and!; [split; [done|]|lia|].
  - intros line' rest' Heq.
    enough (k ≤ zlen line') by lia. apply std_search_first; [done|].
    rewrite Heq, drop_app_length. by exists rest'.
  - apply (f_equal length) in Hsplit. rewrite !length_app in Hsplit. cbn in Hsplit. lia.
Qed.

Lemma findCRLF_None b line rest :
  wf b → findCRLF b = None → content b ≠ line ++ kCRLF ++ rest.
Proof.
  intros Hwf. unfold findCRLF. rewrite range_content by done.
  pose proof (length_content b Hwf) as Hl. rewrite wf_readable in Hl by done.
  destruct (Z.eqb_spec (peek b + std_search (content b) kCRLF) (beginWrite b)) as [He|]; [|done].
  intros _ Heq. unfold peek, beginWrite in He.
  assert (std_search (content b) kCRLF ≤ zlen line).
  { apply std_search_first; [done|]. rewrite Heq, drop_app_length. by exists rest. }
  rewrite Heq in Hl at 1. rewrite !length_app in Hl. cbn in Hl. lia.
Qed.

(** The first line of the readable bytes, found and consumed. *)
Lemma findCRLF_cases (b : Buffer) (Hwf : wf b) :
  match findCRLF b with
  | None => ∀ line rest, content b ≠ line ++ kCRLF ++ rest
  | Some p => ∃ line rest b',
      first_line (content b) line rest ∧ range b (peek b) p = line ∧
      retrieveUntil b (p + 2) = Ok b' ∧ wf b' ∧ content b' = rest
  end.
Proof.
  destruct (findCRLF b) as [p|] eqn:Hf; [|intros; by eapply findCRLF_None].
  destruct (findCRLF_Some b p Hwf Hf) as (line & rest & Hfl & -> & Hle).
  pose proof (wf_readable b Hwf) as Hr. pose proof Hwf as (?&?&?).
  pose proof Hfl as [Hc _].
  unfold retrieveUntil. rewrite !assert_true by (unfold peek, beginWrite in *; lia). cbn.
  rewrite u64_small by (unfold peek, beginWrite in *; unfold_consts; lia).
  destruct (retrieve_spec b (peek b + zlen line + 2 - peek b)) as (b' & -> & Hwf' & Hc');
    [done|unfold peek, beginWrite in *; lia|].
  exists line, rest, b'. split_and!; [done| |done..|].
  - unfold range, peek, beginWrite in *.
    replace (readerIndex_ b + zlen line - readerIndex_ b) with (zlen line) by lia.
    transitivity (slice 0 (zlen line) (content b)).
    + unfold content. rewrite slice_slice by lia. f_equal. lia.
    + rewrite Hc. unfold slice. rewrite drop_0. apply take_app_length'. lia.
  - rewrite Hc', Hc, app_assoc. apply drop_app_length'. rewrite length_app. cbn. lia.
Qed.

(** FindCRLF returns NULL exactly when the readable bytes hold no CRLF; otherwise the
    bytes before the returned pointer are the first line, and retrieveUntil(crlf + 2)
    succeeds and leaves exactly the bytes after that line's CRLF. *)
Theorem findCRLF_line (b : Buffer) (Hwf : wf b) :
  match findCRLF b with
  | None => ∀ line rest, content b ≠ line ++ kCRLF ++ rest
  | Some p => ∃ line rest b',
      first_line (content b) line rest ∧ range b (peek b) p = line ∧
      retrieveUntil b (p + 2) = Ok b' ∧ wf b' ∧ content b' = rest
  end.
Proof. exact (findCRLF_cases b Hwf). Qed.

Lemma findCRLF_line_witness :
  let b := mkBuffer (replicate 8 x00 ++ [x61; x0d; x0a; x62]) 8 12 in
  match findCRLF b with
  | None => ∀ line rest, content b ≠ line ++ kCRLF ++ rest
  | Some p => ∃ line rest b',
      first_line (content b) line rest ∧ range b (peek b) p = line ∧
      retrieveUntil b (p + 2) = Ok b' ∧ wf b' ∧ content b' = rest
  end.
Proof.
  apply (findCRLF_line (mkBuffer (replicate 8 x00 ++ [x61; x0d; x0a; x62]) 8 12)).
  vm_compute. repeat split; discriminate.
Defined.

Lemma memchr_spec l c :
  match memchr l c with
  | None => c ∉ l
  | Some k => ∃ l1 l2, l = l1 ++ (c :: l2) ∧ (c ∉ l1) ∧ k = zlen l1
  end.
Proof.
  induction l as [|x l IH]; cbn [memchr]; [set_solver|].
  case_decide as E; [subst; exists [], l; set_solver|].
  destruct (memchr l c); cbn.
  - destruct IH as (l1 & l2 & -> & ? & ->). exists (x :: l1), l2. cbn [length]. split_and!; [done|set_solver|lia].
  - set_solver.
Qed.

(** findEOL points at the first newline of the readable bytes, or is NULL without one. *)
Lemma findEOL_spec b :
  wf b →
  match findEOL b with
  | None => x0a ∉ content b
  | Some p => ∃ l1 l2, content b = l1 ++ (x0a :: l2) ∧ (x0a ∉ l1) ∧ p = peek b + zlen l1
  end.
Proof.
  intros Hwf. unfold findEOL. rewrite wf_readable by done.
  change (slice _ _ _) with (content b). pose proof (memchr_spec (content b) x0a).
  destruct (memchr (content b) x0a); cbn; naive_solver.
Qed.
(** ** Integers on the wire *)

Inductive width := W64 | W32 | W16 | W8.
Definition nbytes (w : width) : nat := match w with W64 => 8 | W32 => 4 | W16 => 2 | W8 => 1 end.
Definition nbits (w : width) : Z := 8 * Z.of_nat (nbytes w).

Definition appendInt (host : endianness) (w : width) : Buffer → Z → res Buffer :=
  match w with
  | W64 => appendInt64 host | W32 => appendInt32 host
  | W16 => appendInt16 host | W8 => appendInt8 host
  end.
Definition prependInt (host : endianness) (w : width) : Buffer → Z → res Buffer :=
  match w with
  | W64 => prependInt64 host | W32 => prependInt32 host
  | W16 => prependInt16 host | W8 => prependInt8 host
  end.
Definition readInt (host : endianness) (w : width) : Buffer → res (Z * Buffer) :=
  match w with
  | W64 => readInt64 host | W32 => readInt32 host | W16 => readInt16 host | W8 => readInt8 host
  end.
Definition peekInt (host : endianness) (w : width) : Buffer → res Z :=
  match w with
  | W64 => peekInt64 host | W32 => peekInt32 host | W16 => peekInt16 host | W8 => peekInt8 host
  end.

(** What the code stores for [x]: its big-endian bytes. *)
Lemma wire_bytes host n w x :
  w = 8 * Z.of_nat n → store host n (htobe host n (uwrap w x)) = be_bytes n x.
Proof.
  intros ->. rewrite store_htobe. unfold be_bytes, uwrap. by rewrite <-pow256, le_bytes_mod.
Qed.

Lemma store1 host x : store host 1 (uwrap 8 x) = be_bytes 1 x.
Proof. destruct host; by apply (wire_bytes BigEndian 1 8 x). Qed.

Lemma appendInt_append host w b x :
  appendInt host w b x = append b (be_bytes (nbytes w) x) (Z.of_nat (nbytes w)).
Proof.
  destruct w; cbn [appendInt nbytes]; unfold appendInt64, appendInt32, appendInt16, appendInt8,
    hostToNetwork64, hostToNetwork32, hostToNetwork16.
  - by rewrite (wire_bytes host 8 64 x).
  - by rewrite (wire_bytes host 4 32 x).
  - by rewrite (wire_bytes host 2 16 x).
  - by rewrite store1.
Qed.

Lemma prependInt_prepend host w b x :
  prependInt host w b x = prepend b (be_bytes (nbytes w) x) (Z.of_nat (nbytes w)).
Proof.
  destruct w; cbn [prependInt nbytes]; unfold prependInt64, prependInt32, prependInt16, prependInt8,
    hostToNetwork64, hostToNetwork32, hostToNetwork16.
  - by rewrite (wire_bytes host 8 64 x).
  - by rewrite (wire_bytes host 4 32 x).
  - by rewrite (wire_bytes host 2 16 x).
  - by rewrite store1.
Qed.

Lemma load1 host x : swrap 8 (load host (be_bytes 1 x)) = swrap 8 x.
Proof. destruct host; apply (decode_wire BigEndian 1 x); lia. Qed.

Lemma peekInt_wire host w b x rest :
  wf b → content b = be_bytes (nbytes w) x ++ rest →
  peekInt host w b = Ok (swrap (nbits w) x) ∧ Z.of_nat (nbytes w) ≤ readableBytes b.
Proof.
  intros Hwf Hc. pose proof (length_content b Hwf) as Hl.
  rewrite Hc, length_app, length_be_bytes in Hl.
  assert (∀ z n, n = nbytes w → z = Z.of_nat n →
    read_mem b (peek b) z = Ok (be_bytes n x)) as Hrd.
  { intros z n -> ->. rewrite read_mem_content by (done || lia). f_equal. rewrite Hc, Nat2Z.id.
    apply take_app_length'. by rewrite length_be_bytes. }
  split; [|lia].
  destruct w; cbn [peekInt nbytes] in *;
    unfold peekInt64, peekInt32, peekInt16, peekInt8,
      networkToHost64, networkToHost32, networkToHost16;
    rewrite assert_true by lia; cbn [mbind res_bind].
  - rewrite (Hrd 8 8%nat) by done. cbn [mbind res_bind]. f_equal. apply (decode_wire host 8); lia.
  - rewrite (Hrd 4 4%nat) by done. cbn [mbind res_bind]. f_equal. apply (decode_wire host 4); lia.
  - rewrite (Hrd 2 2%nat) by done. cbn [mbind res_bind]. f_equal. apply (decode_wire host 2); lia.
  - rewrite (Hrd 1 1%nat) by done. cbn [mbind res_bind]. f_equal. apply load1.
Qed.

Lemma readInt_wire host w b x rest :
  wf b → content b = be_bytes (nbytes w) x ++ rest →
  ∃ b', readInt host w b = Ok (swrap (nbits w) x, b') ∧ wf b' ∧ content b' = rest.
Proof.
  intros Hwf Hc. destruct (peekInt_wire host w b x rest Hwf Hc) as [Hp Hle].
  destruct (retrieve_spec b (Z.of_nat (nbytes w)) Hwf ltac:(lia)) as (b' & Hr & Hwf' & Hc').
  exists b'. split_and!; [|done|].
  - destruct w; cbn [readInt peekInt nbytes] in *;
      unfold readInt64, readInt32, readInt16, readInt8, retrieveInt64, retrieveInt32,
        retrieveInt16, retrieveInt8; rewrite Hp; cbn [mbind res_bind];
      (change (Z.of_nat _) with 8 in Hr || change (Z.of_nat _) with 4 in Hr ||
       change (Z.of_nat _) with 2 in Hr || change (Z.of_nat _) with 1 in Hr); by rewrite Hr.
  - rewrite Hc', Hc, Nat2Z.id. apply drop_app_length'. by rewrite length_be_bytes.
Qed.

(** A message: integers of given widths, written one after the other and read back. *)
Fixpoint writeInts (host : endianness) (ms : list (width * Z)) (b : Buffer) : res Buffer :=
  match ms with
  | [] => Ok b
  | (w, x) :: ms' => b' ← appendInt host w b x; writeInts host ms' b'
  end.
Fixpoint readInts (host : endianness) (ws : list width) (b : Buffer) : res (list Z * Buffer) :=
  match ws with
  | [] => Ok ([], b)
  | w :: ws' => '(x, b') ← readInt host w b; '(xs, b'') ← readInts host ws' b'; Ok (x :: xs, b'')
  end.

Definition wire (ms : list (width * Z)) : list byte :=
  concat ((λ '(w, x), be_bytes (nbytes w) x) <$> ms).

Lemma writeInts_spec host ms b :
  wf b → writerIndex_ b + 8 * zlen ms ≤ max_size →
  ∃ b', writeInts host ms b = Ok b' ∧ wf b' ∧ content b' = content b ++ wire ms.
Proof.
  revert b; induction ms as [|[w x] ms IH]; intros b Hwf Hmax; cbn [writeInts].
  - exists b. cbn. by rewrite app_nil_r.
  - rewrite appendInt_append. cbn [length] in Hmax. pose proof Hwf as (?&?&?).
    assert ((nbytes w ≤ 8)%nat) by (destruct w; cbn; lia).
    replace (Z.of_nat (nbytes w)) with (zlen (be_bytes (nbytes w) x)) by (by rewrite length_be_bytes).
    destruct (append_spec b (be_bytes (nbytes w) x)) as (b1 & -> & Hwf1 & Hc1 & Hw1);
      rewrite ?length_be_bytes in *; [done|unfold_consts; lia|right; right; lia|].
    cbn. destruct (IH b1 Hwf1) as (b2 & Hb2 & ? & Hc2); [lia|].
    exists b2. split_and!; [done..|]. by rewrite Hc2, Hc1, <-app_assoc.
Qed.

Lemma readInts_spec host ms b rest :
  wf b → Forall (λ '(w, x), in_s (nbits w) x) ms → content b = wire ms ++ rest →
  ∃ b', readInts host ms.*1 b = Ok (ms.*2, b') ∧ wf b' ∧ content b' = rest.
Proof.
  revert b; induction ms as [|[w x] ms IH]; intros b Hwf Hall Hc; cbn in *; [by exists b|].
  inversion_clear Hall as [|?? Hx Hms]. rewrite <-app_assoc in Hc.
  destruct (readInt_wire host w b x _ Hwf Hc) as (b1 & -> & Hwf1 & Hc1). cbn.
  destruct (IH b1 Hwf1 Hms Hc1) as (b2 & -> & ? & ?). cbn.
  exists b2. split_and!; [|done..]. rewrite swrap_small; [done|by destruct w|done].
Qed.

(** C31: integers of any mix of widths appended to an empty buffer on one host and read
    back, with readInt of the same widths, from a buffer holding the same bytes on another
    host of either endianness give the same signed values and consume all the bytes. *)
Theorem int_roundtrip (host1 host2 : endianness) (ms : list (width * Z)) (b : Buffer)
    (Hwf : wf b) (Hempty : content b = [])
    (Hroom : writerIndex_ b + 8 * zlen ms ≤ max_size)
    (Hrange : Forall (λ '(w, x), in_s (nbits w) x) ms) :
  ∃ b1, writeInts host1 ms b = Ok b1 ∧ content b1 = wire ms ∧
    ∀ b2, wf b2 → content b2 = content b1 →
      ∃ b3, readInts host2 ms.*1 b2 = Ok (ms.*2, b3) ∧ wf b3 ∧ content b3 = [].
Proof.
  destruct (writeInts_spec host1 ms b Hwf Hroom) as (b1 & Hw & Hwf1 & Hc1).
  rewrite Hempty in Hc1. cbn in Hc1. exists b1. split_and!; [done..|].
  intros b2 Hwf2 Hc2. apply (readInts_spec host2 ms b2 []); [done..|].
  by rewrite Hc2, Hc1, app_nil_r.
Qed.

Lemma int_roundtrip_witness :
  ∃ b1, writeInts LittleEndian [(W8, -1); (W16, -2); (W32, -3); (W64, 77)]
          (mkBuffer (replicate 10 x00) 8 8) = Ok b1 ∧
        content b1 = wire [(W8, -1); (W16, -2); (W32, -3); (W64, 77)] ∧
    ∀ b2, wf b2 → content b2 = content b1 →
      ∃ b3, readInts BigEndian [W8; W16; W32; W64] b2 = Ok ([-1; -2; -3; 77], b3) ∧
            wf b3 ∧ content b3 = [].
Proof.
  apply (int_roundtrip LittleEndian BigEndian [(W8, -1); (W16, -2); (W32, -3); (W64, 77)]
           (mkBuffer (replicate 10 x00) 8 8)).
  - vm_compute. repeat split; discriminate.
  - reflexivity.
  - vm_compute. discriminate.
  - repeat constructor; vm_compute; discriminate || reflexivity.
Defined.
(** ** shrink

    [shrink] passes the readable bytes through a [StringPiece], whose length is an [int]:
    what survives is the number of readable bytes converted to [int]. *)

Lemma hasWritten_copy_vsize b d b' :
  0 ≤ writerIndex_ b → zlen d ≤ vsize b - writerIndex_ b →
  (b2 ← copy_in b (beginWrite b) d (zlen d); hasWritten b2 (zlen d)) = Ok b' →
  vsize b' = vsize b.
Proof.
  intros Hw Hd. unfold copy_in, beginWrite. case_bool_decide; [|done]. cbn.
  rewrite firstn_all2 by lia. unfold hasWritten.
  intros (? & _ & [= <-])%bind_Ok. unfold vsize in *; cbn.
  rewrite length_list_write; lia.
Qed.

Lemma toStringPiece_content b n :
  wf b → i32 (readableBytes b) = n → 0 ≤ n ≤ readableBytes b →
  take (Z.to_nat n) (SP.data (toStringPiece b)) = take (Z.to_nat n) (content b) ∧
  n ≤ zlen (SP.data (toStringPiece b)).
Proof.
  intros Hwf Hn Hle. rewrite wf_readable in Hle by done. pose proof Hwf as (?&?&?).
  cbn. unfold content, slice, peek. rewrite take_take, length_drop. unfold vsize in *.
  split; [f_equal; lia|lia].
Qed.

Lemma copy_in_take b off d len :
  0 ≤ len ≤ zlen d → copy_in b off d len = copy_in b off (take (Z.to_nat len) d) len.
Proof.
  intros. unfold copy_in. rewrite take_take, Nat.min_id, length_take.
  by destruct (bool_decide_reflect (0 ≤ len ≤ zlen d ∧ 0 ≤ off ∧ off + len ≤ vsize b));
    [rewrite bool_decide_true by lia|rewrite bool_decide_false by lia].
Qed.

Lemma shrink_content_gen b reserve n :
  wf b → 0 ≤ reserve → readableBytes b + reserve + kCheapPrepend ≤ max_size →
  i32 (readableBytes b) = n → 0 ≤ n ≤ readableBytes b →
  ∃ b', shrink b reserve = Ok b' ∧ wf b' ∧ content b' = take (Z.to_nat n) (content b) ∧
        reserve ≤ writableBytes b'.
Proof.
  intros Hwf Hres Hmax Hn Hle. pose proof (wf_readable b Hwf) as Hr. pose proof Hwf as (?&?&?).
  unfold shrink. destruct (newBuffer_spec kInitialSize) as (o1 & -> & Hwf1 & Hc1 & Hw1 & Hp1);
    [unfold_consts; lia..|]. cbn [mbind res_bind]. rewrite u64_small by (unfold_consts; lia).
  assert (writerIndex_ o1 = 8) as Hw8.
  { pose proof (length_content o1 Hwf1) as Hl. rewrite Hc1, wf_readable in Hl by done.
    unfold prependableBytes in Hp1. unfold_consts. cbn in Hl. lia. }
  destruct (ensureWritableBytes_spec o1 (readableBytes b + reserve)) as (o2 & -> & Hwf2 & Hc2 & Hw2 & _);
    [done|unfold_consts; lia|right; right; unfold_consts; lia|]. cbn [mbind res_bind].
  destruct (toStringPiece_content b n Hwf Hn Hle) as [Hpc Hpl].
  unfold append_piece, append. change (SP.size (toStringPiece b)) with (i32 (readableBytes b)).
  rewrite Hn, u64_small by (unfold_consts; lia).
  unfold ensureWritableBytes. destruct (Z.ltb_spec (writableBytes o2) n); [lia|].
  cbn [mbind res_bind]. rewrite assert_true by lia. cbn [mbind res_bind].
  rewrite copy_in_take by lia. rewrite Hpc.
  set (d := take (Z.to_nat n) (content b)).
  assert (zlen d = n) as Hd.
  { unfold d. rewrite length_take. pose proof (length_content b Hwf). lia. }
  rewrite <-Hd. destruct (hasWritten_copy o2 d) as (o3 & Ho3 & Hwf3 & Hc3 & Hw3); [done|lia|].
  pose proof (wf_writable o2 Hwf2). pose proof Hwf2 as (?&?&?).
  pose proof (hasWritten_copy_vsize o2 d o3 ltac:(lia) ltac:(lia) Ho3) as Hv3.
  rewrite Ho3. cbn [mbind res_bind swap fst]. exists o3. split_and!; [by destruct o3|done| |].
  - by rewrite Hc3, Hc2, Hc1.
  - rewrite wf_writable by done. lia.
Qed.

(** With fewer than 2^31 readable bytes shrink(reserve) keeps them all and leaves room
    for [reserve] more; between 2^32 and 2^32 + 2^31 readable bytes it silently keeps only
    the first [readableBytes() - 2^32], the rest being lost in the conversion to [int]. *)
Theorem shrink_content (b : Buffer) (reserve : Z) (Hwf : wf b) (Hres : 0 ≤ reserve)
    (Hmax : readableBytes b + reserve + kCheapPrepend ≤ max_size) :
  (readableBytes b < 2 ^ 31 →
   ∃ b', shrink b reserve = Ok b' ∧ wf b' ∧ content b' = content b ∧ reserve ≤ writableBytes b') ∧
  (2 ^ 32 ≤ readableBytes b < 2 ^ 32 + 2 ^ 31 →
   ∃ b', shrink b reserve = Ok b' ∧
         content b' = take (Z.to_nat (readableBytes b - 2 ^ 32)) (content b)).
Proof.
  pose proof (length_content b Hwf) as Hl. split; intros Hr.
  - destruct (shrink_content_gen b reserve (readableBytes b)) as (b' & ? & ? & Hc & ?);
      [done..|apply i32_small; lia|lia|].
    exists b'. rewrite firstn_all2 in Hc by lia. done.
  - destruct (shrink_content_gen b reserve (readableBytes b - 2 ^ 32)) as (b' & ? & ? & ? & _);
      [done..| |lia|by exists b'].
    rewrite <-(i32_small (readableBytes b - 2 ^ 32)) by lia.
    unfold i32, swrap. f_equal.
    rewrite <-(Z_mod_plus_full (readableBytes b - 2 ^ 32 + 2 ^ (32 - 1)) 1 (2 ^ 32)).
    f_equal. lia.
Qed.

Lemma shrink_content_witness :
  let b := mkBuffer (replicate 8 x00 ++ [x61; x62; x63]) 9 11 in
  (readableBytes b < 2 ^ 31 →
   ∃ b', shrink b 5 = Ok b' ∧ wf b' ∧ content b' = content b ∧ 5 ≤ writableBytes b') ∧
  (2 ^ 32 ≤ readableBytes b < 2 ^ 32 + 2 ^ 31 →
   ∃ b', shrink b 5 = Ok b' ∧
         content b' = take (Z.to_nat (readableBytes b - 2 ^ 32)) (content b)).
Proof.
  apply (shrink_content (mkBuffer (replicate 8 x00 ++ [x61; x62; x63]) 9 11) 5).
  - vm_compute. repeat split; discriminate.
  - discriminate.
  - vm_compute. discriminate.
Defined.

(** ReadFd offers the kernel all the writable bytes plus, when those are fewer than
    64 KiB, a 64 KiB stack buffer, at most 128k-1 bytes then; whatever the kernel returns
    within that capacity is appended to the readable bytes whole and in order, and an error
    leaves the buffer as it was and reports -1 with the errno. *)
Theorem readFd_correct (b : Buffer) (Hwf : wf b) (Hmax : vsize b + extrabuf_size ≤ max_size) :
  extrabuf_size ≤ iov_capacity b ∧ (iovcnt b = 2 → iov_capacity b ≤ 128 * 1024 - 1) ∧
  (∀ e, readFd b (ReadErr e) = Ok (-1, e, b)) ∧
  (∀ bs, zlen bs ≤ iov_capacity b →
     ∃ b', readFd b (ReadOk bs) = Ok (zlen bs, 0, b') ∧ wf b' ∧ content b' = content b ++ bs).
Proof.
  split_and!; [| |done|intros; by apply readFd_spec].
  - pose proof (wf_writable b Hwf). pose proof Hwf as (?&?&?). unfold iov_capacity, iovcnt.
    destruct (Z.ltb_spec (writableBytes b) extrabuf_size); cbn; lia.
  - unfold iov_capacity, iovcnt.
    destruct (Z.ltb_spec (writableBytes b) extrabuf_size); cbn; unfold_consts; lia.
Qed.

Lemma readFd_correct_witness :
  let b := mkBuffer (replicate 10 x00) 8 8 in
  extrabuf_size ≤ iov_capacity b ∧ (iovcnt b = 2 → iov_capacity b ≤ 128 * 1024 - 1) ∧
  (∀ e, readFd b (ReadErr e) = Ok (-1, e, b)) ∧
  (∀ bs, zlen bs ≤ iov_capacity b →
     ∃ b', readFd b (ReadOk bs) = Ok (zlen bs, 0, b') ∧ wf b' ∧ content b' = content b ++ bs).
Proof.
  apply (readFd_correct (mkBuffer (replicate 10 x00) 8 8)).
  - vm_compute. repeat split; discriminate.
  - vm_compute. discriminate.
Defined.
End Buf.
