(* ===== verification/Date.v ===== *)
(** * Date (base/date.h, base/date.cc)

    Gregorian dates as Julian day numbers. [int] arithmetic is checked: an intermediate
    value outside 32 bits is the fault [IntOverflow]. The reference is the calendar itself:
    [isLeapYear], [daysOfMonth] (as in base/tests/date_unittest.cc) and the successor of a
    date; the theorems say that the two conversions follow it day by day. *)

From S2P Require Import Prelude.

Module Date.

Record YearMonthDay := mkYMD { year : Z; month : Z; day : Z }.
#[export] Instance YearMonthDay_eq_dec : EqDecision YearMonthDay.
Proof. solve_decision. Defined.

Definition getJulianDayNumber (year month day : Z) : res Z :=
  let a := Z.quot (14 - month) 12 in
  let y := year + 4800 - a in
  let m := month + 12 * a - 3 in
  checked 32
    [14 - month; a; year + 4800; y; 12 * a; month + 12 * a; m; 153 * m; 153 * m + 2;
     day + Z.quot (153 * m + 2) 5; y * 365; day + Z.quot (153 * m + 2) 5 + y * 365;
     day + Z.quot (153 * m + 2) 5 + y * 365 + Z.quot y 4;
     day + Z.quot (153 * m + 2) 5 + y * 365 + Z.quot y 4 - Z.quot y 100;
     day + Z.quot (153 * m + 2) 5 + y * 365 + Z.quot y 4 - Z.quot y 100 + Z.quot y 400]
    (day + Z.quot (153 * m + 2) 5 + y * 365 + Z.quot y 4 - Z.quot y 100 + Z.quot y 400 - 32045).

Definition getYearMonthDay (julianDayNumber : Z) : res YearMonthDay :=
  let a := julianDayNumber + 32044 in
  let b := Z.quot (4 * a + 3) 146097 in
  let c := a - Z.quot (b * 146097) 4 in
  let d := Z.quot (4 * c + 3) 1461 in
  let e := c - Z.quot (1461 * d) 4 in
  let m := Z.quot (5 * e + 2) 153 in
  let day := e - Z.quot (153 * m + 2) 5 + 1 in
  let month := m + 3 - 12 * Z.quot m 10 in
  y ← checked 32
    [a; 4 * a; 4 * a + 3; b; b * 146097; c; 4 * c; 4 * c + 3; d; 1461 * d; e; 5 * e;
     5 * e + 2; m; 153 * m; 153 * m + 2; day; m + 3; month; b * 100; b * 100 + d;
     b * 100 + d - 4800]
    (b * 100 + d - 4800 + Z.quot m 10);
  Ok (mkYMD y month day).

Definition kDaysPerWeek : Z := 7.

(** class Date: its only member is the Julian day number, 0 for an invalid date. *)
Record Date := mkDate { julianDayNumber_ : Z }.
#[export] Instance Date_eq_dec : EqDecision Date.
Proof. solve_decision. Defined.

Definition Date_invalid : Date := mkDate 0.
Definition Date_ymd (y m d : Z) : res Date := j ← getJulianDayNumber y m d; Ok (mkDate j).
Definition Date_jdn (julianDayNum : Z) : Date := mkDate julianDayNum.
Definition swap (x y : Date) : Date * Date := (y, x).
Definition valid (x : Date) : bool := julianDayNumber_ x >? 0.
Definition yearMonthDay (x : Date) : res YearMonthDay := getYearMonthDay (julianDayNumber_ x).
Definition year_ (x : Date) : res Z := ymd ← yearMonthDay x; Ok (year ymd).
Definition month_ (x : Date) : res Z := ymd ← yearMonthDay x; Ok (month ymd).
Definition day_ (x : Date) : res Z := ymd ← yearMonthDay x; Ok (day ymd).
Definition weekDay (x : Date) : Z := Z.rem (julianDayNumber_ x + 1) kDaysPerWeek.
Definition op_lt (x y : Date) : bool := julianDayNumber_ x <? julianDayNumber_ y.
Definition op_eq (x y : Date) : bool := julianDayNumber_ x =? julianDayNumber_ y.

Definition kJulianDayOf1970_01_01 : Z := 2440588.
Lemma kJulianDayOf1970_01_01_ok : getJulianDayNumber 1970 1 1 = Ok kJulianDayOf1970_01_01.
Proof. reflexivity. Qed.

(** ** The reference calendar *)

Definition isLeapYear (y : Z) : bool :=
  if y mod 400 =? 0 then true else if y mod 100 =? 0 then false else y mod 4 =? 0.

Definition daysOfMonth (y m : Z) : Z :=
  if m =? 2 then if isLeapYear y then 29 else 28
  else if (m =? 4) || (m =? 6) || (m =? 9) || (m =? 11) then 30 else 31.

Definition valid_date (x : YearMonthDay) : Prop :=
  1 ≤ month x ≤ 12 ∧ 1 ≤ day x ≤ daysOfMonth (year x) (month x).

(** The years for which both conversions stay within 32-bit arithmetic. *)
Definition year_range (y : Z) : Prop := -4799 ≤ y ≤ 1400000.

Definition next_day (x : YearMonthDay) : YearMonthDay :=
  if day x <? daysOfMonth (year x) (month x) then mkYMD (year x) (month x) (day x + 1)
  else if month x <? 12 then mkYMD (year x) (month x + 1) 1
  else mkYMD (year x + 1) 1 1.

(** ** Proofs

    With the year starting in March, [y] is the year (offset by 4800), [m] the month from
    0 and [n] the day of that year from 0; [march_days] counts the days before year [y]. *)

Definition march_days (y : Z) : Z := y * 365 + y / 4 - y / 100 + y / 400.

Definition jdn_march (y m d : Z) : Z := march_days y + (153 * m + 2) / 5 + d - 32045.

Definition shift (x : YearMonthDay) : Z * Z :=
  if month x <? 3 then (year x + 4799, month x + 9) else (year x + 4800, month x - 3).

Lemma month_cases m : 1 ≤ m ≤ 12 →
  m = 1 ∨ m = 2 ∨ m = 3 ∨ m = 4 ∨ m = 5 ∨ m = 6 ∨ m = 7 ∨ m = 8 ∨ m = 9 ∨ m = 10 ∨ m = 11 ∨ m = 12.
Proof. lia. Qed.

Ltac month_split H :=
  destruct (month_cases _ H) as
    [E|[E|[E|[E|[E|[E|[E|[E|[E|[E|[E|E]]]]]]]]]]]; rewrite ?E in *.

Lemma daysOfMonth_bounds y m : 28 ≤ daysOfMonth y m ≤ 31.
Proof. unfold daysOfMonth. repeat case_match; lia. Qed.

Lemma march_days_bounds y : 0 ≤ y ≤ 2000000 → 0 ≤ march_days y ≤ 366 * y.
Proof. unfold march_days. intros. dlia. Qed.

Lemma getJulianDayNumber_march x :
  valid_date x → year_range (year x) →
  getJulianDayNumber (year x) (month x) (day x) =
    Ok (jdn_march (fst (shift x)) (snd (shift x)) (day x)).
Proof.
  intros [Hm Hd] Hy. unfold year_range in Hy.
  pose proof (daysOfMonth_bounds (year x) (month x)) as Hdm.
  unfold getJulianDayNumber.
  set (a := Z.quot (14 - month x) 12). set (y := year x + 4800 - a).
  set (m := month x + 12 * a - 3).
  assert ((a = 1 ∧ month x < 3) ∨ (a = 0 ∧ 3 ≤ month x)) as Ha.
  { unfold a. rewrite quot_div by lia. dlia. }
  assert (shift x = (y, m)) as ->.
  { unfold shift, y, m. destruct (Z.ltb_spec (month x) 3); f_equal; lia. }
  assert (0 ≤ m ≤ 11) as Hm' by lia. assert (0 ≤ y ≤ 1404800) as Hy' by lia.
  rewrite !quot_div by lia.
  rewrite checked_ok; [f_equal; cbn; unfold jdn_march, march_days; lia|].
  unfold in_s. repeat constructor; dlia.
Qed.
(** The length of month [m] of the March year [y]; the last one is February. *)
Definition march_len (y m : Z) : Z :=
  if m =? 11 then if isLeapYear (y + 1) then 29 else 28
  else (153 * (m + 1) + 2) / 5 - (153 * m + 2) / 5.

(** The last day of the March year [y], counted from 0. *)
Definition march_last (y : Z) : Z := if isLeapYear (y + 1) then 365 else 364.

Lemma isLeapYear_4800 y : isLeapYear (y + 4800) = isLeapYear y.
Proof.
  unfold isLeapYear.
  replace ((y + 4800) mod 400) with (y mod 400) by dlia.
  replace ((y + 4800) mod 100) with (y mod 100) by dlia.
  by replace ((y + 4800) mod 4) with (y mod 4) by dlia.
Qed.

Lemma daysOfMonth_march x :
  1 ≤ month x ≤ 12 → daysOfMonth (year x) (month x) = march_len (fst (shift x)) (snd (shift x)).
Proof.
  intros Hm. unfold shift, daysOfMonth, march_len.
  destruct x as [y m d]. cbn [month year day] in *.
  month_split Hm; cbn; try done.
  replace (y + 4799 + 1) with (y + 4800) by lia. by rewrite isLeapYear_4800.
Qed.

Lemma march_last_100 y :
  0 ≤ y → march_last y = 365 →
  (y mod 100) mod 4 = 3 ∧ (y mod 100 = 99 → (y / 100) mod 4 = 3).
Proof.
  unfold march_last, isLeapYear. intros Hy.
  destruct (Z.eqb_spec ((y + 1) mod 400) 0); [dlia|].
  destruct (Z.eqb_spec ((y + 1) mod 100) 0); [done|].
  destruct (Z.eqb_spec ((y + 1) mod 4) 0); [dlia|done].
Qed.

Lemma march_last_bounds y : march_last y = 364 ∨ march_last y = 365.
Proof. unfold march_last. destruct (isLeapYear (y + 1)); auto. Qed.

(** The century, the year of the century and the day of the year come back from the count. *)
Lemma century_of_days y n :
  0 ≤ y → 0 ≤ n ≤ march_last y → (4 * (march_days y + n) + 3) / 146097 = y / 100.
Proof.
  intros Hy Hn. pose proof (march_last_100 y Hy). pose proof (march_last_bounds y).
  unfold march_days. symmetry.
  apply Z.div_unique with (r := 3 - (y / 100) mod 4 + 4 * (365 * (y mod 100) + (y mod 100) / 4 + n)).
  - left. destruct (decide (march_last y = 365)); dlia.
  - dlia.
Qed.

Lemma year_of_century_days y n :
  0 ≤ y → 0 ≤ n ≤ march_last y →
  let c := march_days y + n - (y / 100 * 146097) / 4 in
  (4 * c + 3) / 1461 = y mod 100 ∧ c - (1461 * (y mod 100)) / 4 = n ∧ 0 ≤ c ≤ 36524.
Proof.
  intros Hy Hn c. pose proof (march_last_100 y Hy). pose proof (march_last_bounds y).
  assert (c = 365 * (y mod 100) + (y mod 100) / 4 + n) as ->.
  { unfold c, march_days. dlia. }
  split; [|split; dlia]. symmetry.
  apply Z.div_unique with (r := 3 - (y mod 100) mod 4 + 4 * n); [|dlia].
  left. destruct (decide (march_last y = 365)); dlia.
Qed.

Lemma month_of_day y m d :
  0 ≤ m ≤ 11 → 1 ≤ d ≤ march_len y m →
  let n := (153 * m + 2) / 5 + d - 1 in
  (5 * n + 2) / 153 = m ∧ 0 ≤ n ≤ march_last y.
Proof.
  intros Hm Hd n. unfold march_len, march_last in *.
  assert (m = 0 ∨ m = 1 ∨ m = 2 ∨ m = 3 ∨ m = 4 ∨ m = 5 ∨ m = 6 ∨ m = 7 ∨ m = 8 ∨ m = 9 ∨
          m = 10 ∨ m = 11) as E by lia.
  destruct (isLeapYear (y + 1));
    (destruct E as [->|[->|[->|[->|[->|[->|[->|[->|[->|[->|[->| ->]]]]]]]]]]];
     cbn in Hd; subst n; cbn - [Z.div Z.mul]; dlia).
Qed.

Lemma getYearMonthDay_march y m d :
  0 ≤ y ≤ 1404800 → 0 ≤ m ≤ 11 → 1 ≤ d ≤ march_len y m →
  getYearMonthDay (jdn_march y m d) =
    Ok (mkYMD (if m <? 10 then y - 4800 else y - 4799) (if m <? 10 then m + 3 else m - 9) d).
Proof.
  intros Hy Hm Hd. destruct (month_of_day y m d Hm Hd) as [Hmn Hn].
  set (n := (153 * m + 2) / 5 + d - 1) in *.
  destruct (year_of_century_days y n) as (Hd' & He' & Hc'); [lia..|].
  pose proof (century_of_days y n ltac:(lia) Hn) as Hb.
  pose proof (march_days_bounds y ltac:(lia)). pose proof (march_last_bounds y).
  unfold getYearMonthDay.
  replace (jdn_march y m d + 32044) with (march_days y + n) by (unfold jdn_march, n; lia).
  rewrite (quot_div (4 * (march_days y + n) + 3)), Hb by lia.
  rewrite (quot_div (y / 100 * 146097)) by dlia.
  set (c := march_days y + n - y / 100 * 146097 / 4) in *.
  rewrite (quot_div (4 * c + 3)), Hd' by lia.
  rewrite (quot_div (1461 * (y mod 100))), He' by dlia.
  rewrite (quot_div (5 * n + 2)), Hmn by lia. rewrite !quot_div by lia.
  rewrite checked_ok.
  - cbn [mbind res_bind]. destruct (Z.ltb_spec m 10); do 2 f_equal; unfold n; dlia.
  - unfold in_s, n in *. repeat constructor; dlia.
Qed.
Lemma shift_bounds x :
  valid_date x → year_range (year x) →
  0 ≤ fst (shift x) ≤ 1404800 ∧ 0 ≤ snd (shift x) ≤ 11 ∧
  1 ≤ day x ≤ march_len (fst (shift x)) (snd (shift x)).
Proof.
  intros [Hm Hd] Hy. rewrite <-daysOfMonth_march by done.
  unfold shift, year_range in *. destruct (Z.ltb_spec (month x) 3); cbn; lia.
Qed.

Lemma getYearMonthDay_shift x :
  valid_date x → year_range (year x) →
  getYearMonthDay (jdn_march (fst (shift x)) (snd (shift x)) (day x)) = Ok x.
Proof.
  intros Hv Hy. destruct (shift_bounds x Hv Hy) as (?&?&?).
  rewrite getYearMonthDay_march by done. f_equal.
  destruct x as [y m d]. unfold shift. cbn in *. destruct Hv as [? _]. cbn in *.
  destruct (Z.ltb_spec m 3); cbn; [destruct (Z.ltb_spec (m + 9) 10)|destruct (Z.ltb_spec (m - 3) 10)];
    f_equal; lia.
Qed.

(** C30: for every valid date of the years -4799 to 1400000, converting to the Julian day
    number and back gives the same year, month and day, with no 32-bit overflow on the way;
    the years 1900 to 2500 of the header are among them. *)
Theorem ymd_jdn_ymd (x : YearMonthDay) (Hv : valid_date x) (Hy : year_range (year x)) :
  ∃ j, getJulianDayNumber (year x) (month x) (day x) = Ok j ∧ getYearMonthDay j = Ok x.
Proof.
  rewrite getJulianDayNumber_march by done. eexists; split; [done|].
  by apply getYearMonthDay_shift.
Qed.

Lemma ymd_jdn_ymd_witness :
  ∃ j, getJulianDayNumber 2024 2 29 = Ok j ∧ getYearMonthDay j = Ok (mkYMD 2024 2 29).
Proof.
  apply (ymd_jdn_ymd (mkYMD 2024 2 29)); vm_compute; repeat split; discriminate.
Defined.

Lemma jdn_year_start x :
  valid_date x → year_range (year x) → ∃ js, getJulianDayNumber (year x) 1 1 = Ok js.
Proof.
  intros Hv Hy. pose proof (getJulianDayNumber_march (mkYMD (year x) 1 1)) as E.
  cbn [year month day] in E. rewrite E; [by eexists| |done].
  split; cbn; pose proof (daysOfMonth_bounds (year x) 1); lia.
Qed.

Lemma march_days_succ y :
  0 ≤ y → march_days (y + 1) = march_days y + march_last y + 1.
Proof.
  unfold march_days, march_last, isLeapYear. intros Hy.
  destruct (Z.eqb_spec ((y + 1) mod 400) 0); [dlia|].
  destruct (Z.eqb_spec ((y + 1) mod 100) 0); [dlia|].
  destruct (Z.eqb_spec ((y + 1) mod 4) 0); dlia.
Qed.

Lemma next_day_jdn x :
  valid_date x → year_range (year x) →
  jdn_march (fst (shift (next_day x))) (snd (shift (next_day x))) (day (next_day x)) =
  jdn_march (fst (shift x)) (snd (shift x)) (day x) + 1.
Proof.
  intros [Hm Hd] Hy. destruct x as [y m d]. unfold year_range in Hy. cbn [year month day] in *.
  unfold next_day. cbn [year month day].
  destruct (Z.ltb_spec d (daysOfMonth y m)) as [|Hlast].
  { unfold shift, jdn_march. cbn. destruct (Z.ltb_spec m 3); cbn; lia. }
  assert (d = daysOfMonth y m) as -> by lia. clear Hd Hlast.
  pose proof (march_days_succ (y + 4799) ltac:(lia)) as Hs.
  unfold march_last in Hs. replace (y + 4799 + 1) with (y + 4800) in Hs by lia.
  rewrite isLeapYear_4800 in Hs.
  month_split Hm; unfold shift, jdn_march, daysOfMonth; cbn - [march_days Z.div];
    try (destruct (isLeapYear y)); cbn - [march_days Z.div] in *;
    repeat (match goal with |- context [?a <? 3] => destruct (Z.ltb_spec a 3) end);
    cbn [fst snd]; try lia;
    try (replace (y + 1 + 4799) with (y + 4800) by lia); dlia.
Qed.

Lemma next_day_valid x :
  valid_date x → year_range (year x) → year x < 1400000 →
  valid_date (next_day x) ∧ year_range (year (next_day x)).
Proof.
  intros [Hm Hd] Hy ?. unfold next_day, valid_date, year_range in *.
  pose proof (daysOfMonth_bounds (year x) (month x + 1)).
  pose proof (daysOfMonth_bounds (year x + 1) 1).
  destruct (Z.ltb_spec (day x) (daysOfMonth (year x) (month x))); cbn; [lia|].
  destruct (Z.ltb_spec (month x) 12); cbn; lia.
Qed.

Fixpoint nth_day (n : nat) (x : YearMonthDay) : YearMonthDay :=
  match n with O => x | S n' => next_day (nth_day n' x) end.

(** Julian day numbers count the days of the Gregorian calendar: the date [n] days
    after [x] has the Julian day number of [x] plus [n], and the day of the week advances by one, modulo seven, each day (1 January
    1900 being a Monday). *)
Theorem jdn_counts_days (x : YearMonthDay) (n : nat) (j : Z)
    (Hv : valid_date x) (Hy : year_range (year x)) (Hn : year (nth_day n x) < 1400000)
    (Hpos : 1 ≤ year x) (Hj : getJulianDayNumber (year x) (month x) (day x) = Ok j) :
  getJulianDayNumber (year (nth_day n x)) (month (nth_day n x)) (day (nth_day n x)) =
    Ok (j + Z.of_nat n) ∧
  weekDay (Date_jdn (j + Z.of_nat n)) = (weekDay (Date_jdn j) + Z.of_nat n) mod 7 ∧
  0 ≤ weekDay (Date_jdn (j + Z.of_nat n)) < 7 ∧
  getJulianDayNumber 1900 1 1 = Ok 2415021 ∧ weekDay (Date_jdn 2415021) = 1.
Proof.
  assert (1 ≤ j) as Hj1.
  { rewrite getJulianDayNumber_march in Hj by done. injection Hj as <-.
    destruct (shift_bounds x Hv Hy) as (?&?&?). unfold jdn_march, march_days.
    assert (4800 ≤ fst (shift x)). { unfold shift. destruct (month x <? 3); cbn; lia. }
    dlia. }
  assert (∀ k, (k ≤ n)%nat → valid_date (nth_day k x) ∧ year_range (year (nth_day k x)) ∧
    getJulianDayNumber (year (nth_day k x)) (month (nth_day k x)) (day (nth_day k x)) =
      Ok (j + Z.of_nat k)) as Hall.
  { assert (∀ k, (k ≤ n)%nat → year (nth_day k x) < 1400000) as Hyk.
    { intros k Hk. revert Hn. induction Hk as [|n' Hk IH]; [done|]. intros Hlt. apply IH.
      cbn in Hlt. unfold next_day in Hlt. repeat case_match; cbn in Hlt; lia. }
    induction k as [|k IH]; intros Hk; [cbn [nth_day]; rewrite Hj; split_and!; [done..|f_equal; lia]|].
    destruct IH as (Hvk & Hrk & Hjk); [lia|]. cbn [nth_day].
    destruct (next_day_valid (nth_day k x)) as [? ?]; [done..|apply Hyk; lia|].
    split_and!; [done..|]. rewrite getJulianDayNumber_march in * by done.
    rewrite next_day_jdn by done. injection Hjk as Hjk. rewrite Hjk. f_equal. lia. }
  destruct (Hall n) as (_ & _ & ->); [done|]. split_and!; [done| | | |done|done];
    unfold weekDay, Date_jdn, kDaysPerWeek; cbn; rewrite ?rem_mod by lia; dlia.
Qed.

Lemma jdn_counts_days_witness :
  getJulianDayNumber 1900 3 1 = Ok (2415021 + Z.of_nat 59) ∧
  weekDay (Date_jdn (2415021 + Z.of_nat 59)) = (weekDay (Date_jdn 2415021) + Z.of_nat 59) mod 7 ∧
  0 ≤ weekDay (Date_jdn (2415021 + Z.of_nat 59)) < 7 ∧
  getJulianDayNumber 1900 1 1 = Ok 2415021 ∧ weekDay (Date_jdn 2415021) = 1.
Proof.
  apply (jdn_counts_days (mkYMD 1900 1 1) 59 2415021); vm_compute;
    repeat split; reflexivity || discriminate.
Defined.
(** ** Every day number is a date *)

Definition first_day : YearMonthDay := mkYMD (-4799) 1 1.
Definition jdn_range (j : Z) : Prop := -31738 ≤ j < 513060560.

Lemma next_day_year x :
  year (next_day x) = year x ∨
  (year (next_day x) = year x + 1 ∧ month (next_day x) = 1 ∧ day (next_day x) = 1).
Proof. unfold next_day. repeat case_match; cbn; auto. Qed.

Lemma nth_day_first n :
  Z.of_nat n < 513060560 + 31738 →
  valid_date (nth_day n first_day) ∧ year_range (year (nth_day n first_day)) ∧
  year (nth_day n first_day) < 1400000 ∧
  jdn_march (fst (shift (nth_day n first_day))) (snd (shift (nth_day n first_day)))
    (day (nth_day n first_day)) = -31738 + Z.of_nat n.
Proof.
  induction n as [|n IH]; intros Hn; [vm_compute; repeat split; discriminate || reflexivity|].
  destruct IH as (Hv & Hy & Hlt & Hj); [lia|]. cbn [nth_day].
  set (x := nth_day n first_day) in *.
  destruct (next_day_valid x Hv Hy Hlt) as [Hv' Hy'].
  pose proof (next_day_jdn x Hv Hy) as Hj'. split_and!; [done..| |lia].
  destruct (next_day_year x) as [->|(Hyr & Hm & Hd)]; [done|].
  unfold year_range in Hy'. destruct (decide (year (next_day x) = 1400000)) as [E|]; [|lia].
  exfalso. rewrite Hd in Hj'. unfold shift in Hj' at 1 2. rewrite E, Hm in Hj'.
  change (jdn_march _ _ _) with 513060560 in Hj' at 1. lia.
Qed.

Lemma jdn_is_date j :
  jdn_range j →
  ∃ x, valid_date x ∧ year_range (year x) ∧
       getJulianDayNumber (year x) (month x) (day x) = Ok j ∧ getYearMonthDay j = Ok x.
Proof.
  intros [Hlo Hhi]. set (n := Z.to_nat (j + 31738)).
  destruct (nth_day_first n) as (Hv & Hy & _ & Hj); [lia|].
  exists (nth_day n first_day). split_and!; [done..| |].
  - rewrite getJulianDayNumber_march by done. f_equal. lia.
  - replace j with (-31738 + Z.of_nat n) by lia. rewrite <-Hj.
    by apply getYearMonthDay_shift.
Qed.

(** Every Julian day number from -31738 up to 513060559 converts to a valid Gregorian
    date and that date converts back to the same number; with [ymd_jdn_ymd] the two conversions are
    inverse bijections. *)
Theorem jdn_ymd_jdn (j : Z) (Hj : jdn_range j) :
  ∃ x, getYearMonthDay j = Ok x ∧ valid_date x ∧
       getJulianDayNumber (year x) (month x) (day x) = Ok j.
Proof. destruct (jdn_is_date j Hj) as (x & ? & ? & ? & ?). by exists x. Qed.

Lemma jdn_ymd_jdn_witness :
  ∃ x, getYearMonthDay 2440588 = Ok x ∧ valid_date x ∧
       getJulianDayNumber (year x) (month x) (day x) = Ok 2440588.
Proof. apply (jdn_ymd_jdn 2440588). vm_compute. split; discriminate || reflexivity. Defined.
End Date.
