(* ===== verification/TimeZone.v ===== *)
(** * TimeZone (base/time_zone.h, base/time_zone.cc)

    UTC conversions, the search of the transition in force at a time, the reader of TZif
    files and the local-time conversions. A [time_t] is a 64-bit integer, [struct tm] a
    record of its fields; gmtime_r and timegm of the C library are parameters of the local
    conversions. The reader runs in a small state-and-exception monad: a thrown
    [logic_error] is caught by the code, which keeps what was read so far. *)

From stdpp Require Import strings sorting.
From S2P Require Import Prelude Endian Date.

Module TZ.

Record tm := mkTm {
  tm_sec : Z; tm_min : Z; tm_hour : Z; tm_mday : Z; tm_mon : Z; tm_year : Z;
  tm_wday : Z; tm_yday : Z; tm_isdst : Z; tm_gmtoff : Z; tm_zone : option (list byte)
}.

Definition tm_zero : tm := mkTm 0 0 0 0 0 0 0 0 0 0 None.
Definition GMT : list byte := [x47; x4d; x54].

Definition kSecondsPerDay : Z := 24 * 60 * 60.

(** fillHMS takes an [unsigned]. *)
Definition fillHMS (seconds : Z) (utc : tm) : tm :=
  let minutes := seconds / 60 in
  mkTm (seconds mod 60) (minutes mod 60) (minutes / 60) (tm_mday utc) (tm_mon utc) (tm_year utc)
    (tm_wday utc) (tm_yday utc) (tm_isdst utc) (tm_gmtoff utc) (tm_zone utc).

Definition toUtcTime (secondsSinceEpoch : Z) (yday : bool) : res tm :=
  let seconds := i32 (Z.rem secondsSinceEpoch kSecondsPerDay) in
  let days := i32 (Z.quot secondsSinceEpoch kSecondsPerDay) in
  let '(seconds, days) :=
    if seconds <? 0 then (seconds + kSecondsPerDay, days - 1) else (seconds, days) in
  let utc := fillHMS (uwrap 32 seconds) (mkTm 0 0 0 0 0 0 0 0 0 0 (Some GMT)) in
  j ← checked 32 [days] (days + Date.kJulianDayOf1970_01_01);
  let date := Date.Date_jdn j in
  ymd ← Date.yearMonthDay date;
  yd ← (if yday then
          startOfYear ← Date.Date_ymd (Date.year ymd) 1 1;
          checked 32 [] (Date.julianDayNumber_ date - Date.julianDayNumber_ startOfYear)
        else Ok 0);
  Ok (mkTm (tm_sec utc) (tm_min utc) (tm_hour utc) (Date.day ymd) (Date.month ymd - 1)
        (Date.year ymd - 1900) (Date.weekDay date) yd 0 0 (tm_zone utc)).

Definition fromUtcTime6 (year month day hour minute seconds : Z) : res Z :=
  date ← Date.Date_ymd year month day;
  secondsInDay ← checked 32 [hour * 3600; minute * 60; hour * 3600 + minute * 60]
                   (hour * 3600 + minute * 60 + seconds);
  days ← checked 32 [] (Date.julianDayNumber_ date - Date.kJulianDayOf1970_01_01);
  checked 64 [days * kSecondsPerDay] (days * kSecondsPerDay + secondsInDay).

Definition fromUtcTime (utc : tm) : res Z :=
  year ← checked 32 [] (tm_year utc + 1900);
  month ← checked 32 [] (tm_mon utc + 1);
  fromUtcTime6 year month (tm_mday utc) (tm_hour utc) (tm_min utc) (tm_sec utc).

(** ** Zone data *)

Record Transition := mkTransition { gmttime : Z; localtime : Z; localtimeIdx : Z }.
Record Localtime := mkLocaltime { gmtOffset : Z; isDst : bool; arrbIdx : Z }.
Record Data := mkData {
  transitions : list Transition;
  localtimes : list Localtime;
  names : list (list byte);
  abbreviation : list byte
}.
Definition Data_empty : Data := mkData [] [] [] [].

#[export] Instance Transition_eq_dec : EqDecision Transition.
Proof. solve_decision. Defined.
#[export] Instance Localtime_eq_dec : EqDecision Localtime.
Proof. solve_decision. Defined.
#[export] Instance Data_eq_dec : EqDecision Data.
Proof. solve_decision. Defined.

(** struct Comp: [compareGmt] selects the key. *)
Definition key (compareGmt : bool) (t : Transition) : Z :=
  if compareGmt then gmttime t else localtime t.
Definition comp (compareGmt : bool) (lhs rhs : Transition) : bool :=
  key compareGmt lhs <? key compareGmt rhs.
Definition comp_equal (compareGmt : bool) (lhs rhs : Transition) : bool :=
  key compareGmt lhs =? key compareGmt rhs.

(** std::lower_bound: binary search for the first element not before [sentry]. *)
Fixpoint lower_bound_loop (fuel : nat) (lt : Transition → bool) (l : list Transition)
    (first len : nat) : nat :=
  match fuel with
  | O => first
  | S fuel' =>
      if decide (len = O) then first else
      let half := Nat.div2 len in
      match l !! (first + half)%nat with
      | Some x => if lt x then lower_bound_loop fuel' lt l (S (first + half)) (len - half - 1)
                  else lower_bound_loop fuel' lt l first half
      | None => first
      end
  end.
Definition lower_bound (c : bool) (l : list Transition) (sentry : Transition) : nat :=
  lower_bound_loop (S (length l)) (λ x, comp c x sentry) l 0 (length l).

Definition nth_localtime (data : Data) (i : Z) : res Localtime :=
  if i <? 0 then Err OutOfBounds else
  match localtimes data !! Z.to_nat i with Some l => Ok l | None => Err OutOfBounds end.

Definition findLocaltime (data : Data) (sentry : Transition) (c : bool) : res Localtime :=
  match transitions data with
  | [] => nth_localtime data 0
  | front :: _ =>
      if comp c sentry front then nth_localtime data 0
      else
        let transI := lower_bound c (transitions data) sentry in
        match transitions data !! transI with
        | Some t =>
            if negb (comp_equal c sentry t) then
              _ ← assert_ (negb (transI =? 0)%nat);
              match transitions data !! (transI - 1)%nat with
              | Some t' => nth_localtime data (localtimeIdx t')
              | None => Err OutOfBounds
              end
            else nth_localtime data (localtimeIdx t)
        | None =>
            match last (transitions data) with
            | Some t => nth_localtime data (localtimeIdx t)
            | None => Err OutOfBounds
            end
        end
  end.

(** ** The TZif reader *)

(** The state of a run: the unread bytes of the file and the data being filled in. *)
Record rstate := mkR { rest : list byte; rdata : Data }.

(** A step may return, throw a [logic_error] (with the state reached) or be undefined. *)
Inductive outcome (A : Type) :=
  | Ret (a : A) (s : rstate)
  | Throw (s : rstate)
  | Undef (f : fault).
Arguments Ret {A} a s.
Arguments Throw {A} s.
Arguments Undef {A} f.

Definition reader (A : Type) := rstate → outcome A.
#[export] Instance reader_ret : MRet reader := λ A a s, Ret a s.
#[export] Instance reader_bind : MBind reader := λ A B k m s,
  match m s with Ret a s' => k a s' | Throw s' => Throw s' | Undef f => Undef f end.

Definition throw {A} : reader A := λ s, Throw s.

Section Reader.
Context (host : endianness).

(** string readBytes(int n): a variable-length array of a negative size is undefined. A
    short fread leaves the file at its end. *)
Definition readBytes (n : Z) : reader (list byte) := λ s,
  if n <? 0 then Undef OutOfBounds
  else if n <=? zlen (rest s)
       then Ret (take (Z.to_nat n) (rest s)) (mkR (drop (Z.to_nat n) (rest s)) (rdata s))
       else Throw (mkR [] (rdata s)).

Definition readInt32 : reader Z :=
  bs ← readBytes 4; mret (swrap 32 (betoh host 4 (load host bs))).

Definition readUInt8 : reader Z :=
  bs ← readBytes 1; mret (le_value bs).

(** for (int i = 0; i < n; ++i) push_back(m) *)
Fixpoint read_n {A} (n : nat) (m : reader A) : reader (list A) :=
  match n with
  | O => mret []
  | S n' => x ← m; xs ← read_n n' m; mret (x :: xs)
  end.

Definition push_localtime (l : Localtime) : reader unit := λ s,
  Ret tt (mkR (rest s) (mkData (transitions (rdata s)) (localtimes (rdata s) ++ [l])
                         (names (rdata s)) (abbreviation (rdata s)))).
Definition push_transition (t : Transition) : reader unit := λ s,
  Ret tt (mkR (rest s) (mkData (transitions (rdata s) ++ [t]) (localtimes (rdata s))
                         (names (rdata s)) (abbreviation (rdata s)))).
Definition set_abbreviation (a : list byte) : reader unit := λ s,
  Ret tt (mkR (rest s) (mkData (transitions (rdata s)) (localtimes (rdata s))
                         (names (rdata s)) a)).

(** vector::operator[] *)
Definition localtime_at (i : Z) : reader Localtime := λ s,
  match localtimes (rdata s) !! Z.to_nat i with
  | Some l => Ret l s | None => Undef OutOfBounds end.

Definition readLocaltime : reader unit :=
  gmtoff ← readInt32;
  isdst ← readUInt8;
  abbrind ← readUInt8;
  push_localtime (mkLocaltime gmtoff (negb (isdst =? 0)) abbrind).

Fixpoint fillTransitions (trans idxs : list Z) : reader unit :=
  match trans, idxs with
  | t :: trans', localIdx :: idxs' =>
      lt ← localtime_at localIdx;
      _ ← push_transition (mkTransition t (t + gmtOffset lt) localIdx);
      fillTransitions trans' idxs'
  | _, _ => mret tt
  end.

Definition TZif : list byte := [x54; x5a; x69; x66].

(** The body of the try block. [trans.reserve] of a negative count throws
    std::length_error, which is a logic_error. *)
Definition tzBody : reader unit :=
  head ← readBytes 4;
  if bool_decide (head ≠ TZif) then throw else
  _version ← readBytes 1;
  _ ← readBytes 15;
  _isgmtcnt ← readInt32;
  _isstdcnt ← readInt32;
  _leapcnt ← readInt32;
  timecnt ← readInt32;
  typecnt ← readInt32;
  charcnt ← readInt32;
  if timecnt <? 0 then throw else
  trans ← read_n (Z.to_nat timecnt) readInt32;
  idxs ← read_n (Z.to_nat timecnt) readUInt8;
  _ ← read_n (Z.to_nat typecnt) readLocaltime;
  _ ← fillTransitions trans idxs;
  a ← readBytes charcnt;
  set_abbreviation a.

(** readTimeZoneFile: [file] is the contents, [None] when fopen fails. The catch block
    only prints; the function returns true on every path. *)
Definition readTimeZoneFile (file : option (list byte)) (data : Data) : res (bool * Data) :=
  match file with
  | None => Ok (true, data)
  | Some bytes =>
      match tzBody (mkR bytes data) with
      | Ret _ s | Throw s => Ok (true, rdata s)
      | Undef f => Err f
      end
  end.

(** ** The class: [data_] is a shared pointer, [None] when null *)
Definition TimeZone := option Data.

Definition TimeZone_file (file : option (list byte)) : res TimeZone :=
  '(ok, data) ← readTimeZoneFile file Data_empty;
  Ok (if negb ok then None else Some data).
End Reader.

Definition TimeZone_fixed (eastOfUtc : Z) (name : list byte) : TimeZone :=
  Some (mkData [] [mkLocaltime eastOfUtc false 0] [] name).
Definition TimeZone_invalid : TimeZone := None.
Definition valid (z : TimeZone) : bool := match z with Some _ => true | None => false end.

Section Local.
(** gmtime_r and timegm of the C library. *)
Context (gmtime : Z → tm) (timegm : tm → Z).

Definition toLocalTime (z : TimeZone) (seconds : Z) : res tm :=
  match z with
  | None => Err AssertFailed
  | Some data =>
      local ← findLocaltime data (mkTransition seconds 0 0) true;
      localSeconds ← checked 64 [] (seconds + gmtOffset local);
      let t := gmtime localSeconds in
      Ok (mkTm (tm_sec t) (tm_min t) (tm_hour t) (tm_mday t) (tm_mon t) (tm_year t)
            (tm_wday t) (tm_yday t) (if isDst local then 1 else 0) (gmtOffset local)
            (Some (drop (Z.to_nat (arrbIdx local)) (abbreviation data))))
  end.

Definition fromLocalTime (z : TimeZone) (localTm : tm) : res Z :=
  match z with
  | None => Err AssertFailed
  | Some data =>
      let seconds := timegm localTm in
      local ← findLocaltime data (mkTransition 0 seconds 0) false;
      seconds' ←
        (if negb (tm_isdst localTm =? 0) then
           t ← checked 64 [] (seconds - gmtOffset local);
           tryTm ← toLocalTime z t;
           if (tm_isdst tryTm =? 0) && (tm_hour tryTm =? tm_hour localTm) &&
              (tm_min tryTm =? tm_min localTm)
           then checked 64 [] (seconds - 3600) else Ok seconds
         else Ok seconds);
      checked 64 [] (seconds' - gmtOffset local)
  end.
End Local.

(** ** UTC round trip *)

(** Days of the year before month [m]. *)
Definition days_before (y m : Z) : Z :=
  foldr Z.add 0 (map (λ i, Date.daysOfMonth y (Z.of_nat i)) (seq 1 (Z.to_nat (m - 1)))).

(** Times whose day is in the supported range of Julian day numbers. *)
Definition utc_range (s : Z) : Prop :=
  (0 - Date.kJulianDayOf1970_01_01) * 86400 ≤ s < (513060560 - Date.kJulianDayOf1970_01_01) * 86400.

(** The broken-down time of [s] (with the day of the year). *)
Definition is_utc (s : Z) (t : tm) : Prop :=
  0 ≤ tm_sec t < 60 ∧ 0 ≤ tm_min t < 60 ∧ 0 ≤ tm_hour t < 24 ∧ 0 ≤ tm_wday t < 7 ∧
  Date.valid_date (Date.mkYMD (tm_year t + 1900) (tm_mon t + 1) (tm_mday t)) ∧
  tm_yday t = days_before (tm_year t + 1900) (tm_mon t + 1) + tm_mday t - 1 ∧
  s mod 86400 = tm_hour t * 3600 + tm_min t * 60 + tm_sec t.

Lemma rem_quot_day s :
  let r := Z.rem s kSecondsPerDay in
  let q := Z.quot s kSecondsPerDay in
  (if r <? 0 then (r + kSecondsPerDay, q - 1) else (r, q)) = (s mod 86400, s / 86400).
Proof.
  unfold kSecondsPerDay. change (24 * 60 * 60) with 86400. cbv zeta.
  destruct (Z.ltb_spec (Z.rem s 86400) 0); f_equal; dlia.
Qed.

Lemma days_before_march y m :
  1 ≤ m ≤ 12 →
  days_before y m =
    if m <? 3 then 31 * (m - 1)
    else (153 * (m - 3) + 2) / 5 + (if Date.isLeapYear y then 60 else 59).
Proof.
  intros Hm. unfold days_before, Date.daysOfMonth.
  destruct (Date.isLeapYear y); Date.month_split Hm; reflexivity.
Qed.

Lemma yday_days_before x j js :
  Date.valid_date x → Date.year_range (Date.year x) →
  Date.getJulianDayNumber (Date.year x) (Date.month x) (Date.day x) = Ok j →
  Date.getJulianDayNumber (Date.year x) 1 1 = Ok js →
  j - js = days_before (Date.year x) (Date.month x) + Date.day x - 1.
Proof.
  intros Hv Hy. rewrite Date.getJulianDayNumber_march by done. intros [= <-].
  pose proof (Date.getJulianDayNumber_march (Date.mkYMD (Date.year x) 1 1)) as E.
  cbn [Date.year Date.month Date.day] in E. rewrite E; [|split; cbn; pose proof (Date.daysOfMonth_bounds (Date.year x) 1); lia|done].
  clear E. intros [= <-]. destruct Hv as [Hm Hd], x as [y m d]. cbn [Date.year Date.month Date.day] in *.
  unfold Date.year_range in Hy.
  pose proof (Date.march_days_succ (y + 4799) ltac:(lia)) as Hs.
  replace (y + 4799 + 1) with (y + 4800) in Hs by lia.
  assert (Date.march_last (y + 4799) = if Date.isLeapYear y then 365 else 364) as HL.
  { unfold Date.march_last. replace (y + 4799 + 1) with (y + 4800) by lia.
    by rewrite Date.isLeapYear_4800. }
  unfold Date.shift, Date.jdn_march. cbn [Date.year Date.month Date.day].
  rewrite days_before_march by done. rewrite HL in Hs.
  destruct (Date.isLeapYear y); Date.month_split Hm; cbn -[Z.add Z.mul Z.div Z.sub]; dlia.
Qed.

(** The year's number of days before a month bounds the date arithmetic. *)
Lemma days_before_bounds y m : 1 ≤ m ≤ 12 → 0 ≤ days_before y m ≤ 335.
Proof.
  intros Hm. rewrite days_before_march by done.
  destruct (Z.ltb_spec m 3), (Date.isLeapYear y); dlia.
Qed.

Lemma toUtcTime_date s :
  utc_range s →
  ∃ x, Date.valid_date x ∧ Date.year_range (Date.year x) ∧
    Date.getJulianDayNumber (Date.year x) (Date.month x) (Date.day x) =
      Ok (s / 86400 + Date.kJulianDayOf1970_01_01) ∧
    toUtcTime s true = Ok (mkTm (s mod 86400 mod 60) (s mod 86400 / 60 mod 60)
      (s mod 86400 / 60 / 60) (Date.day x) (Date.month x - 1) (Date.year x - 1900)
      ((s / 86400 + Date.kJulianDayOf1970_01_01 + 1) mod 7)
      (days_before (Date.year x) (Date.month x) + Date.day x - 1) 0 0 (Some GMT)).
Proof.
  unfold utc_range, Date.kJulianDayOf1970_01_01. intros Hs.
  destruct (Date.jdn_is_date (s / 86400 + 2440588)) as (x & Hv & Hy & Hj & Hx);
    [unfold Date.jdn_range; dlia|].
  exists x. do 3 (split; [done|]). unfold toUtcTime.
  rewrite (i32_small (Z.rem _ _)) by (unfold kSecondsPerDay; dlia).
  rewrite (i32_small (Z.quot _ _)) by (unfold kSecondsPerDay; dlia).
  rewrite rem_quot_day. rewrite (uwrap_small 32) by (unfold in_u; dlia).
  unfold Date.kJulianDayOf1970_01_01.
  checked_range. cbn.
  unfold Date.yearMonthDay. cbn. rewrite Hx. cbn.
  destruct (Date.jdn_year_start x Hv Hy) as (js & Hjs). unfold Date.Date_ymd. rewrite Hjs. cbn.
  pose proof (yday_days_before x _ js Hv Hy Hj Hjs) as ->.
  pose proof (days_before_bounds (Date.year x) (Date.month x) ltac:(apply Hv)).
  pose proof (Date.daysOfMonth_bounds (Date.year x) (Date.month x)). destruct Hv as [? ?].
  checked_range. cbn.
  unfold Date.weekDay. cbn. unfold Date.kDaysPerWeek. rewrite rem_mod by dlia. done.
Qed.

(** The UTC conversions: for every time whose day number is supported, [toUtcTime] gives a
    well-formed broken-down time and [fromUtcTime] brings the time back. *)
Lemma utc_roundtrip_spec s :
  utc_range s →
  ∃ t, toUtcTime s true = Ok t ∧ is_utc s t ∧ fromUtcTime t = Ok s.
Proof.
  intros Hs. destruct (toUtcTime_date s Hs) as (x & Hv & Hy & Hj & Ht).
  eexists. split; [exact Ht|]. unfold utc_range, Date.kJulianDayOf1970_01_01 in *. split.
  - unfold is_utc. cbn.
    replace (Date.year x - 1900 + 1900) with (Date.year x) by lia.
    replace (Date.month x - 1 + 1) with (Date.month x) by lia.
    destruct x; repeat split; try apply Hv; dlia.
  - unfold fromUtcTime, fromUtcTime6. cbn. unfold Date.year_range in Hy.
    replace (Date.year x - 1900 + 1900) with (Date.year x) by lia.
    replace (Date.month x - 1 + 1) with (Date.month x) by lia.
    destruct Hv as [Hm Hd]. do 3 (checked_range; cbn).
    unfold Date.Date_ymd. rewrite Hj. cbn. unfold kSecondsPerDay, Date.kJulianDayOf1970_01_01.
    do 2 (checked_range; cbn).
    f_equal. dlia.
Qed.

(** ** The transition in force *)

(** The reference: the last transition whose key is not after the given time. *)
Definition in_force (c : bool) (trs : list Transition) (t : Z) : option Transition :=
  last (filter (λ x, key c x ≤ t) trs).

Definition sorted_by (c : bool) (trs : list Transition) : Prop :=
  StronglySorted (λ x y, key c x < key c y) trs.

(** The search finds the partition point of a list on which [lt] holds of a prefix. *)
Lemma lower_bound_loop_spec fuel (lt : Transition → bool) l first len :
  (len < fuel)%nat → (first + len ≤ length l)%nat →
  (∀ i j x y, l !! i = Some x → l !! j = Some y → (i ≤ j)%nat → lt y = true → lt x = true) →
  (∀ i x, l !! i = Some x → (i < first)%nat → lt x = true) →
  (∀ i x, l !! i = Some x → (first + len ≤ i)%nat → lt x = false) →
  let r := lower_bound_loop fuel lt l first len in
  (r ≤ length l)%nat ∧
  (∀ i x, l !! i = Some x → (i < r)%nat → lt x = true) ∧
  (∀ i x, l !! i = Some x → (r ≤ i)%nat → lt x = false).
Proof.
  revert first len; induction fuel as [|fuel IH]; intros first len Hf Hl Hm Hlo Hhi; [lia|].
  cbn [lower_bound_loop]. case_decide as Hlen.
  { subst len. rewrite Nat.add_0_r in *. auto. }
  pose proof (Nat.lt_div2 len ltac:(lia)) as Hh. set (h := Nat.div2 len) in *.
  destruct (lookup_lt_is_Some_2 l (first + h) ltac:(lia)) as [x Hx]. rewrite Hx.
  destruct (lt x) eqn:E; apply IH; try lia; try done.
  - intros i y Hy Hi. eapply (Hm i (first + h)%nat); [done|done|lia|done].
  - intros i y Hy Hi. apply (Hhi i); [done|lia].
  - intros i y Hy Hi. destruct (lt y) eqn:E'; [|done].
    rewrite <-E. symmetry. eapply (Hm (first + h)%nat i); [done|done|lia|done].
Qed.

Lemma sorted_by_lookup c trs i j x y :
  sorted_by c trs → trs !! i = Some x → trs !! j = Some y → (i < j)%nat → key c x < key c y.
Proof.
  unfold sorted_by. intros Hs. revert i j. induction Hs as [|z l Hs IH Hz]; intros i j Hx Hy Hij; [done|].
  destruct j as [|j]; [lia|]. destruct i as [|i]; cbn in *.
  - injection Hx as ->. rewrite Forall_lookup in Hz. eauto.
  - eapply IH; eauto. lia.
Qed.

Lemma lower_bound_spec c trs s :
  sorted_by c trs →
  let r := lower_bound c trs s in
  (r ≤ length trs)%nat ∧
  (∀ i x, trs !! i = Some x → (i < r)%nat → key c x < key c s) ∧
  (∀ i x, trs !! i = Some x → (r ≤ i)%nat → key c s ≤ key c x).
Proof.
  intros Hs. unfold lower_bound.
  destruct (lower_bound_loop_spec (S (length trs)) (λ x, comp c x s) trs 0 (length trs))
    as (Hr & Hlo & Hhi).
  - lia.
  - lia.
  - intros i j x y Hx Hy Hij. unfold comp. rewrite !Z.ltb_lt. intros.
    destruct (decide (i = j)) as [->|]; [simplify_eq; done|].
    pose proof (sorted_by_lookup c trs i j x y Hs Hx Hy ltac:(lia)). lia.
  - lia.
  - intros i x Hx%lookup_lt_Some. lia.
  - split; [done|]. unfold comp in *. split; intros i x Hx Hi.
    + specialize (Hlo i x Hx Hi). lia.
    + specialize (Hhi i x Hx Hi). lia.
Qed.

(** A sorted list filtered at [t] is its prefix up to the first later element. *)
Lemma in_force_take c trs t n :
  (∀ i x, trs !! i = Some x → (i < n)%nat → key c x ≤ t) →
  (∀ i x, trs !! i = Some x → (n ≤ i)%nat → t < key c x) →
  in_force c trs t = last (take n trs).
Proof.
  intros Hlo Hhi. unfold in_force. f_equal.
  revert n Hlo Hhi. induction trs as [|y trs IH]; intros n Hlo Hhi; [by destruct n|].
  destruct n as [|n].
  - rewrite filter_cons_False; [|specialize (Hhi 0%nat y eq_refl); lia].
    rewrite (IH 0%nat); [done| |]; intros i x Hx Hi; [lia|].
    apply (Hhi (S i) x Hx). lia.
  - rewrite filter_cons_True by (apply (Hlo 0%nat y eq_refl); lia). cbn. f_equal.
    apply IH; intros i x Hx Hi; [apply (Hlo (S i) x Hx)|apply (Hhi (S i) x Hx)]; lia.
Qed.

Lemma last_take_S {A} (l : list A) n x : l !! n = Some x → last (take (S n) l) = Some x.
Proof. intros H. rewrite (take_S_r l n x H). by rewrite last_snoc. Qed.

(** The optimised search agrees with the reference. *)
Lemma findLocaltime_in_force data s c :
  sorted_by c (transitions data) →
  findLocaltime data s c =
    match in_force c (transitions data) (key c s) with
    | Some t => nth_localtime data (localtimeIdx t)
    | None => nth_localtime data 0
    end.
Proof.
  intros Hs. unfold findLocaltime. destruct (transitions data) as [|f trs'] eqn:ET; [done|].
  rewrite <-ET in *. assert (transitions data !! 0%nat = Some f) as Hf by by rewrite ET.
  destruct (lower_bound_spec c _ s Hs) as (Hr & Hlo & Hhi).
  generalize dependent (lower_bound c (transitions data) s). intros r Hr Hlo Hhi.
  unfold comp, comp_equal. destruct (Z.ltb_spec (key c s) (key c f)).
  - rewrite (in_force_take _ _ _ 0); [done| |]; intros i x Hx Hi; [lia|].
    destruct i as [|i]; [by simplify_eq|].
    pose proof (sorted_by_lookup c _ _ _ _ _ Hs Hf Hx ltac:(lia)). lia.
  - destruct (transitions data !! r) as [t|] eqn:Et.
    + pose proof (Hhi r t Et ltac:(lia)). destruct (Z.eqb_spec (key c s) (key c t)) as [E|E]; cbn.
      * rewrite (in_force_take _ _ _ (S r)); [by rewrite (last_take_S _ _ _ Et)| |];
          intros i x Hx Hi.
        -- destruct (decide (i = r)) as [->|]; [simplify_eq; lia|].
           specialize (Hlo i x Hx). lia.
        -- pose proof (sorted_by_lookup c _ _ _ _ _ Hs Et Hx ltac:(lia)). lia.
      * destruct r as [|r']; [simplify_eq; lia|]. cbn. rewrite Nat.sub_0_r.
        destruct (lookup_lt_is_Some_2 (transitions data) r' ltac:(lia)) as [t' Ht'].
        rewrite Ht'. rewrite (in_force_take _ _ _ (S r')); [by rewrite (last_take_S _ _ _ Ht')| |];
          intros i x Hx Hi; [specialize (Hlo i x Hx); lia|].
        destruct (decide (i = S r')) as [->|]; [simplify_eq; lia|].
        pose proof (sorted_by_lookup c _ _ _ _ _ Hs Et Hx ltac:(lia)). lia.
    + apply lookup_ge_None in Et.
      rewrite (in_force_take _ _ _ (length (transitions data))).
      * rewrite firstn_all. destruct (last (transitions data)) eqn:E; [done|].
        apply last_None in E. congruence.
      * intros i x Hx Hi. specialize (Hlo i x Hx). lia.
      * intros i x Hx%lookup_lt_Some. lia.
Qed.

(** ** TZif files *)

(** The version-1 block of a TZif file: header, counts, transition times and indices, local
    time types, abbreviation characters; big-endian 32-bit integers. *)
Definition put32 (z : Z) : list byte := be_bytes 4 z.
Definition put8 (z : Z) : list byte := [byte_of_Z z].
Definition encode_localtime (l : Localtime) : list byte :=
  put32 (gmtOffset l) ++ put8 (if isDst l then 1 else 0) ++ put8 (arrbIdx l).

Definition encode (version : byte) (reserved : list byte) (isgmtcnt isstdcnt leapcnt : Z)
    (d : Data) : list byte :=
  TZif ++ [version] ++ reserved ++
  put32 isgmtcnt ++ put32 isstdcnt ++ put32 leapcnt ++
  put32 (zlen (transitions d)) ++ put32 (zlen (localtimes d)) ++ put32 (zlen (abbreviation d)) ++
  concat (map (λ t, put32 (gmttime t)) (transitions d)) ++
  concat (map (λ t, put8 (localtimeIdx t)) (transitions d)) ++
  concat (map encode_localtime (localtimes d)) ++ abbreviation d.

(** What a file can hold: 32-bit times and offsets, byte-sized indices into the local time
    types, and local times derived from their type. *)
Definition encodable (d : Data) : Prop :=
  zlen (transitions d) < 2 ^ 31 ∧ zlen (localtimes d) < 2 ^ 31 ∧
  zlen (abbreviation d) < 2 ^ 31 ∧ names d = [] ∧
  Forall (λ l, in_s 32 (gmtOffset l) ∧ 0 ≤ arrbIdx l < 256) (localtimes d) ∧
  Forall (λ t, in_s 32 (gmttime t) ∧ 0 ≤ localtimeIdx t < 256 ∧
    ∃ l, localtimes d !! Z.to_nat (localtimeIdx t) = Some l ∧
         localtime t = gmttime t + gmtOffset l) (transitions d).

Section ReaderSpec.
Context (host : endianness).

Lemma readBytes_app l rst d :
  readBytes (zlen l) (mkR (l ++ rst) d) = Ret l (mkR rst d).
Proof.
  unfold readBytes. cbn [rest rdata]. rewrite length_app.
  rewrite (proj2 (Z.ltb_ge _ _)) by lia. rewrite (proj2 (Z.leb_le _ _)) by lia.
  rewrite Nat2Z.id. by rewrite take_app_length, drop_app_length.
Qed.

Lemma readInt32_put z rst d :
  in_s 32 z → readInt32 host (mkR (put32 z ++ rst) d) = Ret z (mkR rst d).
Proof.
  intros Hz. unfold readInt32, mbind, reader_bind.
  change 4 with (zlen (put32 z)). rewrite readBytes_app.
  unfold mret, reader_ret, put32. f_equal.
  change 32 with (8 * Z.of_nat 4). rewrite decode_wire by lia. by apply swrap_small.
Qed.

Lemma readUInt8_put z rst d :
  0 ≤ z < 256 → readUInt8 (mkR (put8 z ++ rst) d) = Ret z (mkR rst d).
Proof.
  intros Hz. unfold readUInt8, mbind, reader_bind.
  change 1 with (zlen (put8 z)). rewrite readBytes_app. unfold mret, reader_ret. f_equal.
  cbn. rewrite byte_unsigned_of_Z, Z.mod_small; lia.
Qed.

(** A counted loop reads back the concatenation of the encodings of its elements. *)
Lemma read_n_concat {A B} (m : reader A) (enc : B → list byte) (val : B → A)
    (upd : B → Data → Data) l rst d :
  (∀ x rst d, x ∈ l → m (mkR (enc x ++ rst) d) = Ret (val x) (mkR rst (upd x d))) →
  read_n (length l) m (mkR (concat (map enc l) ++ rst) d) =
    Ret (map val l) (mkR rst (foldl (λ d x, upd x d) d l)).
Proof.
  revert d. induction l as [|x l IH]; intros d H; [done|]. cbn.
  unfold mbind, reader_bind. rewrite <-app_assoc, H by left.
  rewrite IH by (intros; apply H; by right). done.
Qed.

Definition add_localtime (l : Localtime) (d : Data) : Data :=
  mkData (transitions d) (localtimes d ++ [l]) (names d) (abbreviation d).

Lemma readLocaltime_put l rst d :
  in_s 32 (gmtOffset l) → 0 ≤ arrbIdx l < 256 →
  readLocaltime host (mkR (encode_localtime l ++ rst) d) = Ret tt (mkR rst (add_localtime l d)).
Proof.
  intros Ho Ha. unfold readLocaltime, encode_localtime, mbind, reader_bind.
  rewrite <-!app_assoc, readInt32_put by done.
  rewrite readUInt8_put by (destruct (isDst l); lia). rewrite readUInt8_put by done.
  unfold push_localtime, add_localtime. cbn. do 5 f_equal.
  destruct l as [o [] a]; done.
Qed.

Lemma foldl_add_localtime ls d :
  foldl (λ d x, add_localtime x d) d ls =
    mkData (transitions d) (localtimes d ++ ls) (names d) (abbreviation d).
Proof.
  revert d. induction ls as [|l ls IH]; intros d; cbn.
  - rewrite app_nil_r. by destruct d.
  - rewrite IH. cbn. by rewrite <-app_assoc.
Qed.

Lemma fillTransitions_spec trs rst d :
  Forall (λ t, ∃ l, localtimes d !! Z.to_nat (localtimeIdx t) = Some l ∧
                    localtime t = gmttime t + gmtOffset l) trs →
  fillTransitions (map gmttime trs) (map localtimeIdx trs) (mkR rst d) =
    Ret tt (mkR rst (mkData (transitions d ++ trs) (localtimes d) (names d) (abbreviation d))).
Proof.
  revert d. induction trs as [|t trs IH]; intros d H.
  - cbn. rewrite app_nil_r. by destruct d.
  - apply Forall_cons in H as [(l & Hl & Ht) H]. cbn. unfold mbind, reader_bind, localtime_at.
    cbn. rewrite Hl. cbn. rewrite IH by exact H. cbn. rewrite <-app_assoc, <-Ht. by destruct t.
Qed.

Lemma bind_Ret {A B} (m : reader A) (k : A → reader B) s a s' :
  m s = Ret a s' → (m ≫= k) s = k a s'.
Proof. unfold mbind, reader_bind. by intros ->. Qed.

(** Reading a well-formed file, with anything after its version-1 block, gives its data. *)
Lemma tzBody_encode version reserved g st lp d rst :
  length reserved = 15%nat → in_s 32 g → in_s 32 st → in_s 32 lp → encodable d →
  tzBody host (mkR (encode version reserved g st lp d ++ rst) Data_empty) = Ret tt (mkR rst d).
Proof.
  intros Hr Hg Hst Hlp (Ht & Hl & Ha & Hn & HL & HT).
  unfold tzBody, encode. rewrite <-!app_assoc.
  erewrite bind_Ret; [|apply (readBytes_app TZif)].
  rewrite bool_decide_false by (intros Hc; by apply Hc).
  erewrite bind_Ret; [|apply (readBytes_app [version])].
  change 15 with (Z.of_nat 15). rewrite <-Hr. erewrite bind_Ret; [|apply readBytes_app].
  do 6 (erewrite bind_Ret; [|apply readInt32_put; (done || (unfold in_s; lia))]).
  rewrite (proj2 (Z.ltb_ge _ _)) by lia. rewrite !Nat2Z.id.
  erewrite bind_Ret.
  2:{ apply (read_n_concat _ _ gmttime (λ _ d, d)). intros t rst' d' Hin.
      rewrite Forall_forall in HT. apply readInt32_put, HT, Hin. }
  erewrite bind_Ret.
  2:{ apply (read_n_concat _ _ localtimeIdx (λ _ d, d)). intros t rst' d' Hin.
      rewrite Forall_forall in HT. apply readUInt8_put, HT, Hin. }
  erewrite bind_Ret.
  2:{ apply (read_n_concat _ _ (λ _, tt) add_localtime). intros l rst' d' Hin.
      rewrite Forall_forall in HL. apply readLocaltime_put; apply HL, Hin. }
  assert (∀ (l : list Transition) (d0 : Data), foldl (λ d _, d) d0 l = d0) as Hid
    by (induction l; cbn; auto).
  rewrite !Hid, foldl_add_localtime.
  erewrite bind_Ret; [|apply fillTransitions_spec].
  2:{ cbn. eapply Forall_impl; [exact HT|]. cbn. intros t (_ & _ & ?). done. }
  erewrite bind_Ret; [|apply readBytes_app].
  unfold set_abbreviation. cbn. rewrite <-Hn. by destruct d.
Qed.
End ReaderSpec.

(** ** The theorems *)

(** UTC conversions. For every time within the supported days, [toUtcTime] succeeds with
    a well-formed broken-down time (fields in range, a real calendar date, the right day of
    the year and second of the day) and [fromUtcTime] converts it back to the same time. *)
Theorem utc_roundtrip (s : Z) (Hs : utc_range s) :
  ∃ t, toUtcTime s true = Ok t ∧ is_utc s t ∧ fromUtcTime t = Ok s.
Proof. by apply utc_roundtrip_spec. Qed.

Lemma utc_roundtrip_witness :
  ∃ t, toUtcTime (-1) true = Ok t ∧ is_utc (-1) t ∧ fromUtcTime t = Ok (-1).
Proof. apply (utc_roundtrip (-1)). vm_compute. split; discriminate || reflexivity. Defined.

(** C28: the binary search of [findLocaltime] is exact: on transitions sorted by the compared
    key it returns the local time type of the last transition not after the given time, and
    the first type when there is none. *)
Theorem findLocaltime_correct (data : Data) (s : Transition) (c : bool)
    (Hs : sorted_by c (transitions data)) :
  findLocaltime data s c =
    match in_force c (transitions data) (key c s) with
    | Some t => nth_localtime data (localtimeIdx t)
    | None => nth_localtime data 0
    end.
Proof. by apply findLocaltime_in_force. Qed.

Definition sample_data : Data :=
  mkData [mkTransition 100 3700 1; mkTransition 5000 5000 0; mkTransition 9000 12600 1]
    [mkLocaltime 0 false 0; mkLocaltime 3600 true 4] [] (GMT ++ [x00; x42; x53; x54; x00]).

Lemma findLocaltime_correct_witness :
  findLocaltime sample_data (mkTransition 8999 0 0) true = Ok (mkLocaltime 0 false 0) ∧
  sorted_by true (transitions sample_data).
Proof.
  assert (sorted_by true (transitions sample_data)) as H
    by (unfold sorted_by; repeat constructor).
  split; [|exact H].
  rewrite (findLocaltime_correct sample_data (mkTransition 8999 0 0) true H). reflexivity.
Defined.

(** C29: TZif files. The reader recovers exactly the zone data that was encoded in the
    version-1 block of a file, on both byte orders, ignoring what follows the block. *)
Theorem tzfile_roundtrip (host : endianness) (version : byte) (reserved rst : list byte)
    (g st lp : Z) (d : Data) (Hr : length reserved = 15%nat)
    (Hg : in_s 32 g) (Hst : in_s 32 st) (Hlp : in_s 32 lp) (Hd : encodable d) :
  TimeZone_file host (Some (encode version reserved g st lp d ++ rst)) = Ok (Some d).
Proof. unfold TimeZone_file, readTimeZoneFile. by rewrite tzBody_encode. Qed.

Lemma tzfile_roundtrip_witness :
  TimeZone_file LittleEndian (Some (encode x32 (replicate 15 x00) 0 0 0 sample_data ++ [x00]))
    = Ok (Some sample_data).
Proof.
  apply (tzfile_roundtrip LittleEndian x32 (replicate 15 x00) [x00] 0 0 0 sample_data).
  - reflexivity.
  - by split.
  - by split.
  - by split.
  - do 4 (split; [reflexivity|]). split.
    + repeat first [apply Forall_nil_2 | apply Forall_cons_2]; by vm_compute.
    + repeat first [apply Forall_nil_2 | apply Forall_cons_2];
        (split; [by vm_compute|]); (split; [by vm_compute|]); eexists; split; reflexivity.
Defined.

(** What the documentation promises of gmtime_r and timegm on the supported times: timegm
    depends only on the six civil fields and inverts gmtime_r. *)
Definition same_civil (a b : tm) : Prop :=
  tm_sec a = tm_sec b ∧ tm_min a = tm_min b ∧ tm_hour a = tm_hour b ∧
  tm_mday a = tm_mday b ∧ tm_mon a = tm_mon b ∧ tm_year a = tm_year b.
Definition civil_inverse (gmtime : Z → tm) (timegm : tm → Z) : Prop :=
  ∀ s t, utc_range s → same_civil t (gmtime s) → timegm t = s.

(** Local time. When the type in force at [s] is also the one found for its local time
    (always so for a fixed-offset zone, and for a zone outside the ambiguous interval of a
    transition), [toLocalTime] succeeds and [fromLocalTime] converts it back to [s],
    daylight-saving adjustment included. *)
Theorem local_roundtrip (gmtime : Z → tm) (timegm : tm → Z) (d : Data) (s : Z) (l : Localtime)
    (Hlaw : civil_inverse gmtime timegm)
    (Hs : in_s 62 s) (Hl : in_s 62 (gmtOffset l)) (Hr : utc_range (s + gmtOffset l))
    (Hg : findLocaltime d (mkTransition s 0 0) true = Ok l)
    (Hf : findLocaltime d (mkTransition 0 (s + gmtOffset l) 0) false = Ok l) :
  ∃ t, toLocalTime gmtime (Some d) s = Ok t ∧
       tm_isdst t = (if isDst l then 1 else 0) ∧ tm_gmtoff t = gmtOffset l ∧
       fromLocalTime gmtime timegm (Some d) t = Ok s.
Proof.
  unfold in_s in Hs, Hl. change (2 ^ (62 - 1)) with 2305843009213693952 in *.
  assert (∃ t, toLocalTime gmtime (Some d) s = Ok t ∧
    tm_isdst t = (if isDst l then 1 else 0) ∧ tm_gmtoff t = gmtOffset l ∧
    same_civil t (gmtime (s + gmtOffset l))) as (t & Ht & Hdst & Hoff & Hc).
  { cbn. rewrite Hg. cbn. checked_range. cbn. eexists. split; [done|]. by repeat split. }
  exists t. do 3 (split; [done|]). unfold fromLocalTime.
  rewrite (Hlaw _ _ Hr Hc), Hf. cbn [mbind res_bind].
  rewrite Hdst. destruct (isDst l) eqn:Ed; cbn -[toLocalTime].
  - do 2 checked_range. cbn -[toLocalTime]. replace (s + gmtOffset l - gmtOffset l) with s by lia.
    rewrite Ht. cbn. rewrite Hdst. cbn. checked_range. f_equal. lia.
  - checked_range. f_equal. lia.
Qed.

(** The code's own UTC conversions satisfy the law. *)
Definition utc_gmtime (s : Z) : tm := match toUtcTime s true with Ok t => t | Err _ => tm_zero end.
Definition utc_timegm (t : tm) : Z := match fromUtcTime t with Ok s => s | Err _ => 0 end.

Lemma utc_civil_inverse : civil_inverse utc_gmtime utc_timegm.
Proof.
  intros s t Hs (E1 & E2 & E3 & E4 & E5 & E6).
  destruct (utc_roundtrip_spec s Hs) as (t' & Ht' & _ & Hback).
  unfold utc_gmtime in *. rewrite Ht' in *. unfold utc_timegm, fromUtcTime in *.
  rewrite E1, E2, E3, E4, E5, E6. by rewrite Hback.
Qed.

Lemma local_roundtrip_witness :
  ∃ t, toLocalTime utc_gmtime (Some sample_data) 400 = Ok t ∧
       tm_isdst t = 1 ∧ tm_gmtoff t = 3600 ∧
       fromLocalTime utc_gmtime utc_timegm (Some sample_data) t = Ok 400.
Proof.
  apply (local_roundtrip utc_gmtime utc_timegm sample_data 400 (mkLocaltime 3600 true 4)).
  - exact utc_civil_inverse.
  - vm_compute. by split.
  - vm_compute. by split.
  - vm_compute. by split.
  - reflexivity.
  - vm_compute. reflexivity.
Defined.

(** A zone file that cannot be opened still makes a valid zone, because the reader
    returns true on every path; its first conversion reads the front of an empty vector. *)
Theorem missing_zone_file (host : endianness) :
  ∃ z, TimeZone_file host None = Ok z ∧ valid z = true ∧
       ∀ gmtime s, toLocalTime gmtime z s = Err OutOfBounds.
Proof. by exists (Some Data_empty). Qed.

End TZ.
