(* ===== verification/Poller.v ===== *)
(** * Channel and EPollPoller (net/channel.h, channel.cc, poller.cc, epoller.h, epoller.cc)

    Channels are heap objects named by pointers; the reactor state holds the live channels,
    the poller's fd-to-channel map, the kernel's epoll instance and the loop's dispatch
    state. The kernel is an interface ([EpollKernel], [EpollLaws]: what epoll_ctl(2)
    documents), so every theorem holds for any kernel that obeys it. Callbacks are codes run
    by a parameter [call]; [U] is the rest of the program's state. *)

From S2P Require Import Prelude.

Module Poll.

Abbreviation ptr := positive.

(** ** poll(2) constants *)
Definition POLLIN : Z := 1.
Definition POLLPRI : Z := 2.
Definition POLLOUT : Z := 4.
Definition POLLERR : Z := 8.
Definition POLLHUP : Z := 16.
Definition POLLNVAL : Z := 32.
Definition POLLRDHUP : Z := 8192.

Definition kNoneEvent : Z := 0.
Definition kReadEvent : Z := Z.lor POLLIN POLLPRI.
Definition kWriteEvent : Z := POLLOUT.

Definition kNew : Z := -1.
Definition kAdded : Z := 1.
Definition kDeleted : Z := 2.
Definition kInitEventListSize : Z := 16.

(** ** The Channel object: a callback is [None] when not set, [tie_] names the owner *)
Record Channel := mkChannel {
  fd_ : Z; events_ : Z; revents_ : Z; index_ : Z; logHup_ : bool;
  tie_ : option ptr; tied_ : bool; eventHandling_ : bool; addedToLoop_ : bool;
  readCallback_ : option ptr; writeCallback_ : option ptr;
  closeCallback_ : option ptr; errorCallback_ : option ptr
}.

Definition newChannel (fd : Z) : Channel :=
  mkChannel fd 0 0 (-1) true None false false false None None None None.

Definition with_events (e : Z) (c : Channel) : Channel :=
  mkChannel (fd_ c) e (revents_ c) (index_ c) (logHup_ c) (tie_ c) (tied_ c) (eventHandling_ c)
    (addedToLoop_ c) (readCallback_ c) (writeCallback_ c) (closeCallback_ c) (errorCallback_ c).
Definition with_revents (r : Z) (c : Channel) : Channel :=
  mkChannel (fd_ c) (events_ c) r (index_ c) (logHup_ c) (tie_ c) (tied_ c) (eventHandling_ c)
    (addedToLoop_ c) (readCallback_ c) (writeCallback_ c) (closeCallback_ c) (errorCallback_ c).
Definition with_index (i : Z) (c : Channel) : Channel :=
  mkChannel (fd_ c) (events_ c) (revents_ c) i (logHup_ c) (tie_ c) (tied_ c) (eventHandling_ c)
    (addedToLoop_ c) (readCallback_ c) (writeCallback_ c) (closeCallback_ c) (errorCallback_ c).
Definition with_eventHandling (b : bool) (c : Channel) : Channel :=
  mkChannel (fd_ c) (events_ c) (revents_ c) (index_ c) (logHup_ c) (tie_ c) (tied_ c) b
    (addedToLoop_ c) (readCallback_ c) (writeCallback_ c) (closeCallback_ c) (errorCallback_ c).
Definition with_addedToLoop (b : bool) (c : Channel) : Channel :=
  mkChannel (fd_ c) (events_ c) (revents_ c) (index_ c) (logHup_ c) (tie_ c) (tied_ c)
    (eventHandling_ c) b (readCallback_ c) (writeCallback_ c) (closeCallback_ c) (errorCallback_ c).
Definition setReadCallback (f : ptr) (c : Channel) : Channel :=
  mkChannel (fd_ c) (events_ c) (revents_ c) (index_ c) (logHup_ c) (tie_ c) (tied_ c)
    (eventHandling_ c) (addedToLoop_ c) (Some f) (writeCallback_ c) (closeCallback_ c) (errorCallback_ c).
Definition setWriteCallback (f : ptr) (c : Channel) : Channel :=
  mkChannel (fd_ c) (events_ c) (revents_ c) (index_ c) (logHup_ c) (tie_ c) (tied_ c)
    (eventHandling_ c) (addedToLoop_ c) (readCallback_ c) (Some f) (closeCallback_ c) (errorCallback_ c).
Definition setCloseCallback (f : ptr) (c : Channel) : Channel :=
  mkChannel (fd_ c) (events_ c) (revents_ c) (index_ c) (logHup_ c) (tie_ c) (tied_ c)
    (eventHandling_ c) (addedToLoop_ c) (readCallback_ c) (writeCallback_ c) (Some f) (errorCallback_ c).
Definition setErrorCallback (f : ptr) (c : Channel) : Channel :=
  mkChannel (fd_ c) (events_ c) (revents_ c) (index_ c) (logHup_ c) (tie_ c) (tied_ c)
    (eventHandling_ c) (addedToLoop_ c) (readCallback_ c) (writeCallback_ c) (closeCallback_ c) (Some f).
Definition tie (obj : ptr) (c : Channel) : Channel :=
  mkChannel (fd_ c) (events_ c) (revents_ c) (index_ c) (logHup_ c) (Some obj) true
    (eventHandling_ c) (addedToLoop_ c) (readCallback_ c) (writeCallback_ c) (closeCallback_ c)
    (errorCallback_ c).
Definition doNotLogHup (c : Channel) : Channel :=
  mkChannel (fd_ c) (events_ c) (revents_ c) (index_ c) false (tie_ c) (tied_ c)
    (eventHandling_ c) (addedToLoop_ c) (readCallback_ c) (writeCallback_ c) (closeCallback_ c)
    (errorCallback_ c).

Definition isNoneEvent (c : Channel) : bool := events_ c =? kNoneEvent.
Definition isWriting (c : Channel) : bool := negb (Z.land (events_ c) kWriteEvent =? 0).
Definition isReading (c : Channel) : bool := negb (Z.land (events_ c) kReadEvent =? 0).

(** ** The kernel *)
Inductive ctl_op := EPOLL_CTL_ADD | EPOLL_CTL_DEL | EPOLL_CTL_MOD.

(** [interest] is the interest list: the registered events and data pointer of each fd;
    [pollable] are the open descriptors epoll accepts, within the kernel's limits. *)
Class EpollKernel (K : Type) := {
  epoll_ctl : K → ctl_op → Z → Z * ptr → Z * K;
  interest : K → gmap Z (Z * ptr);
  pollable : K → Z → Prop
}.

Class EpollLaws (K : Type) `{EpollKernel K} := {
  ctl_add (k : K) fd ev : pollable k fd → interest k !! fd = None →
    interest (epoll_ctl k EPOLL_CTL_ADD fd ev).2 = <[fd := ev]> (interest k);
  ctl_mod (k : K) fd ev old : pollable k fd → interest k !! fd = Some old →
    interest (epoll_ctl k EPOLL_CTL_MOD fd ev).2 = <[fd := ev]> (interest k);
  ctl_del (k : K) fd ev old : pollable k fd → interest k !! fd = Some old →
    interest (epoll_ctl k EPOLL_CTL_DEL fd ev).2 = delete fd (interest k);
  ctl_pollable (k : K) o fd ev fd' :
    pollable (epoll_ctl k o fd ev).2 fd' ↔ pollable k fd'
}.

(** ** The reactor state *)
Record reactor (K U : Type) := mkReactor {
  heap : gmap ptr Channel;             (* live Channel objects *)
  channels_ : gmap Z ptr;              (* Poller::channels_ *)
  kern : K;                            (* the instance behind epollfd_ *)
  events_size : Z;                     (* EPollPoller::events_.size() *)
  loopEventHandling_ : bool;           (* EventLoop::eventHandling_ *)
  activeChannels_ : list ptr;          (* EventLoop::activeChannels_ *)
  currentActiveChannel_ : option ptr;  (* EventLoop::currentActiveChannel_ *)
  owners : gset ptr;                   (* objects kept alive by some shared_ptr *)
  user : U
}.
Arguments mkReactor {K U}.
Arguments heap {K U}. Arguments channels_ {K U}. Arguments kern {K U}.
Arguments events_size {K U}. Arguments loopEventHandling_ {K U}.
Arguments activeChannels_ {K U}. Arguments currentActiveChannel_ {K U}.
Arguments owners {K U}. Arguments user {K U}.

Section Reactor.
Context {K : Type} `{EpollKernel K} {U : Type}.
Local Abbreviation reactor := (reactor K U).

Definition with_heap (h : gmap ptr Channel) (s : reactor) : reactor :=
  mkReactor h (channels_ s) (kern s) (events_size s) (loopEventHandling_ s) (activeChannels_ s)
    (currentActiveChannel_ s) (owners s) (user s).
Definition with_channels (m : gmap Z ptr) (s : reactor) : reactor :=
  mkReactor (heap s) m (kern s) (events_size s) (loopEventHandling_ s) (activeChannels_ s)
    (currentActiveChannel_ s) (owners s) (user s).
Definition with_kern (k : K) (s : reactor) : reactor :=
  mkReactor (heap s) (channels_ s) k (events_size s) (loopEventHandling_ s) (activeChannels_ s)
    (currentActiveChannel_ s) (owners s) (user s).
Definition with_events_size (n : Z) (s : reactor) : reactor :=
  mkReactor (heap s) (channels_ s) (kern s) n (loopEventHandling_ s) (activeChannels_ s)
    (currentActiveChannel_ s) (owners s) (user s).
Definition with_active (l : list ptr) (s : reactor) : reactor :=
  mkReactor (heap s) (channels_ s) (kern s) (events_size s) (loopEventHandling_ s) l
    (currentActiveChannel_ s) (owners s) (user s).
Definition with_current (b : bool) (cur : option ptr) (s : reactor) : reactor :=
  mkReactor (heap s) (channels_ s) (kern s) (events_size s) b (activeChannels_ s) cur
    (owners s) (user s).

(** Access through a Channel pointer. *)
Definition get (p : ptr) (s : reactor) : res Channel :=
  match heap s !! p with Some c => Ok c | None => Err UseAfterFree end.
Definition put (p : ptr) (f : Channel → Channel) (s : reactor) : res reactor :=
  c ← get p s; Ok (with_heap (<[p := f c]> (heap s)) s).

(** ** EPollPoller *)

(** The result of epoll_ctl is not acted upon: the log statements are commented out. *)
Definition update (operation : ctl_op) (channel : ptr) (s : reactor) : res reactor :=
  c ← get channel s;
  let '(ret, k) := epoll_ctl (kern s) operation (fd_ c) (events_ c, channel) in
  Ok (with_kern k s).

Definition updateChannel (channel : ptr) (s : reactor) : res reactor :=
  c ← get channel s;
  let index := index_ c in
  let fd := fd_ c in
  if (index =? kNew) || (index =? kDeleted) then
    s ← (if index =? kNew then
           _ ← assert_ (bool_decide (channels_ s !! fd = None));
           Ok (with_channels (<[fd := channel]> (channels_ s)) s)
         else
           _ ← assert_ (bool_decide (channels_ s !! fd ≠ None));
           _ ← assert_ (bool_decide (channels_ s !! fd = Some channel));
           Ok s);
    s ← put channel (with_index kAdded) s;
    update EPOLL_CTL_ADD channel s
  else
    _ ← assert_ (bool_decide (channels_ s !! fd ≠ None));
    _ ← assert_ (bool_decide (channels_ s !! fd = Some channel));
    _ ← assert_ (index =? kAdded);
    if isNoneEvent c then
      s ← update EPOLL_CTL_DEL channel s;
      put channel (with_index kDeleted) s
    else update EPOLL_CTL_MOD channel s.

Definition removeChannel (channel : ptr) (s : reactor) : res reactor :=
  c ← get channel s;
  let fd := fd_ c in
  _ ← assert_ (bool_decide (channels_ s !! fd ≠ None));
  _ ← assert_ (bool_decide (channels_ s !! fd = Some channel));
  _ ← assert_ (isNoneEvent c);
  let index := index_ c in
  _ ← assert_ ((index =? kAdded) || (index =? kDeleted));
  let s := with_channels (delete fd (channels_ s)) s in
  s ← (if index =? kAdded then update EPOLL_CTL_DEL channel s else Ok s);
  put channel (with_index kNew) s.

Definition hasChannel (channel : ptr) (s : reactor) : res bool :=
  c ← get channel s;
  Ok (bool_decide (channels_ s !! fd_ c = Some channel)).

Definition fillActiveChannels (ready : list (Z * ptr)) (s : reactor) : res reactor :=
  _ ← assert_ (zlen ready <=? events_size s);
  mfold (λ '(ev, channel) s,
    c ← get channel s;
    _ ← assert_ (bool_decide (channels_ s !! fd_ c ≠ None));
    _ ← assert_ (bool_decide (channels_ s !! fd_ c = Some channel));
    s ← put channel (with_revents (i32 ev)) s;
    Ok (with_active (activeChannels_ s ++ [channel]) s)) ready s.

(** [ready] is what epoll_wait stored in [events_], [None] when it returned -1. *)
Definition poll (ready : option (list (Z * ptr))) (s : reactor) : res reactor :=
  match ready with
  | None => Ok s
  | Some ready =>
      if 0 <? zlen ready then
        s ← fillActiveChannels ready s;
        Ok (if zlen ready =? events_size s then with_events_size (events_size s * 2) s else s)
      else Ok s
  end.

(** The numbers of the requests, and their names; any other number fails an assertion. *)
Definition ctl_number (o : ctl_op) : Z :=
  match o with EPOLL_CTL_ADD => 1 | EPOLL_CTL_DEL => 2 | EPOLL_CTL_MOD => 3 end.
Definition operationToString (op : Z) : res (list byte) :=
  if op =? ctl_number EPOLL_CTL_ADD then Ok [x41; x44; x44]
  else if op =? ctl_number EPOLL_CTL_DEL then Ok [x44; x45; x4c]
  else if op =? ctl_number EPOLL_CTL_MOD then Ok [x4d; x4f; x44]
  else Err AssertFailed.

(** ** The loop's part (EventLoop::updateChannel, removeChannel, hasChannel)

    Every channel here belongs to this loop and every call is made in its thread. *)
Definition loop_updateChannel : ptr → reactor → res reactor := updateChannel.

Definition loop_removeChannel (channel : ptr) (s : reactor) : res reactor :=
  _ ← (if loopEventHandling_ s then
         assert_ (bool_decide (currentActiveChannel_ s = Some channel) ||
                  bool_decide (channel ∉ activeChannels_ s))
       else Ok tt);
  removeChannel channel s.

(** ** Channel operations *)
Definition channel_update (p : ptr) (s : reactor) : res reactor :=
  s ← put p (with_addedToLoop true) s; loop_updateChannel p s.

Definition set_and_update (f : Z → Z) (p : ptr) (s : reactor) : res reactor :=
  s ← put p (λ c, with_events (f (events_ c)) c) s; channel_update p s.

Definition enableReading : ptr → reactor → res reactor :=
  set_and_update (λ e, Z.lor e kReadEvent).
Definition disableReading : ptr → reactor → res reactor :=
  set_and_update (λ e, Z.land e (Z.lnot kReadEvent)).
Definition enableWriting : ptr → reactor → res reactor :=
  set_and_update (λ e, Z.lor e kWriteEvent).
Definition disableWriting : ptr → reactor → res reactor :=
  set_and_update (λ e, Z.land e (Z.lnot kWriteEvent)).
Definition disableAll : ptr → reactor → res reactor :=
  set_and_update (λ _, kNoneEvent).

Definition channel_remove (p : ptr) (s : reactor) : res reactor :=
  c ← get p s;
  _ ← assert_ (isNoneEvent c);
  s ← put p (with_addedToLoop false) s;
  loop_removeChannel p s.

(** new Channel(loop, fd) at a fresh address, and delete. *)
Definition channel_new (p : ptr) (fd : Z) (s : reactor) : res reactor :=
  Ok (with_heap (<[p := newChannel fd]> (heap s)) s).

Definition channel_delete (p : ptr) (s : reactor) : res reactor :=
  c ← get p s;
  _ ← assert_ (negb (eventHandling_ c));
  _ ← assert_ (negb (addedToLoop_ c));
  has ← hasChannel p s;
  _ ← assert_ (negb has);
  Ok (with_heap (delete p (heap s)) s).

(** ** Event dispatch *)
Section Dispatch.
Context (call : ptr → reactor → res reactor).

Definition call_if (cond : Channel → bool) (cb : Channel → option ptr) (p : ptr) (s : reactor)
    : res reactor :=
  c ← get p s;
  if cond c then match cb c with Some f => call f s | None => Ok s end else Ok s.

Definition has (mask : Z) (c : Channel) : bool := negb (Z.land (revents_ c) mask =? 0).

Definition handleEventWithGuard (p : ptr) (s : reactor) : res reactor :=
  s ← put p (with_eventHandling true) s;
  s ← call_if (λ c, has POLLHUP c && negb (has POLLIN c)) closeCallback_ p s;
  s ← call_if (has (Z.lor POLLERR POLLNVAL)) errorCallback_ p s;
  s ← call_if (has (Z.lor (Z.lor POLLIN POLLPRI) POLLRDHUP)) readCallback_ p s;
  s ← call_if (has POLLOUT) writeCallback_ p s;
  put p (with_eventHandling false) s.

Definition handleEvent (p : ptr) (s : reactor) : res reactor :=
  c ← get p s;
  if tied_ c then
    match tie_ c with
    | Some o => if decide (o ∈ owners s) then handleEventWithGuard p s else Ok s
    | None => Ok s
    end
  else handleEventWithGuard p s.

(** One turn of EventLoop::loop() up to the pending functors: poll, then the events. *)
Definition loop_dispatch (ready : option (list (Z * ptr))) (s : reactor) : res reactor :=
  s ← poll ready (with_active [] s);
  s ← mfold (λ p s, handleEvent p (with_current true (Some p) s))
        (activeChannels_ s) (with_current true (currentActiveChannel_ s) s);
  Ok (with_current false None s).
End Dispatch.

(** ** The invariant: the kernel's interest list mirrors the channels *)

(** What should be registered for [fd]: the events of its channel, when it is kAdded. *)
Definition registered (s : reactor) (fd : Z) : option (Z * ptr) :=
  p ← channels_ s !! fd;
  c ← heap s !! p;
  if index_ c =? kAdded then Some (events_ c, p) else None.

Definition mapped_ok (s : reactor) : Prop :=
  ∀ fd p, channels_ s !! fd = Some p →
    ∃ c, heap s !! p = Some c ∧ fd_ c = fd ∧ (index_ c = kAdded ∨ index_ c = kDeleted).
Definition indexed_ok (s : reactor) : Prop :=
  ∀ p c, heap s !! p = Some c →
    (index_ c = kNew ∧ addedToLoop_ c = false) ∨
    (channels_ s !! fd_ c = Some p ∧ addedToLoop_ c = true).
Definition mirror (s : reactor) : Prop :=
  ∀ fd, interest (kern s) !! fd = registered s fd.
Definition open_ok (s : reactor) : Prop :=
  ∀ p c, heap s !! p = Some c → pollable (kern s) (fd_ c).

Definition inv (s : reactor) : Prop :=
  mapped_ok s ∧ indexed_ok s ∧ mirror s ∧ open_ok s ∧ 1 ≤ events_size s.

Lemma get_Some p s c : heap s !! p = Some c → get p s = Ok c.
Proof. unfold get. by intros ->. Qed.

Lemma put_Some p f s c : heap s !! p = Some c → put p f s = Ok (with_heap (<[p := f c]> (heap s)) s).
Proof. intros Hp. unfold put. by rewrite (get_Some _ _ _ Hp). Qed.

Lemma inv_new_unmapped s p c : inv s → heap s !! p = Some c → index_ c = kNew →
  ∀ fd, channels_ s !! fd ≠ Some p.
Proof.
  intros (HA & _) Hp Hi fd Hfd. destruct (HA _ _ Hfd) as (c' & Hc' & _ & Hx).
  rewrite Hp in Hc'. injection Hc' as <-. rewrite Hi in Hx. by destruct Hx.
Qed.

Lemma inv_index s p c : inv s → heap s !! p = Some c →
  index_ c = kNew ∨ index_ c = kAdded ∨ index_ c = kDeleted.
Proof.
  intros (HA & HB & _) Hp. destruct (HB _ _ Hp) as [[? _]|[Hm _]]; [by left|].
  destruct (HA _ _ Hm) as (c' & Hc' & _ & ?). naive_solver.
Qed.

Context `{!EpollLaws K}.

(** Re-establishing the invariant after one channel's entry changed. *)
Lemma inv_update s p c c' k' :
  inv s → heap s !! p = Some c →
  fd_ c' = fd_ c → index_ c' = kAdded ∨ index_ c' = kDeleted → addedToLoop_ c' = true →
  (channels_ s !! fd_ c = None ∨ channels_ s !! fd_ c = Some p) →
  interest k' = (if index_ c' =? kAdded then <[fd_ c := (events_ c', p)]> (interest (kern s))
                 else delete (fd_ c) (interest (kern s))) →
  (∀ fd, pollable k' fd ↔ pollable (kern s) fd) →
  inv (with_kern k' (with_channels (<[fd_ c := p]> (channels_ s))
         (with_heap (<[p := c']> (heap s)) s))).
Proof.
  intros Hinv Hp Hfd Hix Hadd Hch Hk Hpo.
  pose proof Hinv as (HA & HB & HC & HD & HE).
  assert (∀ fd, fd ≠ fd_ c → channels_ s !! fd ≠ Some p) as Hother.
  { intros fd Hne Hfd'. destruct (HA _ _ Hfd') as (c0 & ? & ? & _). naive_solver. }
  split_and!; try done; cbn.
  - intros fd q. cbn. rewrite lookup_insert. case_decide as E; intros Hq; simplify_eq.
    + exists c'. by rewrite lookup_insert_eq.
    + destruct (HA _ _ Hq) as (cq & ? & ? & ?). exists cq.
      rewrite lookup_insert_ne by naive_solver. done.
  - intros q cq. cbn. rewrite !lookup_insert. case_decide as E; intros Hq; simplify_eq.
    + right. rewrite Hfd. by rewrite decide_True.
    + destruct (HB _ _ Hq) as [?|[Hm ?]]; [by left|right]. split; [|done].
      rewrite decide_False; [done|]. intros Ef. rewrite <-Ef in Hm. naive_solver.
  - intros fd. unfold registered. cbn. rewrite Hk, lookup_insert. case_decide as E; cbn.
    + subst fd. rewrite lookup_insert_eq. cbn.
      destruct (index_ c' =? kAdded); [by rewrite lookup_insert_eq|by rewrite lookup_delete_eq].
    + assert (interest (kern s) !! fd = registered s fd) as Hfd0 by apply HC.
      destruct (index_ c' =? kAdded); [rewrite lookup_insert_ne by done|rewrite lookup_delete_ne by done];
        rewrite Hfd0; unfold registered;
        (destruct (channels_ s !! fd) as [q|] eqn:Eq; cbn; [|done]);
        (rewrite lookup_insert_ne; [done|naive_solver]).
  - intros q cq. cbn. rewrite lookup_insert. case_decide; intros; simplify_eq; apply Hpo.
    + rewrite Hfd. eauto.
    + eauto.
Qed.

Lemma with_channels_id s : with_channels (channels_ s) s = s.
Proof. by destruct s. Qed.

Lemma update_Some o p s c :
  heap s !! p = Some c →
  update o p s = Ok (with_kern (epoll_ctl (kern s) o (fd_ c) (events_ c, p)).2 s).
Proof.
  intros Hp. unfold update. rewrite (get_Some _ _ _ Hp). cbn. by destruct (epoll_ctl _ _ _ _).
Qed.

(** The request updateChannel sends to the kernel, and the index it leaves. *)
Definition ctl_of (index e : Z) : ctl_op :=
  if index =? kAdded then if e =? 0 then EPOLL_CTL_DEL else EPOLL_CTL_MOD else EPOLL_CTL_ADD.
Definition index_of (index e : Z) : Z :=
  if index =? kAdded then if e =? 0 then kDeleted else kAdded else kAdded.

(** updateChannel on a channel [c] (its interest already changed) of a state whose map is
    consistent with its index. *)
Lemma updateChannel_run p c s :
  heap s !! p = Some c →
  (index_ c = kNew ∧ channels_ s !! fd_ c = None ∨
   (index_ c = kAdded ∨ index_ c = kDeleted) ∧ channels_ s !! fd_ c = Some p) →
  updateChannel p s =
    Ok (with_kern (epoll_ctl (kern s) (ctl_of (index_ c) (events_ c)) (fd_ c) (events_ c, p)).2
         (with_channels (<[fd_ c := p]> (channels_ s))
           (with_heap (<[p := with_index (index_of (index_ c) (events_ c)) c]> (heap s)) s))).
Proof.
  intros Hp Hc. unfold updateChannel. rewrite (get_Some _ _ _ Hp). cbn [mbind res_bind].
  destruct Hc as [[Hi Hm]|[[Hi|Hi] Hm]]; rewrite Hi, Hm; cbn.
  - rewrite (put_Some p _ _ c) by done. cbn.
    rewrite (update_Some _ p _ (with_index kAdded c)) by apply lookup_insert_eq. done.
  - rewrite bool_decide_true by done. cbn. unfold isNoneEvent, ctl_of, index_of, kNoneEvent. cbn.
    destruct (events_ c =? 0).
    + rewrite (update_Some _ p _ c) by done. cbn. rewrite (put_Some p _ _ c) by done. cbn.
      by rewrite (insert_id (channels_ s)) by done.
    + rewrite (update_Some _ p _ c) by done.
      rewrite (insert_id (channels_ s)) by done.
      rewrite insert_id; [by destruct s|]. rewrite Hp. by destruct c; cbn in *; subst.
  - rewrite bool_decide_true by done. cbn. rewrite (put_Some p _ _ c) by done. cbn.
    rewrite (update_Some _ p _ (with_index kAdded c)) by apply lookup_insert_eq. cbn.
    by rewrite (insert_id (channels_ s)) by done.
Qed.

(** The kernel's answer to that request, when the invariant holds. *)
Lemma ctl_interest s p c e :
  inv s → heap s !! p = Some c → (index_ c = kNew → channels_ s !! fd_ c = None) →
  let k' := (epoll_ctl (kern s) (ctl_of (index_ c) e) (fd_ c) (e, p)).2 in
  interest k' = if index_of (index_ c) e =? kAdded
                then <[fd_ c := (e, p)]> (interest (kern s))
                else delete (fd_ c) (interest (kern s)).
Proof.
  intros Hinv Hp Hnew k'. pose proof Hinv as (HA & HB & HC & HD & HE).
  pose proof (HD _ _ Hp) as Hpol. pose proof (HC (fd_ c)) as Hreg. unfold registered in Hreg.
  subst k'. unfold ctl_of, index_of.
  destruct (inv_index _ _ _ Hinv Hp) as [Hi|Hi]; [|assert (channels_ s !! fd_ c = Some p) as Hm].
  2:{ destruct (HB _ _ Hp) as [[Hx _]|[Hm _]]; [|done]. rewrite Hx in Hi. by destruct Hi. }
  - rewrite (Hnew Hi) in Hreg. rewrite Hi. cbn. by apply ctl_add.
  - rewrite Hm in Hreg. cbn in Hreg. rewrite Hp in Hreg. cbn in Hreg.
    destruct Hi as [Hi|Hi]; rewrite Hi in *; cbn in *; [|by apply ctl_add].
    destruct (e =? 0); cbn; [by eapply ctl_del|by eapply ctl_mod].
Qed.

(** Setting the interest of a channel and updating it. *)
Lemma set_and_update_spec f p c s :
  inv s → heap s !! p = Some c → (index_ c = kNew → channels_ s !! fd_ c = None) →
  let e := f (events_ c) in
  let c' := with_index (index_of (index_ c) e) (with_addedToLoop true (with_events e c)) in
  ∃ k', set_and_update f p s = Ok (with_kern k' (with_channels (<[fd_ c := p]> (channels_ s))
                                   (with_heap (<[p := c']> (heap s)) s))) ∧
        inv (with_kern k' (with_channels (<[fd_ c := p]> (channels_ s))
               (with_heap (<[p := c']> (heap s)) s))).
Proof.
  intros Hinv Hp Hnew e c'. pose proof Hinv as (HA & HB & _).
  exists (epoll_ctl (kern s) (ctl_of (index_ c) e) (fd_ c) (e, p)).2.
  set (c1 := with_addedToLoop true (with_events e c)).
  assert (channels_ s !! fd_ c = None ∨ channels_ s !! fd_ c = Some p) as Hm.
  { destruct (HB _ _ Hp) as [[Hx _]|[Hm _]]; auto. }
  split.
  - assert (set_and_update f p s = updateChannel p (with_heap (<[p := c1]> (heap s)) s)) as ->.
    { unfold set_and_update, channel_update. rewrite (put_Some p _ s c) by done. cbn.
      rewrite (put_Some p _ _ (with_events e c)) by (cbn; by rewrite lookup_insert_eq). cbn.
      by rewrite insert_insert_eq. }
    rewrite (updateChannel_run p c1).
    + cbn. by rewrite insert_insert_eq.
    + cbn. by rewrite lookup_insert_eq.
    + cbn. destruct (inv_index _ _ _ Hinv Hp) as [Hi|Hi]; [by auto|right]. split; [done|].
      destruct (HB _ _ Hp) as [[Hx _]|[? _]]; [|done]. rewrite Hx in Hi. by destruct Hi.
  - apply inv_update; try done; cbn.
    + unfold index_of. destruct (index_ c =? kAdded), (e =? 0); auto.
    + by apply ctl_interest.
    + intros fd. apply ctl_pollable.
Qed.

(** Removing a channel that listens to nothing. *)
Definition may_remove (p : ptr) (s : reactor) : Prop :=
  loopEventHandling_ s = true → currentActiveChannel_ s = Some p ∨ p ∉ activeChannels_ s.

Lemma channel_remove_run p c s :
  heap s !! p = Some c → events_ c = 0 → (index_ c = kAdded ∨ index_ c = kDeleted) →
  channels_ s !! fd_ c = Some p → may_remove p s →
  channel_remove p s = Ok (with_kern (if index_ c =? kAdded
      then (epoll_ctl (kern s) EPOLL_CTL_DEL (fd_ c) (0, p)).2 else kern s)
    (with_channels (delete (fd_ c) (channels_ s))
      (with_heap (<[p := with_index kNew (with_addedToLoop false c)]> (heap s)) s))).
Proof.
  intros Hp He Hi Hm Hmay. set (c1 := with_addedToLoop false c).
  unfold channel_remove. rewrite (get_Some _ _ _ Hp). cbn [mbind res_bind].
  unfold isNoneEvent at 1. rewrite He. cbn. rewrite (put_Some p _ s c) by done. cbn.
  unfold loop_removeChannel. cbn.
  assert ((if loopEventHandling_ s then assert_ (bool_decide (currentActiveChannel_ s = Some p) ||
            bool_decide (p ∉ activeChannels_ s)) else Ok tt) = Ok tt) as ->.
  { destruct (loopEventHandling_ s) eqn:El; [|done]. apply assert_true. apply orb_true_iff.
    destruct (Hmay El); [left|right]; by apply bool_decide_eq_true. }
  cbn. unfold removeChannel.
  rewrite (get_Some p _ c1) by (cbn; by rewrite lookup_insert_eq). cbn. rewrite Hm.
  rewrite !bool_decide_true by done. cbn. unfold isNoneEvent. cbn. rewrite He. cbn.
  destruct Hi as [Hi|Hi]; rewrite Hi; cbn.
  - rewrite (update_Some _ p _ c1) by (cbn; by rewrite lookup_insert_eq). cbn.
    rewrite (put_Some p _ _ c1) by (cbn; by rewrite lookup_insert_eq). cbn.
    by rewrite insert_insert_eq, He.
  - rewrite (put_Some p _ _ c1) by (cbn; by rewrite lookup_insert_eq). cbn.
    by rewrite insert_insert_eq.
Qed.

(** Re-establishing the invariant when a channel leaves the map. *)
Lemma inv_remove s p c k' :
  inv s → heap s !! p = Some c → channels_ s !! fd_ c = Some p →
  interest k' = delete (fd_ c) (interest (kern s)) →
  (∀ fd, pollable k' fd ↔ pollable (kern s) fd) →
  inv (with_kern k' (with_channels (delete (fd_ c) (channels_ s))
         (with_heap (<[p := with_index kNew (with_addedToLoop false c)]> (heap s)) s))).
Proof.
  intros (HA & HB & HC & HD & HE) Hp Hm Hk Hpo.
  assert (∀ fd, fd ≠ fd_ c → channels_ s !! fd ≠ Some p) as Hother.
  { intros fd Hne Hfd'. destruct (HA _ _ Hfd') as (c0 & ? & ? & _). naive_solver. }
  split_and!; try done; cbn.
  - intros fd q. cbn. rewrite lookup_delete. case_decide as E; [done|]. intros Hq.
    destruct (HA _ _ Hq) as (cq & ? & ? & ?). exists cq.
    rewrite lookup_insert_ne by naive_solver. done.
  - intros q cq. cbn. rewrite lookup_insert. case_decide as E; intros Hq; simplify_eq; [by left|].
    destruct (HB _ _ Hq) as [?|[Hmq ?]]; [by left|right]. split; [|done].
    rewrite lookup_delete_ne; [done|]. intros Ef. rewrite <-Ef in Hmq. naive_solver.
  - intros fd. unfold registered. cbn. rewrite Hk, !lookup_delete. case_decide as E; [done|].
    rewrite HC. unfold registered. destruct (channels_ s !! fd) as [q|] eqn:Eq; cbn; [|done].
    rewrite lookup_insert_ne; [done|naive_solver].
  - intros q cq. cbn. rewrite lookup_insert. case_decide; intros; simplify_eq; apply Hpo; cbn; eauto.
Qed.

Lemma channel_remove_spec p c s :
  inv s → heap s !! p = Some c → events_ c = 0 → index_ c ≠ kNew → may_remove p s →
  ∃ s', channel_remove p s = Ok s' ∧ inv s' ∧
    interest (kern s') = delete (fd_ c) (interest (kern s)) ∧
    channels_ s' = delete (fd_ c) (channels_ s) ∧
    heap s' = <[p := with_index kNew (with_addedToLoop false c)]> (heap s) ∧
    (∀ q, may_remove q s → may_remove q s').
Proof.
  intros Hinv Hp He Hi Hmay. pose proof Hinv as (HA & HB & HC & HD & HE).
  destruct (HB _ _ Hp) as [[? _]|[Hm _]]; [done|].
  destruct (inv_index _ _ _ Hinv Hp) as [?|Hi']; [done|].
  rewrite (channel_remove_run p c s) by done. pose proof (HC (fd_ c)) as Hreg.
  unfold registered in Hreg. rewrite Hm in Hreg. cbn in Hreg. rewrite Hp in Hreg. cbn in Hreg.
  eexists. split; [done|]. cbn.
  assert (interest (if index_ c =? kAdded
    then (epoll_ctl (kern s) EPOLL_CTL_DEL (fd_ c) (0, p)).2 else kern s) =
    delete (fd_ c) (interest (kern s))) as Hk.
  { destruct (index_ c =? kAdded); [eapply ctl_del; eauto|]. by rewrite delete_id. }
  split; [|done]. apply inv_remove; try done.
  intros fd. destruct (index_ c =? kAdded); [apply ctl_pollable|done].
Qed.

(** Fields the invariant does not look at may change freely. *)
Lemma inv_same s p c c' :
  inv s → heap s !! p = Some c →
  fd_ c' = fd_ c → events_ c' = events_ c → index_ c' = index_ c →
  addedToLoop_ c' = addedToLoop_ c →
  inv (with_heap (<[p := c']> (heap s)) s).
Proof.
  intros (HA & HB & HC & HD & HE) Hp E1 E2 E3 E4. split_and!; try done.
  - intros fd q Hq. destruct (HA _ _ Hq) as (cq & Hcq & ? & ?). cbn in *.
    rewrite lookup_insert. case_decide; simplify_eq; [|by exists cq].
    exists c'. by rewrite E1, E3.
  - intros q cq. cbn. rewrite lookup_insert. case_decide; intros; simplify_eq; [|eauto].
    rewrite E1, E3, E4. eauto.
  - intros fd. unfold registered. cbn. rewrite HC. unfold registered.
    destruct (channels_ s !! fd) as [q|]; cbn; [|done]. rewrite lookup_insert.
    case_decide; simplify_eq; [|done]. rewrite Hp. cbn. by rewrite E2, E3.
  - intros q cq. cbn. rewrite lookup_insert. case_decide; intros; simplify_eq; [|eauto].
    rewrite E1. eauto.
Qed.

(** What epoll_wait(2) promises: at most [maxevents] entries, each for a registered
    descriptor and carrying its data pointer. *)
Definition wait_ok (ready : list (Z * ptr)) (s : reactor) : Prop :=
  zlen ready ≤ events_size s ∧
  ∀ ev p, (ev, p) ∈ ready → ∃ fd e, interest (kern s) !! fd = Some (e, p).

Definition set_ready (ready : list (Z * ptr)) (h : gmap ptr Channel) : gmap ptr Channel :=
  foldl (λ h '(ev, p), alter (with_revents (i32 ev)) p h) h ready.

Lemma fill_loop_spec ready s :
  inv s → (∀ ev p, (ev, p) ∈ ready → ∃ c, heap s !! p = Some c ∧ channels_ s !! fd_ c = Some p) →
  let s' := with_active (activeChannels_ s ++ map snd ready)
              (with_heap (set_ready ready (heap s)) s) in
  mfold (λ '(ev, channel) s,
    c ← get channel s;
    _ ← assert_ (bool_decide (channels_ s !! fd_ c ≠ None));
    _ ← assert_ (bool_decide (channels_ s !! fd_ c = Some channel));
    s ← put channel (with_revents (i32 ev)) s;
    Ok (with_active (activeChannels_ s ++ [channel]) s)) ready s = Ok s' ∧ inv s'.
Proof.
  revert s. induction ready as [|[ev p] ready IH]; intros s Hinv Hr; cbn.
  { rewrite app_nil_r. by destruct s. }
  destruct (Hr ev p ltac:(left)) as (c & Hp & Hm).
  rewrite (get_Some _ _ _ Hp). cbn. rewrite Hm, !bool_decide_true by done. cbn.
  rewrite (put_Some _ _ _ _ Hp). cbn.
  set (s1 := with_active _ _).
  destruct (IH s1) as [He Hi].
  - unfold s1. apply (inv_same s p c (with_revents (i32 ev) c)) in Hinv; done.
  - intros ev' q Hq. destruct (Hr ev' q) as (cq & Hcq & Hmq); [by right|]. cbn.
    rewrite lookup_insert. case_decide; simplify_eq; [|by exists cq].
    by exists (with_revents (i32 ev) c).
  - assert (alter (with_revents (i32 ev)) p (heap s) = <[p:=with_revents (i32 ev) c]> (heap s)) as ->.
    { apply map_eq. intros q. rewrite lookup_alter, lookup_insert. case_decide; subst; [by rewrite Hp|done]. }
    rewrite He. cbn. rewrite <-app_assoc. split; [done|].
    unfold s1 in Hi. cbn in Hi. by rewrite <-app_assoc in Hi.
Qed.

Lemma ready_live ready s ev p :
  inv s → wait_ok ready s → (ev, p) ∈ ready →
  ∃ c, heap s !! p = Some c ∧ channels_ s !! fd_ c = Some p.
Proof.
  intros (HA & _ & HC & _) [_ Hw] Hin. destruct (Hw _ _ Hin) as (fd & e & Hfd). rewrite HC in Hfd.
  unfold registered in Hfd. destruct (channels_ s !! fd) as [q|] eqn:Eq; [|done]. cbn in Hfd.
  destruct (HA _ _ Eq) as (c & Hc & Hfdc & _). rewrite Hc in Hfd. cbn in Hfd.
  destruct (index_ c =? kAdded); [|done]. simplify_eq. by exists c.
Qed.

Lemma set_ready_other ready h p : p ∉ map snd ready → set_ready ready h !! p = h !! p.
Proof.
  revert h. induction ready as [|[ev q] ready IH]; intros h Hp; [done|]. cbn in Hp.
  change (set_ready ((ev, q) :: ready) h) with (set_ready ready (alter (with_revents (i32 ev)) q h)).
  rewrite IH by set_solver. apply lookup_alter_ne. set_solver.
Qed.

Lemma set_ready_in ready h ev p :
  NoDup (map snd ready) → (ev, p) ∈ ready →
  set_ready ready h !! p = with_revents (i32 ev) <$> h !! p.
Proof.
  revert h. induction ready as [|[ev' q] ready IH]; intros h Hnd Hin; [by apply elem_of_nil in Hin|].
  change (set_ready ((ev', q) :: ready) h) with (set_ready ready (alter (with_revents (i32 ev')) q h)).
  cbn in Hnd. apply NoDup_cons in Hnd as [Hq Hnd]. apply elem_of_cons in Hin as [[= -> ->]|Hin].
  - rewrite set_ready_other by done. apply lookup_alter_eq.
  - rewrite IH by done. rewrite lookup_alter_ne; [done|]. intros ->. apply Hq.
    apply list_elem_of_fmap. by exists (ev, p).
Qed.

Lemma poll_spec ready s :
  inv s → wait_ok ready s →
  ∃ s', poll (Some ready) s = Ok s' ∧ inv s' ∧
    activeChannels_ s' = activeChannels_ s ++ map snd ready ∧
    heap s' = set_ready ready (heap s) ∧
    events_size s' = (if zlen ready =? events_size s then events_size s * 2 else events_size s) ∧
    channels_ s' = channels_ s ∧ kern s' = kern s.
Proof.
  intros Hinv Hok. pose proof Hinv as (_ & _ & _ & _ & HE). pose proof Hok as [Hlen _]. unfold poll.
  destruct (fill_loop_spec ready s Hinv) as [He Hi].
  { intros ev p Hin. by eapply ready_live. }
  destruct (Z.ltb_spec 0 (zlen ready)).
  - unfold fillActiveChannels. rewrite assert_true by lia. cbn [mbind res_bind]. rewrite He.
    eexists. split; [done|]. cbn.
    destruct (zlen ready =? events_size s); split_and!; try done.
    destruct Hi as (?&?&?&?&?). split_and!; try done. cbn in *. lia.
  - assert (ready = []) as -> by (destruct ready; [done|cbn in *; lia]).
    exists s. destruct (Z.eqb_spec (Z.of_nat (@length (Z * ptr) [])) (events_size s)); [cbn in *; lia|].
    cbn. by rewrite app_nil_r.
Qed.

(** ** Runs of the poller's clients *)
Inductive cop :=
  | CNew (p : ptr) (fd : Z)
  | CSetRead (p cb : ptr) | CSetWrite (p cb : ptr) | CSetClose (p cb : ptr) | CSetError (p cb : ptr)
  | CTie (p obj : ptr)
  | CEnableReading (p : ptr) | CDisableReading (p : ptr)
  | CEnableWriting (p : ptr) | CDisableWriting (p : ptr)
  | CDisableAll (p : ptr)
  | CRemove (p : ptr)
  | CDelete (p : ptr)
  | CPoll (ready : list (Z * ptr)).

Definition exec_cop (o : cop) (s : reactor) : res reactor :=
  match o with
  | CNew p fd => channel_new p fd s
  | CSetRead p cb => put p (setReadCallback cb) s
  | CSetWrite p cb => put p (setWriteCallback cb) s
  | CSetClose p cb => put p (setCloseCallback cb) s
  | CSetError p cb => put p (setErrorCallback cb) s
  | CTie p obj => put p (tie obj) s
  | CEnableReading p => enableReading p s
  | CDisableReading p => disableReading p s
  | CEnableWriting p => enableWriting p s
  | CDisableWriting p => disableWriting p s
  | CDisableAll p => disableAll p s
  | CRemove p => channel_remove p s
  | CDelete p => channel_delete p s
  | CPoll ready => poll (Some ready) (with_active [] s)
  end.

(** A channel may be updated when it is live and no other channel holds its descriptor. *)
Definition updatable (p : ptr) (s : reactor) : Prop :=
  ∃ c, heap s !! p = Some c ∧ (index_ c = kNew → channels_ s !! fd_ c = None).

Definition pre_cop (o : cop) (s : reactor) : Prop :=
  match o with
  | CNew p fd => heap s !! p = None ∧ pollable (kern s) fd
  | CSetRead p _ | CSetWrite p _ | CSetClose p _ | CSetError p _ | CTie p _ =>
      is_Some (heap s !! p)
  | CEnableReading p | CDisableReading p | CEnableWriting p | CDisableWriting p
  | CDisableAll p => updatable p s
  | CRemove p => ∃ c, heap s !! p = Some c ∧ events_ c = 0 ∧ index_ c ≠ kNew ∧ may_remove p s
  | CDelete p => ∃ c, heap s !! p = Some c ∧ eventHandling_ c = false ∧ index_ c = kNew
  | CPoll ready => wait_ok ready s
  end.

Lemma inv_new s p fd :
  inv s → heap s !! p = None → pollable (kern s) fd →
  inv (with_heap (<[p := newChannel fd]> (heap s)) s).
Proof.
  intros (HA & HB & HC & HD & HE) Hp Hfd. split_and!; try done.
  - intros fd' q Hq. destruct (HA _ _ Hq) as (cq & Hcq & ?). cbn in *.
    exists cq. rewrite lookup_insert_ne by naive_solver. done.
  - intros q cq. cbn. rewrite lookup_insert. case_decide; intros; simplify_eq; [by left|eauto].
  - intros fd'. unfold registered. cbn. rewrite HC. unfold registered.
    destruct (channels_ s !! fd') as [q|] eqn:Eq; cbn; [|done].
    destruct (HA _ _ Eq) as (cq & Hcq & _). rewrite lookup_insert_ne by naive_solver. done.
  - intros q cq. cbn. rewrite lookup_insert. case_decide; intros; simplify_eq; [done|eauto].
Qed.

Lemma channel_delete_spec p c s :
  inv s → heap s !! p = Some c → eventHandling_ c = false → index_ c = kNew →
  channel_delete p s = Ok (with_heap (delete p (heap s)) s) ∧
  inv (with_heap (delete p (heap s)) s).
Proof.
  intros Hinv Hp Hh Hi. pose proof (inv_new_unmapped _ _ _ Hinv Hp Hi) as Hun.
  destruct Hinv as (HA & HB & HC & HD & HE). split.
  - unfold channel_delete, hasChannel. rewrite (get_Some _ _ _ Hp). cbn. rewrite Hh. cbn.
    destruct (HB _ _ Hp) as [[_ Ha]|[Hm _]]; [|by apply Hun in Hm]. rewrite Ha. cbn.
    by rewrite bool_decide_false.
  - split_and!; try done.
    + intros fd q Hq. destruct (HA _ _ Hq) as (cq & Hcq & ?). exists cq. cbn in *.
      rewrite lookup_delete_ne; [done|]. intros <-. by apply Hun in Hq.
    + intros q cq Hq. cbn in *. apply lookup_delete_Some in Hq as [_ Hq]. eauto.
    + intros fd. unfold registered. cbn. rewrite HC. unfold registered.
      destruct (channels_ s !! fd) as [q|] eqn:Eq; cbn; [|done].
      rewrite lookup_delete_ne; [done|]. intros <-. by apply Hun in Eq.
    + intros q cq Hq. cbn in *. apply lookup_delete_Some in Hq as [_ Hq]. eauto.
Qed.

Lemma put_same_spec p f s :
  inv s → is_Some (heap s !! p) →
  (∀ c, fd_ (f c) = fd_ c ∧ events_ (f c) = events_ c ∧ index_ (f c) = index_ c ∧
        addedToLoop_ (f c) = addedToLoop_ c) →
  ∃ s', put p f s = Ok s' ∧ inv s'.
Proof.
  intros Hinv [c Hc] Hf. rewrite (put_Some _ _ _ _ Hc). eexists. split; [done|].
  destruct (Hf c) as (?&?&?&?). by eapply inv_same.
Qed.

Lemma exec_cop_spec o s : inv s → pre_cop o s → ∃ s', exec_cop o s = Ok s' ∧ inv s'.
Proof.
  intros Hinv Hpre.
  assert (∀ f p, updatable p s → ∃ s', set_and_update f p s = Ok s' ∧ inv s') as Hup.
  { intros f p (c & Hc & Hn). destruct (set_and_update_spec f p c s Hinv Hc Hn) as (k & ? & ?).
    eauto. }
  destruct o; cbn in *; try (by apply Hup); try (by apply put_same_spec).
  - destruct Hpre. eexists. split; [done|]. by apply inv_new.
  - destruct Hpre as (c & ? & ? & ? & ?).
    destruct (channel_remove_spec p c s) as (s' & ? & ? & _); try done. by exists s'.
  - destruct Hpre as (c & ? & ? & ?). destruct (channel_delete_spec p c s); try done. eauto.
  - destruct (poll_spec ready (with_active [] s)) as (s' & ? & ? & _); try done. by exists s'.
Qed.

(** [admits] relates a start state to the operations that may follow. *)
Fixpoint admits (os : list cop) (s : reactor) : Prop :=
  match os with
  | [] => True
  | o :: os' => pre_cop o s ∧ ∀ s', exec_cop o s = Ok s' → admits os' s'
  end.

Lemma admits_run os s :
  inv s → admits os s → ∃ s', mfold exec_cop os s = Ok s' ∧ inv s'.
Proof.
  revert s. induction os as [|o os IH]; intros s Hinv Ha; cbn in *; [by exists s|].
  destruct Ha as [Hpre Hk]. destruct (exec_cop_spec o s Hinv Hpre) as (s1 & He & Hi).
  rewrite He. cbn. apply IH; auto.
Qed.

(** ** The order of callbacks *)

(** The fields that decide the dispatch. *)
Definition agree (c c' : Channel) : Prop :=
  revents_ c' = revents_ c ∧ closeCallback_ c' = closeCallback_ c ∧
  errorCallback_ c' = errorCallback_ c ∧ readCallback_ c' = readCallback_ c ∧
  writeCallback_ c' = writeCallback_ c.

Definition tests : list ((Channel → bool) * (Channel → option ptr)) :=
  [(λ c, has POLLHUP c && negb (has POLLIN c), closeCallback_);
   (has (Z.lor POLLERR POLLNVAL), errorCallback_);
   (has (Z.lor (Z.lor POLLIN POLLPRI) POLLRDHUP), readCallback_);
   (has POLLOUT, writeCallback_)].

Definition selected (ts : list ((Channel → bool) * (Channel → option ptr))) (c : Channel) : list ptr :=
  omap (λ t : (Channel → bool) * (Channel → option ptr), if t.1 c then t.2 c else None) ts.

(** The callbacks due for a channel, in order: close, error, read, write. *)
Definition callbacks_for (c : Channel) : list ptr := selected tests c.

(** The owner a tied channel was given is gone: lock() returns an empty pointer. *)
Definition expired (c : Channel) (s : reactor) : bool :=
  match tie_ c with Some o => bool_decide (o ∉ owners s) | None => true end.

(** A callback that leaves the channel alive with its callbacks and revents as they were. *)
Definition stable (call : ptr → reactor → res reactor) (p : ptr) : Prop :=
  ∀ f s s' c, call f s = Ok s' → heap s !! p = Some c → ∃ c', heap s' !! p = Some c' ∧ agree c c'.

Lemma call_ifs_run call p c0 ts s c :
  stable call p → heap s !! p = Some c → agree c0 c →
  Forall (λ t, ∀ c', agree c0 c' → t.1 c' = t.1 c0 ∧ t.2 c' = t.2 c0) ts →
  mfold (λ t s, call_if call t.1 t.2 p s) ts s = mfold call (selected ts c0) s ∧
  ∀ s', mfold call (selected ts c0) s = Ok s' → ∃ c', heap s' !! p = Some c' ∧ agree c0 c'.
Proof.
  intros Hst. revert s c. induction ts as [|[cond cb] ts IH]; intros s c Hp Ha Hts.
  { cbn. split; [done|]. intros s' [= <-]. by exists c. }
  apply Forall_cons in Hts as [Ht Hts]. cbn -[call_if].
  assert (call_if call cond cb p s =
    if cond c then match cb c with Some f => call f s | None => Ok s end else Ok s) as ->
    by (unfold call_if; by rewrite (get_Some _ _ _ Hp)).
  destruct (Ht c Ha) as [E1 E2]. cbn in E1, E2. rewrite E1, E2. destruct (cond c0), (cb c0) as [f|]; cbn -[call_if]; try by eapply IH.
  destruct (call f s) as [s1|e] eqn:Ec; cbn -[call_if]; [|done].
  destruct (Hst _ _ _ _ Ec Hp) as (c1 & Hc1 & Ha1). eapply IH; eauto.
  unfold agree in *. naive_solver congruence.
Qed.

Lemma tests_agree c0 :
  Forall (λ t, ∀ c', agree c0 c' → t.1 c' = t.1 c0 ∧ t.2 c' = t.2 c0) tests.
Proof.
  unfold tests, has. repeat first [apply Forall_nil_2 | apply Forall_cons_2];
    intros c' (E1 & E2 & E3 & E4 & E5); cbn; by rewrite ?E1, ?E2, ?E3, ?E4, ?E5.
Qed.

Lemma handleEventWithGuard_run call p c s :
  stable call p → heap s !! p = Some c →
  handleEventWithGuard call p s =
    (s1 ← put p (with_eventHandling true) s;
     s2 ← mfold call (callbacks_for c) s1;
     put p (with_eventHandling false) s2).
Proof.
  intros Hst Hp. unfold handleEventWithGuard. rewrite (put_Some _ _ _ _ Hp). cbn [mbind res_bind].
  set (s1 := with_heap _ _). unfold callbacks_for.
  destruct (call_ifs_run call p c tests s1 (with_eventHandling true c)) as [<- _]; try done.
  - unfold s1. cbn. by rewrite lookup_insert_eq.
  - apply tests_agree.
  - unfold tests. cbn -[call_if has put].
    do 4 (destruct (call_if _ _ _ _ _); cbn -[call_if has put]; [|done]). done.
Qed.
End Reactor.

(** ** A reference kernel: the interest list alone *)
#[export] Instance ref_kernel : EpollKernel (gmap Z (Z * ptr)) := {
  epoll_ctl k o fd ev :=
    match o, k !! fd with
    | EPOLL_CTL_ADD, None => (0, <[fd := ev]> k)
    | EPOLL_CTL_MOD, Some _ => (0, <[fd := ev]> k)
    | EPOLL_CTL_DEL, Some _ => (0, delete fd k)
    | _, _ => (-1, k)
    end;
  interest k := k;
  pollable _ fd := 0 ≤ fd
}.

#[export] Instance ref_kernel_laws : EpollLaws (gmap Z (Z * ptr)).
Proof.
  split; cbn.
  - by intros k fd ev _ ->.
  - by intros k fd ev old _ ->.
  - by intros k fd ev old _ ->.
  - done.
Qed.

Definition empty_reactor : reactor (gmap Z (Z * ptr)) (list ptr) :=
  mkReactor ∅ ∅ ∅ kInitEventListSize false [] None ∅ [].

Lemma empty_inv : inv empty_reactor.
Proof. split_and!; by intros. Qed.

(** ** Theorems *)

(** C7: the poller is safe and the kernel follows it. From a state that satisfies the
    invariant, every sequence of channel operations and polls made within the documented
    rules (a descriptor held by one channel at a time, channels removed only when they
    listen to nothing and deleted only after removal) runs without a failed assertion or a
    dangling channel pointer, and afterwards the kernel's interest list holds exactly the
    kAdded channels of the map with their current events. (The code ignores what epoll_ctl
    returns; that its interest list changes as documented is a law of the kernel.) *)
Theorem poller_mirrors_kernel {K U : Type} `{EpollLaws K} (os : list cop) (s : reactor K U)
    (Hinv : inv s) (Ha : admits os s) :
  ∃ s', mfold exec_cop os s = Ok s' ∧ inv s' ∧
        ∀ fd, interest (kern s') !! fd = registered s' fd.
Proof.
  destruct (admits_run os s Hinv Ha) as (s' & He & Hi). exists s'. split_and!; try done. apply Hi.
Qed.

Definition demo_cops : list cop :=
  [CNew 1 5; CEnableReading 1; CNew 2 6; CEnableWriting 2; CPoll [(4, 2%positive); (1, 1%positive)];
   CDisableAll 1; CRemove 1; CDelete 1; CNew 3 5; CEnableReading 3].

(** Solves the side conditions of a concrete run. *)
Ltac run_admits :=
  repeat match goal with
  | |- admits [] _ => exact I
  | |- admits (_ :: _) _ => split; [|let s' := fresh in let E := fresh in
                                     intros s' E; vm_compute in E; injection E as <-]
  | |- pre_cop (CNew _ _) _ => split; [reflexivity|cbn; lia]
  | |- pre_cop (CRemove _) _ => eexists; split_and!; [reflexivity|reflexivity|vm_compute; discriminate|intros; discriminate]
  | |- pre_cop (CDelete _) _ => eexists; split_and!; reflexivity
  | |- pre_cop (CPoll _) _ => idtac
  | |- pre_cop _ _ => eexists; first [reflexivity | split; [reflexivity|vm_compute; done]]
  end.

Lemma poller_mirrors_kernel_witness :
  ∃ s', mfold exec_cop demo_cops empty_reactor = Ok s' ∧ inv s' ∧
        ∀ fd, interest (kern s') !! fd = registered s' fd.
Proof.
  apply (poller_mirrors_kernel demo_cops empty_reactor).
  - exact empty_inv.
  - unfold demo_cops. run_admits.
    split; [vm_compute; discriminate|]. intros ev p Hin.
    rewrite !elem_of_cons in Hin. destruct Hin as [[= -> ->]|[[= -> ->]|Hin]].
    + exists 6. eexists. reflexivity.
    + exists 5. eexists. reflexivity.
    + by apply elem_of_nil in Hin.
Defined.

(** Polling reports exactly the ready channels. Whatever epoll_wait returns for
    registered descriptors, poll appends those channels to the active list in order, each
    with the reported events, touches no other channel, and doubles the event array exactly
    when it was full. *)
Theorem poll_reports_ready {K U : Type} `{EpollLaws K} (ready : list (Z * ptr)) (s : reactor K U)
    (Hinv : inv s) (Hw : wait_ok ready s) (Hnd : NoDup (map snd ready)) :
  ∃ s', poll (Some ready) s = Ok s' ∧ inv s' ∧
    activeChannels_ s' = activeChannels_ s ++ map snd ready ∧
    (∀ ev p, (ev, p) ∈ ready → ∃ c, heap s !! p = Some c ∧
       heap s' !! p = Some (with_revents (i32 ev) c)) ∧
    (∀ p, p ∉ map snd ready → heap s' !! p = heap s !! p) ∧
    events_size s' = (if zlen ready =? events_size s then events_size s * 2 else events_size s).
Proof.
  destruct (poll_spec ready s Hinv Hw) as (s' & He & Hi & Hact & Hh & Hsz & _).
  exists s'. rewrite Hh. split_and!; try done.
  - intros ev p Hin. destruct (ready_live _ _ _ _ Hinv Hw Hin) as (c & Hc & _). exists c.
    split; [done|]. by rewrite (set_ready_in _ _ ev), Hc.
  - intros p. apply set_ready_other.
Qed.

Definition demo_reactor : reactor (gmap Z (Z * ptr)) (list ptr) :=
  match mfold exec_cop [CNew 1 5; CSetRead 1 10; CSetWrite 1 11; CSetClose 1 12; CSetError 1 13;
                        CEnableReading 1; CTie 1 20] empty_reactor with
  | Ok s => s | Err _ => empty_reactor end.

Lemma demo_inv : inv demo_reactor.
Proof.
  destruct (admits_run [CNew 1 5; CSetRead 1 10; CSetWrite 1 11; CSetClose 1 12; CSetError 1 13;
                        CEnableReading 1; CTie 1 20] empty_reactor) as (s' & He & Hi).
  - exact empty_inv.
  - run_admits.
  - unfold demo_reactor. by rewrite He.
Qed.

Lemma poll_reports_ready_witness :
  ∃ s', poll (Some [(17, 1%positive)]) demo_reactor = Ok s' ∧ inv s' ∧
    activeChannels_ s' = [1%positive] ∧
    (∀ ev p, (ev, p) ∈ [(17, 1%positive)] → ∃ c, heap demo_reactor !! p = Some c ∧
       heap s' !! p = Some (with_revents (i32 ev) c)) ∧
    (∀ p, p ∉ [1%positive] → heap s' !! p = heap demo_reactor !! p) ∧
    events_size s' = 16.
Proof.
  apply (poll_reports_ready [(17, 1%positive)] demo_reactor).
  - exact demo_inv.
  - split; [vm_compute; discriminate|]. intros ev p Hin. apply list_elem_of_singleton in Hin as [= -> ->].
    exists 5. eexists. reflexivity.
  - apply NoDup_singleton.
Defined.

(** Callbacks run in a fixed order. An untied channel, or one whose owner is alive, runs
    the callbacks that its reported events call for, in the order close, error, read, write,
    and nothing else; a channel whose tied owner is gone runs none. *)
Theorem handleEvent_order {K U : Type} `{EpollLaws K} (call : ptr → reactor K U → res (reactor K U))
    (p : ptr) (c : Channel) (s : reactor K U)
    (Hst : stable call p) (Hp : heap s !! p = Some c) :
  handleEvent call p s =
    if tied_ c && expired c s then Ok s
    else s1 ← put p (with_eventHandling true) s;
         s2 ← mfold call (callbacks_for c) s1;
         put p (with_eventHandling false) s2.
Proof.
  unfold handleEvent, expired. rewrite (get_Some _ _ _ Hp). cbn [mbind res_bind].
  rewrite <-(handleEventWithGuard_run call p c) by done.
  destruct (tied_ c), (tie_ c) as [o|]; try done. cbn.
  destruct (decide (o ∈ owners s)); [rewrite bool_decide_false|rewrite bool_decide_true]; auto.
Qed.

Definition log_call (f : ptr) (s : reactor (gmap Z (Z * ptr)) (list ptr))
    : res (reactor (gmap Z (Z * ptr)) (list ptr)) :=
  Ok (mkReactor (heap s) (channels_ s) (kern s) (events_size s) (loopEventHandling_ s)
        (activeChannels_ s) (currentActiveChannel_ s) (owners s) (user s ++ [f])).

Lemma log_call_stable p : stable log_call p.
Proof. intros f s s' c [= <-] Hc. by exists c. Qed.

(** The demo channel with all its events reported and its owner alive. *)
Definition ready_channel : Channel :=
  with_revents 63 (tie 20 (setErrorCallback 13 (setCloseCallback 12 (setWriteCallback 11
    (setReadCallback 10 (with_index kAdded (with_addedToLoop true
      (with_events 3 (newChannel 5))))))))).
Definition ready_reactor (owners : gset ptr) : reactor (gmap Z (Z * ptr)) (list ptr) :=
  mkReactor {[1%positive := ready_channel]} {[5 := 1%positive]} {[5 := (3, 1%positive)]} 16
    true [1%positive] (Some 1%positive) owners [].

Lemma handleEvent_order_witness :
  (∃ s', handleEvent log_call 1 (ready_reactor {[20%positive]}) = Ok s' ∧
         user s' = [13; 10; 11]%positive) ∧
  handleEvent log_call 1 (ready_reactor ∅) = Ok (ready_reactor ∅).
Proof.
  rewrite (handleEvent_order log_call 1 ready_channel (ready_reactor {[20%positive]})
             (log_call_stable 1) eq_refl).
  rewrite (handleEvent_order log_call 1 ready_channel (ready_reactor ∅)
             (log_call_stable 1) eq_refl).
  split; [|reflexivity]. eexists. split; vm_compute; reflexivity.
Defined.

(** DisableAll can register a descriptor. On a channel that already listens to nothing
    (its index kDeleted, or kNew with a free descriptor) disableAll sends EPOLL_CTL_ADD: the
    descriptor, absent from the interest list before, is registered there with no events
    (the kernel still reports errors and hang-ups for it). *)
Theorem disableAll_registers {K U : Type} `{EpollLaws K} (p : ptr) (c : Channel) (s : reactor K U)
    (Hinv : inv s) (Hp : heap s !! p = Some c) (Hi : index_ c ≠ kAdded)
    (Hfree : index_ c = kNew → channels_ s !! fd_ c = None) :
  interest (kern s) !! fd_ c = None ∧
  ∃ s', disableAll p s = Ok s' ∧ inv s' ∧ interest (kern s') !! fd_ c = Some (0, p).
Proof.
  split.
  - destruct Hinv as (HA & HB & HC & _). rewrite HC. unfold registered.
    destruct (HB _ _ Hp) as [[Hn _]|[Hm _]]; [by rewrite (Hfree Hn)|].
    rewrite Hm. cbn. rewrite Hp. cbn. by rewrite (proj2 (Z.eqb_neq _ _) Hi).
  - destruct (set_and_update_spec (λ _, kNoneEvent) p c s Hinv Hp Hfree) as (k & He & Hi').
    eexists. split_and!; [exact He|exact Hi'|]. destruct Hi' as (_ & _ & -> & _).
    unfold registered. cbn. rewrite lookup_insert_eq. cbn. rewrite lookup_insert_eq. cbn.
    unfold index_of. by rewrite (proj2 (Z.eqb_neq _ _) Hi).
Qed.

Definition deleted_reactor : reactor (gmap Z (Z * ptr)) (list ptr) :=
  match mfold exec_cop [CNew 1 5; CEnableReading 1; CDisableAll 1] empty_reactor with
  | Ok s => s | Err _ => empty_reactor end.

Lemma disableAll_registers_witness :
  interest (kern deleted_reactor) !! 5 = None ∧
  ∃ s', disableAll 1 deleted_reactor = Ok s' ∧ inv s' ∧
        interest (kern s') !! 5 = Some (0, 1%positive).
Proof.
  apply (disableAll_registers 1 (with_index kDeleted (with_addedToLoop true (newChannel 5)))
           deleted_reactor).
  - destruct (admits_run [CNew 1 5; CEnableReading 1; CDisableAll 1] empty_reactor)
      as (s' & He & Hi).
    + exact empty_inv.
    + run_admits.
    + unfold deleted_reactor. rewrite He. exact Hi.
  - reflexivity.
  - discriminate.
  - discriminate.
Defined.

(** Removal is clean. A channel that listens to nothing and is not waiting to be handled
    in this turn can be removed: its descriptor leaves the map and the interest list, the
    channel may then be deleted, and a new channel may take the descriptor. *)
Theorem remove_then_delete {K U : Type} `{EpollLaws K} (p : ptr) (c : Channel) (s : reactor K U)
    (Hinv : inv s) (Hp : heap s !! p = Some c) (He : events_ c = 0) (Hi : index_ c ≠ kNew)
    (Hh : eventHandling_ c = false) (Hmay : may_remove p s) :
  ∃ s' s'', channel_remove p s = Ok s' ∧ interest (kern s') !! fd_ c = None ∧
    channels_ s' !! fd_ c = None ∧ channel_delete p s' = Ok s'' ∧ inv s'' ∧
    heap s'' !! p = None ∧ (∀ q, q ≠ p → heap s'' !! q = heap s !! q).
Proof.
  destruct (channel_remove_spec p c s) as (s' & Hr & Hinv' & Hk & Hc & Hh' & _); try done.
  destruct (channel_delete_spec p (with_index kNew (with_addedToLoop false c)) s')
    as [Hd Hinv'']; try done; [by rewrite Hh', lookup_insert_eq|].
  exists s'. eexists. split_and!; try done; cbn.
  - by rewrite Hk, lookup_delete_eq.
  - by rewrite Hc, lookup_delete_eq.
  - by rewrite lookup_delete_eq.
  - intros q Hq. by rewrite lookup_delete_ne, Hh', lookup_insert_ne by done.
Qed.

Lemma remove_then_delete_witness :
  ∃ s' s'', channel_remove 1 deleted_reactor = Ok s' ∧ interest (kern s') !! 5 = None ∧
    channels_ s' !! 5 = None ∧ channel_delete 1 s' = Ok s'' ∧ inv s'' ∧
    heap s'' !! 1%positive = None ∧
    (∀ q, q ≠ 1%positive → heap s'' !! q = heap deleted_reactor !! q).
Proof.
  apply (remove_then_delete 1 (with_index kDeleted (with_addedToLoop true (newChannel 5)))
           deleted_reactor).
  - destruct (admits_run [CNew 1 5; CEnableReading 1; CDisableAll 1] empty_reactor)
      as (s' & He & Hi).
    + exact empty_inv.
    + run_admits.
    + unfold deleted_reactor. rewrite He. exact Hi.
  - reflexivity.
  - reflexivity.
  - discriminate.
  - reflexivity.
  - discriminate.
Defined.

End Poll.
