(* ===== verification/Dispatch.v ===== *)
(** * A turn of the loop (net/event_loop.cc, channel.cc, epoller.cc)

    EventLoop::loop() polls and then handles every channel that poll reported, by raw pointer,
    while the callbacks of one channel may change, remove and delete others. The callbacks are
    scripts of channel operations, chosen by the callback's code and the state it finds; each
    keeps the rules of the poller ([Poll.pre_cop]), that is, it runs into none of the
    assertions of Channel, EventLoop and EPollPoller by itself. *)

From S2P Require Import Prelude Poller.

Module Dispatch.

Import Poll.

(** The channel an operation is called on; a callback does not poll. *)
Definition target (o : cop) : option ptr :=
  match o with
  | CNew p _ | CSetRead p _ | CSetWrite p _ | CSetClose p _ | CSetError p _ | CTie p _
  | CEnableReading p | CDisableReading p | CEnableWriting p | CDisableWriting p
  | CDisableAll p | CRemove p | CDelete p => Some p
  | CPoll _ => None
  end.

Section Turn.
Context {K U : Type} `{EpollLaws K}.
Local Abbreviation reactor := (reactor K U).
Context (script : ptr → reactor → list cop).

(** A callback runs its script. *)
Definition call (f : ptr) (s : reactor) : res reactor := mfold exec_cop (script f s) s.

(** A callback is running: that of the current channel, which is marked. *)
Definition in_callback (s : reactor) : Prop :=
  inv s ∧ loopEventHandling_ s = true ∧
  ∃ p c, currentActiveChannel_ s = Some p ∧ heap s !! p = Some c ∧ eventHandling_ c = true.

Definition script_ok : Prop :=
  ∀ f s, in_callback s → admits (script f s) s ∧ Forall (λ o, is_Some (target o)) (script f s).

(** No channel is being handled. *)
Definition quiet (s : reactor) : Prop :=
  ∀ q c, heap s !! q = Some c → eventHandling_ c = false.

(** ** What one operation does to the channels *)

(** Registered channels stay so unless removed, and no operation touches the mark. *)
Definition channel_step (o : cop) (old new : option Channel) : Prop :=
  match o with
  | CNew _ fd => old = None ∧ new = Some (newChannel fd)
  | CDelete _ => new = None ∧ ∃ c, old = Some c ∧ eventHandling_ c = false ∧ index_ c = kNew
  | CRemove _ => ∃ c c', old = Some c ∧ new = Some c' ∧ eventHandling_ c' = eventHandling_ c
  | _ => ∃ c c', old = Some c ∧ new = Some c' ∧ eventHandling_ c' = eventHandling_ c ∧
                 (index_ c ≠ kNew → index_ c' ≠ kNew)
  end.

Definition op_step (o : cop) (p : ptr) (s s' : reactor) : Prop :=
  loopEventHandling_ s' = loopEventHandling_ s ∧ activeChannels_ s' = activeChannels_ s ∧
  currentActiveChannel_ s' = currentActiveChannel_ s ∧
  (∀ q, q ≠ p → heap s' !! q = heap s !! q) ∧ channel_step o (heap s !! p) (heap s' !! p).

Lemma index_of_ne i e : index_of i e ≠ kNew.
Proof. unfold index_of. by destruct (i =? kAdded), (e =? 0). Qed.

Lemma exec_cop_step o p s s' :
  inv s → target o = Some p → pre_cop o s → exec_cop o s = Ok s' → op_step o p s s'.
Proof.
  intros Hinv Ht Hpre.
  assert (∀ f, updatable p s → set_and_update f p s = Ok s' →
    op_step (CEnableReading p) p s s') as Hup.
  { intros f (c & Hc & Hn). destruct (set_and_update_spec f p c s Hinv Hc Hn) as (k & -> & _).
    intros [= <-]. split_and!; try done; cbn.
    - intros q Hq. by rewrite lookup_insert_ne.
    - rewrite Hc, lookup_insert_eq. eexists _, _. split_and!; try done. intros _. apply index_of_ne. }
  assert (∀ f, is_Some (heap s !! p) → (∀ c, eventHandling_ (f c) = eventHandling_ c ∧ index_ (f c) = index_ c) →
    put p f s = Ok s' → op_step (CEnableReading p) p s s') as Hput.
  { intros f [c Hc] Hf. rewrite (put_Some _ _ _ _ Hc). intros [= <-]. split_and!; try done; cbn.
    - intros q Hq. by rewrite lookup_insert_ne.
    - rewrite Hc, lookup_insert_eq. destruct (Hf c) as [E1 E2]. eexists _, _. split_and!; try done. by rewrite E2. }
  destruct o; cbn [target exec_cop pre_cop] in *; simplify_eq;
    try (by apply Hup); try (by apply Hput; [done|by intros []]).
  - destruct Hpre as [Hn _]. intros [= <-]. split_and!; try done; cbn.
    + intros q Hq. by rewrite lookup_insert_ne.
    + by rewrite lookup_insert_eq.
  - destruct Hpre as (c & Hc & He & Hi & Hm). pose proof Hinv as (HA & HB & _).
    destruct (HB _ _ Hc) as [[? _]|[Hmap _]]; [done|].
    destruct (inv_index _ _ _ Hinv Hc) as [?|Hi']; [done|].
    rewrite (channel_remove_run p c s) by done. intros [= <-]. split_and!; try done; cbn.
    + intros q Hq. by rewrite lookup_insert_ne.
    + rewrite Hc, lookup_insert_eq. by eexists _, _.
  - destruct Hpre as (c & Hc & He & Hi). destruct (channel_delete_spec p c s) as [-> _]; try done.
    intros [= <-]. split_and!; try done; cbn.
    + intros q Hq. by rewrite lookup_delete_ne.
    + rewrite lookup_delete_eq. split; [done|]. by exists c.
Qed.

(** ** The invariant of the for loop

    [rest] are the channels still to be handled: alive, registered and still listed, which is
    what the assertion of removeChannel protects; [cur] is marked while its callbacks run. *)
Record turn (rest : list ptr) (cur : option ptr) (s : reactor) : Prop := mkTurn {
  turn_inv : inv s;
  turn_flag : loopEventHandling_ s = true;
  turn_rest : ∀ q, q ∈ rest →
    (q ∈ activeChannels_ s) ∧ ∃ c, heap s !! q = Some c ∧ index_ c ≠ kNew;
  turn_marked : ∀ q c, heap s !! q = Some c → (eventHandling_ c = true ↔ cur = Some q);
  turn_cur : ∀ p, cur = Some p → (p ∉ rest) ∧ is_Some (heap s !! p) ∧ currentActiveChannel_ s = Some p
}.

Lemma turn_in_callback rest p s : turn rest (Some p) s → in_callback s.
Proof.
  intros [Hi Hf _ Hm Hc]. destruct (Hc p eq_refl) as (_ & [c Hp] & Hcur).
  split_and!; try done. exists p, c. split_and!; try done. by apply (Hm _ _ Hp).
Qed.

(** One operation of a callback. *)
Lemma turn_op rest p o q s s' :
  turn rest (Some p) s → target o = Some q → pre_cop o s → exec_cop o s = Ok s' → inv s' →
  turn rest (Some p) s'.
Proof.
  intros [Hi Hf Hr Hm Hc] Ht Hpre He Hi'. destruct (Hc p eq_refl) as (Hnin & [cp Hp] & Hcur).
  destruct (exec_cop_step o q s s' Hi Ht Hpre He) as (E1 & E2 & E3 & Hother & Hq).
  assert (eventHandling_ cp = true) as Hmp by (by apply (Hm _ _ Hp)).
  split; try done; try congruence.
  - intros r Hin. destruct (Hr r Hin) as (Hact & c & Hc' & Hx). rewrite E2. split; [done|].
    destruct (decide (r = q)) as [->|Hne]; [|exists c; by rewrite Hother].
    destruct o; cbn in Ht, Hq, Hpre; simplify_eq;
      try (destruct Hq as (c0 & c1 & Ho & Hn & _ & Hk); rewrite Hc' in Ho; injection Ho as <-;
           exists c1; split; [done|by apply Hk]).
    + destruct Hq. congruence.
    + destruct Hpre as (c0 & Hc0 & _ & _ & Hmay). destruct (Hmay Hf) as [Hx'|Hx']; [|done].
      rewrite Hcur in Hx'. by injection Hx' as ->.
    + destruct Hq as (_ & c0 & Ho & _ & Hk). congruence.
  - intros r c Hrc. destruct (decide (r = q)) as [->|Hne]; [|rewrite Hother in Hrc by done; by apply Hm].
    destruct o; cbn in Ht, Hq; simplify_eq; destruct Hq as (Ho & Hq);
      try (destruct Hq as (c1 & Ho' & Hn & Hmk & _); rewrite Hn in Hrc; injection Hrc as <-;
           rewrite Hmk; by apply Hm).
    + rewrite Hq in Hrc. injection Hrc as <-. cbn. split; [done|]. intros [= <-]. congruence.
    + destruct Hq as (c1 & Ho' & Hn & Hmk). rewrite Hn in Hrc. injection Hrc as <-. rewrite Hmk. by apply Hm.
    + congruence.
  - intros r [= <-]. split_and!; try done; [|congruence].
    destruct (decide (p = q)) as [->|Hne]; [|rewrite Hother by done; by eexists].
    destruct o; cbn in Ht, Hq; simplify_eq; destruct Hq as (Ho & Hq);
      try (destruct Hq as (c1 & _ & Hn & _); rewrite Hn; by eexists).
    + congruence.
    + destruct Hq as (c1 & Hc1 & Hn & _). congruence.
Qed.

(** A callback, and the callbacks of a channel. *)
Context (Hscript : script_ok).

Lemma turn_ops rest p os s :
  turn rest (Some p) s → admits os s → Forall (λ o, is_Some (target o)) os →
  ∃ s', mfold exec_cop os s = Ok s' ∧ turn rest (Some p) s'.
Proof.
  revert s. induction os as [|o os IH]; intros s Ht Ha Ho; cbn in *; [by exists s|].
  destruct Ha as [Hpre Ha]. apply Forall_cons in Ho as [[q Hq] Ho].
  destruct (exec_cop_spec o s (turn_inv _ _ _ Ht) Hpre) as (s1 & He & Hi1). rewrite He. cbn.
  apply IH; auto. by eapply turn_op.
Qed.

Lemma turn_call rest p f s :
  turn rest (Some p) s → ∃ s', call f s = Ok s' ∧ turn rest (Some p) s'.
Proof.
  intros Ht. destruct (Hscript f s (turn_in_callback _ _ _ Ht)) as [Ha Ho]. by eapply turn_ops.
Qed.

Lemma turn_call_if cond cb rest p s :
  turn rest (Some p) s → ∃ s', call_if call cond cb p s = Ok s' ∧ turn rest (Some p) s'.
Proof.
  intros Ht. destruct (turn_cur _ _ _ Ht p eq_refl) as (_ & [c Hc] & _). unfold call_if.
  rewrite (get_Some _ _ _ Hc). cbn. destruct (cond c); [|by exists s].
  destruct (cb c); [by apply turn_call|by exists s].
Qed.

(** The mark is set for the length of the callbacks. *)
Lemma turn_mark rest p s :
  turn (p :: rest) None s → p ∉ rest → currentActiveChannel_ s = Some p →
  ∃ s', put p (with_eventHandling true) s = Ok s' ∧ turn rest (Some p) s'.
Proof.
  intros [Hi Hf Hr Hm Hc] Hnin Hcur. destruct (Hr p) as (_ & c & Hp & Hx); [left|].
  rewrite (put_Some _ _ _ _ Hp). eexists. split; [done|]. split; cbn; try done.
  - by apply (inv_same s p c).
  - intros q Hq. destruct (Hr q) as (Ha & cq & Hcq & Hxq); [by right|]. split; [done|].
    exists cq. rewrite lookup_insert_ne; [done|]. by intros ->.
  - intros q cq. rewrite lookup_insert. case_decide as E; [subst; intros [= <-]; done|].
    intros Hq. rewrite (Hm _ _ Hq). split; [done|]. congruence.
  - intros q [= <-]. rewrite lookup_insert_eq. split_and!; [done|by eexists|done].
Qed.

Lemma turn_unmark rest p s :
  turn rest (Some p) s → ∃ s', put p (with_eventHandling false) s = Ok s' ∧ turn rest None s'.
Proof.
  intros [Hi Hf Hr Hm Hc]. destruct (Hc p eq_refl) as (Hnin & [c Hp] & Hcur).
  rewrite (put_Some _ _ _ _ Hp). eexists. split; [done|]. split; cbn; try done.
  - by apply (inv_same s p c).
  - intros q Hq. destruct (Hr q Hq) as (Ha & cq & Hcq & Hxq). split; [done|].
    exists cq. rewrite lookup_insert_ne; [done|]. by intros ->.
  - intros q cq. rewrite lookup_insert. case_decide as E; [subst; intros [= <-]; done|].
    intros Hq. rewrite (Hm _ _ Hq). split; [congruence|done].
Qed.

Lemma turn_handle rest p s :
  turn (p :: rest) None s → p ∉ rest → currentActiveChannel_ s = Some p →
  ∃ s', handleEvent call p s = Ok s' ∧ turn rest None s'.
Proof.
  intros Ht Hnin Hcur.
  assert (∃ s', handleEventWithGuard call p s = Ok s' ∧ turn rest None s') as Hg.
  { unfold handleEventWithGuard. destruct (turn_mark rest p s Ht Hnin Hcur) as (s1 & -> & H1). cbn [mbind res_bind].
    do 4 (match goal with |- context [call_if call ?c ?cb p ?st] =>
      let s' := fresh "s" in let Hs := fresh in
      destruct (turn_call_if c cb rest p st) as (s' & Hs & ?); [done|rewrite Hs; cbn [mbind res_bind]] end).
    by apply turn_unmark. }
  assert (turn rest None s) as Hskip.
  { destruct Ht as [Hi Hf Hr Hm Hc]. split; try done. intros q Hq. apply Hr. by right. }
  destruct (turn_rest _ _ _ Ht p) as (_ & c & Hp & _); [left|]. unfold handleEvent.
  rewrite (get_Some _ _ _ Hp). cbn [mbind res_bind].
  destruct (tied_ c); [|done]. destruct (tie_ c) as [o|]; [|by exists s].
  destruct (decide _); [done|by exists s].
Qed.

Lemma turn_loop rest s :
  turn rest None s → NoDup rest →
  ∃ s', mfold (λ p s, handleEvent call p (with_current true (Some p) s)) rest s = Ok s' ∧
        turn [] None s'.
Proof.
  revert s. induction rest as [|p rest IH]; intros s Ht Hnd; cbn; [by exists s|].
  apply NoDup_cons in Hnd as [Hnin Hnd].
  destruct (turn_handle rest p (with_current true (Some p) s)) as (s1 & -> & H1); try done.
  { by destruct Ht. }
  by apply IH.
Qed.

Lemma polled_turn ready s s' :
  inv s → quiet s → wait_ok ready s → poll (Some ready) (with_active [] s) = Ok s' → inv s' →
  activeChannels_ s' = map snd ready → heap s' = set_ready ready (heap s) →
  channels_ s' = channels_ s →
  turn (map snd ready) None (with_current true (currentActiveChannel_ s') s').
Proof.
  intros Hinv Hq Hw Hp Hi Ha Hh Hch.
  assert (∀ q c, heap s' !! q = Some c → ∃ c0, heap s !! q = Some c0 ∧ index_ c = index_ c0 ∧
    eventHandling_ c = eventHandling_ c0) as Hback.
  { rewrite Hh. clear. intros q. generalize (heap s). induction ready as [|[ev r] ready IH]; intros h c Hc; [by exists c|].
    destruct (IH (alter (with_revents (i32 ev)) r h) c Hc) as (c0 & Hc0 & E1 & E2).
    rewrite lookup_alter in Hc0. case_decide; [subst r|by exists c0].
    destruct (h !! q) as [c1|]; [|done]. injection Hc0 as <-. by exists c1. }
  split; try done.
  - intros q Hin. cbn. rewrite Ha. split; [done|].
    apply list_elem_of_fmap in Hin as ([ev r] & -> & Hin).
    destruct (ready_live ready s ev r Hinv Hw Hin) as (c0 & Hc0 & Hm0).
    destruct Hi as (HA & _). rewrite <-Hch in Hm0. destruct (HA _ _ Hm0) as (c & Hc & _ & Hx).
    exists c. split; [done|]. by destruct Hx as [->| ->].
  - intros q c Hc. cbn in Hc. destruct (Hback q c Hc) as (c0 & Hc0 & _ & ->). split; [|done].
    by rewrite (Hq _ _ Hc0).
Qed.

End Turn.

(** C8: a turn of the loop touches no dead channel. Whatever epoll_wait reports (each
    descriptor at most once), and whatever channel operations the callbacks make, on their own
    channel or on others, as long as each keeps the poller's rules by itself, the loop handles
    all the reported channels: no assertion fails and no pointer of the active list dangles
    when its turn comes. Afterwards the kernel's interest list still mirrors the channels and
    none is marked as being handled. *)
Theorem dispatch_turn_safe {K U : Type} `{EpollLaws K} (script : ptr → reactor K U → list cop)
    (ready : list (Z * ptr)) (s : reactor K U) (Hscript : script_ok script) (Hinv : inv s)
    (Hquiet : quiet s) (Hw : wait_ok ready s) (Hnd : NoDup (map snd ready)) :
  ∃ s', loop_dispatch (call script) (Some ready) s = Ok s' ∧ inv s' ∧ quiet s' ∧
        loopEventHandling_ s' = false ∧ currentActiveChannel_ s' = None ∧
        ∀ fd, interest (kern s') !! fd = registered s' fd.
Proof.
  destruct (poll_spec ready (with_active [] s)) as (s1 & Hp & Hi1 & Ha & Hh & _ & Hch & _); [done|done|].
  unfold loop_dispatch. rewrite Hp. cbn [mbind res_bind].
  assert (activeChannels_ s1 = map snd ready) as Ha' by (by rewrite Ha).
  destruct (turn_loop script Hscript (map snd ready) (with_current true (currentActiveChannel_ s1) s1))
    as (s2 & He & Ht2); [by eapply (polled_turn ready s)|done|].
  rewrite Ha', He. cbn [mbind res_bind]. eexists. split; [done|].
  destruct Ht2 as [Hi2 _ _ Hm _]. split_and!; try done.
  - intros q c Hc. cbn in Hc. pose proof (Hm q c Hc) as Hx. destruct (eventHandling_ c); [|done].
    destruct Hx as [Hx _]. by specialize (Hx eq_refl).
  - intros fd. by destruct Hi2 as (_ & _ & Hmir & _).
Qed.

(** A callback that takes its own channel out of the loop, unless it is out already. *)
Definition leave_script (f : ptr) (s : reactor (gmap Z (Z * ptr)) (list ptr)) : list cop :=
  match currentActiveChannel_ s with
  | Some p => match heap s !! p with
              | Some c => if decide (index_ c = kAdded) then [CDisableAll p; CRemove p] else []
              | None => []
              end
  | None => []
  end.

Lemma leave_script_ok : script_ok leave_script.
Proof.
  intros f s (Hinv & Hf & p & c & Hcur & Hp & Hh). unfold leave_script. rewrite Hcur, Hp.
  case_decide as E; [|done]. split; [|by repeat constructor; eexists].
  destruct (set_and_update_spec (λ _, kNoneEvent) p c s Hinv Hp) as (k & He & _); [by rewrite E|].
  split; [exists c; by rewrite E|]. intros s' Hs'. cbn in Hs'. unfold disableAll in Hs'. rewrite He in Hs'.
  injection Hs' as <-. split; [|done]. eexists. cbn. rewrite lookup_insert_eq. split_and!; try done.
  - apply index_of_ne.
  - intros _. by left.
Qed.

(** Two channels, both reported; each leaves the loop in its callback. *)
Definition two_reactor : reactor (gmap Z (Z * ptr)) (list ptr) :=
  match mfold exec_cop [CNew 1 5; CSetRead 1 10; CEnableReading 1;
                        CNew 2 6; CSetRead 2 10; CEnableReading 2] empty_reactor with
  | Ok s => s | Err _ => empty_reactor end.

Lemma dispatch_turn_safe_witness :
  ∃ s', loop_dispatch (call leave_script) (Some [(1, 2%positive); (1, 1%positive)]) two_reactor = Ok s' ∧
        inv s' ∧ quiet s' ∧ loopEventHandling_ s' = false ∧ currentActiveChannel_ s' = None ∧
        ∀ fd, interest (kern s') !! fd = registered s' fd.
Proof.
  apply (dispatch_turn_safe leave_script [(1, 2%positive); (1, 1%positive)] two_reactor).
  - exact leave_script_ok.
  - destruct (admits_run [CNew 1 5; CSetRead 1 10; CEnableReading 1;
                          CNew 2 6; CSetRead 2 10; CEnableReading 2] empty_reactor) as (s' & He & Hi).
    + exact empty_inv.
    + run_admits.
    + unfold two_reactor. by rewrite He.
  - intros q c Hc. vm_compute in Hc. destruct q as [[]|[]|]; try discriminate; by injection Hc as <-.
  - split; [vm_compute; discriminate|]. intros ev p Hin.
    rewrite !elem_of_cons in Hin. destruct Hin as [[= -> ->]|[[= -> ->]|Hin]].
    + exists 6. eexists. reflexivity.
    + exists 5. eexists. reflexivity.
    + by apply elem_of_nil in Hin.
  - apply (bool_decide_unpack _). vm_compute. exact I.
Defined.

End Dispatch.
