(* ===== verification/Atomic.v ===== *)
(** * AtomicIntegerT (base/atomic.h)

    One atomic integer of [w] bits. Each member function is one builtin, so it is one atomic
    step on the value; the builtins wrap around, while the addition of [addAndGet] is
    ordinary signed arithmetic and overflows are undefined. *)

From S2P Require Import Prelude.

Module Atomic.
Section W.
Context (w : Z).

Definition AtomicIntegerT := Z.
Definition new : AtomicIntegerT := 0.

(** __sync_val_compare_and_swap, __sync_fetch_and_add, __sync_lock_test_and_set *)
Definition val_compare_and_swap (old new v : Z) : Z * Z := (v, if v =? old then new else v).
Definition fetch_and_add (x v : Z) : Z * Z := (v, swrap w (v + x)).
Definition lock_test_and_set (n v : Z) : Z * Z := (v, n).

(** Each function returns its result and the new value. *)
Definition get (v : AtomicIntegerT) : Z * Z := val_compare_and_swap 0 0 v.
Definition getAndAdd (x : Z) (v : AtomicIntegerT) : Z * Z := fetch_and_add x v.
Definition addAndGet (x : Z) (v : AtomicIntegerT) : res (Z * Z) :=
  let '(r, v') := getAndAdd x v in
  r' ← checked w [] (r + x); Ok (r', v').
Definition incrementAndGet (v : AtomicIntegerT) : res (Z * Z) := addAndGet 1 v.
Definition decrementAndGet (v : AtomicIntegerT) : res (Z * Z) := addAndGet (-1) v.
Definition add (x : Z) (v : AtomicIntegerT) : Z := snd (getAndAdd x v).
Definition increment (v : AtomicIntegerT) : res Z := '(_, v') ← incrementAndGet v; Ok v'.
Definition decrement (v : AtomicIntegerT) : res Z := '(_, v') ← decrementAndGet v; Ok v'.
Definition getAndSet (newValue : Z) (v : AtomicIntegerT) : Z * Z := lock_test_and_set newValue v.

Context (Hw : 0 < w).

Lemma get_reads v : get v = (v, v).
Proof. unfold get, val_compare_and_swap. by destruct (Z.eqb_spec v 0) as [->|]. Qed.

Lemma addAndGet_spec x v :
  in_s w (v + x) → addAndGet x v = Ok (v + x, v + x).
Proof.
  intros Hv. unfold addAndGet, getAndAdd, fetch_and_add. cbn.
  rewrite checked_ok by (by repeat constructor; apply Hv). cbn. by rewrite swrap_small.
Qed.
End W.

(** Tickets: threads that draw numbers with incrementAndGet, in any interleaving, get
    distinct consecutive numbers. *)
Fixpoint draw (w : Z) (n : nat) (v : Z) : res (list Z * Z) :=
  match n with
  | O => Ok ([], v)
  | S n' => '(r, v') ← incrementAndGet w v; '(rs, v'') ← draw w n' v'; Ok (r :: rs, v'')
  end.

Lemma draw_spec w n v :
  0 < w → in_s w v → v + Z.of_nat n < 2 ^ (w - 1) →
  draw w n v = Ok (seqZ (v + 1) (Z.of_nat n), v + Z.of_nat n).
Proof.
  intros Hw. revert v. induction n as [|n IH]; intros v Hv Hn.
  { cbn. f_equal. f_equal. lia. }
  cbn [draw]. unfold incrementAndGet. unfold in_s in Hv.
  rewrite addAndGet_spec by (unfold in_s; lia). cbn [mbind res_bind].
  rewrite IH by (unfold in_s; lia). cbn [mbind res_bind].
  rewrite Nat2Z.inj_succ, (seqZ_cons (v + 1)) by lia. rewrite Z.pred_succ.
  change (Z.succ (v + 1)) with (v + 1 + 1). do 2 f_equal. lia.
Qed.
End Atomic.
