(* ===== verification/WeakCallback.v ===== *)
(** * WeakCallback (base/weak_callback.h)

    A callback that holds its object by a weak_ptr: it locks the weak_ptr, and calls its
    function only when the object is still there, holding a shared_ptr for the length of the
    call. The state counts references: [held] are the shared_ptrs of the rest of the program,
    [running] those of the calls under way, [objs] the objects not yet destroyed. An object is
    destroyed by whoever lets go of its last reference. *)

From stdpp Require Import gmultiset.
From S2P Require Import Prelude.

Module Weak.

Abbreviation ptr := positive.

Record state := mkState {
  objs : gset ptr;
  held : gmultiset ptr;
  running : gmultiset ptr;
  called : list ptr;       (* the objects function_ was called on *)
  destroyed : list ptr     (* the objects destroyed *)
}.

Definition use_count (p : ptr) (s : state) : nat := multiplicity p (held s ⊎ running s).

(** The count has been decremented: the last reference destroys the object. *)
Definition reap (p : ptr) (s : state) : state :=
  if decide (use_count p s = 0%nat)
  then mkState (objs s ∖ {[p]}) (held s) (running s) (called s) (destroyed s ++ [p])
  else s.

Definition with_held h s := mkState (objs s) h (running s) (called s) (destroyed s).
Definition with_running r s := mkState (objs s) (held s) r (called s) (destroyed s).

(** weak_ptr::lock *)
Definition lock (p : ptr) (s : state) : bool * state :=
  if decide (use_count p s = 0%nat) then (false, s)
  else (true, with_running (running s ⊎ {[+ p +]}) s).
(** ~shared_ptr of the pointer that lock returned *)
Definition unlock (p : ptr) (s : state) : res state :=
  if decide (p ∈ running s) then Ok (reap p (with_running (running s ∖ {[+ p +]}) s))
  else Err UseAfterFree.

(** What the rest of the program, function_ included, does: copy a shared_ptr it has, let go
    of one, use an object through a pointer that a call holds. *)
Inductive act :=
  | Copy (p : ptr)
  | Drop (p : ptr)
  | Use (p : ptr).

Definition do_act (a : act) (s : state) : res state :=
  match a with
  | Copy p => if decide (p ∈ held s) then Ok (with_held (held s ⊎ {[+ p +]}) s) else Err UseAfterFree
  | Drop p => if decide (p ∈ held s) then Ok (reap p (with_held (held s ∖ {[+ p +]}) s))
              else Err UseAfterFree
  | Use p => if decide (p ∈ objs s) then Ok s else Err UseAfterFree
  end.

(** ** The class: the object, and the function as what it does given its arguments *)
Record WeakCallback (A : Type) := mkWeakCallback {
  object_ : ptr;
  function_ : ptr → A → list act
}.
Arguments mkWeakCallback {A}. Arguments object_ {A}. Arguments function_ {A}.

(** makeWeakCallback(shared_ptr, member function) *)
Definition makeWeakCallback {A} (object : ptr) (f : ptr → A → list act) : WeakCallback A :=
  mkWeakCallback object f.

Definition log_call (p : ptr) (s : state) : state :=
  mkState (objs s) (held s) (running s) (called s ++ [p]) (destroyed s).

(** operator() *)
Definition call {A} (w : WeakCallback A) (args : A) (s : state) : res state :=
  let '(ok, s) := lock (object_ w) s in
  if ok then
    s ← mfold do_act (function_ w (object_ w) args) (log_call (object_ w) s);
    unlock (object_ w) s
  else Ok s.

(** ** The invariant: the objects are those with a reference *)
Record inv (s : state) : Prop := mkInv {
  inv_objs : ∀ p, p ∈ objs s ↔ p ∈ held s ⊎ running s;
  inv_destroyed : NoDup (destroyed s);
  inv_gone : ∀ p, p ∈ destroyed s → p ∉ objs s
}.

(** A program has the references it copies and drops, and uses objects that a call of it
    holds; other calls and threads may act between. *)
Definition may (a : act) (s : state) : Prop :=
  match a with Copy p | Drop p => p ∈ held s | Use p => p ∈ running s end.

Lemma use_count_0 p s : use_count p s = 0%nat ↔ p ∉ held s ⊎ running s.
Proof. unfold use_count. rewrite elem_of_multiplicity. lia. Qed.

(** After a reference to [p] is gone. *)
Lemma reap_inv p s :
  (∀ q, q ≠ p → q ∈ objs s ↔ q ∈ held s ⊎ running s) → p ∈ objs s →
  NoDup (destroyed s) → (∀ q, q ∈ destroyed s → q ∉ objs s) → inv (reap p s).
Proof.
  intros Ho Hp Hnd Hg. unfold reap. case_decide as E; [apply use_count_0 in E|rewrite use_count_0 in E].
  - split; cbn.
    + intros q. destruct (decide (q = p)) as [->|Hq]; [set_solver|]. rewrite <-Ho by done. set_solver.
    + apply NoDup_app. split_and!; [done| |apply NoDup_singleton]. intros q Hq ->%list_elem_of_singleton.
      by apply (Hg p).
    + intros q Hq. apply elem_of_app in Hq as [Hq|Hq%list_elem_of_singleton]; [|subst; set_solver].
      apply Hg in Hq. set_solver.
  - split; try done. intros q. destruct (decide (q = p)) as [->|Hq]; [|by apply Ho].
    split; [|done]. intros _. destruct (decide (p ∈ held s ⊎ running s)); [done|tauto].
Qed.

Lemma reap_fields p s :
  held (reap p s) = held s ∧ running (reap p s) = running s ∧ called (reap p s) = called s ∧
  destroyed (reap p s) = destroyed s ++ (if decide (use_count p s = 0%nat) then [p] else []).
Proof. unfold reap. case_decide; split_and!; try done. by rewrite app_nil_r. Qed.

Lemma do_act_spec a s : inv s → may a s →
  ∃ s', do_act a s = Ok s' ∧ inv s' ∧ running s' = running s ∧ called s' = called s.
Proof.
  intros [Ho Hn Hg] Hm. destruct a as [p|p|p]; cbn in *.
  - rewrite decide_True by done. eexists. split; [done|]. split; [|done]. split; try done. cbn.
    intros q. rewrite Ho. multiset_solver.
  - rewrite decide_True by done. eexists. split; [done|]. destruct (reap_fields p (with_held (held s ∖ {[+ p +]}) s)) as (_ & -> & -> & _).
    split; [|done]. apply reap_inv; cbn; try done.
    + intros q Hq. rewrite Ho. multiset_solver.
    + apply Ho. multiset_solver.
  - rewrite decide_True by (apply Ho; multiset_solver). by exists s.
Qed.

Lemma lock_spec p s : inv s →
  if decide (p ∈ objs s)
  then lock p s = (true, with_running (running s ⊎ {[+ p +]}) s) ∧
       inv (with_running (running s ⊎ {[+ p +]}) s)
  else lock p s = (false, s).
Proof.
  intros [Ho Hn Hg]. unfold lock. case_decide as E; case_decide as E'; try done; rewrite use_count_0 in E'.
  - exfalso. by apply E', Ho.
  - split; [done|]. split; try done. cbn. intros q. rewrite Ho. apply Ho in E. multiset_solver.
  - exfalso. apply E, Ho. destruct (decide (p ∈ held s ⊎ running s)); [done|tauto].
Qed.

Lemma unlock_spec p s : inv s → p ∈ running s →
  ∃ s', unlock p s = Ok s' ∧ inv s' ∧ held s' = held s ∧ called s' = called s ∧
        running s' = running s ∖ {[+ p +]} ∧
        destroyed s' = destroyed s ++
          (if decide (p ∈ held s ⊎ running s ∖ {[+ p +]}) then [] else [p]).
Proof.
  intros [Ho Hn Hg] Hp. unfold unlock. rewrite decide_True by done. eexists. split; [done|].
  destruct (reap_fields p (with_running (running s ∖ {[+ p +]}) s)) as (-> & -> & -> & ->).
  split.
  - apply reap_inv; cbn; try done.
    + intros q Hq. rewrite Ho. multiset_solver.
    + apply Ho. multiset_solver.
  - split_and!; try done. f_equal. case_decide as E; rewrite use_count_0 in E; cbn in E; case_decide; try done.
Qed.

(** A run of the rest of the program within its rules. *)
Fixpoint may_all (l : list act) (s : state) : Prop :=
  match l with [] => True | a :: l' => may a s ∧ ∀ s', do_act a s = Ok s' → may_all l' s' end.

Lemma do_acts_spec l s : inv s → may_all l s →
  ∃ s', mfold do_act l s = Ok s' ∧ inv s' ∧ running s' = running s ∧ called s' = called s.
Proof.
  revert s. induction l as [|a l IH]; intros s Hs Hl; cbn in *; [by exists s|].
  destruct Hl as [Hm Hl]. destruct (do_act_spec a s Hs Hm) as (s1 & He & Hs1 & Hr & Hc). rewrite He. cbn.
  destruct (IH s1 Hs1 (Hl _ He)) as (s2 & He2 & Hs2 & Hr2 & Hc2). exists s2. split_and!; try done; congruence.
Qed.

(** ** Any number of calls, in any threads *)
Definition begin_call (p : ptr) (s : state) : state :=
  let '(ok, s) := lock p s in if ok then log_call p s else s.

Inductive step (s : state) : state → Prop :=
  | StepAct a s' : may a s → do_act a s = Ok s' → step s s'
  | StepCall p : step s (begin_call p s)
  | StepReturn p s' : p ∈ running s → unlock p s = Ok s' → step s s'.

Definition start (p : ptr) : state := mkState {[p]} {[+ p +]} ∅ [] [].

Lemma weak_start_inv p : inv (start p).
Proof.
  split; [|constructor|intros q Hq; by apply elem_of_nil in Hq]. intros q.
  change (q ∈ ({[p]} : gset ptr) ↔ q ∈ ({[+ p +]} ⊎ ∅ : gmultiset ptr)).
  rewrite elem_of_singleton. multiset_solver.
Qed.

Lemma weak_step_inv s s' : inv s → step s s' → inv s'.
Proof.
  intros Hs [a s1 Hm He|p|p s1 Hp He].
  - destruct (do_act_spec a s Hs Hm) as (s2 & He2 & Hi & _). congruence.
  - unfold begin_call. pose proof (lock_spec p s Hs) as Hl.
    case_decide; [destruct Hl as [-> [? ? ?]]; by split|by rewrite Hl].
  - destruct (unlock_spec p s Hs Hp) as (s2 & He2 & Hi & _). congruence.
Qed.

(** ** Theorems *)

(** C33: a weak callback never touches a dead object. If the object is gone, calling does
    nothing at all, whatever the function would do. Otherwise the function is called once, on that object, and may do anything
    with the references of the program, letting go of all of them included: the object stays
    until the function has returned, and is destroyed then, once, if no reference to it is
    left. *)
Theorem weak_callback_call {A : Type} (w : WeakCallback A) (args : A) (s : state) (Hs : inv s)
    (Hf : object_ w ∈ objs s → may_all (function_ w (object_ w) args) (log_call (object_ w) (lock (object_ w) s).2)) :
  ∃ s', call w args s = Ok s' ∧ inv s' ∧ running s' = running s ∧
    if decide (object_ w ∈ objs s)
    then called s' = called s ++ [object_ w] ∧
         ∃ s1, mfold do_act (function_ w (object_ w) args) (log_call (object_ w) (lock (object_ w) s).2) = Ok s1 ∧
               object_ w ∈ objs s1 ∧ held s' = held s1 ∧
               destroyed s' = destroyed s1 ++
                 (if decide (object_ w ∈ held s' ⊎ running s') then [] else [object_ w])
    else s' = s.
Proof.
  pose proof (lock_spec (object_ w) s Hs) as Hl. unfold call. set (p := object_ w) in *.
  case_decide as E; [|rewrite Hl; by exists s]. destruct Hl as [Hl Hi]. rewrite Hl in *. cbn [snd] in *.
  destruct (do_acts_spec _ (log_call p (with_running (running s ⊎ {[+ p +]}) s)) ltac:(by destruct Hi; split) (Hf E))
    as (s1 & He & Hs1 & Hr & Hc).
  rewrite He. cbn [mbind res_bind]. cbn in Hr, Hc.
  destruct (unlock_spec p s1 Hs1) as (s2 & Hu & Hs2 & Hh2 & Hc2 & Hr2 & Hd2); [rewrite Hr; multiset_solver|].
  assert (running s2 = running s) as Hrun by (rewrite Hr2, Hr; multiset_solver).
  exists s2. split_and!; try done; [congruence|]. exists s1. split_and!; try done.
  - apply (inv_objs _ Hs1). rewrite Hr. multiset_solver.
  - by rewrite Hd2, Hh2, Hr2.
Qed.

(** A callback that uses its object, lets go of the last reference to it and uses it again:
    called twice, the second time on an object that is gone. *)
Definition demo_callback : WeakCallback () := makeWeakCallback 1%positive (λ p _, [Use p; Drop p; Use p]).

Lemma weak_callback_call_witness :
  ∃ s1 s2, call demo_callback () (start 1) = Ok s1 ∧ called s1 = [1%positive] ∧
           destroyed s1 = [1%positive] ∧ call demo_callback () s1 = Ok s2 ∧ s2 = s1.
Proof.
  destruct (weak_callback_call demo_callback () (start 1) (weak_start_inv 1)) as (s1 & Hc & Hi & _ & _).
  - intros _. split; [vm_compute; done|]. intros s' E. vm_compute in E. injection E as <-.
    split; [vm_compute; done|]. intros s' E. vm_compute in E. injection E as <-. split; [|done]. vm_compute. done.
  - vm_compute in Hc. injection Hc as <-.
    destruct (weak_callback_call demo_callback () _ Hi) as (s2 & Hc2 & _ & _ & H2).
    + intros Hx. exfalso. revert Hx. by vm_compute.
    + eexists _, s2. split; [vm_compute; reflexivity|]. split; [done|]. split; [done|]. split; [exact Hc2|].
      vm_compute in Hc2. by injection Hc2 as <-.
Defined.

(** Calls in any threads. However calls of weak callbacks and the copying and letting go of
    references interleave, a call under way finds its object alive, no object is destroyed
    twice or while it is referenced, an object once destroyed is not called again, and when all
    references are gone all objects are. *)
Theorem weak_callbacks_interleaved (p : ptr) (s : state) (Hr : rtc step (start p) s) :
  (∀ q, q ∈ running s → do_act (Use q) s = Ok s) ∧
  NoDup (destroyed s) ∧ (∀ q, q ∈ destroyed s → (q ∉ held s ⊎ running s) ∧ begin_call q s = s) ∧
  (held s = ∅ → running s = ∅ → objs s = ∅).
Proof.
  assert (inv s) as Hs by (eapply rtc_invariant; [exact weak_step_inv|apply weak_start_inv|done]).
  pose proof Hs as [Ho Hn Hg]. split_and!.
  - intros q Hq. cbn. rewrite decide_True; [done|]. apply Ho. multiset_solver.
  - done.
  - intros q Hq%Hg. split; [by rewrite <-Ho|]. unfold begin_call. pose proof (lock_spec q s Hs) as Hl.
    rewrite decide_False in Hl by done. by rewrite Hl.
  - intros Hh Hrun. apply set_eq. intros q. rewrite Ho, Hh, Hrun. multiset_solver.
Qed.

Lemma weak_callbacks_interleaved_witness :
  let s := begin_call 1 (start 1) in
  (∀ q, q ∈ running s → do_act (Use q) s = Ok s) ∧
  NoDup (destroyed s) ∧ (∀ q, q ∈ destroyed s → (q ∉ held s ⊎ running s) ∧ begin_call q s = s) ∧
  (held s = ∅ → running s = ∅ → objs s = ∅).
Proof. apply (weak_callbacks_interleaved 1), rtc_once, StepCall. Defined.

End Weak.
