(* ===== verification/Exception.v ===== *)
(** * Exception (base/exception.h, base/exception.cc)

    A message and the stack trace taken at construction. What backtrace and backtrace_symbols
    of the C library give is an argument: the number of frames, and the array of C strings,
    [None] for NULL. C strings are byte lists without a NUL. *)

From S2P Require Import Prelude.

Module Exn.

Record Exception := mkException { message_ : list byte; stack_ : list byte }.

(** c_str() seen as a C string: up to the first NUL. *)
Fixpoint c_str (s : list byte) : list byte :=
  match s with
  | [] => []
  | b :: s' => if bool_decide (b = x00) then [] else b :: c_str s'
  end.

Definition newline : byte := x0a.
Definition len : Z := 200.

(** for (i = 0; i < nptrs; ++i) stack_.append(strings[i]), push_back('\n') *)
Fixpoint append_frames (n : nat) (i : nat) (strings : list (list byte)) (stack : list byte)
    : res (list byte) :=
  match n with
  | O => Ok stack
  | S n' =>
      match strings !! i with
      | Some str => append_frames n' (S i) strings (stack ++ str ++ [newline])
      | None => Err OutOfBounds
      end
  end.
Definition fillStackTrace (nptrs : Z) (strings : option (list (list byte))) (stack : list byte)
    : res (list byte) :=
  match strings with
  | Some strings => append_frames (Z.to_nat nptrs) 0 strings stack
  | None => Ok stack
  end.

Definition newException (msg : list byte) (nptrs : Z) (strings : option (list (list byte)))
    : res Exception :=
  stack ← fillStackTrace nptrs strings [];
  Ok (mkException msg stack).
(** From a const char*: the string ends at its NUL. *)
Definition newException_cstr (msg : list byte) (nptrs : Z) (strings : option (list (list byte)))
    : res Exception :=
  newException (c_str msg) nptrs strings.

Definition what (e : Exception) : list byte := c_str (message_ e).
Definition stackTrace (e : Exception) : list byte := c_str (stack_ e).

(** ** Reading the trace back *)
Fixpoint lines (s : list byte) (cur : list byte) : list (list byte) :=
  match s with
  | [] => []
  | b :: s' => if bool_decide (b = newline) then cur :: lines s' [] else lines s' (cur ++ [b])
  end.

Definition plain (s : list byte) : Prop := Forall (λ b, b ≠ x00 ∧ b ≠ newline) s.
Definition trace_text (strings : list (list byte)) : list byte :=
  concat (map (λ s, s ++ [newline]) strings).

Lemma append_frames_spec n i strings stack :
  (i + n = length strings)%nat →
  append_frames n i strings stack = Ok (stack ++ trace_text (drop i strings)).
Proof.
  revert i stack. induction n as [|n IH]; intros i stack Hn; cbn.
  { rewrite drop_ge by lia. cbn. by rewrite app_nil_r. }
  destruct (lookup_lt_is_Some_2 strings i) as [str Hs]; [lia|]. rewrite Hs, IH by lia.
  rewrite (drop_S _ _ _ Hs). unfold trace_text. cbn. by rewrite <-!app_assoc.
Qed.

Lemma c_str_plain_app s t : Forall (λ b, b ≠ x00) s → c_str (s ++ t) = s ++ c_str t.
Proof.
  induction 1 as [|b s Hb Hs IH]; cbn; [done|]. rewrite bool_decide_false by done. by rewrite IH.
Qed.

Lemma trace_no_nul strings : Forall plain strings → Forall (λ b, b ≠ x00) (trace_text strings).
Proof.
  induction 1 as [|s strings Hs _ IH]; [constructor|]. unfold trace_text. cbn.
  apply Forall_app. split; [|exact IH]. apply Forall_app. split; [|by repeat constructor].
  eapply Forall_impl; [exact Hs|]. by intros b [? _].
Qed.

Lemma lines_app s cur rest : plain s → lines (s ++ newline :: rest) cur = (cur ++ s) :: lines rest [].
Proof.
  intros Hs. revert cur. induction Hs as [|b s [_ Hb] Hs IH]; intros cur; cbn.
  - by rewrite app_nil_r.
  - rewrite bool_decide_false by done. by rewrite IH, <-app_assoc.
Qed.

Lemma lines_trace strings : Forall plain strings → lines (trace_text strings) [] = strings.
Proof.
  induction 1 as [|s strings Hs _ IH]; [done|]. unfold trace_text in *. cbn.
  rewrite <-app_assoc. cbn. by rewrite lines_app, IH.
Qed.

(** An exception keeps its message and its trace. For the at most 200 symbols that
    backtrace_symbols gives for the frames, the constructor reads within their array, what() is
    the message up to its first NUL, and the lines of stackTrace() are the symbols in order;
    without symbols the trace is empty. *)
Theorem exception_keeps_trace (msg : list byte) (nptrs : Z) (strings : list (list byte))
    (Hn : 0 ≤ nptrs ≤ len) (Hl : zlen strings = nptrs) (Hp : Forall plain strings) :
  (∃ e, newException msg nptrs (Some strings) = Ok e ∧ what e = c_str msg ∧
        lines (stackTrace e) [] = strings) ∧
  (∃ e, newException_cstr msg nptrs None = Ok e ∧ what e = c_str msg ∧ stackTrace e = []).
Proof.
  split.
  - unfold newException, fillStackTrace. rewrite append_frames_spec by lia. cbn [mbind res_bind app drop].
    rewrite drop_0. eexists. split_and!; [done|done|]. unfold stackTrace. cbn [stack_].
    assert (c_str (trace_text strings) = trace_text strings) as ->; [|by apply lines_trace].
    rewrite <-(app_nil_r (trace_text strings)) at 1.
    rewrite c_str_plain_app by by apply trace_no_nul. by rewrite app_nil_r.
  - eexists. split_and!; [done| |done]. unfold what. cbn.
    assert (∀ s, c_str (c_str s) = c_str s) as ->; [|done].
    induction s as [|b s IH]; cbn; [done|]. case_bool_decide; cbn; [done|].
    rewrite bool_decide_false by done. by rewrite IH.
Qed.

Lemma exception_keeps_trace_witness :
  (∃ e, newException [x61; x00; x62] 2 (Some [[x66]; [x67]]) = Ok e ∧ what e = [x61] ∧
        lines (stackTrace e) [] = [[x66]; [x67]]) ∧
  (∃ e, newException_cstr [x61; x00; x62] 2 None = Ok e ∧ what e = [x61] ∧ stackTrace e = []).
Proof.
  apply (exception_keeps_trace [x61; x00; x62] 2 [[x66]; [x67]]).
  - unfold len. lia.
  - reflexivity.
  - repeat constructor; discriminate.
Defined.

End Exn.
