(* ===== verification/Timestamp.v ===== *)
(** * Timestamp (base/timestamp.h, base/timestamp.cc)

    Microseconds since the epoch in a 64-bit integer. The conversions to and from seconds
    use IEEE 754 binary64 arithmetic, modelled with the executable [spec_float] of the
    Standard Library: 53-bit significands, round to nearest even. *)

From Stdlib Require Import Floats.SpecFloat.
From S2P Require Import Prelude.

Module Ts.

(** ** double *)
Definition double := spec_float.
Definition double_of_Z (z : Z) : double := binary_normalize 53 1024 z 0 false.
Definition dmul : double → double → double := SFmul 53 1024.
Definition ddiv : double → double → double := SFdiv 53 1024.
Definition dlt : double → double → bool := SFltb.

(** static_cast<int64_t>: truncation towards zero; out of range is undefined. *)
Definition trunc (d : double) : option Z :=
  match d with
  | S754_zero _ => Some 0
  | S754_finite s m e =>
      let a := if 0 <=? e then Z.pos m * 2 ^ e else Z.pos m / 2 ^ (- e) in
      Some (if s then - a else a)
  | _ => None
  end.
Definition to_int64 (d : double) : res Z :=
  match trunc d with
  | Some z => checked 64 [] z
  | None => Err IntOverflow
  end.

(** ** The class *)
Record Timestamp := mkTimestamp { microSecondsSinceEpoch_ : Z }.

#[export] Instance Timestamp_eq_dec : EqDecision Timestamp.
Proof. solve_decision. Defined.

Definition kMicroSecondsPerSecond : Z := 1000 * 1000.

Definition Timestamp_default : Timestamp := mkTimestamp 0.
Definition invalid : Timestamp := Timestamp_default.
Definition swap (a b : Timestamp) : Timestamp * Timestamp := (b, a).
Definition valid (t : Timestamp) : bool := microSecondsSinceEpoch_ t >? 0.
Definition secondsSinceEpoch (t : Timestamp) : Z :=
  Z.quot (microSecondsSinceEpoch_ t) kMicroSecondsPerSecond.
Definition fromUnixTime_us (t microseconds : Z) : res Timestamp :=
  us ← checked 64 [t * kMicroSecondsPerSecond] (t * kMicroSecondsPerSecond + microseconds);
  Ok (mkTimestamp us).
Definition fromUnixTime (t : Z) : res Timestamp := fromUnixTime_us t 0.

(** now(): [tv_sec] and [tv_usec] are what gettimeofday stored. *)
Definition now (tv_sec tv_usec : Z) : res Timestamp :=
  us ← checked 64 [tv_sec * kMicroSecondsPerSecond] (tv_sec * kMicroSecondsPerSecond + tv_usec);
  Ok (mkTimestamp us).

Definition op_lt (lhs rhs : Timestamp) : bool :=
  microSecondsSinceEpoch_ lhs <? microSecondsSinceEpoch_ rhs.
Definition op_eq (lhs rhs : Timestamp) : bool :=
  microSecondsSinceEpoch_ lhs =? microSecondsSinceEpoch_ rhs.

Definition timeDifference (high low : Timestamp) : res double :=
  diff ← checked 64 [] (microSecondsSinceEpoch_ high - microSecondsSinceEpoch_ low);
  Ok (ddiv (double_of_Z diff) (double_of_Z kMicroSecondsPerSecond)).

(** The microseconds of an interval in seconds, as addTime computes them. *)
Definition delta (seconds : double) : res Z :=
  to_int64 (dmul seconds (double_of_Z kMicroSecondsPerSecond)).
Definition addTime (timestamp : Timestamp) (seconds : double) : res Timestamp :=
  d ← delta seconds;
  us ← checked 64 [] (microSecondsSinceEpoch_ timestamp + d);
  Ok (mkTimestamp us).

Lemma addTime_delta t s d :
  delta s = Ok d → in_s 64 (microSecondsSinceEpoch_ t + d) →
  addTime t s = Ok (mkTimestamp (microSecondsSinceEpoch_ t + d)).
Proof.
  intros Hd Hr. unfold addTime. rewrite Hd. cbn. rewrite checked_ok; [done|].
  by repeat constructor; apply Hr.
Qed.

(** AddTime does not undo timeDifference. Two timestamps 249 microseconds apart: the
    difference in seconds is rounded to binary, its product with a million falls below 249
    and the conversion truncates, so adding it back gives 248 microseconds. *)
Theorem addTime_loses_microsecond (t : Z) (Ht : 0 ≤ t < 2 ^ 62) :
  ∃ d, timeDifference (mkTimestamp (t + 249)) (mkTimestamp t) = Ok d ∧
       addTime (mkTimestamp t) d = Ok (mkTimestamp (t + 248)).
Proof.
  unfold timeDifference. cbn [microSecondsSinceEpoch_].
  replace (t + 249 - t) with 249 by lia. eexists. split; [vm_compute; reflexivity|].
  apply addTime_delta; [vm_compute; reflexivity|]. cbn. unfold in_s.
  change (2 ^ (64 - 1)) with (2 * 2 ^ 62). lia.
Qed.

Lemma addTime_loses_microsecond_witness :
  ∃ d, timeDifference (mkTimestamp (0 + 249)) (mkTimestamp 0) = Ok d ∧
       addTime (mkTimestamp 0) d = Ok (mkTimestamp (0 + 248)).
Proof. apply (addTime_loses_microsecond 0). vm_compute. split; [discriminate|reflexivity]. Defined.

End Ts.
