(* ===== verification/TimerQueue.v ===== *)
(** * Timer, TimerId and TimerQueue (net/timer.h, timer.cc, timer_id.h, timer_queue.h, timer_queue.cc)

    Timers are heap objects named by their address (0 is NULL), so that deletion, address
    reuse and dangling pointers are visible; [std::set] is a strictly sorted list or a
    [gset]. The clock and the allocator are parameters: every reading of Timestamp::now() is
    an argument and [alloc] returns an unused address. A timer's callback is a code; what it
    does to the queue is a list of calls of addTimer and cancel, chosen by [script] from the
    queue's state at that moment. [timerfd] is the setting of the kernel's timer: when it
    was armed and the relative time it was given. [ran] records the callbacks run. *)

From stdpp Require Import sorting.
From S2P Require Import Prelude Atomic Timestamp.

Module TQ.

(** ** Timer *)
Record Timer := mkTimer {
  callback_ : Z; expiration_ : Z; interval_ : Ts.double; repeat_ : bool; sequence_ : Z
}.

Abbreviation Entry := (Z * Z)%type.        (* std::pair<Timestamp, Timer*> *)
Abbreviation ActiveTimer := (Z * Z)%type.  (* std::pair<Timer*, int64_t> *)

Record TimerId := mkTimerId { timer_ : Z; seq_ : Z }.
Definition TimerId_default : TimerId := mkTimerId 0 0.

Definition restart (now : Z) (t : Timer) : res Timer :=
  e ← (if repeat_ t then Ts.addTime (Ts.mkTimestamp now) (interval_ t) else Ok Ts.invalid);
  Ok (mkTimer (callback_ t) (Ts.microSecondsSinceEpoch_ e) (interval_ t) (repeat_ t) (sequence_ t)).

(** ** std::set<Entry>: pairs in lexicographic order *)
Definition entry_lt (a b : Entry) : bool :=
  (a.1 <? b.1) || ((a.1 =? b.1) && (a.2 <? b.2)).

Fixpoint set_insert (e : Entry) (l : list Entry) : list Entry * bool :=
  match l with
  | [] => ([e], true)
  | x :: l' =>
      if entry_lt e x then (e :: l, true)
      else if entry_lt x e then let '(r, b) := set_insert e l' in (x :: r, b)
      else (l, false)
  end.

Definition remove_entry (e : Entry) (l : list Entry) : list Entry := filter (λ x, x ≠ e) l.
Definition set_erase (e : Entry) (l : list Entry) : list Entry * nat :=
  (remove_entry e l, length (filter (λ x, x = e) l)).

(** lower_bound and the range before it. *)
Fixpoint split_lower_bound (e : Entry) (l : list Entry) : list Entry * list Entry :=
  match l with
  | [] => ([], [])
  | x :: l' => if entry_lt x e then let '(a, b) := split_lower_bound e l' in (x :: a, b)
               else ([], l)
  end.

(** ** The queue *)
Record timespec := mkTimespec { tv_sec : Z; tv_nsec : Z }.

Record queue := mkQueue {
  heap : gmap Z Timer;
  s_numCreated_ : Z;
  timers_ : list Entry;
  activeTimers_ : gset ActiveTimer;
  callingExpiredTimers_ : bool;
  cancelingTimers_ : gset ActiveTimer;
  timerfd : option (Z * timespec);
  ran : list ActiveTimer
}.

Definition new_queue (numCreated : Z) : queue := mkQueue ∅ numCreated [] ∅ false ∅ None [].

Definition with_heap h q := mkQueue h (s_numCreated_ q) (timers_ q) (activeTimers_ q)
  (callingExpiredTimers_ q) (cancelingTimers_ q) (timerfd q) (ran q).
Definition with_sets ts ac q := mkQueue (heap q) (s_numCreated_ q) ts ac
  (callingExpiredTimers_ q) (cancelingTimers_ q) (timerfd q) (ran q).
Definition with_calling b q := mkQueue (heap q) (s_numCreated_ q) (timers_ q) (activeTimers_ q)
  b (cancelingTimers_ q) (timerfd q) (ran q).
Definition with_canceling c q := mkQueue (heap q) (s_numCreated_ q) (timers_ q) (activeTimers_ q)
  (callingExpiredTimers_ q) c (timerfd q) (ran q).
Definition with_timerfd f q := mkQueue (heap q) (s_numCreated_ q) (timers_ q) (activeTimers_ q)
  (callingExpiredTimers_ q) (cancelingTimers_ q) f (ran q).
Definition with_ran r q := mkQueue (heap q) (s_numCreated_ q) (timers_ q) (activeTimers_ q)
  (callingExpiredTimers_ q) (cancelingTimers_ q) (timerfd q) r.

Definition get (p : Z) (q : queue) : res Timer :=
  match heap q !! p with Some t => Ok t | None => Err UseAfterFree end.

Definition sizes_agree (q : queue) : bool := (length (timers_ q) =? size (activeTimers_ q))%nat.

#[local] Arguments sizes_agree : simpl never.
#[local] Arguments set_erase : simpl never.



Definition howMuchTimeFromNow (when now : Z) : res timespec :=
  microseconds ← checked 64 [] (when - now);
  let microseconds := if microseconds <? 100 then 100 else microseconds in
  Ok (mkTimespec (Z.quot microseconds Ts.kMicroSecondsPerSecond)
        (Z.rem microseconds Ts.kMicroSecondsPerSecond * 1000)).

(** timerfd_settime arms the timer; reading it disarms a timer that has fired. *)
Definition resetTimerfd (expiration now : Z) (q : queue) : res queue :=
  v ← howMuchTimeFromNow expiration now; Ok (with_timerfd (Some (now, v)) q).
Definition readTimerfd (q : queue) : queue := with_timerfd None q.

Definition insert (timer : Z) (q : queue) : res (bool * queue) :=
  _ ← assert_ (sizes_agree q);
  t ← get timer q;
  let when := expiration_ t in
  let earliestChanged :=
    match timers_ q with [] => true | it :: _ => when <? it.1 end in
  let '(ts, ok1) := set_insert (when, timer) (timers_ q) in
  _ ← assert_ ok1;
  let at_ := (timer, sequence_ t) in
  let ok2 := bool_decide (at_ ∉ activeTimers_ q) in
  let q := with_sets ts ({[at_]} ∪ activeTimers_ q) q in
  _ ← assert_ ok2;
  _ ← assert_ (sizes_agree q);
  Ok (earliestChanged, q).

Definition addTimerInLoop (timer now : Z) (q : queue) : res queue :=
  '(earliestChanged, q) ← insert timer q;
  if (earliestChanged : bool) then t ← get timer q; resetTimerfd (expiration_ t) now q else Ok q.

Definition cancelInLoop (timerId : TimerId) (q : queue) : res queue :=
  _ ← assert_ (sizes_agree q);
  let timer := (timer_ timerId, seq_ timerId) in
  q ← (if decide (timer ∈ activeTimers_ q) then
         t ← get timer.1 q;
         let '(ts, n) := set_erase (expiration_ t, timer.1) (timers_ q) in
         _ ← assert_ (n =? 1)%nat;
         Ok (with_heap (delete timer.1 (heap q))
               (with_sets ts (activeTimers_ q ∖ {[timer]}) q))
       else if callingExpiredTimers_ q then
         Ok (with_canceling ({[timer]} ∪ cancelingTimers_ q) q)
       else Ok q);
  _ ← assert_ (sizes_agree q);
  Ok q.

Definition UINTPTR_MAX : Z := 2 ^ 64 - 1.

(** The loop body of getExpired. *)
Definition erase_active (e : Entry) (q : queue) : res queue :=
  t ← get e.2 q;
  let timer := (e.2, sequence_ t) in
  let n := bool_decide (timer ∈ activeTimers_ q) in
  let q := with_sets (timers_ q) (activeTimers_ q ∖ {[timer]}) q in
  _ ← assert_ n;
  Ok q.

Definition getExpired (now : Z) (q : queue) : res (list Entry * queue) :=
  _ ← assert_ (sizes_agree q);
  let sentry := (now, UINTPTR_MAX) in
  let '(expired, rest) := split_lower_bound sentry (timers_ q) in
  _ ← assert_ (match rest with [] => true | e :: _ => now <? e.1 end);
  let q := with_sets rest (activeTimers_ q) q in
  q ← mfold erase_active expired q;
  _ ← assert_ (sizes_agree q);
  Ok (expired, q).

Definition reset_one (now : Z) (e : Entry) (q : queue) : res queue :=
  t ← get e.2 q;
  let timer := (e.2, sequence_ t) in
  if repeat_ t && bool_decide (timer ∉ cancelingTimers_ q) then
    t' ← restart now t;
    '(_, q) ← insert e.2 (with_heap (<[e.2 := t']> (heap q)) q);
    Ok q
  else Ok (with_heap (delete e.2 (heap q)) q).

(** [now2] is the clock when resetTimerfd reads it. *)
Definition reset (expired : list Entry) (now now2 : Z) (q : queue) : res queue :=
  q ← mfold (reset_one now) expired q;
  nextExpire ← (match timers_ q with
                | [] => Ok 0
                | e :: _ => t ← get e.2 q; Ok (expiration_ t)
                end);
  if Ts.valid (Ts.mkTimestamp nextExpire) then resetTimerfd nextExpire now2 q else Ok q.

Section Callbacks.
Context (alloc : gmap Z Timer → Z).

(** new Timer(cb, when, interval) *)
Definition newTimer (cb when : Z) (interval : Ts.double) (q : queue) : res (Z * queue) :=
  '(seq, n) ← Atomic.incrementAndGet 64 (s_numCreated_ q);
  let timer := alloc (heap q) in
  let t := mkTimer cb when interval (Ts.dlt (Ts.double_of_Z 0) interval) seq in
  Ok (timer, mkQueue (<[timer := t]> (heap q)) n (timers_ q) (activeTimers_ q)
               (callingExpiredTimers_ q) (cancelingTimers_ q) (timerfd q) (ran q)).

(** addTimer and cancel called in the loop thread, where runInLoop calls at once. *)
Definition addTimer (cb when : Z) (interval : Ts.double) (now : Z) (q : queue)
    : res (TimerId * queue) :=
  '(timer, q) ← newTimer cb when interval q;
  q ← addTimerInLoop timer now q;
  t ← get timer q;
  Ok (mkTimerId timer (sequence_ t), q).
Definition cancel : TimerId → queue → res queue := cancelInLoop.

Inductive action :=
  | AddTimer (cb when : Z) (interval : Ts.double) (now : Z)
  | Cancel (id : TimerId).

Definition act (a : action) (q : queue) : res queue :=
  match a with
  | AddTimer cb when interval now => '(_, q) ← addTimer cb when interval now q; Ok q
  | Cancel id => cancel id q
  end.

Context (script : Z → queue → list action).

(** Timer::run *)
Definition run (timer : Z) (q : queue) : res queue :=
  t ← get timer q;
  mfold act (script (callback_ t) q) (with_ran (ran q ++ [(timer, sequence_ t)]) q).

Definition handleRead (now now2 : Z) (q : queue) : res queue :=
  let q := readTimerfd q in
  '(expired, q) ← getExpired now q;
  let q := with_calling true q in
  let q := with_canceling ∅ q in
  q ← mfold (λ (e : Entry) q, run e.2 q) expired q;
  let q := with_calling false q in
  reset expired now now2 q.
End Callbacks.

(** ** Sorted sets *)
Definition elt (a b : Entry) : Prop := entry_lt a b = true.

Lemma elt_spec a b : elt a b ↔ a.1 < b.1 ∨ (a.1 = b.1 ∧ a.2 < b.2).
Proof. unfold elt, entry_lt. destruct a, b; cbn. lia. Qed.

Lemma not_elt_spec a b : entry_lt a b = false ↔ ¬ (a.1 < b.1 ∨ (a.1 = b.1 ∧ a.2 < b.2)).
Proof. rewrite <-elt_spec. unfold elt. by destruct (entry_lt a b). Qed.

Abbreviation sorted := (StronglySorted elt).

Lemma sorted_cons_inv x l : sorted (x :: l) → sorted l ∧ Forall (elt x) l.
Proof. inversion 1; auto. Qed.

Lemma set_insert_spec e l :
  sorted l → e ∉ l →
  ∃ l', set_insert e l = (l', true) ∧ sorted l' ∧ l' ≡ₚ e :: l.
Proof.
  induction l as [|x l IH]; intros Hs He; cbn.
  { exists [e]. split_and!; [done|by repeat constructor|done]. }
  apply sorted_cons_inv in Hs as [Hs Hx]. apply not_elem_of_cons in He as [Hne He].
  destruct (entry_lt e x) eqn:E1.
  { exists (e :: x :: l). split_and!; [done| |done]. constructor; [by constructor|].
    constructor; [done|]. eapply Forall_impl; [exact Hx|]. intros y Hy.
    change (elt e x) in E1. rewrite elt_spec in *. lia. }
  destruct (entry_lt x e) eqn:E2.
  - destruct (IH Hs He) as (l' & -> & Hs' & Hp). exists (x :: l').
    split_and!; [done| |by rewrite Hp; constructor]. constructor; [done|].
    rewrite Hp. by constructor.
  - apply not_elt_spec in E1, E2. destruct Hne. destruct e, x. cbn in *. f_equal; lia.
Qed.

Lemma split_lower_bound_spec e l :
  sorted l → let '(a, b) := split_lower_bound e l in
  l = a ++ b ∧ Forall (λ x, elt x e) a ∧ Forall (λ x, ¬ elt x e) b.
Proof.
  induction l as [|x l IH]; intros Hs; cbn; [done|].
  apply sorted_cons_inv in Hs as [Hs Hx]. destruct (entry_lt x e) eqn:E.
  - destruct (split_lower_bound e l) as [a b]. destruct (IH Hs) as (-> & Ha & Hb).
    split_and!; [done|by constructor|done].
  - split_and!; [done|done|]. apply not_elt_spec in E. constructor; [by rewrite elt_spec|].
    eapply Forall_impl; [exact Hx|]. intros y Hy. rewrite elt_spec in *. lia.
Qed.

Lemma sorted_app l1 l2 : sorted (l1 ++ l2) → sorted l1 ∧ sorted l2.
Proof.
  induction l1 as [|x l1 IH]; cbn; [by intros; split; [constructor|]|].
  intros [Hs Hx]%sorted_cons_inv. destruct (IH Hs). apply Forall_app in Hx as [? _].
  split; [by constructor|done].
Qed.

Lemma sorted_filter (P : Entry → Prop) `{∀ x, Decision (P x)} l : sorted l → sorted (filter P l).
Proof.
  induction 1 as [|x l Hs IH Hx]; [constructor|]. rewrite filter_cons. case_decide; [|done].
  constructor; [done|]. apply Forall_forall. intros y [_ Hy]%list_elem_of_filter.
  rewrite Forall_forall in Hx. auto.
Qed.

Lemma sorted_NoDup l : sorted l → NoDup l.
Proof.
  induction 1 as [|x l Hs IH Hx]; constructor; [|done]. intros Hin.
  rewrite Forall_forall in Hx. specialize (Hx _ Hin). rewrite elt_spec in Hx. lia.
Qed.

Lemma set_erase_spec e l :
  NoDup l → e ∈ l → ∃ l', set_erase e l = (l', 1%nat) ∧ e :: l' ≡ₚ l ∧ l' = remove_entry e l.
Proof.
  intros Hnd He. eexists. split; [|split; [|reflexivity]].
  - unfold set_erase. f_equal. apply list_elem_of_split in He as (l1 & l2 & ->).
    apply NoDup_app in Hnd as (_ & Hd & Hnd). apply NoDup_cons in Hnd as [Hn2 _].
    rewrite filter_app, filter_cons_True by done.
    assert (∀ l, e ∉ l → filter (λ x, x = e) l = []) as Hnil.
    { induction l as [|x l IH]; intros Hn; [done|]. apply not_elem_of_cons in Hn as [? Hn].
      rewrite filter_cons_False by congruence. auto. }
    rewrite !Hnil; [done|done|]. intros Hin. apply (Hd _ Hin). by left.
  - unfold remove_entry. apply NoDup_Permutation.
    + apply NoDup_cons. split; [|by apply NoDup_filter]. rewrite list_elem_of_filter. naive_solver.
    + done.
    + intros x. rewrite elem_of_cons, list_elem_of_filter. destruct (decide (x = e)); naive_solver.
Qed.

(** ** The invariant

    [out] are the live timers that are not in the queue: created and not yet inserted, or
    expired and being run. *)
Definition seq_of (h : gmap Z Timer) (p : Z) : Z := from_option sequence_ 0 (h !! p).
Definition at_of (h : gmap Z Timer) (e : Entry) : ActiveTimer := (e.2, seq_of h e.2).

Definition time_ok (t : Z) : Prop := - 2 ^ 62 ≤ t < 2 ^ 62.
Definition clock_ok (now : Z) : Prop := 0 < now < 2 ^ 61.
Definition interval_ok (i : Ts.double) : Prop :=
  Ts.dlt (Ts.double_of_Z 0) i = true → ∃ d, Ts.delta i = Ok d ∧ 0 ≤ d < 2 ^ 61.
Definition timer_ok (t : Timer) : Prop :=
  time_ok (expiration_ t) ∧ interval_ok (interval_ t) ∧
  repeat_ t = Ts.dlt (Ts.double_of_Z 0) (interval_ t).

Record inv (out : list Z) (q : queue) : Prop := mkInv {
  inv_sorted : sorted (timers_ q);
  inv_nodup : NoDup ((timers_ q).*2 ++ out);
  inv_entry : ∀ e, e ∈ timers_ q → ∃ t, heap q !! e.2 = Some t ∧ expiration_ t = e.1;
  inv_active : activeTimers_ q = list_to_set (at_of (heap q) <$> timers_ q);
  inv_dom : ∀ p, is_Some (heap q !! p) ↔ p ∈ (timers_ q).*2 ++ out;
  inv_timer : ∀ p t, heap q !! p = Some t →
    0 < p < UINTPTR_MAX ∧ timer_ok t ∧ 1 ≤ sequence_ t ≤ s_numCreated_ q;
  inv_seq : ∀ p p' t t', heap q !! p = Some t → heap q !! p' = Some t' →
    sequence_ t = sequence_ t' → p = p';
  inv_num : 0 ≤ s_numCreated_ q < 2 ^ 63
}.

Lemma at_of_NoDup h (l : list Entry) : NoDup (l.*2) → NoDup (at_of h <$> l).
Proof.
  intros Hnd. apply (NoDup_fmap_1 fst). rewrite <-list_fmap_compose.
  erewrite list_fmap_ext; [exact Hnd|done].
Qed.

Lemma sizes_agree_of h (ts : list Entry) q :
  NoDup (ts.*2) → timers_ q = ts → activeTimers_ q = list_to_set (at_of h <$> ts) →
  sizes_agree q = true.
Proof.
  intros Hnd Ht Ha. unfold sizes_agree. rewrite Ht, Ha.
  rewrite size_list_to_set by (by apply at_of_NoDup). rewrite length_fmap. apply Nat.eqb_refl.
Qed.

Lemma inv_sizes out q : inv out q → sizes_agree q = true.
Proof.
  intros [? Hnd ? Ha]. apply (sizes_agree_of (heap q) (timers_ q)); try done.
  by apply NoDup_app in Hnd as [? _].
Qed.

Lemma inv_perm out out' q : inv out q → out ≡ₚ out' → inv out' q.
Proof.
  intros [? Hnd ? ? Hd] Hp. split; try done.
  - by rewrite <-Hp.
  - intros p. rewrite Hd. by rewrite Hp.
Qed.

Lemma inv_out_live out q p : inv out q → p ∈ out → ∃ t, heap q !! p = Some t.
Proof. intros Hi Hp. apply (inv_dom _ _ Hi). apply elem_of_app. by right. Qed.

Lemma at_of_ext h h' (l : list Entry) :
  (∀ e, e ∈ l → h !! e.2 = h' !! e.2) → at_of h <$> l = at_of h' <$> l.
Proof.
  intros Hh. apply list_fmap_ext. intros i e He. unfold at_of, seq_of.
  rewrite Hh; [done|]. by eapply list_elem_of_lookup_2.
Qed.

(** ** insert *)
Definition earliest_changed (when : Z) (l : list Entry) : bool :=
  match l with [] => true | it :: _ => when <? it.1 end.

Lemma insert_spec p t out q :
  inv (p :: out) q → heap q !! p = Some t →
  ∃ ts, insert p q = Ok (earliest_changed (expiration_ t) (timers_ q),
          with_sets ts ({[(p, sequence_ t)]} ∪ activeTimers_ q) q) ∧
    ts ≡ₚ (expiration_ t, p) :: timers_ q ∧ sorted ts ∧
    inv out (with_sets ts ({[(p, sequence_ t)]} ∪ activeTimers_ q) q).
Proof.
  intros Hinv Hp. pose proof Hinv as [Hs Hnd He Ha Hd Ht Hq Hn].
  assert (p ∉ (timers_ q).*2) as Hout.
  { apply NoDup_app in Hnd as (_ & Hdis & _). intros Hin. apply (Hdis _ Hin). by left. }
  assert ((expiration_ t, p) ∉ timers_ q) as Hnew.
  { intros Hin. apply Hout. apply list_elem_of_fmap. by exists (expiration_ t, p). }
  destruct (set_insert_spec _ _ Hs Hnew) as (ts & Hins & Hsts & Hperm).
  assert (list_to_set (at_of (heap q) <$> ts) = {[(p, sequence_ t)]} ∪ activeTimers_ q) as Hset.
  { rewrite Ha, Hperm. cbn. unfold at_of at 1, seq_of. cbn. by rewrite Hp. }
  assert ((p, sequence_ t) ∉ activeTimers_ q) as Hna.
  { rewrite Ha, elem_of_list_to_set, list_elem_of_fmap. intros (e & Hee & Hin).
    apply Hout. apply list_elem_of_fmap. exists e. split; [|done]. by injection Hee. }
  assert (ts.*2 ++ out ≡ₚ (timers_ q).*2 ++ p :: out) as Hall.
  { rewrite Hperm. cbn. by rewrite Permutation_middle. }
  set (q' := with_sets ts ({[(p, sequence_ t)]} ∪ activeTimers_ q) q).
  assert (inv out q') as Hinv'.
  { split; cbn; try done.
    - by rewrite Hall.
    - intros e. rewrite Hperm, elem_of_cons. intros [->|Hin]; [by exists t|auto].
    - intros p'. rewrite Hd. by rewrite Hall. }
  exists ts. split_and!; try done. unfold insert.
  rewrite (inv_sizes _ _ Hinv). cbn. unfold get. rewrite Hp. cbn. rewrite Hins. cbn.
  rewrite bool_decide_true by done. cbn. pose proof (inv_sizes _ _ Hinv') as Hsz.
  unfold q' in Hsz. rewrite Hsz. done.
Qed.

(** ** resetTimerfd *)

(** The absolute time at which an armed timer fires, in microseconds. *)
Definition deadline (r : Z) (v : timespec) : Z := r + tv_sec v * 1000000 + tv_nsec v / 1000.

Lemma howMuchTimeFromNow_spec when now :
  in_s 64 (when - now) →
  ∃ v, howMuchTimeFromNow when now = Ok v ∧ 0 ≤ tv_sec v ∧ 0 ≤ tv_nsec v < 1000000000 ∧
       deadline now v = Z.max when (now + 100).
Proof.
  intros Hr. unfold howMuchTimeFromNow. rewrite checked_ok by (by repeat constructor; apply Hr).
  cbn [mbind res_bind]. eexists. split; [done|]. unfold deadline. cbn [tv_sec tv_nsec].
  replace (if when - now <? 100 then 100 else when - now) with (Z.max (when - now) 100)
    by (destruct (Z.ltb_spec (when - now) 100); lia).
  unfold Ts.kMicroSecondsPerSecond. change (1000 * 1000) with 1000000.
  rewrite quot_div, rem_mod, Z.div_mul by lia. dlia.
Qed.

Lemma resetTimerfd_spec when now q :
  time_ok when → clock_ok now →
  ∃ v, resetTimerfd when now q = Ok (with_timerfd (Some (now, v)) q) ∧
       deadline now v = Z.max when (now + 100).
Proof.
  unfold time_ok, clock_ok. intros Hw Hn.
  destruct (howMuchTimeFromNow_spec when now) as (v & Hv & _ & _ & Hd).
  { unfold in_s. change (2 ^ (64 - 1)) with (2 * 2 ^ 62). change (2 ^ 61) with 2305843009213693952 in *.
    change (2 ^ 62) with 4611686018427387904 in *. lia. }
  exists v. unfold resetTimerfd. by rewrite Hv.
Qed.

(** The kernel's timer covers the earliest timer: it fires when that one is due, or 100
    microseconds after it was armed if that is later. *)
Definition armed_ok (q : queue) : Prop :=
  ∀ e l, timers_ q = e :: l → ∃ r v, timerfd q = Some (r, v) ∧ deadline r v ≤ Z.max e.1 (r + 100).

(** While expired timers run the kernel's timer is disarmed, unless something due was added. *)
Definition armed_or_late (now : Z) (q : queue) : Prop :=
  armed_ok q ∨ Forall (λ e, now < e.1) (timers_ q).

Lemma inv_timerfd out q f : inv out q → inv out (with_timerfd f q).
Proof. by intros []. Qed.

Lemma sorted_head_min e e' l : sorted (e :: l) → e' ∈ e :: l → e.1 ≤ e'.1.
Proof.
  intros [_ Hx]%sorted_cons_inv [->|Hin]%elem_of_cons; [lia|].
  rewrite Forall_forall in Hx. specialize (Hx _ Hin). rewrite elt_spec in Hx. lia.
Qed.

(** Inserting a timer that is not the new earliest keeps the earliest deadline. *)
Lemma insert_head_le e ts l e0 l0 :
  sorted ts → ts ≡ₚ e :: l → l = e0 :: l0 → sorted l → earliest_changed e.1 l = false →
  ∃ l', ts = e0 :: l' ∨ (∃ e1, ts = e1 :: l' ∧ e1.1 = e0.1).
Proof.
  intros Hs Hp -> Hl Hec. cbn in Hec. apply Z.ltb_ge in Hec.
  destruct ts as [|e1 ts']; [by apply Permutation_nil_cons in Hp|]. exists ts'. right. exists e1.
  split; [done|].
  assert (e1.1 ≤ e0.1).
  { eapply sorted_head_min; [exact Hs|]. rewrite Hp. right. by left. }
  assert (e1 ∈ e :: e0 :: l0) as Hin by (rewrite <-Hp; by left).
  apply elem_of_cons in Hin as [->|Hin]; [lia|].
  pose proof (sorted_head_min _ _ _ Hl Hin). lia.
Qed.

Lemma addTimerInLoop_spec p t now out q :
  inv (p :: out) q → heap q !! p = Some t → clock_ok now →
  ∃ q', addTimerInLoop p now q = Ok q' ∧ inv out q' ∧
    timers_ q' ≡ₚ (expiration_ t, p) :: timers_ q ∧ heap q' = heap q ∧
    s_numCreated_ q' = s_numCreated_ q ∧
    callingExpiredTimers_ q' = callingExpiredTimers_ q ∧
    cancelingTimers_ q' = cancelingTimers_ q ∧ ran q' = ran q ∧
    (armed_ok q → armed_ok q') ∧ (∀ n, armed_or_late n q → armed_or_late n q').
Proof.
  intros Hinv Hp Hnow. destruct (insert_spec p t out q Hinv Hp) as (ts & Hins & Hperm & Hsts & Hi).
  unfold addTimerInLoop. rewrite Hins. cbn [mbind res_bind].
  set (q1 := with_sets _ _ _) in *.
  assert (get p q1 = Ok t) as Hg by (unfold get; cbn; by rewrite Hp).
  destruct (earliest_changed (expiration_ t) (timers_ q)) eqn:Eec.
  - rewrite Hg. cbn [mbind res_bind].
    destruct (resetTimerfd_spec (expiration_ t) now q1) as (v & -> & Hv); [|done|].
    { by destruct (inv_timer _ _ Hinv _ _ Hp) as (_ & [? _] & _). }
    eexists. split; [done|]. split; [by apply inv_timerfd|]. cbn.
    assert (armed_ok (with_timerfd (Some (now, v)) q1)) as Harm.
    { intros e l Hel. cbn in Hel. exists now, v. split; [done|]. rewrite Hv.
      enough (expiration_ t ≤ e.1) by lia.
      assert (e ∈ (expiration_ t, p) :: timers_ q) as Hin by (rewrite <-Hperm, Hel; by left).
      apply elem_of_cons in Hin as [->|Hin]; [done|].
      destruct (timers_ q) as [|e0 l0] eqn:Eq; [by apply elem_of_nil in Hin|]. cbn in Eec.
      pose proof (sorted_head_min e0 e l0) as Hm. rewrite <-Eq in Hm.
      specialize (Hm (inv_sorted _ _ Hinv)). rewrite Eq in Hm. specialize (Hm Hin). lia. }
    split_and!; try done. by left.
  - eexists. split; [done|]. split; [done|]. cbn.
    assert (armed_ok q → armed_ok q1) as Harm.
    { intros Ha e l Hel. cbn in Hel. destruct (timers_ q) as [|e0 l0] eqn:Eq; [done|].
      destruct (Ha e0 l0 Eq) as (r & v & Hr & Hle). exists r, v. split; [done|].
      destruct (insert_head_le (expiration_ t, p) ts (e0 :: l0) e0 l0) as (l' & Hl'); try done.
      { rewrite <-Eq. apply (inv_sorted _ _ Hinv). }
      destruct Hl' as [->|(e1 & -> & He1)]; simplify_eq; [done|]. by rewrite He1. }
    split_and!; try done. intros n [Ha|Hl]; [left; auto|right]. cbn. rewrite Hperm.
    constructor; [|done]. cbn. destruct (timers_ q) as [|e0 l0]; [done|]. cbn in Eec.
    apply Forall_cons in Hl as [Hl _]. lia.
Qed.

(** ** cancelInLoop *)
Lemma active_inv out q p n :
  inv out q → (p, n) ∈ activeTimers_ q →
  ∃ t, heap q !! p = Some t ∧ sequence_ t = n ∧ (expiration_ t, p) ∈ timers_ q.
Proof.
  intros Hi. rewrite (inv_active _ _ Hi), elem_of_list_to_set, list_elem_of_fmap.
  intros (e & [= -> ->] & Hin). destruct (inv_entry _ _ Hi _ Hin) as (t & Ht & He).
  exists t. unfold seq_of. rewrite Ht. split_and!; try done. rewrite He. by destruct e.
Qed.

Lemma fmap_filter_ne (l : list Entry) e x :
  NoDup (l.*2) → e ∈ l → x ∈ remove_entry e l → x.2 ≠ e.2.
Proof.
  intros Hnd He [Hne Hx]%list_elem_of_filter Heq. apply Hne.
  induction l as [|y l IH]; [by apply elem_of_nil in He|]. cbn in Hnd.
  apply NoDup_cons in Hnd as [Hy Hnd].
  apply elem_of_cons in He as [->|He]; apply elem_of_cons in Hx as [->|Hx]; try done.
  - destruct Hy. rewrite <-Heq. by apply list_elem_of_fmap_2.
  - destruct Hy. rewrite Heq. by apply list_elem_of_fmap_2.
  - auto.
Qed.

Lemma armed_ok_filter e q q' :
  sorted (timers_ q) → timers_ q' = remove_entry e (timers_ q) → timerfd q' = timerfd q →
  armed_ok q → armed_ok q'.
Proof.
  intros Hs Ht Hf Ha e1 l1 He1. rewrite Ht in He1. rewrite Hf.
  destruct (timers_ q) as [|e0 l0] eqn:Eq; [done|].
  destruct (Ha e0 l0 Eq) as (r & v & Hr & Hle). exists r, v. split; [done|].
  assert (e0.1 ≤ e1.1); [|lia]. eapply sorted_head_min; [exact Hs|].
  assert (e1 ∈ remove_entry e (e0 :: l0)) as Hin by (rewrite He1; by left).
  by apply list_elem_of_filter in Hin as [_ ?].
Qed.

Lemma filter_ext_in {A} (P Q : A → Prop) `{∀ x, Decision (P x), ∀ x, Decision (Q x)} (l : list A) :
  (∀ x, x ∈ l → P x ↔ Q x) → filter P l = filter Q l.
Proof.
  induction l as [|x l IH]; intros Hpq; [done|]. rewrite !filter_cons.
  rewrite IH by (intros y Hy; apply Hpq; by right).
  do 2 case_decide; try done; exfalso; naive_solver (eauto using list_elem_of_here).
Qed.

(** In a queue without repeated pointers, removing an entry removes its pointer. *)
Lemma remove_entry_ptr (l : list Entry) e :
  NoDup (l.*2) → e ∈ l → remove_entry e l = filter (λ x, x.2 ≠ e.2) l.
Proof.
  intros Hnd He. apply filter_ext_in. intros x Hx. split; [|congruence].
  intros Hne. eapply (fmap_filter_ne l); [done|done|]. by apply list_elem_of_filter.
Qed.

Definition cancelled (p : Z) (t : Timer) (q : queue) : queue :=
  with_heap (delete p (heap q)) (with_sets (remove_entry (expiration_ t, p) (timers_ q))
    (activeTimers_ q ∖ {[(p, sequence_ t)]}) q).

Lemma cancelled_inv p t out q :
  inv out q → heap q !! p = Some t → (expiration_ t, p) ∈ timers_ q → inv out (cancelled p t q).
Proof.
  intros Hinv Hp Hin. pose proof Hinv as [Hs Hnd He Ha Hd Ht Hq Hn].
  destruct (set_erase_spec (expiration_ t, p) (timers_ q)) as (ts & _ & Hperm & Hts);
    [by apply sorted_NoDup|done|].
  assert (NoDup ((timers_ q).*2)) as Hnd2 by (by apply NoDup_app in Hnd as [? _]).
  assert (∀ x, x ∈ ts → x.2 ≠ p) as Hne.
  { intros x Hx. rewrite Hts in Hx. by eapply (fmap_filter_ne (timers_ q) (expiration_ t, p)). }
  assert ((timers_ q).*2 ++ out ≡ₚ p :: ts.*2 ++ out) as Hall by (rewrite <-Hperm; done).
  assert (p ∉ ts.*2 ++ out) as Hpn.
  { rewrite Hall in Hnd. by apply NoDup_cons in Hnd as [? _]. }
  unfold cancelled. rewrite <-Hts. split; cbn.
  - rewrite Hts. by apply sorted_filter.
  - rewrite Hall in Hnd. by apply NoDup_cons in Hnd as [_ ?].
  - intros e Hin'. destruct (He e) as (t' & ? & ?).
    { rewrite <-Hperm. by right. }
    exists t'. split; [|done]. rewrite lookup_delete_ne; [done|]. intros Heq. by apply (Hne e Hin').
  - rewrite Ha. rewrite <-Hperm. cbn. unfold at_of at 1, seq_of. cbn. rewrite Hp. cbn.
    rewrite (at_of_ext (delete p (heap q)) (heap q)).
    2:{ intros e Hin'. rewrite lookup_delete_ne; [done|]. intros Heq. by apply (Hne e Hin'). }
    apply set_eq. intros [p' n']. rewrite elem_of_difference, elem_of_union, !elem_of_singleton,
      elem_of_list_to_set. split; [tauto|]. intros Hin'. split; [by right|]. intros [= -> ->].
    apply Hpn, elem_of_app. left. apply list_elem_of_fmap in Hin' as (e & [= -> _] & Hin').
    by apply list_elem_of_fmap_2.
  - intros p'. rewrite lookup_delete_is_Some, Hd, Hall, elem_of_cons. split; [naive_solver|].
    intros Hin'. split; [|by right]. intros <-. done.
  - intros p' t' [_ Hp']%lookup_delete_Some. eauto.
  - intros p1 p2 t1 t2 [_ H1]%lookup_delete_Some [_ H2]%lookup_delete_Some. eauto.
  - done.
Qed.

Lemma cancel_active id t out q :
  inv out q → heap q !! timer_ id = Some t → (timer_ id, seq_ id) ∈ activeTimers_ q →
  cancelInLoop id q = Ok (cancelled (timer_ id) t q).
Proof.
  intros Hinv Hp Hin. destruct (active_inv _ _ _ _ Hinv Hin) as (t' & Ht' & Hseq & He).
  rewrite Hp in Ht'. injection Ht' as <-.
  pose proof (cancelled_inv _ _ _ _ Hinv Hp He) as Hi'. unfold cancelInLoop.
  rewrite (inv_sizes _ _ Hinv). cbn. rewrite decide_True by done. unfold get. rewrite Hp.
  cbn [mbind res_bind].
  destruct (set_erase_spec (expiration_ t, timer_ id) (timers_ q)) as (ts & -> & _ & ->).
  { apply sorted_NoDup, Hinv. }
  { done. }
  cbn. pose proof (inv_sizes _ _ Hi') as Hsz. unfold cancelled in *. rewrite Hseq in *.
  by rewrite Hsz.
Qed.

Lemma cancel_inactive id out q :
  inv out q → (timer_ id, seq_ id) ∉ activeTimers_ q →
  cancelInLoop id q = Ok (if callingExpiredTimers_ q
    then with_canceling ({[(timer_ id, seq_ id)]} ∪ cancelingTimers_ q) q else q).
Proof.
  intros Hinv Hin. pose proof (inv_sizes _ _ Hinv) as Hsz. unfold cancelInLoop. rewrite Hsz. cbn.
  rewrite decide_False by done. destruct (callingExpiredTimers_ q); cbn; [|by rewrite Hsz].
  unfold sizes_agree in *. cbn. by rewrite Hsz.
Qed.

(** What cancelling does to everything but the cancelled timer. *)
Lemma cancelInLoop_spec id out q :
  inv out q →
  ∃ q', cancelInLoop id q = Ok q' ∧ inv out q' ∧ s_numCreated_ q' = s_numCreated_ q ∧
    callingExpiredTimers_ q' = callingExpiredTimers_ q ∧ ran q' = ran q ∧
    (∀ p, p ∈ out → heap q' !! p = heap q !! p) ∧
    cancelingTimers_ q ⊆ cancelingTimers_ q' ∧
    (armed_ok q → armed_ok q') ∧ (∀ n, armed_or_late n q → armed_or_late n q').
Proof.
  intros Hinv. destruct (decide ((timer_ id, seq_ id) ∈ activeTimers_ q)) as [Hin|Hin].
  - destruct (active_inv _ _ _ _ Hinv Hin) as (t & Ht & Hseq & He).
    exists (cancelled (timer_ id) t q). split; [by eapply cancel_active|].
    split; [by apply cancelled_inv|].
    assert (armed_ok q → armed_ok (cancelled (timer_ id) t q)) as Harm.
    { eapply armed_ok_filter; [apply Hinv|reflexivity|reflexivity]. }
    split_and!; try done; cbn.
    + intros p Hp. rewrite lookup_delete_ne; [done|]. intros <-.
      pose proof (inv_nodup _ _ Hinv) as (_ & Hdis & _)%NoDup_app. eapply Hdis; [|done].
      apply list_elem_of_fmap. by exists (expiration_ t, timer_ id).
    + intros n [?|Hl]; [left; auto|right]. cbn. unfold remove_entry. rewrite Forall_forall in *.
      intros x [_ Hx]%list_elem_of_filter. auto.
  - rewrite (cancel_inactive id out q) by done. eexists. split; [done|].
    destruct (callingExpiredTimers_ q) eqn:Ec; split_and!; try done.
    + by destruct Hinv.
    + cbn. apply union_subseteq_r.
Qed.

(** ** getExpired *)
Lemma expired_split now l :
  sorted l → (∀ e, e ∈ l → e.2 < UINTPTR_MAX) →
  let '(a, b) := split_lower_bound (now, UINTPTR_MAX) l in
  l = a ++ b ∧ Forall (λ e, e.1 ≤ now) a ∧ Forall (λ e, now < e.1) b.
Proof.
  intros Hs Hp. pose proof (split_lower_bound_spec (now, UINTPTR_MAX) l Hs) as H.
  destruct (split_lower_bound _ l) as [a b]. destruct H as (-> & Ha & Hb).
  split_and!; [done| |]; rewrite Forall_forall in *; intros e He.
  - specialize (Ha _ He). rewrite elt_spec in Ha. cbn in Ha. lia.
  - specialize (Hb _ He). rewrite elt_spec in Hb. cbn in Hb.
    specialize (Hp e). rewrite elem_of_app in Hp. specialize (Hp (or_intror He)). lia.
Qed.

(** Removing the expired timers from the active set, one by one. *)
Lemma erase_active_loop (l : list Entry) q s :
  NoDup (l.*2) → (∀ e, e ∈ l → ∃ t, heap q !! e.2 = Some t) →
  (∀ e, e ∈ l → at_of (heap q) e ∉ s) →
  activeTimers_ q = list_to_set (at_of (heap q) <$> l) ∪ s →
  mfold erase_active l q = Ok (with_sets (timers_ q) s q).
Proof.
  revert q. induction l as [|e l IH]; intros q Hnd Hl Hdis Ha.
  { cbn in *. rewrite union_empty_l_L in Ha. by destruct q; cbn in *; subst. }
  apply NoDup_cons in Hnd as [He Hnd]. fold (fmap (M := list) (@snd Z Z)) in *.
  destruct (Hl e ltac:(left)) as (t & Ht).
  assert (at_of (heap q) e = (e.2, sequence_ t)) as Hat by (unfold at_of, seq_of; by rewrite Ht).
  assert (erase_active e q = Ok (with_sets (timers_ q) (activeTimers_ q ∖ {[at_of (heap q) e]}) q))
    as Her.
  { unfold erase_active, get. rewrite Ht. cbn. rewrite <-Hat, bool_decide_true; [done|].
    rewrite Ha. cbn. set_solver. }
  cbn [mfold]. rewrite Her. cbn [mbind res_bind].
  rewrite IH; cbn [timers_ heap activeTimers_ with_sets]; [done|done| | |].
  - intros e' He'. apply Hl. by right.
  - intros e' He'. apply Hdis. by right.
  - rewrite Ha. cbn. specialize (Hdis e ltac:(left)).
    assert (at_of (heap q) e ∉ at_of (heap q) <$> l).
    { rewrite list_elem_of_fmap. intros (e' & Heq & Hin). apply He. apply list_elem_of_fmap.
      exists e'. split; [by injection Heq|done]. }
    apply set_eq. intros x. set_solver.
Qed.

Lemma getExpired_spec now out q :
  inv out q →
  ∃ expired q', getExpired now q = Ok (expired, q') ∧
    timers_ q = expired ++ timers_ q' ∧ inv (expired.*2 ++ out) q' ∧
    Forall (λ e, e.1 ≤ now) expired ∧ Forall (λ e, now < e.1) (timers_ q') ∧
    q' = with_sets (timers_ q') (activeTimers_ q') q.
Proof.
  intros Hinv. pose proof Hinv as [Hs Hnd He Ha Hd Ht Hq Hn].
  pose proof (expired_split now (timers_ q) Hs) as Hsp.
  destruct (split_lower_bound (now, UINTPTR_MAX) (timers_ q)) as [ex rest] eqn:Esp.
  destruct Hsp as (Heq & Hex & Hrest).
  { intros e Hin. destruct (He _ Hin) as (t & Hh & _). destruct (Ht _ _ Hh). lia. }
  set (s := list_to_set (at_of (heap q) <$> rest) : gset ActiveTimer).
  rewrite Heq in Hs, Hnd, He, Ha, Hd. rewrite fmap_app in Hnd, Hd.
  apply sorted_app in Hs as [Hs1 Hs2].
  assert (NoDup (ex.*2)) as Hnd1 by (rewrite <-app_assoc in Hnd; by apply NoDup_app in Hnd as [? _]).
  assert (rest.*2 ++ (ex.*2 ++ out) ≡ₚ (ex.*2 ++ rest.*2) ++ out) as Hperm.
  { rewrite !app_assoc. by rewrite (Permutation_app_comm rest.*2). }
  assert (inv (ex.*2 ++ out) (with_sets rest s q)) as Hinv'.
  { split; cbn; try done.
    - by rewrite Hperm.
    - intros e Hin. apply He, elem_of_app. by right.
    - intros p. rewrite Hd. by rewrite Hperm. }
  exists ex, (with_sets rest s q). cbn. split_and!; try done. unfold getExpired.
  rewrite (inv_sizes _ _ Hinv). cbn [assert_ mbind res_bind]. rewrite Esp.
  assert (match rest with [] => true | e :: _ => now <? e.1 end = true) as ->.
  { destruct rest; [done|]. apply Forall_cons in Hrest as [? _]. lia. }
  cbn [assert_ mbind res_bind].
  rewrite (erase_active_loop ex _ s); cbn [heap with_sets activeTimers_ timers_]; try done.
  - cbn [mbind res_bind]. pose proof (inv_sizes _ _ Hinv') as Hsz. unfold with_sets in *.
    cbn in *. by rewrite Hsz.
  - intros e Hin. destruct (He e) as (t & ? & _); [apply elem_of_app; by left|]. by exists t.
  - intros e Hin Hin'. unfold s in Hin'. rewrite elem_of_list_to_set, list_elem_of_fmap in Hin'.
    destruct Hin' as (e' & Heq' & Hin'). rewrite <-app_assoc in Hnd.
    apply NoDup_app in Hnd as (_ & Hdis & _). apply (Hdis e.2).
    + by apply list_elem_of_fmap_2.
    + apply elem_of_app. left. apply list_elem_of_fmap. exists e'. split; [by injection Heq'|done].
  - rewrite Ha, fmap_app, list_to_set_app_L. done.
Qed.

(** ** What the calls made by callbacks keep: [out] timers, the run log, the arming *)
Record frame (out : list Z) (q q' : queue) : Prop := mkFrame {
  fr_inv : inv out q';
  fr_calling : callingExpiredTimers_ q' = callingExpiredTimers_ q;
  fr_ran : ran q' = ran q;
  fr_heap : ∀ p, p ∈ out → heap q' !! p = heap q !! p;
  fr_canceling : cancelingTimers_ q ⊆ cancelingTimers_ q';
  fr_armed : armed_ok q → armed_ok q';
  fr_late : ∀ n, armed_or_late n q → armed_or_late n q'
}.

Lemma frame_refl out q : inv out q → frame out q q.
Proof. by split. Qed.

Lemma frame_trans out q1 q2 q3 : frame out q1 q2 → frame out q2 q3 → frame out q1 q3.
Proof.
  intros [] []. split; try done; try congruence; auto.
  - intros p Hp. rewrite fr_heap1 by done. auto.
  - by etrans.
Qed.

Definition action_ok (a : action) : Prop :=
  match a with
  | AddTimer _ when interval now => time_ok when ∧ interval_ok interval ∧ clock_ok now
  | Cancel _ => True
  end.

(** malloc returns an address that is not in use, while there are some left. *)
Definition alloc_fresh (alloc : gmap Z Timer → Z) : Prop :=
  ∀ h, Z.of_nat (size h) < 2 ^ 63 → h !! alloc h = None ∧ 0 < alloc h < UINTPTR_MAX.

(** There are no more live timers than timers were created. *)
Lemma heap_size out q : inv out q → Z.of_nat (size (heap q)) ≤ s_numCreated_ q.
Proof.
  intros Hinv. set (l := (λ pt : Z * Timer, sequence_ pt.2) <$> map_to_list (heap q)).
  assert (length l = size (heap q)) as <- by (unfold l; by rewrite length_fmap, length_map_to_list).
  assert (NoDup l) as Hnd.
  { apply NoDup_fmap_2_strong; [|apply NoDup_map_to_list].
    intros [p t] [p' t'] H1%elem_of_map_to_list H2%elem_of_map_to_list Hs. cbn in Hs.
    assert (p = p') as <- by (eapply (inv_seq _ _ Hinv); eauto). naive_solver. }
  assert (l ⊆+ seqZ 1 (s_numCreated_ q)) as Hsub%submseteq_length.
  { apply NoDup_submseteq; [done|]. intros x Hx. apply list_elem_of_fmap in Hx as ([p t] & -> & Hx).
    apply elem_of_map_to_list in Hx. apply elem_of_seqZ.
    destruct (inv_timer _ _ Hinv _ _ Hx) as (_ & _ & ?). cbn. lia. }
  rewrite length_seqZ in Hsub. pose proof (inv_num _ _ Hinv). lia.
Qed.

Section Alloc.
Context (alloc : gmap Z Timer → Z).
Context (alloc_ok : alloc_fresh alloc).

Lemma newTimer_spec cb when interval out q :
  inv out q → s_numCreated_ q + 1 < 2 ^ 63 → time_ok when → interval_ok interval →
  let p := alloc (heap q) in
  let t := mkTimer cb when interval (Ts.dlt (Ts.double_of_Z 0) interval) (s_numCreated_ q + 1) in
  let q' := mkQueue (<[p := t]> (heap q)) (s_numCreated_ q + 1) (timers_ q) (activeTimers_ q)
              (callingExpiredTimers_ q) (cancelingTimers_ q) (timerfd q) (ran q) in
  newTimer alloc cb when interval q = Ok (p, q') ∧ inv (p :: out) q'.
Proof.
  intros Hinv Hnum Hw Hi p t q'. pose proof Hinv as [Hs Hnd He Ha Hd Ht Hq Hn].
  destruct (alloc_ok (heap q)) as [Hf Hrange]; [pose proof (heap_size _ _ Hinv); lia|].
  fold p in Hf, Hrange. split.
  { unfold newTimer, Atomic.incrementAndGet. rewrite Atomic.addAndGet_spec; [done|lia|].
    unfold in_s. change (2 ^ (64 - 1)) with (2 ^ 63). lia. }
  assert (p ∉ (timers_ q).*2 ++ out) as Hout.
  { rewrite <-Hd, Hf. by intros [? ?]. }
  assert (∀ e, e ∈ timers_ q → p ≠ e.2) as Hne.
  { intros e Hin ->. apply Hout, elem_of_app. left. by apply list_elem_of_fmap_2. }
  split; cbn; try done.
  - rewrite <-Permutation_middle. by apply NoDup_cons.
  - intros e Hin. rewrite lookup_insert_ne by auto. auto.
  - rewrite Ha. f_equal. apply at_of_ext. intros e Hin. by rewrite lookup_insert_ne by auto.
  - intros p'. rewrite <-Permutation_middle, elem_of_cons, <-Hd, lookup_insert_is_Some. naive_solver.
  - intros p' t'. rewrite lookup_insert. case_decide; intros; simplify_eq.
    + split_and!; try done; cbn; lia.
    + destruct (Ht p' t') as (?&?&?); [done|]. split_and!; try done; lia.
  - intros p1 p2 t1 t2. rewrite !lookup_insert.
    do 2 case_decide; intros H1 H2 Hs12; simplify_eq; try done; eauto.
    + destruct (Ht _ _ H2) as (_ & _ & ?). cbn in *. lia.
    + destruct (Ht _ _ H1) as (_ & _ & ?). cbn in *. lia.
  - lia.
Qed.

Lemma addTimer_spec cb when interval now out q :
  inv out q → s_numCreated_ q + 1 < 2 ^ 63 → time_ok when → interval_ok interval → clock_ok now →
  let p := alloc (heap q) in
  ∃ q', addTimer alloc cb when interval now q = Ok (mkTimerId p (s_numCreated_ q + 1), q') ∧
    frame out q q' ∧ s_numCreated_ q' = s_numCreated_ q + 1 ∧
    timers_ q' ≡ₚ (when, p) :: timers_ q ∧ (p, s_numCreated_ q + 1) ∈ activeTimers_ q'.
Proof.
  intros Hinv Hnum Hw Hi Hnow p. destruct (newTimer_spec cb when interval out q) as [Hnew Hinv1]; try done.
  fold p in Hnew, Hinv1. set (t := mkTimer _ _ _ _ _) in *. set (q1 := mkQueue _ _ _ _ _ _ _ _) in *.
  assert (heap q1 !! p = Some t) as Hp by (cbn; by rewrite lookup_insert_eq).
  destruct (addTimerInLoop_spec p t now out q1 Hinv1 Hp Hnow)
    as (q' & Hadd & Hinv' & Hperm & Hh & Hnum' & Hcall & Hcan & Hran & Harm & Hlate).
  exists q'. unfold addTimer. rewrite Hnew. cbn [mbind res_bind]. rewrite Hadd. cbn [mbind res_bind].
  assert (get p q' = Ok t) as Hg by (unfold get; by rewrite Hh, Hp). rewrite Hg.
  split_and!; try done.
  - split; try done; [|by rewrite Hcan].
    intros p' Hp'. rewrite Hh. cbn. rewrite lookup_insert_ne; [done|]. intros ->.
    apply inv_nodup in Hinv1. apply NoDup_app in Hinv1 as (_ & _ & Hnd).
    by apply NoDup_cons in Hnd as [? _].
  - rewrite (inv_active _ _ Hinv'), Hperm. cbn. unfold at_of at 1, seq_of. cbn [snd fst].
    rewrite Hh, Hp. cbn. set_solver.
Qed.

Lemma act_spec a out q :
  inv out q → action_ok a → s_numCreated_ q + 1 < 2 ^ 63 →
  ∃ q', act alloc a q = Ok q' ∧ frame out q q' ∧ s_numCreated_ q' ≤ s_numCreated_ q + 1.
Proof.
  intros Hinv Ha Hnum. destruct a as [cb when interval now|id]; cbn [action_ok act] in *.
  - destruct Ha as (?&?&?). destruct (addTimer_spec cb when interval now out q)
      as (q' & Hadd & ? & ? & _); try done. rewrite Hadd. cbn. exists q'. split_and!; [done|done|lia].
  - destruct (cancelInLoop_spec id out q Hinv) as (q' & Hc & ? & ? & ? & ? & ? & ? & ? & ?).
    unfold cancel. rewrite Hc. exists q'. split_and!; [done|by split|lia].
Qed.

Lemma acts_spec as_ out q :
  inv out q → Forall action_ok as_ → s_numCreated_ q + zlen as_ < 2 ^ 63 →
  ∃ q', mfold (act alloc) as_ q = Ok q' ∧ frame out q q' ∧
        s_numCreated_ q' ≤ s_numCreated_ q + zlen as_.
Proof.
  revert q. induction as_ as [|a as_ IH]; intros q Hinv Has Hnum.
  { exists q. split_and!; [done|by apply frame_refl|cbn; lia]. }
  apply Forall_cons in Has as [Ha Has]. cbn [length] in Hnum.
  destruct (act_spec a out q) as (q1 & Hact & Hf1 & Hn1); [done|done|lia|].
  destruct (IH q1) as (q2 & Hrest & Hf2 & Hn2); [apply Hf1|done|lia|].
  exists q2. cbn [mfold]. rewrite Hact. cbn [mbind res_bind]. split_and!; [done| |cbn [length]; lia].
  by eapply frame_trans.
Qed.

(** A timer outside the queue that some call of the callback cancels is marked. *)
Lemma acts_cancel as_ out q q' id :
  inv out q → Forall action_ok as_ → s_numCreated_ q + zlen as_ < 2 ^ 63 →
  timer_ id ∈ out → callingExpiredTimers_ q = true → Cancel id ∈ as_ →
  mfold (act alloc) as_ q = Ok q' → (timer_ id, seq_ id) ∈ cancelingTimers_ q'.
Proof.
  intros Hinv Has Hnum Hid Hcall Hin. apply list_elem_of_split in Hin as (l1 & l2 & ->).
  rewrite mfold_app. apply Forall_app in Has as [Has1 [_ Has2]%Forall_cons].
  rewrite length_app in Hnum. cbn [length] in Hnum.
  destruct (acts_spec l1 out q) as (q1 & -> & Hf1 & Hn1); [done|done|lia|]. cbn [mbind res_bind mfold].
  assert ((timer_ id, seq_ id) ∉ activeTimers_ q1) as Hna.
  { intros Hact. destruct (active_inv _ _ _ _ (fr_inv _ _ _ Hf1) Hact) as (t & _ & _ & Hin).
    pose proof (inv_nodup _ _ (fr_inv _ _ _ Hf1)) as (_ & Hdis & _)%NoDup_app.
    eapply Hdis; [|exact Hid]. apply list_elem_of_fmap. by exists (expiration_ t, timer_ id). }
  cbn [act]. unfold cancel. rewrite (cancel_inactive id out q1) by (done || apply Hf1).
  rewrite (fr_calling _ _ _ Hf1), Hcall. cbn [mbind res_bind]. set (q2 := with_canceling _ _).
  destruct (acts_spec l2 out q2) as (q3 & -> & Hf3 & _); [|done| |].
  - by destruct (fr_inv _ _ _ Hf1).
  - unfold q2. cbn. lia.
  - intros [= <-]. apply (fr_canceling _ _ _ Hf3). cbn. set_solver.
Qed.

(** ** Running the expired timers *)
Context (script : Z → queue → list action) (B : Z).
(** Every callback makes at most [B] calls, with times and intervals in range. *)
Context (script_ok : ∀ cb q, Forall action_ok (script cb q) ∧ zlen (script cb q) ≤ B).

(** [frame] but for the run log. *)
Definition ran_frame (log : list ActiveTimer) (out : list Z) (q q' : queue) : Prop :=
  ran q' = ran q ++ log ∧ frame out (with_ran (ran q') q) q'.

Lemma run_spec p t out q :
  inv out q → heap q !! p = Some t → s_numCreated_ q + B < 2 ^ 63 →
  ∃ q', run alloc script p q = Ok q' ∧ ran_frame [(p, sequence_ t)] out q q' ∧
        s_numCreated_ q' ≤ s_numCreated_ q + B.
Proof.
  intros Hinv Hp Hnum. destruct (script_ok (callback_ t) q) as [Hok Hlen].
  destruct (acts_spec (script (callback_ t) q) out (with_ran (ran q ++ [(p, sequence_ t)]) q))
    as (q' & Hacts & Hf & Hn); [by destruct Hinv|done|cbn; lia|].
  exists q'. unfold run, get. rewrite Hp. cbn [mbind res_bind]. split_and!; [done| |cbn in Hn; lia].
  pose proof (fr_ran _ _ _ Hf) as Hr. cbn in Hr. split; [done|]. by rewrite Hr.
Qed.

Lemma ran_frame_trans l1 l2 out q1 q2 q3 :
  ran_frame l1 out q1 q2 → ran_frame l2 out q2 q3 → ran_frame (l1 ++ l2) out q1 q3.
Proof.
  intros [Hr1 Hf1] [Hr2 Hf2]. split; [by rewrite Hr2, Hr1, app_assoc|].
  destruct Hf1, Hf2. split; try done; cbn in *; try congruence.
  - intros p Hp. rewrite fr_heap1 by done. auto.
  - by etrans.
  - intros Ha. by apply fr_armed1, fr_armed0.
  - intros n Ha. by apply (fr_late1 n), (fr_late0 n).
Qed.

Lemma runs_spec (l : list Entry) out q :
  inv out q → (∀ e, e ∈ l → e.2 ∈ out) → s_numCreated_ q + B * zlen l < 2 ^ 63 → 0 ≤ B →
  ∃ q', mfold (λ (e : Entry) q, run alloc script e.2 q) l q = Ok q' ∧
        ran_frame (at_of (heap q) <$> l) out q q' ∧
        s_numCreated_ q' ≤ s_numCreated_ q + B * zlen l.
Proof.
  revert q. induction l as [|e l IH]; intros q Hinv Hl Hnum HB.
  { exists q. split_and!; [done| |cbn; lia]. split; [cbn; by rewrite app_nil_r|].
    cbn. destruct q. by apply frame_refl. }
  cbn [length] in Hnum. assert (e.2 ∈ out) as He by (apply Hl; by left).
  destruct (inv_out_live _ _ _ Hinv He) as (t & Ht).
  destruct (run_spec e.2 t out q) as (q1 & Hrun & Hf1 & Hn1); [done|done|lia|].
  pose proof Hf1 as [_ Hfr1].
  destruct (IH q1) as (q2 & Hrest & Hf2 & Hn2);
    [apply Hfr1|intros; apply Hl; by right|lia|done|].
  exists q2. cbn [mfold]. rewrite Hrun. cbn [mbind res_bind].
  split_and!; [done| |cbn [length]; lia].
  assert (at_of (heap q) <$> e :: l = [(e.2, sequence_ t)] ++ (at_of (heap q1) <$> l)) as ->.
  { cbn. f_equal; [unfold at_of, seq_of; by rewrite Ht|]. apply at_of_ext. intros e' Hin.
    symmetry. apply (fr_heap _ _ _ Hfr1). apply Hl. by right. }
  by eapply ran_frame_trans.
Qed.

(** A cancellation made by one of the callbacks is recorded. *)
Lemma runs_cancel (l : list Entry) out q q' e0 t0 id :
  inv out q → (∀ e, e ∈ l → e.2 ∈ out) → s_numCreated_ q + B * zlen l < 2 ^ 63 → 0 ≤ B →
  callingExpiredTimers_ q = true → e0 ∈ l → heap q !! e0.2 = Some t0 → timer_ id ∈ out →
  (∀ q, Cancel id ∈ script (callback_ t0) q) →
  mfold (λ (e : Entry) q, run alloc script e.2 q) l q = Ok q' →
  (timer_ id, seq_ id) ∈ cancelingTimers_ q'.
Proof.
  intros Hinv Hl Hnum HB Hcall Hin Ht0 Hid Hc. apply list_elem_of_split in Hin as (l1 & l2 & ->).
  rewrite length_app in Hnum. cbn [length] in Hnum. rewrite mfold_app.
  rewrite Nat2Z.inj_add, Nat2Z.inj_succ, Z.mul_add_distr_l, Z.mul_succ_r in Hnum.
  pose proof (Z.mul_nonneg_nonneg B (zlen l2) HB ltac:(lia)).
  destruct (runs_spec l1 out q) as (q1 & -> & [Hr1 Hf1] & Hn1);
    [done|intros; apply Hl, elem_of_app; by left|lia|done|].
  cbn [mbind res_bind mfold].
  assert (heap q1 !! e0.2 = Some t0) as Ht1.
  { rewrite (fr_heap _ _ _ Hf1); [done|]. apply Hl, elem_of_app. right. left. }
  destruct (script_ok (callback_ t0) q1) as [Hok Hlen].
  pose proof (fr_inv _ _ _ Hf1) as Hinv1. pose proof (fr_calling _ _ _ Hf1) as Hc1.
  destruct (run_spec e0.2 t0 out q1) as (q2 & Hrun & [_ Hf2] & Hn2); [done|done|lia|].
  rewrite Hrun. cbn [mbind res_bind]. unfold run, get in Hrun. rewrite Ht1 in Hrun.
  cbn [mbind res_bind] in Hrun.
  apply (acts_cancel _ out _ q2 id) in Hrun; [|by destruct Hinv1|done| |done|cbn in *; congruence|done].
  2:{ cbn [s_numCreated_ with_ran]. lia. }
  destruct (runs_spec l2 out q2) as (q3 & -> & [_ Hf3] & _);
    [apply Hf2|intros; apply Hl, elem_of_app; right; by right|lia|done|].
  intros [= <-]. by apply (fr_canceling _ _ _ Hf3).
Qed.
End Alloc.

(** ** reset *)

(** The entry with which a timer is put back, if it is. *)
Definition restarted (now : Z) (q : queue) (e : Entry) : option Entry :=
  t ← heap q !! e.2;
  if repeat_ t && bool_decide ((e.2, sequence_ t) ∉ cancelingTimers_ q) then
    match Ts.delta (interval_ t) with Ok d => Some (now + d, e.2) | Err _ => None end
  else None.

Lemma timers_restart_spec now t :
  timer_ok t → repeat_ t = true → clock_ok now →
  ∃ d, Ts.delta (interval_ t) = Ok d ∧ 0 ≤ d < 2 ^ 61 ∧
    restart now t = Ok (mkTimer (callback_ t) (now + d) (interval_ t) (repeat_ t) (sequence_ t)).
Proof.
  intros (Hexp & Hint & Hrep) Hr Hnow. rewrite Hrep in Hr. destruct (Hint Hr) as (d & Hd & Hrange).
  exists d. split_and!; try done; try lia. unfold restart. rewrite Hrep, Hr.
  rewrite (Ts.addTime_delta _ _ d); [done|done|]. cbn. unfold clock_ok in Hnow. unfold in_s.
  change (2 ^ (64 - 1)) with (4 * 2 ^ 61). lia.
Qed.

Lemma inv_set_timer p t t' out q :
  inv (p :: out) q → heap q !! p = Some t → sequence_ t' = sequence_ t → timer_ok t' →
  inv (p :: out) (with_heap (<[p := t']> (heap q)) q).
Proof.
  intros Hinv Hp Hseq Hok. pose proof Hinv as [Hs Hnd He Ha Hd Ht Hq Hn].
  assert (∀ e, e ∈ timers_ q → p ≠ e.2) as Hne.
  { intros e Hin Heq. apply NoDup_app in Hnd as (_ & Hdis & _). apply (Hdis p); [|by left].
    rewrite Heq. by apply list_elem_of_fmap_2. }
  split; cbn; try done.
  - intros e Hin. rewrite lookup_insert_ne by auto. auto.
  - rewrite Ha. f_equal. apply at_of_ext. intros e Hin. by rewrite lookup_insert_ne by auto.
  - intros p'. rewrite lookup_insert_is_Some, <-Hd. split; [|by intros; destruct (decide (p = p')); auto].
    intros [<-|[_ ?]]; [by eexists|done].
  - intros p' t0. rewrite lookup_insert. case_decide; intros; simplify_eq; [|eauto].
    destruct (Ht _ _ Hp) as (?&_&?). rewrite Hseq. done.
  - intros p1 p2 t1 t2. rewrite !lookup_insert.
    do 2 case_decide; intros H1 H2 Hs12; simplify_eq; try done; eauto.
    + symmetry. eapply Hq; [exact H2|exact Hp|congruence].
    + eapply Hq; [exact H1|exact Hp|congruence].
Qed.

Lemma inv_delete_out p out q :
  inv (p :: out) q → inv out (with_heap (delete p (heap q)) q).
Proof.
  intros [Hs Hnd He Ha Hd Ht Hq Hn].
  pose proof Hnd as Hnd'. rewrite <-Permutation_middle in Hnd'. apply NoDup_cons in Hnd' as [Hp Hnd'].
  assert (∀ e, e ∈ timers_ q → p ≠ e.2) as Hne.
  { intros e Hin ->. apply Hp, elem_of_app. left. by apply list_elem_of_fmap_2. }
  split; cbn; try done.
  - intros e Hin. rewrite lookup_delete_ne by auto. auto.
  - rewrite Ha. f_equal. apply at_of_ext. intros e Hin. by rewrite lookup_delete_ne by auto.
  - intros p'. rewrite lookup_delete_is_Some, Hd, <-Permutation_middle, elem_of_cons.
    split; [naive_solver|]. intros Hin. split; [|by right]. intros ->. done.
  - intros p' t [_ ?]%lookup_delete_Some. eauto.
  - intros p1 p2 t1 t2 [_ ?]%lookup_delete_Some [_ ?]%lookup_delete_Some. eauto.
Qed.

Lemma reset_one_spec now e out q :
  inv (e.2 :: out) q → clock_ok now →
  ∃ q', reset_one now e q = Ok q' ∧ inv out q' ∧
    timers_ q' ≡ₚ option_list (restarted now q e) ++ timers_ q ∧
    (∀ p, p ≠ e.2 → heap q' !! p = heap q !! p) ∧
    cancelingTimers_ q' = cancelingTimers_ q ∧ timerfd q' = timerfd q ∧ ran q' = ran q ∧
    callingExpiredTimers_ q' = callingExpiredTimers_ q ∧ s_numCreated_ q' = s_numCreated_ q ∧
    (restarted now q e = None → heap q' !! e.2 = None) ∧
    (∀ e', restarted now q e = Some e' → now ≤ e'.1).
Proof.
  intros Hinv Hnow. destruct (inv_out_live _ _ e.2 Hinv ltac:(left)) as (t & Ht).
  unfold reset_one, get, restarted. rewrite Ht. cbn [mbind res_bind option_bind].
  destruct (repeat_ t && bool_decide ((e.2, sequence_ t) ∉ cancelingTimers_ q)) eqn:E.
  - apply andb_true_iff in E as [Hr _].
    destruct (inv_timer _ _ Hinv _ _ Ht) as (_ & Hok & _).
    destruct (timers_restart_spec now t Hok Hr Hnow) as (d & Hd & Hrange & ->). cbn [mbind res_bind].
    set (t' := mkTimer _ _ _ _ _). set (q1 := with_heap (<[e.2 := t']> (heap q)) q).
    assert (inv (e.2 :: out) q1) as Hinv1.
    { eapply inv_set_timer; try done. destruct Hok as (_ & ? & ?). split_and!; try done.
      unfold time_ok, clock_ok in *. cbn. change (2 ^ 62) with (2 * 2 ^ 61). lia. }
    destruct (insert_spec e.2 t' out q1) as (ts & -> & Hperm & Hsts & Hi); [done|by cbn; rewrite lookup_insert_eq|].
    cbn [mbind res_bind]. eexists. split; [done|]. rewrite Hd. cbn [option_list].
    split_and!; try done.
    + intros p Hp. cbn. by rewrite lookup_insert_ne.
    + intros e' [= <-]. cbn. lia.
  - eexists. split; [done|]. split_and!; try done.
    + by apply inv_delete_out.
    + intros p Hp. cbn. by rewrite lookup_delete_ne.
    + intros _. cbn. by rewrite lookup_delete_eq.
Qed.

Lemma restarted_ext now q q' e :
  heap q' !! e.2 = heap q !! e.2 → cancelingTimers_ q' = cancelingTimers_ q →
  restarted now q' e = restarted now q e.
Proof. intros Hh Hc. unfold restarted. by rewrite Hh, Hc. Qed.

Lemma omap_restarted_ext now q q' (l : list Entry) :
  (∀ e, e ∈ l → heap q' !! e.2 = heap q !! e.2) → cancelingTimers_ q' = cancelingTimers_ q →
  omap (restarted now q') l = omap (restarted now q) l.
Proof.
  intros Hh Hc. induction l as [|e l IH]; [done|]. cbn.
  rewrite (restarted_ext now q q' e) by (done || (apply Hh; left)).
  destruct (restarted now q e); rewrite IH by (intros; apply Hh; by right); done.
Qed.

Lemma resets_spec now (l : list Entry) out q :
  inv (l.*2 ++ out) q → clock_ok now →
  ∃ q', mfold (reset_one now) l q = Ok q' ∧ inv out q' ∧
    timers_ q' ≡ₚ omap (restarted now q) l ++ timers_ q ∧
    cancelingTimers_ q' = cancelingTimers_ q ∧ timerfd q' = timerfd q ∧ ran q' = ran q ∧
    callingExpiredTimers_ q' = callingExpiredTimers_ q ∧ s_numCreated_ q' = s_numCreated_ q ∧
    (∀ p, p ∉ l.*2 → heap q' !! p = heap q !! p) ∧
    (∀ e, e ∈ l → restarted now q e = None → heap q' !! e.2 = None) ∧
    Forall (λ e, now ≤ e.1) (omap (restarted now q) l).
Proof.
  revert q. induction l as [|e l IH]; intros q Hinv Hnow.
  { exists q. split_and!; try done. intros e He. by apply elem_of_nil in He. }
  pose proof (inv_nodup _ _ Hinv) as (_ & _ & Hnd)%NoDup_app. cbn in Hnd.
  apply NoDup_cons in Hnd as [He Hnd]. rewrite elem_of_app in He.
  destruct (reset_one_spec now e (l.*2 ++ out) q Hinv Hnow)
    as (q1 & Hone & Hinv1 & Hp1 & Hh1 & Hc1 & Hf1 & Hr1 & Hcl1 & Hn1 & Hnone1 & Hge1).
  destruct (IH q1 Hinv1 Hnow)
    as (q2 & Hrest & Hinv2 & Hp2 & Hc2 & Hf2 & Hr2 & Hcl2 & Hn2 & Hh2 & Hnone2 & Hge2).
  assert (∀ e', e' ∈ l → e'.2 ≠ e.2) as Hne.
  { intros e' Hin Heq. apply He. left. rewrite <-Heq. by apply list_elem_of_fmap_2. }
  assert (omap (restarted now q1) l = omap (restarted now q) l) as Hom.
  { apply omap_restarted_ext; auto. }
  exists q2. cbn [mfold]. rewrite Hone. cbn [mbind res_bind]. rewrite Hom in Hp2, Hge2.
  assert (omap (restarted now q) (e :: l) =
          option_list (restarted now q e) ++ omap (restarted now q) l) as ->.
  { cbn. by destruct (restarted now q e). }
  split_and!; try congruence.
  - rewrite Hp2, Hp1, !app_assoc. apply Permutation_app_tail, Permutation_app_comm.
  - intros p Hp. cbn in Hp. apply not_elem_of_cons in Hp as [? ?]. rewrite Hh2 by done. auto.
  - intros e' [->|Hin]%elem_of_cons Hnone.
    + rewrite Hh2 by tauto. auto.
    + apply Hnone2; [done|]. rewrite (restarted_ext now q); auto.
  - apply Forall_app. split; [|done]. destruct (restarted now q e) as [e'|]; cbn; [|done].
    repeat constructor. auto.
Qed.

(** The first timer of a merged queue is due no later than the first of each part. *)
Lemma reset_spec expired now now2 out q :
  inv (expired.*2 ++ out) q → clock_ok now → clock_ok now2 → armed_or_late now q →
  ∃ q', reset expired now now2 q = Ok q' ∧ inv out q' ∧ armed_ok q' ∧
    timers_ q' ≡ₚ omap (restarted now q) expired ++ timers_ q ∧
    cancelingTimers_ q' = cancelingTimers_ q ∧ ran q' = ran q ∧
    callingExpiredTimers_ q' = callingExpiredTimers_ q ∧ s_numCreated_ q' = s_numCreated_ q ∧
    (∀ e, e ∈ expired → restarted now q e = None → heap q' !! e.2 = None).
Proof.
  intros Hinv Hnow Hnow2 Hlate.
  destruct (resets_spec now expired out q Hinv Hnow)
    as (q1 & Hres & Hinv1 & Hp1 & Hc1 & Hf1 & Hr1 & Hcl1 & Hn1 & _ & Hnone & Hge).
  unfold reset. rewrite Hres. cbn [mbind res_bind].
  destruct (timers_ q1) as [|e l] eqn:Et.
  { cbn. exists q1. rewrite Et. split_and!; try done. intros e l. by rewrite Et. }
  destruct (inv_entry _ _ Hinv1 e) as (t & Ht & Hexp); [rewrite Et; by left|].
  assert (get e.2 q1 = Ok t) as -> by (unfold get; by rewrite Ht). cbn [mbind res_bind].
  destruct (inv_timer _ _ Hinv1 _ _ Ht) as (_ & [Htime _] & _). rewrite Hexp in Htime |- *.
  unfold Ts.valid. cbn [Ts.microSecondsSinceEpoch_]. destruct (Z.gtb_spec e.1 0) as [Hpos|Hneg].
  - destruct (resetTimerfd_spec e.1 now2 q1) as (v & -> & Hv); [done..|].
    eexists. split; [done|]. split; [by apply inv_timerfd|]. split_and!; try done; [|by rewrite <-Et in Hp1].
    intros e' l' He'. cbn in He'. rewrite Et in He'. injection He' as <- <-.
    exists now2, v. split; [done|]. lia.
  - exists q1. split_and!; try done; [|by rewrite <-Et in Hp1].
    intros e' l' He'. rewrite Et in He'. injection He' as <- <-. rewrite Hf1.
    assert (e ∈ timers_ q) as Hin.
    { assert (e ∈ omap (restarted now q) expired ++ timers_ q) as Hin by (rewrite <-Hp1; by left).
      apply elem_of_app in Hin as [Hin|]; [|done]. rewrite Forall_forall in Hge.
      specialize (Hge _ Hin). unfold clock_ok in Hnow. lia. }
    destruct Hlate as [Ha|Hl].
    + destruct (timers_ q) as [|e0 l0] eqn:Eq; [by apply elem_of_nil in Hin|].
      destruct (Ha e0 l0 Eq) as (r & v & Hr & Hle). exists r, v. split; [done|].
      assert (e0.1 ≤ e.1); [|lia]. eapply sorted_head_min; [|exact Hin].
      rewrite <-Eq. apply (inv_sorted _ _ Hinv).
    + rewrite Forall_forall in Hl. specialize (Hl _ Hin). unfold clock_ok in Hnow. lia.
Qed.

(** ** handleRead *)
Section HandleRead.
Context (alloc : gmap Z Timer → Z) (script : Z → queue → list action) (B : Z).
Context (alloc_ok : alloc_fresh alloc).
Context (script_ok : ∀ cb q, Forall action_ok (script cb q) ∧ zlen (script cb q) ≤ B).

Definition due (now : Z) (q : queue) : list Entry := filter (λ e, e.1 ≤ now) (timers_ q).

Lemma due_prefix now (a b : list Entry) :
  Forall (λ e, e.1 ≤ now) a → Forall (λ e, now < e.1) b → filter (λ e, e.1 ≤ now) (a ++ b) = a.
Proof.
  intros Ha Hb. rewrite filter_app. induction Ha as [|x a Hx Ha IH].
  - cbn. induction Hb as [|y b Hy Hb IH]; [done|]. rewrite filter_cons_False by lia. done.
  - rewrite filter_cons_True by done. cbn. by rewrite IH.
Qed.

Lemma timers_handleRead_spec now now2 q :
  inv [] q → 0 ≤ B → clock_ok now → clock_ok now2 →
  s_numCreated_ q + B * zlen (timers_ q) < 2 ^ 63 →
  ∃ q', handleRead alloc script now now2 q = Ok q' ∧ inv [] q' ∧ armed_ok q' ∧
    ran q' = ran q ++ (at_of (heap q) <$> due now q) ∧
    callingExpiredTimers_ q' = false ∧
    s_numCreated_ q' ≤ s_numCreated_ q + B * zlen (timers_ q) ∧
    (∀ e t, e ∈ due now q → heap q !! e.2 = Some t →
       if repeat_ t && bool_decide ((e.2, sequence_ t) ∉ cancelingTimers_ q')
       then ∃ d, Ts.delta (interval_ t) = Ok d ∧ (now + d, e.2) ∈ timers_ q'
       else heap q' !! e.2 = None) ∧
    ∃ q2 q3, mfold (λ (e : Entry) q, run alloc script e.2 q) (due now q) q2 = Ok q3 ∧
      inv ((due now q).*2) q2 ∧ callingExpiredTimers_ q2 = true ∧ heap q2 = heap q ∧
      s_numCreated_ q2 = s_numCreated_ q ∧ cancelingTimers_ q' = cancelingTimers_ q3.
Proof.
  intros Hinv HB Hnow Hnow2 Hnum.
  destruct (getExpired_spec now [] (readTimerfd q)) as (ex & q1 & Hex & Hsplit & Hinv1 & Hle & Hgt & Hq1).
  { by apply inv_timerfd. }
  cbn in Hsplit. assert (due now q = ex) as Hdue by (unfold due; rewrite Hsplit; by apply due_prefix).
  assert (heap q1 = heap q ∧ ran q1 = ran q ∧ s_numCreated_ q1 = s_numCreated_ q) as (Hh1 & Hr1 & Hn1)
    by (by rewrite Hq1).
  set (q2 := with_canceling ∅ (with_calling true q1)).
  assert (inv (ex.*2 ++ []) q2) as Hinv2 by (by destruct Hinv1).
  assert (zlen ex ≤ zlen (timers_ q)) as Hlen by (rewrite Hsplit, length_app; lia).
  destruct (runs_spec alloc alloc_ok script B script_ok ex (ex.*2 ++ []) q2)
    as (q3 & Hruns & [Hran3 Hf3] & Hn3); [done| | |done|].
  { intros e Hin. rewrite app_nil_r. by apply list_elem_of_fmap_2. }
  { unfold q2. cbn. rewrite Hn1. nia. }
  set (q4 := with_calling false q3).
  assert (inv (ex.*2 ++ []) q4) as Hinv4 by (by destruct (fr_inv _ _ _ Hf3)).
  assert (armed_or_late now q4) as Hlate.
  { apply (fr_late _ _ _ Hf3 now). right. exact Hgt. }
  destruct (reset_spec ex now now2 [] q4 Hinv4 Hnow Hnow2 Hlate)
    as (q5 & Hres & Hinv5 & Harm5 & Hp5 & Hc5 & Hr5 & Hcl5 & Hn5 & Hnone5).
  exists q5. rewrite Hdue. split_and!; try done.
  - unfold handleRead. rewrite Hex. cbn [mbind res_bind]. fold q2. rewrite Hruns.
    cbn [mbind res_bind]. fold q4. done.
  - rewrite Hr5. cbn. rewrite Hran3. cbn. by rewrite Hh1, Hr1.
  - rewrite Hn5. cbn. unfold q2 in Hn3. cbn in Hn3. nia.
  - intros e t Hin Ht.
    assert (heap q4 !! e.2 = Some t) as Ht4.
    { cbn. rewrite (fr_heap _ _ _ Hf3); [cbn; by rewrite Hh1|]. rewrite app_nil_r.
      by apply list_elem_of_fmap_2. }
    assert (restarted now q4 e = if repeat_ t && bool_decide ((e.2, sequence_ t) ∉ cancelingTimers_ q5)
      then match Ts.delta (interval_ t) with Ok d => Some (now + d, e.2) | Err _ => None end
      else None) as Hrs by (unfold restarted; rewrite Ht4; cbn; by rewrite Hc5).
    destruct (repeat_ t && _) eqn:E; [|by apply Hnone5].
    apply andb_true_iff in E as [Hrep _].
    destruct (inv_timer _ _ Hinv _ _ Ht) as (_ & Hok & _).
    destruct (timers_restart_spec now t Hok Hrep Hnow) as (d & Hd & _ & _). exists d. split; [done|].
    rewrite Hd in Hrs. rewrite Hp5. apply elem_of_app. left. apply list_elem_of_omap. by exists e.
  - exists q2, q3. split_and!; try done. by rewrite <-(app_nil_r ex.*2).
Qed.

(** ** Events of the loop thread *)
Inductive event :=
  | EvAct (a : action)            (* addTimer or cancel *)
  | EvRead (now now2 : Z).        (* the timerfd became readable *)

Definition exec (ev : event) (q : queue) : res queue :=
  match ev with
  | EvAct a => act alloc a q
  | EvRead now now2 => handleRead alloc script now now2 q
  end.

Definition event_ok (ev : event) (q : queue) : Prop :=
  s_numCreated_ q + 1 + B * zlen (timers_ q) < 2 ^ 63 ∧
  match ev with EvAct a => action_ok a | EvRead now now2 => clock_ok now ∧ clock_ok now2 end.

Definition step (q q' : queue) : Prop := ∃ ev, event_ok ev q ∧ exec ev q = Ok q'.

Lemma timers_exec_spec ev q :
  0 ≤ B → inv [] q → armed_ok q → event_ok ev q → ∃ q', exec ev q = Ok q' ∧ inv [] q' ∧ armed_ok q'.
Proof.
  intros HB Hinv Harm [Hnum Hok]. destruct ev as [a|now now2]; cbn [exec].
  - destruct (act_spec alloc alloc_ok a [] q) as (q' & Hact & Hf & _); [done|done|lia|].
    exists q'. split_and!; [done|apply Hf|by apply Hf].
  - destruct Hok. destruct (timers_handleRead_spec now now2 q) as (q' & ? & ? & ? & _); try done; [lia|].
    by exists q'.
Qed.

Lemma timers_reachable_inv n q :
  0 ≤ B → 0 ≤ n < 2 ^ 63 → rtc step (new_queue n) q → inv [] q ∧ armed_ok q.
Proof.
  intros HB Hn. apply (rtc_invariant step (λ q, inv [] q ∧ armed_ok q)).
  - intros a b [Hinv Harm] (ev & Hok & He). destruct (timers_exec_spec ev a) as (q' & He' & ? & ?); try done.
    rewrite He in He'. by injection He' as ->.
  - split; [|done]. split; cbn; try done; try lia.
    + constructor.
    + constructor.
    + intros e He. by apply elem_of_nil in He.
    + intros p. rewrite lookup_empty, elem_of_nil. split; [by intros [? ?]|done].
Qed.
End HandleRead.

(** ** A concrete allocator: the lowest unused address *)
Definition alloc_first (h : gmap Z Timer) : Z :=
  default 1 (head (filter (λ p, h !! p = None) (seqZ 1 (Z.of_nat (size h) + 1)))).

Lemma alloc_first_fresh : alloc_fresh alloc_first.
Proof.
  intros h Hsz. unfold alloc_first.
  destruct (filter (λ p, h !! p = None) (seqZ 1 (Z.of_nat (size h) + 1))) as [|p l] eqn:E; cbn.
  - exfalso. assert (seqZ 1 (Z.of_nat (size h) + 1) ⊆+ (map_to_list h).*1) as Hsub.
    { apply NoDup_submseteq; [apply NoDup_seqZ|]. intros p Hp.
      destruct (h !! p) as [t|] eqn:Hh.
      - apply list_elem_of_fmap. exists (p, t). split; [done|]. by apply elem_of_map_to_list.
      - exfalso. eapply (filter_nil_not_elem_of _ _ p E); done. }
    apply submseteq_length in Hsub. rewrite length_fmap, length_map_to_list, length_seqZ in Hsub. lia.
  - assert (p ∈ filter (λ p, h !! p = None) (seqZ 1 (Z.of_nat (size h) + 1))) as Hp
      by (rewrite E; left).
    apply list_elem_of_filter in Hp as [Hn Hp]. apply elem_of_seqZ in Hp. split; [done|].
    unfold UINTPTR_MAX. change (2 ^ 64) with (2 * 2 ^ 63). lia.
Qed.

(** Callback 7 cancels timer 1 of sequence 1, callback 8 adds a one-shot timer, others do
    nothing. *)
Definition demo_script (cb : Z) (q : queue) : list action :=
  if cb =? 7 then [Cancel (mkTimerId 1 1)]
  else if cb =? 8 then [AddTimer 9 2000 (Ts.double_of_Z 0) 1500] else [].

Definition one_second : Ts.double := Ts.double_of_Z 1.

Lemma zero_interval_ok : interval_ok (Ts.double_of_Z 0).
Proof. intros H. vm_compute in H. discriminate. Qed.

Lemma one_second_ok : interval_ok one_second.
Proof. intros _. exists 1000000. vm_compute. by split_and!. Qed.

Lemma demo_script_ok cb q : Forall action_ok (demo_script cb q) ∧ zlen (demo_script cb q) ≤ 1.
Proof.
  unfold demo_script. destruct (cb =? 7), (cb =? 8); cbn; split; try lia; repeat constructor;
    try exact zero_interval_ok; vm_compute; done.
Qed.

(** Two timers: a repeating one that cancels itself and a one-shot one that adds another. *)
Definition demo_queue : queue :=
  match mfold (act alloc_first) [AddTimer 7 1000 one_second 500; AddTimer 8 1200 (Ts.double_of_Z 0) 500]
          (new_queue 0) with Ok q => q | Err _ => new_queue 0 end.

Lemma new_queue_inv n : 0 ≤ n < 2 ^ 63 → inv [] (new_queue n).
Proof.
  intros Hn. by destruct (timers_reachable_inv alloc_first demo_script 1 alloc_first_fresh demo_script_ok n (new_queue n)).
Qed.

Lemma demo_action1_ok : action_ok (AddTimer 7 1000 one_second 500).
Proof. repeat constructor; try exact one_second_ok; vm_compute; done. Qed.
Lemma demo_action2_ok : action_ok (AddTimer 8 1200 (Ts.double_of_Z 0) 500).
Proof. repeat constructor; try exact zero_interval_ok; vm_compute; done. Qed.

Lemma demo_queue_inv : inv [] demo_queue.
Proof.
  destruct (acts_spec alloc_first alloc_first_fresh
    [AddTimer 7 1000 one_second 500; AddTimer 8 1200 (Ts.double_of_Z 0) 500] [] (new_queue 0))
    as (q' & He & Hf & _).
  - by apply new_queue_inv.
  - constructor; [exact demo_action1_ok|]. constructor; [exact demo_action2_ok|constructor].
  - vm_compute. done.
  - unfold demo_queue. rewrite He. apply Hf.
Qed.

(** ** Theorems *)

(** C4: one expiry of the kernel's timer. Whatever the callbacks do with addTimer and cancel
    (cancelling themselves or each other included), handleRead runs without a failed
    assertion or access to a deleted timer, calls each timer that is due exactly once and
    in order of expiration, restarts exactly the repeating ones that were not cancelled
    meanwhile, one interval after [now], deletes the others, and leaves the queue consistent
    and the kernel's timer armed for the earliest one left. *)
Theorem handleRead_correct (alloc : gmap Z Timer → Z) (script : Z → queue → list action) (B : Z)
    (now now2 : Z) (q : queue) (Hal : alloc_fresh alloc)
    (Hsc : ∀ cb q, Forall action_ok (script cb q) ∧ zlen (script cb q) ≤ B)
    (Hinv : inv [] q) (HB : 0 ≤ B) (Hnow : clock_ok now) (Hnow2 : clock_ok now2)
    (Hnum : s_numCreated_ q + B * zlen (timers_ q) < 2 ^ 63) :
  ∃ q', handleRead alloc script now now2 q = Ok q' ∧ inv [] q' ∧ armed_ok q' ∧
    ran q' = ran q ++ (at_of (heap q) <$> due now q) ∧
    (∀ e t, e ∈ due now q → heap q !! e.2 = Some t →
       if repeat_ t && bool_decide ((e.2, sequence_ t) ∉ cancelingTimers_ q')
       then ∃ d, Ts.delta (interval_ t) = Ok d ∧ (now + d, e.2) ∈ timers_ q'
       else heap q' !! e.2 = None).
Proof.
  destruct (timers_handleRead_spec alloc script B Hal Hsc now now2 q) as (q' & ? & ? & ? & ? & _ & _ & ? & _);
    try done. by exists q'.
Qed.

Lemma handleRead_correct_witness :
  ∃ q', handleRead alloc_first demo_script 1500 1600 demo_queue = Ok q' ∧ inv [] q' ∧ armed_ok q' ∧
    ran q' = ran demo_queue ++ (at_of (heap demo_queue) <$> due 1500 demo_queue) ∧
    (∀ e t, e ∈ due 1500 demo_queue → heap demo_queue !! e.2 = Some t →
       if repeat_ t && bool_decide ((e.2, sequence_ t) ∉ cancelingTimers_ q')
       then ∃ d, Ts.delta (interval_ t) = Ok d ∧ (1500 + d, e.2) ∈ timers_ q'
       else heap q' !! e.2 = None).
Proof.
  apply (handleRead_correct alloc_first demo_script 1 1500 1600 demo_queue).
  - exact alloc_first_fresh.
  - exact demo_script_ok.
  - exact demo_queue_inv.
  - discriminate.
  - by vm_compute.
  - by vm_compute.
  - by vm_compute.
Defined.

(** C16: no timer is lost. In every state reached by adding and cancelling timers and by
    expiries of the kernel's timer, the two indexes of the queue agree, every live timer is
    in the queue (nothing leaks), the kernel's timer is armed for the earliest timer or
    sooner (at the latest 100 microseconds after it was set), and every further event is
    handled without a fault. *)
Theorem timer_queue_safe (alloc : gmap Z Timer → Z) (script : Z → queue → list action) (B n : Z)
    (q : queue) (Hal : alloc_fresh alloc)
    (Hsc : ∀ cb q, Forall action_ok (script cb q) ∧ zlen (script cb q) ≤ B)
    (HB : 0 ≤ B) (Hn : 0 ≤ n < 2 ^ 63) (Hr : rtc (step alloc script B) (new_queue n) q) :
  inv [] q ∧ armed_ok q ∧
  ∀ ev, event_ok B ev q → ∃ q', exec alloc script ev q = Ok q' ∧ inv [] q' ∧ armed_ok q'.
Proof.
  destruct (timers_reachable_inv alloc script B Hal Hsc n q HB Hn Hr) as [Hi Ha].
  split_and!; try done. intros ev Hev. by apply (timers_exec_spec alloc script B Hal Hsc).
Qed.

Lemma timer_queue_safe_witness :
  inv [] demo_queue ∧ armed_ok demo_queue ∧
  ∀ ev, event_ok 1 ev demo_queue →
    ∃ q', exec alloc_first demo_script ev demo_queue = Ok q' ∧ inv [] q' ∧ armed_ok q'.
Proof.
  apply (timer_queue_safe alloc_first demo_script 1 0 demo_queue).
  - exact alloc_first_fresh.
  - exact demo_script_ok.
  - discriminate.
  - by vm_compute.
  - eapply rtc_l.
    + exists (EvAct (AddTimer 7 1000 one_second 500)). split; [|vm_compute; reflexivity].
      split; [by vm_compute|exact demo_action1_ok].
    + eapply rtc_l; [|apply rtc_refl].
      exists (EvAct (AddTimer 8 1200 (Ts.double_of_Z 0) 500)). split; [|vm_compute; reflexivity].
      split; [by vm_compute|exact demo_action2_ok].
Defined.

(** Cancelling from a callback. A repeating timer that is due and that some callback of
    the same expiry cancels by its id (its own callback, typically) is not restarted: it is
    deleted, although it was no longer in the queue when the cancellation was made. *)
Theorem cancel_in_callback (alloc : gmap Z Timer → Z) (script : Z → queue → list action) (B : Z)
    (now now2 : Z) (q : queue) (e e0 : Entry) (t t0 : Timer) (Hal : alloc_fresh alloc)
    (Hsc : ∀ cb q, Forall action_ok (script cb q) ∧ zlen (script cb q) ≤ B)
    (Hinv : inv [] q) (HB : 0 ≤ B) (Hnow : clock_ok now) (Hnow2 : clock_ok now2)
    (Hnum : s_numCreated_ q + B * zlen (timers_ q) < 2 ^ 63)
    (He : e ∈ due now q) (Ht : heap q !! e.2 = Some t)
    (He0 : e0 ∈ due now q) (Ht0 : heap q !! e0.2 = Some t0)
    (Hcancel : ∀ q, Cancel (mkTimerId e.2 (sequence_ t)) ∈ script (callback_ t0) q) :
  ∃ q', handleRead alloc script now now2 q = Ok q' ∧ heap q' !! e.2 = None.
Proof.
  destruct (timers_handleRead_spec alloc script B Hal Hsc now now2 q)
    as (q' & Hh & _ & _ & _ & _ & _ & Hafter & q2 & q3 & Hruns & Hinv2 & Hcall & Hh2 & Hn2 & Hc);
    try done.
  exists q'. split; [done|]. specialize (Hafter e t He Ht).
  assert ((e.2, sequence_ t) ∈ cancelingTimers_ q') as Hin.
  2:{ rewrite bool_decide_false in Hafter by auto. by rewrite andb_false_r in Hafter. }
  rewrite Hc. apply (runs_cancel alloc Hal script B Hsc (due now q) (due now q).*2 q2 q3 e0 t0
    (mkTimerId e.2 (sequence_ t))); try done.
  - intros e' Hin. by apply list_elem_of_fmap_2.
  - assert (zlen (due now q) ≤ zlen (timers_ q)).
    { pose proof (length_filter (λ e : Entry, e.1 ≤ now) (timers_ q)). unfold due. lia. }
    rewrite Hn2. nia.
  - by rewrite Hh2.
  - cbn. by apply (list_elem_of_fmap_2 snd).
Qed.

Lemma cancel_in_callback_witness :
  ∃ q', handleRead alloc_first demo_script 1500 1600 demo_queue = Ok q' ∧ heap q' !! 1 = None.
Proof.
  apply (cancel_in_callback alloc_first demo_script 1 1500 1600 demo_queue (1000, 1) (1000, 1)
    (mkTimer 7 1000 one_second true 1) (mkTimer 7 1000 one_second true 1)).
  - exact alloc_first_fresh.
  - exact demo_script_ok.
  - exact demo_queue_inv.
  - discriminate.
  - by vm_compute.
  - by vm_compute.
  - by vm_compute.
  - replace (due 1500 demo_queue) with [(1000, 1); (1200, 2)] by (vm_compute; reflexivity). left.
  - vm_compute. reflexivity.
  - replace (due 1500 demo_queue) with [(1000, 1); (1200, 2)] by (vm_compute; reflexivity). left.
  - vm_compute. reflexivity.
  - intros q. left.
Defined.

(** Cancel is exact. Cancelling an active timer outside an expiry removes that timer from
    both indexes and deletes it, and touches no other; an id whose timer has run, was
    cancelled, or whose address now belongs to another timer changes nothing. *)
Theorem cancel_exact (id : TimerId) (out : list Z) (q : queue) (Hinv : inv out q)
    (Hcall : callingExpiredTimers_ q = false) :
  ∃ q', cancelInLoop id q = Ok q' ∧ inv out q' ∧
    if decide ((timer_ id, seq_ id) ∈ activeTimers_ q)
    then heap q' = delete (timer_ id) (heap q) ∧
         timers_ q' = filter (λ e, e.2 ≠ timer_ id) (timers_ q) ∧
         activeTimers_ q' = activeTimers_ q ∖ {[(timer_ id, seq_ id)]}
    else q' = q.
Proof.
  case_decide as Hin.
  - destruct (active_inv _ _ _ _ Hinv Hin) as (t & Ht & Hseq & He).
    exists (cancelled (timer_ id) t q). split_and!; try done.
    + by eapply cancel_active.
    + by apply cancelled_inv.
    + cbn. rewrite (remove_entry_ptr _ (expiration_ t, timer_ id)); [done| |done].
      by pose proof (inv_nodup _ _ Hinv) as (? & _)%NoDup_app.
    + cbn. by rewrite Hseq.
  - rewrite (cancel_inactive id out q), Hcall by done. by exists q.
Qed.

Lemma cancel_exact_witness :
  ∃ q', cancelInLoop (mkTimerId 1 1) demo_queue = Ok q' ∧ inv [] q' ∧
    if decide ((1, 1) ∈ activeTimers_ demo_queue)
    then heap q' = delete 1 (heap demo_queue) ∧
         timers_ q' = filter (λ e, e.2 ≠ 1) (timers_ demo_queue) ∧
         activeTimers_ q' = activeTimers_ demo_queue ∖ {[(1, 1)]}
    else q' = demo_queue.
Proof.
  apply (cancel_exact (mkTimerId 1 1) [] demo_queue).
  - exact demo_queue_inv.
  - vm_compute. reflexivity.
Defined.

(** The relative time given to the kernel is at least 100 microseconds, is well formed,
    and ends at the expiration, or 100 microseconds from now when that is sooner. *)
Theorem howMuchTimeFromNow_correct (when now : Z) (Hr : in_s 64 (when - now)) :
  ∃ v, howMuchTimeFromNow when now = Ok v ∧ 0 ≤ tv_sec v ∧ 0 ≤ tv_nsec v < 1000000000 ∧
       deadline now v = Z.max when (now + 100) ∧ (tv_sec v, tv_nsec v) ≠ (0, 0).
Proof.
  destruct (howMuchTimeFromNow_spec when now Hr) as (v & Hv & H1 & H2 & H3).
  exists v. split_and!; try done; try lia. intros [= E1 E2]. unfold deadline in H3.
  rewrite E1, E2, Z.mul_0_l, Z.div_0_l in H3; lia.
Qed.

Lemma howMuchTimeFromNow_correct_witness :
  ∃ v, howMuchTimeFromNow 5 7 = Ok v ∧ 0 ≤ tv_sec v ∧ 0 ≤ tv_nsec v < 1000000000 ∧
       deadline 7 v = Z.max 5 (7 + 100) ∧ (tv_sec v, tv_nsec v) ≠ (0, 0).
Proof. apply (howMuchTimeFromNow_correct 5 7). by vm_compute. Defined.

(** AddTimer from another thread can read a deleted timer. The caller creates the timer,
    queues addTimerInLoop and then reads the timer's sequence number for the TimerId; if the
    loop thread inserts the one-shot timer and its expiry is handled before that read, the
    timer is already deleted. *)
Theorem addTimer_foreign_thread_race :
  let run := '(p, q) ← newTimer alloc_first 1 100 (Ts.double_of_Z 0) (new_queue 0);
             q ← addTimerInLoop p 50 q;
             q ← handleRead alloc_first demo_script 200 201 q;
             Ok (p, q) in
  is_ok run = true ∧ ('(p, q) ← run; get p q) = Err UseAfterFree.
Proof. vm_compute. split; reflexivity. Qed.

End TQ.
