(* ===== verification/EventLoop.v ===== *)
(** * EventLoop (net/event_loop.h, net/event_loop.cc)

    The loop thread and any number of other threads as a step relation. The loop thread
    moves through loop() by a program counter; its event handlers and functors are lists of
    calls (queueInLoop, runInLoop, quit) that run one at a time, so that other threads can
    act between any two of them. In another thread queueInLoop is two steps, the push under
    the mutex and the write to the eventfd: [inflight] counts the threads between the two.
    [count] is the eventfd's counter. [queued], [executed] are histories; [early] records
    that the loop's own thread queued a functor while loop() was not running. *)

From S2P Require Import Prelude.

Module Loop.

(** What a handler or functor does to its loop, in the loop thread. *)
Inductive call (F : Type) :=
  | CQueue (f : F)   (* queueInLoop *)
  | CRun (f : F)     (* runInLoop: called at once *)
  | CQuit.           (* quit *)
Arguments CQueue {F} f.
Arguments CRun {F} f.
Arguments CQuit {F}.

(** An active channel: the wakeup channel, or one whose callbacks make the given calls. *)
Inductive event (F : Type) :=
  | EvWakeup
  | EvChannel (cs : list (call F)).
Arguments EvWakeup {F}.
Arguments EvChannel {F} cs.

(** Where the loop thread is. *)
Inductive pc (F : Type) :=
  | Outside                                             (* not in loop() *)
  | While                                               (* at while (!quit_) *)
  | Polling                                             (* in poll() *)
  | Handling (evs : list (event F)) (todo : list (call F)) (* the for loop over activeChannels_ *)
  | PreSwap                                             (* doPendingFunctors, before the swap *)
  | Running (fs : list F) (todo : list (call F)).       (* doPendingFunctors, after the swap *)
Arguments Outside {F}.
Arguments While {F}.
Arguments Polling {F}.
Arguments Handling {F} evs todo.
Arguments PreSwap {F}.
Arguments Running {F} fs todo.

Record loop (F : Type) := mkLoop {
  looping_ : bool;
  quit_ : bool;
  eventHandling_ : bool;
  callingPendingFunctors_ : bool;
  iteration_ : Z;
  pendingFunctors_ : list F;
  count : Z;
  at_ : pc F;
  inflight : Z;
  queued : list F;
  executed : list F;
  early : bool
}.
Arguments mkLoop {F}.
Arguments looping_ {F}. Arguments quit_ {F}. Arguments eventHandling_ {F}.
Arguments callingPendingFunctors_ {F}. Arguments iteration_ {F}.
Arguments pendingFunctors_ {F}. Arguments count {F}. Arguments at_ {F}.
Arguments inflight {F}. Arguments queued {F}. Arguments executed {F}. Arguments early {F}.

Definition kPollTimeMs : Z := 10000.

Section Loop.
Context {F : Type} (body : F → list (call F)).
Local Abbreviation loop := (loop F).

Definition newLoop : loop := mkLoop false false false false 0 [] 0 Outside 0 [] [] false.

Definition set_pc (p : pc F) (s : loop) : loop :=
  mkLoop (looping_ s) (quit_ s) (eventHandling_ s) (callingPendingFunctors_ s) (iteration_ s)
    (pendingFunctors_ s) (count s) p (inflight s) (queued s) (executed s) (early s).
Definition set_flags (l q e c : bool) (s : loop) : loop :=
  mkLoop l q e c (iteration_ s) (pendingFunctors_ s) (count s) (at_ s) (inflight s)
    (queued s) (executed s) (early s).
Definition set_count (n i : Z) (s : loop) : loop :=
  mkLoop (looping_ s) (quit_ s) (eventHandling_ s) (callingPendingFunctors_ s) (iteration_ s)
    (pendingFunctors_ s) n (at_ s) i (queued s) (executed s) (early s).

(** wakeup(): writes 1 to the eventfd; the counter does not go beyond 2^64 - 2, a write that
    would do so fails and is ignored. *)
Definition wakeup (s : loop) : loop :=
  set_count (if count s + 1 <=? 2 ^ 64 - 2 then count s + 1 else count s) (inflight s) s.

(** handleRead(): a read of the eventfd resets its counter. *)
Definition handleRead (s : loop) : loop := set_count 0 (inflight s) s.

(** The push of queueInLoop, under the mutex. *)
Definition push (f : F) (s : loop) : loop :=
  mkLoop (looping_ s) (quit_ s) (eventHandling_ s) (callingPendingFunctors_ s) (iteration_ s)
    (pendingFunctors_ s ++ [f]) (count s) (at_ s) (inflight s) (queued s ++ [f]) (executed s)
    (early s).

(** queueSize(), under the mutex. *)
Definition queueSize (s : loop) : Z := zlen (pendingFunctors_ s).

(** Whether queueInLoop wakes the loop up. *)
Definition needs_wakeup (inLoopThread : bool) (s : loop) : bool :=
  negb inLoopThread || callingPendingFunctors_ s.

(** queueInLoop and quit called in the loop thread. *)
Definition queueInLoop (f : F) (s : loop) : loop :=
  let s := push f s in
  if needs_wakeup true s then wakeup s else s.
Definition quit (s : loop) : loop :=
  set_flags (looping_ s) true (eventHandling_ s) (callingPendingFunctors_ s) s.

(** One call of a handler or functor in the loop thread; runInLoop calls its functor at
    once, so the functor's own calls come first. *)
Definition do_call (c : call F) (todo : list (call F)) (s : loop) : list (call F) * loop :=
  match c with
  | CQueue f => (todo, queueInLoop f s)
  | CRun f => (body f ++ todo, s)
  | CQuit => (todo, quit s)
  end.

(** loop() starts: assert(!looping_) holds as the thread is outside. *)
Definition start (s : loop) : res loop :=
  _ ← assert_ (negb (looping_ s));
  Ok (set_pc While (set_flags true false (eventHandling_ s) (callingPendingFunctors_ s) s)).

(** doPendingFunctors: the swap under the mutex, and one functor. *)
Definition swap_functors (s : loop) : loop :=
  mkLoop (looping_ s) (quit_ s) (eventHandling_ s) (callingPendingFunctors_ s) (iteration_ s)
    [] (count s) (Running (pendingFunctors_ s) []) (inflight s) (queued s) (executed s) (early s).
Definition run_functor (f : F) (fs : list F) (s : loop) : loop :=
  mkLoop (looping_ s) (quit_ s) (eventHandling_ s) (callingPendingFunctors_ s) (iteration_ s)
    (pendingFunctors_ s) (count s) (Running fs (body f)) (inflight s) (queued s)
    (executed s ++ [f]) (early s).
Definition poll_returned (evs : list (event F)) (s : loop) : loop :=
  mkLoop (looping_ s) (quit_ s) true (callingPendingFunctors_ s) (iteration_ s + 1)
    (pendingFunctors_ s) (count s) (Handling evs []) (inflight s) (queued s) (executed s) (early s).

(** The next step of the loop thread inside loop(); [evs] is what poll returns when it is
    called. *)
Definition loop_step (evs : list (event F)) (s : loop) : option loop :=
  match at_ s with
  | Outside => None
  | While =>
      if negb (quit_ s) then Some (set_pc Polling s)
      else Some (set_pc Outside (set_flags false (quit_ s) (eventHandling_ s)
                                   (callingPendingFunctors_ s) s))
  | Polling => Some (poll_returned evs s)
  | Handling evs todo =>
      match todo with
      | c :: todo => let '(todo, s) := do_call c todo s in Some (set_pc (Handling evs todo) s)
      | [] =>
          match evs with
          | EvWakeup :: evs => Some (set_pc (Handling evs []) (handleRead s))
          | EvChannel cs :: evs => Some (set_pc (Handling evs cs) s)
          | [] => Some (set_pc PreSwap (set_flags (looping_ s) (quit_ s) false true s))
          end
      end
  | PreSwap => Some (swap_functors s)
  | Running fs todo =>
      match todo with
      | c :: todo => let '(todo, s) := do_call c todo s in Some (set_pc (Running fs todo) s)
      | [] =>
          match fs with
          | f :: fs => Some (run_functor f fs s)
          | [] => Some (set_pc While (set_flags (looping_ s) (quit_ s) (eventHandling_ s) false s))
          end
      end
  end.

(** What poll can return: level-triggered epoll reports the wakeup descriptor only when its
    counter is positive, and does not time out while it is. *)
Definition poll_ok (evs : list (event F)) (s : loop) : Prop :=
  at_ s = Polling → (EvWakeup ∈ evs → 0 < count s) ∧ (evs = [] → count s = 0).

(** The loop thread outside loop(). *)
Definition outside_queue (f : F) (s : loop) : loop :=
  let s := queueInLoop f s in
  mkLoop (looping_ s) (quit_ s) (eventHandling_ s) (callingPendingFunctors_ s) (iteration_ s)
    (pendingFunctors_ s) (count s) (at_ s) (inflight s) (queued s) (executed s) true.

(** Another thread: the push of queueInLoop, the store of quit, and the wakeup that follows
    either. *)
Definition other_push (f : F) (s : loop) : loop :=
  let s := push f s in set_count (count s) (inflight s + 1) s.
Definition other_quit (s : loop) : loop :=
  let s := quit s in set_count (count s) (inflight s + 1) s.
Definition other_wakeup (s : loop) : loop :=
  let s := wakeup s in set_count (count s) (inflight s - 1) s.

Inductive step : loop → loop → Prop :=
  | StepLoop evs s s' : poll_ok evs s → loop_step evs s = Some s' → step s s'
  | StepStart s s' : at_ s = Outside → start s = Ok s' → step s s'
  | StepOutsideQueue f s : at_ s = Outside → step s (outside_queue f s)
  | StepOtherPush f s : step s (other_push f s)
  | StepOtherQuit s : step s (other_quit s)
  | StepOtherWakeup s : 0 < inflight s → step s (other_wakeup s).

(** ** Invariants *)

(** Functors taken from the queue and not yet started. *)
Definition taken (s : loop) : list F := match at_ s with Running fs _ => fs | _ => [] end.

(** The loop thread will still swap the queue before it polls again. *)
Definition will_swap (s : loop) : Prop :=
  match at_ s with Handling _ _ | PreSwap => True | _ => False end.

Definition in_functors (p : pc F) : bool :=
  match p with PreSwap | Running _ _ => true | _ => false end.

Record inv (s : loop) : Prop := mkInv {
  inv_fifo : queued s = executed s ++ taken s ++ pendingFunctors_ s;
  inv_calling : callingPendingFunctors_ s = in_functors (at_ s);
  inv_looping : looping_ s = match at_ s with Outside => false | _ => true end;
  inv_handling : eventHandling_ s = match at_ s with Handling _ _ => true | _ => false end;
  inv_nonneg : 0 ≤ count s ∧ 0 ≤ inflight s;
  inv_wakeup : early s = false → pendingFunctors_ s ≠ [] →
    0 < count s ∨ 0 < inflight s ∨ will_swap s;
  inv_quit : quit_ s = true → at_ s = Polling → 0 < count s ∨ 0 < inflight s
}.

Lemma newLoop_inv : inv newLoop.
Proof. by split. Qed.

Lemma wakeup_count s : 0 ≤ count s → 0 < count (wakeup s).
Proof. intros. unfold wakeup. cbn. destruct (Z.leb_spec (count s + 1) (2 ^ 64 - 2)); lia. Qed.

Lemma wakeup_fields s :
  at_ (wakeup s) = at_ s ∧ pendingFunctors_ (wakeup s) = pendingFunctors_ s ∧
  queued (wakeup s) = queued s ∧ executed (wakeup s) = executed s ∧
  inflight (wakeup s) = inflight s ∧ early (wakeup s) = early s ∧ quit_ (wakeup s) = quit_ s ∧
  looping_ (wakeup s) = looping_ s ∧ eventHandling_ (wakeup s) = eventHandling_ s ∧
  callingPendingFunctors_ (wakeup s) = callingPendingFunctors_ s.
Proof. done. Qed.

(** The calls of a handler: the queue will be swapped later in this turn. *)
Lemma call_handling_inv c evs todo s :
  inv s → at_ s = Handling evs (c :: todo) →
  inv (set_pc (Handling evs (do_call c todo s).1) (do_call c todo s).2).
Proof.
  intros [Hf Hc Hl Hh Hn Hw Hq] Ha. unfold taken, will_swap in *. rewrite Ha in *.
  destruct c as [f|f|]; cbn in *; try (by split; cbn; auto).
  unfold queueInLoop, needs_wakeup. cbn. rewrite Hc. cbn.
  split; cbn; auto.
  - by rewrite Hf, app_assoc.
  - done.
Qed.

(** The calls of a functor: queueInLoop wakes the loop up for its next turn. *)
Lemma call_running_inv c fs todo s :
  inv s → at_ s = Running fs (c :: todo) →
  inv (set_pc (Running fs (do_call c todo s).1) (do_call c todo s).2).
Proof.
  intros [Hf Hc Hl Hh Hn Hw Hq] Ha. unfold taken, will_swap in *. rewrite Ha in *.
  destruct c as [f|f|]; cbn in *; try (by split; cbn; auto).
  unfold queueInLoop, needs_wakeup. cbn. rewrite Hc. cbn.
  pose proof (wakeup_count (push f s)) as Hwk. cbn in Hwk. destruct Hn as [Hn1 Hn2].
  split; cbn; auto.
  - by rewrite Hf, !app_assoc.
  - split; [|done]. destruct (count s + 1 <=? 18446744073709551614); lia.
Qed.

Ltac inv_case H :=
  destruct H as [Hf Hc Hl Hh [Hn1 Hn2] Hw Hq]; unfold taken, will_swap in *;
  match goal with E : at_ _ = _ |- _ => rewrite E in * end; split; cbn in *;
  first [by auto | congruence | intros; right; right; exact I |
         match goal with |- queued _ = _ => idtac | |- _ ++ _ = _ => idtac | _ => naive_solver end].

Lemma loop_step_inv evs s s' : inv s → loop_step evs s = Some s' → inv s'.
Proof.
  intros Hinv. unfold loop_step.
  destruct (at_ s) as [| | |evs' todo| |fs todo] eqn:E; [done|..].
  - destruct (quit_ s) eqn:Eq; cbn; intros Hs; injection Hs as <-; inv_case Hinv.
  - intros [= <-]. inv_case Hinv.
  - destruct todo as [|c todo].
    + destruct evs' as [|[|cs] evs']; intros [= <-]; inv_case Hinv.
    + pose proof (call_handling_inv c evs' todo s Hinv E) as H.
      destruct (do_call c todo s) as [todo' s1]. intros Hs. injection Hs as <-. exact H.
  - intros [= <-]. inv_case Hinv. by rewrite Hf, app_nil_r.
  - destruct todo as [|c todo].
    + destruct fs as [|f fs]; intros [= <-]; inv_case Hinv. by rewrite Hf, <-app_assoc.
    + pose proof (call_running_inv c fs todo s Hinv E) as H.
      destruct (do_call c todo s) as [todo' s1]. intros Hs. injection Hs as <-. exact H.
Qed.

Lemma any_step_inv s s' : inv s → step s s' → inv s'.
Proof.
  intros Hinv Hst. inversion Hst as [evs ? ? Hok Hs|? ? E Hs|f ? E|f ?|?|? Hi]; subst.
  - by eapply loop_step_inv.
  - unfold start in Hs. destruct (negb (looping_ s)); [|done]. injection Hs as <-.
    inv_case Hinv.
  - pose proof (inv_calling _ Hinv) as Hcall. rewrite E in Hcall. cbn in Hcall.
    unfold outside_queue, queueInLoop, needs_wakeup. cbn. rewrite Hcall. cbn.
    inv_case Hinv. by rewrite Hf, app_assoc.
  - destruct Hinv as [Hf Hc Hl Hh [Hn1 Hn2] Hw Hq]. unfold other_push.
    split; cbn; auto; [|lia|intros; right; left; lia|intros; right; lia].
    unfold taken in *. cbn. by rewrite Hf, !app_assoc.
  - destruct Hinv as [Hf Hc Hl Hh [Hn1 Hn2] Hw Hq]. unfold other_quit.
    split; cbn; auto; [lia|intros; right; left; lia|intros; right; lia].
  - destruct Hinv as [Hf Hc Hl Hh [Hn1 Hn2] Hw Hq].
    pose proof (wakeup_count s Hn1) as Hwk. unfold other_wakeup. cbn in Hwk.
    split; cbn in *; auto. lia.
Qed.

Lemma loop_reachable_inv s : rtc step newLoop s → inv s.
Proof. apply rtc_invariant; [exact any_step_inv|exact newLoop_inv]. Qed.

(** ** Progress of the loop thread *)

(** A step of the loop thread that waits for nothing: poll is not called with nothing to
    report. *)
Definition lstep (s s' : loop) : Prop :=
  ∃ evs, poll_ok evs s ∧ (at_ s = Polling → 0 < count s) ∧ loop_step evs s = Some s'.

(** A step of another thread. *)
Inductive ostep (s : loop) : loop → Prop :=
  | OtherPush f : ostep s (other_push f s)
  | OtherQuit : ostep s (other_quit s)
  | OtherWakeup : 0 < inflight s → ostep s (other_wakeup s).

Lemma ostep_step s s' : ostep s s' → step s s'.
Proof. intros []; by constructor. Qed.

(** Functors call each other through runInLoop without going round in circles. *)
Context (rank : F → nat).
Definition call_rank (c : call F) : nat := match c with CRun f => S (rank f) | _ => 0%nat end.
Definition terminating : Prop := ∀ f, Forall (λ c, (call_rank c ≤ rank f)%nat) (body f).

(** What holds on the way through one turn: iteration [n], quit_ if [q], and the functors
    [fs] queued at its start, which are executed in the end. *)
Definition on_way (n : Z) (q : bool) (fs : list F) (s : loop) : Prop :=
  inv s ∧ (q = true → quit_ s = true) ∧
  match at_ s with
  | Polling => 0 < count s ∧ iteration_ s = n - 1 ∧ fs `prefix_of` queued s
  | Handling _ _ | PreSwap => iteration_ s = n ∧ fs `prefix_of` queued s
  | Running gs _ => iteration_ s = n ∧ fs `prefix_of` executed s ++ gs
  | While => iteration_ s = n ∧ fs `prefix_of` executed s
  | Outside => False
  end.

Section Turn.
Context (n : Z) (q : bool) (fs : list F).
Local Abbreviation way := (on_way n q fs).

Lemma way_other s s' : way s → ostep s s' → way s' ∧ at_ s' = at_ s.
Proof.
  intros (Hinv & Hq & Hw) Hs. pose proof (any_step_inv _ _ Hinv (ostep_step _ _ Hs)) as Hinv'.
  pose proof (inv_nonneg _ Hinv) as [Hc _].
  destruct Hs as [f| |Hi]; (split; [|done]); (split; [done|]); (split; [by auto|]); cbn in *.
  - destruct (at_ s); [done|done|..|done]; destruct_and?; split_and?; try done; by apply prefix_app_r.
  - by destruct (at_ s).
  - destruct (at_ s); [done|done| |done|done|done]. destruct Hw as (? & ? & ?). split_and!; try done.
    pose proof (wakeup_count s Hc) as Hx. unfold wakeup in Hx. cbn in Hx. exact Hx.
Qed.

(** The calls of handlers and functors keep the way. *)
Lemma way_call mk c todo s :
  (∃ evs, mk = Handling evs) ∨ (∃ gs, mk = Running gs) → at_ s = mk (c :: todo) → way s →
  way (set_pc (mk (do_call c todo s).1) (do_call c todo s).2).
Proof.
  intros Hmk Ha (Hinv & Hq & Hw). split; [|split].
  - destruct Hmk as [[evs ->]|[gs ->]]; [by apply call_handling_inv|by apply call_running_inv].
  - intros Eq. specialize (Hq Eq). destruct c; cbn; try done. unfold queueInLoop. by destruct (needs_wakeup _ _).
  - rewrite Ha in Hw. destruct Hmk as [[evs ->]|[gs ->]], Hw as [Hn Hp], c; cbn in *; try done;
      unfold queueInLoop; destruct (needs_wakeup _ _); cbn; split; try done; by apply prefix_app_r.
Qed.

Context (P : loop → Prop).
Local Abbreviation inev := (inevitably lstep ostep P).

(** One own step: the others leave the place in the loop alone. *)
Lemma inev_step s :
  way s → (∀ s1, way s1 → at_ s1 = at_ s → ∃ s2, lstep s1 s2) →
  (∀ s1 s2, way s1 → at_ s1 = at_ s → lstep s1 s2 → inev s2) → inev s.
Proof.
  intros Hw He Hs.
  assert (∀ s1, rtc ostep s s1 → way s1 ∧ at_ s1 = at_ s) as Hrt.
  { intros s1. apply (rtc_invariant ostep (λ s1, way s1 ∧ at_ s1 = at_ s)); [|done].
    intros a b [Ha Ea] Hab. destruct (way_other a b Ha Hab). split; [done|congruence]. }
  apply inevitably_later.
  - intros s1 [??]%Hrt. by apply He.
  - intros s1 s2 [??]%Hrt. by apply Hs.
Qed.

(** ... when that step is a function of the state. *)
Lemma inev_det s (f : loop → loop) :
  way s → at_ s ≠ Polling →
  (∀ s1, way s1 → at_ s1 = at_ s → loop_step [] s1 = Some (f s1)) →
  (∀ s1, way s1 → at_ s1 = at_ s → inev (f s1)) → inev s.
Proof.
  intros Hw Hp Hf Hi. apply inev_step; [done| |].
  - intros s1 Hw1 E. exists (f s1), []. split; [intros ?; congruence|]. split; [intros ?; congruence|auto].
  - intros s1 s2 Hw1 E (evs & _ & _ & Hs).
    assert (loop_step evs s1 = loop_step [] s1) as Hev.
    { unfold loop_step. destruct (at_ s1) eqn:E1; first [done|congruence]. }
    rewrite Hev, Hf in Hs by done. injection Hs as <-. auto.
Qed.

Lemma inev_calls (Ht : terminating) mk k :
  (∃ evs, mk = Handling evs) ∨ (∃ gs, mk = Running gs) →
  ∀ todo rest, Forall (λ c, (call_rank c ≤ k)%nat) todo →
  (∀ s, way s → at_ s = mk rest → inev s) → ∀ s, way s → at_ s = mk (todo ++ rest) → inev s.
Proof.
  intros Hmk. induction (lt_wf k) as [k _ IHk]. intros todo.
  induction todo as [|c todo IH]; intros rest Hr Hrest s Hw Ha; [by apply Hrest|].
  apply Forall_cons in Hr as [Hc Hr]. cbn [app] in Ha.
  apply (inev_det s (λ s, set_pc (mk (do_call c (todo ++ rest) s).1) (do_call c (todo ++ rest) s).2)); [done|..].
  - rewrite Ha. by destruct Hmk as [[? ->]|[? ->]].
  - intros s1 _ E. unfold loop_step. rewrite E, Ha. destruct Hmk as [[? ->]|[? ->]]; by destruct (do_call _ _ _).
  - intros s1 Hw1 E. rewrite Ha in E. pose proof (way_call mk c (todo ++ rest) s1 Hmk E Hw1) as Hw2.
    destruct c as [f|f|]; cbn [do_call fst snd call_rank] in *; try (by apply (IH rest)).
    apply (IHk (rank f) ltac:(lia) (body f) (todo ++ rest)); [apply Ht| |done|done]. by apply IH.
Qed.

Lemma ranks_bounded (todo : list (call F)) : ∃ k, Forall (λ c, (call_rank c ≤ k)%nat) todo.
Proof.
  induction todo as [|c todo [k IH]]; [by exists 0%nat|]. exists (call_rank c + k)%nat.
  constructor; [lia|]. eapply Forall_impl; [exact IH|]. cbn. lia.
Qed.

Lemma inev_any_calls (Ht : terminating) mk todo s :
  (∃ evs, mk = Handling evs) ∨ (∃ gs, mk = Running gs) →
  (∀ s, way s → at_ s = mk [] → inev s) → way s → at_ s = mk todo → inev s.
Proof.
  intros Hmk Hrest Hw Ha. destruct (ranks_bounded todo) as [k Hk].
  apply (inev_calls Ht mk k Hmk todo []); try done. by rewrite app_nil_r.
Qed.

Lemma inev_functors (Ht : terminating) :
  (∀ s, way s → at_ s = While → inev s) → ∀ gs s, way s → at_ s = Running gs [] → inev s.
Proof.
  intros Hend gs. induction gs as [|g gs IH]; intros s Hw Ha.
  - apply (inev_det s (λ s, set_pc While (set_flags (looping_ s) (quit_ s) (eventHandling_ s) false s)));
      [done|by rewrite Ha|intros s1 _ E; unfold loop_step; by rewrite E, Ha|].
    intros s1 Hw1 E. apply Hend; [|done]. destruct Hw1 as (Hinv & Hq & Hx). rewrite E, Ha in Hx.
    split; [|split; [done|]]; [|cbn; by rewrite app_nil_r in Hx].
    eapply (loop_step_inv [] s1); [done|]. unfold loop_step. by rewrite E, Ha.
  - apply (inev_det s (run_functor g gs)); [done|by rewrite Ha|intros s1 _ E; unfold loop_step; by rewrite E, Ha|].
    intros s1 Hw1 E. apply (inev_any_calls Ht (Running gs) (body g)); [by right; eexists| | |done].
    + intros s2 Hw2 Ha2. by apply IH.
    + destruct Hw1 as (Hinv & Hq & Hx). rewrite E, Ha in Hx. split; [|split; [done|]].
      * eapply (loop_step_inv [] s1); [done|]. unfold loop_step. by rewrite E, Ha.
      * cbn. by rewrite <-app_assoc.
Qed.

Lemma inev_swap (Ht : terminating) :
  (∀ s, way s → at_ s = While → inev s) → ∀ s, way s → at_ s = PreSwap → inev s.
Proof.
  intros Hend s Hw Ha.
  apply (inev_det s swap_functors); [done|by rewrite Ha|intros s1 _ E; unfold loop_step; by rewrite E, Ha|].
  intros s1 Hw1 E. apply (inev_functors Ht Hend (pendingFunctors_ s1)); [|done].
  destruct Hw1 as (Hinv & Hq & Hx). rewrite E, Ha in Hx. split; [|split; [done|]].
  - eapply (loop_step_inv [] s1); [done|]. unfold loop_step. by rewrite E, Ha.
  - cbn. pose proof (inv_fifo _ Hinv) as Hf. unfold taken in Hf. rewrite E, Ha in Hf. cbn in Hf.
    by rewrite <-Hf.
Qed.

Lemma inev_events (Ht : terminating) :
  (∀ s, way s → at_ s = While → inev s) → ∀ evs s, way s → at_ s = Handling evs [] → inev s.
Proof.
  intros Hend evs. induction evs as [|e evs IH]; intros s Hw Ha.
  - apply (inev_det s (λ s, set_pc PreSwap (set_flags (looping_ s) (quit_ s) false true s)));
      [done|by rewrite Ha|intros s1 _ E; unfold loop_step; by rewrite E, Ha|].
    intros s1 Hw1 E. apply inev_swap; [done|done| |done].
    destruct Hw1 as (Hinv & Hq & Hx). rewrite E, Ha in Hx. split; [|by split].
    eapply (loop_step_inv [] s1); [done|]. unfold loop_step. by rewrite E, Ha.
  - set (cs := match e with EvWakeup => [] | EvChannel cs => cs end).
    apply (inev_det s (λ s, set_pc (Handling evs cs) (match e with EvWakeup => handleRead s | _ => s end)));
      [done|by rewrite Ha|intros s1 _ E; unfold loop_step; rewrite E, Ha; by destruct e|].
    intros s1 Hw1 E. apply (inev_any_calls Ht (Handling evs) cs); [by left; eexists|done| |done].
    destruct Hw1 as (Hinv & Hq & Hx). rewrite E, Ha in Hx. split; [|by split; destruct e].
    eapply (loop_step_inv [] s1); [done|]. unfold loop_step. rewrite E, Ha. by destruct e.
Qed.

(** A poll that finds the wakeup descriptor readable starts a turn that gets through. *)
Lemma inev_turn (Ht : terminating) s :
  (∀ s, way s → at_ s = While → inev s) → way s → at_ s = Polling → inev s.
Proof.
  intros Hend Hw Ha. apply inev_step; [done| |].
  - intros s1 (_ & _ & Hx) E. rewrite E, Ha in Hx. destruct Hx as [Hc _]. exists (poll_returned [EvWakeup] s1), [EvWakeup].
    split; [intros _; by split|]. split; [by intros _|]. unfold loop_step. by rewrite E, Ha.
  - intros s1 s2 (Hinv & Hq & Hx) E (evs & Hok & _ & Hs).
    pose proof (loop_step_inv _ _ _ Hinv Hs) as Hinv2. unfold loop_step in Hs. rewrite E, Ha in Hs, Hx.
    injection Hs as <-. apply (inev_events Ht Hend evs); [|done]. split; [done|]. split; [done|].
    cbn. destruct Hx as (_ & ? & ?). by split; [lia|].
Qed.
End Turn.
End Loop.

(** ** Theorems *)

(** C3: no wakeup is lost. In every reachable interleaving of the loop thread with other
    threads, a loop that is about to block in poll while functors are pending has its eventfd
    readable or a thread about to write it, so poll returns; the only exception are functors
    that the loop's own thread queued while loop() was not running. *)
Theorem no_lost_wakeup {F : Type} (body : F → list (call F)) (s : loop F)
    (Hr : rtc (step body) newLoop s) (Hp : at_ s = Polling) (Hpend : pendingFunctors_ s ≠ [])
    (Hearly : early s = false) :
  0 < count s ∨ 0 < inflight s.
Proof.
  destruct (inv_wakeup _ (loop_reachable_inv body s Hr) Hearly Hpend) as [?|[?|Hw]]; auto.
  unfold will_swap in Hw. by rewrite Hp in Hw.
Qed.

(** C13: functors run exactly once and in the order they were queued, whatever the threads
    that queued them: at any time the functors queued so far are those executed, those taken
    by doPendingFunctors and not yet run, and those pending, in this order. *)
Theorem functors_fifo {F : Type} (body : F → list (call F)) (s : loop F)
    (Hr : rtc (step body) newLoop s) :
  queued s = executed s ++ taken s ++ pendingFunctors_ s ∧
  (callingPendingFunctors_ s = true ↔ in_functors (at_ s) = true) ∧
  (looping_ s = true ↔ at_ s ≠ Outside).
Proof.
  destruct (loop_reachable_inv body s Hr) as [Hf Hc Hl _ _ _ _]. split; [done|].
  rewrite Hc, Hl. split; [done|]. by destruct (at_ s).
Qed.

(** C14: queued functors are executed. From any reachable state in which the loop is polling,
    functors are pending and no other thread is in the middle of a call, the loop executes
    every functor queued so far within the one turn that is about to begin: poll returns
    without waiting for a timeout or another event, and whatever it reports, whatever the
    handlers and functors call, and whatever other threads queue and write in between, the
    loop comes round to its while with all of these functors executed. Functors terminate,
    and none was queued by the loop's own thread outside loop(). *)
Theorem queued_functors_run {F : Type} (body : F → list (call F)) (rank : F → nat) (s : loop F)
    (Ht : terminating body rank) (Hr : rtc (step body) newLoop s) (Hp : at_ s = Polling)
    (Hpend : pendingFunctors_ s ≠ []) (Hearly : early s = false) (Hin : inflight s = 0) :
  inevitably (lstep body) ostep
    (λ s', at_ s' = While ∧ iteration_ s' = iteration_ s + 1 ∧ queued s `prefix_of` executed s') s.
Proof.
  pose proof (loop_reachable_inv body s Hr) as Hinv.
  destruct (inv_wakeup _ Hinv Hearly Hpend) as [Hc|[Hc|Hw]]; [|lia|].
  - apply (inev_turn body rank (iteration_ s + 1) false (queued s) _ Ht); [|split; [done|]|done].
    + intros s' (_ & _ & Hx) Ha. apply inevitably_now. rewrite Ha in Hx. destruct Hx. by split_and!.
    + split; [done|]. rewrite Hp. split_and!; [done|lia|done].
  - unfold will_swap in Hw. by rewrite Hp in Hw.
Qed.

(** Quit stops the loop. From any reachable state in which the loop is polling, quit was
    called and no other thread is in the middle of a call, the loop thread leaves loop()
    without waiting, having executed every functor queued before, whatever poll reports and
    the other threads do. *)
Theorem quit_stops_loop {F : Type} (body : F → list (call F)) (rank : F → nat) (s : loop F)
    (Ht : terminating body rank) (Hr : rtc (step body) newLoop s) (Hp : at_ s = Polling)
    (Hq : quit_ s = true) (Hin : inflight s = 0) :
  inevitably (lstep body) ostep
    (λ s', at_ s' = Outside ∧ looping_ s' = false ∧ queued s `prefix_of` executed s') s.
Proof.
  pose proof (loop_reachable_inv body s Hr) as Hinv.
  destruct (inv_quit _ Hinv Hq Hp) as [Hc|Hc]; [|lia].
  apply (inev_turn body rank (iteration_ s + 1) true (queued s) _ Ht); [|split; [done|]|done].
  - intros s1 Hw Ha.
    apply (inev_det body (iteration_ s + 1) true (queued s) _ s1 (λ s, set_pc Outside
      (set_flags false (quit_ s) (eventHandling_ s) (callingPendingFunctors_ s) s))); [done|by rewrite Ha| |].
    + intros s2 (_ & Hq2 & _) E. unfold loop_step. by rewrite E, Ha, Hq2.
    + intros s2 (_ & Hq2 & Hx) E. apply inevitably_now. rewrite E, Ha in Hx. destruct Hx. by split_and!.
  - split; [done|]. rewrite Hp. split_and!; [done|lia|done].
Qed.

(** A program: functor 1 queues functor 2, functor 2 does nothing. *)
Definition demo_body (f : nat) : list (call nat) := if decide (f = 1%nat) then [CQueue 2%nat] else [].

Lemma demo_terminating : terminating demo_body (λ _, 0%nat).
Proof. intros f. unfold demo_body. case_decide; repeat constructor. Qed.

(** The loop starts polling, then another thread queues functor 1 and wakes the loop up. *)
Definition demo_loop : loop nat :=
  other_wakeup (other_push 1%nat (set_pc Polling (set_pc While (set_flags true false false false newLoop)))).

Lemma demo_reachable : rtc (step demo_body) newLoop demo_loop.
Proof.
  eapply rtc_l; [by eapply StepStart|]. eapply rtc_l; [by eapply (StepLoop _ [])|].
  eapply rtc_l; [apply (StepOtherPush _ 1%nat)|]. eapply rtc_l; [by apply StepOtherWakeup|].
  apply rtc_refl.
Qed.

Lemma no_lost_wakeup_witness : 0 < count demo_loop ∨ 0 < inflight demo_loop.
Proof. by apply (no_lost_wakeup demo_body demo_loop demo_reachable). Defined.

Lemma functors_fifo_witness :
  queued demo_loop = executed demo_loop ++ taken demo_loop ++ pendingFunctors_ demo_loop ∧
  (callingPendingFunctors_ demo_loop = true ↔ in_functors (at_ demo_loop) = true) ∧
  (looping_ demo_loop = true ↔ at_ demo_loop ≠ Outside).
Proof. exact (functors_fifo demo_body demo_loop demo_reachable). Defined.

Lemma queued_functors_run_witness :
  inevitably (lstep demo_body) ostep
    (λ s', at_ s' = While ∧ iteration_ s' = 1 ∧ [1%nat] `prefix_of` executed s') demo_loop.
Proof.
  by apply (queued_functors_run demo_body (λ _, 0%nat) demo_loop demo_terminating demo_reachable).
Defined.

Lemma quit_stops_loop_witness :
  inevitably (lstep demo_body) ostep
    (λ s', at_ s' = Outside ∧ looping_ s' = false ∧ [1%nat] `prefix_of` executed s')
    (other_wakeup (other_quit demo_loop)).
Proof.
  apply (quit_stops_loop demo_body (λ _, 0%nat) (other_wakeup (other_quit demo_loop)) demo_terminating);
    try reflexivity.
  eapply rtc_r; [eapply rtc_r; [exact demo_reachable|apply StepOtherQuit]|].
  by apply StepOtherWakeup.
Defined.

(** A functor queued before loop() waits for the poll. When the loop's own thread calls
    queueInLoop before loop(), nothing wakes the loop up: it reaches poll with the functor
    pending, the eventfd not readable and no thread about to write it, so the functor runs
    only after another event or the poll's timeout of 10 seconds. *)
Theorem queue_before_loop_waits {F : Type} (body : F → list (call F)) (f : F) :
  ∃ s, rtc (step body) newLoop s ∧ at_ s = Polling ∧ pendingFunctors_ s = [f] ∧
       count s = 0 ∧ inflight s = 0.
Proof.
  eexists. split.
  - eapply rtc_l; [by apply (StepOutsideQueue _ f)|]. eapply rtc_l; [by eapply StepStart|].
    eapply rtc_l; [by eapply (StepLoop _ [])|]. apply rtc_refl.
  - by split_and!.
Qed.
End Loop.
