(* ===== verification/LoopLife.v ===== *)
(** * The life of an EventLoop (net/event_loop.h, event_loop.cc, timer_queue.cc, epoller.cc)

    Construction, use and destruction of a loop with the objects it owns: the EPollPoller and
    its epoll instance, the TimerQueue with its timerfd and channel, the eventfd and its
    channel. The state of the poller and of every channel of the loop is a [Poll.reactor],
    whose user part is the timer queue; the rest are the loop's constants. Descriptors handed
    out by the kernel, addresses handed out by the allocator and readings of the clock are
    arguments. A process remembers each thread's [t_loopInThisThread] and the descriptors that
    were closed. *)

From S2P Require Import Prelude Poller Dispatch Timestamp TimerQueue.

Module LoopLife.

Import Poll.

(** ** The process *)
Record process := mkProcess {
  t_loopInThisThread : gmap Z ptr;   (* by thread id; no entry is NULL *)
  closed : list Z                    (* the arguments of ::close, in order *)
}.

Definition getEventLoopOfCurrentThread (tid : Z) (w : process) : option ptr :=
  t_loopInThisThread w !! tid.

Definition close (fd : Z) (w : process) : process :=
  mkProcess (t_loopInThisThread w) (closed w ++ [fd]).

(** ** The loop object *)
Record EventLoop (K : Type) := mkEventLoop {
  self : ptr;
  threadId_ : Z;
  epollfd_ : Z;            (* poller_->epollfd_ *)
  timerfd_ : Z;            (* timerQueue_->timerfd_ *)
  timerfdChannel_ : ptr;   (* &timerQueue_->timerfdChannel_ *)
  wakeupFd_ : Z;
  wakeupChannel_ : ptr;
  state : reactor K TQ.queue
}.
Arguments mkEventLoop {K}.
Arguments self {K}. Arguments threadId_ {K}. Arguments epollfd_ {K}. Arguments timerfd_ {K}.
Arguments timerfdChannel_ {K}. Arguments wakeupFd_ {K}. Arguments wakeupChannel_ {K}.
Arguments state {K}.

(** The two bound member functions, as callback codes. *)
Definition wakeup_handleRead : ptr := 1.
Definition timer_handleRead : ptr := 2.

(** What the system hands to the constructor. *)
Record given (K : Type) := mkGiven {
  g_epoll_create1 : Z * K;     (* the descriptor and its new instance *)
  g_timerfd_create : Z;
  g_eventfd : Z;
  g_self : ptr; g_timerChannel : ptr; g_wakeupChannel : ptr;   (* addresses *)
  g_numCreated : Z             (* Timer::s_numCreated_ *)
}.
Arguments mkGiven {K}.
Arguments g_epoll_create1 {K}. Arguments g_timerfd_create {K}. Arguments g_eventfd {K}.
Arguments g_self {K}. Arguments g_timerChannel {K}. Arguments g_wakeupChannel {K}.
Arguments g_numCreated {K}.

Section Life.
Context {K : Type} `{EpollKernel K}.
Local Abbreviation reactor := (reactor K TQ.queue).
Local Abbreviation EventLoop := (EventLoop K).

Definition with_state (s : reactor) (l : EventLoop) : EventLoop :=
  mkEventLoop (self l) (threadId_ l) (epollfd_ l) (timerfd_ l) (timerfdChannel_ l)
    (wakeupFd_ l) (wakeupChannel_ l) s.
Definition with_user (q : TQ.queue) (s : reactor) : reactor :=
  mkReactor (heap s) (channels_ s) (kern s) (events_size s) (loopEventHandling_ s)
    (activeChannels_ s) (currentActiveChannel_ s) (owners s) q.

Definition isInLoopThread (tid : Z) (l : EventLoop) : bool := threadId_ l =? tid.

(** The fatal message is commented out. *)
Definition abortNotInLoopThread : res () := Ok ().
Definition assertInLoopThread (tid : Z) (l : EventLoop) : res () :=
  if negb (isInLoopThread tid l) then abortNotInLoopThread else Ok ().

(** ** Construction *)

(** EPollPoller::EPollPoller: no channels, room for 16 events; a failing epoll_create1 is not
    acted upon. The loop is not handling events and has no active channel. *)
Definition newPoller (k : K) (q : TQ.queue) : reactor :=
  mkReactor ∅ ∅ k kInitEventListSize false [] None ∅ q.

(** A failing timerfd_create is not acted upon either. *)
Definition createTimerfd (timerfd : Z) : res Z := Ok timerfd.
Definition createEventfd (evtfd : Z) : res Z := if evtfd <? 0 then Err FatalAbort else Ok evtfd.

(** TimerQueue::TimerQueue, in the loop whose poller is [s]. *)
Definition newTimerQueue (timerfd : Z) (timerChannel : ptr) (s : reactor) : res (Z * reactor) :=
  timerfd ← createTimerfd timerfd;
  s ← channel_new timerChannel timerfd s;
  s ← put timerChannel (setReadCallback timer_handleRead) s;
  s ← enableReading timerChannel s;
  Ok (timerfd, s).

Definition newEventLoop (tid : Z) (g : given K) (w : process) : res (EventLoop * process) :=
  let s := newPoller (g_epoll_create1 g).2 (TQ.new_queue (g_numCreated g)) in
  '(timerfd, s) ← newTimerQueue (g_timerfd_create g) (g_timerChannel g) s;
  evtfd ← createEventfd (g_eventfd g);
  s ← channel_new (g_wakeupChannel g) evtfd s;
  let w := match getEventLoopOfCurrentThread tid w with
           | Some _ => w     (* LOG_FATAL is commented out *)
           | None => mkProcess (<[tid := g_self g]> (t_loopInThisThread w)) (closed w)
           end in
  s ← put (g_wakeupChannel g) (setReadCallback wakeup_handleRead) s;
  s ← enableReading (g_wakeupChannel g) s;
  Ok (mkEventLoop (g_self g) tid (g_epoll_create1 g).1 timerfd (g_timerChannel g) evtfd
        (g_wakeupChannel g) s, w).

(** ** Use *)
Section Use.
Context (alloc : gmap Z TQ.Timer → Z) (script : Z → TQ.queue → list TQ.action).

(** The timer interface; [now] is the clock when the caller reads it and [now2] when
    resetTimerfd does. All are called in the loop's thread. *)
Definition runAt (time cb now : Z) (l : EventLoop) : res (TQ.TimerId * EventLoop) :=
  '(id, q) ← TQ.addTimer alloc cb time (Ts.double_of_Z 0) now (user (state l));
  Ok (id, with_state (with_user q (state l)) l).
Definition runAfter (delay : Ts.double) (cb now now2 : Z) (l : EventLoop)
    : res (TQ.TimerId * EventLoop) :=
  time ← Ts.addTime (Ts.mkTimestamp now) delay;
  runAt (Ts.microSecondsSinceEpoch_ time) cb now2 l.
Definition runEvery (interval : Ts.double) (cb now now2 : Z) (l : EventLoop)
    : res (TQ.TimerId * EventLoop) :=
  time ← Ts.addTime (Ts.mkTimestamp now) interval;
  '(id, q) ← TQ.addTimer alloc cb (Ts.microSecondsSinceEpoch_ time) interval now2 (user (state l));
  Ok (id, with_state (with_user q (state l)) l).
Definition cancel (id : TQ.TimerId) (l : EventLoop) : res EventLoop :=
  q ← TQ.cancel id (user (state l)); Ok (with_state (with_user q (state l)) l).

(** hasChannel, in a thread [tid]; the channel belongs to this loop. *)
Definition loop_hasChannel (tid : Z) (p : ptr) (l : EventLoop) : res bool :=
  _ ← assertInLoopThread tid l;
  hasChannel p (state l).

(** The read callbacks of the loop's own channels: EventLoop::handleRead reads the eventfd,
    TimerQueue::handleRead runs the due timers. *)
Definition own_call (now now2 : Z) (f : ptr) (s : reactor) : res reactor :=
  if decide (f = timer_handleRead) then
    q ← TQ.handleRead alloc script now now2 (user s); Ok (with_user q s)
  else Ok s.

(** The loop handles an event of one of its own channels. *)
Definition handle_own (p : ptr) (now now2 : Z) (l : EventLoop) : res EventLoop :=
  s ← handleEvent (own_call now now2) p (with_current true (Some p) (state l));
  Ok (with_state (with_current false None s) l).
End Use.

(** ** Destruction *)

(** ~Channel in thread [tid]. *)
Definition channel_destructor (tid : Z) (l : EventLoop) (p : ptr) (s : reactor) : res reactor :=
  c ← get p s;
  _ ← assert_ (negb (eventHandling_ c));
  _ ← assert_ (negb (addedToLoop_ c));
  _ ← (if isInLoopThread tid l then
         has ← loop_hasChannel tid p (with_state s l); assert_ (negb has)
       else Ok ());
  Ok (with_heap (delete p (heap s)) s).

(** delete it->second *)
Definition delete_timer (e : TQ.Entry) (q : TQ.queue) : res TQ.queue :=
  _ ← TQ.get e.2 q; Ok (TQ.with_heap (delete e.2 (TQ.heap q)) q).

(** ~TimerQueue, then its member timerfdChannel_. *)
Definition TimerQueue_destructor (tid : Z) (l : EventLoop) (s : reactor) (w : process)
    : res (reactor * process) :=
  s ← disableAll (timerfdChannel_ l) s;
  s ← channel_remove (timerfdChannel_ l) s;
  let w := close (timerfd_ l) w in
  q ← mfold delete_timer (TQ.timers_ (user s)) (user s);
  s ← channel_destructor tid l (timerfdChannel_ l) (with_user q s);
  Ok (s, w).

(** ~EPollPoller *)
Definition EPollPoller_destructor (l : EventLoop) (w : process) : process := close (epollfd_ l) w.

(** ~EventLoop in thread [tid], then its members in the reverse of their order: the wakeup
    channel, the timer queue, the poller. *)
Definition EventLoop_destructor (tid : Z) (l : EventLoop) (w : process)
    : res (reactor * process) :=
  s ← disableAll (wakeupChannel_ l) (state l);
  s ← channel_remove (wakeupChannel_ l) s;
  let w := close (wakeupFd_ l) w in
  let w := mkProcess (delete tid (t_loopInThisThread w)) (closed w) in
  s ← channel_destructor tid l (wakeupChannel_ l) s;
  '(s, w) ← TimerQueue_destructor tid l s w;
  Ok (s, EPollPoller_destructor l w).

(** ** Runs *)
Section Runs.
Context (alloc : gmap Z TQ.Timer → Z) (script : Z → TQ.queue → list TQ.action).

(** What happens between construction and destruction. *)
Inductive op :=
  | OChannel (o : cop)                              (* a call on another channel, or a poll *)
  | ORunAt (time cb now : Z)
  | ORunAfter (delay : Ts.double) (cb now now2 : Z)
  | ORunEvery (interval : Ts.double) (cb now now2 : Z)
  | OCancel (id : TQ.TimerId)
  | OWakeup (now now2 : Z)                          (* the wakeup channel is handled *)
  | OTimer (now now2 : Z).                          (* the timer channel is handled *)

Definition exec (o : op) (l : EventLoop) : res EventLoop :=
  match o with
  | OChannel o => s ← exec_cop o (state l); Ok (with_state s l)
  | ORunAt time cb now => '(_, l) ← runAt alloc time cb now l; Ok l
  | ORunAfter delay cb now now2 => '(_, l) ← runAfter alloc delay cb now now2 l; Ok l
  | ORunEvery interval cb now now2 => '(_, l) ← runEvery alloc interval cb now now2 l; Ok l
  | OCancel id => cancel id l
  | OWakeup now now2 => handle_own alloc script (wakeupChannel_ l) now now2 l
  | OTimer now now2 => handle_own alloc script (timerfdChannel_ l) now now2 l
  end.

Context (B : Z).

(** The program uses the loop as documented: it does not touch the loop's own channels,
    obeys the rules of the poller with the others, and its times and counters are within
    range ([B] bounds the calls a timer's callback makes). *)
Definition room (l : EventLoop) : Prop :=
  TQ.s_numCreated_ (user (state l)) + 1 + B * zlen (TQ.timers_ (user (state l))) < 2 ^ 63.
Definition delay_ok (d : Ts.double) : Prop := ∃ us, Ts.delta d = Ok us ∧ - 2 ^ 61 ≤ us < 2 ^ 61.

Definition pre (o : op) (l : EventLoop) : Prop :=
  match o with
  | OChannel o => Dispatch.target o ≠ Some (wakeupChannel_ l) ∧ Dispatch.target o ≠ Some (timerfdChannel_ l) ∧
                  pre_cop o (state l)
  | ORunAt time _ now => TQ.time_ok time ∧ TQ.clock_ok now ∧ room l
  | ORunAfter d _ now now2 => delay_ok d ∧ TQ.clock_ok now ∧ TQ.clock_ok now2 ∧ room l
  | ORunEvery d _ now now2 =>
      delay_ok d ∧ TQ.interval_ok d ∧ TQ.clock_ok now ∧ TQ.clock_ok now2 ∧ room l
  | OCancel _ => True
  | OWakeup now now2 | OTimer now now2 => TQ.clock_ok now ∧ TQ.clock_ok now2 ∧ room l
  end.

Fixpoint permits (os : list op) (l : EventLoop) : Prop :=
  match os with
  | [] => True
  | o :: os' => pre o l ∧ ∀ l', exec o l = Ok l' → permits os' l'
  end.
End Runs.

(** ** The invariant of a loop *)

(** A channel of the loop: it listens for reading, with its callback. *)
Definition own_channel (fd : Z) (cb : ptr) (revents : Z) : Channel :=
  with_revents revents (with_index kAdded (with_addedToLoop true
    (with_events kReadEvent (setReadCallback cb (newChannel fd))))).

(** [out] are the timers created and not yet inserted (a foreign addTimer under way). *)
Record life (out : list Z) (l : EventLoop) : Prop := mkLife {
  life_poll : inv (state l);
  life_wakeup : ∃ r, heap (state l) !! wakeupChannel_ l =
                     Some (own_channel (wakeupFd_ l) wakeup_handleRead r);
  life_timer : ∃ r, heap (state l) !! timerfdChannel_ l =
                    Some (own_channel (timerfd_ l) timer_handleRead r);
  life_distinct : wakeupChannel_ l ≠ timerfdChannel_ l;
  life_idle : loopEventHandling_ (state l) = false;
  life_queue : TQ.inv out (user (state l))
}.

Context `{!EpollLaws K}.

(** A call on channel [p] leaves the other channels but for their reported events, the
    dispatch state and the timers. *)
Definition others_kept (p : option ptr) (s s' : reactor) : Prop :=
  loopEventHandling_ s' = loopEventHandling_ s ∧ user s' = user s ∧
  ∀ q c, Some q ≠ p → heap s !! q = Some c → ∃ r, heap s' !! q = Some (with_revents r c).

Lemma kept_eq (p : option ptr) (s s' : reactor) :
  loopEventHandling_ s' = loopEventHandling_ s → user s' = user s →
  (∀ q, Some q ≠ p → heap s' !! q = heap s !! q) → others_kept p s s'.
Proof.
  intros ? ? Hh. split_and!; try done. intros q c Hq Hc. exists (revents_ c).
  rewrite Hh, Hc by done. by destruct c.
Qed.

Lemma set_ready_revents ready (h : gmap ptr Channel) p c :
  h !! p = Some c → ∃ r, set_ready ready h !! p = Some (with_revents r c).
Proof.
  revert h c. induction ready as [|[ev q] ready IH]; intros h c Hp.
  { exists (revents_ c). cbn. rewrite Hp. by destruct c. }
  change (set_ready ((ev, q) :: ready) h) with (set_ready ready (alter (with_revents (i32 ev)) q h)).
  destruct (decide (q = p)) as [->|Hne].
  - destruct (IH (alter (with_revents (i32 ev)) p h) (with_revents (i32 ev) c)) as [r ->].
    + by rewrite lookup_alter_eq, Hp.
    + by exists r.
  - apply IH. by rewrite lookup_alter_ne.
Qed.

Lemma poll_kept ready s s' :
  inv s → wait_ok ready s → poll (Some ready) (with_active [] s) = Ok s' → others_kept None s s'.
Proof.
  intros Hinv Hw. unfold poll, fillActiveChannels.
  destruct (fill_loop_spec ready (with_active [] s)) as [Hf _]; [done| |].
  { intros ev p Hin. by eapply (ready_live ready s). }
  destruct (0 <? zlen ready); [|by intros [= <-]; apply kept_eq].
  destruct (zlen ready <=? _); cbn [assert_ mbind res_bind]; [|done]. rewrite Hf.
  intros [= <-]. split_and!.
  - by destruct (_ =? _).
  - by destruct (_ =? _).
  - intros q c _ Hc. destruct (set_ready_revents ready (heap s) q c Hc) as [r Hr]. exists r.
    by destruct (_ =? _).
Qed.

Lemma exec_cop_kept o s s' :
  inv s → pre_cop o s → exec_cop o s = Ok s' → others_kept (Dispatch.target o) s s'.
Proof.
  intros Hinv Hpre.
  assert (∀ f p, updatable p s → set_and_update f p s = Ok s' → others_kept (Some p) s s') as Hup.
  { intros f p (c & Hc & Hn). destruct (set_and_update_spec f p c s Hinv Hc Hn) as (k & -> & _).
    intros [= <-]. apply kept_eq; try done. intros q Hq. cbn. rewrite lookup_insert_ne; congruence. }
  assert (∀ f p, is_Some (heap s !! p) → put p f s = Ok s' → others_kept (Some p) s s') as Hput.
  { intros f p [c Hc]. rewrite (put_Some _ _ _ _ Hc). intros [= <-]. apply kept_eq; try done.
    intros q Hq. cbn. rewrite lookup_insert_ne; congruence. }
  destruct o; cbn [exec_cop pre_cop Dispatch.target] in *; try (by apply Hup); try (by apply Hput).
  - intros [= <-]. apply kept_eq; try done. intros q Hq. cbn. rewrite lookup_insert_ne; congruence.
  - destruct Hpre as (c & Hc & He & Hi & Hm). pose proof Hinv as (HA & HB & _).
    destruct (HB _ _ Hc) as [[? _]|[Hmap _]]; [done|].
    destruct (inv_index _ _ _ Hinv Hc) as [?|Hi']; [done|].
    rewrite (channel_remove_run p c s) by done. intros [= <-]. apply kept_eq; try done.
    intros q Hq. cbn. rewrite lookup_insert_ne; congruence.
  - destruct Hpre as (c & Hc & He & Hi). destruct (channel_delete_spec p c s) as [-> _]; try done.
    intros [= <-]. apply kept_eq; try done. intros q Hq. cbn. rewrite lookup_delete_ne; congruence.
  - by apply poll_kept.
Qed.

(** ** Construction establishes the invariant *)

(** The kernel gave three descriptors and an empty epoll instance that accepts them, the
    allocator two addresses. *)
Definition given_ok (g : given K) : Prop :=
  interest (g_epoll_create1 g).2 = ∅ ∧
  pollable (g_epoll_create1 g).2 (g_timerfd_create g) ∧
  pollable (g_epoll_create1 g).2 (g_eventfd g) ∧ 0 ≤ g_eventfd g ∧
  g_timerfd_create g ≠ g_eventfd g ∧ g_timerChannel g ≠ g_wakeupChannel g ∧
  0 ≤ g_numCreated g < 2 ^ 63.

(** Which descriptors epoll accepts does not depend on the interest list. *)
Definition same_fds (s s' : reactor) : Prop :=
  ∀ fd, pollable (kern s') fd ↔ pollable (kern s) fd.

Lemma put_fds p f (s s' : reactor) : put p f s = Ok s' → same_fds s s'.
Proof. unfold put, get. destruct (heap s !! p); cbn; [|done]. by intros [= <-]. Qed.

Lemma update_fds o p (s s' : reactor) : update o p s = Ok s' → same_fds s s'.
Proof.
  unfold update, get. destruct (heap s !! p) as [c|]; cbn; [|done]. intros Hu fd.
  pose proof (ctl_pollable (kern s) o (fd_ c) (events_ c, p) fd) as Hp.
  destruct (epoll_ctl _ _ _ _). by injection Hu as <-.
Qed.

Lemma updateChannel_fds p (s s' : reactor) : updateChannel p s = Ok s' → same_fds s s'.
Proof.
  unfold updateChannel. intros (c & _ & Hu)%bind_Ok. destruct (_ || _).
  - apply bind_Ok in Hu as (s1 & H1 & (s2 & H2%put_fds & Hu%update_fds)%bind_Ok).
    assert (kern s1 = kern s) as E1.
    { destruct (_ =? _); apply bind_Ok in H1 as (_ & _ & H1); [by injection H1 as <-|].
      apply bind_Ok in H1 as (_ & _ & H1). by injection H1 as <-. }
    intros fd. rewrite (Hu fd), (H2 fd). by rewrite E1.
  - do 3 apply bind_Ok in Hu as (_ & _ & Hu). destruct (isNoneEvent c); [|by apply update_fds in Hu].
    apply bind_Ok in Hu as (s1 & H1%update_fds & Hu%put_fds). intros fd. by rewrite (Hu fd), (H1 fd).
Qed.

Lemma enableReading_fds p (s s' : reactor) : enableReading p s = Ok s' → same_fds s s'.
Proof.
  unfold enableReading, set_and_update, channel_update.
  intros (s1 & H1%put_fds & (s2 & H2%put_fds & Hu%updateChannel_fds)%bind_Ok)%bind_Ok fd.
  by rewrite (Hu fd), (H2 fd), (H1 fd).
Qed.

(** new Channel, setReadCallback, enableReading, at a fresh address and descriptor. *)
Lemma open_own p fd cb (s : reactor) :
  inv s → heap s !! p = None → pollable (kern s) fd → channels_ s !! fd = None →
  ∃ k, let s' := with_kern k (with_channels (<[fd := p]> (channels_ s))
                   (with_heap (<[p := own_channel fd cb 0]> (heap s)) s)) in
    (s ← channel_new p fd s; s ← put p (setReadCallback cb) s; enableReading p s) = Ok s' ∧
    inv s' ∧ same_fds s s'.
Proof.
  intros Hinv Hp Hpol Hch. cbn [channel_new mbind res_bind].
  set (s0 := with_heap _ s). assert (inv s0) as Hinv0 by (by apply inv_new).
  rewrite (put_Some _ _ s0 (newChannel fd)) by (cbn; by rewrite lookup_insert_eq).
  cbn [mbind res_bind]. set (s1 := with_heap _ s0).
  assert (inv s1) as Hinv1.
  { apply (inv_same s0 p (newChannel fd)); try done. cbn. by rewrite lookup_insert_eq. }
  destruct (set_and_update_spec (λ e, Z.lor e kReadEvent) p (setReadCallback cb (newChannel fd)) s1)
    as (k & He & Hi); [done|cbn; by rewrite lookup_insert_eq|done|].
  pose proof (enableReading_fds p s1 _ He) as Hfds.
  exists k. unfold enableReading. rewrite He. cbn in *. rewrite !insert_insert_eq in *.
  by split_and!.
Qed.

Lemma newPoller_inv k q : interest k = ∅ → inv (newPoller k q).
Proof. intros Hk. split_and!; try done. intros fd. cbn. by rewrite Hk, lookup_empty. Qed.

Lemma newEventLoop_spec tid g w :
  given_ok g →
  ∃ l, newEventLoop tid g w =
    Ok (l, match getEventLoopOfCurrentThread tid w with
           | Some _ => w
           | None => mkProcess (<[tid := g_self g]> (t_loopInThisThread w)) (closed w)
           end) ∧
    life [] l ∧ threadId_ l = tid ∧ self l = g_self g ∧ epollfd_ l = (g_epoll_create1 g).1 ∧
    timerfd_ l = g_timerfd_create g ∧ wakeupFd_ l = g_eventfd g ∧
    timerfdChannel_ l = g_timerChannel g ∧ wakeupChannel_ l = g_wakeupChannel g ∧
    heap (state l) =
      <[g_wakeupChannel g := own_channel (g_eventfd g) wakeup_handleRead 0]>
      {[g_timerChannel g := own_channel (g_timerfd_create g) timer_handleRead 0]}.
Proof.
  intros (Hk & Hpt & Hpw & Hev & Hfd & Hp & Hn). unfold newEventLoop, newTimerQueue, createTimerfd.
  set (s0 := newPoller _ _). assert (inv s0) as Hinv0 by (by apply newPoller_inv).
  destruct (open_own (g_timerChannel g) (g_timerfd_create g) timer_handleRead s0)
    as (k1 & E1 & Hinv1 & Hf1); try done.
  set (s1 := with_kern _ _) in *.
  destruct (open_own (g_wakeupChannel g) (g_eventfd g) wakeup_handleRead s1)
    as (k2 & E2 & Hinv2 & Hf2); try done.
  { cbn. by rewrite lookup_insert_ne, lookup_empty. }
  { by apply Hf1. }
  { cbn. by rewrite lookup_insert_ne, lookup_empty. }
  apply bind_Ok in E1 as (sa & Ea & (sb & Eb & Ec)%bind_Ok).
  apply bind_Ok in E2 as (sd & Ed & (se & Ee & Ef)%bind_Ok).
  cbn [mbind res_bind]. rewrite Ea. cbn [mbind res_bind]. rewrite Eb. cbn [mbind res_bind].
  rewrite Ec. cbn [mbind res_bind]. unfold createEventfd.
  rewrite (proj2 (Z.ltb_ge _ _) Hev). cbn [mbind res_bind]. rewrite Ed. cbn [mbind res_bind].
  rewrite Ee. cbn [mbind res_bind]. rewrite Ef. cbn [mbind res_bind].
  eexists. split; [reflexivity|]. split_and!; try done. split; cbn; try done.
  - exists 0. by rewrite lookup_insert_eq.
  - exists 0. by rewrite lookup_insert_ne, lookup_insert_eq by congruence.
  - by apply TQ.new_queue_inv.
Qed.

(** ** Use keeps the invariant *)
Section UseSpec.
Context (alloc : gmap Z TQ.Timer → Z) (Hal : TQ.alloc_fresh alloc).
Context (script : Z → TQ.queue → list TQ.action) (B : Z) (HB : 0 ≤ B).
Context (Hsc : ∀ cb q, Forall TQ.action_ok (script cb q) ∧ zlen (script cb q) ≤ B).

(** The constants of a loop never change. *)
Definition same_loop (l l' : EventLoop) : Prop := l' = with_state (state l') l.

Lemma inv_user q (s : reactor) : inv s → inv (with_user q s).
Proof. done. Qed.

Lemma life_with_queue out out' l q :
  life out l → TQ.inv out' q → life out' (with_state (with_user q (state l)) l).
Proof. intros [] Hq. by split. Qed.

Lemma runAt_spec time cb now l :
  life [] l → TQ.time_ok time → TQ.clock_ok now → room B l →
  ∃ id l', runAt alloc time cb now l = Ok (id, l') ∧ life [] l' ∧ same_loop l l' ∧
    TQ.timers_ (user (state l')) ≡ₚ (time, TQ.timer_ id) :: TQ.timers_ (user (state l)) ∧
    (TQ.timer_ id, TQ.seq_ id) ∈ TQ.activeTimers_ (user (state l')).
Proof.
  intros Hl Ht Hc Hr. unfold room in Hr.
  destruct (TQ.addTimer_spec alloc Hal cb time (Ts.double_of_Z 0) now [] (user (state l)))
    as (q & He & Hf & _ & Hp & Hin); try done; [apply Hl|nia|].
  unfold runAt. rewrite He. cbn [mbind res_bind]. eexists _, _. split_and!; try done.
  eapply life_with_queue; [done|apply Hf].
Qed.

Lemma addTime_ok now d :
  delay_ok d → TQ.clock_ok now →
  ∃ us, Ts.delta d = Ok us ∧ Ts.addTime (Ts.mkTimestamp now) d = Ok (Ts.mkTimestamp (now + us)) ∧
        TQ.time_ok (now + us).
Proof.
  intros (us & Hd & Hus) Hn. exists us. unfold TQ.clock_ok, TQ.time_ok in *.
  change (2 ^ 62) with (2 * 2 ^ 61). split_and!; try done; try lia.
  apply Ts.addTime_delta; [done|]. unfold in_s. cbn [Ts.microSecondsSinceEpoch_].
  change (2 ^ (64 - 1)) with (4 * 2 ^ 61). lia.
Qed.

(** runAfter and runEvery: the timer is due [delay] after the clock reading. *)
Lemma runAfter_spec d cb now now2 l :
  life [] l → delay_ok d → TQ.clock_ok now → TQ.clock_ok now2 → room B l →
  ∃ us id l', Ts.delta d = Ok us ∧ runAfter alloc d cb now now2 l = Ok (id, l') ∧ life [] l' ∧
    same_loop l l' ∧
    TQ.timers_ (user (state l')) ≡ₚ (now + us, TQ.timer_ id) :: TQ.timers_ (user (state l)).
Proof.
  intros Hl Hd Hn Hn2 Hr. destruct (addTime_ok now d Hd Hn) as (us & Hus & Ha & Ht).
  destruct (runAt_spec (now + us) cb now2 l) as (id & l' & He & Hl' & Hs & Hp & _); try done.
  exists us, id, l'. unfold runAfter. rewrite Ha. by split_and!.
Qed.

Lemma runEvery_spec d cb now now2 l :
  life [] l → delay_ok d → TQ.interval_ok d → TQ.clock_ok now → TQ.clock_ok now2 → room B l →
  ∃ us id l', Ts.delta d = Ok us ∧ runEvery alloc d cb now now2 l = Ok (id, l') ∧ life [] l' ∧
    same_loop l l' ∧
    TQ.timers_ (user (state l')) ≡ₚ (now + us, TQ.timer_ id) :: TQ.timers_ (user (state l)).
Proof.
  intros Hl Hd Hi Hn Hn2 Hr. destruct (addTime_ok now d Hd Hn) as (us & Hus & Ha & Ht).
  unfold room in Hr.
  destruct (TQ.addTimer_spec alloc Hal cb (now + us) d now2 [] (user (state l)))
    as (q & He & Hf & _ & Hp & _); try done; [apply Hl|nia|].
  unfold runEvery. rewrite Ha. cbn [mbind res_bind Ts.microSecondsSinceEpoch_]. rewrite He.
  eexists us, _, _. split_and!; try done. eapply life_with_queue; [done|apply Hf].
Qed.

Lemma cancel_spec id l :
  life [] l → ∃ l', cancel id l = Ok l' ∧ life [] l' ∧ same_loop l l'.
Proof.
  intros Hl. destruct (TQ.cancelInLoop_spec id [] (user (state l)) (life_queue _ _ Hl))
    as (q & He & Hq & _).
  unfold cancel, TQ.cancel. rewrite He. eexists. split_and!; try done. by eapply life_with_queue.
Qed.

(** The callbacks of the loop's own channels touch the timer queue alone. *)
Lemma own_call_stable now now2 p : stable (own_call alloc script now now2) p.
Proof.
  intros f s s' c. unfold own_call. destruct (decide _); cbn.
  - intros (q & _ & [= <-])%bind_Ok Hc. by exists c.
  - intros [= <-] Hc. by exists c.
Qed.

Lemma own_callbacks fd cb r :
  callbacks_for (own_channel fd cb r) =
  if has (Z.lor (Z.lor POLLIN POLLPRI) POLLRDHUP) (own_channel fd cb r) then [cb] else [].
Proof.
  unfold callbacks_for, tests, selected. cbn -[has].
  by destruct (has POLLHUP _ && _), (has (Z.lor POLLERR POLLNVAL) _), (has POLLOUT _),
       (has (Z.lor (Z.lor POLLIN POLLPRI) POLLRDHUP) _).
Qed.

Definition reads (now now2 : Z) (cb : ptr) (c : Channel) (q : TQ.queue) : res TQ.queue :=
  if has (Z.lor (Z.lor POLLIN POLLPRI) POLLRDHUP) c && bool_decide (cb = timer_handleRead)
  then TQ.handleRead alloc script now now2 q else Ok q.

Lemma handle_own_run p fd cb r now now2 l :
  heap (state l) !! p = Some (own_channel fd cb r) →
  handle_own alloc script p now now2 l =
    (q ← reads now now2 cb (own_channel fd cb r) (user (state l));
     Ok (with_state (with_current false None (with_user q (state l))) l)).
Proof.
  intros Hp. unfold handle_own, handleEvent, reads. set (c := own_channel fd cb r) in *.
  rewrite (get_Some p _ c) by done. cbn [mbind res_bind].
  assert (tied_ c = false) as -> by done.
  rewrite (handleEventWithGuard_run _ p c) by (done || apply own_call_stable).
  rewrite (put_Some _ _ _ c) by done. cbn [mbind res_bind].
  assert (callbacks_for c = if has (Z.lor (Z.lor POLLIN POLLPRI) POLLRDHUP) c then [cb] else [])
    as -> by apply own_callbacks. set (s1 := with_heap _ _).
  assert (∀ q, put p (with_eventHandling false) (with_user q s1) =
               Ok (with_user q (with_current true (Some p) (state l)))) as Hput.
  { intros q. rewrite (put_Some _ _ _ (with_eventHandling true c)) by (cbn; by rewrite lookup_insert_eq).
    cbn. rewrite insert_insert_eq. unfold with_heap, with_user. cbn. by rewrite (insert_id _ _ _ Hp). }
  destruct (has _ c); cbn [andb mfold mbind res_bind].
  - unfold own_call. destruct (decide (cb = timer_handleRead)).
    + rewrite bool_decide_true by done. assert (user s1 = user (state l)) as -> by done.
      destruct (TQ.handleRead _ _ _ _ _) as [q|]; cbn [mbind res_bind]; [|done]. by rewrite Hput.
    + rewrite bool_decide_false by done. cbn [mbind res_bind].
      change s1 with (with_user (user (state l)) s1). by rewrite Hput.
  - change s1 with (with_user (user (state l)) s1). by rewrite Hput.
Qed.

Lemma handle_own_spec p fd cb r now now2 l :
  life [] l → heap (state l) !! p = Some (own_channel fd cb r) → TQ.clock_ok now → TQ.clock_ok now2 →
  room B l →
  ∃ l', handle_own alloc script p now now2 l = Ok l' ∧ life [] l' ∧ same_loop l l'.
Proof.
  intros Hl Hp Hn Hn2 Hr. rewrite (handle_own_run p fd cb r now now2 l Hp).
  assert (∃ q, reads now now2 cb (own_channel fd cb r) (user (state l)) = Ok q ∧ TQ.inv [] q)
    as (q & -> & Hq).
  { unfold reads. destruct (_ && _); [|eexists; split; [done|apply Hl]].
    destruct (TQ.timers_handleRead_spec alloc script B Hal Hsc now now2 (user (state l)))
      as (q & Hh & Hq & _); try done; [apply Hl|unfold room in Hr; lia|]. by exists q. }
  eexists. split_and!; [done| |done]. by destruct Hl.
Qed.

Lemma channel_op_spec o l :
  life [] l → pre B (OChannel o) l →
  ∃ s', exec_cop o (state l) = Ok s' ∧ life [] (with_state s' l).
Proof.
  intros Hl (Hw & Ht & Hpre). destruct (exec_cop_spec o (state l) (life_poll _ _ Hl) Hpre) as (s' & He & Hi).
  exists s'. split; [done|].
  destruct (exec_cop_kept o (state l) s' (life_poll _ _ Hl) Hpre He) as (Hh & Hu & Hk).
  destruct Hl as [_ [r1 Hw1] [r2 Ht2] Hd Hidle Hq]. split; cbn; try done; try congruence.
  - destruct (Hk _ _ (not_eq_sym Hw) Hw1) as [r ->]. by exists r.
  - destruct (Hk _ _ (not_eq_sym Ht) Ht2) as [r ->]. by exists r.
Qed.

Lemma exec_op_spec o l :
  life [] l → pre B o l → ∃ l', exec alloc script o l = Ok l' ∧ life [] l' ∧ same_loop l l'.
Proof.
  intros Hl Hpre. destruct o; cbn [exec pre] in *.
  - destruct (channel_op_spec o l Hl Hpre) as (s' & -> & ?). by eexists.
  - destruct Hpre as (?&?&?). destruct (runAt_spec time cb now l) as (id & l' & -> & ? & ? & _); eauto.
  - destruct Hpre as (?&?&?&?).
    destruct (runAfter_spec delay cb now now2 l) as (us & id & l' & _ & -> & ? & ? & _); eauto.
  - destruct Hpre as (?&?&?&?&?).
    destruct (runEvery_spec interval cb now now2 l) as (us & id & l' & _ & -> & ? & ? & _); eauto.
  - by apply cancel_spec.
  - destruct Hpre as (?&?&?). destruct (life_wakeup _ _ Hl) as [r Hr]. by eapply handle_own_spec.
  - destruct Hpre as (?&?&?). destruct (life_timer _ _ Hl) as [r Hr]. by eapply handle_own_spec.
Qed.

Lemma ops_spec os l :
  life [] l → permits alloc script B os l →
  ∃ l', mfold (exec alloc script) os l = Ok l' ∧ life [] l' ∧ same_loop l l'.
Proof.
  revert l. induction os as [|o os IH]; intros l Hl Hos; cbn in *.
  { exists l. split_and!; try done. unfold same_loop. by destruct l. }
  destruct Hos as [Hpre Hos]. destruct (exec_op_spec o l Hl Hpre) as (l1 & He & Hl1 & Hs1).
  destruct (IH l1 Hl1 (Hos _ He)) as (l2 & He2 & Hl2 & Hs2). exists l2. rewrite He.
  split_and!; try done. unfold same_loop in *. rewrite Hs2. rewrite Hs1. done.
Qed.
End UseSpec.

(** ** Destruction *)

(** disableAll and remove on a channel of the loop. *)
Lemma release_own p fd cb r (s : reactor) :
  inv s → heap s !! p = Some (own_channel fd cb r) → loopEventHandling_ s = false →
  ∃ s' c, (s1 ← disableAll p s; channel_remove p s1) = Ok s' ∧ inv s' ∧
    heap s' = <[p := c]> (heap s) ∧ index_ c = kNew ∧ eventHandling_ c = false ∧
    addedToLoop_ c = false ∧ interest (kern s') = delete fd (interest (kern s)) ∧
    channels_ s' = delete fd (channels_ s) ∧ loopEventHandling_ s' = false ∧ user s' = user s.
Proof.
  intros Hinv Hp Hidle.
  destruct (set_and_update_spec (λ _, kNoneEvent) p (own_channel fd cb r) s) as (k & He & Hi);
    [done|done|done|].
  unfold disableAll. rewrite He. cbn [mbind res_bind]. clear He.
  set (c1 := with_index _ _) in *. set (s1 := with_kern _ _) in *.
  assert (heap s1 !! p = Some c1) as Hp1 by (cbn; by rewrite lookup_insert_eq).
  assert (channels_ s1 !! fd = Some p) as Hm by (cbn; by rewrite lookup_insert_eq).
  assert (channels_ s !! fd = Some p) as Hm0.
  { destruct Hinv as (_ & HB & _). by destruct (HB _ _ Hp) as [[? _]|[? _]]. }
  assert (may_remove p s1) as Hmay by (intros Hl; cbn in Hl; congruence).
  destruct (channel_remove_spec p c1 s1) as (s2 & Hr & Hi2 & _ & Hc2 & Hh2 & _); try done.
  rewrite (channel_remove_run p c1 s1) in Hr |- *; try done; [|by right..].
  injection Hr as <-. eexists _, _. split; [done|]. split; [done|].
  split; [cbn; rewrite insert_insert_eq; reflexivity|]. split_and!; try done.
  2:{ cbn. by rewrite delete_insert_eq. }
  destruct Hi2 as (_ & _ & Hmir2 & _). pose proof Hinv as (HA & _ & Hmir & _). apply map_eq. intros fd'.
  rewrite Hmir2, lookup_delete. unfold registered. rewrite Hc2. cbn. rewrite lookup_delete.
  change (fd_ c1) with fd. case_decide as E; [done|]. rewrite Hmir. unfold registered.
  rewrite lookup_insert_ne by done. destruct (channels_ s !! fd') as [q|] eqn:Eq; cbn; [|done].
  assert (p ≠ q).
  { intros <-. destruct (HA _ _ Eq) as (c & Hc & Hfd & _). rewrite Hp in Hc. injection Hc as <-. done. }
  by rewrite !lookup_insert_ne.
Qed.

Lemma channel_destructor_spec tid l p c (s : reactor) :
  inv s → heap s !! p = Some c → index_ c = kNew → eventHandling_ c = false →
  addedToLoop_ c = false →
  channel_destructor tid l p s = Ok (with_heap (delete p (heap s)) s) ∧
  inv (with_heap (delete p (heap s)) s).
Proof.
  intros Hinv Hp Hi Hh Ha. split; [|by eapply channel_delete_spec].
  unfold channel_destructor. rewrite (get_Some _ _ _ Hp). cbn [mbind res_bind]. rewrite Hh, Ha.
  cbn [assert_ negb mbind res_bind]. unfold loop_hasChannel, assertInLoopThread. cbn.
  destruct (isInLoopThread tid l); [|done]. cbn. unfold isInLoopThread. cbn.
  replace (if negb (threadId_ l =? tid) then abortNotInLoopThread else Ok tt) with (Ok tt)
    by by destruct (_ =? _).
  cbn. unfold hasChannel. rewrite (get_Some _ _ _ Hp). cbn.
  rewrite bool_decide_false; [done|]. by eapply inv_new_unmapped.
Qed.

(** The timers of the list are deleted, no other. *)
Lemma delete_timers_spec (es : list TQ.Entry) q :
  NoDup (es.*2) → (∀ e, e ∈ es → is_Some (TQ.heap q !! e.2)) →
  ∃ q', mfold delete_timer es q = Ok q' ∧
    ∀ p, TQ.heap q' !! p = if decide (p ∈ es.*2) then None else TQ.heap q !! p.
Proof.
  revert q. induction es as [|e es IH]; intros q Hnd Hes; cbn.
  { exists q. split; [done|]. intros p. by rewrite decide_False by apply not_elem_of_nil. }
  apply NoDup_cons in Hnd as [Hn Hnd]. destruct (Hes e) as [t Ht]; [left|].
  assert (delete_timer e q = Ok (TQ.with_heap (delete e.2 (TQ.heap q)) q)) as ->
    by (unfold delete_timer, TQ.get; by rewrite Ht).
  cbn [mbind res_bind].
  destruct (IH (TQ.with_heap (delete e.2 (TQ.heap q)) q)) as (q' & He & Hh); [done| |].
  { intros e' Hin. cbn. rewrite lookup_delete_ne; [apply Hes; by right|]. intros E. apply Hn.
    rewrite E. by apply list_elem_of_fmap_2. }
  exists q'. split; [done|]. intros p. rewrite Hh. cbn. rewrite lookup_delete.
  destruct (decide (p ∈ es.*2)), (decide (p ∈ e.2 :: es.*2)), (decide (e.2 = p)); set_solver.
Qed.

Lemma TimerQueue_destructor_spec tid l (s : reactor) w out r :
  inv s → heap s !! timerfdChannel_ l = Some (own_channel (timerfd_ l) timer_handleRead r) →
  loopEventHandling_ s = false → TQ.inv out (user s) →
  ∃ s', TimerQueue_destructor tid l s w = Ok (s', close (timerfd_ l) w) ∧ inv s' ∧
    heap s' = delete (timerfdChannel_ l) (heap s) ∧
    interest (kern s') = delete (timerfd_ l) (interest (kern s)) ∧
    ∀ p, TQ.heap (user s') !! p = if decide (p ∈ out) then TQ.heap (user s) !! p else None.
Proof.
  intros Hinv Hp Hidle Hq. unfold TimerQueue_destructor.
  destruct (release_own _ _ _ _ s Hinv Hp Hidle)
    as (s1 & c & He & Hi & Hh & Hx & Heh & Ha & Hk & Hc & _ & Hu).
  apply bind_Ok in He as (s0 & -> & He). cbn [mbind res_bind]. rewrite He. cbn [mbind res_bind].
  clear He s0. rewrite Hu. pose proof (TQ.inv_nodup _ _ Hq) as (Hnd & Hdisj & _)%NoDup_app.
  destruct (delete_timers_spec (TQ.timers_ (user s)) (user s)) as (q & -> & Hheap); [done| |].
  { intros e He. destruct (TQ.inv_entry _ _ Hq e He) as (t & -> & _). done. }
  cbn [mbind res_bind].
  destruct (channel_destructor_spec tid l (timerfdChannel_ l) c (with_user q s1)) as [-> Hi2]; try done.
  { cbn. by rewrite Hh, lookup_insert_eq. }
  eexists. split; [done|]. split_and!; try done.
  - cbn. by rewrite Hh, delete_insert_eq.
  - intros p. cbn. rewrite Hheap. pose proof (TQ.inv_dom _ _ Hq p) as Hd. rewrite elem_of_app in Hd.
    destruct (decide (p ∈ _)) as [Hin|Hnin], (decide (p ∈ out)) as [Ho|Ho]; try done.
    + by destruct (Hdisj p).
    + destruct (TQ.heap (user s) !! p); [|done]. destruct Hd as [Hd _].
      destruct Hd as [?|?]; [by eexists|done..].
Qed.

Lemma EventLoop_destructor_spec tid l w out :
  life out l →
  ∃ s', EventLoop_destructor tid l w =
      Ok (s', mkProcess (delete tid (t_loopInThisThread w))
                (closed w ++ [wakeupFd_ l; timerfd_ l; epollfd_ l])) ∧
    inv s' ∧ heap s' = delete (timerfdChannel_ l) (delete (wakeupChannel_ l) (heap (state l))) ∧
    interest (kern s') = delete (timerfd_ l) (delete (wakeupFd_ l) (interest (kern (state l)))) ∧
    ∀ p, TQ.heap (user s') !! p =
         if decide (p ∈ out) then TQ.heap (user (state l)) !! p else None.
Proof.
  intros [Hinv [r1 Hw] [r2 Ht] Hd Hidle Hq]. unfold EventLoop_destructor.
  destruct (release_own _ _ _ _ _ Hinv Hw Hidle)
    as (s1 & c & He & Hi & Hh & Hx & Heh & Ha & Hk & Hc & Hidle1 & Hu).
  apply bind_Ok in He as (s0 & -> & He). cbn [mbind res_bind]. rewrite He. cbn [mbind res_bind].
  clear He s0. destruct (channel_destructor_spec tid l (wakeupChannel_ l) c s1) as [-> Hi2]; try done.
  { by rewrite Hh, lookup_insert_eq. }
  cbn [mbind res_bind]. set (s2 := with_heap _ _) in *. set (w2 := mkProcess _ _).
  destruct (TimerQueue_destructor_spec tid l s2 w2 out r2) as (s3 & -> & Hi3 & Hh3 & Hk3 & Hq3); try done.
  { cbn. rewrite Hh, lookup_delete_ne, lookup_insert_ne by done. done. }
  { cbn. by rewrite Hu. }
  cbn [mbind res_bind]. exists s3. split_and!; try done.
  - unfold EPollPoller_destructor, close, w2. cbn. by rewrite <-!app_assoc.
  - rewrite Hh3. cbn. by rewrite Hh, delete_insert_eq.
  - rewrite Hk3. cbn. by rewrite Hk.
  - intros p. rewrite Hq3. cbn. by rewrite Hu.
Qed.

End Life.
(** ** Theorems *)

(** C15: a loop cleans up after itself. A loop constructed in a thread without one registers
    itself there; whatever the program then does with its channels and timers in the loop's
    own thread (within the poller's rules and without touching the loop's own channels),
    however often the loop
    polls and handles its wakeup and timer events, no assertion fails and no freed timer is
    touched; and its destructor then runs without a failed assertion, takes its two
    descriptors off the epoll interest list, deletes its channels and every timer, closes the
    eventfd, the timerfd and the epoll descriptor once each and in this order, and leaves the
    thread without a loop. (A timer another thread adds can leak: [pending_timers_leak].) *)
Theorem loop_life {K : Type} `{EpollLaws K} (alloc : gmap Z TQ.Timer → Z)
    (script : Z → TQ.queue → list TQ.action) (B tid : Z) (g : given K) (w : process) (os : list op)
    (Hal : TQ.alloc_fresh alloc) (HB : 0 ≤ B)
    (Hsc : ∀ cb q, Forall TQ.action_ok (script cb q) ∧ zlen (script cb q) ≤ B)
    (Hg : given_ok g) (Hnone : getEventLoopOfCurrentThread tid w = None)
    (Hos : ∀ l w1, newEventLoop tid g w = Ok (l, w1) → permits alloc script B os l) :
  ∃ l w1 l' s',
    newEventLoop tid g w = Ok (l, w1) ∧
    getEventLoopOfCurrentThread tid w1 = Some (g_self g) ∧
    mfold (exec alloc script) os l = Ok l' ∧
    EventLoop_destructor tid l' w1 =
      Ok (s', mkProcess (t_loopInThisThread w)
                (closed w ++ [g_eventfd g; g_timerfd_create g; (g_epoll_create1 g).1])) ∧
    inv s' ∧ interest (kern s') !! g_eventfd g = None ∧
    interest (kern s') !! g_timerfd_create g = None ∧
    heap s' !! g_wakeupChannel g = None ∧ heap s' !! g_timerChannel g = None ∧
    TQ.heap (user s') = ∅.
Proof.
  destruct (newEventLoop_spec tid g w Hg)
    as (l & Hnew & Hl & _ & _ & Hep & Htf & Hwf & Htc & Hwc & _).
  rewrite Hnone in Hnew.
  destruct (ops_spec alloc Hal script B HB Hsc os l Hl (Hos _ _ Hnew)) as (l' & Hrun & Hl' & Hs).
  destruct (EventLoop_destructor_spec tid l'
    (mkProcess (<[tid := g_self g]> (t_loopInThisThread w)) (closed w)) [] Hl')
    as (s' & Hd & Hi & Hh & Hk & Hq).
  unfold same_loop in Hs. rewrite Hs in Hd, Hh, Hk. cbn in Hd, Hh, Hk. rewrite <-Hs in Hd.
  rewrite Hep, Htf, Hwf in Hd. rewrite Htf, Hwf in Hk. rewrite Htc, Hwc in Hh.
  eexists l, _, l', s'. split; [done|]. split_and!; try done.
  - unfold getEventLoopOfCurrentThread. cbn. by rewrite lookup_insert_eq.
  - rewrite Hd. unfold getEventLoopOfCurrentThread in Hnone. by rewrite delete_insert_id.
  - rewrite Hk. rewrite lookup_delete. case_decide; [done|]. by rewrite lookup_delete_eq.
  - by rewrite Hk, lookup_delete_eq.
  - rewrite Hh. rewrite lookup_delete. case_decide; [done|]. by rewrite lookup_delete_eq.
  - by rewrite Hh, lookup_delete_eq.
  - apply map_eq. intros p. rewrite Hq, lookup_empty. by rewrite decide_False by apply not_elem_of_nil.
Qed.

Definition demo_given : given (gmap Z (Z * ptr)) := mkGiven (3, ∅) 4 5 9 10 11 0.
Definition demo_process : process := mkProcess ∅ [].
Definition half_second : Ts.double := Ts.ddiv (Ts.double_of_Z 1) (Ts.double_of_Z 2).

(** A channel and two timers are added; the timerfd becomes readable and the first timer
    runs; the second is still in the queue at the end. *)
Definition demo_ops : list op :=
  [OChannel (CNew 20 7); OChannel (CEnableReading 20);
   ORunAfter half_second 8 1000 1001; ORunEvery TQ.one_second 8 1000 1001;
   OChannel (CPoll [(1, 10%positive); (1, 20%positive)]); OTimer 501000 501001;
   OChannel (CPoll [(1, 11%positive)]); OWakeup 501000 501001; OCancel (TQ.mkTimerId 99 7)].

Lemma demo_given_ok : given_ok demo_given.
Proof. by split_and!. Qed.

Ltac run_permits :=
  repeat match goal with
  | |- permits _ _ _ [] _ => exact I
  | |- permits _ _ _ (_ :: _) _ =>
      split; [|let s' := fresh in let E := fresh in
               intros s' E; vm_compute in E; injection E as <-]
  | |- pre _ (OChannel (CPoll _)) _ => idtac
  | |- pre _ (OChannel _) _ => split_and!; [done|done|]
  | |- pre _ (OCancel _) _ => exact I
  | |- pre _ _ _ => split_and!
  | |- delay_ok _ => eexists; split; [vm_compute; reflexivity|lia]
  | |- TQ.interval_ok _ => exact TQ.one_second_ok
  | |- TQ.clock_ok _ => by vm_compute
  | |- room _ _ => by vm_compute
  | |- pre_cop (CNew _ _) _ => split; [reflexivity|cbn; lia]
  | |- pre_cop _ _ => eexists; split; [reflexivity|vm_compute; done]
  end.

Lemma loop_life_witness :
  ∃ l w1 l' s',
    newEventLoop 1 demo_given demo_process = Ok (l, w1) ∧
    getEventLoopOfCurrentThread 1 w1 = Some 9%positive ∧
    mfold (exec TQ.alloc_first TQ.demo_script) demo_ops l = Ok l' ∧
    EventLoop_destructor 1 l' w1 = Ok (s', mkProcess ∅ [5; 4; 3]) ∧
    inv s' ∧ interest (kern s') !! 5 = None ∧ interest (kern s') !! 4 = None ∧
    heap s' !! 11%positive = None ∧ heap s' !! 10%positive = None ∧ TQ.heap (user s') = ∅.
Proof.
  apply (loop_life TQ.alloc_first TQ.demo_script 1 1 demo_given demo_process demo_ops).
  - exact TQ.alloc_first_fresh.
  - lia.
  - exact TQ.demo_script_ok.
  - exact demo_given_ok.
  - reflexivity.
  - intros l w1 E. vm_compute in E. injection E as <- <-. unfold demo_ops. run_permits.
    + split; [done|split; [done|split; [vm_compute; discriminate|]]]. intros ev p Hin.
      rewrite !elem_of_cons in Hin. destruct Hin as [[= -> ->]|[[= -> ->]|Hin]].
      * exists 4. eexists. reflexivity.
      * exists 7. eexists. reflexivity.
      * by apply elem_of_nil in Hin.
    + split; [done|split; [done|split; [vm_compute; discriminate|]]]. intros ev p Hin.
      apply list_elem_of_singleton in Hin as [= -> ->]. exists 5. eexists. reflexivity.
Defined.

(** runAfter is on time. After runAfter(delay, cb) at clock reading [now], the first expiry
    handled, at [n], calls the timer exactly when [n] has reached [now] plus the delay (in
    whole microseconds), and calls it once. *)
Theorem runAfter_on_time {K : Type} (alloc : gmap Z TQ.Timer → Z)
    (script : Z → TQ.queue → list TQ.action) (B cb now now2 n n2 : Z) (d : Ts.double)
    (l : EventLoop K) (Hal : TQ.alloc_fresh alloc) (HB : 0 ≤ B)
    (Hsc : ∀ cb q, Forall TQ.action_ok (script cb q) ∧ zlen (script cb q) ≤ B)
    (Hq : TQ.inv [] (user (state l))) (Hd : delay_ok d) (Hnow : TQ.clock_ok now)
    (Hnow2 : TQ.clock_ok now2) (Hn : TQ.clock_ok n) (Hn2 : TQ.clock_ok n2)
    (Hroom : TQ.s_numCreated_ (user (state l)) + 1 +
             B * (zlen (TQ.timers_ (user (state l))) + 1) < 2 ^ 63) :
  ∃ us id l' q' calls, Ts.delta d = Ok us ∧ runAfter alloc d cb now now2 l = Ok (id, l') ∧
    TQ.handleRead alloc script n n2 (user (state l')) = Ok q' ∧
    TQ.ran q' = TQ.ran (user (state l')) ++ calls ∧ NoDup calls ∧
    ((TQ.timer_ id, TQ.seq_ id) ∈ calls ↔ now + us ≤ n).
Proof.
  destruct (addTime_ok now d Hd Hnow) as (us & Hus & Ha & Ht).
  destruct (TQ.addTimer_spec alloc Hal cb (now + us) (Ts.double_of_Z 0) now2 [] (user (state l)))
    as (q & He & Hf & Hnum & Hp & Hin); try done; [nia|].
  pose proof (TQ.fr_inv _ _ _ Hf) as Hq1.
  destruct (TQ.timers_handleRead_spec alloc script B Hal Hsc n n2 q)
    as (q' & Hh & _ & _ & Hran & _); try done.
  { rewrite Hp, Hnum. cbn [length]. lia. }
  unfold runAfter, runAt. rewrite Ha. cbn [mbind res_bind Ts.microSecondsSinceEpoch_]. rewrite He.
  cbn [mbind res_bind]. eexists us, _, _, q', _. split; [done|]. split; [done|].
  split; [exact Hh|]. split; [exact Hran|].
  pose proof (TQ.inv_nodup _ _ Hq1) as (Hnd & _)%NoDup_app.
  split.
  { apply TQ.at_of_NoDup. eapply sublist_NoDup; [exact Hnd|]. apply fmap_sublist.
    apply sublist_filter. }
  destruct (TQ.active_inv _ _ _ _ Hq1 Hin) as (t & Hpt & Hseq & _).
  cbn [TQ.timer_ TQ.seq_]. set (p := alloc _) in *.
  assert ((now + us, p) ∈ TQ.timers_ q) as Hmem by (rewrite Hp; left).
  destruct (TQ.inv_entry _ _ Hq1 _ Hmem) as (t1 & Ht1 & Hexp). cbn in Ht1, Hexp.
  rewrite list_elem_of_fmap. split.
  - intros (e & Heq & [Hle Hmem']%list_elem_of_filter). injection Heq as E _.
    destruct (TQ.inv_entry _ _ Hq1 _ Hmem') as (t2 & Ht2 & Hexp2). rewrite <-E in Ht2. congruence.
  - intros Hle. exists (now + us, p). split; [|by apply list_elem_of_filter].
    unfold TQ.at_of, TQ.seq_of. cbn. by rewrite Hpt, <-Hseq.
Qed.

Definition demo_loop : EventLoop (gmap Z (Z * ptr)) :=
  mkEventLoop 9 1 3 4 10 5 11 (newPoller ∅ (TQ.new_queue 0)).

Lemma runAfter_on_time_witness :
  ∃ us id l' q' calls, Ts.delta half_second = Ok us ∧
    runAfter TQ.alloc_first half_second 8 1000 1001 demo_loop = Ok (id, l') ∧
    TQ.handleRead TQ.alloc_first TQ.demo_script 501000 501001 (user (state l')) = Ok q' ∧
    TQ.ran q' = TQ.ran (user (state l')) ++ calls ∧ NoDup calls ∧
    ((TQ.timer_ id, TQ.seq_ id) ∈ calls ↔ 1000 + us ≤ 501000).
Proof.
  apply (runAfter_on_time TQ.alloc_first TQ.demo_script 1 8 1000 1001 501000 501001 half_second
           demo_loop).
  - exact TQ.alloc_first_fresh.
  - lia.
  - exact TQ.demo_script_ok.
  - by apply TQ.new_queue_inv.
  - eexists. split; [vm_compute; reflexivity|lia].
  - by vm_compute.
  - by vm_compute.
  - by vm_compute.
  - by vm_compute.
  - by vm_compute.
Defined.

(** Two loops in one thread. The constructor accepts a second loop in a thread that has one
    (the fatal message is commented out) and leaves the thread's pointer at the first; the
    second's destructor then clears it, although the first loop is still alive. *)
Theorem second_loop_unregisters_first {K : Type} `{EpollLaws K} (tid : Z) (g : given K)
    (w : process) (first : ptr) (Hg : given_ok g)
    (Hfirst : getEventLoopOfCurrentThread tid w = Some first) :
  ∃ l s' w', newEventLoop tid g w = Ok (l, w) ∧ EventLoop_destructor tid l w = Ok (s', w') ∧
             getEventLoopOfCurrentThread tid w' = None.
Proof.
  destruct (newEventLoop_spec tid g w Hg) as (l & Hnew & Hl & _). rewrite Hfirst in Hnew.
  destruct (EventLoop_destructor_spec tid l w [] Hl) as (s' & Hd & _).
  eexists l, s', _. split_and!; [done|exact Hd|]. unfold getEventLoopOfCurrentThread. cbn.
  by rewrite lookup_delete_eq.
Qed.

Lemma second_loop_unregisters_first_witness :
  ∃ l s' w', newEventLoop 1 demo_given (mkProcess {[1 := 8%positive]} []) =
               Ok (l, mkProcess {[1 := 8%positive]} []) ∧
             EventLoop_destructor 1 l (mkProcess {[1 := 8%positive]} []) = Ok (s', w') ∧
             getEventLoopOfCurrentThread 1 w' = None.
Proof.
  apply (second_loop_unregisters_first 1 demo_given (mkProcess {[1 := 8%positive]} []) 8).
  - exact demo_given_ok.
  - reflexivity.
Defined.

(** A loop destroyed in another thread. The destructor runs through, but it clears the
    pointer of the thread it runs in: the thread the loop was made in keeps pointing to it. *)
Theorem destroyed_elsewhere_dangles {K : Type} `{EpollLaws K} (tid tid' : Z) (g : given K)
    (w : process) (Hg : given_ok g) (Hne : tid ≠ tid')
    (Hnone : getEventLoopOfCurrentThread tid w = None) :
  ∃ l w1 s' w2, newEventLoop tid g w = Ok (l, w1) ∧ EventLoop_destructor tid' l w1 = Ok (s', w2) ∧
    getEventLoopOfCurrentThread tid w2 = Some (g_self g) ∧
    getEventLoopOfCurrentThread tid' w2 = None.
Proof.
  destruct (newEventLoop_spec tid g w Hg) as (l & Hnew & Hl & _). rewrite Hnone in Hnew.
  destruct (EventLoop_destructor_spec tid' l
    (mkProcess (<[tid := g_self g]> (t_loopInThisThread w)) (closed w)) [] Hl) as (s' & Hd & _).
  eexists l, _, s', _. split_and!; [exact Hnew|exact Hd|..]; unfold getEventLoopOfCurrentThread; cbn.
  - rewrite lookup_delete_ne, lookup_insert_eq; done.
  - by rewrite lookup_delete_eq.
Qed.

Lemma destroyed_elsewhere_dangles_witness :
  ∃ l w1 s' w2, newEventLoop 1 demo_given demo_process = Ok (l, w1) ∧
    EventLoop_destructor 2 l w1 = Ok (s', w2) ∧
    getEventLoopOfCurrentThread 1 w2 = Some 9%positive ∧
    getEventLoopOfCurrentThread 2 w2 = None.
Proof.
  apply (destroyed_elsewhere_dangles 1 2 demo_given demo_process demo_given_ok);
    [discriminate|reflexivity].
Defined.

(** A timer of another thread leaks. Timers created by a foreign addTimer whose functor the
    loop has not run when it is destroyed are exactly the timers that are not freed. *)
Theorem pending_timers_leak {K : Type} `{EpollLaws K} (tid : Z) (l : EventLoop K) (w : process)
    (out : list Z) (Hl : life out l) :
  ∃ s' w', EventLoop_destructor tid l w = Ok (s', w') ∧
    ∀ p, is_Some (TQ.heap (user s') !! p) ↔ p ∈ out.
Proof.
  destruct (EventLoop_destructor_spec tid l w out Hl) as (s' & Hd & _ & _ & _ & Hq).
  eexists s', _. split; [exact Hd|]. intros p. rewrite Hq. case_decide as E.
  - split; [done|]. intros _. apply (TQ.inv_dom _ _ (life_queue _ _ Hl)), elem_of_app. by right.
  - split; [by intros [? ?]|done].
Qed.

Lemma pending_timers_leak_witness :
  ∃ (l : EventLoop (gmap Z (Z * ptr))) s' w', EventLoop_destructor 1 l demo_process = Ok (s', w') ∧
    ∀ p, is_Some (TQ.heap (user s') !! p) ↔ p ∈ [1].
Proof.
  destruct (newEventLoop_spec 1 demo_given demo_process demo_given_ok) as (l & _ & Hl & _).
  destruct (TQ.newTimer_spec TQ.alloc_first TQ.alloc_first_fresh 7 1000 (Ts.double_of_Z 0) []
    (TQ.new_queue 0)) as [_ Hq];
    [by apply TQ.new_queue_inv|done|by vm_compute|exact TQ.zero_interval_ok|].
  eexists. exact (pending_timers_leak 1 _ demo_process [1] (life_with_queue _ _ _ _ Hl Hq)).
Defined.

End LoopLife.
