(* ===== verification/Interfaces.v ===== *)
(** * What Buffer and Channel promise to TcpConnection

    [ByteQueue] is the buffer as a connection uses it and [ByteQueueLaws] what it relies on;
    [ChannelI] and [ChannelLaws] are the same for the connection's channel together with the
    poller behind it. The instances at the end of each part discharge the laws from the
    theorems about Buffer and about Channel and EPollPoller. *)

From S2P Require Import Prelude Buffer Poller.

(** ** Buffer *)
Class ByteQueue (B : Type) := {
  bq_new : B;                                     (* Buffer() *)
  bq_content : B → list byte;                     (* the readable bytes *)
  bq_readableBytes : B → Z;
  bq_append : B → list byte → res B;
  bq_retrieve : B → Z → res B;
  bq_retrieveAll : B → B;
  bq_readFd : B → Buf.read_result → res (Z * B);  (* readFd(fd, &savedErrno) *)
  bq_capacity : B → Z;                            (* what readFd offers the kernel *)
  bq_ok : B → Prop
}.

(** The largest content for which the operations below cannot exhaust the address space. *)
Definition bq_limit : Z := 2 ^ 61.

Class ByteQueueLaws (B : Type) `{ByteQueue B} := {
  bq_new_law : bq_ok bq_new ∧ bq_content bq_new = [];
  bq_readable_law (b : B) : bq_ok b → bq_readableBytes b = zlen (bq_content b);
  bq_append_law (b : B) d : bq_ok b → zlen (bq_content b) ≤ bq_limit → zlen d ≤ bq_limit →
    ∃ b', bq_append b d = Ok b' ∧ bq_ok b' ∧ bq_content b' = bq_content b ++ d;
  bq_retrieve_law (b : B) n : bq_ok b → 0 ≤ n ≤ zlen (bq_content b) →
    ∃ b', bq_retrieve b n = Ok b' ∧ bq_ok b' ∧ bq_content b' = drop (Z.to_nat n) (bq_content b);
  bq_retrieveAll_law (b : B) : bq_ok b → bq_ok (bq_retrieveAll b) ∧ bq_content (bq_retrieveAll b) = [];
  bq_readFd_law (b : B) bs : bq_ok b → zlen bs ≤ bq_capacity b → zlen (bq_content b) ≤ bq_limit →
    ∃ b', bq_readFd b (Buf.ReadOk bs) = Ok (zlen bs, b') ∧ bq_ok b' ∧
          bq_content b' = bq_content b ++ bs;
  bq_readFd_err_law (b : B) e : bq_readFd b (Buf.ReadErr e) = Ok (-1, b)
}.

#[export] Instance Buffer_queue : ByteQueue Buf.Buffer := {
  bq_new := match Buf.newBuffer Buf.kInitialSize with Ok b => b | Err _ => Buf.mkBuffer [] 0 0 end;
  bq_content := Buf.content;
  bq_readableBytes := Buf.readableBytes;
  bq_append b d := Buf.append b d (zlen d);
  bq_retrieve := Buf.retrieve;
  bq_retrieveAll := Buf.retrieveAll;
  bq_readFd b r := '(n, _, b') ← Buf.readFd b r; Ok (n, b');
  bq_capacity := Buf.iov_capacity;
  bq_ok := Buf.wf
}.

#[export] Instance Buffer_queue_laws : ByteQueueLaws Buf.Buffer.
Proof.
  split; cbn [bq_new bq_content bq_readableBytes bq_append bq_retrieve bq_retrieveAll bq_readFd
              bq_capacity bq_ok Buffer_queue]; unfold bq_limit.
  - destruct (Buf.newBuffer_spec Buf.kInitialSize) as (b & -> & ? & ? & _); [by vm_compute..|done].
  - intros b Hb. by rewrite Buf.length_content.
  - intros b d Hb Hc Hd. change (2 ^ 61) with 2305843009213693952 in *.
    destruct (Buf.append_spec b d) as (b' & -> & ? & ? & _); [done| | |by exists b'].
    + Buf.unfold_consts. lia.
    + apply Buf.room_of_readable; [done|lia|]. rewrite <-Buf.length_content by done.
      Buf.unfold_consts. lia.
  - intros b n Hb Hn. rewrite Buf.length_content in Hn by done. by apply Buf.retrieve_spec.
  - intros b Hb. by apply Buf.retrieveAll_spec.
  - intros b bs Hb Hcap Hc. change (2 ^ 61) with 2305843009213693952 in *.
    destruct (Buf.readFd_room b bs) as (b' & -> & ? & ?); [done|done| |by exists b'].
    right. rewrite <-Buf.length_content by done. Buf.unfold_consts. lia.
  - done.
Qed.

(** ** Channel *)
Class ChannelI (C : Type) := {
  ch_enableReading : C → res C;
  ch_disableReading : C → res C;
  ch_enableWriting : C → res C;
  ch_disableWriting : C → res C;
  ch_disableAll : C → res C;
  ch_remove : C → res C;
  ch_tie : C → res C;
  ch_isReading : C → bool;
  ch_isWriting : C → bool;
  ch_added : C → bool;          (* addedToLoop_ *)
  ch_ok : C → Prop
}.

(** [ch_ok] says the channel is live, consistent with its poller, and may be removed in this
    turn of the loop. *)
Class ChannelLaws (C : Type) `{ChannelI C} := {
  ch_enableReading_law (c : C) : ch_ok c → ∃ c', ch_enableReading c = Ok c' ∧ ch_ok c' ∧
    ch_isReading c' = true ∧ ch_isWriting c' = ch_isWriting c ∧ ch_added c' = true;
  ch_disableReading_law (c : C) : ch_ok c → ∃ c', ch_disableReading c = Ok c' ∧ ch_ok c' ∧
    ch_isReading c' = false ∧ ch_isWriting c' = ch_isWriting c ∧ ch_added c' = true;
  ch_enableWriting_law (c : C) : ch_ok c → ∃ c', ch_enableWriting c = Ok c' ∧ ch_ok c' ∧
    ch_isReading c' = ch_isReading c ∧ ch_isWriting c' = true ∧ ch_added c' = true;
  ch_disableWriting_law (c : C) : ch_ok c → ∃ c', ch_disableWriting c = Ok c' ∧ ch_ok c' ∧
    ch_isReading c' = ch_isReading c ∧ ch_isWriting c' = false ∧ ch_added c' = true;
  ch_disableAll_law (c : C) : ch_ok c → ∃ c', ch_disableAll c = Ok c' ∧ ch_ok c' ∧
    ch_isReading c' = false ∧ ch_isWriting c' = false ∧ ch_added c' = true;
  ch_remove_law (c : C) : ch_ok c → ch_added c = true →
    ch_isReading c = false → ch_isWriting c = false → ∃ c', ch_remove c = Ok c' ∧ ch_ok c' ∧
    ch_isReading c' = false ∧ ch_isWriting c' = false ∧ ch_added c' = false;
  ch_remove_events_law (c : C) : ch_ok c → ch_isReading c = true ∨ ch_isWriting c = true →
    ch_remove c = Err AssertFailed;
  ch_tie_law (c : C) : ch_ok c → ∃ c', ch_tie c = Ok c' ∧ ch_ok c' ∧
    ch_isReading c' = ch_isReading c ∧ ch_isWriting c' = ch_isWriting c ∧ ch_added c' = ch_added c
}.

Section PollChannel.
Import Poll.
Context {K : Type} `{EpollKernel K} {U : Type} (p : ptr) (owner : ptr).

(** The channel at address [p], in its reactor. *)
Definition at_channel {A} (d : A) (f : Channel → A) (s : reactor K U) : A :=
  match heap s !! p with Some c => f c | None => d end.

Definition poll_channel : ChannelI (reactor K U) := {|
  ch_enableReading := enableReading p;
  ch_disableReading := disableReading p;
  ch_enableWriting := enableWriting p;
  ch_disableWriting := disableWriting p;
  ch_disableAll := disableAll p;
  ch_remove := channel_remove p;
  ch_tie := put p (tie owner);
  ch_isReading := at_channel false isReading;
  ch_isWriting := at_channel false isWriting;
  ch_added := at_channel false addedToLoop_;
  ch_ok s := inv s ∧ may_remove p s ∧
    ∃ c, heap s !! p = Some c ∧ (channels_ s !! fd_ c = None ∨ channels_ s !! fd_ c = Some p) ∧
         (events_ c = 0 ∨ events_ c = 3 ∨ events_ c = 4 ∨ events_ c = 7)
|}.

Context `{!EpollLaws K}.

(** All the updates at once: the new interest is one of the four the code can set. *)
Lemma poll_channel_update f s :
  ch_ok (ChannelI := poll_channel) s →
  (∀ e, e = 0 ∨ e = 3 ∨ e = 4 ∨ e = 7 → f e = 0 ∨ f e = 3 ∨ f e = 4 ∨ f e = 7) →
  ∃ s' c, heap s !! p = Some c ∧ set_and_update f p s = Ok s' ∧
    ch_ok (ChannelI := poll_channel) s' ∧ (events_ c = 0 ∨ events_ c = 3 ∨ events_ c = 4 ∨ events_ c = 7) ∧
    ∃ i, heap s' !! p = Some (with_index i (with_addedToLoop true (with_events (f (events_ c)) c))).
Proof.
  intros (Hinv & Hmay & c & Hp & Hm & He) Hf.
  destruct (set_and_update_spec f p c s Hinv Hp) as (k & Hs & Hi).
  { intros Hn. destruct Hm as [|Hm]; [done|]. by apply (inv_new_unmapped _ _ _ Hinv Hp Hn) in Hm. }
  eexists. exists c. split; [done|]. split; [exact Hs|].
  assert (heap (with_heap (<[p:=with_index (index_of (index_ c) (f (events_ c)))
    (with_addedToLoop true (with_events (f (events_ c)) c))]> (heap s)) s) !! p = Some
    (with_index (index_of (index_ c) (f (events_ c)))
    (with_addedToLoop true (with_events (f (events_ c)) c)))) as Hl by (cbn; by rewrite lookup_insert_eq).
  split; [|split; [done|by eexists]]. split; [exact Hi|]. split; [exact Hmay|].
  eexists. split; [exact Hl|]. cbn. split; [right; by rewrite lookup_insert_eq|auto].
Qed.

Ltac poll_update f :=
  let s := fresh "s" in let Hs := fresh in
  intros s Hs; destruct (poll_channel_update f s Hs) as (s' & c & Hc & Hu & Hok & He & i & Hi);
  [intros e [->|[->|[->| ->]]]; vm_compute; tauto|];
  exists s'; cbn [ch_isReading ch_isWriting ch_added poll_channel]; unfold at_channel;
  rewrite Hi, ?Hc; split_and!; try done; unfold isReading, isWriting; cbn [events_ with_index with_addedToLoop with_events];
  destruct He as [->|[->|[->| ->]]]; reflexivity.

Lemma poll_channel_laws : ChannelLaws (H := poll_channel) (reactor K U).
Proof.
  split.
  - poll_update (λ e, Z.lor e kReadEvent).
  - poll_update (λ e, Z.land e (Z.lnot kReadEvent)).
  - poll_update (λ e, Z.lor e kWriteEvent).
  - poll_update (λ e, Z.land e (Z.lnot kWriteEvent)).
  - poll_update (λ _ : Z, kNoneEvent).
  - intros s (Hinv & Hmay & c & Hp & Hm & He). cbn [ch_isReading ch_isWriting ch_added ch_remove poll_channel].
    unfold at_channel. rewrite Hp. intros Ha Hr Hw.
    assert (events_ c = 0) as He0.
    { unfold isReading, isWriting in *. destruct He as [->|[E|[E|E]]]; rewrite ?E in *; done. }
    assert (index_ c ≠ kNew) as Hi.
    { destruct Hinv as (HA & HB & _). destruct (HB _ _ Hp) as [[_ Hf]|[Hmp _]]; [congruence|].
      destruct (HA _ _ Hmp) as (c' & Hc' & _ & Hi). rewrite Hp in Hc'. injection Hc' as <-.
      by destruct Hi as [-> | ->]. }
    destruct (channel_remove_spec p c s) as (s' & Hs' & Hinv' & _ & Hch & Hh & Hmay'); try done.
    exists s'. rewrite Hh, lookup_insert_eq. split; [done|]. split.
    + split; [done|]. split; [auto|]. eexists. rewrite Hh, lookup_insert_eq. split; [done|].
      cbn. rewrite Hch, lookup_delete_eq. auto.
    + split_and!; done.
  - intros s (Hinv & Hmay & c & Hp & Hm & He).
    cbn [ch_isReading ch_isWriting ch_remove poll_channel]. unfold at_channel. rewrite Hp.
    intros Hrw. unfold channel_remove, get. rewrite Hp. cbn [mbind res_bind].
    unfold isReading, isWriting, isNoneEvent in *.
    destruct He as [E|[E|[E|E]]]; rewrite E in *; try done. by destruct Hrw.
  - intros s (Hinv & Hmay & c & Hp & Hm & He).
    destruct (put_same_spec p (tie owner) s Hinv) as (s' & Hs' & Hinv'); [by eexists|done|].
    exists s'. cbn [ch_isReading ch_isWriting ch_added ch_tie poll_channel]. unfold at_channel.
    rewrite (put_Some _ _ _ _ Hp) in *. injection Hs' as <-. cbn [heap with_heap].
    rewrite lookup_insert_eq, Hp. split_and!; try done. split; [done|]. split; [done|].
    eexists. cbn. by rewrite lookup_insert_eq.
Qed.
End PollChannel.

(** ** A channel in a reactor, for the witnesses *)
Module Demo.
Abbreviation demo_reactor := (Poll.reactor (gmap Z (Z * Poll.ptr)) unit).
#[export] Instance demo_channel : ChannelI demo_reactor :=
  poll_channel (H := Poll.ref_kernel) 1 100.
#[export] Instance demo_laws : ChannelLaws demo_reactor :=
  poll_channel_laws (EpollLaws0 := Poll.ref_kernel_laws) 1 100.

Definition reactor0 : demo_reactor :=
  Poll.mkReactor {[1%positive := Poll.newChannel 5]} ∅ ∅ 16 false [] None {[100%positive]} tt.

Lemma reactor0_ok :
  ch_ok reactor0 ∧ ch_isReading reactor0 = false ∧ ch_isWriting reactor0 = false.
Proof.
  split; [|done]. split; [|split; [done|]].
  - split_and!; try done.
    + intros p c Hp. cbn in Hp. apply lookup_singleton_Some in Hp as [<- <-]. by left.
    + intros p c Hp. cbn in Hp. apply lookup_singleton_Some in Hp as [<- <-]. done.
  - exists (Poll.newChannel 5). split; [reflexivity|]. cbn. auto.
Qed.
End Demo.
