(* ===== verification/TcpConnection.v ===== *)
(** * TcpConnection (net/tcp_connection.h, net/tcp_connection.cc)

    The connection over any buffer and channel that satisfy the interfaces of Interfaces.v.
    The kernel's answers to write(2) and readv(2) are arguments of the operations; [wire]
    records the bytes the kernel accepted and [fin] that shutdown(SHUT_WR) was called. The
    loop's functors that concern this connection form the FIFO [queue]; user callbacks are
    lists of calls of the connection's interface, made in the loop thread. Other threads call
    send, shutdown, forceClose, startRead and stopRead: a thread that has passed the check of
    [state_] and not yet queued its functor is in [armed]. [accepted] and [events] are
    histories: the messages taken over by sendInLoop and the callbacks run. *)

From stdpp Require Import strings.
From S2P Require Import Prelude StringPiece Buffer Poller Interfaces.
#[local] Open Scope Z_scope.

Module Conn.

Inductive StateE := kDisconnected | kConnecting | kConnected | kDisconnecting.
#[export] Instance StateE_eq_dec : EqDecision StateE.
Proof. solve_decision. Defined.

(** errno values the code compares with *)
Definition EAGAIN : Z := 11.
Definition EWOULDBLOCK : Z := EAGAIN.
Definition EPIPE : Z := 32.
Definition ECONNRESET : Z := 104.

(** The kernel's answer to write(2): the number of bytes taken, or -1 with an errno. *)
Inductive write_result := Wrote (n : Z) | WriteErr (errno : Z).

(** Functors queued in the loop for this connection. *)
Inductive functor :=
  | FSend (message : list byte)
  | FShutdown
  | FForceClose
  | FStartRead
  | FStopRead
  | FWriteComplete
  | FHighWaterMark (len : Z)
  | FConnectDestroyed.

(** User callbacks run. *)
Inductive callback := CbConnection (up : bool) | CbMessage | CbWriteComplete | CbHighWaterMark (len : Z).

Section Conn.
Context {B : Type} `{ByteQueue B} {C : Type} `{ChannelI C}.

Record conn := mkConn {
  state_ : StateE;
  reading_ : bool;
  channel_ : C;
  inputBuffer_ : B;
  outputBuffer_ : B;
  highWaterMark_ : Z;
  writeCompleteCallback_ : bool;     (* the callback is set *)
  highWaterMarkCallback_ : bool;
  queue : list functor;
  armed : list functor;
  wire : list byte;
  fin : bool;
  received : list byte;
  accepted : list (list byte);
  events : list callback
}.

(** Setters *)
Definition setState (st : StateE) (c : conn) : conn :=
  mkConn st (reading_ c) (channel_ c) (inputBuffer_ c) (outputBuffer_ c) (highWaterMark_ c)
    (writeCompleteCallback_ c) (highWaterMarkCallback_ c) (queue c) (armed c) (wire c) (fin c)
    (received c) (accepted c) (events c).
Definition with_reading (b : bool) (c : conn) : conn :=
  mkConn (state_ c) b (channel_ c) (inputBuffer_ c) (outputBuffer_ c) (highWaterMark_ c)
    (writeCompleteCallback_ c) (highWaterMarkCallback_ c) (queue c) (armed c) (wire c) (fin c)
    (received c) (accepted c) (events c).
Definition with_channel (ch : C) (c : conn) : conn :=
  mkConn (state_ c) (reading_ c) ch (inputBuffer_ c) (outputBuffer_ c) (highWaterMark_ c)
    (writeCompleteCallback_ c) (highWaterMarkCallback_ c) (queue c) (armed c) (wire c) (fin c)
    (received c) (accepted c) (events c).
Definition with_input (b : B) (r : list byte) (c : conn) : conn :=
  mkConn (state_ c) (reading_ c) (channel_ c) b (outputBuffer_ c) (highWaterMark_ c)
    (writeCompleteCallback_ c) (highWaterMarkCallback_ c) (queue c) (armed c) (wire c) (fin c)
    r (accepted c) (events c).
Definition with_output (b : B) (w : list byte) (a : list (list byte)) (c : conn) : conn :=
  mkConn (state_ c) (reading_ c) (channel_ c) (inputBuffer_ c) b (highWaterMark_ c)
    (writeCompleteCallback_ c) (highWaterMarkCallback_ c) (queue c) (armed c) w (fin c)
    (received c) a (events c).
Definition with_queue (q ar : list functor) (c : conn) : conn :=
  mkConn (state_ c) (reading_ c) (channel_ c) (inputBuffer_ c) (outputBuffer_ c) (highWaterMark_ c)
    (writeCompleteCallback_ c) (highWaterMarkCallback_ c) q ar (wire c) (fin c)
    (received c) (accepted c) (events c).
Definition with_fin (b : bool) (c : conn) : conn :=
  mkConn (state_ c) (reading_ c) (channel_ c) (inputBuffer_ c) (outputBuffer_ c) (highWaterMark_ c)
    (writeCompleteCallback_ c) (highWaterMarkCallback_ c) (queue c) (armed c) (wire c) b
    (received c) (accepted c) (events c).
Definition with_events (e : list callback) (c : conn) : conn :=
  mkConn (state_ c) (reading_ c) (channel_ c) (inputBuffer_ c) (outputBuffer_ c) (highWaterMark_ c)
    (writeCompleteCallback_ c) (highWaterMarkCallback_ c) (queue c) (armed c) (wire c) (fin c)
    (received c) (accepted c) e.

(** The constructor: a connected socket's channel, two empty buffers, 64 MiB high-water mark. *)
Definition newConn (ch : C) : conn :=
  mkConn kConnecting true ch bq_new bq_new (64 * 1024 * 1024) false false [] [] [] false [] [] [].
Definition setWriteCompleteCallback (c : conn) : conn :=
  mkConn (state_ c) (reading_ c) (channel_ c) (inputBuffer_ c) (outputBuffer_ c) (highWaterMark_ c)
    true (highWaterMarkCallback_ c) (queue c) (armed c) (wire c) (fin c) (received c) (accepted c) (events c).
Definition setHighWaterMarkCallback (highWaterMark : Z) (c : conn) : conn :=
  mkConn (state_ c) (reading_ c) (channel_ c) (inputBuffer_ c) (outputBuffer_ c) highWaterMark
    (writeCompleteCallback_ c) true (queue c) (armed c) (wire c) (fin c) (received c) (accepted c) (events c).

Definition queueInLoop (f : functor) (c : conn) : conn := with_queue (queue c ++ [f]) (armed c) c.

(** A channel operation on the connection's channel. *)
Definition on_channel (op : C → res C) (c : conn) : res conn :=
  ch ← op (channel_ c); Ok (with_channel ch c).

(** ** Sending *)

(** The first part of sendInLoop: the direct write when nothing is queued. Returns the
    number of bytes written, whether the peer is gone, and the connection. *)
Definition try_write (data : list byte) (w : write_result) (c : conn) : Z * bool * conn :=
  if negb (ch_isWriting (channel_ c)) && (bq_readableBytes (outputBuffer_ c) =? 0) then
    match w with
    | Wrote n =>
        let c := with_output (outputBuffer_ c) (wire c ++ take (Z.to_nat n) data) (accepted c) c in
        (n, false, if (zlen data - n =? 0) && writeCompleteCallback_ c
                   then queueInLoop FWriteComplete c else c)
    | WriteErr e =>
        (0, if negb (e =? EWOULDBLOCK) then (e =? EPIPE) || (e =? ECONNRESET) else false, c)
    end
  else (0, false, c).

(** The second part: what was not written goes to the output buffer. *)
Definition buffer_rest (rest : list byte) (remaining : Z) (c : conn) : res conn :=
  let oldLen := bq_readableBytes (outputBuffer_ c) in
  let c := if (highWaterMark_ c <=? oldLen + remaining) && (oldLen <? highWaterMark_ c) &&
              highWaterMarkCallback_ c
           then queueInLoop (FHighWaterMark (oldLen + remaining)) c else c in
  b ← bq_append (outputBuffer_ c) rest;
  let c := with_output b (wire c) (accepted c) c in
  if negb (ch_isWriting (channel_ c)) then on_channel ch_enableWriting c else Ok c.

Definition sendInLoop (data : list byte) (w : write_result) (c : conn) : res conn :=
  if bool_decide (state_ c = kDisconnected) then Ok c else
  let '(nwrote, faultError, c) := try_write data w c in
  let remaining := zlen data - nwrote in
  _ ← assert_ ((0 <=? remaining) && (remaining <=? zlen data));
  let c := if negb faultError
           then with_output (outputBuffer_ c) (wire c) (accepted c ++ [data]) c else c in
  if negb faultError && (0 <? remaining) then buffer_rest (drop (Z.to_nat nwrote) data) remaining c
  else Ok c.

(** sendInLoop(const StringPiece&): the piece's length is an int; its bytes are looked at only
    if the connection is not down. *)
Definition sendInLoop_piece (message : SP.StringPiece) (w : write_result) (c : conn) : res conn :=
  if bool_decide (state_ c = kDisconnected) then Ok c
  else data ← SP.as_string message; sendInLoop data w c.

(** send(const StringPiece&) and send(Buffer* ) in the loop thread. *)
Definition send (message : list byte) (w : write_result) (c : conn) : res conn :=
  if bool_decide (state_ c = kConnected) then sendInLoop message w c else Ok c.

(** defaultMessageCallback: what was received is thrown away. *)
Definition defaultMessageCallback (buf : B) : B := bq_retrieveAll buf.
(** send(const void*, int): [data] is the memory from the pointer on. *)
Definition send_data (data : list byte) (len : Z) (w : write_result) (c : conn) : res conn :=
  message ← SP.as_string (SP.StringPiece_len data len); send message w c.
Lemma send_data_spec data len w c :
  0 ≤ len ≤ zlen data → send_data data len w c = send (take (Z.to_nat len) data) w c.
Proof.
  intros Hl. unfold send_data, SP.as_string. cbn [SP.StringPiece_len SP.length_ SP.ptr_].
  by rewrite bool_decide_true.
Qed.
Definition send_buffer (buf : B) (w : write_result) (c : conn) : res (B * conn) :=
  if bool_decide (state_ c = kConnected) then
    c ← sendInLoop (bq_content buf) w c; Ok (bq_retrieveAll buf, c)
  else Ok (buf, c).

(** ** Closing *)
Definition shutdownInLoop (c : conn) : res conn :=
  Ok (if negb (ch_isWriting (channel_ c)) then with_fin true c else c).

Definition shutdown (c : conn) : res conn :=
  if bool_decide (state_ c = kConnected) then shutdownInLoop (setState kDisconnecting c) else Ok c.

Definition open (c : conn) : bool :=
  bool_decide (state_ c = kConnected) || bool_decide (state_ c = kDisconnecting).

Definition forceClose (c : conn) : res conn :=
  Ok (if open c then queueInLoop FForceClose (setState kDisconnecting c) else c).

(** The timer set here calls forceClose through a weak pointer: [DelayedForceClose] below. *)
Definition forceCloseWithDelay (c : conn) : res conn :=
  Ok (if open c then setState kDisconnecting c else c).

Definition stateToString (c : conn) : string :=
  match state_ c with
  | kDisconnected => "kDisconnected" | kConnecting => "kConnecting"
  | kConnected => "kConnected" | kDisconnecting => "kDisconnecting"
  end.

(** ** Reading on and off *)
Definition startReadInLoop (c : conn) : res conn :=
  if negb (reading_ c) || negb (ch_isReading (channel_ c)) then
    c ← on_channel ch_enableReading c; Ok (with_reading true c)
  else Ok c.

Definition stopReadInLoop (c : conn) : res conn :=
  if reading_ c || ch_isReading (channel_ c) then
    c ← on_channel ch_disableReading c; Ok (with_reading false c)
  else Ok c.

(** The interface, called in the loop thread; [Retrieve] consumes input in a callback. *)
Inductive api :=
  | Send (message : list byte) (w : write_result)
  | Shutdown
  | ForceClose
  | ForceCloseWithDelay
  | StartRead
  | StopRead
  | Retrieve (n : Z).

Definition do_api (a : api) (c : conn) : res conn :=
  match a with
  | Send m w => send m w c
  | Shutdown => shutdown c
  | ForceClose => forceClose c
  | ForceCloseWithDelay => forceCloseWithDelay c
  | StartRead => startReadInLoop c
  | StopRead => stopReadInLoop c
  | Retrieve n => b ← bq_retrieve (inputBuffer_ c) n; Ok (with_input b (received c) c)
  end.

(** The user's code: the calls each callback makes, given the connection it finds. *)
Context (script : callback → conn → list api).

(** A user callback: it is recorded and makes its calls. *)
Definition run_callback (cb : callback) (c : conn) : res conn :=
  let c := with_events (events c ++ [cb]) c in mfold do_api (script cb c) c.

(** ** Handlers *)
Definition connectEstablished (c : conn) : res conn :=
  _ ← assert_ (bool_decide (state_ c = kConnecting));
  let c := setState kConnected c in
  c ← on_channel ch_tie c;
  c ← on_channel ch_enableReading c;
  run_callback (CbConnection true) c.

(** handleClose: closeCallback_ is the server's or client's removeConnection, which queues
    connectDestroyed in the connection's loop. *)
Definition handleClose (c : conn) : res conn :=
  _ ← assert_ (open c);
  let c := setState kDisconnected c in
  c ← on_channel ch_disableAll c;
  c ← run_callback (CbConnection false) c;
  Ok (queueInLoop FConnectDestroyed c).

(** handleError only reads and logs SO_ERROR. *)
Definition handleError (c : conn) : res conn := Ok c.

Definition handleRead (r : Buf.read_result) (c : conn) : res conn :=
  '(n, b) ← bq_readFd (inputBuffer_ c) r;
  let c := with_input b (received c ++ match r with Buf.ReadOk bs => bs | _ => [] end) c in
  if 0 <? n then run_callback CbMessage c
  else if n =? 0 then handleClose c
  else handleError c.

Definition handleWrite (w : write_result) (c : conn) : res conn :=
  if ch_isWriting (channel_ c) then
    match w with
    | Wrote n =>
        if 0 <? n then
          let c := with_output (outputBuffer_ c)
                     (wire c ++ take (Z.to_nat n) (bq_content (outputBuffer_ c))) (accepted c) c in
          b ← bq_retrieve (outputBuffer_ c) n;
          let c := with_output b (wire c) (accepted c) c in
          if bq_readableBytes (outputBuffer_ c) =? 0 then
            c ← on_channel ch_disableWriting c;
            let c := if writeCompleteCallback_ c then queueInLoop FWriteComplete c else c in
            if bool_decide (state_ c = kDisconnecting) then shutdownInLoop c else Ok c
          else Ok c
        else Ok c
    | WriteErr _ => Ok c
    end
  else Ok c.

Definition forceCloseInLoop (c : conn) : res conn :=
  if open c then handleClose c else Ok c.

Definition connectDestroyed (c : conn) : res conn :=
  c ← (if bool_decide (state_ c = kConnected) then
         let c := setState kDisconnected c in
         c ← on_channel ch_disableAll c;
         run_callback (CbConnection false) c
       else Ok c);
  on_channel ch_remove c.

(** ~TcpConnection, and ~Channel of its channel *)
Definition destructor (c : conn) : res unit :=
  _ ← assert_ (bool_decide (state_ c = kDisconnected));
  assert_ (negb (ch_added (channel_ c))).

(** Running a queued functor; [w] answers its write. *)
Definition run_functor (f : functor) (w : write_result) (c : conn) : res conn :=
  match f with
  | FSend m => sendInLoop_piece (SP.StringPiece_string m) w c     (* bound as a std::string *)
  | FShutdown => shutdownInLoop c
  | FForceClose => forceCloseInLoop c
  | FStartRead => startReadInLoop c
  | FStopRead => stopReadInLoop c
  | FWriteComplete => run_callback CbWriteComplete c
  | FHighWaterMark n => run_callback (CbHighWaterMark n) c
  | FConnectDestroyed => connectDestroyed c
  end.

(** ** The connection in its loop *)

(** Channel::handleEventWithGuard with this connection's callbacks, up to the write; [r] and
    [w] answer the readv and the write of the handlers. *)
Definition has (m revents : Z) : bool := negb (Z.land revents m =? 0).
Definition on_revents_read (revents : Z) (r : Buf.read_result) (c : conn) : res conn :=
  c ← (if has Poll.POLLHUP revents && negb (has Poll.POLLIN revents) then handleClose c else Ok c);
  c ← (if has (Z.lor Poll.POLLERR Poll.POLLNVAL) revents then handleError c else Ok c);
  if has (Z.lor (Z.lor Poll.POLLIN Poll.POLLPRI) Poll.POLLRDHUP) revents then handleRead r c else Ok c.
Definition on_revents (revents : Z) (r : Buf.read_result) (w : write_result) (c : conn) : res conn :=
  c ← on_revents_read revents r c;
  if has Poll.POLLOUT revents then handleWrite w c else Ok c.

(** The calls other threads make: the check of state_ and the assignment to it come first,
    the functor is queued later; startRead and stopRead check nothing. *)
Inductive foreign :=
  | RSend (message : list byte)
  | RShutdown
  | RForceClose
  | RForceCloseWithDelay
  | RStartRead
  | RStopRead.

Definition arm (f : functor) (c : conn) : conn := with_queue (queue c) (armed c ++ [f]) c.
Definition send_foreign (message : list byte) (c : conn) : conn :=
  if bool_decide (state_ c = kConnected) then arm (FSend message) c else c.
Definition startRead_foreign (c : conn) : conn := arm FStartRead c.
Definition stopRead_foreign (c : conn) : conn := arm FStopRead c.
Definition call_foreign (a : foreign) (c : conn) : conn :=
  match a with
  | RSend m => send_foreign m c
  | RShutdown => if bool_decide (state_ c = kConnected) then arm FShutdown (setState kDisconnecting c) else c
  | RForceClose => if open c then arm FForceClose (setState kDisconnecting c) else c
  | RForceCloseWithDelay => if open c then setState kDisconnecting c else c
  | RStartRead => startRead_foreign c
  | RStopRead => stopRead_foreign c
  end.

Inductive event :=
  | Established                                 (* TcpServer runs connectEstablished *)
  | Revents (revents : Z) (r : Buf.read_result) (w : write_result)
  | RunFunctor (w : write_result)               (* the oldest pending functor *)
  | Foreign (a : foreign)
  | Enqueue (i : nat)                           (* a thread queues the functor it holds *)
  | DelayedForceClose                           (* the timer of forceCloseWithDelay *)
  | ServerGone.                                 (* ~TcpServer runs connectDestroyed *)

Definition exec (e : event) (c : conn) : res conn :=
  match e with
  | Established => connectEstablished c
  | Revents v r w => on_revents v r w c
  | RunFunctor w =>
      match queue c with
      | [] => Ok c
      | f :: q => run_functor f w (with_queue q (armed c) c)
      end
  | Foreign a => Ok (call_foreign a c)
  | Enqueue i =>
      Ok (match armed c !! i with
          | Some f => with_queue (queue c ++ [f]) (delete i (armed c)) c
          | None => c
          end)
  | DelayedForceClose => forceClose c
  | ServerGone => connectDestroyed c
  end.

(** ** The invariant *)

(** [n_destroy]: the queued calls of connectDestroyed. *)
Definition is_destroy (f : functor) : bool :=
  match f with FConnectDestroyed => true | _ => false end.
Definition n_destroy (q : list functor) : nat := length (List.filter is_destroy q).
#[local] Arguments n_destroy : simpl never.

(** The connection callbacks run, in order. *)
Definition ups (es : list callback) : list bool :=
  omap (λ e, match e with CbConnection b => Some b | _ => None end) es.

#[local] Arguments ups : simpl never.

(** [pend]: a call of connectDestroyed is about to be queued. *)
Record inv (pend : bool) (c : conn) : Prop := mkInv {
  inv_ch : ch_ok (channel_ c);
  inv_in : bq_ok (inputBuffer_ c);
  inv_out : bq_ok (outputBuffer_ c);
  inv_stream : wire c ++ bq_content (outputBuffer_ c) = concat (accepted c);
  inv_writing : state_ c ≠ kDisconnected →
    (ch_isWriting (channel_ c) = true ↔ bq_content (outputBuffer_ c) ≠ []);
  inv_quiet : state_ c = kDisconnected →
    ch_isReading (channel_ c) = false ∧ ch_isWriting (channel_ c) = false;
  inv_added : open c = true → ch_added (channel_ c) = true;
  inv_fin : fin c = true → state_ c ≠ kDisconnected →
    state_ c = kDisconnecting ∧ bq_content (outputBuffer_ c) = [];
  inv_shutdown : FShutdown ∈ queue c ++ armed c → state_ c = kDisconnecting ∨ state_ c = kDisconnected;
  inv_destroy : (n_destroy (queue c) + Nat.b2n pend =
    if decide (state_ c = kDisconnected) then Nat.b2n (ch_added (channel_ c)) else 0)%nat;
  inv_armed : n_destroy (armed c) = 0%nat;
  inv_ups : ups (events c) = match state_ c with
    | kConnecting => [] | kConnected | kDisconnecting => [true] | kDisconnected => [true; false] end;
  inv_input : ∃ consumed, received c = consumed ++ bq_content (inputBuffer_ c)
}.

Context `{!ByteQueueLaws B} `{!ChannelLaws C}.

(** What write(2) promises: it takes between 0 and [len] bytes; after shutdown(SHUT_WR) it
    fails with EPIPE. *)
Definition write_ok (len : Z) (w : write_result) (c : conn) : Prop :=
  match w with Wrote n => 0 ≤ n ≤ len ∧ fin c = false | WriteErr e => fin c = true → e = EPIPE end.

(** The output buffer stays within the address space. *)
Definition room_ok (len : Z) (c : conn) : Prop :=
  zlen (bq_content (outputBuffer_ c)) ≤ bq_limit ∧ len ≤ bq_limit.

Lemma n_destroy_app q1 q2 : n_destroy (q1 ++ q2) = (n_destroy q1 + n_destroy q2)%nat.
Proof. unfold n_destroy. by rewrite List.filter_app, length_app. Qed.

Lemma ups_app e1 e2 : ups (e1 ++ e2) = ups e1 ++ ups e2.
Proof. unfold ups. apply omap_app. Qed.

Lemma bq_empty b : bq_ok b → (bq_readableBytes b =? 0) = bool_decide (bq_content b = []).
Proof.
  intros Hb. rewrite bq_readable_law by done. by destruct (bq_content b).
Qed.

(** The bookkeeping functors do not concern the invariant. *)
Lemma queue_inv pend f c :
  inv pend c → is_destroy f = false →
  f ≠ FShutdown ∨ state_ c = kDisconnecting ∨ state_ c = kDisconnected →
  inv pend (queueInLoop f c).
Proof.
  intros [] Hf Hs. split; cbn; try done.
  - intros Hin. destruct Hs as [Hs|Hs]; [|done]. apply inv_shutdown0.
    rewrite !elem_of_app, list_elem_of_singleton in Hin. rewrite elem_of_app. naive_solver.
  - rewrite n_destroy_app, <-inv_destroy0.
    assert (n_destroy [f] = 0%nat) as -> by (by destruct f). lia.
Qed.

(** What calls of the interface keep. *)
Record keeps (c c' : conn) : Prop := mkKeeps {
  k_events : events c' = events c;
  k_down : state_ c = kDisconnected → state_ c' = kDisconnected;
  k_open : open c = true → open c' = true;
  k_armed : armed c' = armed c
}.

Lemma keeps_refl c : keeps c c.
Proof. by split. Qed.

Lemma keeps_trans c1 c2 c3 : keeps c1 c2 → keeps c2 c3 → keeps c1 c3.
Proof. intros [] []. split; try congruence; auto. Qed.

(** The output side changes, everything else stays. *)
Lemma output_inv pend c ch b w a :
  inv pend c → state_ c ≠ kDisconnected → fin c = false →
  ch_ok ch → ch_isReading ch = ch_isReading (channel_ c) → ch_added ch = true →
  bq_ok b → w ++ bq_content b = concat a → (ch_isWriting ch = true ↔ bq_content b ≠ []) →
  inv pend (with_channel ch (with_output b w a c)).
Proof.
  intros [] Hst Hfin Hch Hrd Had Hb Hstream Hwr. split; cbn; try done.
  - congruence.
  - by rewrite decide_False in * by done.
Qed.

Lemma buffer_rest_spec pend c w a rest remaining :
  inv pend c → open c = true → fin c = false → room_ok (zlen rest) c → rest ≠ [] →
  w ++ bq_content (outputBuffer_ c) ++ rest = concat a →
  ∃ c', buffer_rest rest remaining (with_output (outputBuffer_ c) w a c) = Ok c' ∧
        inv pend c' ∧ keeps c c' ∧ state_ c' = state_ c.
Proof.
  intros Hinv Ho Hfin [Hr1 Hr2] Hrest Hstream.
  assert (state_ c ≠ kDisconnected) as Hst by (intros E; unfold open in Ho; by rewrite E in Ho).
  destruct (bq_append_law (outputBuffer_ c) rest) as (b & Hb & Hbok & Hbc); [apply Hinv|done|done|].
  unfold buffer_rest. cbn [outputBuffer_ highWaterMark_ highWaterMarkCallback_ with_output].
  match goal with |- context [if ?b then queueInLoop ?f ?x else ?y] =>
    set (q := if b then queueInLoop f x else y) end.
  assert (∃ c1, q = with_output (outputBuffer_ c1) w a c1 ∧ inv pend c1 ∧ keeps c c1 ∧
    state_ c1 = state_ c ∧ fin c1 = false ∧ outputBuffer_ c1 = outputBuffer_ c ∧
    channel_ c1 = channel_ c) as (c1 & -> & Hinv1 & Hk1 & Hs1 & Hf1 & Ho1 & Hc1).
  { unfold q. destruct (_ && _ && _).
    - exists (queueInLoop (FHighWaterMark (bq_readableBytes (outputBuffer_ c) + remaining)) c).
      split; [done|]. split; [|by split_and!]. apply queue_inv; [done|done|by left].
    - exists c. by split_and!; [| |apply keeps_refl|..]. }
  cbn [outputBuffer_ with_output wire accepted]. rewrite Ho1, Hb. cbn [mbind res_bind].
  cbn [channel_ with_output]. rewrite Hc1.
  assert (bq_content b ≠ []) as Hne by (rewrite Hbc; by destruct (bq_content (outputBuffer_ c)), rest).
  destruct (ch_isWriting (channel_ c)) eqn:Ew; cbn [negb].
  - exists (with_output b w a c1). split; [done|]. split; [|split; [by destruct Hk1|done]].
    assert (with_output b w a c1 = with_channel (channel_ c1) (with_output b w a c1)) as -> by (by destruct c1).
    apply output_inv; try done; try (by rewrite Hbc); rewrite ?Hs1, ?Hc1; try done.
    + apply Hinv.
    + by apply Hinv.
  - destruct (ch_enableWriting_law (channel_ c)) as (ch & Hch & Hok & Hrd & Hwr & Had); [apply Hinv|].
    unfold on_channel. cbn [channel_ with_output]. rewrite Hc1, Hch. cbn [mbind res_bind].
    exists (with_channel ch (with_output b w a c1)). split; [done|].
    split; [|split; [by destruct Hk1|done]].
    apply output_inv; try done; try (by rewrite Hbc); rewrite ?Hs1, ?Hc1; done.
Qed.

(** Taking a message over without buffering any of it. *)
Lemma accept_inv pend c w a :
  inv pend c → open c = true → fin c = false →
  w ++ bq_content (outputBuffer_ c) = concat a →
  inv pend (with_output (outputBuffer_ c) w a c).
Proof.
  intros Hinv Ho Hfin Hs.
  assert (state_ c ≠ kDisconnected) as Hst by (intros E; unfold open in Ho; by rewrite E in Ho).
  assert (with_output (outputBuffer_ c) w a c =
    with_channel (channel_ c) (with_output (outputBuffer_ c) w a c)) as -> by (by destruct c).
  apply output_inv; try done; try apply Hinv; done.
Qed.

(** The message, what was written of it and the rest, after the direct write. *)
Lemma send_after_write pend c w data nwrote :
  inv pend c → open c = true → fin c = false → room_ok (zlen data) c → 0 ≤ nwrote ≤ zlen data →
  w ++ bq_content (outputBuffer_ c) ++ drop (Z.to_nat nwrote) data = concat (accepted c ++ [data]) →
  ∃ c', (if 0 <? zlen data - nwrote
         then buffer_rest (drop (Z.to_nat nwrote) data) (zlen data - nwrote)
                (with_output (outputBuffer_ c) w (accepted c ++ [data]) c)
         else Ok (with_output (outputBuffer_ c) w (accepted c ++ [data]) c)) = Ok c' ∧
        inv pend c' ∧ keeps c c' ∧ state_ c' = state_ c.
Proof.
  intros Hinv Ho Hfin [Hr1 Hr2] Hn Hs. destruct (Z.ltb_spec 0 (zlen data - nwrote)).
  - apply buffer_rest_spec; try done.
    + split; [done|]. rewrite length_drop. lia.
    + intros E%(f_equal length). rewrite length_drop in E. cbn in E. lia.
  - eexists. split; [done|]. split; [|by split; [split|]].
    apply accept_inv; try done. rewrite skipn_all2 in Hs by lia. by rewrite app_nil_r in Hs.
Qed.

(** sendInLoop: written directly, buffered, split between the two, or dropped because the
    peer is gone. *)
Lemma sendInLoop_spec pend data w c :
  inv pend c → open c = true → write_ok (zlen data) w c → room_ok (zlen data) c →
  ∃ c', sendInLoop data w c = Ok c' ∧ inv pend c' ∧ keeps c c' ∧ state_ c' = state_ c.
Proof.
  intros Hinv Ho Hw Hr.
  assert (state_ c ≠ kDisconnected) as Hst by (intros E; unfold open in Ho; by rewrite E in Ho).
  assert (∀ w, w ++ data = concat (accepted c) ++ data → w ++ data = concat (accepted c ++ [data])) as Hcat
    by (intros ? ->; rewrite concat_app; cbn; by rewrite app_nil_r).
  pose proof (inv_stream _ _ Hinv) as Hs.
  unfold sendInLoop. rewrite bool_decide_false by done. unfold try_write.
  rewrite bq_empty by apply Hinv. destruct (inv_writing _ _ Hinv Hst) as [Hw1 Hw2].
  destruct (ch_isWriting (channel_ c)) eqn:Ew; cbn [negb andb].
  - assert (fin c = false) as Hfin.
    { destruct (fin c) eqn:Ef; [|done]. destruct (inv_fin _ _ Hinv Ef Hst). by destruct Hw1. }
    cbv beta iota zeta. rewrite assert_true by lia. cbn [mbind res_bind negb andb].
    apply (send_after_write pend c (wire c) data 0); try done; [lia|]. cbn [Z.to_nat drop].
    rewrite app_assoc. apply Hcat. by rewrite Hs.
  - assert (bq_content (outputBuffer_ c) = []) as He.
    { destruct (decide (bq_content (outputBuffer_ c) = [])) as [|Hne]; [done|]. by specialize (Hw2 Hne). }
    rewrite bool_decide_true by done. rewrite He, app_nil_r in Hs.
    destruct w as [n|e]; cbn [write_ok] in Hw; cbv beta iota zeta.
    + destruct Hw as [Hn Hfin]. rewrite assert_true by lia. cbn [mbind res_bind negb andb].
      set (c0 := if (zlen data - n =? 0) && writeCompleteCallback_ c then queueInLoop FWriteComplete c else c).
      assert (inv pend c0 ∧ keeps c c0 ∧ state_ c0 = state_ c ∧ fin c0 = false ∧ open c0 = true ∧
              outputBuffer_ c0 = outputBuffer_ c ∧ accepted c0 = accepted c)
        as (Hinv0 & Hk0 & Hs0 & Hf0 & Ho0 & Hb0 & Ha0).
      { unfold c0. destruct ((zlen data - n =? 0) && writeCompleteCallback_ c).
        - split; [by apply queue_inv; [| |left]|]. by split; [split|].
        - split; [done|]. by split; [apply keeps_refl|]. }
      destruct (send_after_write pend c0 (wire c ++ take (Z.to_nat n) data) data n)
        as (c' & Hc' & Hinv' & Hk' & Hs'); try done.
      { unfold room_ok. by rewrite Hb0. }
      { rewrite Hb0, He, Ha0. cbn. rewrite <-app_assoc, take_drop. apply Hcat. by rewrite Hs. }
      exists c'. split; [|split; [done|]; split; [by eapply keeps_trans|congruence]].
      rewrite <-Hc', Ha0, Hb0. unfold c0. cbn [writeCompleteCallback_ with_output].
      by destruct ((zlen data - n =? 0) && writeCompleteCallback_ c).
    + rewrite assert_true by lia. cbn [mbind res_bind].
      destruct (if negb (e =? EWOULDBLOCK) then (e =? EPIPE) || (e =? ECONNRESET) else false) eqn:Ee.
      * cbn [negb andb]. exists c. by split_and!; [| |apply keeps_refl|].
      * assert (fin c = false) as Hfin.
        { destruct (fin c); [|done]. specialize (Hw eq_refl). subst e. done. }
        cbn [negb andb]. apply (send_after_write pend c (wire c) data 0); try done; [lia|].
        cbn [Z.to_nat drop]. rewrite He. cbn. apply Hcat. by rewrite Hs.
Qed.

(** ** Calls of the interface *)
Definition api_ok (a : api) (c : conn) : Prop :=
  match a with
  | Send m w => state_ c = kConnected → write_ok (zlen m) w c ∧ room_ok (zlen m) c
  | StartRead => state_ c ≠ kDisconnected
  | StopRead => state_ c = kDisconnected → ch_added (channel_ c) = true
  | Retrieve n => 0 ≤ n ≤ zlen (bq_content (inputBuffer_ c))
  | Shutdown | ForceClose | ForceCloseWithDelay => True
  end.

Lemma open_Connected c : state_ c = kConnected → open c = true.
Proof. intros E. unfold open. by rewrite E. Qed.

Lemma open_not_down c : open c = true → state_ c ≠ kDisconnected ∧ state_ c ≠ kConnecting.
Proof. unfold open. by destruct (state_ c). Qed.

(** From kConnected or kDisconnecting to kDisconnecting. *)
Lemma disconnecting_inv pend c : inv pend c → open c = true → inv pend (setState kDisconnecting c).
Proof.
  intros [] Ho. pose proof (open_not_down _ Ho) as [Hd Hc]. split; cbn; auto; try done.
  - intros Hf _. destruct (inv_fin0 Hf Hd). done.
  - rewrite decide_False in inv_destroy0 by done. by rewrite decide_False.
  - rewrite inv_ups0. by destruct (state_ c).
Qed.

Lemma shutdownInLoop_spec pend c :
  inv pend c → state_ c = kDisconnecting ∨ state_ c = kDisconnected →
  ∃ c', shutdownInLoop c = Ok c' ∧ inv pend c' ∧ keeps c c' ∧ state_ c' = state_ c.
Proof.
  intros Hinv Hst. unfold shutdownInLoop. eexists. split; [done|].
  destruct (ch_isWriting (channel_ c)) eqn:Ew; cbn [negb]; [by split; [|split; [apply keeps_refl|]]|].
  split; [|by split; [split|]]. pose proof Hinv as []. split; cbn; try done.
  intros _ Hd. destruct Hst as [Hst|]; [|done]. split; [done|].
  destruct (decide (bq_content (outputBuffer_ c) = [])) as [|Hne]; [done|].
  apply (inv_writing0 Hd) in Hne. congruence.
Qed.

(** The channel changes its reading interest while the connection is up, or turns it off. *)
Lemma reading_inv pend c ch r :
  inv pend c → ch_ok ch → ch_isWriting ch = ch_isWriting (channel_ c) → ch_added ch = true →
  state_ c ≠ kDisconnected ∨ ch_isReading ch = false ∧ ch_added (channel_ c) = true →
  inv pend (with_reading r (with_channel ch c)).
Proof.
  intros [] Hok Hw Ha Hst. split; cbn; try done.
  - by rewrite Hw.
  - rewrite Hw. intros Hd. destruct Hst as [|[? _]]; [done|]. by destruct (inv_quiet0 Hd).
  - case_decide; [|done]. rewrite Ha. destruct Hst as [|[_ E]]; [done|]. by rewrite E in inv_destroy0.
Qed.

Lemma do_api_spec pend a c :
  inv pend c → api_ok a c → ∃ c', do_api a c = Ok c' ∧ inv pend c' ∧ keeps c c'.
Proof.
  intros Hinv Hok. destruct a as [m w| | | | | |n]; cbn [do_api api_ok] in *.
  - unfold send. case_bool_decide as Hst; [|exists c; by split_and!; [| |apply keeps_refl]].
    destruct (Hok Hst). destruct (sendInLoop_spec pend m w c) as (c' & ? & ? & ? & _); try done.
    { by apply open_Connected. }
    by exists c'.
  - unfold shutdown. case_bool_decide as Hst; [|exists c; by split_and!; [| |apply keeps_refl]].
    destruct (shutdownInLoop_spec pend (setState kDisconnecting c)) as (c' & ? & ? & Hk & Hs).
    { by apply disconnecting_inv, open_Connected. }
    { by left. }
    exists c'. split_and!; try done. eapply keeps_trans; [|exact Hk]. split; try done. cbn. congruence.
  - unfold forceClose. eexists. split; [done|]. destruct (open c) eqn:Ho; [|by split; [|apply keeps_refl]].
    split; [by apply queue_inv; [apply disconnecting_inv| |left]|].
    split; try done. cbn. by destruct (open_not_down _ Ho).
  - unfold forceCloseWithDelay. eexists. split; [done|].
    destruct (open c) eqn:Ho; [|by split; [|apply keeps_refl]].
    split; [by apply disconnecting_inv|]. split; try done. cbn. by destruct (open_not_down _ Ho).
  - unfold startReadInLoop. destruct (_ || _); [|exists c; by split_and!; [| |apply keeps_refl]].
    destruct (ch_enableReading_law (channel_ c)) as (ch & Hch & ? & ? & ? & ?); [apply Hinv|].
    unfold on_channel. rewrite Hch. cbn [mbind res_bind]. eexists. split; [done|].
    split; [|by split]. apply reading_inv; auto.
  - unfold stopReadInLoop. destruct (_ || _); [|exists c; by split_and!; [| |apply keeps_refl]].
    destruct (ch_disableReading_law (channel_ c)) as (ch & Hch & ? & ? & ? & ?); [apply Hinv|].
    unfold on_channel. rewrite Hch. cbn [mbind res_bind]. eexists. split; [done|].
    split; [|by split]. apply reading_inv; auto.
    destruct (decide (state_ c = kDisconnected)); [right; auto|by left].
  - destruct (bq_retrieve_law (inputBuffer_ c) n) as (b & -> & Hb & Hc); [apply Hinv|done|].
    cbn [mbind res_bind]. eexists. split; [done|]. split; [|by split].
    pose proof Hinv as []. split; cbn; try done.
    destruct inv_input0 as [cons Hcons]. exists (cons ++ take (Z.to_nat n) (bq_content (inputBuffer_ c))).
    by rewrite Hcons, Hc, <-app_assoc, take_drop.
Qed.

(** Each call of the list is admissible when it is made. *)
Fixpoint calls_ok (l : list api) (c : conn) : Prop :=
  match l with
  | [] => True
  | a :: l => api_ok a c ∧ ∀ c', do_api a c = Ok c' → calls_ok l c'
  end.

Lemma calls_spec pend l c :
  inv pend c → calls_ok l c → ∃ c', mfold do_api l c = Ok c' ∧ inv pend c' ∧ keeps c c'.
Proof.
  revert c. induction l as [|a l IH]; intros c Hinv Hok.
  { exists c. by split_and!; [| |apply keeps_refl]. }
  destruct Hok as [Ha Hl]. destruct (do_api_spec pend a c Hinv Ha) as (c1 & H1 & Hinv1 & Hk1).
  destruct (IH c1 Hinv1 (Hl _ H1)) as (c2 & H2 & Hinv2 & Hk2). exists c2. cbn [mfold]. rewrite H1.
  split_and!; try done. by eapply keeps_trans.
Qed.

Lemma open_or_down c : state_ c ≠ kConnecting → open c = true ∨ state_ c = kDisconnected.
Proof. unfold open. destruct (state_ c); auto. Qed.

Lemma keeps_live c c' : keeps c c' → state_ c ≠ kConnecting → state_ c' ≠ kConnecting.
Proof.
  intros [] [Ho|Hd]%open_or_down; [by apply open_not_down, k_open0|by rewrite k_down0].
Qed.

(** The user's callbacks use the interface as it may be used. *)
Context (script_ok : ∀ cb c, calls_ok (script cb c) c).

Lemma run_callback_spec pend cb c :
  inv pend (with_events (events c ++ [cb]) c) →
  ∃ c', run_callback cb c = Ok c' ∧ inv pend c' ∧ keeps (with_events (events c ++ [cb]) c) c'.
Proof. intros Hinv. unfold run_callback. by apply calls_spec. Qed.

Lemma callback_inv pend cb c :
  inv pend c → (∀ b, cb ≠ CbConnection b) → inv pend (with_events (events c ++ [cb]) c).
Proof.
  intros [] Hcb. split; cbn; try done. rewrite ups_app.
  assert (ups [cb] = []) as -> by (destruct cb; try done; by destruct (Hcb up)).
  by rewrite app_nil_r.
Qed.

(** ** Handlers *)
Lemma on_channel_Ok op c ch : op (channel_ c) = Ok ch → on_channel op c = Ok (with_channel ch c).
Proof. intros E. unfold on_channel. by rewrite E. Qed.

Lemma connectEstablished_spec c :
  inv false c → state_ c = kConnecting →
  ∃ c', connectEstablished c = Ok c' ∧ inv false c' ∧ armed c' = armed c ∧ open c' = true.
Proof.
  intros Hinv Hst. unfold connectEstablished. rewrite bool_decide_true by done. cbn [assert_ mbind res_bind].
  destruct (ch_tie_law (channel_ c)) as (ch1 & H1 & Hok1 & Hr1 & Hw1 & Ha1); [apply Hinv|].
  destruct (ch_enableReading_law ch1 Hok1) as (ch2 & H2 & Hok2 & Hr2 & Hw2 & Ha2).
  rewrite (on_channel_Ok ch_tie _ ch1) by done. cbn [mbind res_bind].
  rewrite (on_channel_Ok ch_enableReading _ ch2) by done. cbn [mbind res_bind].
  set (c2 := with_channel ch2 _).
  destruct (run_callback_spec false (CbConnection true) c2) as (c' & Hc' & Hinv' & []).
  - pose proof Hinv as []. rewrite Hst in *. split; cbn; try done.
    + intros _. rewrite Hw2, Hw1. by apply inv_writing0.
    + intros Hf _. by destruct (inv_fin0 Hf ltac:(done)).
    + intros Hs. by destruct (inv_shutdown0 Hs).
    + by rewrite ups_app, inv_ups0.
  - exists c'. split_and!; try done. by apply k_open0.
Qed.

(** The common part of handleClose and connectDestroyed: down, silent, and the user told. *)
Lemma go_down_spec c :
  inv false c → open c = true →
  ∃ c1, on_channel ch_disableAll (setState kDisconnected c) = Ok c1 ∧
  ∃ c', run_callback (CbConnection false) c1 = Ok c' ∧ inv true c' ∧ armed c' = armed c ∧
        state_ c' = kDisconnected.
Proof.
  intros Hinv Ho. pose proof (open_not_down _ Ho) as [Hd Hnc].
  destruct (ch_disableAll_law (channel_ c)) as (ch & Hch & Hok & Hr & Hw & Ha); [apply Hinv|].
  eexists. split; [by apply on_channel_Ok|].
  destruct (run_callback_spec true (CbConnection false) (with_channel ch (setState kDisconnected c)))
    as (c' & Hc' & Hinv' & []).
  - pose proof Hinv as []. rewrite decide_False in inv_destroy0 by done. split; cbn; try done; auto.
    + rewrite decide_True, Ha by done. cbn in *. lia.
    + rewrite ups_app, inv_ups0. by destruct (state_ c).
  - exists c'. split_and!; try done. by apply k_down0.
Qed.

Lemma handleClose_spec c :
  inv false c → open c = true →
  ∃ c', handleClose c = Ok c' ∧ inv false c' ∧ armed c' = armed c ∧ state_ c' = kDisconnected.
Proof.
  intros Hinv Ho. unfold handleClose. rewrite Ho. cbn [assert_ mbind res_bind].
  destruct (go_down_spec c Hinv Ho) as (c1 & -> & c' & Hc' & Hinv' & Har & Hst).
  cbn [mbind res_bind]. rewrite Hc'. cbn [mbind res_bind]. eexists. split; [done|].
  split; [|done]. pose proof Hinv' as []. split; cbn; try done.
  - by right.
  - rewrite n_destroy_app, <-inv_destroy0. unfold n_destroy at 2. cbn. lia.
Qed.

Lemma conn_handleRead_spec r c :
  inv false c → open c = true →
  match r with Buf.ReadOk bs => zlen bs ≤ bq_capacity (inputBuffer_ c) | Buf.ReadErr _ => True end →
  zlen (bq_content (inputBuffer_ c)) ≤ bq_limit →
  ∃ c', handleRead r c = Ok c' ∧ inv false c' ∧ state_ c' ≠ kConnecting.
Proof.
  intros Hinv Ho Hr Hlim. unfold handleRead. destruct r as [e|bs].
  { rewrite bq_readFd_err_law. cbn [mbind res_bind].
    change (0 <? -1) with false. change (-1 =? 0) with false. cbn. eexists. split; [done|].
    rewrite app_nil_r. pose proof (open_not_down _ Ho) as [_ Hnc]. split; [|done]. by destruct Hinv. }
  destruct (bq_readFd_law (inputBuffer_ c) bs) as (b & -> & Hb & Hc); [apply Hinv|done|done|].
  cbn [mbind res_bind]. set (c1 := with_input b (received c ++ bs) c).
  assert (inv false c1) as Hinv1.
  { pose proof Hinv as []. split; cbn; try done. destruct inv_input0 as [cons Hcons]. exists cons.
    by rewrite Hcons, Hc, app_assoc. }
  destruct (Z.ltb_spec 0 (zlen bs)).
  - destruct (run_callback_spec false CbMessage c1) as (c' & ? & ? & Hk); [by apply callback_inv|].
    exists c'. split_and!; try done. eapply keeps_live; [exact Hk|]. by apply open_not_down.
  - rewrite (proj2 (Z.eqb_eq _ _)) by lia.
    destruct (handleClose_spec c1 Hinv1 Ho) as (c' & ? & ? & ? & Hst'). exists c'. by rewrite Hst'.
Qed.

Lemma conn_handleWrite_spec w c :
  inv false c → state_ c ≠ kConnecting → write_ok (zlen (bq_content (outputBuffer_ c))) w c →
  ∃ c', handleWrite w c = Ok c' ∧ inv false c' ∧ state_ c' ≠ kConnecting.
Proof.
  intros Hinv Hnc Hw. unfold handleWrite.
  destruct (ch_isWriting (channel_ c)) eqn:Ew; [|by exists c].
  assert (open c = true) as Ho.
  { destruct (decide (state_ c = kDisconnected)) as [Hd|]; [destruct (inv_quiet _ _ Hinv Hd); congruence|].
    unfold open. by destruct (state_ c). }
  pose proof (open_not_down _ Ho) as [Hd _].
  destruct w as [n|e]; [|by exists c]. destruct Hw as [Hn Hfin].
  destruct (Z.ltb_spec 0 n) as [Hpos|]; [|by exists c].
  cbn [outputBuffer_ with_output]. pose proof (inv_stream _ _ Hinv) as Hs.
  destruct (bq_retrieve_law (outputBuffer_ c) n) as (b & -> & Hb & Hc); [apply Hinv|done|].
  cbn [mbind res_bind outputBuffer_ with_output wire accepted].
  rewrite bq_empty by done. set (w1 := wire c ++ take (Z.to_nat n) (bq_content (outputBuffer_ c))).
  assert (w1 ++ bq_content b = concat (accepted c)) as Hs1
    by (unfold w1; by rewrite Hc, <-app_assoc, take_drop).
  case_bool_decide as He.
  - destruct (ch_disableWriting_law (channel_ c)) as (ch & Hch & Hok & Hr & Hwr & Ha); [apply Hinv|].
    rewrite (on_channel_Ok ch_disableWriting _ ch) by done. cbn [mbind res_bind].
    set (c1 := with_channel ch (with_output b w1 (accepted c) c)).
    assert (inv false c1) as Hinv1.
    { apply output_inv; try done. rewrite Hwr, He. split; done. }
    match goal with |- context [if writeCompleteCallback_ ?x then queueInLoop ?f ?y else ?z] =>
      set (c2 := if writeCompleteCallback_ x then queueInLoop f y else z) end.
    assert (inv false c2 ∧ state_ c2 = state_ c) as (Hinv2 & Hs2).
    { unfold c2. fold c1. destruct (writeCompleteCallback_ _); [|done].
      split; [|done]. by apply queue_inv; [| |left]. }
    case_bool_decide as Hst; [|exists c2; by rewrite Hs2].
    destruct (shutdownInLoop_spec false c2 Hinv2) as (c' & ? & ? & _ & Hs'); [by left|].
    exists c'. split_and!; try done. congruence.
  - exists (with_output b w1 (accepted c) c). split; [done|]. split; [|done].
    assert (with_output b w1 (accepted c) c =
      with_channel (channel_ c) (with_output b w1 (accepted c) c)) as -> by (by destruct c).
    apply output_inv; try done; try apply Hinv; try done.
Qed.

(** The channel of a connection that is down is removed. *)
Lemma remove_spec c :
  inv true c → state_ c = kDisconnected →
  ∃ c', on_channel ch_remove c = Ok c' ∧ inv false c' ∧ armed c' = armed c ∧
        state_ c' = kDisconnected.
Proof.
  intros Hinv Hst. pose proof Hinv as []. rewrite decide_True in inv_destroy0 by done.
  destruct (inv_quiet0 Hst) as [Hr Hw].
  destruct (ch_remove_law (channel_ c)) as (ch & Hch & Hok & Hr' & Hw' & Ha'); try done.
  { destruct (ch_added (channel_ c)); [done|]. cbn in *. lia. }
  eexists. split; [by apply on_channel_Ok|]. split; [|done].
  split; cbn; try done.
  - unfold open. cbn. by rewrite Hst.
  - rewrite decide_True by done. rewrite Ha'. destruct (ch_added (channel_ c)); cbn in *; lia.
Qed.

(** connectDestroyed, queued by handleClose (the connection is down) or called by the
    destructor of the server (it is still kConnected). *)
Lemma connectDestroyed_spec c :
  inv true c ∧ state_ c = kDisconnected ∨ inv false c ∧ state_ c = kConnected →
  ∃ c', connectDestroyed c = Ok c' ∧ inv false c' ∧ armed c' = armed c ∧ state_ c' = kDisconnected.
Proof.
  unfold connectDestroyed. intros [[Hinv Hst]|[Hinv Hst]]; rewrite Hst.
  - by apply remove_spec.
  - rewrite bool_decide_true by done.
    destruct (go_down_spec c Hinv) as (c1 & -> & c' & Hc' & Hinv' & Har & Hst'); [by apply open_Connected|].
    cbn [mbind res_bind]. rewrite Hc'. cbn [mbind res_bind].
    destruct (remove_spec c' Hinv' Hst') as (c2 & ? & ? & ? & ?). exists c2. split_and!; congruence.
Qed.

(** ** Every step of the system *)

(** What the loop, the kernel and the users guarantee for a step: only channels with an
    interest are reported, and HUP without IN comes without urgent data; readv returns at
    most what it was offered; write(2) as in [write_ok]; other threads hold the connection
    only after it was published by the connection callback, the length of their messages is
    not negative as an int (it never is below 2^31 bytes), their startRead reaches the
    loop before the connection is down and their stopRead before it is destroyed; the server goes away when the connection is not half closed. The calls this
    excludes do go wrong: [startRead_after_close], [stopRead_after_destroy],
    [foreign_send_truncates], [destroyed_while_disconnecting]. *)
Definition enabled (e : event) (c : conn) : Prop :=
  match e with
  | Established => state_ c = kConnecting
  | Revents v r w =>
      state_ c ≠ kConnecting ∧
      (ch_isReading (channel_ c) = true ∨ ch_isWriting (channel_ c) = true) ∧
      (has Poll.POLLHUP v = true → has Poll.POLLIN v = false →
       has (Z.lor Poll.POLLPRI Poll.POLLRDHUP) v = false) ∧
      match r with Buf.ReadOk bs => zlen bs ≤ bq_capacity (inputBuffer_ c) | _ => True end ∧
      zlen (bq_content (inputBuffer_ c)) ≤ bq_limit ∧
      ∀ c1, on_revents_read v r c = Ok c1 → write_ok (zlen (bq_content (outputBuffer_ c1))) w c1
  | RunFunctor w =>
      match queue c with
      | FSend m :: _ => state_ c ≠ kDisconnected →
          match SP.as_string (SP.StringPiece_string m) with
          | Ok d => write_ok (zlen d) w c ∧ room_ok (zlen d) c
          | Err _ => False
          end
      | FStartRead :: _ => state_ c ≠ kDisconnected
      | FStopRead :: _ => state_ c = kDisconnected → ch_added (channel_ c) = true
      | _ => True
      end
  | Foreign _ | DelayedForceClose => state_ c ≠ kConnecting
  | Enqueue _ => True
  | ServerGone => state_ c = kConnected
  end.

Definition Inv (c : conn) : Prop :=
  inv false c ∧ (state_ c = kConnecting → queue c = [] ∧ armed c = []).

Lemma Inv_live c : inv false c → state_ c ≠ kConnecting → Inv c.
Proof. by split. Qed.

Lemma has_lor a b v : has (Z.lor a b) v = has a v || has b v.
Proof.
  unfold has. rewrite Z.land_lor_distr_r.
  destruct (Z.eqb_spec (Z.lor (Z.land v a) (Z.land v b)) 0) as [E|E].
  - apply Z.lor_eq_0_iff in E as [-> ->]. done.
  - destruct (Z.eqb_spec (Z.land v a) 0) as [Ea|]; [|done].
    destruct (Z.eqb_spec (Z.land v b) 0) as [Eb|]; [|done]. by rewrite Ea, Eb in E.
Qed.

Lemma on_revents_read_spec v r c :
  inv false c → open c = true →
  (has Poll.POLLHUP v = true → has Poll.POLLIN v = false →
   has (Z.lor Poll.POLLPRI Poll.POLLRDHUP) v = false) →
  match r with Buf.ReadOk bs => zlen bs ≤ bq_capacity (inputBuffer_ c) | _ => True end →
  zlen (bq_content (inputBuffer_ c)) ≤ bq_limit →
  ∃ c', on_revents_read v r c = Ok c' ∧ inv false c' ∧ state_ c' ≠ kConnecting.
Proof.
  intros Hinv Ho Hv Hr Hl. unfold on_revents_read, handleError.
  rewrite <-Z.lor_assoc, (has_lor Poll.POLLIN).
  destruct (has Poll.POLLHUP v) eqn:Eh, (has Poll.POLLIN v) eqn:Ei; cbn [andb negb orb].
  2: { destruct (handleClose_spec c Hinv Ho) as (c' & -> & Hi & _ & Hst). cbn [mbind res_bind].
       rewrite Hv by done. exists c'. rewrite Hst.
       split; [by destruct (has (Z.lor Poll.POLLERR Poll.POLLNVAL) v)|done]. }
  all: cbn [mbind res_bind]; destruct (has (Z.lor Poll.POLLERR Poll.POLLNVAL) v); cbn [mbind res_bind];
    try (by apply conn_handleRead_spec); destruct (has (Z.lor Poll.POLLPRI Poll.POLLRDHUP) v);
    try (by apply conn_handleRead_spec); exists c; destruct (open_not_down _ Ho); by split_and!.
Qed.

Lemma pop_inv f q c :
  inv false c → queue c = f :: q → inv (is_destroy f) (with_queue q (armed c) c).
Proof.
  intros [] Hq. rewrite Hq in *. split; cbn; try done.
  - intros Hin. apply inv_shutdown0. cbn. by right.
  - rewrite <-inv_destroy0. unfold n_destroy. cbn. destruct (is_destroy f); cbn; lia.
Qed.

Lemma conn_run_functor_spec f q w c :
  inv false c → queue c = f :: q → state_ c ≠ kConnecting → enabled (RunFunctor w) c →
  ∃ c', run_functor f w (with_queue q (armed c) c) = Ok c' ∧ inv false c' ∧ state_ c' ≠ kConnecting.
Proof.
  intros Hinv Hq Hnc He. cbn [enabled] in He. rewrite Hq in He. pose proof (pop_inv _ _ _ Hinv Hq) as Hp.
  pose proof (inv_shutdown _ _ Hinv) as Hsh. rewrite Hq in Hsh.
  set (c1 := with_queue q (armed c) c) in *.
  assert (∀ cb, (∀ b, cb ≠ CbConnection b) → inv false c1 →
    ∃ c', run_callback cb c1 = Ok c' ∧ inv false c' ∧ state_ c' ≠ kConnecting) as Hcb.
  { intros cb Hcb Hc1. destruct (run_callback_spec false cb c1) as (c' & ? & ? & Hk); [by apply callback_inv|].
    exists c'. split_and!; try done. by eapply keeps_live. }
  destruct f; cbn [run_functor is_destroy] in *.
  - destruct (open_or_down c Hnc) as [Ho|Hd].
    + destruct (open_not_down _ Ho) as [Hd _]. specialize (He Hd). unfold sendInLoop_piece.
      rewrite bool_decide_false by done. destruct (SP.as_string _) as [d|] eqn:Ed; [|done]. cbn [mbind res_bind].
      destruct He. destruct (sendInLoop_spec false d w c1) as (c' & ? & ? & Hk & Hs); try done.
      exists c'. split_and!; try done. by rewrite Hs.
    + exists c1. unfold sendInLoop_piece. rewrite bool_decide_true by done. done.
  - destruct (shutdownInLoop_spec false c1 Hp) as (c' & ? & ? & _ & Hs); [apply Hsh; left|].
    exists c'. split_and!; try done. by rewrite Hs.
  - unfold forceCloseInLoop. destruct (open c1) eqn:Ho; [|by exists c1].
    destruct (handleClose_spec c1 Hp Ho) as (c' & ? & ? & _ & Hs). exists c'. by rewrite Hs.
  - destruct (do_api_spec false StartRead c1 Hp He) as (c' & ? & ? & Hk).
    exists c'. split_and!; try done. by eapply keeps_live.
  - destruct (do_api_spec false StopRead c1 Hp He) as (c' & ? & ? & Hk).
    exists c'. split_and!; try done. by eapply keeps_live.
  - by apply Hcb.
  - by apply Hcb.
  - destruct (connectDestroyed_spec c1) as (c' & ? & ? & _ & Hs); [|exists c'; by rewrite Hs].
    left. split; [done|]. destruct (open_or_down c Hnc) as [Ho|Hd]; [|done].
    destruct (open_not_down _ Ho) as [Hd _]. pose proof (inv_destroy _ _ Hp) as E.
    rewrite decide_False in E by done. cbn in E. lia.
Qed.

Lemma arm_inv f c :
  inv false c → is_destroy f = false →
  f ≠ FShutdown ∨ state_ c = kDisconnecting ∨ state_ c = kDisconnected → inv false (arm f c).
Proof.
  intros [] Hf Hs. split; cbn; try done.
  - intros Hin. destruct Hs as [Hs|Hs]; [|done]. apply inv_shutdown0.
    rewrite !elem_of_app, list_elem_of_singleton in Hin. rewrite elem_of_app. naive_solver.
  - rewrite n_destroy_app, inv_armed0. by destruct f.
Qed.

Lemma enqueue_inv i f c :
  inv false c → armed c !! i = Some f → inv false (with_queue (queue c ++ [f]) (delete i (armed c)) c).
Proof.
  intros [] Hf.
  assert (∀ g, g ∈ (queue c ++ [f]) ++ delete i (armed c) → g ∈ queue c ++ armed c) as Hsub.
  { intros g. rewrite !elem_of_app, list_elem_of_singleton. intros [[?| ->]|Hg]; auto.
    - right. by apply list_elem_of_lookup_2 in Hf.
    - right. rewrite delete_take_drop, elem_of_app in Hg. rewrite <-(take_drop_middle _ _ _ Hf), elem_of_app.
      destruct Hg; [by left|right; by right]. }
  pose proof (delete_take_drop (armed c) i) as Hd. pose proof (take_drop_middle _ _ _ Hf) as Ht.
  rewrite <-Ht, n_destroy_app in inv_armed0. change (f :: ?l) with ([f] ++ l) in inv_armed0.
  rewrite n_destroy_app in inv_armed0. split; cbn; try done; auto.
  - rewrite n_destroy_app, <-inv_destroy0. lia.
  - rewrite Hd, n_destroy_app. lia.
Qed.

Lemma call_foreign_inv a c :
  inv false c → state_ c ≠ kConnecting →
  inv false (call_foreign a c) ∧ state_ (call_foreign a c) ≠ kConnecting.
Proof.
  intros Hinv Hnc. destruct a; cbn [call_foreign].
  - unfold send_foreign. case_bool_decide; [|done]. split; [|done]. apply arm_inv; auto.
  - case_bool_decide; [|done]. split; [|done].
    apply arm_inv; auto. by apply disconnecting_inv, open_Connected.
  - destruct (open c) eqn:Ho; [|done]. split; [|done]. apply arm_inv; auto. by apply disconnecting_inv.
  - destruct (open c) eqn:Ho; [|done]. split; [|done]. by apply disconnecting_inv.
  - split; [|done]. apply arm_inv; auto.
  - split; [|done]. apply arm_inv; auto.
Qed.

Lemma conn_exec_spec e c : Inv c → enabled e c → ∃ c', exec e c = Ok c' ∧ Inv c'.
Proof.
  intros [Hinv Hfresh] He. destruct e as [|v r w|w|a|i| |]; cbn [exec].
  - destruct (connectEstablished_spec c Hinv He) as (c' & ? & ? & _ & Ho). exists c'. split; [done|].
    apply Inv_live; [done|]. by apply open_not_down.
  - destruct He as (Hnc & Hint & Hv & Hr & Hl & Hw).
    assert (open c = true) as Ho.
    { destruct (open_or_down c Hnc) as [|Hd]; [done|]. destruct (inv_quiet _ _ Hinv Hd) as [Hq1 Hq2].
      destruct Hint; congruence. }
    destruct (on_revents_read_spec v r c Hinv Ho Hv Hr Hl) as (c1 & H1 & Hinv1 & Hnc1).
    specialize (Hw c1 H1). unfold on_revents. rewrite H1. cbn [mbind res_bind].
    destruct (has Poll.POLLOUT v); [|exists c1; split; [done|by apply Inv_live]].
    destruct (conn_handleWrite_spec w c1 Hinv1 Hnc1 Hw) as (c2 & ? & ? & ?). exists c2.
    split; [done|]. by apply Inv_live.
  - destruct (queue c) as [|f q] eqn:Hq; [exists c; split; [done|]; split; [done|by rewrite Hq]|].
    destruct (conn_run_functor_spec f q w c) as (c' & ? & ? & ?); try done.
    { intros Hc. by destruct (Hfresh Hc). }
    exists c'. split; [done|]. by apply Inv_live.
  - eexists. split; [done|]. destruct (call_foreign_inv a c Hinv He). by apply Inv_live.
  - eexists. split; [done|]. destruct (armed c !! i) as [f|] eqn:Hi; [|done].
    split; [by apply enqueue_inv|]. cbn. intros Hc. destruct (Hfresh Hc) as [_ E]. by rewrite E in Hi.
  - destruct (do_api_spec false ForceClose c Hinv I) as (c' & ? & ? & Hk). exists c'. split; [done|].
    apply Inv_live; [done|]. by eapply keeps_live.
  - destruct (connectDestroyed_spec c) as (c' & ? & ? & _ & Hs); [by right|]. exists c'.
    split; [done|]. apply Inv_live; [done|]. by rewrite Hs.
Qed.

Inductive step (c c' : conn) : Prop :=
  | step_intro e : enabled e c → exec e c = Ok c' → step c c'.

Definition reachable (ch : C) (hwm : option Z) (wcc : bool) (c : conn) : Prop :=
  let c0 := newConn ch in
  let c1 := match hwm with Some n => setHighWaterMarkCallback n c0 | None => c0 end in
  rtc step (if wcc then setWriteCompleteCallback c1 else c1) c.

Lemma newConn_Inv ch :
  ch_ok ch → ch_isReading ch = false → ch_isWriting ch = false → Inv (newConn ch).
Proof.
  intros Hok Hr Hw. destruct bq_new_law as [Hb Hc]. split; [|done]. split; cbn; rewrite ?Hc, ?Hw; try done.
  - intros Hf. by apply not_elem_of_nil in Hf.
  - by exists [].
Qed.

Lemma reachable_Inv ch hwm wcc c :
  ch_ok ch → ch_isReading ch = false → ch_isWriting ch = false → reachable ch hwm wcc c → Inv c.
Proof.
  intros Hok Hr Hw. unfold reachable. apply rtc_invariant.
  - intros a b Ha [e He Hx]. destruct (conn_exec_spec e a Ha He) as (b' & Hb & ?). congruence.
  - pose proof (newConn_Inv ch Hok Hr Hw) as [[] Hf]. split; [|by destruct hwm, wcc].
    by destruct hwm, wcc; split.
Qed.

(** ** What one write of the output buffer does *)
Lemma handleWrite_effect n c :
  inv false c → state_ c ≠ kDisconnected → 0 < n ≤ zlen (bq_content (outputBuffer_ c)) →
  ∃ c', handleWrite (Wrote n) c = Ok c' ∧ state_ c' = state_ c ∧ accepted c' = accepted c ∧
    bq_content (outputBuffer_ c') = drop (Z.to_nat n) (bq_content (outputBuffer_ c)) ∧
    fin c' = (fin c || bool_decide (state_ c = kDisconnecting) &&
              bool_decide (n = zlen (bq_content (outputBuffer_ c)))).
Proof.
  intros Hinv Hd Hn. unfold handleWrite.
  assert (ch_isWriting (channel_ c) = true) as ->.
  { apply (inv_writing _ _ Hinv Hd). intros E. rewrite E in Hn. cbn in Hn. lia. }
  rewrite (proj2 (Z.ltb_lt 0 n)) by lia. cbn [outputBuffer_ with_output].
  destruct (bq_retrieve_law (outputBuffer_ c) n) as (b & -> & Hb & Hc); [apply Hinv|lia|].
  cbn [mbind res_bind outputBuffer_ with_output wire accepted]. rewrite bq_empty by done.
  assert (bool_decide (bq_content b = []) = bool_decide (n = zlen (bq_content (outputBuffer_ c)))) as ->.
  { apply bool_decide_ext. rewrite Hc, <-length_zero_iff_nil, length_drop. lia. }
  case_bool_decide as He.
  - destruct (ch_disableWriting_law (channel_ c)) as (ch & Hch & _ & _ & Hwr & _); [apply Hinv|].
    rewrite (on_channel_Ok ch_disableWriting _ ch) by done. cbn [mbind res_bind].
    destruct (writeCompleteCallback_ _); cbn [state_ queueInLoop with_queue with_channel with_output];
      case_bool_decide; unfold shutdownInLoop; cbn [channel_ queueInLoop with_queue with_channel with_output];
      rewrite ?Hwr; eexists; (split; [done|]); cbn; rewrite ?andb_false_r, ?orb_false_r, ?orb_true_r; by split_and!.
  - eexists. split; [done|]. cbn. by rewrite andb_false_r, orb_false_r.
Qed.

(** Writing everything out, in any chunks. *)
Lemma drain_spec ns c :
  inv false c → state_ c = kDisconnecting → fin c = false → ns ≠ [] →
  Forall (λ n, 0 < n) ns → foldr Z.add 0 ns = zlen (bq_content (outputBuffer_ c)) →
  ∃ c', mfold (λ n, handleWrite (Wrote n)) ns c = Ok c' ∧ fin c' = true ∧ inv false c' ∧
        accepted c' = accepted c ∧ bq_content (outputBuffer_ c') = [].
Proof.
  revert c. induction ns as [|n ns IH]; intros c Hinv Hst Hfin Hne Hpos Hsum; [done|].
  inversion_clear Hpos as [|?? Hn Hns]. cbn [foldr] in Hsum.
  assert (0 ≤ foldr Z.add 0 ns) as Hge by (clear -Hns; induction Hns; cbn; lia).
  assert (state_ c ≠ kDisconnected ∧ state_ c ≠ kConnecting) as [Hd Hnc] by (by rewrite Hst).
  destruct (handleWrite_effect n c Hinv Hd ltac:(lia)) as (c1 & H1 & Hs1 & Ha1 & Ho1 & Hf1).
  destruct (conn_handleWrite_spec (Wrote n) c Hinv Hnc) as (c1' & H1' & Hinv1 & _); [by split; [lia|]|].
  rewrite H1 in H1'. injection H1' as <-. cbn [mfold]. rewrite H1. cbn [mbind res_bind].
  rewrite Hfin, Hst, bool_decide_true in Hf1 by done. cbn [orb andb] in Hf1.
  destruct ns as [|n2 ns2].
  - exists c1. cbn [mfold]. cbn [foldr] in Hsum. rewrite bool_decide_true in Hf1 by lia.
    split_and!; try done. rewrite Ho1. apply length_zero_iff_nil. rewrite length_drop. lia.
  - assert (0 < foldr Z.add 0 (n2 :: ns2)) as Hgt.
    { inversion_clear Hns as [|?? Hn2 Hns2]. cbn.
      assert (0 ≤ foldr Z.add 0 ns2) by (clear -Hns2; induction Hns2; cbn; lia). lia. }
    rewrite bool_decide_false in Hf1 by lia.
    destruct (IH c1) as (c' & ? & ? & ? & ? & ?); try done; try congruence.
    { rewrite Ho1, length_drop. lia. }
    exists c'. split_and!; try done. congruence.
Qed.

(** Nothing is queued: sendInLoop writes directly. *)
Definition direct (c : conn) : bool :=
  negb (ch_isWriting (channel_ c)) && (bq_readableBytes (outputBuffer_ c) =? 0).
Definition n_written (w : write_result) (c : conn) : Z :=
  match w with Wrote n => if direct c then n else 0 | WriteErr _ => 0 end.
Definition peer_gone (w : write_result) (c : conn) : bool :=
  match w with WriteErr e => direct c && ((e =? EPIPE) || (e =? ECONNRESET)) | Wrote _ => false end.
(** A growth from [old] to [new] crosses the mark. *)
Definition crosses (mark old new : Z) : bool := (mark <=? new) && (old <? mark).

Lemma buffer_rest_queue rest remaining c c' :
  buffer_rest rest remaining c = Ok c' →
  let oldLen := bq_readableBytes (outputBuffer_ c) in
  queue c' = queue c ++ (if (highWaterMark_ c <=? oldLen + remaining) && (oldLen <? highWaterMark_ c) &&
                            highWaterMarkCallback_ c
                         then [FHighWaterMark (oldLen + remaining)] else []).
Proof.
  unfold buffer_rest. destruct (_ && _ && _); intros (b & _ & Hc)%bind_Ok; revert Hc;
    unfold on_channel; cbn; destruct (ch_isWriting (channel_ c)); cbn;
    try (destruct (ch_enableWriting (channel_ c)); cbn; [|done]); intros [= <-]; cbn; by rewrite ?app_nil_r.
Qed.

Lemma sendInLoop_queue data w c c' :
  state_ c ≠ kDisconnected → sendInLoop data w c = Ok c' →
  let oldLen := bq_readableBytes (outputBuffer_ c) in
  let remaining := zlen data - n_written w c in
  queue c' = queue c ++
    (if direct c && (match w with Wrote n => n =? zlen data | _ => false end) && writeCompleteCallback_ c
     then [FWriteComplete] else []) ++
    (if negb (peer_gone w c) && (0 <? remaining) && crosses (highWaterMark_ c) oldLen (oldLen + remaining) &&
        highWaterMarkCallback_ c
     then [FHighWaterMark (oldLen + remaining)] else []).
Proof.
  intros Hd. unfold sendInLoop. rewrite bool_decide_false by done.
  unfold try_write, peer_gone, n_written, crosses. fold (direct c). cbv zeta.
  destruct (direct c) eqn:Ed; cbn [andb].
  - destruct w as [n|e]; cbv beta iota zeta.
    + rewrite (Z.eqb_sym n). replace (zlen data - n =? 0) with (zlen data =? n) by lia.
      intros (_ & _ & H1)%bind_Ok. revert H1. cbn [negb andb writeCompleteCallback_ with_output].
      destruct (Z.ltb_spec 0 (zlen data - n)).
      * rewrite (proj2 (Z.eqb_neq (zlen data) n)) by lia. cbn [andb app].
        intros H2%buffer_rest_queue. exact H2.
      * destruct ((zlen data =? n) && writeCompleteCallback_ c); intros [= <-]; cbn; by rewrite ?app_nil_r.
    + intros (_ & _ & H1)%bind_Ok. revert H1. rewrite Z.sub_0_r.
      assert ((if negb (e =? EWOULDBLOCK) then (e =? EPIPE) || (e =? ECONNRESET) else false) =
              ((e =? EPIPE) || (e =? ECONNRESET))) as ->.
      { destruct (Z.eqb_spec e EWOULDBLOCK) as [->|]; done. }
      destruct ((e =? EPIPE) || (e =? ECONNRESET)); cbn [negb andb app];
        [intros [= <-]; by rewrite app_nil_r|].
      destruct (0 <? zlen data); cbn [andb]; [|intros [= <-]; cbn; by rewrite app_nil_r].
      intros H2%buffer_rest_queue. exact H2.
  - intros (_ & _ & H1)%bind_Ok. revert H1. cbn [negb andb app].
    assert (match w with Wrote _ => 0 | WriteErr _ => 0 end = 0) as -> by (by destruct w).
    assert (negb match w with Wrote _ => false | WriteErr _ => false end = true) as -> by (by destruct w).
    rewrite Z.sub_0_r. cbn [andb]. destruct (0 <? zlen data); cbn [andb]; [|intros [= <-]; cbn; by rewrite app_nil_r].
    intros H2%buffer_rest_queue. exact H2.
Qed.

(** ** Theorems *)


(** C1: the byte streams are intact. In every reachable state the bytes the kernel has
    taken followed by the output buffer are exactly the messages accepted, in order; the
    channel asks for writability exactly when the output buffer is not empty; when the
    connection has sent its FIN while it was up, all accepted bytes were written before; and
    the input buffer is the end of what was received. *)
Theorem stream_integrity (ch : C) (hwm : option Z) (wcc : bool) (c : conn)
    (Hok : ch_ok ch) (Hr : ch_isReading ch = false) (Hw : ch_isWriting ch = false)
    (Hreach : reachable ch hwm wcc c) :
  wire c ++ bq_content (outputBuffer_ c) = concat (accepted c) ∧
  (state_ c ≠ kDisconnected →
     (ch_isWriting (channel_ c) = true ↔ bq_content (outputBuffer_ c) ≠ [])) ∧
  (fin c = true → state_ c ≠ kDisconnected → state_ c = kDisconnecting ∧ wire c = concat (accepted c)) ∧
  ∃ consumed, received c = consumed ++ bq_content (inputBuffer_ c).
Proof.
  destruct (reachable_Inv _ _ _ _ Hok Hr Hw Hreach) as [[] _]. split_and!; try done.
  intros Hf Hd. destruct (inv_fin0 Hf Hd) as [Hst E]. split; [done|]. by rewrite <-inv_stream0, E, app_nil_r.
Qed.


(** C18: shutdown() loses nothing. When a connection with unsent output has been shut down,
    then after the socket has taken the output buffer, in whatever pieces, the FIN is sent,
    and by then all accepted bytes have gone to the kernel. *)
Theorem shutdown_flushes (ch : C) (hwm : option Z) (wcc : bool) (c : conn) (ns : list Z)
    (Hok : ch_ok ch) (Hr : ch_isReading ch = false) (Hw : ch_isWriting ch = false)
    (Hreach : reachable ch hwm wcc c) (Hst : state_ c = kConnected)
    (Hout : ns ≠ []) (Hpos : Forall (λ n, 0 < n) ns)
    (Hsum : foldr Z.add 0 ns = zlen (bq_content (outputBuffer_ c))) :
  ∃ c1 c2, shutdown c = Ok c1 ∧ fin c1 = false ∧ state_ c1 = kDisconnecting ∧
    mfold (λ n, handleWrite (Wrote n)) ns c1 = Ok c2 ∧ fin c2 = true ∧ wire c2 = concat (accepted c).
Proof.
  destruct (reachable_Inv _ _ _ _ Hok Hr Hw Hreach) as [Hinv _].
  assert (bq_content (outputBuffer_ c) ≠ []) as Hne.
  { intros E. rewrite E in Hsum. destruct Hpos as [|n ns Hn Hns]; [done|]. cbn in Hsum.
    assert (0 ≤ foldr Z.add 0 ns) by (clear -Hns; induction Hns; cbn; lia). lia. }
  assert (state_ c ≠ kDisconnected) as Hd by congruence.
  assert (fin c = false) as Hfin.
  { destruct (fin c) eqn:E; [|done]. by destruct (inv_fin _ _ Hinv E Hd). }
  assert (inv false (setState kDisconnecting c)) as Hinv1 by (by apply disconnecting_inv, open_Connected).
  destruct (drain_spec ns (setState kDisconnecting c)) as (c2 & Hc2 & Hf2 & Hinv2 & Ha2 & Ho2); try done.
  exists (setState kDisconnecting c), c2. unfold shutdown, shutdownInLoop. rewrite bool_decide_true by done.
  cbn [channel_ setState]. rewrite (proj2 (inv_writing _ _ Hinv Hd) Hne). split_and!; try done.
  pose proof (inv_stream _ _ Hinv2) as E. rewrite Ho2, app_nil_r in E. by rewrite E, Ha2.
Qed.

(** SendInLoop queues the user's callbacks exactly when it should: writeComplete when
    the whole message went out in the direct write, highWaterMark when the bytes buffered
    take the output buffer across the mark from below. *)
Theorem send_queues_callbacks (ch : C) (hwm : option Z) (wcc : bool) (c : conn)
    (data : list byte) (w : write_result)
    (Hok : ch_ok ch) (Hr : ch_isReading ch = false) (Hw : ch_isWriting ch = false)
    (Hreach : reachable ch hwm wcc c) (Hup : open c = true)
    (Hwr : write_ok (zlen data) w c) (Hroom : room_ok (zlen data) c) :
  ∃ c', sendInLoop data w c = Ok c' ∧
  let oldLen := zlen (bq_content (outputBuffer_ c)) in
  let remaining := zlen data - n_written w c in
  queue c' = queue c ++
    (if direct c && (match w with Wrote n => n =? zlen data | _ => false end) && writeCompleteCallback_ c
     then [FWriteComplete] else []) ++
    (if negb (peer_gone w c) && (0 <? remaining) && crosses (highWaterMark_ c) oldLen (oldLen + remaining) &&
        highWaterMarkCallback_ c
     then [FHighWaterMark (oldLen + remaining)] else []).
Proof.
  destruct (reachable_Inv _ _ _ _ Hok Hr Hw Hreach) as [Hinv _].
  destruct (sendInLoop_spec false data w c Hinv Hup Hwr Hroom) as (c' & Hc' & _). exists c'.
  split; [done|]. destruct (open_not_down _ Hup) as [Hd _].
  rewrite (sendInLoop_queue data w c c' Hd Hc'), bq_readable_law by apply Hinv. done.
Qed.

(** ConnectDestroyed, as ~TcpServer runs it on every connection left, aborts on a
    connection that is half closed: state_ is kDisconnecting, so the channel keeps its
    events and Channel::remove asserts that there are none. *)
Theorem destroyed_while_disconnecting (c : conn)
    (Hok : ch_ok (channel_ c)) (Hst : state_ c = kDisconnecting)
    (Hr : ch_isReading (channel_ c) = true) :
  connectDestroyed c = Err AssertFailed.
Proof.
  unfold connectDestroyed, on_channel. rewrite Hst. cbn [bool_decide mbind res_bind].
  rewrite bool_decide_false by done. cbn [mbind res_bind].
  rewrite ch_remove_events_law; [done|done|by left].
Qed.

(** StartRead after the connection has gone down aborts the process: startReadInLoop
    does not look at state_ and enables the channel, and the connectDestroyed that handleClose
    has queued then fails the assertion in Channel::remove. *)
Theorem startRead_after_close (c : conn)
    (Hok : ch_ok (channel_ c)) (Hst : state_ c = kDisconnected)
    (Hr : ch_isReading (channel_ c) = false) :
  (c ← startReadInLoop c; connectDestroyed c) = Err AssertFailed.
Proof.
  unfold startReadInLoop. rewrite Hr, orb_true_r.
  destruct (ch_enableReading_law (channel_ c) Hok) as (ch & Hch & Hok' & Hr' & _).
  rewrite (on_channel_Ok _ _ _ Hch). cbn [mbind res_bind].
  unfold connectDestroyed, on_channel. cbn [state_ with_reading with_channel channel_]. rewrite Hst.
  rewrite bool_decide_false by done. cbn [mbind res_bind].
  rewrite ch_remove_events_law; [done|done|by left].
Qed.

(** StopRead after connectDestroyed aborts the process: disableReading registers the removed
    channel again, and ~Channel asserts that it is not registered. *)
Theorem stopRead_after_destroy (c : conn)
    (Hok : ch_ok (channel_ c)) (Hst : state_ c = kDisconnected) (Hr : reading_ c = true) :
  (c ← stopReadInLoop c; destructor c) = Err AssertFailed.
Proof.
  unfold stopReadInLoop. rewrite Hr. cbn [orb].
  destruct (ch_disableReading_law (channel_ c) Hok) as (ch & Hch & _ & _ & _ & Ha).
  rewrite (on_channel_Ok _ _ _ Hch). cbn [mbind res_bind]. unfold destructor.
  cbn [state_ with_reading with_channel channel_]. by rewrite Hst, Ha.
Qed.

(** A message of 2^32 bytes or more that another thread sends is cut down silently: the bound
    string becomes a StringPiece, whose length is an int. *)
Theorem foreign_send_truncates (m : list byte) (k : Z) (w : write_result) (c : conn)
    (Hm : zlen m = 2 ^ 32 + k) (Hk : 0 ≤ k < 2 ^ 31) (Hst : state_ c ≠ kDisconnected) :
  run_functor (FSend m) w c = sendInLoop (take (Z.to_nat k) m) w c.
Proof.
  cbn [run_functor]. unfold sendInLoop_piece, SP.as_string, SP.StringPiece_string.
  rewrite bool_decide_false by done. cbn [SP.length_ SP.ptr_].
  assert (i32 (zlen m) = k) as ->.
  { rewrite Hm. unfold i32, swrap. cbn. dlia. }
  rewrite bool_decide_true by (rewrite length_app; cbn; lia). cbn [mbind res_bind].
  by rewrite take_app_le by lia.
Qed.

(** A sequence of events that can occur, and where it leads. *)
Fixpoint trace_ok (es : list event) (c : conn) : Prop :=
  match es with
  | [] => True
  | e :: es => enabled e c ∧ match exec e c with Ok c' => trace_ok es c' | Err _ => False end
  end.

Lemma trace_steps es c c' : trace_ok es c → mfold exec es c = Ok c' → rtc step c c'.
Proof.
  revert c. induction es as [|e es IH]; intros c Hok; cbn [mfold].
  - intros [= ->]. constructor.
  - destruct Hok as [He Hok]. destruct (exec e c) as [c1|] eqn:E; [|done]. cbn. intros Hr.
    eapply rtc_l; [by exists e|]. by apply IH.
Qed.
End Conn.

(** ** Witnesses: an echo connection over the real buffer and channel *)
Import Demo.

Abbreviation demo_conn := (@conn Buf.Buffer demo_reactor).

(** The message callback takes all input and sends it back; the socket buffer is full. *)
Definition echo (cb : callback) (c : demo_conn) : list api :=
  match cb with
  | CbMessage =>
      let m := bq_content (inputBuffer_ c) in
      if bool_decide (zlen (bq_content (outputBuffer_ c)) ≤ bq_limit ∧ zlen m ≤ bq_limit)
      then [Retrieve (zlen m); Send m (WriteErr (if fin c then EPIPE else EAGAIN))] else []
  | _ => []
  end.

Lemma echo_ok cb c : calls_ok (echo cb c) c.
Proof.
  destruct cb; try done. cbn -[bq_content bq_retrieve bq_limit].
  case_bool_decide as Hl; [|done]. cbn [calls_ok]. split; [cbn [api_ok]; lia|].
  intros c'. cbn [do_api]. intros (b & _ & [= <-])%bind_Ok. split; [|done]. cbn [api_ok]. intros _.
  split; [|done]. cbn. by intros ->.
Qed.

Definition events0 : list event :=
  [Established; Foreign RStopRead; Enqueue 0; RunFunctor (WriteErr EAGAIN);
   Foreign RStartRead; Enqueue 0; RunFunctor (WriteErr EAGAIN);
   Revents Poll.POLLIN (Buf.ReadOk [x61; x62; x63]) (WriteErr EPIPE);
   Foreign (RSend [x64]); Enqueue 0; RunFunctor (WriteErr EAGAIN)].
Definition c0 : demo_conn := setWriteCompleteCallback (setHighWaterMarkCallback 4 (newConn reactor0)).
Definition c1 : demo_conn :=
  match mfold (exec echo) events0 c0 with Ok c => c | Err _ => c0 end.

Lemma c1_reachable : reachable echo reactor0 (Some 4) true c1.
Proof.
  unfold reachable. fold c0. apply (trace_steps _ events0); [|by vm_compute].
  vm_compute. split_and!; try done; by (left || right).
Qed.


Lemma stream_integrity_witness :
  wire c1 ++ bq_content (outputBuffer_ c1) = concat [[x61; x62; x63]; [x64]].
Proof.
  destruct reactor0_ok as (Hok & Hr & Hw).
  rewrite (proj1 (stream_integrity echo echo_ok reactor0 (Some 4) true c1 Hok Hr Hw c1_reachable)).
  by vm_compute.
Defined.


Lemma shutdown_flushes_witness :
  ∃ d1 d2, shutdown c1 = Ok d1 ∧ fin d1 = false ∧ state_ d1 = kDisconnecting ∧
    mfold (λ n, handleWrite (Wrote n)) [1; 3] d1 = Ok d2 ∧ fin d2 = true ∧
    wire d2 = concat (accepted c1).
Proof.
  destruct reactor0_ok as (Hok & Hr & Hw).
  apply (shutdown_flushes echo echo_ok reactor0 (Some 4) true c1 [1; 3] Hok Hr Hw c1_reachable).
  - by vm_compute.
  - done.
  - by repeat constructor.
  - by vm_compute.
Defined.

Definition established : demo_conn :=
  match exec echo Established c0 with Ok c => c | Err _ => c0 end.
Lemma established_reachable : reachable echo reactor0 (Some 4) true established.
Proof. unfold reachable. fold c0. apply (trace_steps _ [Established]); by vm_compute. Qed.

Lemma send_queues_callbacks_witness :
  ∃ c', sendInLoop [x61; x62; x63; x64; x65; x66] (Wrote 2) established = Ok c' ∧
        queue c' = [FHighWaterMark 4].
Proof.
  destruct reactor0_ok as (Hok & Hr & Hw).
  destruct (send_queues_callbacks echo echo_ok reactor0 (Some 4) true established
    [x61; x62; x63; x64; x65; x66] (Wrote 2) Hok Hr Hw established_reachable) as (c' & Hc' & Hq).
  - by vm_compute.
  - by vm_compute.
  - by vm_compute.
  - exists c'. split; [exact Hc'|]. rewrite Hq. by vm_compute.
Defined.

(** A connection whose shutdown has been called, and one that was closed. *)
Definition half_closed : demo_conn := setState kDisconnecting established.
Definition closed : demo_conn :=
  match handleClose echo established with Ok c => c | Err _ => c0 end.

Lemma established_ok : ch_ok (channel_ established) ∧ ch_ok (channel_ closed).
Proof.
  destruct reactor0_ok as (Hok & Hr & Hw).
  pose proof (reachable_Inv echo echo_ok _ _ _ _ Hok Hr Hw established_reachable) as [Hinv _].
  split; [apply Hinv|]. unfold closed.
  destruct (handleClose_spec echo echo_ok established Hinv) as (c' & -> & Hinv' & _); [by vm_compute|].
  apply Hinv'.
Qed.

Lemma destroyed_while_disconnecting_witness : connectDestroyed echo half_closed = Err AssertFailed.
Proof.
  apply (destroyed_while_disconnecting echo half_closed); [apply established_ok|by vm_compute..].
Defined.

Lemma startRead_after_close_witness :
  (c ← startReadInLoop closed; connectDestroyed echo c) = Err AssertFailed.
Proof.
  apply (startRead_after_close echo closed); [apply established_ok|by vm_compute..].
Defined.

(** A message sent by another thread can stay queued behind the connectDestroyed of its
    connection. The functor of send() holds a plain [this], the connection's last reference
    may go with connectDestroyed, and the functor then runs on a deleted object. *)
Theorem send_outlives_connection :
  ∃ c : demo_conn, reachable echo reactor0 None false c ∧
    queue c = [FConnectDestroyed; FSend [x61]] ∧ armed c = [].
Proof.
  pose (es := [Established; Foreign (RSend [x61]);
    Revents Poll.POLLIN (Buf.ReadOk []) (WriteErr EPIPE); Enqueue 0]).
  exists (match mfold (exec echo) es (newConn reactor0) with Ok c => c | Err _ => newConn reactor0 end).
  split; [|by vm_compute]. unfold reachable. apply (trace_steps _ es); [|by vm_compute].
  vm_compute. split_and!; try done; by (left || right).
Qed.
End Conn.
