(* ===== verification/Connector.v ===== *)
(** * Connector (net/connector.h, net/connector.cc)

    The client's side of connection set-up over any channel that satisfies the interface of
    Interfaces.v. The kernel's answers (the new descriptor, errno of connect(2), SO_ERROR,
    whether the socket is connected to itself) are arguments of the operations. [own] holds
    the descriptors the connector has opened and not yet closed or handed over; closing a
    descriptor that is not there fails the assertion of sockets::close. A turn of the loop is the event phase (poll
    results and expired timers) followed by the functor phase, which runs the functors queued
    before it began. TimerQueue::handleRead looks at the clock when it runs, so a timer armed by
    an event handler can fire in the same event phase if the turn takes as long as its delay. *)

From S2P Require Import Prelude Interfaces Poller.

Module Ctor.

Inductive States := kDisconnected | kConnecting | kConnected.
#[export] Instance States_eq_dec : EqDecision States.
Proof. solve_decision. Defined.

Definition kMaxRetryDelayMs : Z := 30 * 1000.
Definition kInitRetryDelayMs : Z := 500.

Definition EBADF : Z := 9.
Definition EINPROGRESS : Z := 115.
Definition EINTR : Z := 4.
Definition EISCONN : Z := 106.
Definition EAGAIN : Z := 11.
Definition EADDRINUSE : Z := 98.
Definition EADDRNOTAVAIL : Z := 99.
Definition ECONNREFUSED : Z := 111.
Definition ENETUNREACH : Z := 101.

Inductive functor := FStartInLoop | FStopInLoop | FResetChannel.
#[export] Instance functor_eq_dec : EqDecision functor.
Proof. solve_decision. Defined.

Inductive phase := Events | Functors.
#[export] Instance phase_eq_dec : EqDecision phase.
Proof. solve_decision. Defined.

Section Connector.
Context {C : Type} `{ChannelI C}.

Record connector := mkConnector {
  connect_ : bool;
  state_ : States;
  channel_ : option (Z * C);    (* the channel and its fd *)
  retryDelayMs_ : Z;
  pending : list functor;       (* queued in the loop *)
  batch : list functor;         (* taken by doPendingFunctors, not yet run *)
  at_ : phase;
  armed : list Z;               (* timers set since the last poll, with their delays *)
  timers : list Z;              (* timers set before *)
  own : list Z;
  created : list Z;
  closed : list Z;
  delivered : list Z;           (* handed to newConnectionCallback_ *)
  delays : list Z               (* the retry delays since construction or the last restart *)
}.

Definition newConnector : connector :=
  mkConnector false kDisconnected None kInitRetryDelayMs [] [] Functors [] [] [] [] [] [] [].

(** Setters *)
Definition with_state (st : States) (c : connector) : connector :=
  mkConnector (connect_ c) st (channel_ c) (retryDelayMs_ c) (pending c) (batch c) (at_ c)
    (armed c) (timers c) (own c) (created c) (closed c) (delivered c) (delays c).
Definition with_connect (b : bool) (c : connector) : connector :=
  mkConnector b (state_ c) (channel_ c) (retryDelayMs_ c) (pending c) (batch c) (at_ c)
    (armed c) (timers c) (own c) (created c) (closed c) (delivered c) (delays c).
Definition with_channel (ch : option (Z * C)) (c : connector) : connector :=
  mkConnector (connect_ c) (state_ c) ch (retryDelayMs_ c) (pending c) (batch c) (at_ c)
    (armed c) (timers c) (own c) (created c) (closed c) (delivered c) (delays c).
Definition with_retry (d : Z) (ar ds : list Z) (c : connector) : connector :=
  mkConnector (connect_ c) (state_ c) (channel_ c) d (pending c) (batch c) (at_ c)
    ar (timers c) (own c) (created c) (closed c) (delivered c) ds.
Definition with_queue (p b : list functor) (c : connector) : connector :=
  mkConnector (connect_ c) (state_ c) (channel_ c) (retryDelayMs_ c) p b (at_ c)
    (armed c) (timers c) (own c) (created c) (closed c) (delivered c) (delays c).
Definition with_turn (p b : list functor) (a : phase) (ar ts : list Z) (c : connector) : connector :=
  mkConnector (connect_ c) (state_ c) (channel_ c) (retryDelayMs_ c) p b a
    ar ts (own c) (created c) (closed c) (delivered c) (delays c).
Definition with_fds (ow cr cl de : list Z) (c : connector) : connector :=
  mkConnector (connect_ c) (state_ c) (channel_ c) (retryDelayMs_ c) (pending c) (batch c) (at_ c)
    (armed c) (timers c) ow cr cl de (delays c).

Definition queueInLoop (f : functor) (c : connector) : connector :=
  with_queue (pending c ++ [f]) (batch c) c.

(** sockets::close: it asserts that close(2) succeeds, which it does on a descriptor of the
    connector and not on one closed before or on -1. *)
Definition close (fd : Z) (c : connector) : res connector :=
  if bool_decide (fd ∈ own c) then
    Ok (with_fds (filter (λ x, x ≠ fd) (own c)) (created c) (closed c ++ [fd]) (delivered c) c)
  else Err AssertFailed.

Definition retry (sockfd : Z) (c : connector) : res connector :=
  c ← close sockfd c;
  let c := with_state kDisconnected c in
  if connect_ c then
    Ok (with_retry (Z.min (retryDelayMs_ c * 2) kMaxRetryDelayMs)
          (armed c ++ [retryDelayMs_ c]) (delays c ++ [retryDelayMs_ c]) c)
  else Ok c.

Definition connecting (sockfd : Z) (ch : C) (c : connector) : res connector :=
  let c := with_state kConnecting c in
  _ ← assert_ (match channel_ c with None => true | Some _ => false end);
  ch ← ch_enableWriting ch;
  Ok (with_channel (Some (sockfd, ch)) c).

(** [ch] is the new Channel object, [sockfd] the new socket or -1 when socket(2) failed, and
    [savedErrno] what connect(2) said, 0 for success. *)
Definition connect (sockfd savedErrno : Z) (ch : C) (c : connector) : res connector :=
  let c := if 0 <=? sockfd
           then with_fds (sockfd :: own c) (created c ++ [sockfd]) (closed c) (delivered c) c else c in
  if (savedErrno =? 0) || (savedErrno =? EINPROGRESS) || (savedErrno =? EINTR) || (savedErrno =? EISCONN)
  then connecting sockfd ch c
  else if (savedErrno =? EAGAIN) || (savedErrno =? EADDRINUSE) || (savedErrno =? EADDRNOTAVAIL) ||
          (savedErrno =? ECONNREFUSED) || (savedErrno =? ENETUNREACH)
  then retry sockfd c
  else close sockfd c.

Definition startInLoop (sockfd savedErrno : Z) (ch : C) (c : connector) : res connector :=
  _ ← assert_ (bool_decide (state_ c = kDisconnected));
  if connect_ c then connect sockfd savedErrno ch c else Ok c.

(** start() in the loop thread and in another one *)
Definition start (sockfd savedErrno : Z) (ch : C) (c : connector) : res connector :=
  startInLoop sockfd savedErrno ch (with_connect true c).
Definition start_foreign (c : connector) : connector :=
  queueInLoop FStartInLoop (with_connect true c).

Definition restart (sockfd savedErrno : Z) (ch : C) (c : connector) : res connector :=
  let c := with_state kDisconnected c in
  let c := with_retry kInitRetryDelayMs (armed c) [] c in
  let c := with_connect true c in
  startInLoop sockfd savedErrno ch c.

Definition removeAndResetChannel (c : connector) : res (Z * connector) :=
  match channel_ c with
  | None => Err NullDeref
  | Some (fd, ch) =>
      ch ← ch_disableAll ch;
      ch ← ch_remove ch;
      Ok (fd, queueInLoop FResetChannel (with_channel (Some (fd, ch)) c))
  end.

Definition stop (c : connector) : connector := queueInLoop FStopInLoop (with_connect false c).

Definition stopInLoop (c : connector) : res connector :=
  if bool_decide (state_ c = kConnecting) then
    let c := with_state kDisconnected c in
    '(sockfd, c) ← removeAndResetChannel c;
    retry sockfd c
  else Ok c.

(** channel_.reset(): ~Channel asserts that the channel has left the loop. *)
Definition resetChannel (c : connector) : res connector :=
  _ ← match channel_ c with
      | Some (_, ch) => assert_ (negb (ch_added ch))
      | None => Ok tt
      end;
  Ok (with_channel None c).

Definition handleWrite (err : Z) (selfConnect : bool) (c : connector) : res connector :=
  if bool_decide (state_ c = kConnecting) then
    '(sockfd, c) ← removeAndResetChannel c;
    if negb (err =? 0) then retry sockfd c
    else if selfConnect then retry sockfd c
    else
      let c := with_state kConnected c in
      if connect_ c then
        Ok (with_fds (filter (λ x, x ≠ sockfd) (own c)) (created c) (closed c) (delivered c ++ [sockfd]) c)
      else close sockfd c
  else
    _ ← assert_ (bool_decide (state_ c = kDisconnected)); Ok c.

Definition handleError (c : connector) : res connector :=
  if bool_decide (state_ c = kConnecting) then
    '(sockfd, c) ← removeAndResetChannel c;
    retry sockfd c
  else Ok c.

(** ** The connector in its loop *)

(** Channel::handleEventWithGuard: only the error and write callbacks are set. *)
Definition on_revents (revents err : Z) (selfConnect : bool) (c : connector) : res connector :=
  let has m := negb (Z.land revents m =? 0) in
  c ← (if has (Z.lor Poll.POLLERR Poll.POLLNVAL) then handleError c else Ok c);
  if has Poll.POLLOUT then handleWrite err selfConnect c else Ok c.

(** What the kernel and the allocator answer when a connection is attempted. *)
Record attempt := mkAttempt { a_fd : Z; a_errno : Z; a_ch : C }.

Inductive event :=
  | Start (a : attempt)                 (* start() in the loop thread *)
  | StartForeign                        (* start() in another thread *)
  | Stop
  | Restart (a : attempt)
  | Revents (revents err : Z) (selfConnect : bool)
  | Timer (a : attempt)
  | Swap                                (* doPendingFunctors takes the queue *)
  | RunFunctor (a : attempt)
  | PollAgain.                          (* the next turn *)

Definition run_functor (f : functor) (a : attempt) (c : connector) : res connector :=
  match f with
  | FStartInLoop => startInLoop (a_fd a) (a_errno a) (a_ch a) c
  | FStopInLoop => stopInLoop c
  | FResetChannel => resetChannel c
  end.

Definition exec (e : event) (c : connector) : res connector :=
  match e with
  | Start a => start (a_fd a) (a_errno a) (a_ch a) c
  | StartForeign => Ok (start_foreign c)
  | Stop => Ok (stop c)
  | Restart a => restart (a_fd a) (a_errno a) (a_ch a) c
  | Revents v err sc => on_revents v err sc c
  | Timer a =>
      match timers c, armed c with
      | _ :: ts, _ => startInLoop (a_fd a) (a_errno a) (a_ch a)
                        (with_turn (pending c) (batch c) (at_ c) (armed c) ts c)
      | [], _ :: ar => startInLoop (a_fd a) (a_errno a) (a_ch a)
                         (with_turn (pending c) (batch c) (at_ c) ar [] c)
      | [], [] => Ok c
      end
  | Swap => Ok (with_turn [] (pending c) Functors (armed c) (timers c) c)
  | RunFunctor a =>
      match batch c with
      | [] => Ok c
      | f :: fs => run_functor f a (with_queue (pending c) fs c)
      end
  | PollAgain => Ok (with_turn (pending c) (batch c) Events [] (timers c ++ armed c) c)
  end.

(** ** The invariant *)
Definition queued (f : functor) (c : connector) : nat := (cnt f (pending c) + cnt f (batch c))%nat.

(** The calls of startInLoop to come: functors and retry timers. *)
Definition tokens (c : connector) : nat :=
  (queued FStartInLoop c + length (timers c) + length (armed c))%nat.

(** The k-th retry delay: 500 ms, doubled each time, at most 30 s. *)
Definition delay_at (k : nat) : Z := Z.min (kInitRetryDelayMs * 2 ^ Z.of_nat k) kMaxRetryDelayMs.

Definition channel_inv (c : connector) : Prop :=
  match channel_ c with
  | None => state_ c ≠ kConnecting ∧ queued FResetChannel c = 0%nat ∧ own c = []
  | Some (fd, ch) =>
      ch_ok ch ∧ ch_isReading ch = false ∧
      if decide (state_ c = kConnecting)
      then ch_added ch = true ∧ queued FResetChannel c = 0%nat ∧ own c = [fd]
      else ch_added ch = false ∧ ch_isWriting ch = false ∧ queued FResetChannel c = 1%nat ∧ own c = []
  end.

Record inv (c : connector) : Prop := mkInv {
  inv_channel : channel_inv c;
  inv_tokens : (tokens c ≤ 1)%nat;
  inv_idle : (0 < tokens c)%nat → state_ c = kDisconnected;
  inv_stop : (0 < queued FStopInLoop c)%nat → connect_ c = false;
  inv_reset : (0 < queued FResetChannel c)%nat → timers c = [] ∧ queued FStartInLoop c = 0%nat;
  inv_order : at_ c = Functors → (0 < cnt FResetChannel (pending c))%nat → armed c = [];
  inv_phase : at_ c = Events → batch c = [];
  inv_delay : retryDelayMs_ c = delay_at (length (delays c)) ∧ delays c = delay_at <$> seq 0 (length (delays c));
  inv_fds : created c ≡ₚ closed c ++ delivered c ++ own c
}.

(** What the loop, the kernel and the client guarantee for a step: socket(2) succeeds; start is
    called on an idle connector and restart after its connection has ended; a retry timer set
    in this turn does not fire before resetChannel has run, which takes a turn as long as the
    delay. The steps this excludes do go wrong: [socket_failure_aborts],
    [stop_then_start_aborts], [slow_retry_aborts]. *)
Definition attempt_ok (a : attempt) : Prop :=
  0 ≤ a_fd a ∧ ch_ok (a_ch a) ∧ ch_isReading (a_ch a) = false ∧ ch_isWriting (a_ch a) = false.
Definition idle (c : connector) : Prop :=
  state_ c = kDisconnected ∧ channel_ c = None ∧ pending c = [] ∧ batch c = [] ∧
  timers c = [] ∧ armed c = [].

Definition enabled (e : event) (c : connector) : Prop :=
  match e with
  | Start a => idle c ∧ attempt_ok a
  | StartForeign => idle c
  | Stop => True
  | Restart a => state_ c = kConnected ∧ connect_ c = true ∧ channel_ c = None ∧ attempt_ok a
  | Revents _ _ _ => at_ c = Events ∧ ∃ fd ch, channel_ c = Some (fd, ch) ∧ ch_isWriting ch = true
  | Timer a => at_ c = Events ∧ attempt_ok a ∧ (armed c ≠ [] → timers c = [] → channel_ c = None)
  | Swap => at_ c = Events
  | RunFunctor a => at_ c = Functors ∧ attempt_ok a
  | PollAgain => at_ c = Functors ∧ batch c = []
  end.

Context `{!ChannelLaws C}.

Lemma delay_at_S k : delay_at (S k) = Z.min (delay_at k * 2) kMaxRetryDelayMs.
Proof.
  unfold delay_at, kInitRetryDelayMs, kMaxRetryDelayMs. rewrite Nat2Z.inj_succ, Z.pow_succ_r by lia. lia.
Qed.

Lemma queued_queueInLoop f g c :
  queued f (queueInLoop g c) = (queued f c + if decide (g = f) then 1 else 0)%nat.
Proof. unfold queued. cbn. rewrite cnt_app, cnt_cons, cnt_nil. lia. Qed.

(** The channel of an attempt in progress leaves the loop. *)
Lemma removeAndReset_spec c fd ch :
  channel_ c = Some (fd, ch) → ch_ok ch → 
  ∃ ch', removeAndResetChannel c = Ok (fd, queueInLoop FResetChannel (with_channel (Some (fd, ch')) c)) ∧
         ch_ok ch' ∧ ch_isReading ch' = false ∧ ch_isWriting ch' = false ∧ ch_added ch' = false.
Proof.
  intros Hc Hok. unfold removeAndResetChannel. rewrite Hc.
  destruct (ch_disableAll_law ch Hok) as (ch1 & -> & Hok1 & Hr1 & Hw1 & Ha1). cbn [mbind res_bind].
  destruct (ch_remove_law ch1 Hok1 Ha1 Hr1 Hw1) as (ch2 & -> & Hok2 & Hr2 & Hw2 & Ha2). cbn [mbind res_bind].
  by exists ch2.
Qed.

Lemma connecting_channel c :
  inv c → state_ c = kConnecting →
  ∃ fd ch, channel_ c = Some (fd, ch) ∧ ch_ok ch ∧ own c = [fd] ∧ queued FResetChannel c = 0%nat ∧
           tokens c = 0%nat.
Proof.
  intros [] Hst. unfold channel_inv in *. destruct (channel_ c) as [[fd ch]|]; [|by destruct inv_channel0].
  destruct inv_channel0 as (Hok & _ & Hx). rewrite decide_True in Hx by done. destruct Hx as (_ & Hq & Ho).
  exists fd, ch. split_and!; try done.
  destruct (decide (tokens c = 0%nat)); [done|]. specialize (inv_idle0 ltac:(lia)). congruence.
Qed.

(** An attempt ends: its channel is out of the loop, its descriptor closed or handed over,
    and perhaps a retry timer is set. *)
Lemma detach_inv c fd ch' st cl de ar d ds :
  inv c → state_ c = kConnecting → own c = [fd] → queued FResetChannel c = 0%nat → tokens c = 0%nat →
  ch_ok ch' → ch_isReading ch' = false → ch_isWriting ch' = false → ch_added ch' = false →
  st ≠ kConnecting →
  cl ++ de ≡ₚ fd :: closed c ++ delivered c →
  ar = [] ∨ length ar = 1%nat ∧ st = kDisconnected ∧ at_ c = Events →
  d = delay_at (length ds) → ds = delay_at <$> seq 0 (length ds) →
  inv (mkConnector (connect_ c) st (Some (fd, ch')) d (pending c ++ [FResetChannel]) (batch c) (at_ c)
         ar (timers c) [] (created c) cl de ds).
Proof.
  intros [] Hst Ho Hq Ht Hok Hr Hw Ha Hnc Hp Har Hd Hds. unfold tokens, queued in *.
  split; cbn; unfold tokens, queued; cbn;
    rewrite ?cnt_app, ?cnt_cons, ?cnt_nil; cbn [decide]; repeat case_decide; try done; try lia.
  - split_and!; try done. lia.
  - destruct Har as [->|[? _]]; cbn; lia.
  - destruct Har as [->|[? [? _]]]; [cbn; lia|done].
  - intros _. destruct (timers c); cbn in *; [split; [done|lia]|lia].
  - intros Hf _. destruct Har as [->|[_ [_ E]]]; [done|congruence].
  - rewrite inv_fds0, Ho, app_nil_r, Hp. rewrite app_assoc, (Permutation_app_comm _ [fd]). done.
Qed.

Lemma filter_self (fd : Z) : filter (λ x, x ≠ fd) [fd] = [].
Proof. rewrite filter_cons, decide_False by naive_solver. done. Qed.

Lemma close_own fd c :
  own c = [fd] → close fd c = Ok (with_fds [] (created c) (closed c ++ [fd]) (delivered c) c).
Proof.
  intros Ho. unfold close. rewrite Ho, bool_decide_true by (by left). by rewrite filter_self.
Qed.

Lemma closed_perm fd (cl de : list Z) : (cl ++ [fd]) ++ de ≡ₚ fd :: cl ++ de.
Proof. rewrite <-app_assoc. cbn. by rewrite <-Permutation_middle. Qed.

Lemma delays_snoc ds :
  ds = delay_at <$> seq 0 (length ds) →
  ds ++ [delay_at (length ds)] = delay_at <$> seq 0 (length (ds ++ [delay_at (length ds)])).
Proof. intros E. rewrite length_app, Nat.add_1_r, seq_S, fmap_app. cbn. by rewrite <-E. Qed.

(** The attempt in progress fails: handleError, handleWrite with an error, stopInLoop. *)
Lemma fail_spec c :
  inv c → state_ c = kConnecting → at_ c = Events ∨ connect_ c = false →
  ∃ c', ('(sockfd, c) ← removeAndResetChannel c; retry sockfd c) = Ok c' ∧ inv c' ∧
        state_ c' = kDisconnected ∧ (connect_ c = false → timers c' = timers c ∧ armed c' = armed c) ∧
        delivered c' = delivered c ∧ connect_ c' = connect_ c ∧ at_ c' = at_ c.
Proof.
  intros Hinv Hst Hph. destruct (connecting_channel c Hinv Hst) as (fd & ch & Hc & Hok & Ho & Hq & Ht).
  destruct (removeAndReset_spec c fd ch Hc Hok) as (ch' & -> & Hok' & Hr' & Hw' & Ha'). cbn [mbind res_bind].
  unfold retry. rewrite (close_own fd) by done. cbn [mbind res_bind].
  destruct (inv_delay _ Hinv) as [Hd Hds].
  destruct (connect_ c) eqn:Ec; cbn [connect_ with_state with_fds queueInLoop with_queue with_channel]; rewrite Ec.
  - destruct Hph as [Hph|]; [|done].
    assert (armed c = []) as Har by (unfold tokens in Ht; destruct (armed c); cbn in *; [done|lia]).
    eexists. split; [done|]. split; [|by rewrite ?Ec; cbn].
    pose proof (detach_inv c fd ch' kDisconnected (closed c ++ [fd]) (delivered c) [retryDelayMs_ c]
      (Z.min (retryDelayMs_ c * 2) kMaxRetryDelayMs) (delays c ++ [retryDelayMs_ c])) as Hx.
    rewrite Ec in Hx. unfold with_retry. cbn. rewrite ?Har, ?Ec. apply Hx; try done.
    + apply closed_perm.
    + by right.
    + rewrite Hd, <-delay_at_S, length_app, Nat.add_1_r. done.
    + rewrite Hd. by apply delays_snoc.
  - eexists. split; [done|]. split; [|by rewrite ?Ec; cbn].
    pose proof (detach_inv c fd ch' kDisconnected (closed c ++ [fd]) (delivered c) [] (retryDelayMs_ c) (delays c)) as Hx.
    assert (armed c = []) as Har by (unfold tokens in Ht; destruct (armed c); cbn in *; [done|lia]).
    unfold with_state. cbn. rewrite ?Har. apply Hx; try done; [apply closed_perm|by left].
Qed.

Lemma connector_handleWrite_spec err sc c :
  inv c → state_ c ≠ kConnected → at_ c = Events →
  ∃ c', handleWrite err sc c = Ok c' ∧ inv c' ∧
        (connect_ c = false → timers c' = timers c ∧ armed c' = armed c ∧ delivered c' = delivered c) ∧
        connect_ c' = connect_ c.
Proof.
  intros Hinv Hnc Hph. unfold handleWrite. case_bool_decide as Hst.
  2: { exists c. rewrite bool_decide_true by (by destruct (state_ c)). done. }
  destruct (decide (negb (err =? 0) || sc = true)) as [He|He].
  { destruct (fail_spec c Hinv Hst) as (c' & Hc' & ? & ? & ? & ? & ? & ?); [by left|]. exists c'.
    split; [|naive_solver]. rewrite <-Hc'. destruct (removeAndResetChannel c) as [[fd c1]|]; [|done].
    cbn. by destruct (err =? 0), sc. }
  destruct (connecting_channel c Hinv Hst) as (fd & ch & Hc & Hok & Ho & Hq & Ht).
  destruct (removeAndReset_spec c fd ch Hc Hok) as (ch' & -> & Hok' & Hr' & Hw' & Ha'). cbn [mbind res_bind].
  destruct (inv_delay _ Hinv) as [Hd Hds].
  destruct (err =? 0), sc; try done. cbn [negb].
  assert (armed c = []) as Har by (unfold tokens in Ht; destruct (armed c); cbn in *; [done|lia]).
  destruct (connect_ c) eqn:Ec; cbn [connect_ with_state queueInLoop with_queue with_channel]; rewrite Ec.
  - eexists. split; [done|]. split; [|split; [done|done]].
    pose proof (detach_inv c fd ch' kConnected (closed c) (delivered c ++ [fd]) [] (retryDelayMs_ c) (delays c)) as Hx.
    rewrite Ec in Hx. unfold with_fds. cbn. rewrite Ec, Ho, filter_self, Har. apply Hx; try done; [|by left].
    rewrite app_assoc, (Permutation_app_comm _ [fd]). done.
  - rewrite (close_own fd) by done. eexists. split; [done|]. split; [|by rewrite ?Ec; cbn].
    pose proof (detach_inv c fd ch' kConnected (closed c ++ [fd]) (delivered c) [] (retryDelayMs_ c) (delays c)) as Hx.
    rewrite Ec in Hx. unfold with_fds. cbn. rewrite Ec, Har. apply Hx; try done; [apply closed_perm|by left].
Qed.

(** An attempt starts. *)
Lemma startInLoop_spec a c :
  inv c → state_ c = kDisconnected → channel_ c = None → tokens c = 0%nat → attempt_ok a →
  ∃ c', startInLoop (a_fd a) (a_errno a) (a_ch a) c = Ok c' ∧ inv c' ∧ (connect_ c = false → c' = c) ∧
        connect_ c' = connect_ c ∧ delivered c' = delivered c.
Proof.
  intros Hinv Hst Hc Ht (Hfd & Hok & Hr & Hw). unfold startInLoop. rewrite bool_decide_true by done.
  cbn [assert_ mbind res_bind]. destruct (connect_ c) eqn:Ec; [|by exists c].
  pose proof Hinv as []. unfold channel_inv in *. rewrite Hc in *. destruct inv_channel0 as (_ & Hq & Ho).
  assert (armed c = []) as Har by (unfold tokens in Ht; destruct (armed c); cbn in *; [done|lia]).
  destruct inv_delay0 as [Hd Hds].
  unfold connect. rewrite (proj2 (Z.leb_le 0 (a_fd a)) Hfd). destruct (_ || _ || _ || _); [|destruct (_ || _ || _ || _ || _)].
  - unfold connecting. cbn [channel_ with_state with_fds]. rewrite Hc. cbn [assert_ mbind res_bind].
    destruct (ch_enableWriting_law (a_ch a) Hok) as (ch & -> & Hok' & Hr' & _ & Ha'). cbn [mbind res_bind].
    eexists. split; [done|]. split; [|by rewrite ?Ec; cbn]. unfold tokens, queued in *.
    split; cbn; unfold tokens, queued; cbn; try done; try lia.
    + rewrite Ho. split; [done|]. split; [congruence|]. done.
    + rewrite inv_fds0, Ho, app_nil_r. by rewrite app_assoc.
  - unfold retry. rewrite (close_own (a_fd a)) by (cbn; by rewrite Ho). cbn [mbind res_bind].
    cbn [connect_ with_state with_fds]. rewrite Ec. eexists. split; [done|].
    split; [|by rewrite ?Ec; cbn]. unfold tokens, queued in *.
    split; cbn; unfold channel_inv, tokens, queued; cbn; rewrite ?Hc, ?Har; try done; try lia.
    + cbn in *. rewrite Har in Ht. cbn in Ht. lia.
    + rewrite Hd. split; [by rewrite <-delay_at_S, length_app, Nat.add_1_r|by apply delays_snoc].
    + rewrite inv_fds0, Ho, !app_nil_r, <-!app_assoc. cbn.
      by rewrite (Permutation_app_comm (delivered c)).
  - rewrite (close_own (a_fd a)) by (cbn; by rewrite Ho). eexists. split; [done|].
    split; [|by rewrite ?Ec; cbn]. unfold tokens, queued in *.
    split; cbn; unfold channel_inv, tokens, queued; cbn; rewrite ?Hc, ?Har; try done; try lia.
    + by rewrite Hst.
    + cbn in *. rewrite Har in Ht. cbn in Ht. lia.
    + rewrite inv_fds0, Ho, !app_nil_r, <-!app_assoc. cbn.
      by rewrite (Permutation_app_comm (delivered c)).
Qed.

(** A stopped connector stays so: no timer is added and no connection handed over. *)
Definition stays_stopped (c c' : connector) : Prop :=
  connect_ c = false → connect_ c' = false ∧ delivered c' = delivered c ∧
    (length (timers c') + length (armed c') ≤ length (timers c) + length (armed c))%nat.

Lemma connect_on_inv c : inv c → queued FStopInLoop c = 0%nat → inv (with_connect true c).
Proof. intros [] Hq. split; try done. intros Hs. unfold queued in *. cbn in *. lia. Qed.

Lemma no_reset_no_channel c :
  inv c → state_ c = kDisconnected → queued FResetChannel c = 0%nat → channel_ c = None.
Proof.
  intros [] Hst Hq. unfold channel_inv in *. destruct (channel_ c) as [[fd ch]|]; [|done].
  destruct inv_channel0 as (_ & _ & Hx). rewrite decide_False in Hx by congruence.
  destruct Hx as (_ & _ & Hq' & _). lia.
Qed.

Lemma connector_restart_spec a c :
  inv c → enabled (Restart a) c →
  ∃ c', restart (a_fd a) (a_errno a) (a_ch a) c = Ok c' ∧ inv c'.
Proof.
  intros Hinv (Hst & Hc & Hch & Ha). pose proof Hinv as [].
  assert (tokens c = 0%nat) as Ht.
  { destruct (decide (tokens c = 0%nat)); [done|]. specialize (inv_idle0 ltac:(lia)). congruence. }
  unfold channel_inv in inv_channel0. rewrite Hch in inv_channel0.
  assert (queued FStopInLoop c = 0%nat) as Hs.
  { destruct (decide (queued FStopInLoop c = 0%nat)); [done|]. specialize (inv_stop0 ltac:(lia)). congruence. }
  unfold restart. set (c1 := with_connect true _).
  assert (inv c1) as Hinv1.
  { apply connect_on_inv; [|done]. unfold tokens, queued in *.
    split; cbn; unfold channel_inv, tokens, queued; cbn; try done.
    rewrite Hch. by destruct inv_channel0 as (_ & ? & ?). }
  destruct (startInLoop_spec a c1 Hinv1) as (c' & ? & ? & _); try done. by exists c'.
Qed.

Lemma on_revents_spec v err sc c :
  inv c → enabled (Revents v err sc) c →
  ∃ c', on_revents v err sc c = Ok c' ∧ inv c' ∧ stays_stopped c c'.
Proof.
  intros Hinv (Hph & fd & ch & Hch & Hw).
  assert (state_ c = kConnecting) as Hst.
  { destruct (decide (state_ c = kConnecting)); [done|]. pose proof (inv_channel _ Hinv) as Hx.
    unfold channel_inv in Hx. rewrite Hch, decide_False in Hx by done.
    destruct Hx as (_ & _ & _ & Hx & _). congruence. }
  unfold on_revents, handleError, stays_stopped. destruct (negb (Z.land v (Z.lor _ _) =? 0)).
  - rewrite bool_decide_true by done.
    destruct (fail_spec c Hinv Hst) as (c1 & Hc1 & Hinv1 & Hst1 & Ht1 & Hd1 & Hk1 & Ha1); [by left|].
    rewrite Hc1. cbn [mbind res_bind]. destruct (negb _).
    + destruct (connector_handleWrite_spec err sc c1) as (c' & ? & ? & Hx & Hk); try done; try congruence.
      exists c'. split; [done|]. split; [done|]. intros Hf. rewrite Hk1 in Hk. rewrite <-Hk1 in Hf.
      destruct (Hx Hf) as (E1 & E2 & E3). rewrite Hk1 in Hf. destruct (Ht1 Hf) as [E4 E5].
      split; [congruence|]. split; [congruence|]. by rewrite E1, E2, E4, E5.
    + exists c1. split; [done|]. split; [done|]. intros Hf. destruct (Ht1 Hf) as [-> ->].
      split_and!; [congruence|done|lia].
  - cbn [mbind res_bind]. destruct (negb _); [|exists c; split_and!; try done; intros ?; split_and!; done].
    destruct (connector_handleWrite_spec err sc c) as (c' & ? & ? & Hx & Hk); try done; [congruence|].
    exists c'. split; [done|]. split; [done|]. intros Hf. destruct (Hx Hf) as (-> & -> & ->).
    split_and!; [congruence|done|lia].
Qed.

Lemma timer_spec a c :
  inv c → enabled (Timer a) c → ∃ c', exec (Timer a) c = Ok c' ∧ inv c' ∧ stays_stopped c c'.
Proof.
  intros Hinv (Hph & Ha & Hslow). cbn [exec].
  destruct (decide (timers c = [] ∧ armed c = [])) as [[-> ->]|Hne]; [by exists c|].
  pose proof Hinv as []. unfold tokens in *.
  assert (1 ≤ length (timers c) + length (armed c))%nat as Hlen by (destruct (timers c), (armed c); cbn in *; lia || tauto).
  assert (state_ c = kDisconnected) as Hst by (apply inv_idle0; lia).
  assert (channel_ c = None ∧ queued FResetChannel c = 0%nat) as [Hch Hq].
  { destruct (timers c) as [|t ts] eqn:Hts.
    - assert (channel_ c = None) as Hch by (apply Hslow; [intros E; rewrite E in Hlen; cbn in Hlen; lia|done]). split; [done|].
      unfold channel_inv in *. rewrite Hch in *. tauto.
    - assert (queued FResetChannel c = 0%nat) as Hq.
      { destruct (decide (queued FResetChannel c = 0%nat)); [done|]. by destruct (inv_reset0 ltac:(lia)). }
      split; [|done]. by apply no_reset_no_channel. }
  assert (∃ ar ts, match timers c, armed c with
      | _ :: ts, _ => startInLoop (a_fd a) (a_errno a) (a_ch a) (with_turn (pending c) (batch c) (at_ c) (armed c) ts c)
      | [], _ :: ar => startInLoop (a_fd a) (a_errno a) (a_ch a) (with_turn (pending c) (batch c) (at_ c) ar [] c)
      | [], [] => Ok c
      end = startInLoop (a_fd a) (a_errno a) (a_ch a) (with_turn (pending c) (batch c) (at_ c) ar ts c) ∧
      (length ar + length ts + 1 = length (timers c) + length (armed c))%nat) as (ar & ts & -> & Hl).
  { destruct (timers c) as [|t ts]; [destruct (armed c) as [|t ar]|]; cbn in Hlen; [lia| |].
    - exists ar, []. split; [done|]. cbn. lia.
    - exists (armed c), ts. split; [done|]. cbn. lia. }
  set (c1 := with_turn _ _ _ ar ts c).
  assert (tokens c1 = 0%nat) as Ht1 by (unfold tokens; cbn; unfold queued in *; cbn; lia).
  assert (inv c1) as Hinv1.
  { unfold c1, queued in *. split; cbn; unfold tokens, queued in *; cbn in *; try done; try lia; try congruence. }
  destruct (startInLoop_spec a c1 Hinv1) as (c' & ? & ? & Hx & Hk & Hd); try done.
  exists c'. split_and!; try done. intros Hf. rewrite (Hx Hf). cbn. split_and!; try done. lia.
Qed.

(** Taking the first functor [f] off the batch. *)
Lemma popped_queued f fs c g :
  batch c = f :: fs →
  queued g c = ((if decide (f = g) then 1 else 0) + queued g (with_queue (pending c) fs c))%nat.
Proof. intros Hb. unfold queued. cbn. rewrite Hb, cnt_cons. lia. Qed.

Lemma popped_tokens f fs c :
  batch c = f :: fs →
  tokens c = ((if decide (f = FStartInLoop) then 1 else 0) + tokens (with_queue (pending c) fs c))%nat.
Proof. intros Hb. unfold tokens. rewrite (popped_queued f fs) by done. cbn. lia. Qed.

Lemma popped_inv f fs c :
  inv c → at_ c = Functors → batch c = f :: fs → f ≠ FResetChannel → inv (with_queue (pending c) fs c).
Proof.
  intros [] Hph Hb Hf. set (c1 := with_queue (pending c) fs c).
  pose proof (λ g, popped_queued f fs c g Hb) as Hq. pose proof (popped_tokens f fs c Hb) as Ht. fold c1 in Hq, Ht.
  pose proof (Hq FResetChannel) as Hr. rewrite decide_False in Hr by done. cbn in Hr.
  split; cbn -[tokens queued]; try done.
  - unfold channel_inv in *. cbn -[queued]. by rewrite <-Hr.
  - rewrite Ht in inv_tokens0. lia.
  - intros ?. apply inv_idle0. lia.
  - intros ?. apply inv_stop0. rewrite (Hq FStopInLoop). lia.
  - intros ?. destruct (inv_reset0 ltac:(lia)) as [? Hs]. split; [done|].
    rewrite (Hq FStartInLoop) in Hs. lia.
  - congruence.
Qed.

Lemma run_FStartInLoop fs a c :
  inv c → at_ c = Functors → batch c = FStartInLoop :: fs → attempt_ok a →
  ∃ c', run_functor FStartInLoop a (with_queue (pending c) fs c) = Ok c' ∧ inv c' ∧ stays_stopped c c'.
Proof.
  intros Hinv Hph Hb Ha. pose proof (popped_inv _ fs c Hinv Hph Hb ltac:(done)) as Hinv1.
  pose proof (popped_tokens _ fs c Hb) as Ht. rewrite decide_True in Ht by done. cbn [run_functor].
  assert (state_ c = kDisconnected) as Hst by (apply (inv_idle _ Hinv); lia).
  assert (queued FResetChannel c = 0%nat) as Hq0.
  { destruct (decide (queued FResetChannel c = 0%nat)); [done|].
    destruct (inv_reset _ Hinv ltac:(lia)) as [_ Hs].
    rewrite (popped_queued _ fs c FStartInLoop Hb), decide_True in Hs by done. lia. }
  pose proof (no_reset_no_channel c Hinv Hst Hq0) as Hch.
  pose proof (inv_tokens _ Hinv). pose proof Hinv as [].
  destruct (startInLoop_spec a (with_queue (pending c) fs c) Hinv1) as (c' & ? & ? & Hx & _); try done; [lia|].
  exists c'. split_and!; try done. intros Hf. by rewrite (Hx Hf).
Qed.

Lemma run_FStopInLoop fs a c :
  inv c → at_ c = Functors → batch c = FStopInLoop :: fs →
  ∃ c', run_functor FStopInLoop a (with_queue (pending c) fs c) = Ok c' ∧ inv c' ∧ stays_stopped c c'.
Proof.
  intros Hinv Hph Hb. pose proof (popped_inv _ fs c Hinv Hph Hb ltac:(done)) as Hinv1.
  set (c1 := with_queue (pending c) fs c) in *. cbn [run_functor].
  assert (connect_ c = false) as Hcf.
  { apply (inv_stop _ Hinv). rewrite (popped_queued _ fs c _ Hb), decide_True by done. lia. }
  unfold stopInLoop. case_bool_decide as Hst; [|by exists c1].
  destruct (fail_spec c1 Hinv1 Hst) as (c' & Hc' & ? & ? & Hx & ? & Hk & ?); [by right|].
  exists c'. split.
  { rewrite <-Hc'. unfold removeAndResetChannel. cbn [channel_ with_state].
    destruct (channel_ c1) as [[fd ch]|]; [|done].
    destruct (ch_disableAll ch) as [ch1|]; [|done]. cbn [mbind res_bind].
    destruct (ch_remove ch1) as [ch2|]; [|done]. cbn [mbind res_bind]. unfold retry, close. cbn.
    by destruct (bool_decide _). }
  split; [done|]. intros Hf. destruct (Hx Hf) as [-> ->]. cbn. split_and!; try done. by rewrite Hk.
Qed.

Lemma run_FResetChannel fs a c :
  inv c → at_ c = Functors → batch c = FResetChannel :: fs →
  ∃ c', run_functor FResetChannel a (with_queue (pending c) fs c) = Ok c' ∧ inv c' ∧ stays_stopped c c'.
Proof.
  intros Hinv Hph Hb. pose proof Hinv as []. set (c1 := with_queue (pending c) fs c). cbn [run_functor].
  pose proof (λ g, popped_queued _ fs c g Hb) as Hq. pose proof (popped_tokens _ fs c Hb) as Ht. fold c1 in Hq, Ht.
  unfold resetChannel. unfold channel_inv in inv_channel0. pose proof (Hq FResetChannel) as Hr.
  rewrite decide_True in Hr by done. change (channel_ c1) with (channel_ c).
  destruct (channel_ c) as [[fd ch]|] eqn:Hch; [|destruct inv_channel0 as (_ & E & _); lia].
  destruct inv_channel0 as (Hok & Hrd & Hx).
  destruct (decide (state_ c = kConnecting)) as [Hst|Hst]; [destruct Hx as (_ & E & _); lia|].
  destruct Hx as (Had & Hw & E & Ho). rewrite Had. cbn [negb assert_ mbind res_bind].
  eexists. split; [done|]. split; [|by intros ?].
  assert (queued FResetChannel c1 = 0%nat) as Hr0 by lia. unfold queued in Hr0. cbn in Hr0.
  destruct (inv_reset0 ltac:(lia)) as [Hti Hs]. rewrite (Hq FStartInLoop), decide_False in Hs by done.
  rewrite decide_False in Ht by done. split; cbn -[tokens queued]; try done.
  - unfold tokens in *. unfold queued in *. cbn in *. lia.
  - intros ?. apply inv_idle0. unfold tokens, queued in *. cbn in *. lia.
  - intros ?. apply inv_stop0. rewrite (Hq FStopInLoop). unfold queued in *. cbn in *. lia.
  - congruence.
Qed.

Lemma connector_run_functor_spec f fs a c :
  inv c → at_ c = Functors → batch c = f :: fs → attempt_ok a →
  ∃ c', run_functor f a (with_queue (pending c) fs c) = Ok c' ∧ inv c' ∧ stays_stopped c c'.
Proof.
  intros. destruct f; [by apply run_FStartInLoop|by apply run_FStopInLoop|by apply run_FResetChannel].
Qed.

Lemma connector_exec_spec e c : inv c → enabled e c → ∃ c', exec e c = Ok c' ∧ inv c'.
Proof.
  intros Hinv He. destruct e as [a| | |a|v err sc|a| |a|]; cbn [exec].
  - destruct He as [(Hst & Hch & Hp & Hb & Ht & Har) Ha]. unfold start.
    assert (queued FStopInLoop c = 0%nat) as Hs by (unfold queued; by rewrite Hp, Hb).
    destruct (startInLoop_spec a (with_connect true c)) as (c' & ? & ? & _); try done.
    { by apply connect_on_inv. }
    { unfold tokens, queued. cbn. by rewrite Hp, Hb, Ht, Har. }
    by exists c'.
  - destruct He as (Hst & Hch & Hp & Hb & Ht & Har). eexists. split; [done|].
    unfold start_foreign, queueInLoop, with_queue. cbn. rewrite Hp, Hb, Ht, Har.
    pose proof Hinv as []. unfold channel_inv in *. rewrite Hch in *. destruct inv_channel0 as (_ & _ & Ho).
    split; cbn; unfold channel_inv, tokens, queued; cbn; rewrite ?Hch, ?cnt_nil; try done; rewrite ?Hst, ?Ho; try done.
    all: by vm_compute; intros ?%Nat.nle_succ_0.
  - eexists. split; [done|]. pose proof Hinv as []. unfold stop.
    unfold channel_inv, tokens, queued in *.
    split; cbn; unfold channel_inv, tokens, queued; cbn; rewrite ?cnt_app, ?cnt_cons, ?cnt_nil; cbn;
      rewrite ?Nat.add_0_r; try done.
  - by apply connector_restart_spec.
  - destruct (on_revents_spec v err sc c Hinv He) as (c' & ? & ? & _). by exists c'.
  - destruct (timer_spec a c Hinv He) as (c' & ? & ? & _). by exists c'.
  - eexists. split; [done|]. pose proof Hinv as []. cbn in He. specialize (inv_phase0 He).
    unfold channel_inv, tokens, queued in *. rewrite inv_phase0 in *. rewrite ?cnt_nil in *.
    split; cbn; unfold channel_inv, tokens, queued; cbn; rewrite ?cnt_nil; rewrite ?Nat.add_0_r in *; try done.
    intros _ Hx. lia.
  - destruct He as [Hph Ha]. destruct (batch c) as [|f fs] eqn:Hb; [by exists c|].
    destruct (connector_run_functor_spec f fs a c) as (c' & ? & ? & _); try done. by exists c'.
  - destruct He as [Hph Hb]. eexists. split; [done|]. pose proof Hinv as [].
    unfold channel_inv, tokens, queued in *. rewrite Hb in *.
    split; cbn; unfold channel_inv, tokens, queued; cbn; rewrite ?length_app; cbn; try done; try lia.
    + intros ?. apply inv_idle0. lia.
    + intros Hx. destruct (inv_reset0 Hx) as [-> Hs]. split; [|done]. rewrite cnt_nil in Hx.
      rewrite (inv_order0 Hph) by lia. done.
Qed.

Inductive step (c c' : connector) : Prop :=
  | step_intro e : enabled e c → exec e c = Ok c' → step c c'.

Lemma connector_new_inv : inv newConnector.
Proof. split; try done; vm_compute; try lia; tauto. Qed.

Lemma connector_reachable_inv c : rtc step newConnector c → inv c.
Proof.
  apply rtc_invariant; [|apply connector_new_inv]. intros a b Ha [e He Hx].
  destruct (connector_exec_spec e a Ha He) as (b' & Hb & ?). congruence.
Qed.

Lemma delay_at_range k : kInitRetryDelayMs ≤ delay_at k ≤ kMaxRetryDelayMs.
Proof.
  unfold delay_at, kInitRetryDelayMs, kMaxRetryDelayMs.
  pose proof (Z.pow_pos_nonneg 2 (Z.of_nat k) ltac:(lia) ltac:(lia)). lia.
Qed.

(** ** Theorems *)


(** The retry delays are 500 ms doubled at every failure up to 30 s, in order, and the
    next one is the one that follows. *)
Theorem retry_backoff (c : connector) (Hreach : rtc step newConnector c) :
  delays c = delay_at <$> seq 0 (length (delays c)) ∧
  retryDelayMs_ c = delay_at (length (delays c)) ∧
  Forall (λ d, kInitRetryDelayMs ≤ d ≤ kMaxRetryDelayMs) (retryDelayMs_ c :: delays c).
Proof.
  destruct (connector_reachable_inv c Hreach). destruct inv_delay0 as [Hd Hds]. split_and!; try done.
  constructor; [rewrite Hd; apply delay_at_range|]. rewrite Hds. apply Forall_fmap, Forall_true.
  intros k. apply delay_at_range.
Qed.

(** Stop() is final until the next start. Once it has been called, whatever happens next
    hands over no connection and sets no new retry timer. *)
Theorem stop_is_final (c c' : connector) (e : event)
    (Hreach : rtc step newConnector c) (He : enabled e c) (Hx : exec e c = Ok c')
    (Hc : connect_ c = false) (Hns : match e with Start _ | StartForeign => False | _ => True end) :
  connect_ c' = false ∧ delivered c' = delivered c ∧
  (length (timers c') + length (armed c') ≤ length (timers c) + length (armed c))%nat.
Proof.
  pose proof (connector_reachable_inv c Hreach) as Hinv. destruct e as [a| | |a|v err sc|a| |a|]; try done.
  - by injection Hx as <-.
  - destruct He as (_ & E & _). congruence.
  - destruct (on_revents_spec v err sc c Hinv He) as (c1 & E & _ & Hs). cbn [exec] in Hx.
    rewrite E in Hx. injection Hx as <-. by apply Hs.
  - destruct (timer_spec a c Hinv He) as (c1 & E & _ & Hs). rewrite E in Hx. injection Hx as <-. by apply Hs.
  - by injection Hx as <-.
  - cbn [exec] in Hx. destruct (batch c) as [|f fs] eqn:Hb; [by injection Hx as <-|]. destruct He as [Hph Ha].
    destruct (connector_run_functor_spec f fs a c Hinv Hph Hb Ha) as (c1 & E & _ & Hs). rewrite E in Hx.
    injection Hx as <-. by apply Hs.
  - injection Hx as <-. cbn. rewrite length_app. split_and!; try done. lia.
Qed.

End Connector.
Arguments connector : clear implicits.
Arguments attempt : clear implicits.
Arguments event : clear implicits.

(** ** Witnesses *)
Import Demo.

Definition refused : attempt demo_reactor := mkAttempt 5 ECONNREFUSED reactor0.
Definition in_progress : attempt demo_reactor := mkAttempt 5 EINPROGRESS reactor0.

(** The connector after a run of events. *)
Definition after (es : list (event demo_reactor)) : connector demo_reactor :=
  match mfold exec es newConnector with Ok c => c | Err _ => newConnector end.

Lemma after_snoc es e :
  rtc step newConnector (after es) → is_ok (mfold exec es newConnector) = true →
  enabled e (after es) → is_ok (exec e (after es)) = true → rtc step newConnector (after (es ++ [e])).
Proof.
  intros Hr Hes He Hx. eapply rtc_r; [exact Hr|]. exists e; [done|]. revert Hx. unfold after in *.
  rewrite mfold_app. destruct (mfold exec es newConnector) as [c|]; [|done]. cbn.
  destruct (exec e c) as [c'|]; [done|done].
Qed.

(** Refused twice, the third attempt is in progress. *)
Definition events0 : list (event demo_reactor) :=
  [Start refused; PollAgain; Timer refused; Swap; PollAgain; Timer in_progress].

Lemma attempts_ok : attempt_ok refused ∧ attempt_ok in_progress.
Proof. by split; (split; [|apply reactor0_ok]). Qed.

Ltac reach_demo :=
  repeat (apply after_snoc; [|by vm_compute| |by vm_compute]); try apply rtc_refl; try done;
  cbn [enabled]; split; first [assumption | by vm_compute].

Lemma events0_reachable : rtc step newConnector (after events0).
Proof.
  destruct attempts_ok as [H1 H2].
  change events0 with (((((([] ++ [Start refused]) ++ [PollAgain]) ++ [Timer refused]) ++ [Swap]) ++ [PollAgain])
    ++ [Timer in_progress]).
  reach_demo.
Qed.


Lemma retry_backoff_witness : delays (after events0) = [500; 1000] ∧ retryDelayMs_ (after events0) = 2000.
Proof.
  destruct (retry_backoff (after events0) events0_reachable) as (H1 & H2 & _).
  split; [rewrite H1; by vm_compute|rewrite H2; by vm_compute].
Defined.

Definition stopped : list (event demo_reactor) := [Start refused; Stop].
Lemma stopped_reachable : rtc step newConnector (after stopped).
Proof.
  destruct attempts_ok as [H1 H2]. change stopped with (([] ++ [Start refused]) ++ [Stop]).
  reach_demo.
Qed.

Lemma stop_is_final_witness : timers (after (stopped ++ [PollAgain])) = [500] ∧
  delivered (after (stopped ++ [PollAgain])) = [].
Proof.
  split; [by vm_compute|].
  destruct (stop_is_final (after stopped) (after (stopped ++ [PollAgain])) PollAgain stopped_reachable)
    as (_ & H & _); [by vm_compute..|]. rewrite H. by vm_compute.
Defined.

(** A slow turn can abort the process. The attempt fails, and resetChannel is queued for the
    end of the turn; when the event handlers of the turn take as long as the retry delay, the
    timer fires in the same turn, the new attempt finds the old channel and fails the
    assertion in connecting. *)
Theorem slow_retry_aborts :
  mfold exec [Start in_progress; PollAgain; Revents Poll.POLLOUT ECONNREFUSED false; Timer in_progress]
    (newConnector (C := demo_reactor)) = Err AssertFailed.
Proof. by vm_compute. Qed.

(** When socket(2) fails the process aborts: createNonblockingOrDie returns -1, connect(2) on
    it fails with EBADF, and sockets::close asserts that closing it succeeds. *)
Theorem socket_failure_aborts {C : Type} `{ChannelI C} (ch : C) (c : connector C)
    (Hst : state_ c = kDisconnected) (Hown : -1 ∉ own c) :
  start (-1) EBADF ch c = Err AssertFailed.
Proof.
  unfold start, startInLoop. cbn. rewrite Hst, bool_decide_true by done. cbn. unfold connect. cbn.
  unfold close. cbn. by rewrite bool_decide_false.
Qed.

(** Stop() followed by start() can abort the process. stop() does not cancel the retry
    timer, so the start() leaves two calls of startInLoop to come: the second one finds
    kConnecting and fails the assertion on state_. *)
Theorem stop_then_start_aborts :
  mfold exec [Start refused; Stop; Swap; RunFunctor refused; Start in_progress; PollAgain; Timer in_progress]
    (newConnector (C := demo_reactor)) = Err AssertFailed.
Proof. by vm_compute. Qed.
End Ctor.
