(* ===== verification/LogStream.v ===== *)
(** * FixedBuffer, LogStream and Fmt (base/log_stream.h, base/log_stream.cc)

    The fixed buffer is its array and the offset of [cur_]; a write outside the array is a
    fault. [convert] and [convertHex] are translated loop for loop; the loops run at most as
    many times as the value has digits, so 20 and 16 steps are enough for 64-bit types. The
    text snprintf produces for a double or for Fmt is a parameter: the caller passes it. *)

From S2P Require Import Prelude StringPiece.

Module Log.

(** ** FixedBuffer<SIZE> *)
Definition kSmallBuffer : Z := 4000.
Definition kLargeBuffer : Z := 4000 * 1000.
Definition kMaxNumericSize : Z := 32.

Record FixedBuffer := mkFixed { data_ : list byte; cur_ : Z }.

Definition newFixed (SIZE : Z) : FixedBuffer := mkFixed (replicate (Z.to_nat SIZE) x00) 0.
Definition avail (b : FixedBuffer) : Z := zlen (data_ b) - cur_ b.
Definition fixed_length (b : FixedBuffer) : Z := cur_ b.

(** memcpy to [cur_ + off] *)
Definition store (off : Z) (d : list byte) (b : FixedBuffer) : res FixedBuffer :=
  if (0 <=? off) && (cur_ b + off + zlen d <=? zlen (data_ b))
  then Ok (mkFixed (list_write (cur_ b + off) d (data_ b)) (cur_ b)) else Err OutOfBounds.
Definition add (len : Z) (b : FixedBuffer) : FixedBuffer := mkFixed (data_ b) (cur_ b + len).

Definition fixed_append (buf : list byte) (b : FixedBuffer) : res FixedBuffer :=
  if zlen buf <? avail b then
    b ← store 0 buf b; Ok (add (zlen buf) b)
  else Ok b.

Definition fixed_reset (b : FixedBuffer) : FixedBuffer := mkFixed (data_ b) 0.
Definition fixed_bzero (b : FixedBuffer) : FixedBuffer :=
  mkFixed (replicate (length (data_ b)) x00) (cur_ b).
Definition debugString (b : FixedBuffer) : res FixedBuffer := store 0 [x00] b.
Definition fixed_toString (b : FixedBuffer) : list byte := slice 0 (cur_ b) (data_ b).

(** ** Integer to string *)

(** The character of digit [d] in "9876543210123456789", counted from its middle. *)
Definition digits : list byte :=
  [x39; x38; x37; x36; x35; x34; x33; x32; x31; x30; x31; x32; x33; x34; x35; x36; x37; x38; x39].
Definition zero (lsd : Z) : res byte :=
  match digits !! Z.to_nat (9 + lsd) with
  | Some b => if 0 <=? 9 + lsd then Ok b else Err OutOfBounds
  | None => Err OutOfBounds
  end.
Definition digitsHex : list byte :=
  [x30; x31; x32; x33; x34; x35; x36; x37; x38; x39; x41; x42; x43; x44; x45; x46].

(** The do-while loops: the characters written from [p] on, least significant first. *)
Fixpoint convert_loop (fuel : nat) (i : Z) : res (list byte) :=
  match fuel with
  | O => Ok []
  | S fuel =>
      let lsd := Z.rem i 10 in
      let i := Z.quot i 10 in
      b ← zero lsd;
      rest ← (if negb (i =? 0) then convert_loop fuel i else Ok []);
      Ok (b :: rest)
  end.

Fixpoint convertHex_loop (fuel : nat) (i : Z) : res (list byte) :=
  match fuel with
  | O => Ok []
  | S fuel =>
      let lsd := i mod 16 in
      let i := i / 16 in
      b ← from_option Ok (Err OutOfBounds) (digitsHex !! Z.to_nat lsd);
      rest ← (if negb (i =? 0) then convertHex_loop fuel i else Ok []);
      Ok (b :: rest)
  end.

(** The text of a 64-bit value; the caller's buffer also gets a final NUL. *)
Definition convert (value : Z) : res (list byte) :=
  p ← convert_loop 20 value;
  Ok (reverse (p ++ if value <? 0 then [x2d] else [])).
Definition convertHex (value : Z) : res (list byte) :=
  p ← convertHex_loop 16 value; Ok (reverse p).

(** ** LogStream: its [buffer_] *)
Definition formatInteger (v : Z) (s : FixedBuffer) : res FixedBuffer :=
  if kMaxNumericSize <=? avail s then
    t ← convert v;
    s ← store 0 (t ++ [x00]) s;
    Ok (add (zlen t) s)
  else Ok s.

Definition put_pointer (v : Z) (s : FixedBuffer) : res FixedBuffer :=
  if kMaxNumericSize <=? avail s then
    s ← store 0 [x30; x78] s;
    t ← convertHex v;
    s ← store 2 (t ++ [x00]) s;
    Ok (add (zlen t + 2) s)
  else Ok s.

(** [t]: what snprintf("%.12g") makes of the value. *)
Definition put_double (t : list byte) (s : FixedBuffer) : res FixedBuffer :=
  if kMaxNumericSize <=? avail s then
    s ← store 0 (t ++ [x00]) s; Ok (add (zlen t) s)
  else Ok s.

Definition put_bool (v : bool) (s : FixedBuffer) : res FixedBuffer :=
  fixed_append (if v then [x31] else [x30]) s.
Definition put_char (v : byte) (s : FixedBuffer) : res FixedBuffer := fixed_append [v] s.
(** A C string, or NULL. *)
Definition put_cstr (str : option (list byte)) (s : FixedBuffer) : res FixedBuffer :=
  match str with
  | Some d => fixed_append d s
  | None => fixed_append [x28; x6e; x75; x6c; x6c; x29] s
  end.
Definition put_string (v : list byte) (s : FixedBuffer) : res FixedBuffer := fixed_append v s.

(** Fmt: [t] is what snprintf makes of the format and value. *)
Definition Fmt (t : list byte) : res (list byte) := _ ← assert_ (zlen t <? 32); Ok t.
Definition put_fmt (t : list byte) (s : FixedBuffer) : res FixedBuffer := fixed_append t s.

(** What can be streamed. *)
Inductive item :=
  | IBool (v : bool)
  | IInt (v : Z)                      (* the signed and unsigned integer types *)
  | IPointer (v : Z)
  | IDouble (t : list byte)
  | IChar (v : byte)
  | ICstr (str : option (list byte))
  | IString (v : list byte)           (* std::string, StringPiece, Buffer, Fmt *)
  .

Definition put (x : item) (s : FixedBuffer) : res FixedBuffer :=
  match x with
  | IBool v => put_bool v s
  | IInt v => formatInteger v s
  | IPointer v => put_pointer v s
  | IDouble t => put_double t s
  | IChar v => put_char v s
  | ICstr str => put_cstr str s
  | IString v => put_string v s
  end.

(** ** Reading numbers back *)
Definition digit_value (b : byte) : option Z :=
  let v := byte_unsigned b in
  if (48 <=? v) && (v <=? 57) then Some (v - 48) else None.
Definition hex_value (b : byte) : option Z :=
  let v := byte_unsigned b in
  if (48 <=? v) && (v <=? 57) then Some (v - 48)
  else if (65 <=? v) && (v <=? 70) then Some (v - 55) else None.

(** Most significant digit first. *)
Fixpoint parse_digits (base : Z) (value : byte → option Z) (l : list byte) (acc : Z) : option Z :=
  match l with
  | [] => Some acc
  | b :: l => d ← value b; parse_digits base value l (base * acc + d)
  end.
Definition parse_dec (l : list byte) : option Z :=
  match l with
  | [] => None
  | b :: l' =>
      if bool_decide (b = x2d ∧ l' ≠ []) then Z.opp <$> parse_digits 10 digit_value l' 0
      else parse_digits 10 digit_value l 0
  end.

(** No leading zero, no "-0". *)
Definition canonical (l : list byte) : Prop :=
  match l with
  | [] => False
  | [b] => b ≠ x2d
  | b :: c :: _ => b ≠ x30 ∧ (b = x2d → c ≠ x30)
  end.

(** ** Digits *)
Lemma parse_digits_app base value l1 l2 acc :
  parse_digits base value (l1 ++ l2) acc =
    (parse_digits base value l1 acc ≫= parse_digits base value l2).
Proof. revert acc. induction l1 as [|b l1 IH]; intros acc; cbn; [done|]. by destruct (value b); cbn. Qed.

(** [p], least significant digit first, stands for [v]. *)
Definition lsd_value (base : Z) (value : byte → option Z) (p : list byte) (v : Z) : Prop :=
  parse_digits base value (reverse p) 0 = Some v.

Lemma lsd_cons base value b p v d :
  lsd_value base value p v → value b = Some d → lsd_value base value (b :: p) (base * v + d).
Proof.
  unfold lsd_value. intros Hp Hb. rewrite reverse_cons, parse_digits_app, Hp. cbn. by rewrite Hb.
Qed.

Lemma lsd_one base value b d : value b = Some d → lsd_value base value [b] d.
Proof. intros Hb. unfold lsd_value. cbn. rewrite Hb. cbn. f_equal. lia. Qed.

Lemma zero_spec d : -9 ≤ d ≤ 9 → ∃ b, zero d = Ok b ∧ digit_value b = Some (Z.abs d) ∧ b ≠ x2d.
Proof.
  intros Hd.
  assert (d ∈ seqZ (-9) 19) as Hin by (apply elem_of_seqZ; lia).
  repeat (apply elem_of_cons in Hin as [->|Hin]; [by eexists|]). by apply not_elem_of_nil in Hin.
Qed.

Lemma hex_spec d : 0 ≤ d < 16 → ∃ b, digitsHex !! Z.to_nat d = Some b ∧ hex_value b = Some d ∧ b ≠ x2d.
Proof.
  intros Hd.
  assert (d ∈ seqZ 0 16) as Hin by (apply elem_of_seqZ; lia).
  repeat (apply elem_of_cons in Hin as [->|Hin]; [by eexists|]). by apply not_elem_of_nil in Hin.
Qed.

(** What both loops produce. *)
Definition loop_ok (base : Z) (value : byte → option Z) (fuel : nat) (v : Z) (p : list byte) : Prop :=
  p ≠ [] ∧ (length p ≤ fuel)%nat ∧ lsd_value base value p v ∧ ¬ (x2d ∈ p) ∧ (v ≠ 0 → last p ≠ Some x30) ∧
  (v = 0 → p = [x30]).

Lemma loop_ok_one base value fuel b d :
  (1 ≤ fuel)%nat → value b = Some d → b ≠ x2d → value x30 = Some 0 → (d = 0 → b = x30) →
  loop_ok base value fuel d [b].
Proof.
  intros Hf Hb Hm Hz H0. split_and!; try done.
  - by apply lsd_one.
  - by rewrite list_elem_of_singleton.
  - intros Hd [= ->]. rewrite Hz in Hb. congruence.
  - intros ->. by rewrite H0.
Qed.

Lemma loop_ok_cons base value fuel b d v p :
  0 < base → 0 ≤ d → 0 < v → loop_ok base value fuel v p → value b = Some d → b ≠ x2d →
  loop_ok base value (S fuel) (base * v + d) (b :: p).
Proof.
  intros Hbase Hd Hv (Hne & Hl & Hval & Hm & Hz & _) Hb Hbm. split_and!; try done.
  - cbn. lia.
  - by apply lsd_cons.
  - rewrite not_elem_of_cons. naive_solver.
  - intros _. destruct p; [done|]. cbn. apply Hz. lia.
  - nia.
Qed.

Lemma digit_zero b : digit_value b = Some 0 → b = x30.
Proof.
  unfold digit_value. destruct (_ && _) eqn:E; [|done]. intros [= Hv].
  apply byte_unsigned_inj. change (byte_unsigned x30) with 48. lia.
Qed.

Lemma hex_zero b : hex_value b = Some 0 → b = x30.
Proof.
  unfold hex_value. destruct (_ && _) eqn:E; [|destruct ((65 <=? _) && _) eqn:E2; [|done]]; intros [= Hv].
  - apply byte_unsigned_inj. change (byte_unsigned x30) with 48. lia.
  - lia.
Qed.

Lemma convert_loop_spec fuel i :
  (0 < fuel)%nat → Z.abs i < 10 ^ Z.of_nat fuel →
  ∃ p, convert_loop fuel i = Ok p ∧ loop_ok 10 digit_value fuel (Z.abs i) p.
Proof.
  revert i. induction fuel as [|fuel IH]; intros i Hf Hi; [lia|]. cbn [convert_loop].
  rewrite Nat2Z.inj_succ, Z.pow_succ_r in Hi by lia.
  destruct (zero_spec (Z.rem i 10)) as (b & -> & Hb & Hbm); [dlia|]. cbn [mbind res_bind].
  destruct (Z.eqb_spec (Z.quot i 10) 0) as [E|E]; cbn [negb].
  - exists [b]. split; [done|].
    assert (Z.abs i = Z.abs (Z.rem i 10)) as -> by dlia.
    apply loop_ok_one; try done; try lia. intros E0. rewrite E0 in Hb. by apply digit_zero.
  - destruct (IH (Z.quot i 10)) as (p & -> & Hp).
    { destruct fuel; [|lia]. change (10 ^ Z.of_nat 0) with 1 in Hi. dlia. }
    { dlia. }
    cbn [mbind res_bind]. exists (b :: p). split; [done|].
    assert (Z.abs i = 10 * Z.abs (Z.quot i 10) + Z.abs (Z.rem i 10)) as -> by dlia.
    apply loop_ok_cons; try done; lia.
Qed.

Lemma convertHex_loop_spec fuel i :
  (0 < fuel)%nat → 0 ≤ i < 16 ^ Z.of_nat fuel →
  ∃ p, convertHex_loop fuel i = Ok p ∧ loop_ok 16 hex_value fuel i p.
Proof.
  revert i. induction fuel as [|fuel IH]; intros i Hf Hi; [lia|]. cbn [convertHex_loop].
  rewrite Nat2Z.inj_succ, Z.pow_succ_r in Hi by lia.
  destruct (hex_spec (i mod 16)) as (b & -> & Hb & Hbm); [dlia|]. cbn [mbind res_bind from_option].
  destruct (Z.eqb_spec (i / 16) 0) as [E|E]; cbn [negb].
  - exists [b]. split; [done|]. assert (i mod 16 = i) as Ei by dlia. rewrite Ei in Hb.
    apply loop_ok_one; try done; try lia. intros ->. by apply hex_zero.
  - destruct (IH (i / 16)) as (p & -> & Hp).
    { destruct fuel; [|lia]. change (16 ^ Z.of_nat 0) with 1 in Hi. dlia. }
    { dlia. }
    cbn [mbind res_bind]. exists (b :: p). split; [done|].
    replace (loop_ok 16 hex_value (S fuel) i) with (loop_ok 16 hex_value (S fuel) (16 * (i / 16) + i mod 16))
      by (f_equal; dlia).
    apply loop_ok_cons; try done; dlia.
Qed.

(** ** Texts *)
Lemma convert_spec v :
  - 2 ^ 63 ≤ v < 2 ^ 64 →
  ∃ t, convert v = Ok t ∧ parse_dec t = Some v ∧ canonical t ∧ 1 ≤ zlen t ≤ 21.
Proof.
  intros Hv. unfold convert.
  destruct (convert_loop_spec 20 v) as (p & -> & Hne & Hl & Hval & Hm & Hz & H0); [lia| |].
  { change (10 ^ Z.of_nat 20) with 100000000000000000000. change (2 ^ 64) with 18446744073709551616 in Hv. lia. }
  cbn [mbind res_bind]. eexists. split; [done|]. unfold lsd_value in Hval.
  assert (∀ c q, reverse p = c :: q → c ≠ x2d ∧ (v ≠ 0 → c ≠ x30)) as Hfirst.
  { intros c q E. assert (p = reverse q ++ [c]) as Ep.
    { apply (f_equal reverse) in E. by rewrite reverse_involutive, reverse_cons in E. }
    split.
    - intros ->. apply Hm. rewrite Ep, elem_of_app, list_elem_of_singleton. by right.
    - intros Hv0 ->. apply (Hz ltac:(lia)). by rewrite Ep, last_snoc. }
  assert (length (reverse p) = length p) as Hlr by apply length_reverse.
  destruct (reverse p) as [|c q] eqn:Er; [by destruct p|]. destruct (Hfirst c q eq_refl) as [Hc Hc0].
  destruct (Z.ltb_spec v 0) as [Hneg|Hpos].
  - rewrite reverse_snoc, Er. split_and!.
    + unfold parse_dec. rewrite bool_decide_true, Hval by done. cbn. f_equal. lia.
    + split; [done|]. intros _. apply Hc0. lia.
    + cbn [length] in *. lia.
    + cbn [length] in *. lia.
  - rewrite app_nil_r, Er. split_and!.
    + assert (parse_dec (c :: q) = parse_digits 10 digit_value (c :: q) 0) as ->.
      { unfold parse_dec. rewrite bool_decide_false by naive_solver. done. }
      rewrite Hval. f_equal. lia.
    + unfold canonical. destruct q as [|c2 q2]; [done|]. split; [|done].
      apply Hc0. intros ->. specialize (H0 eq_refl). by rewrite H0 in Er.
    + cbn [length] in *. lia.
    + cbn [length] in *. lia.
Qed.

Lemma convertHex_spec v :
  0 ≤ v < 2 ^ 64 →
  ∃ t, convertHex v = Ok t ∧ parse_digits 16 hex_value t 0 = Some v ∧ canonical t ∧ 1 ≤ zlen t ≤ 16.
Proof.
  intros Hv. unfold convertHex.
  destruct (convertHex_loop_spec 16 v) as (p & -> & Hne & Hl & Hval & Hm & Hz & H0); [lia|done|].
  cbn [mbind res_bind]. eexists. split; [done|]. split; [done|].
  assert (length (reverse p) = length p) as Hlr by apply length_reverse.
  destruct (reverse p) as [|c q] eqn:Er; [by destruct p|].
  assert (p = reverse q ++ [c]) as Ep.
  { apply (f_equal reverse) in Er. by rewrite reverse_involutive, reverse_cons in Er. }
  assert (c ≠ x2d) as Hc.
  { intros ->. apply Hm. rewrite Ep, elem_of_app, list_elem_of_singleton. by right. }
  split; [|cbn [length] in *; lia]. unfold canonical. destruct q as [|c2 q2]; [done|]. split; [|done].
  destruct (decide (v = 0)) as [->|Hv0]; [specialize (H0 eq_refl); by rewrite H0 in Er|].
  intros ->. apply (Hz Hv0). by rewrite Ep, last_snoc.
Qed.

(** ** The buffer *)
Definition fixed_wf (b : FixedBuffer) : Prop := 0 ≤ cur_ b ≤ zlen (data_ b).

Lemma store_spec off d b :
  fixed_wf b → 0 ≤ off → cur_ b + off + zlen d ≤ zlen (data_ b) →
  ∃ b', store off d b = Ok b' ∧ cur_ b' = cur_ b ∧ length (data_ b') = length (data_ b) ∧
        slice 0 (cur_ b + off) (data_ b') = slice 0 (cur_ b + off) (data_ b) ∧
        slice (cur_ b + off) (zlen d) (data_ b') = d.
Proof.
  intros [H1 H2] Ho Hr. unfold store.
  replace ((0 <=? off) && (cur_ b + off + zlen d <=? zlen (data_ b))) with true by lia.
  eexists. split; [done|]. cbn [cur_ data_]. split; [done|]. split; [apply length_list_write; lia|].
  split; [apply slice_write_before; lia|apply slice_write_same; lia].
Qed.

(** Text written at the end and counted in. *)
Lemma store_add t d b b' :
  fixed_wf b → store 0 (t ++ d) b = Ok b' → cur_ b + zlen t + zlen d ≤ zlen (data_ b) →
  fixed_wf (add (zlen t) b') ∧ fixed_toString (add (zlen t) b') = fixed_toString b ++ t ∧
  length (data_ (add (zlen t) b')) = length (data_ b).
Proof.
  intros Hwf Hs Hr. destruct (store_spec 0 (t ++ d) b) as (b1 & E & Hc & Hl & Hp & Hd); try done.
  { rewrite length_app. lia. }
  rewrite Hs in E. injection E as <-. destruct Hwf as [H1 H2]. unfold fixed_wf, fixed_toString. cbn [add cur_ data_].
  rewrite Hc, Hl. split; [lia|]. split; [|done]. rewrite Z.add_0_r in *.
  rewrite slice_split, Hp by lia. f_equal. rewrite Z.add_0_l.
  rewrite length_app, Nat2Z.inj_add, slice_split in Hd by lia.
  apply (f_equal (take (length t))) in Hd. rewrite take_app_length in Hd.
  rewrite take_app_length' in Hd; [done|].
  apply Nat2Z.inj. symmetry. apply length_slice; [lia|lia|]. rewrite Hl. lia.
Qed.

Lemma fixed_append_spec buf b :
  fixed_wf b → ∃ b', fixed_append buf b = Ok b' ∧ fixed_wf b' ∧ length (data_ b') = length (data_ b) ∧
    fixed_toString b' = fixed_toString b ++ (if zlen buf <? avail b then buf else []).
Proof.
  intros Hwf. unfold fixed_append. destruct (Z.ltb_spec (zlen buf) (avail b)) as [Hlt|].
  - unfold avail in Hlt. pose proof Hwf as [H1 H2].
    destruct (store_spec 0 buf b) as (b1 & E & _); [done|lia|lia|]. rewrite E. cbn [mbind res_bind].
    eexists. split; [done|].
    destruct (store_add buf [] b b1) as (? & ? & ?); [done|by rewrite app_nil_r|cbn; lia|done].
  - exists b. by rewrite app_nil_r.
Qed.

(** ** The abstract stream: items that fit are appended, the others dropped *)
Definition item_ok (x : item) : Prop :=
  match x with
  | IInt v => - 2 ^ 63 ≤ v < 2 ^ 64
  | IPointer v => 0 ≤ v < 2 ^ 64
  | IDouble t => zlen t < kMaxNumericSize
  | _ => True
  end.
Definition text_of (r : res (list byte)) : list byte := match r with Ok t => t | Err _ => [] end.
Definition item_text (x : item) : list byte :=
  match x with
  | IBool v => if v then [x31] else [x30]
  | IInt v => text_of (convert v)
  | IPointer v => [x30; x78] ++ text_of (convertHex v)
  | IDouble t => t
  | IChar v => [v]
  | ICstr (Some d) => d
  | ICstr None => [x28; x6e; x75; x6c; x6c; x29]
  | IString v => v
  end.
Definition fits (room : Z) (x : item) : bool :=
  match x with
  | IInt _ | IPointer _ | IDouble _ => kMaxNumericSize <=? room
  | _ => zlen (item_text x) <? room
  end.
Definition render (size : Z) (xs : list item) (acc : list byte) : list byte :=
  foldl (λ acc x, if fits (size - zlen acc) x then acc ++ item_text x else acc) acc xs.

Lemma length_toString b : fixed_wf b → zlen (fixed_toString b) = cur_ b.
Proof. intros [H1 H2]. unfold fixed_toString. apply length_slice; lia. Qed.

(** A numeric item of at most 31 characters. *)
Lemma put_numeric t b :
  fixed_wf b → kMaxNumericSize ≤ avail b → zlen t < kMaxNumericSize →
  ∃ b', (s ← store 0 (t ++ [x00]) b; Ok (add (zlen t) s)) = Ok b' ∧ fixed_wf b' ∧
        length (data_ b') = length (data_ b) ∧ fixed_toString b' = fixed_toString b ++ t.
Proof.
  unfold kMaxNumericSize, avail. intros Hwf Ha Ht. pose proof Hwf as [H1 H2].
  destruct (store_spec 0 (t ++ [x00]) b) as (b1 & E & _); [done|lia|rewrite length_app; cbn; lia|].
  rewrite E. cbn [mbind res_bind]. eexists. split; [done|].
  destruct (store_add t [x00] b b1) as (? & ? & ?); [done|done|cbn; lia|done].
Qed.

(** The pointer's "0x" and digits are two adjacent stores. *)
Lemma store_store d1 d2 b :
  fixed_wf b → cur_ b + zlen d1 + zlen d2 ≤ zlen (data_ b) →
  (s ← store 0 d1 b; store (zlen d1) d2 s) = store 0 (d1 ++ d2) b.
Proof.
  intros [H1 H2] Hr. unfold store.
  replace ((0 <=? 0) && (cur_ b + 0 + zlen d1 <=? zlen (data_ b))) with true by lia.
  cbn [mbind res_bind cur_ data_]. rewrite length_list_write by lia.
  replace ((0 <=? zlen d1) && (cur_ b + zlen d1 + zlen d2 <=? zlen (data_ b))) with true by lia.
  replace ((0 <=? 0) && (cur_ b + 0 + zlen (d1 ++ d2) <=? zlen (data_ b))) with true
    by (rewrite length_app; lia).
  do 2 f_equal. rewrite Z.add_0_r. unfold list_write. set (o := Z.to_nat (cur_ b)).
  assert (length (take o (data_ b) ++ d1) = Z.to_nat (cur_ b + zlen d1)) as Hlen
    by (rewrite length_app, length_take; lia).
  rewrite !(app_assoc (take o (data_ b)) d1). rewrite <-Hlen at 1. rewrite take_app_length.
  rewrite <-!app_assoc. do 3 f_equal. rewrite app_assoc, drop_app_ge by lia.
  rewrite drop_drop, Hlen, length_app. f_equal. lia.
Qed.

Lemma put_spec x b :
  fixed_wf b → item_ok x →
  ∃ b', put x b = Ok b' ∧ fixed_wf b' ∧ length (data_ b') = length (data_ b) ∧
        fixed_toString b' = fixed_toString b ++ (if fits (avail b) x then item_text x else []).
Proof.
  intros Hwf Hok. destruct x as [v|v|v|t|v|str|v]; cbn [put fits item_ok] in *;
    try (by apply fixed_append_spec).
  - unfold formatInteger. destruct (Z.leb_spec kMaxNumericSize (avail b)) as [Ha|]; [|exists b; by rewrite app_nil_r].
    destruct (convert_spec v Hok) as (t & Ht & _ & _ & Hl). unfold item_text. rewrite Ht. cbn [mbind res_bind text_of].
    apply put_numeric; try done. unfold kMaxNumericSize. lia.
  - unfold put_pointer. destruct (Z.leb_spec kMaxNumericSize (avail b)) as [Ha|]; [|exists b; by rewrite app_nil_r].
    destruct (convertHex_spec v Hok) as (t & Ht & _ & _ & Hl). unfold item_text. rewrite Ht. cbn [text_of].
    destruct (put_numeric ([x30; x78] ++ t) b Hwf Ha) as (b' & Hb' & ? & ? & ?).
    { rewrite length_app. unfold kMaxNumericSize. cbn [length]. lia. }
    exists b'. split; [|done]. rewrite <-Hb', <-app_assoc, <-store_store.
    + change (zlen [x30; x78]) with 2. destruct (store 0 [x30; x78] b) as [s|]; [|done]. cbn [mbind res_bind].
      destruct (store 2 (t ++ [x00]) s); [|done]. cbn [mbind res_bind]. do 2 f_equal. rewrite length_app. cbn. lia.
    + done.
    + unfold avail, kMaxNumericSize in Ha. rewrite length_app. cbn [length]. lia.
  - unfold put_double. destruct (Z.leb_spec kMaxNumericSize (avail b)) as [Ha|]; [|exists b; by rewrite app_nil_r].
    by apply put_numeric.
  - destruct str; by apply fixed_append_spec.
Qed.

Lemma put_all xs b :
  fixed_wf b → Forall item_ok xs →
  ∃ b', mfold put xs b = Ok b' ∧ fixed_toString b' = render (zlen (data_ b)) xs (fixed_toString b) ∧
        fixed_wf b' ∧ length (data_ b') = length (data_ b).
Proof.
  intros Hwf Hok. revert b Hwf. induction Hok as [|x xs Hx Hxs IH]; intros b Hwf; [by exists b|].
  destruct (put_spec x b Hwf Hx) as (b1 & H1 & Hwf1 & Hl1 & Ht1).
  destruct (IH b1 Hwf1) as (b2 & H2 & Ht2 & Hwf2 & Hl2). exists b2. cbn [mfold]. rewrite H1.
  split; [done|]. split; [|split; [done|congruence]]. rewrite Ht2, Ht1, Hl1. unfold render. cbn [foldl].
  rewrite length_toString by done. unfold avail.
  destruct (fits (zlen (data_ b) - cur_ b) x); [done|]. by rewrite app_nil_r.
Qed.

(** ** Theorems *)

(** C37: LogStream is safe and append-only. Any sequence of insertions runs without writing
    outside the buffer, and the text is the concatenation of the items that fitted: strings
    and characters that leave at least one byte free, numbers when 32 bytes are free. *)
Theorem log_stream_correct (xs : list item) (b : FixedBuffer)
    (Hwf : fixed_wf b) (Hok : Forall item_ok xs) :
  ∃ b', mfold put xs b = Ok b' ∧ fixed_wf b' ∧ length (data_ b') = length (data_ b) ∧
        fixed_toString b' = render (zlen (data_ b)) xs (fixed_toString b).
Proof.
  destruct (put_all xs b Hwf Hok) as (b' & ? & ? & ? & ?). by exists b'.
Qed.

Lemma log_stream_correct_witness :
  ∃ b', mfold put [IInt (-42); IChar x20; IPointer 48879] (newFixed kSmallBuffer) = Ok b' ∧
        fixed_toString b' = [x2d; x34; x32; x20; x30; x78; x42; x45; x45; x46].
Proof.
  destruct (log_stream_correct [IInt (-42); IChar x20; IPointer 48879] (newFixed kSmallBuffer))
    as (b' & H1 & _ & _ & H2).
  - by vm_compute.
  - by repeat constructor.
  - exists b'. split; [exact H1|]. rewrite H2. by vm_compute.
Defined.

(** Convert prints every value of the signed and unsigned 64-bit types, the most
    negative one included, in canonical decimal form: reading the text back gives the
    value. The text has at most 21 characters, so formatInteger's 32 bytes are enough. *)
Theorem convert_roundtrip (v : Z) (Hv : - 2 ^ 63 ≤ v < 2 ^ 64) :
  ∃ t, convert v = Ok t ∧ parse_dec t = Some v ∧ canonical t ∧ 1 ≤ zlen t ≤ 21.
Proof. by apply convert_spec. Qed.

Lemma convert_roundtrip_witness :
  ∃ t, convert (- 2 ^ 63) = Ok t ∧ parse_dec t = Some (- 2 ^ 63) ∧ canonical t ∧ 1 ≤ zlen t ≤ 21.
Proof. apply convert_roundtrip. by vm_compute. Defined.

(** ConvertHex prints every pointer value in canonical upper-case hexadecimal, at most
    16 digits, and reading the text back gives the value. *)
Theorem convertHex_roundtrip (v : Z) (Hv : 0 ≤ v < 2 ^ 64) :
  ∃ t, convertHex v = Ok t ∧ parse_digits 16 hex_value t 0 = Some v ∧ canonical t ∧ 1 ≤ zlen t ≤ 16.
Proof. by apply convertHex_spec. Qed.

Lemma convertHex_roundtrip_witness :
  ∃ t, convertHex (2 ^ 64 - 1) = Ok t ∧ parse_digits 16 hex_value t 0 = Some (2 ^ 64 - 1) ∧
       canonical t ∧ 1 ≤ zlen t ≤ 16.
Proof. apply convertHex_roundtrip. by vm_compute. Defined.
End Log.
