(* ===== verification/Format.v ===== *)
(** * Formatted output

    The %d conversions of snprintf as the base library uses them, and what is printed with
    them: Timestamp::toString and toFormattedString (base/timestamp.cc), Date::toIsoString
    (base/date.cc), the thread id of current_thread (base/current_thread.cc), and
    Channel::eventsToString (net/channel.cc). [dec] is the canonical decimal text. *)

From S2P Require Import Prelude LogStream Date TimeZone Timestamp Poller.

Module Format.

(** ** snprintf *)
Definition dec (v : Z) : list byte := Log.text_of (Log.convert v).
Definition pad (n : Z) (c : byte) (t : list byte) : list byte :=
  replicate (Z.to_nat (n - zlen t)) c ++ t.
(** "%<w>d" *)
Definition fmt_d (w v : Z) : list byte := pad w x20 (dec v).
(** "%0<w>d" *)
Definition fmt_0d (w v : Z) : list byte :=
  if v <? 0 then x2d :: pad (w - 1) x30 (dec (- v)) else pad w x30 (dec v).
(** snprintf into an array of [size] bytes, seen as a C string. *)
Definition snprintf (size : Z) (t : list byte) : list byte := take (Z.to_nat (size - 1)) t.

(** ** What is printed *)
Definition toString (t : Ts.Timestamp) : list byte :=
  let seconds := Z.quot (Ts.microSecondsSinceEpoch_ t) Ts.kMicroSecondsPerSecond in
  let microseconds := Z.rem (Ts.microSecondsSinceEpoch_ t) Ts.kMicroSecondsPerSecond in
  snprintf (32 - 1) (fmt_d 0 seconds ++ [x2e] ++ fmt_0d 6 microseconds).

(** "%4d%02d%02d %02d:%02d:%02d" of a broken-down time *)
Definition fmt_tm (t : TZ.tm) : list byte :=
  fmt_d 4 (TZ.tm_year t + 1900) ++ fmt_0d 2 (TZ.tm_mon t + 1) ++ fmt_0d 2 (TZ.tm_mday t) ++ [x20] ++
  fmt_0d 2 (TZ.tm_hour t) ++ [x3a] ++ fmt_0d 2 (TZ.tm_min t) ++ [x3a] ++ fmt_0d 2 (TZ.tm_sec t).

Definition toFormattedString (gmtime : Z → TZ.tm) (showMicroseconds : bool) (t : Ts.Timestamp) : list byte :=
  let seconds := Z.quot (Ts.microSecondsSinceEpoch_ t) Ts.kMicroSecondsPerSecond in
  let tm_time := gmtime seconds in
  if showMicroseconds then
    let microseconds := Z.rem (Ts.microSecondsSinceEpoch_ t) Ts.kMicroSecondsPerSecond in
    snprintf 32 (fmt_tm tm_time ++ [x2e] ++ fmt_0d 6 microseconds)
  else snprintf 32 (fmt_tm tm_time).

Definition toIsoString (d : Date.Date) : res (list byte) :=
  ymd ← Date.yearMonthDay d;
  Ok (snprintf 32 (fmt_d 4 (Date.year ymd) ++ [x2d] ++ fmt_0d 2 (Date.month ymd) ++ [x2d] ++
                   fmt_0d 2 (Date.day ymd))).

(** current_thread: the cached id of a thread and its text *)
Record thread := mkThread { t_cachedTid : Z; t_tidString : list byte }.
Definition cacheTid (gettid : Z) (t : thread) : thread :=
  if t_cachedTid t =? 0 then mkThread gettid (snprintf 32 (fmt_d 5 gettid ++ [x20])) else t.
Definition tid (gettid : Z) (t : thread) : Z * thread :=
  let t := if t_cachedTid t =? 0 then cacheTid gettid t else t in (t_cachedTid t, t).
Definition isMainThread (gettid getpid : Z) (t : thread) : bool * thread :=
  let '(id, t) := tid gettid t in (id =? getpid, t).
Definition sleepUsec (usec : Z) : Z * Z := (Z.quot usec 1000000, Z.rem usec 1000000 * 1000).

(** Channel::eventsToString *)
Definition event_names : list (Z * list byte) :=
  [(Poll.POLLIN, [x49; x4e; x20]); (Poll.POLLPRI, [x50; x52; x49; x20]); (Poll.POLLOUT, [x4f; x55; x54; x20]);
   (Poll.POLLHUP, [x48; x55; x50; x20]); (Poll.POLLRDHUP, [x52; x44; x48; x55; x50; x20]);
   (Poll.POLLERR, [x45; x52; x52; x20]); (Poll.POLLNVAL, [x4e; x56; x41; x4c; x20])].
Definition eventsToString (fd ev : Z) : list byte :=
  dec fd ++ [x3a; x20] ++
  concat (map (λ p : Z * list byte, if negb (Z.land ev p.1 =? 0) then p.2 else []) event_names).

(** ** Fixed-width fields *)
Lemma convert_loop_more f g i :
  (f ≤ g)%nat → Z.abs i < 10 ^ Z.of_nat f → (0 < f)%nat → Log.convert_loop g i = Log.convert_loop f i.
Proof.
  revert g i. induction f as [|f IH]; intros g i Hg Hi Hf; [lia|]. destruct g as [|g]; [lia|].
  cbn [Log.convert_loop]. destruct (Log.zero (Z.rem i 10)); [|done]. cbn [mbind res_bind].
  rewrite Nat2Z.inj_succ, Z.pow_succ_r in Hi by lia.
  destruct (Z.eqb_spec (Z.quot i 10) 0); cbn [negb]; [done|]. rewrite (IH g); [done|lia|dlia|].
  destruct f; [|lia]. change (10 ^ Z.of_nat 0) with 1 in Hi. dlia.
Qed.

(** The decimal text of a number of at most [w] digits. *)
Lemma dec_spec (w : nat) v :
  (0 < w ≤ 20)%nat → 0 ≤ v < 10 ^ Z.of_nat w →
  1 ≤ zlen (dec v) ≤ Z.of_nat w ∧ Log.parse_digits 10 Log.digit_value (dec v) 0 = Some v.
Proof.
  intros Hw Hv. destruct (Log.convert_loop_spec w v) as (p & Hp & Hne & Hl & Hval & _); [lia|lia|].
  unfold dec, Log.convert. rewrite (convert_loop_more w 20) by lia. rewrite Hp. cbn [mbind res_bind Log.text_of].
  rewrite (proj2 (Z.ltb_ge v 0)) by lia. rewrite app_nil_r, length_reverse.
  rewrite Z.abs_eq in Hval by lia. split; [|exact Hval]. destruct p; [done|]. cbn [length] in *. lia.
Qed.

Lemma parse_zeros n t : Log.parse_digits 10 Log.digit_value (replicate n x30 ++ t) 0 =
  Log.parse_digits 10 Log.digit_value t 0.
Proof. induction n as [|n IH]; [done|]. cbn. exact IH. Qed.

(** "%0wd" of a number of at most [w] digits is exactly [w] digits that read back. *)
Lemma fmt_0d_spec (w : nat) v :
  (0 < w ≤ 20)%nat → 0 ≤ v < 10 ^ Z.of_nat w →
  zlen (fmt_0d (Z.of_nat w) v) = Z.of_nat w ∧
  Log.parse_digits 10 Log.digit_value (fmt_0d (Z.of_nat w) v) 0 = Some v.
Proof.
  intros Hw Hv. destruct (dec_spec w v Hw Hv) as [Hl Hp]. unfold fmt_0d, pad.
  rewrite (proj2 (Z.ltb_ge v 0)) by lia. rewrite length_app, length_replicate, parse_zeros. split; [lia|done].
Qed.

Lemma fmt_d_length (w : nat) v :
  (0 < w ≤ 20)%nat → 0 ≤ v < 10 ^ Z.of_nat w → zlen (fmt_d (Z.of_nat w) v) = Z.of_nat w.
Proof.
  intros Hw Hv. destruct (dec_spec w v Hw Hv) as [Hl Hp]. unfold fmt_d, pad.
  rewrite length_app, length_replicate. lia.
Qed.

(** A broken-down time whose fields are in range. *)
Definition tm_fields_ok (t : TZ.tm) : Prop :=
  0 ≤ TZ.tm_year t + 1900 ≤ 9999 ∧ 0 ≤ TZ.tm_mon t ≤ 11 ∧ 1 ≤ TZ.tm_mday t ≤ 31 ∧
  0 ≤ TZ.tm_hour t ≤ 23 ∧ 0 ≤ TZ.tm_min t ≤ 59 ∧ 0 ≤ TZ.tm_sec t ≤ 60.

Lemma fmt_2d v : 0 ≤ v < 100 → zlen (fmt_0d 2 v) = 2.
Proof. intros Hv. by apply (fmt_0d_spec 2 v); [lia|]. Qed.

Lemma fmt_tm_length t : tm_fields_ok t → zlen (fmt_tm t) = 17.
Proof.
  intros (? & ? & ? & ? & ? & ?). unfold fmt_tm.
  assert (zlen (fmt_d 4 (TZ.tm_year t + 1900)) = 4) as Hy.
  { apply (fmt_d_length 4); [lia|]. change (10 ^ Z.of_nat 4) with 10000. lia. }
  pose proof (fmt_2d (TZ.tm_mon t + 1) ltac:(lia)). pose proof (fmt_2d (TZ.tm_mday t) ltac:(lia)).
  pose proof (fmt_2d (TZ.tm_hour t) ltac:(lia)). pose proof (fmt_2d (TZ.tm_min t) ltac:(lia)).
  pose proof (fmt_2d (TZ.tm_sec t) ltac:(lia)).
  rewrite !length_app, !Nat2Z.inj_add. cbn [length]. lia.
Qed.

(** ** Theorems *)

(** Timestamp::toString prints a non-negative time whole, as seconds, a point and six
    digits of microseconds, from which the time can be read back. *)
Theorem toString_roundtrip (us : Z) (Hus : 0 ≤ us < 2 ^ 63) :
  ∃ s m secs micros, toString (Ts.mkTimestamp us) = s ++ [x2e] ++ m ∧ zlen m = 6 ∧
    Log.parse_digits 10 Log.digit_value s 0 = Some secs ∧
    Log.parse_digits 10 Log.digit_value m 0 = Some micros ∧ secs * 1000000 + micros = us.
Proof.
  set (sec := us / 1000000). set (mic := us mod 1000000).
  assert (us = sec * 1000000 + mic ∧ 0 ≤ mic < 1000000 ∧ 0 ≤ sec < 10 ^ Z.of_nat 13) as (E & Hm & Hs).
  { change (10 ^ Z.of_nat 13) with 10000000000000. unfold sec, mic. dlia. }
  destruct (dec_spec 13 sec ltac:(lia) Hs) as [Hl Hp].
  destruct (fmt_0d_spec 6 mic ltac:(lia) Hm) as [Hl6 Hp6].
  change (Z.of_nat 6) with 6 in *.
  exists (dec sec), (fmt_0d 6 mic), sec, mic. split_and!; try done.
  unfold toString. cbn [Ts.microSecondsSinceEpoch_]. change Ts.kMicroSecondsPerSecond with 1000000.
  rewrite quot_div, rem_mod by lia. fold sec mic.
  assert (fmt_d 0 sec = dec sec) as ->.
  { unfold fmt_d, pad. replace (Z.to_nat (0 - zlen (dec sec))) with 0%nat by lia. done. }
  unfold snprintf. apply firstn_all2. rewrite !length_app. cbn [length]. lia.
Qed.

Lemma toString_roundtrip_witness :
  ∃ s m secs micros, toString (Ts.mkTimestamp 1500000000000042) = s ++ [x2e] ++ m ∧ zlen m = 6 ∧
    Log.parse_digits 10 Log.digit_value s 0 = Some secs ∧
    Log.parse_digits 10 Log.digit_value m 0 = Some micros ∧ secs * 1000000 + micros = 1500000000000042.
Proof. apply toString_roundtrip. by vm_compute. Defined.
End Format.
