(* ===== verification/Logging.v ===== *)
(** * Logger (base/logging.h, base/logging.cc)

    One logging statement: the prefix (time, thread, level, errno), the streamed items, the
    suffix (file, line) and the hand-over to the output function. [tls] is the thread-local
    cache, with t_time as a C string; [globals] the level, the time zone and what was output.
    gmtime_r, strerror_r and the clock are parameters; a fatal statement ends in abort(). *)

From S2P Require Import Prelude LogStream Format TimeZone Timestamp.

Module Logging.
Import Log.

Inductive LogLevel := TRACE | DEBUG | INFO | WARN | ERROR | FATAL.
Definition level_num (l : LogLevel) : Z :=
  match l with TRACE => 0 | DEBUG => 1 | INFO => 2 | WARN => 3 | ERROR => 4 | FATAL => 5 end.
Definition LogLevelName (l : LogLevel) : list byte :=
  match l with
  | TRACE => [x54; x52; x41; x43; x45; x20]
  | DEBUG => [x44; x45; x42; x55; x47; x20]
  | INFO => [x49; x4e; x46; x4f; x20; x20]
  | WARN => [x57; x41; x52; x4e; x20; x20]
  | ERROR => [x45; x52; x52; x4f; x52; x20]
  | FATAL => [x46; x41; x54; x41; x4c; x20]
  end.

(** ** SourceFile *)
Fixpoint strrchr (l : list byte) (c : byte) : option nat :=
  match l with
  | [] => None
  | b :: l => match strrchr l c with
              | Some i => Some (S i)
              | None => if bool_decide (b = c) then Some 0%nat else None
              end
  end.
Definition SourceFile (filename : list byte) : list byte :=
  match strrchr filename x2f with Some i => drop (S i) filename | None => filename end.

(** ** State *)
Record tls := mkTls { thr : Format.thread; t_time : list byte; t_lastSecond : Z }.
Record globals := mkGlobals { g_logLevel : LogLevel; g_logTimeZone : TZ.TimeZone; output : list (list byte) }.

Definition setLogLevel (l : LogLevel) (g : globals) : globals := mkGlobals l (g_logTimeZone g) (output g).
Definition setTimeZone (tz : TZ.TimeZone) (g : globals) : globals := mkGlobals (g_logLevel g) tz (output g).

(** The helper class T: a string with its length. *)
Definition T (str : list byte) (len : Z) : res item := _ ← assert_ (zlen str =? len); Ok (IString str).

Section Logger.
Context (gmtime : Z → TZ.tm) (strerror : Z → list byte).

(** Impl::formatTime *)
Definition formatTime (tz : TZ.TimeZone) (us : Z) (t : tls) (s : FixedBuffer) : res (tls * FixedBuffer) :=
  let seconds := Z.quot us Ts.kMicroSecondsPerSecond in
  let microseconds := Z.rem us Ts.kMicroSecondsPerSecond in
  t ← (if negb (seconds =? t_lastSecond t) then
         tm_time ← (if TZ.valid tz then TZ.toLocalTime gmtime tz seconds else Ok (gmtime seconds));
         let text := Format.fmt_tm tm_time in
         _ ← assert_ (zlen text =? 17);
         Ok (mkTls (thr t) (Format.snprintf 32 text) seconds)
       else Ok t);
  if TZ.valid tz then
    fmt ← Fmt ([x2e] ++ Format.fmt_0d 6 microseconds ++ [x20]);
    _ ← assert_ (zlen fmt =? 8);
    a ← T (t_time t) 17;
    b ← T fmt 8;
    s ← mfold put [a; b] s; Ok (t, s)
  else
    fmt ← Fmt ([x2e] ++ Format.fmt_0d 6 microseconds ++ [x5a; x20]);
    _ ← assert_ (zlen fmt =? 9);
    a ← T (t_time t) 17;
    b ← T fmt 9;
    s ← mfold put [a; b] s; Ok (t, s).

(** Impl::Impl *)
Definition errno_open : list byte := [x20; x28; x65; x72; x72; x6e; x6f; x3d].  (* " (errno=" *)
Definition Impl (tz : TZ.TimeZone) (us gettid : Z) (level : LogLevel) (savedErrno : Z) (t : tls)
    : res (tls * FixedBuffer) :=
  '(t, s) ← formatTime tz us t (newFixed kSmallBuffer);
  let t := mkTls (snd (Format.tid gettid (thr t))) (t_time t) (t_lastSecond t) in
  tid ← T (Format.t_tidString (thr t)) (zlen (Format.t_tidString (thr t)));
  s ← put tid s;
  lv ← T (LogLevelName level) 6;
  s ← put lv s;
  s ← (if negb (savedErrno =? 0) then
         mfold put [ICstr (Some (strerror savedErrno)); ICstr (Some errno_open); IInt savedErrno;
                    ICstr (Some [x29; x20])] s
       else Ok s);
  Ok (t, s).

(** Impl::finish *)
Definition finish (basename : list byte) (line : Z) (s : FixedBuffer) : res FixedBuffer :=
  mfold put [ICstr (Some [x20; x2d; x20]); IString basename; IChar x3a; IInt line; IChar x0a] s.

(** ~Logger: returns whether the process aborts. *)
Definition destructor (level : LogLevel) (basename : list byte) (line : Z) (s : FixedBuffer) (g : globals)
    : res (globals * bool) :=
  s ← finish basename line s;
  Ok (mkGlobals (g_logLevel g) (g_logTimeZone g) (output g ++ [fixed_toString s]),
      match level with FATAL => true | _ => false end).

(** The constructors of Logger: LOG_WARN and above pass a level, LOG_TRACE and LOG_DEBUG also
    the function's name, LOG_SYSERR and LOG_SYSFATAL errno. *)
Definition func_items (func : option (list byte)) : list item :=
  match func with Some f => [ICstr (Some f); IChar x20] | None => [] end.

Definition statement (file : list byte) (line : Z) (level : LogLevel) (func : option (list byte))
    (savedErrno us gettid : Z) (items : list item) (t : tls) (g : globals) : res (tls * globals * bool) :=
  '(t, s) ← Impl (g_logTimeZone g) us gettid level savedErrno t;
  s ← mfold put (func_items func) s;
  s ← mfold put items s;
  '(g, ab) ← destructor level (SourceFile file) line s g;
  Ok (t, g, ab).

(** The macros LOG_TRACE, LOG_DEBUG and LOG_INFO look at the level first. *)
Definition log_enabled (level : LogLevel) (g : globals) : bool :=
  match level with
  | TRACE | DEBUG | INFO => level_num (g_logLevel g) <=? level_num level
  | _ => true
  end.
Definition log_macro (file : list byte) (line : Z) (level : LogLevel) (func : option (list byte))
    (savedErrno us gettid : Z) (items : list item) (t : tls) (g : globals) : res (tls * globals * bool) :=
  if log_enabled level g then statement file line level func savedErrno us gettid items t g
  else Ok (t, g, false).

(** CHECK_NOTNULL: [null] when ptr is NULL; the fatal statement prints the expression's text
    and aborts. *)
Definition CheckNotNull (file : list byte) (line : Z) (names : list byte) (null : bool)
    (us gettid : Z) (t : tls) (g : globals) : res (tls * globals * bool) :=
  if null then statement file line FATAL None 0 us gettid [ICstr (Some names)] t g
  else Ok (t, g, false).

(** ** The line a statement should produce *)
Definition time_text (tz : TZ.TimeZone) (us : Z) : res (list byte) :=
  tm ← (if TZ.valid tz then TZ.toLocalTime gmtime tz (us / 1000000) else Ok (gmtime (us / 1000000)));
  Ok (Format.fmt_tm tm).
Definition micros_text (tz : TZ.TimeZone) (us : Z) : list byte :=
  [x2e] ++ Format.fmt_0d 6 (us mod 1000000) ++ (if TZ.valid tz then [x20] else [x5a; x20]).
Definition errno_items (savedErrno : Z) : list item :=
  if negb (savedErrno =? 0) then
    [ICstr (Some (strerror savedErrno)); ICstr (Some errno_open); IInt savedErrno; ICstr (Some [x29; x20])]
  else [].
Definition line_items (time : list byte) (tz : TZ.TimeZone) (us : Z) (tidText file : list byte) (line : Z)
    (level : LogLevel) (func : option (list byte)) (savedErrno : Z) (items : list item) : list item :=
  [IString time; IString (micros_text tz us); IString tidText; IString (LogLevelName level)] ++
  errno_items savedErrno ++ func_items func ++ items ++
  [ICstr (Some [x20; x2d; x20]); IString (SourceFile file); IChar x3a; IInt line; IChar x0a].

Definition total (xs : list item) : Z := zlen (concat (map item_text xs)).

(** Nothing is dropped while at least 32 bytes stay free. *)
Lemma render_all size xs acc :
  zlen acc + total xs + kMaxNumericSize ≤ size → render size xs acc = acc ++ concat (map item_text xs).
Proof.
  unfold total, kMaxNumericSize. revert acc. induction xs as [|x xs IH]; intros acc Hr; cbn in *.
  - by rewrite app_nil_r.
  - rewrite length_app in Hr. assert (fits (size - zlen acc) x = true) as ->.
    { unfold fits, kMaxNumericSize. destruct x; lia. }
    unfold render in IH. rewrite IH by (rewrite length_app; lia). by rewrite app_assoc.
Qed.

(** The cached text, if any, is the current one for the zone. *)
Definition cache_ok (tz : TZ.TimeZone) (us : Z) (time : list byte) (t : tls) : Prop :=
  t_lastSecond t = us / 1000000 → t_time t = time.

Lemma micros_length tz us :
  zlen (micros_text tz us) = if TZ.valid tz then 8 else 9.
Proof.
  clear gmtime strerror.
  unfold micros_text.
  destruct (Format.fmt_0d_spec 6 (us mod 1000000)) as [Hl _]; [lia|change (10 ^ Z.of_nat 6) with 1000000; dlia|].
  change (Z.of_nat 6) with 6 in Hl. rewrite !length_app. cbn [length]. destruct (TZ.valid tz); cbn [length]; lia.
Qed.

Lemma T_ok str len : zlen str = len → T str len = Ok (IString str).
Proof. intros E. unfold T. by rewrite assert_true by lia. Qed.

Lemma Fmt_ok t : zlen t < 32 → Fmt t = Ok t.
Proof. intros E. unfold Fmt. by rewrite assert_true by lia. Qed.

Lemma formatTime_spec tz us t s time :
  0 ≤ us → time_text tz us = Ok time → zlen time = 17 → cache_ok tz us time t →
  formatTime tz us t s =
    (s ← mfold put [IString time; IString (micros_text tz us)] s;
     Ok (mkTls (thr t) time (us / 1000000), s)).
Proof.
  intros Hus Htm Hl Hc. unfold formatTime. cbv zeta. change Ts.kMicroSecondsPerSecond with 1000000.
  rewrite quot_div, rem_mod by lia. unfold time_text in Htm. apply bind_Ok in Htm as (tm & Htm & [= <-]).
  assert (Format.snprintf 32 (Format.fmt_tm tm) = Format.fmt_tm tm) as Hsn.
  { unfold Format.snprintf. apply firstn_all2. lia. }
  pose proof (micros_length tz us) as Hm. unfold micros_text in *.
  assert ((if negb (us / 1000000 =? t_lastSecond t) then
         tm_time ← (if TZ.valid tz then TZ.toLocalTime gmtime tz (us / 1000000) else Ok (gmtime (us / 1000000)));
         _ ← assert_ (zlen (Format.fmt_tm tm_time) =? 17);
         Ok (mkTls (thr t) (Format.snprintf 32 (Format.fmt_tm tm_time)) (us / 1000000))
       else Ok t) = Ok (mkTls (thr t) (Format.fmt_tm tm) (us / 1000000))) as ->.
  { destruct (Z.eqb_spec (us / 1000000) (t_lastSecond t)) as [E|E]; cbn [negb].
    - rewrite <-(Hc (eq_sym E)), E. by destruct t.
    - rewrite Htm. cbn [mbind res_bind]. rewrite Hl, Hsn. done. }
  cbn [mbind res_bind t_time]. rewrite !(T_ok (Format.fmt_tm tm)) by done.
  destruct (TZ.valid tz); rewrite Fmt_ok by lia; cbn [mbind res_bind]; rewrite assert_true by lia;
    cbn [mbind res_bind]; rewrite T_ok by done; reflexivity.
Qed.

(** A statement is one sequence of insertions into an empty buffer. *)
Lemma statement_items file line level func savedErrno us gettid items t g time :
  0 ≤ us → time_text (g_logTimeZone g) us = Ok time → zlen time = 17 → cache_ok (g_logTimeZone g) us time t →
  let th := snd (Format.tid gettid (thr t)) in
  statement file line level func savedErrno us gettid items t g =
    (s ← mfold put (line_items time (g_logTimeZone g) us (Format.t_tidString th) file line level func
                      savedErrno items) (newFixed kSmallBuffer);
     Ok (mkTls th time (us / 1000000),
         mkGlobals (g_logLevel g) (g_logTimeZone g) (output g ++ [fixed_toString s]),
         match level with FATAL => true | _ => false end)).
Proof.
  intros Hus Htm Hl Hc. cbv zeta. unfold statement, Impl, destructor, finish, line_items, errno_items.
  rewrite (formatTime_spec _ _ _ _ time) by done. rewrite T_ok by (by destruct level).
  change ([IString time; IString ?a; IString ?b; IString ?c] ++ ?r) with
    ([IString time; IString a] ++ IString b :: IString c :: r). rewrite mfold_app.
  destruct (mfold put [IString time; _] (newFixed kSmallBuffer)) as [s1|]; [|done].
  cbn [mbind res_bind thr t_time t_lastSecond]. rewrite T_ok by done. cbn [mbind res_bind].
  rewrite !(mfold_cons put (IString _)). 
  destruct (put _ s1) as [s2|]; [|done]. cbn [mbind res_bind]. rewrite mfold_cons.
  destruct (put _ s2) as [s3|]; [|done]. cbn [mbind res_bind].
  rewrite mfold_app. destruct (negb (savedErrno =? 0)).
  2: change (mfold put [] s3) with (Ok s3 : res FixedBuffer); cbn [mbind res_bind].
  1: destruct (mfold put _ s3) as [s4|]; [|done]; cbn [mbind res_bind].
  all: rewrite mfold_app; destruct (mfold put (func_items func) _) as [s5|]; [|done]; cbn [mbind res_bind].
  all: rewrite mfold_app; destruct (mfold put items s5) as [s6|]; [|done]; cbn [mbind res_bind].
  all: by destruct (mfold put _ s6) as [s7|].
Qed.

Lemma strrchr_None l c : strrchr l c = None → ¬ (c ∈ l).
Proof.
  induction l as [|b l IH]; cbn; [intros _ ?%not_elem_of_nil; done|]. destruct (strrchr l c); [done|].
  case_bool_decide; [done|]. intros _. rewrite not_elem_of_cons. split; [congruence|]. by apply IH.
Qed.

Lemma strrchr_Some l c i :
  strrchr l c = Some i → l !! i = Some c ∧ ¬ (c ∈ drop (S i) l).
Proof.
  revert i. induction l as [|b l IH]; intros i; cbn; [done|]. destruct (strrchr l c) as [j|] eqn:E.
  - intros [= <-]. by apply IH.
  - case_bool_decide as Hb; [|done]. intros [= <-]. subst. split; [done|]. by apply strrchr_None.
Qed.

(** ** Theorems *)

(** C38: a logging statement whose text leaves 32 bytes of its 4000-byte buffer free, in a
    thread whose cached second was formatted in the log's present time zone, calls the output
    function once, with its whole text: the time of day to the microsecond in the log's time zone, the thread
    id, the level, the error text if errno is given, the function's name if given, the
    streamed items in order, and the base name and line of the source file, ended by a
    newline (the items may contain others). A longer text loses its end. It aborts the process exactly when the level is FATAL. *)
Theorem log_line_complete (file : list byte) (line : Z) (level : LogLevel) (func : option (list byte))
    (savedErrno us gettid : Z) (items : list item) (t : tls) (g : globals) (time : list byte)
    (Hus : 0 ≤ us) (Htm : time_text (g_logTimeZone g) us = Ok time) (Hl : zlen time = 17)
    (Hc : cache_ok (g_logTimeZone g) us time t)
    (Hok : Forall item_ok items) (Hli : in_s 32 line) (He : in_s 32 savedErrno)
    (Hroom : total (line_items time (g_logTimeZone g) us (Format.t_tidString (snd (Format.tid gettid (thr t))))
               file line level func savedErrno items) + kMaxNumericSize ≤ kSmallBuffer) :
  statement file line level func savedErrno us gettid items t g =
    Ok (mkTls (snd (Format.tid gettid (thr t))) time (us / 1000000),
        mkGlobals (g_logLevel g) (g_logTimeZone g)
          (output g ++ [concat (map item_text (line_items time (g_logTimeZone g) us
             (Format.t_tidString (snd (Format.tid gettid (thr t)))) file line level func savedErrno items))]),
        match level with FATAL => true | _ => false end).
Proof.
  rewrite (statement_items _ _ _ _ _ _ _ _ _ _ time) by done. set (xs := line_items _ _ _ _ _ _ _ _ _ _) in *.
  assert (Forall item_ok xs) as Hxs.
  { unfold in_s in *. change (2 ^ (32 - 1)) with 2147483648 in *.
    assert (∀ v, - 2147483648 ≤ v < 2147483648 → item_ok (IInt v)) as Hint.
    { intros v Hv. unfold item_ok. change (2 ^ 63) with 9223372036854775808. change (2 ^ 64) with 18446744073709551616. lia. }
    unfold xs, line_items, errno_items, func_items.
    apply Forall_app_2; [by repeat constructor|]. apply Forall_app_2.
    { destruct (negb _); [|done]. repeat (apply Forall_cons_2; [try done; by apply Hint|]). done. }
    apply Forall_app_2; [destruct func; by repeat constructor|]. apply Forall_app_2; [done|].
    repeat (apply Forall_cons_2; [try done; by apply Hint|]). done. }
  destruct (put_all xs (newFixed kSmallBuffer)) as (b & -> & Hb & _); try done.
  cbn [mbind res_bind]. rewrite Hb. change (zlen (data_ (newFixed kSmallBuffer))) with 4000.
  rewrite render_all; [done|]. change (fixed_toString (newFixed kSmallBuffer)) with (@nil byte). cbn [length].
  unfold kSmallBuffer in Hroom. lia.
Qed.

(** SourceFile keeps the base name: the file name is a directory part, empty or ending
    in a slash, followed by the base name, which has no slash. *)
Theorem SourceFile_basename (filename : list byte) :
  ∃ dir, filename = dir ++ SourceFile filename ∧ ¬ (x2f ∈ SourceFile filename) ∧
         (dir = [] ∨ last dir = Some x2f).
Proof.
  unfold SourceFile. destruct (strrchr filename x2f) as [i|] eqn:E.
  - apply strrchr_Some in E as [Hi Hn]. exists (take (S i) filename). rewrite take_drop. split_and!; try done.
    right. rewrite (take_S_r _ _ _ Hi). by rewrite last_snoc.
  - exists []. split_and!; [done|by apply strrchr_None|by left].
Qed.

(** SetTimeZone does not take effect until the second changes. A statement logged in
    the same second as the previous one of the thread prints the cached time of day, whatever
    zone is set, while the suffix that tells UTC from local time is the new zone's. *)
Theorem zone_change_ignored (tz1 tz2 : TZ.TimeZone) (us1 us2 : Z) (t1 : tls) (s1 s2 : FixedBuffer)
    (t1' : tls) (s1' : FixedBuffer)
    (H1 : formatTime tz1 us1 t1 s1 = Ok (t1', s1')) (Hsec : Z.quot us1 1000000 = Z.quot us2 1000000)
    (Hmic : 0 ≤ us2) (Hlen : zlen (t_time t1') = 17) :
  formatTime tz2 us2 t1' s2 =
    (s ← mfold put [IString (t_time t1'); IString (micros_text tz2 us2)] s2; Ok (t1', s)).
Proof.
  assert (t_lastSecond t1' = Z.quot us2 1000000) as Hls.
  { revert H1. unfold formatTime. cbv zeta. change Ts.kMicroSecondsPerSecond with 1000000. rewrite Hsec.
    intros (t & Ht & H1)%bind_Ok.
    assert (t_lastSecond t = Z.quot us2 1000000) as Hl.
    { destruct (Z.eqb_spec (Z.quot us2 1000000) (t_lastSecond t1)) as [E|E]; cbn [negb] in Ht.
      - by injection Ht as <-.
      - apply bind_Ok in Ht as (tm & _ & Ht). by apply bind_Ok in Ht as (_ & _ & [= <-]). }
    destruct (TZ.valid tz1); repeat (apply bind_Ok in H1 as (? & _ & H1)); by injection H1 as <- <-. }
  unfold formatTime. cbv zeta. change Ts.kMicroSecondsPerSecond with 1000000.
  rewrite Hls, Z.eqb_refl. cbn [negb mbind res_bind]. rewrite rem_mod by lia.
  pose proof (micros_length tz2 us2) as Hm. unfold micros_text in *. rewrite !(T_ok (t_time t1')) by done.
  destruct (TZ.valid tz2); rewrite Fmt_ok by lia; cbn [mbind res_bind]; rewrite assert_true by lia;
    cbn [mbind res_bind]; rewrite T_ok by done; reflexivity.
Qed.
End Logger.

(** ** Witnesses *)
Definition demo_tm : TZ.tm := TZ.mkTm 4 3 12 14 6 117 5 194 0 0 None.
Definition demo_tls : tls := mkTls (Format.mkThread 0 []) [] 0.
Definition demo_globals : globals := mkGlobals TRACE TZ.TimeZone_invalid [].

Lemma log_line_complete_witness :
  statement (λ _, demo_tm) (λ _, []) [x61; x2f; x62] 7 WARN None 0 1500000000000042 9 [IInt 5]
    demo_tls demo_globals =
  Ok (mkTls (snd (Format.tid 9 (thr demo_tls))) (Format.fmt_tm demo_tm) 1500000000,
      mkGlobals TRACE TZ.TimeZone_invalid
        [concat (map item_text (line_items (λ _, []) (Format.fmt_tm demo_tm) TZ.TimeZone_invalid 1500000000000042
           (Format.t_tidString (snd (Format.tid 9 (thr demo_tls)))) [x61; x2f; x62] 7 WARN None 0 [IInt 5]))], false).
Proof.
  refine (log_line_complete (λ _, demo_tm) (λ _, []) [x61; x2f; x62] 7 WARN None 0 1500000000000042 9 [IInt 5]
    demo_tls demo_globals (Format.fmt_tm demo_tm) _ _ _ _ _ _ _ _);
    first [by repeat constructor | by vm_compute].
Defined.

Lemma zone_change_ignored_witness :
  ∃ t s, formatTime (λ _, demo_tm) TZ.TimeZone_invalid 1500000000000042 demo_tls (newFixed kSmallBuffer) = Ok (t, s) ∧
    formatTime (λ _, demo_tm) (TZ.TimeZone_fixed 28800 []) 1500000000000099 t (newFixed kSmallBuffer) =
      (s ← mfold put [IString (t_time t); IString (micros_text (TZ.TimeZone_fixed 28800 []) 1500000000000099)]
             (newFixed kSmallBuffer); Ok (t, s)).
Proof.
  destruct (formatTime (λ _, demo_tm) TZ.TimeZone_invalid 1500000000000042 demo_tls (newFixed kSmallBuffer))
    as [[t s]|] eqn:E; [|by vm_compute in E].
  exists t, s. split; [done|].
  apply (zone_change_ignored (λ _, demo_tm) TZ.TimeZone_invalid (TZ.TimeZone_fixed 28800 []) 1500000000000042
    1500000000000099 demo_tls (newFixed kSmallBuffer) (newFixed kSmallBuffer) t s E).
  - by vm_compute.
  - by vm_compute.
  - vm_compute in E. by injection E as <- _.
Defined.
End Logging.
