(* ===== verification/Sync.v ===== *)
(** * MutexLock, Condition and CountDownLatch
    (base/mutex.h, base/condition.h, base/condition.cc, base/count_down_latch.cc)

    [Mutex]: the lock with its holder_ field, every thread stepping through lock(), unlock()
    and Condition::wait(); pthread's mutex is the field [owner]. [Cond]: a condition variable
    as the threads blocked in it and those it has released, which still have to take the lock
    again; which waiter a signal picks is an argument, and a waiter may wake up by itself.
    [Latch]: the latch as a monitor: code between taking and releasing the lock is one step. *)

From S2P Require Import Prelude.

Module Mutex.

(** Where a thread is with respect to one mutex. *)
Inductive pc :=
  | Out          (* does not hold it *)
  | Acquired     (* pthread_mutex_lock has returned, holder_ is not yet assigned *)
  | Inside       (* in the critical section *)
  | Releasing    (* unlock() has reset holder_, pthread_mutex_unlock is to come *)
  | Entering     (* in wait(): the UnassignGuard is constructed, pthread_cond_wait is to come *)
  | Blocked      (* in pthread_cond_wait, without the mutex *)
  | Leaving.     (* pthread_cond_wait has returned, the UnassignGuard is to be destroyed *)
#[export] Instance pc_eq_dec : EqDecision pc.
Proof. solve_decision. Defined.

Record MutexLock := mkMutex { owner : option Z; holder_ : Z; at_ : Z → pc }.
Definition newMutex : MutexLock := mkMutex None 0 (λ _, Out).

Definition isLockedByThisThread (tid : Z) (m : MutexLock) : bool := holder_ m =? tid.
Definition assertLocked (tid : Z) (m : MutexLock) : res unit := assert_ (isLockedByThisThread tid m).
Definition destroy (m : MutexLock) : res unit := assert_ (holder_ m =? 0).

Definition assignHolder (tid : Z) (m : MutexLock) : MutexLock := mkMutex (owner m) tid (at_ m).
Definition unassignHolder (m : MutexLock) : MutexLock := mkMutex (owner m) 0 (at_ m).
Definition goto (tid : Z) (p : pc) (m : MutexLock) : MutexLock :=
  mkMutex (owner m) (holder_ m) (λ t, if decide (t = tid) then p else at_ m t).
Definition set_owner (o : option Z) (m : MutexLock) : MutexLock := mkMutex o (holder_ m) (at_ m).

(** The next step of thread [tid]; None when it has to wait. [go]: what it does when it has
    the choice: take the lock or not, wait or unlock. *)
Definition next (tid : Z) (go : bool) (m : MutexLock) : option MutexLock :=
  match at_ m tid with
  | Out =>           (* lock() *)
      match owner m with
      | None => Some (goto tid Acquired (set_owner (Some tid) m))
      | Some _ => None
      end
  | Acquired => Some (goto tid Inside (assignHolder tid m))
  | Inside =>        (* unlock() or Condition::wait() *)
      Some (goto tid (if go then Releasing else Entering) (unassignHolder m))
  | Releasing => Some (goto tid Out (set_owner None m))
  | Entering => Some (goto tid Blocked (set_owner None m))
  | Blocked =>       (* signalled, or woken up spuriously *)
      match owner m with
      | None => Some (goto tid Leaving (set_owner (Some tid) m))
      | Some _ => None
      end
  | Leaving => Some (goto tid Inside (assignHolder tid m))
  end.

Inductive step (m m' : MutexLock) : Prop :=
  | step_intro tid go : 0 < tid → next tid go m = Some m' → step m m'.

Definition owns (p : pc) : bool := match p with Out | Blocked => false | _ => true end.

Record inv (m : MutexLock) : Prop := mkInv {
  inv_owner : ∀ t, 0 < t → owns (at_ m t) = bool_decide (owner m = Some t);
  inv_holder : ∀ t, 0 < t → (holder_ m = t ↔ at_ m t = Inside);
  inv_zero : holder_ m = 0 ∨ 0 < holder_ m
}.

(** One thread moves, no other thread owns the mutex. *)
Lemma move_inv m tid p :
  inv m → 0 < tid → owner m = None ∨ owner m = Some tid →
  inv (mkMutex (if owns p then Some tid else None) (if decide (p = Inside) then tid else 0)
         (λ t, if decide (t = tid) then p else at_ m t)).
Proof.
  intros [Ho Hh Hz] Ht Hown.
  assert (∀ t, 0 < t → t ≠ tid → owns (at_ m t) = false) as Hother.
  { intros t H0 Hne. rewrite Ho, bool_decide_false by (destruct Hown; congruence || done).
    done. }
  split; cbn.
  - intros t H0. destruct (decide (t = tid)) as [->|Hne].
    + destruct (owns p); [by rewrite bool_decide_true|by rewrite bool_decide_false].
    + rewrite Hother, bool_decide_false by (try done; destruct (owns p); congruence). done.
  - intros t H0. destruct (decide (t = tid)) as [->|Hne].
    + destruct (decide (p = Inside)); [done|]. split; [lia|done].
    + specialize (Hother t H0 Hne). destruct (decide (p = Inside)); split; try lia; intros E;
        by rewrite E in Hother.
  - destruct (decide (p = Inside)); lia.
Qed.

Lemma holder_zero m : inv m → (∀ t, 0 < t → at_ m t ≠ Inside) → holder_ m = 0.
Proof. intros [Ho Hh Hz] Hn. destruct Hz as [|Hz]; [done|]. by destruct (Hn _ Hz), (Hh _ Hz) as [? _]; auto. Qed.

Lemma mutex_step_inv m m' : inv m → step m m' → inv m'.
Proof.
  intros Hinv [tid go Ht Hs]. pose proof Hinv as [Ho Hh Hz].
  assert (∀ t, 0 < t → at_ m t = Inside → owner m = Some t) as Hin.
  { intros t H0 E. specialize (Ho t H0). rewrite E in Ho. symmetry in Ho. by apply bool_decide_eq_true in Ho. }
  assert (owns (at_ m tid) = true → owner m = Some tid) as Hself.
  { intros E. specialize (Ho tid Ht). rewrite E in Ho. symmetry in Ho. by apply bool_decide_eq_true in Ho. }
  assert (at_ m tid ≠ Inside → owner m = None ∨ owner m = Some tid → holder_ m = 0) as Hh0.
  { intros Hne Hown. apply holder_zero; [done|]. intros t H0 E. pose proof (Hin t H0 E).
    destruct Hown; [congruence|]. assert (t = tid) by congruence. by subst. }
  unfold next in Hs.
  destruct (at_ m tid) eqn:Ep; try (destruct (owner m) as [o|] eqn:Eo; [done|]);
    injection Hs as <-; unfold goto, set_owner, assignHolder, unassignHolder; cbn;
    try rewrite (Hh0 ltac:(done)) by auto.
  - by apply (move_inv m tid Acquired); [| |left].
  - rewrite (Hself eq_refl). by apply (move_inv m tid Inside); auto.
  - rewrite (Hself eq_refl). destruct go; [apply (move_inv m tid Releasing)|apply (move_inv m tid Entering)]; auto.
  - by apply (move_inv m tid Out); auto.
  - by apply (move_inv m tid Blocked); auto.
  - by apply (move_inv m tid Leaving); [| |left].
  - rewrite (Hself eq_refl). by apply (move_inv m tid Inside); auto.
Qed.

Lemma mutex_new_inv : inv newMutex.
Proof. split; cbn; [by intros; rewrite bool_decide_false| |by left]. intros t Ht. split; [lia|done]. Qed.

(** C39: MutexLock excludes, and its holder_ tells the truth. In every state the threads
    can reach through lock(), unlock() and Condition::wait(), at most one thread is in the
    critical section, isLockedByThisThread() is true for exactly that thread, and holder_ is
    0 when there is none: so assertLocked() never fails inside and never passes outside. *)
Theorem mutex_excludes (m : MutexLock) (t1 t2 : Z) (Hreach : rtc step newMutex m)
    (H1 : 0 < t1) (H2 : 0 < t2) :
  (at_ m t1 = Inside → at_ m t2 = Inside → t1 = t2) ∧
  isLockedByThisThread t1 m = bool_decide (at_ m t1 = Inside) ∧
  ((∀ t, 0 < t → at_ m t ≠ Inside) → holder_ m = 0).
Proof.
  assert (inv m) as Hinv by (eapply rtc_invariant; [apply mutex_step_inv|apply mutex_new_inv|done]).
  pose proof Hinv as [Ho Hh Hz]. split_and!.
  - intros E1 E2. apply Hh in E1; [|done]. apply Hh in E2; [|done]. congruence.
  - unfold isLockedByThisThread. specialize (Hh t1 H1). case_bool_decide as E.
    + by apply Z.eqb_eq, Hh.
    + apply Z.eqb_neq. naive_solver.
  - by apply holder_zero.
Qed.

(** One thread inside, another waiting in a condition. *)
Definition demo_mutex : MutexLock :=
  goto 2 Inside (assignHolder 2 (goto 2 Acquired (set_owner (Some 2)
    (goto 1 Blocked (set_owner None (goto 1 Entering (unassignHolder (goto 1 Inside (assignHolder 1
    (goto 1 Acquired (set_owner (Some 1) newMutex))))))))))).

Lemma mutex_excludes_witness :
  isLockedByThisThread 2 demo_mutex = true ∧ isLockedByThisThread 1 demo_mutex = false.
Proof.
  assert (rtc step newMutex demo_mutex) as Hreach.
  { unfold demo_mutex. do 4 (eapply rtc_l; [by apply (step_intro _ _ 1 false)|]).
    do 2 (eapply rtc_l; [by apply (step_intro _ _ 2 false)|]). apply rtc_refl. }
  destruct (mutex_excludes demo_mutex 2 1 Hreach) as (_ & E2 & _); [lia|lia|].
  destruct (mutex_excludes demo_mutex 1 2 Hreach) as (_ & E1 & _); [lia|lia|].
  rewrite E1, E2. by vm_compute.
Defined.
End Mutex.

Module Cond.

(** The threads blocked in wait(), and those released that have not yet run. [A] is what a
    thread has to remember while it waits. *)
Record Condition (A : Type) := mkCond { waiting : list A; woken : list A }.
Arguments mkCond {A}. Arguments waiting {A}. Arguments woken {A}.

Section Cond.
Context {A : Type}.

Definition newCond : Condition A := mkCond [] [].
Definition wait (a : A) (c : Condition A) : Condition A := mkCond (waiting c ++ [a]) (woken c).
(** The waiter at index [i] is released. *)
Definition release (i : nat) (c : Condition A) : Condition A :=
  match waiting c !! i with
  | Some a => mkCond (delete i (waiting c)) (woken c ++ [a])
  | None => c
  end.
(** pthread_cond_signal: releases some waiter, [pick] says which, if there is one. *)
Definition notify (pick : nat) (c : Condition A) : Condition A := release (pick mod length (waiting c)) c.
Definition notifyAll (c : Condition A) : Condition A := mkCond [] (woken c ++ waiting c).
(** A released thread has taken the lock again. *)
Definition resume (i : nat) (c : Condition A) : option (A * Condition A) :=
  match woken c !! i with
  | Some a => Some (a, mkCond (waiting c) (delete i (woken c)))
  | None => None
  end.

Lemma length_delete_lookup (l : list A) i a : l !! i = Some a → length l = S (length (delete i l)).
Proof.
  intros Hi. pose proof (lookup_lt_Some _ _ _ Hi). rewrite length_delete by (by eexists). lia.
Qed.

Lemma release_length i c :
  (length (waiting (release i c)) + length (woken (release i c)) = length (waiting c) + length (woken c))%nat ∧
  (length (woken c) ≤ length (woken (release i c)))%nat.
Proof.
  unfold release. destruct (waiting c !! i) as [a|] eqn:E; [|done]. cbn.
  pose proof (length_delete_lookup _ _ _ E). rewrite length_app. cbn. lia.
Qed.

Lemma notify_length pick c :
  length (woken (notify pick c)) = (length (woken c) + (if decide (waiting c = []) then 0 else 1))%nat ∧
  length (waiting (notify pick c)) = (length (waiting c) - 1)%nat.
Proof.
  unfold notify, release. destruct (waiting c) as [|a l] eqn:E.
  { rewrite lookup_nil, decide_True, E by done. cbn. lia. }
  rewrite <-E. destruct (lookup_lt_is_Some_2 (waiting c) (pick mod length (waiting c))) as [b Hb].
  { rewrite E. apply Nat.mod_upper_bound. done. }
  rewrite Hb. cbn. pose proof (length_delete_lookup _ _ _ Hb) as Hl. rewrite length_app. cbn.
  rewrite decide_False by (by rewrite E). rewrite E in *. cbn [length] in *. lia.
Qed.

Lemma resume_length i c a c' :
  resume i c = Some (a, c') → waiting c' = waiting c ∧ length (woken c) = S (length (woken c')).
Proof.
  unfold resume. destruct (woken c !! i) as [b|] eqn:E; [|done]. intros [= <- <-]. cbn.
  split; [done|]. by eapply length_delete_lookup.
Qed.

(** Who is in the condition, blocked or released. *)
Definition members (c : Condition A) : list A := waiting c ++ woken c.

Lemma members_wait a c : members (wait a c) ≡ₚ a :: members c.
Proof. unfold members, wait. cbn. rewrite <-app_assoc. cbn. by rewrite Permutation_middle. Qed.
Lemma members_release i c : members (release i c) ≡ₚ members c.
Proof.
  unfold members, release. destruct (waiting c !! i) as [a|] eqn:E; [|done]. cbn.
  rewrite (delete_Permutation _ _ _ E) at 2. cbn. rewrite app_assoc, (Permutation_app_comm _ [a]). done.
Qed.
Lemma members_notify pick c : members (notify pick c) ≡ₚ members c.
Proof. apply members_release. Qed.
Lemma members_notifyAll c : members (notifyAll c) ≡ₚ members c.
Proof. unfold members, notifyAll. cbn. apply Permutation_app_comm. Qed.
Lemma members_resume i c a c' : resume i c = Some (a, c') → members c ≡ₚ a :: members c'.
Proof.
  unfold members, resume. destruct (woken c !! i) as [b|] eqn:E; [|done]. intros [= <- <-]. cbn.
  rewrite (delete_Permutation _ _ _ E) at 1. by rewrite Permutation_middle.
Qed.
End Cond.

(** Condition::waitForSeconds: the absolute time it passes on. *)
Definition abstime (tv_sec tv_nsec nanoseconds : Z) : Z * Z :=
  (tv_sec + Z.quot (tv_nsec + nanoseconds) 1000000000, Z.rem (tv_nsec + nanoseconds) 1000000000).

Lemma abstime_spec tv_sec tv_nsec nanoseconds :
  0 ≤ tv_nsec < 1000000000 → 0 ≤ nanoseconds →
  let '(s, n) := abstime tv_sec tv_nsec nanoseconds in
  0 ≤ n < 1000000000 ∧ s * 1000000000 + n = tv_sec * 1000000000 + tv_nsec + nanoseconds.
Proof. intros H1 H2. unfold abstime. rewrite quot_div, rem_mod by lia. dlia. Qed.
End Cond.

Module Latch.
Import Cond.

(** [returned]: the threads whose wait() has returned. *)
Record CountDownLatch := mkLatch { count_ : Z; condition_ : Condition Z; returned : list Z }.
Definition newLatch (count : Z) : CountDownLatch := mkLatch count newCond [].
Definition getCount (l : CountDownLatch) : Z := count_ l.

(** One turn of wait()'s loop: the test, then the wait or the return. *)
Definition wait_turn (tid : Z) (l : CountDownLatch) : CountDownLatch :=
  if 0 <? count_ l then mkLatch (count_ l) (wait tid (condition_ l)) (returned l)
  else mkLatch (count_ l) (condition_ l) (returned l ++ [tid]).
Definition countDown (l : CountDownLatch) : CountDownLatch :=
  let n := count_ l - 1 in
  mkLatch n (if n =? 0 then notifyAll (condition_ l) else condition_ l) (returned l).

Inductive step (l : CountDownLatch) : CountDownLatch → Prop :=
  | StepWait tid : step l (wait_turn tid l)
  | StepCountDown : step l (countDown l)
  | StepSpurious i : step l (mkLatch (count_ l) (release i (condition_ l)) (returned l))
  | StepResume i tid c : resume i (condition_ l) = Some (tid, c) →
      step l (wait_turn tid (mkLatch (count_ l) c (returned l))).

Record inv (l : CountDownLatch) : Prop := mkInv {
  inv_waiting : waiting (condition_ l) ≠ [] → 0 < count_ l;
  inv_returned : returned l ≠ [] → count_ l ≤ 0
}.

Lemma wait_turn_inv tid l : inv l → inv (wait_turn tid l).
Proof.
  intros [Hw Hr]. unfold wait_turn. destruct (Z.ltb_spec 0 (count_ l)); split; cbn; auto; lia.
Qed.

Lemma latch_step_inv l l' : inv l → step l l' → inv l'.
Proof.
  intros Hinv Hs. pose proof Hinv as [Hw Hr]. destruct Hs as [tid| |i|i tid c Hc].
  - by apply wait_turn_inv.
  - unfold countDown. split; cbn.
    + destruct (Z.eqb_spec (count_ l - 1) 0); cbn; [done|]. intros Hx. specialize (Hw Hx). lia.
    + intros Hx. specialize (Hr Hx). lia.
  - split; cbn; [|done]. intros Hx. apply Hw. intros E. apply Hx. unfold release.
    by rewrite E, lookup_nil.
  - apply wait_turn_inv. apply resume_length in Hc as [E _]. split; cbn; [by rewrite E|done].
Qed.

(** The latch holds its waiters until the count has reached zero and then lets all of
    them go. In every reachable state a wait() has returned only if the count is no longer
    positive; when it is not, no thread is left blocked, and each released thread's next
    turn returns. *)
Theorem latch_correct (n : Z) (l : CountDownLatch) (Hreach : rtc step (newLatch n) l) :
  (returned l ≠ [] → count_ l ≤ 0) ∧
  (count_ l ≤ 0 → waiting (condition_ l) = [] ∧
     ∀ i tid c, resume i (condition_ l) = Some (tid, c) →
       returned (wait_turn tid (mkLatch (count_ l) c (returned l))) = returned l ++ [tid]).
Proof.
  assert (inv l) as [Hw Hr].
  { eapply rtc_invariant; [apply latch_step_inv| |done]. by split. }
  split; [done|]. intros Hc. split.
  - destruct (waiting (condition_ l)); [done|]. specialize (Hw ltac:(done)). lia.
  - intros i tid c _. unfold wait_turn. cbn. by rewrite (proj2 (Z.ltb_ge 0 (count_ l))) by lia.
Qed.

Definition demo_latch : CountDownLatch := countDown (wait_turn 8 (wait_turn 7 (newLatch 1))).
Lemma latch_correct_witness : waiting (condition_ demo_latch) = [] ∧ woken (condition_ demo_latch) = [7; 8].
Proof.
  split; [|by vm_compute].
  assert (rtc step (newLatch 1) demo_latch) as Hreach.
  { eapply rtc_l; [apply (StepWait _ 7)|]. eapply rtc_l; [apply (StepWait _ 8)|].
    eapply rtc_l; [apply StepCountDown|]. apply rtc_refl. }
  apply (latch_correct 1 demo_latch Hreach). by vm_compute.
Defined.
End Latch.
