(* ===== verification/Singletons.v ===== *)
(** * Singletons and thread-local objects (base/singleton.h, threadlocal.h, threadlocal_singleton.h)

    Three templates over pthread_once and pthread keys, as POSIX documents them: pthread_once
    runs its routine once and makes every other caller wait until it has returned; a key has
    one value per thread, NULL at first, and a thread that ends runs the key's destructor on
    its value after setting it to NULL. Objects of the class T are named by numbers;
    [live] are those that exist, [next] the next new one. Threads are numbered. *)

From S2P Require Import Prelude.

(** ** Singleton *)
Module Singleton.

Inductive once := OnceInit | OnceRunning | OnceDone.
(** Where a thread is in instance(). *)
Inductive pc :=
  | Outside
  | AtOnce               (* about to call pthread_once, or waiting in it *)
  | InInit               (* in the routine *)
  | AfterOnce
  | Returned (v : nat).
#[export] Instance once_eq_dec : EqDecision once.
Proof. solve_decision. Defined.
#[export] Instance pc_eq_dec : EqDecision pc.
Proof. solve_decision. Defined.

Record singleton_state := mkState {
  ponce_ : once;
  value_ : option nat;
  live : gset nat;
  next : nat;
  registered : bool;               (* atexit(destroy) was called *)
  pcs : gmap nat pc
}.
Definition initial : singleton_state := mkState OnceInit None ∅ 0%nat false ∅.
Definition at_pc (t : nat) (s : singleton_state) : pc := default Outside (pcs s !! t).
Definition with_pc (t : nat) (p : pc) (s : singleton_state) : singleton_state :=
  mkState (ponce_ s) (value_ s) (live s) (next s) (registered s) (<[t := p]> (pcs s)).

Section Singleton.
Context (has_no_destroy : bool).

(** value_ = new T() *)
Definition init (s : singleton_state) : singleton_state :=
  mkState (ponce_ s) (Some (next s)) ({[next s]} ∪ live s) (S (next s))
    (registered s || negb has_no_destroy) (pcs s).

(** delete value_; value_ = NULL *)
Definition destroy (s : singleton_state) : singleton_state :=
  mkState (ponce_ s) None (match value_ s with Some v => live s ∖ {[v]} | None => live s end) (next s)
    (registered s) (pcs s).

Definition with_once (o : once) (s : singleton_state) : singleton_state :=
  mkState o (value_ s) (live s) (next s) (registered s) (pcs s).

(** One step of thread [t] in instance(); None: it waits. *)
Definition instance_step (t : nat) (s : singleton_state) : option (res singleton_state) :=
  match at_pc t s with
  | Outside => Some (Ok (with_pc t AtOnce s))
  | AtOnce =>
      match ponce_ s with
      | OnceInit => Some (Ok (with_pc t InInit (with_once OnceRunning s)))
      | OnceRunning => None
      | OnceDone => Some (Ok (with_pc t AfterOnce s))
      end
  | InInit => Some (Ok (with_pc t AfterOnce (with_once OnceDone (init s))))
  | AfterOnce =>
      Some (match value_ s with
            | Some v => Ok (with_pc t (Returned v) s)
            | None => Err AssertFailed               (* assert(value_ != NULL) *)
            end)
  | Returned _ => Some (Ok (with_pc t Outside s))
  end.

(** The process exits: atexit handlers run. *)
Definition exit_process (s : singleton_state) : singleton_state := if registered s then destroy s else s.

Inductive step (s s' : singleton_state) : Prop :=
  | step_thread t : instance_step t s = Some (Ok s') → step s s'.

(** ** The invariant *)
Record inv (s : singleton_state) : Prop := {
  inv_once : match ponce_ s with
    | OnceInit => next s = 0%nat ∧ value_ s = None ∧ live s = ∅ ∧ ∀ t, at_pc t s ≠ InInit
    | OnceRunning => next s = 0%nat ∧ value_ s = None ∧ live s = ∅ ∧
                     ∃ t, at_pc t s = InInit ∧ ∀ t', at_pc t' s = InInit → t' = t
    | OnceDone => next s = 1%nat ∧ value_ s = Some 0%nat ∧ live s = {[0%nat]} ∧ ∀ t, at_pc t s ≠ InInit
    end;
  inv_after : ∀ t, at_pc t s = AfterOnce → ponce_ s = OnceDone;
  inv_returned : ∀ t v, at_pc t s = Returned v → v = 0%nat ∧ ponce_ s = OnceDone
}.

Lemma at_with_pc t t' p s : at_pc t' (with_pc t p s) = if decide (t' = t) then p else at_pc t' s.
Proof.
  unfold at_pc. cbn. destruct (decide (t' = t)) as [->|]; [by rewrite lookup_insert_eq|].
  by rewrite lookup_insert_ne by done.
Qed.

(** A thread moves and the shared state stays. *)
Lemma thread_move_inv t p s :
  inv s → p ≠ InInit → at_pc t s ≠ InInit → (p = AfterOnce → ponce_ s = OnceDone) →
  (∀ v, p = Returned v → v = 0%nat ∧ ponce_ s = OnceDone) → inv (with_pc t p s).
Proof.
  intros [Ho Ha Hr] Hp Ht Hpa Hpr. constructor.
  - cbn. destruct (ponce_ s).
    + destruct Ho as (? & ? & ? & Hn). split_and!; try done. intros t'. rewrite at_with_pc. by case_decide.
    + destruct Ho as (? & ? & ? & t0 & Ht0 & Hu). split_and!; try done. exists t0. rewrite at_with_pc.
      rewrite decide_False by congruence. split; [done|]. intros t'. rewrite at_with_pc. case_decide; [done|]. apply Hu.
    + destruct Ho as (? & ? & ? & Hn). split_and!; try done. intros t'. rewrite at_with_pc. by case_decide.
  - intros t'. rewrite at_with_pc. case_decide; [by intros ->; apply Hpa|apply Ha].
  - intros t' v. rewrite at_with_pc. case_decide; [apply Hpr|apply Hr].
Qed.

Lemma enter_init_inv t s :
  inv s → at_pc t s = AtOnce → ponce_ s = OnceInit → inv (with_pc t InInit (with_once OnceRunning s)).
Proof.
  intros [Ho Ha Hr] Ht Hon. rewrite Hon in Ho. destruct Ho as (? & ? & ? & Hn). constructor.
  - cbn. split_and!; try done. exists t. rewrite at_with_pc, decide_True by done. split; [done|].
    intros t'. rewrite at_with_pc. case_decide; [done|]. intros Hi. by destruct (Hn t').
  - intros t'. rewrite at_with_pc. case_decide; [done|]. intros Hx%Ha. congruence.
  - intros t' v. rewrite at_with_pc. case_decide; [done|]. intros [_ Hx]%Hr. congruence.
Qed.

Lemma leave_init_inv t s : inv s → at_pc t s = InInit → inv (with_pc t AfterOnce (with_once OnceDone (init s))).
Proof.
  intros [Ho Ha Hr] Ht. destruct (ponce_ s) eqn:Hon; [by destruct Ho as (_ & _ & _ & Hn); destruct (Hn t)| |
    by destruct Ho as (_ & _ & _ & Hn); destruct (Hn t)].
  destruct Ho as (Hx & Hv & Hl & t0 & Ht0 & Hu). constructor.
  - cbn. rewrite Hx, Hl, (right_id_L ∅ (∪)). split_and!; try done. intros t'. rewrite at_with_pc. case_decide; [done|].
    intros Hi. assert (t' = t0) by (by apply Hu). assert (t = t0) by (by apply Hu). congruence.
  - done.
  - intros t' v. rewrite at_with_pc. case_decide; [done|]. intros [_ E]%Hr. congruence.
Qed.

Lemma instance_step_spec t s : inv s →
  match instance_step t s with
  | None => ponce_ s = OnceRunning
  | Some r => ∃ s', r = Ok s' ∧ inv s'
  end.
Proof.
  intros Hinv. unfold instance_step. destruct (at_pc t s) as [| | | |v] eqn:Ht.
  - eexists. split; [done|]. apply thread_move_inv; try done. congruence.
  - destruct (ponce_ s) eqn:Hon; [|done|]; (eexists; split; [done|]).
    + by apply enter_init_inv.
    + apply thread_move_inv; try done. congruence.
  - eexists. split; [done|]. by apply leave_init_inv.
  - pose proof (inv_after _ Hinv t Ht) as Hon. pose proof (inv_once _ Hinv) as Ho. rewrite Hon in Ho.
    destruct Ho as (_ & -> & _ & _). eexists. split; [done|]. apply thread_move_inv; try done; [congruence|]. by intros v [= <-].
  - eexists. split; [done|]. apply thread_move_inv; try done. congruence.
Qed.

Lemma singleton_reachable_inv s : rtc step initial s → inv s.
Proof.
  apply rtc_invariant.
  - intros a b Ha [t Hx]. pose proof (instance_step_spec t a Ha) as Hs. rewrite Hx in Hs.
    by destruct Hs as (b' & [= ->] & ?).
  - constructor; [by split_and!|done|done].
Qed.

(** C40: Singleton is made once and shared. However the threads that call instance()
    interleave, none fails the assertion, at most one object is constructed, and every
    call that returns gives that object, which exists; a thread waits only while another
    constructs the object, and that one can go on. *)
Theorem singleton_once (s : singleton_state) (Hreach : rtc step initial s) :
  (∀ t, match instance_step t s with
        | Some r => is_ok r = true
        | None => ∃ t', at_pc t' s = InInit ∧ ∃ s', instance_step t' s = Some (Ok s') ∧ ponce_ s' = OnceDone
        end) ∧
  (next s ≤ 1)%nat ∧
  ∀ t v, at_pc t s = Returned v → v = 0%nat ∧ value_ s = Some v ∧ v ∈ live s.
Proof.
  pose proof (singleton_reachable_inv s Hreach) as Hinv. split_and!.
  - intros t. pose proof (instance_step_spec t s Hinv) as Hs. destruct (instance_step t s) as [r|].
    + by destruct Hs as (s' & -> & _).
    + pose proof (inv_once _ Hinv) as Ho. rewrite Hs in Ho. destruct Ho as (_ & _ & _ & t' & Ht' & _).
      exists t'. split; [done|]. unfold instance_step. rewrite Ht'. by eexists.
  - pose proof (inv_once _ Hinv) as Ho. destruct (ponce_ s); destruct Ho as (-> & _); lia.
  - intros t v Hv. destruct (inv_returned _ Hinv t v Hv) as [-> Hon]. pose proof (inv_once _ Hinv) as Ho.
    rewrite Hon in Ho. destruct Ho as (_ & -> & -> & _). by split_and!; [| |apply elem_of_singleton].
Qed.

(** After the exit handlers have run instance() fails its assertion, when T may be destroyed. *)
Theorem instance_after_exit (s : singleton_state) (t : nat) (Hr : registered s = true) (Ht : at_pc t s = AfterOnce) :
  instance_step t (exit_process s) = Some (Err AssertFailed).
Proof.
  unfold exit_process. rewrite Hr. unfold instance_step. change (at_pc t (destroy s)) with (at_pc t s). by rewrite Ht.
Qed.
End Singleton.

(** ** Witnesses *)
(** Two threads: the second waits for the first. *)
Definition demo (ts : list nat) : singleton_state :=
  fold_left (λ s t, match instance_step false t s with Some (Ok s') => s' | _ => s end) ts initial.
Lemma instance_demo_reachable ts : rtc (step false) initial (demo ts).
Proof.
  unfold demo. enough (∀ s0, rtc (step false) initial s0 → rtc (step false) initial
    (fold_left (λ s t, match instance_step false t s with Some (Ok s') => s' | _ => s end) ts s0)) as H by (apply H, rtc_refl).
  induction ts as [|t ts IH]; intros s0 Hs0; [done|]. cbn. apply IH.
  destruct (instance_step false t s0) as [[s1|]|] eqn:E; [|done..]. eapply rtc_r; [exact Hs0|]. by exists t.
Qed.

Lemma singleton_once_witness :
  at_pc 1%nat (demo [0; 1; 0; 1; 0; 0; 1; 1]%nat) = Returned 0%nat ∧ 0%nat ∈ live (demo [0; 1; 0; 1; 0; 0; 1; 1]%nat).
Proof.
  destruct (singleton_once false (demo [0; 1; 0; 1; 0; 0; 1; 1]%nat) (instance_demo_reachable _)) as (_ & _ & H).
  assert (at_pc 1%nat (demo [0; 1; 0; 1; 0; 0; 1; 1]%nat) = Returned 0%nat) as E by (by vm_compute).
  split; [exact E|]. by destruct (H 1%nat 0%nat E) as (_ & _ & ?).
Defined.

Lemma instance_after_exit_witness :
  instance_step false 0%nat (exit_process (demo [0; 0; 0]%nat)) = Some (Err AssertFailed).
Proof. by apply instance_after_exit; vm_compute. Defined.
End Singleton.

(** ** ThreadLocal *)
Module ThreadLocal.

(** [specific]: pthread_getspecific per thread, NULL where there is no entry. *)
Record local_state := mkState { specific : gmap nat nat; live : gset nat; next : nat }.
Definition initial : local_state := mkState ∅ ∅ 0%nat.

Definition value (t : nat) (s : local_state) : nat * local_state :=
  match specific s !! t with
  | Some v => (v, s)
  | None => (next s, mkState (<[t := next s]> (specific s)) ({[next s]} ∪ live s) (S (next s)))
  end.

(** delete obj; deleting what is not there is an error. *)
Definition destructor (v : nat) (s : local_state) : res local_state :=
  if decide (v ∈ live s) then Ok (mkState (specific s) (live s ∖ {[v]}) (next s)) else Err UseAfterFree.

(** Thread [t] ends: its value is set to NULL and, if it was not, destroyed. *)
Definition exit_thread (t : nat) (s : local_state) : res local_state :=
  match specific s !! t with
  | Some v => destructor v (mkState (delete t (specific s)) (live s) (next s))
  | None => Ok s
  end.

(** ~ThreadLocal: pthread_key_delete runs no destructor. *)
Definition delete_key (s : local_state) : local_state := mkState ∅ (live s) (next s).

Inductive op := Value (t : nat) | Exit (t : nat).
(** The object value() returned, with its thread. *)
Definition exec (o : op) (s : local_state) : res (option (nat * nat) * local_state) :=
  match o with
  | Value t => let '(v, s) := value t s in Ok (Some (t, v), s)
  | Exit t => s ← exit_thread t s; Ok (None, s)
  end.

(** The objects are those of the threads, one each. *)
Record inv (s : local_state) : Prop := {
  inv_live : ∀ v, v ∈ live s ↔ ∃ t, specific s !! t = Some v;
  inv_inj : ∀ t t' v, specific s !! t = Some v → specific s !! t' = Some v → t = t';
  inv_next : ∀ v, v ∈ live s → (v < next s)%nat
}.

Lemma value_inv t s : inv s → inv (value t s).2 ∧ specific (value t s).2 !! t = Some (value t s).1.
Proof.
  intros [Hl Hi Hn]. unfold value. destruct (specific s !! t) as [v|] eqn:Ht; [by split|]. cbn.
  assert (∀ t' v, specific s !! t' = Some v → v ≠ next s) as Hnew.
  { intros t' v Hv ->. specialize (Hn (next s)). rewrite Hl in Hn. specialize (Hn (ex_intro _ t' Hv)). lia. }
  split; [|apply lookup_insert_eq]. constructor; cbn.
  - intros v. rewrite elem_of_union, elem_of_singleton, Hl. split.
    + intros [->|[t' Ht']]; [exists t; apply lookup_insert_eq|]. exists t'. rewrite lookup_insert_ne; [done|congruence].
    + intros [t' Ht']. destruct (decide (t' = t)) as [->|Hne].
      * rewrite lookup_insert_eq in Ht'. injection Ht' as <-. by left.
      * rewrite lookup_insert_ne in Ht' by done. right. by exists t'.
  - intros t1 t2 v [(<- & <-)|[? H1]]%lookup_insert_Some [(<- & ?)|[? H2]]%lookup_insert_Some; try done.
    + by destruct (Hnew t2 (next s)).
    + subst v. by destruct (Hnew t1 (next s)).
    + by eapply Hi.
  - intros v. rewrite elem_of_union, elem_of_singleton. intros [->|Hv%Hn]; lia.
Qed.

Lemma exit_inv t s : inv s → ∃ s', exit_thread t s = Ok s' ∧ inv s' ∧ specific s' = delete t (specific s).
Proof.
  intros Hinv. pose proof Hinv as [Hl Hi Hn]. unfold exit_thread. destruct (specific s !! t) as [v|] eqn:Ht.
  2: { exists s. by rewrite delete_id. }
  unfold destructor. cbn. rewrite decide_True by (apply Hl; by exists t). eexists. split; [done|]. split; [|done].
  constructor; cbn.
  - intros w. rewrite elem_of_difference, elem_of_singleton, Hl. split.
    + intros [[t' Ht'] Hw]. exists t'. rewrite lookup_delete_ne; [done|congruence].
    + intros [t' [Hne Ht']%lookup_delete_Some]. split; [by exists t'|]. intros ->. by destruct Hne; eapply Hi.
  - intros t1 t2 w [_ H1]%lookup_delete_Some [_ H2]%lookup_delete_Some. by eapply Hi.
  - intros w [? _]%elem_of_difference. by apply Hn.
Qed.

(** A run of the threads' calls and ends, with the objects the calls returned. *)
Fixpoint run (ops : list op) (s : local_state) : res (list (nat * nat) * local_state) :=
  match ops with
  | [] => Ok ([], s)
  | o :: ops =>
      '(r, s) ← exec o s;
      '(hist, s) ← run ops s;
      Ok (match r with Some x => x :: hist | None => hist end, s)
  end.

(** What has been returned belongs to its thread, or is gone for good. *)
Record history (hist : list (nat * nat)) (s : local_state) : Prop := {
  h_owner : ∀ t v, (t, v) ∈ hist → (v < next s)%nat ∧ (specific s !! t = Some v ∨ v ∉ live s);
  h_apart : ∀ t t' v, (t, v) ∈ hist → (t', v) ∈ hist → t = t'
}.

Lemma value_live t s v : inv s → (v ∉ live (value t s).2) ↔ (v ∉ live s) ∧ (specific s !! t = None → v ≠ next s).
Proof.
  intros Hinv. unfold value. destruct (specific s !! t); [naive_solver|]. cbn.
  rewrite not_elem_of_union, not_elem_of_singleton. naive_solver.
Qed.

Lemma value_keeps t t' s v : specific s !! t' = Some v → specific (value t s).2 !! t' = Some v.
Proof.
  intros Hv. unfold value. destruct (specific s !! t) eqn:E; [done|]. cbn. rewrite lookup_insert_ne; [done|congruence].
Qed.

Lemma value_next t s : (next s ≤ next (value t s).2)%nat.
Proof. unfold value. destruct (specific s !! t); cbn; lia. Qed.

Lemma value_history t s hist :
  inv s → history hist s → history ((t, (value t s).1) :: hist) (value t s).2.
Proof.
  intros Hinv [Ho Ha]. destruct (value_inv t s Hinv) as [Hinv' Hv].
  assert ((value t s).1 ∈ live (value t s).2) as Hlive by (apply (inv_live _ Hinv'); by exists t).
  assert (∀ t' v, (t', v) ∈ hist → v = (value t s).1 → t' = t) as Hnew.
  { intros t' v Hin ->. destruct (Ho _ _ Hin) as [Hlt [Hs|Hd]].
    - eapply (inv_inj _ Hinv'); [by apply value_keeps|done].
    - exfalso. unfold value in *. destruct (specific s !! t) as [w|]; cbn in *; [done|lia]. }
  constructor.
  - intros t' v [[= -> ->]|Hin]%elem_of_cons; [by split; [apply (inv_next _ Hinv')|left]|].
    destruct (Ho _ _ Hin) as [Hlt Hs]. pose proof (value_next t s). split; [lia|].
    destruct Hs as [Hs|Hd]; [left; by apply value_keeps|right]. apply value_live; [done|]. split; [done|]. lia.
  - intros t1 t2 v [[= -> ->]|H1]%elem_of_cons [[= ->]|H2]%elem_of_cons; try done.
    + symmetry. by eapply Hnew.
    + subst v. by eapply Hnew.
    + by eapply Ha.
Qed.

Lemma exit_history t s s' hist : inv s → history hist s → exit_thread t s = Ok s' → history hist s'.
Proof.
  intros Hinv [Ho Ha] Hx. constructor; [|done]. intros t' v Hin. destruct (Ho _ _ Hin) as [Hlt Hs].
  unfold exit_thread in Hx. destruct (specific s !! t) as [w|] eqn:Ht; [|by injection Hx as <-].
  unfold destructor in Hx. cbn in Hx. destruct (decide (w ∈ live s)); [|done]. injection Hx as <-. cbn. split; [done|].
  destruct Hs as [Hs|Hd]; [|right; set_solver]. destruct (decide (t' = t)) as [->|Hne].
  - right. assert (v = w) as -> by congruence. set_solver.
  - left. by rewrite lookup_delete_ne.
Qed.

Lemma local_run_inv ops s hist : inv s → history hist s →
  ∃ hist' s', run ops s = Ok (hist', s') ∧ inv s' ∧ history (reverse hist' ++ hist) s'.
Proof.
  revert s hist. induction ops as [|o ops IH]; intros s hist Hinv Hh; [by exists [], s|]. cbn [run].
  destruct o as [t|t]; cbn [exec].
  - pose proof (value_inv t s Hinv) as [Hinv1 _]. pose proof (value_history t s hist Hinv Hh) as Hh1.
    destruct (value t s) as [v s1]. cbn in *. destruct (IH s1 _ Hinv1 Hh1) as (hist' & s' & -> & ? & Hr).
    cbn [mbind res_bind]. exists ((t, v) :: hist'), s'. split_and!; try done. by rewrite reverse_cons, <-app_assoc.
  - destruct (exit_inv t s Hinv) as (s1 & Hx & Hinv1 & _). rewrite Hx. cbn [mbind res_bind].
    destruct (IH s1 hist Hinv1) as (hist' & s' & -> & ? & ?); [by eapply (exit_history t s)|]. cbn. by exists hist', s'.
Qed.

(** As long as a thread lives, value() gives it the same object. *)
Lemma run_stable ops s t v : inv s → specific s !! t = Some v → Exit t ∉ ops →
  ∃ hist s', run ops s = Ok (hist, s') ∧ specific s' !! t = Some v ∧ ∀ w, (t, w) ∈ hist → w = v.
Proof.
  revert s. induction ops as [|o ops IH]; intros s Hinv Hv Hno.
  { exists [], s. split_and!; try done. intros w Hw. by apply not_elem_of_nil in Hw. }
  apply not_elem_of_cons in Hno as [Ho Hno]. cbn [run]. destruct o as [t'|t']; cbn [exec].
  - pose proof (value_inv t' s Hinv) as [Hinv1 Hs1]. pose proof (value_keeps t' t s v Hv) as Hv1.
    destruct (value t' s) as [v' s1]. cbn in *. destruct (IH s1 Hinv1 Hv1 Hno) as (hist & s' & -> & ? & Hw).
    cbn [mbind res_bind]. exists ((t', v') :: hist), s'. split_and!; try done.
    intros w [[= -> ->]|Hin]%elem_of_cons; [congruence|by apply Hw].
  - destruct (exit_inv t' s Hinv) as (s1 & -> & Hinv1 & Hs). cbn [mbind res_bind].
    destruct (IH s1 Hinv1) as (hist & s' & -> & ? & ?); [rewrite Hs, lookup_delete_ne; [done|congruence]|done|].
    cbn. by exists hist, s'.
Qed.

Lemma initial_inv : inv initial ∧ history [] initial.
Proof.
  split; constructor; cbn; try done; try (intros ? ?; set_solver).
  intros v. split; [set_solver|]. by intros [t Ht].
Qed.

(** Thread-local objects are private. Whatever the threads do, every object is deleted at
    most once and never used after that; value() never gives one object to two threads; it
    gives a thread the same object as long as the thread lives; and the objects that exist
    are exactly those of the threads that have called it and have not ended. *)
Theorem threadlocal_private (ops : list op) :
  ∃ hist s, run ops initial = Ok (hist, s) ∧
    (∀ t t' v, (t, v) ∈ hist → (t', v) ∈ hist → t = t') ∧
    (∀ v, v ∈ live s ↔ ∃ t, specific s !! t = Some v) ∧
    ∀ t v ops', specific s !! t = Some v → Exit t ∉ ops' →
      ∃ hist' s', run ops' s = Ok (hist', s') ∧ specific s' !! t = Some v ∧ ∀ w, (t, w) ∈ hist' → w = v.
Proof.
  destruct initial_inv as [Hi Hh]. destruct (local_run_inv ops initial [] Hi Hh) as (hist & s & Hr & Hinv & [_ Ha]).
  exists hist, s. rewrite app_nil_r in Ha. split_and!; [done| |apply Hinv|].
  - intros t t' v H1 H2. eapply Ha; by apply elem_of_reverse.
  - intros t v ops' Hv Hno. by apply run_stable.
Qed.

(** Deleting the key loses the objects of the threads that are still there: whatever threads
    end afterwards, nothing is deleted any more. *)
Theorem key_delete_leaks (s : local_state) (ts : list nat) :
  run (Exit <$> ts) (delete_key s) = Ok ([], delete_key s) ∧ live (delete_key s) = live s.
Proof. split; [|done]. induction ts as [|t ts IH]; [done|]. cbn in *. unfold exit_thread. cbn. by rewrite lookup_empty; cbn; rewrite IH. Qed.
End ThreadLocal.

(** ** ThreadLocalSingleton *)
Module ThreadLocalSingleton.

(** [t_value_]: the __thread pointer of each thread; [specific]: the deleter's key. *)
Record tls_state := mkState { t_value_ : gmap nat nat; specific : gmap nat nat; live : gset nat; next : nat }.
Definition initial : tls_state := mkState ∅ ∅ ∅ 0%nat.

(** Deleter::set *)
Definition set (t : nat) (v : nat) (s : tls_state) : res tls_state :=
  _ ← assert_ (bool_decide (specific s !! t = None));
  Ok (mkState (t_value_ s) (<[t := v]> (specific s)) (live s) (next s)).

Definition instance (t : nat) (s : tls_state) : res (nat * tls_state) :=
  match t_value_ s !! t with
  | Some v => Ok (v, s)
  | None =>
      let v := next s in
      s ← set t v (mkState (<[t := v]> (t_value_ s)) (specific s) ({[v]} ∪ live s) (S v));
      Ok (v, s)
  end.
Definition pointer (t : nat) (s : tls_state) : option nat := t_value_ s !! t.

Definition tls_destructor (t : nat) (obj : nat) (s : tls_state) : res tls_state :=
  _ ← assert_ (bool_decide (t_value_ s !! t = Some obj));
  if decide (obj ∈ live s)
  then Ok (mkState (delete t (t_value_ s)) (specific s) (live s ∖ {[obj]}) (next s)) else Err UseAfterFree.

Definition tls_exit (t : nat) (s : tls_state) : res tls_state :=
  match specific s !! t with
  | Some v => tls_destructor t v (mkState (t_value_ s) (delete t (specific s)) (live s) (next s))
  | None => Ok s
  end.

Definition exec (o : ThreadLocal.op) (s : tls_state) : res (option (nat * nat) * tls_state) :=
  match o with
  | ThreadLocal.Value t => '(v, s) ← instance t s; Ok (Some (t, v), s)
  | ThreadLocal.Exit t => s ← tls_exit t s; Ok (None, s)
  end.
Fixpoint run (ops : list ThreadLocal.op) (s : tls_state) : res (list (nat * nat) * tls_state) :=
  match ops with
  | [] => Ok ([], s)
  | o :: ops =>
      '(r, s) ← exec o s;
      '(hist, s) ← run ops s;
      Ok (match r with Some x => x :: hist | None => hist end, s)
  end.

(** The state of a ThreadLocal that behaves the same. *)
Definition doubled (s : ThreadLocal.local_state) : tls_state :=
  mkState (ThreadLocal.specific s) (ThreadLocal.specific s) (ThreadLocal.live s) (ThreadLocal.next s).

Lemma exec_doubled o s :
  exec o (doubled s) = ('(r, s') ← ThreadLocal.exec o s; Ok (r, doubled s')).
Proof.
  destruct o as [t|t]; cbn [exec ThreadLocal.exec].
  - unfold instance, ThreadLocal.value. cbn [doubled t_value_]. destruct (ThreadLocal.specific s !! t) eqn:E; [done|].
    unfold set. cbn [specific doubled]. by rewrite bool_decide_true.
  - unfold tls_exit, ThreadLocal.exit_thread, tls_destructor, ThreadLocal.destructor. cbn [doubled specific].
    destruct (ThreadLocal.specific s !! t) as [v|] eqn:E; [|done]. cbn [t_value_ doubled live ThreadLocal.live].
    rewrite bool_decide_true by done. cbn [assert_ mbind res_bind]. by destruct (decide (v ∈ ThreadLocal.live s)).
Qed.

(** A ThreadLocalSingleton is a ThreadLocal with a faster lookup. Whatever the threads do,
    no assertion fails, the two pointers a thread keeps agree, and the same objects are
    returned and deleted as by a ThreadLocal. *)
Theorem tls_singleton_equiv (ops : list ThreadLocal.op) (s : ThreadLocal.local_state) :
  run ops (doubled s) = ('(hist, s') ← ThreadLocal.run ops s; Ok (hist, doubled s')).
Proof.
  revert s. induction ops as [|o ops IH]; intros s; [done|]. cbn [run ThreadLocal.run]. rewrite exec_doubled.
  destruct (ThreadLocal.exec o s) as [[r s1]|f]; [|done]. cbn [mbind res_bind]. rewrite IH.
  by destruct (ThreadLocal.run ops s1) as [[hist s2]|f].
Qed.
End ThreadLocalSingleton.
