(* ===== verification/Queues.v ===== *)
(** * BlockingQueue and BoundedBlockingQueue
    (base/blocking_queue.h, base/bounded_blocking_queue.h)

    Each operation runs under the mutex, so a turn of its loop (the test, then the wait or
    the rest of the operation) is one step. Threads that wait are in the condition's lists: a
    producer with its value, a consumer with its id. [added] and [taken] are the values put
    and taken so far. std::deque is a list; boost::circular_buffer is a parameter with its
    documented behaviour as laws. *)

From S2P Require Import Prelude Sync.

Module Queues.
Import Cond.

(** ** The unbounded queue *)
Section Blocking.
Context {T : Type}.

Record BlockingQueue := mkBQ {
  notEmpty_ : Condition Z;
  queue_ : list T;
  added : list T;
  taken : list (Z * T)        (* consumer and value *)
}.
Definition newBQ : BlockingQueue := mkBQ newCond [] [] [].
Definition bq_size (q : BlockingQueue) : Z := zlen (queue_ q).

Definition put (pick : nat) (x : T) (q : BlockingQueue) : BlockingQueue :=
  mkBQ (notify pick (notEmpty_ q)) (queue_ q ++ [x]) (added q ++ [x]) (taken q).

(** A turn of take()'s loop by thread [tid]. *)
Definition take_turn (tid : Z) (q : BlockingQueue) : BlockingQueue :=
  match queue_ q with
  | [] => mkBQ (wait tid (notEmpty_ q)) [] (added q) (taken q)
  | x :: l => mkBQ (notEmpty_ q) l (added q) (taken q ++ [(tid, x)])
  end.

Inductive bq_step (q : BlockingQueue) : BlockingQueue → Prop :=
  | BQPut pick x : bq_step q (put pick x q)
  | BQTake tid : bq_step q (take_turn tid q)
  | BQSpurious i : bq_step q (mkBQ (release i (notEmpty_ q)) (queue_ q) (added q) (taken q))
  | BQResume i tid c : resume i (notEmpty_ q) = Some (tid, c) →
      bq_step q (take_turn tid (mkBQ c (queue_ q) (added q) (taken q))).

Record bq_inv (q : BlockingQueue) : Prop := mkBqInv {
  bq_fifo : (taken q).*2 ++ queue_ q = added q;
  bq_woken : waiting (notEmpty_ q) ≠ [] → (length (queue_ q) ≤ length (woken (notEmpty_ q)))%nat
}.

(** A signal keeps as many released consumers as there are new elements. *)
Lemma notify_covers {A} pick (c : Condition A) n :
  (waiting c ≠ [] → (n ≤ length (woken c))%nat) →
  waiting (notify pick c) ≠ [] → (S n ≤ length (woken (notify pick c)))%nat.
Proof.
  intros Hc Hw. destruct (notify_length pick c) as [H1 H2]. destruct (decide (waiting c = [])) as [E|E].
  - exfalso. apply Hw. apply length_zero_iff_nil. rewrite H2, E. done.
  - specialize (Hc E). lia.
Qed.

(** One of the released threads gives up its place for one element. *)
Lemma resume_covers {A} i (c c' : Condition A) a n :
  resume i c = Some (a, c') → (waiting c ≠ [] → (n ≤ length (woken c))%nat) →
  waiting c' ≠ [] → (n - 1 ≤ length (woken c'))%nat.
Proof. intros [E Hl]%resume_length Hc Hw. rewrite E in Hw. specialize (Hc Hw). lia. Qed.

Lemma release_covers {A} i (c : Condition A) n :
  (waiting c ≠ [] → (n ≤ length (woken c))%nat) →
  waiting (release i c) ≠ [] → (n ≤ length (woken (release i c)))%nat.
Proof.
  intros Hc Hw. destruct (release_length i c) as [_ Hl].
  assert (waiting c ≠ []) as Hne.
  { intros E. apply Hw. unfold release. by rewrite E, lookup_nil. }
  specialize (Hc Hne). lia.
Qed.

Lemma bq_take_turn_inv tid q :
  (taken q).*2 ++ queue_ q = added q →
  (waiting (notEmpty_ q) ≠ [] → (length (queue_ q) - 1 ≤ length (woken (notEmpty_ q)))%nat) →
  bq_inv (take_turn tid q).
Proof.
  intros Hf Hw. unfold take_turn. destruct (queue_ q) as [|x l] eqn:E; split; cbn; rewrite ?E; try done.
  - lia.
  - rewrite fmap_app. cbn. by rewrite <-app_assoc.
  - intros Hx. specialize (Hw Hx). cbn in Hw. lia.
Qed.

Lemma bq_step_inv q q' : bq_inv q → bq_step q q' → bq_inv q'.
Proof.
  intros [Hf Hw] Hs. destruct Hs as [pick x|tid|i|i tid c Hc].
  - split; cbn; [by rewrite app_assoc, Hf|]. rewrite length_app, Nat.add_1_r. by apply notify_covers.
  - apply bq_take_turn_inv; [done|]. intros Hx. specialize (Hw Hx). lia.
  - split; cbn; [done|]. by apply release_covers.
  - apply bq_take_turn_inv; cbn; [done|]. by eapply resume_covers.
Qed.
End Blocking.
Arguments BlockingQueue : clear implicits.

(** BlockingQueue hands values over in FIFO order, each to one consumer, and loses no
    wakeup: in every reachable state, if a consumer is blocked while the queue is not empty,
    then at least as many consumers as there are values have been released and will take
    them. *)
Theorem blocking_queue_correct {T : Type} (q : BlockingQueue T) (Hreach : rtc bq_step newBQ q) :
  (taken q).*2 ++ queue_ q = added q ∧
  (waiting (notEmpty_ q) ≠ [] → (length (queue_ q) ≤ length (woken (notEmpty_ q)))%nat).
Proof.
  assert (bq_inv q) as [? ?].
  { eapply rtc_invariant; [apply bq_step_inv| |exact Hreach]. split; [done|]. by intros []. }
  done.
Qed.

Definition demo_bq : BlockingQueue Z := put 0 42 (take_turn 8 (take_turn 7 newBQ)).
Lemma blocking_queue_correct_witness :
  waiting (notEmpty_ demo_bq) = [8] ∧ (length (queue_ demo_bq) ≤ length (woken (notEmpty_ demo_bq)))%nat.
Proof.
  split; [by vm_compute|].
  assert (rtc bq_step newBQ demo_bq) as Hreach.
  { eapply rtc_l; [apply (BQTake _ 7)|]. eapply rtc_l; [apply (BQTake _ 8)|].
    eapply rtc_l; [apply (BQPut _ 0 42)|]. apply rtc_refl. }
  apply (blocking_queue_correct demo_bq Hreach). by vm_compute.
Defined.

(** ** The bounded queue *)

(** boost::circular_buffer<T> as the queue uses it. *)
Class CircularBuffer (Q T : Type) := {
  cb_new : Z → Q;
  cb_content : Q → list T;
  cb_capacity : Q → Z;
  cb_full : Q → bool;
  cb_empty : Q → bool;
  cb_push_back : T → Q → Q;
  cb_pop_front : Q → Q;
  cb_front : Q → option T
}.

Class CircularBufferLaws (Q T : Type) `{CircularBuffer Q T} := {
  cb_new_law n : 0 ≤ n → cb_content (cb_new n) = [] ∧ cb_capacity (cb_new n) = n;
  cb_full_law (q : Q) : cb_full q = (zlen (cb_content q) =? cb_capacity q);
  cb_empty_law (q : Q) : cb_empty q = bool_decide (cb_content q = []);
  cb_push_law x (q : Q) : zlen (cb_content q) < cb_capacity q →
    cb_content (cb_push_back x q) = cb_content q ++ [x] ∧ cb_capacity (cb_push_back x q) = cb_capacity q;
  cb_pop_law x l (q : Q) : cb_content q = x :: l →
    cb_content (cb_pop_front q) = l ∧ cb_capacity (cb_pop_front q) = cb_capacity q;
  cb_front_law x l (q : Q) : cb_content q = x :: l → cb_front q = Some x
}.

Section Bounded.
Context {Q T : Type} `{CircularBuffer Q T}.

Record BoundedBlockingQueue := mkBBQ {
  bnotEmpty_ : Condition Z;
  notFull_ : Condition T;       (* a blocked producer keeps its value *)
  bqueue_ : Q;
  badded : list T;
  btaken : list (Z * T)
}.
Definition newBBQ (maxSize : Z) : BoundedBlockingQueue := mkBBQ newCond newCond (cb_new maxSize) [] [].

(** A turn of put()'s loop; the assertion after the loop is the loop's condition. *)
Definition bput_turn (pick : nat) (x : T) (q : BoundedBlockingQueue) : res BoundedBlockingQueue :=
  if cb_full (bqueue_ q) then Ok (mkBBQ (bnotEmpty_ q) (wait x (notFull_ q)) (bqueue_ q) (badded q) (btaken q))
  else
    _ ← assert_ (negb (cb_full (bqueue_ q)));
    Ok (mkBBQ (notify pick (bnotEmpty_ q)) (notFull_ q) (cb_push_back x (bqueue_ q)) (badded q ++ [x]) (btaken q)).

Definition btake_turn (pick : nat) (tid : Z) (q : BoundedBlockingQueue) : res BoundedBlockingQueue :=
  if cb_empty (bqueue_ q) then Ok (mkBBQ (wait tid (bnotEmpty_ q)) (notFull_ q) (bqueue_ q) (badded q) (btaken q))
  else
    _ ← assert_ (negb (cb_empty (bqueue_ q)));
    match cb_front (bqueue_ q) with
    | None => Err OutOfBounds
    | Some x =>
        Ok (mkBBQ (bnotEmpty_ q) (notify pick (notFull_ q)) (cb_pop_front (bqueue_ q)) (badded q)
              (btaken q ++ [(tid, x)]))
    end.

Definition bsize (q : BoundedBlockingQueue) : Z := zlen (cb_content (bqueue_ q)).

Inductive bevent :=
  | BPut (pick : nat) (x : T)
  | BTake (pick : nat) (tid : Z)
  | BSpuriousTaker (i : nat)
  | BSpuriousPutter (i : nat)
  | BResumeTaker (pick i : nat)
  | BResumePutter (pick i : nat).

Definition bexec (e : bevent) (q : BoundedBlockingQueue) : res BoundedBlockingQueue :=
  match e with
  | BPut pick x => bput_turn pick x q
  | BTake pick tid => btake_turn pick tid q
  | BSpuriousTaker i => Ok (mkBBQ (release i (bnotEmpty_ q)) (notFull_ q) (bqueue_ q) (badded q) (btaken q))
  | BSpuriousPutter i => Ok (mkBBQ (bnotEmpty_ q) (release i (notFull_ q)) (bqueue_ q) (badded q) (btaken q))
  | BResumeTaker pick i =>
      match resume i (bnotEmpty_ q) with
      | Some (tid, c) => btake_turn pick tid (mkBBQ c (notFull_ q) (bqueue_ q) (badded q) (btaken q))
      | None => Ok q
      end
  | BResumePutter pick i =>
      match resume i (notFull_ q) with
      | Some (x, c) => bput_turn pick x (mkBBQ (bnotEmpty_ q) c (bqueue_ q) (badded q) (btaken q))
      | None => Ok q
      end
  end.

(** [n] consumers and [m] producers may be missing from the released ones. *)
Record binv (cap : Z) (n m : nat) (q : BoundedBlockingQueue) : Prop := mkBinv {
  binv_fifo : (btaken q).*2 ++ cb_content (bqueue_ q) = badded q;
  binv_cap : cb_capacity (bqueue_ q) = cap ∧ zlen (cb_content (bqueue_ q)) ≤ cap;
  binv_takers : waiting (bnotEmpty_ q) ≠ [] →
    (length (cb_content (bqueue_ q)) - n ≤ length (woken (bnotEmpty_ q)))%nat;
  binv_putters : waiting (notFull_ q) ≠ [] →
    (Z.to_nat (cap - zlen (cb_content (bqueue_ q))) - m ≤ length (woken (notFull_ q)))%nat
}.

Context `{!CircularBufferLaws Q T}.

Lemma bput_turn_spec cap pick x q :
  binv cap 0 1 q → ∃ q', bput_turn pick x q = Ok q' ∧ binv cap 0 0 q'.
Proof.
  intros [Hf [Hcap Hl] Ht Hp]. unfold bput_turn. rewrite cb_full_law, Hcap.
  destruct (Z.eqb_spec (zlen (cb_content (bqueue_ q))) cap) as [E|E]; cbn [negb assert_ mbind res_bind].
  - eexists. split; [done|]. split; cbn; try done.
    intros _. rewrite E. lia.
  - destruct (cb_push_law x (bqueue_ q)) as [Hc Hcap']; [lia|]. eexists. split; [done|].
    split; cbn; rewrite ?Hc, ?Hcap', ?length_app; cbn; try done.
    + by rewrite app_assoc, Hf.
    + split; [done|]. lia.
    + intros Hx. rewrite Nat.sub_0_r, Nat.add_1_r. apply notify_covers; [|done].
      intros Hy. specialize (Ht Hy). lia.
    + intros Hx. specialize (Hp Hx). lia.
Qed.

Lemma btake_turn_spec cap pick tid q :
  binv cap 1 0 q → ∃ q', btake_turn pick tid q = Ok q' ∧ binv cap 0 0 q'.
Proof.
  intros [Hf [Hcap Hl] Ht Hp]. unfold btake_turn. rewrite cb_empty_law.
  destruct (cb_content (bqueue_ q)) as [|x l] eqn:E; cbn [bool_decide negb assert_ mbind res_bind].
  - rewrite bool_decide_true by done. eexists. split; [done|]. split; cbn; rewrite ?E; try done.
    intros _. cbn. lia.
  - rewrite bool_decide_false by done. cbn [negb assert_ mbind res_bind].
    rewrite (cb_front_law x l) by done. destruct (cb_pop_law x l (bqueue_ q) E) as [Hc Hcap'].
    eexists. split; [done|]. cbn [length] in *. split; cbn; rewrite ?Hc, ?Hcap'.
    + rewrite fmap_app. cbn. by rewrite <-app_assoc.
    + split; [done|]. lia.
    + intros Hx. specialize (Ht Hx). lia.
    + intros Hx. rewrite Nat.sub_0_r.
      replace (Z.to_nat (cap - zlen l)) with (S (Z.to_nat (cap - Z.of_nat (S (length l))))) by lia.
      apply notify_covers; [|done]. intros Hy. specialize (Hp Hy). lia.
Qed.

Lemma binv_weaken cap n m q : binv cap 0 0 q → binv cap n m q.
Proof. intros [Hf Hc Ht Hp]. split; try done; intros Hx; [specialize (Ht Hx)|specialize (Hp Hx)]; lia. Qed.

Lemma bexec_spec cap e q : binv cap 0 0 q → ∃ q', bexec e q = Ok q' ∧ binv cap 0 0 q'.
Proof.
  intros Hinv. destruct e as [pick x|pick tid|i|i|pick i|pick i]; cbn [bexec].
  - by apply bput_turn_spec, binv_weaken.
  - by apply btake_turn_spec, binv_weaken.
  - eexists. split; [done|]. destruct Hinv. split; cbn; try done. by apply release_covers.
  - eexists. split; [done|]. destruct Hinv. split; cbn; try done. by apply release_covers.
  - destruct (resume i (bnotEmpty_ q)) as [[tid c]|] eqn:E; [|by exists q].
    apply btake_turn_spec. destruct Hinv as [Hf Hc Ht Hp]. split; cbn; try done.
    intros Hx. pose proof (resume_covers i _ _ _ _ E Ht Hx). lia.
  - destruct (resume i (notFull_ q)) as [[x c]|] eqn:E; [|by exists q].
    apply bput_turn_spec. destruct Hinv as [Hf Hc Ht Hp]. split; cbn; try done.
    intros Hx. pose proof (resume_covers i _ _ _ _ E Hp Hx). lia.
Qed.

Lemma newBBQ_inv maxSize : 0 ≤ maxSize → binv maxSize 0 0 (newBBQ maxSize).
Proof.
  intros Hm. destruct (cb_new_law maxSize Hm) as [Hc Hcap]. split; cbn; rewrite ?Hc; try done.
Qed.

(** C21: BoundedBlockingQueue is safe, bounded, FIFO and loses no wakeup. Any interleaving
    of puts, takes, signals and spurious wakeups runs without a failed assertion; the queue
    never exceeds its capacity and hands the values over in the order they were put; and it
    cannot get stuck: when nobody has been released, blocked consumers mean that the queue is
    empty and blocked producers that it is full, so with a positive capacity they are never
    both blocked. *)
Theorem bounded_queue_correct (maxSize : Z) (es : list bevent) (Hm : 0 < maxSize) :
  ∃ q, mfold bexec es (newBBQ maxSize) = Ok q ∧
    (btaken q).*2 ++ cb_content (bqueue_ q) = badded q ∧
    zlen (cb_content (bqueue_ q)) ≤ maxSize ∧
    (woken (bnotEmpty_ q) = [] → waiting (bnotEmpty_ q) ≠ [] → cb_content (bqueue_ q) = []) ∧
    (woken (notFull_ q) = [] → waiting (notFull_ q) ≠ [] → zlen (cb_content (bqueue_ q)) = maxSize) ∧
    (woken (bnotEmpty_ q) = [] → woken (notFull_ q) = [] →
     waiting (bnotEmpty_ q) = [] ∨ waiting (notFull_ q) = []).
Proof.
  assert (∀ q, binv maxSize 0 0 q → ∃ q', mfold bexec es q = Ok q' ∧ binv maxSize 0 0 q') as Hrun.
  { induction es as [|e es IH]; intros q Hq; [by exists q|].
    destruct (bexec_spec maxSize e q Hq) as (q1 & E & Hq1). cbn [mfold]. rewrite E. by apply IH. }
  destruct (Hrun (newBBQ maxSize)) as (q & Hq & [Hf [Hcap Hl] Ht Hp]); [apply newBBQ_inv; lia|].
  exists q. split; [done|]. split; [done|]. split; [done|].
  assert (woken (bnotEmpty_ q) = [] → waiting (bnotEmpty_ q) ≠ [] → cb_content (bqueue_ q) = []) as H1.
  { intros E Hx. specialize (Ht Hx). rewrite E in Ht. cbn in Ht. apply length_zero_iff_nil. lia. }
  assert (woken (notFull_ q) = [] → waiting (notFull_ q) ≠ [] → zlen (cb_content (bqueue_ q)) = maxSize) as H2.
  { intros E Hx. specialize (Hp Hx). rewrite E in Hp. cbn in Hp. lia. }
  split; [done|]. split; [done|]. intros E1 E2.
  destruct (decide (waiting (bnotEmpty_ q) = [])); [by left|right].
  destruct (waiting (notFull_ q)) eqn:Ew; [done|]. rewrite H1 in H2 by done. cbn in H2.
  specialize (H2 E2 ltac:(done)). lia.
Qed.
End Bounded.

(** A list with a capacity satisfies the laws. *)
#[export] Instance list_buffer : CircularBuffer (list Z * Z) Z := {
  cb_new n := ([], n);
  cb_content q := q.1;
  cb_capacity q := q.2;
  cb_full q := zlen q.1 =? q.2;
  cb_empty q := bool_decide (q.1 = []);
  cb_push_back x q := (q.1 ++ [x], q.2);
  cb_pop_front q := (tail q.1, q.2);
  cb_front q := head q.1
}.
#[export] Instance list_buffer_laws : CircularBufferLaws (list Z * Z) Z.
Proof. split; try done; intros x l [q n]; cbn; by intros ->. Qed.

Lemma bounded_queue_correct_witness :
  ∃ q, mfold bexec [BTake 0 7; BPut 0 1; BPut 0 2; BPut 0 3; BResumeTaker 0 0] (newBBQ (Q := list Z * Z) 2) = Ok q ∧
    (btaken q).*2 ++ cb_content (bqueue_ q) = badded q.
Proof.
  destruct (bounded_queue_correct (Q := list Z * Z) 2
    [BTake 0 7; BPut 0 1; BPut 0 2; BPut 0 3; BResumeTaker 0 0]) as (q & Hq & Hf & _); [lia|].
  by exists q.
Defined.
End Queues.
