(* ===== verification/ThreadPool.v ===== *)
(** * ThreadPool (base/thread_pool.h, base/thread_pool.cc)

    The pool's workers, its producers and stop() as steps: code under the mutex is one step,
    and so are the test of running_ in runInThread, which is outside it, the call of a task
    and its return. take() only takes: the worker then holds the task, the mutex is free, and
    workers begin the tasks they hold in any order. [added], [taken] and [executed] are the
    tasks queued, taken and begun so far. The threads exist from start() on: joining them
    waits until all have exited. *)

From S2P Require Import Prelude Sync Queues.

Module Pool.
Import Cond.

(** Where a worker is: at the test of running_, in take() before its mutex, blocked in
    take() (its index is then in notEmpty_), back from take() with a task, in that task, or
    finished. *)
Inductive worker (Task : Type) :=
  | AtTest
  | InTake
  | Waiting
  | Took (t : Task)
  | InTask (t : Task)
  | Exited.
Arguments AtTest {Task}. Arguments InTake {Task}. Arguments Waiting {Task}. Arguments Took {Task} t.
Arguments InTask {Task} t. Arguments Exited {Task}.

Section Pool.
Context {Task : Type}.
Local Arguments wait : simpl never.
Local Arguments release : simpl never.
Local Arguments notify : simpl never.
Local Arguments notifyAll : simpl never.
Local Arguments members : simpl never.

Record ThreadPool := mkPool {
  notEmpty_ : Condition nat;
  notFull_ : Condition Task;
  threads_ : list (worker Task);
  queue_ : list Task;
  maxQueueSize_ : Z;
  running_ : bool;
  added : list Task;
  taken : list Task;
  executed : list Task
}.
Definition newPool : ThreadPool := mkPool newCond newCond [] [] 0 false [] [] [].
(** The int is converted to size_t. *)
Definition setMaxQueueSize (maxSize : Z) (p : ThreadPool) : ThreadPool :=
  mkPool (notEmpty_ p) (notFull_ p) (threads_ p) (queue_ p) (u64 maxSize) (running_ p) (added p) (taken p) (executed p).
Definition queueSize (p : ThreadPool) : Z := zlen (queue_ p).

Definition with_notEmpty (c : Condition nat) (p : ThreadPool) : ThreadPool :=
  mkPool c (notFull_ p) (threads_ p) (queue_ p) (maxQueueSize_ p) (running_ p) (added p) (taken p) (executed p).
Definition with_notFull (c : Condition Task) (p : ThreadPool) : ThreadPool :=
  mkPool (notEmpty_ p) c (threads_ p) (queue_ p) (maxQueueSize_ p) (running_ p) (added p) (taken p) (executed p).
Definition goto (i : nat) (w : worker Task) (p : ThreadPool) : ThreadPool :=
  mkPool (notEmpty_ p) (notFull_ p) (<[i := w]> (threads_ p)) (queue_ p) (maxQueueSize_ p) (running_ p)
    (added p) (taken p) (executed p).
Definition begin_task (t : Task) (p : ThreadPool) : ThreadPool :=
  mkPool (notEmpty_ p) (notFull_ p) (threads_ p) (queue_ p) (maxQueueSize_ p) (running_ p)
    (added p) (taken p) (executed p ++ [t]).
Definition push_back (t : Task) (p : ThreadPool) : ThreadPool :=
  mkPool (notEmpty_ p) (notFull_ p) (threads_ p) (queue_ p ++ [t]) (maxQueueSize_ p) (running_ p)
    (added p ++ [t]) (taken p) (executed p).
Definition pop_front (t : Task) (q : list Task) (p : ThreadPool) : ThreadPool :=
  mkPool (notEmpty_ p) (notFull_ p) (threads_ p) q (maxQueueSize_ p) (running_ p)
    (added p) (taken p ++ [t]) (executed p).

Definition start (numThreads : nat) (p : ThreadPool) : res ThreadPool :=
  _ ← assert_ (bool_decide (threads_ p = []));
  Ok (mkPool (notEmpty_ p) (notFull_ p) (replicate numThreads AtTest) (queue_ p) (maxQueueSize_ p) true
        (added p) (taken p) (executed p)).

Definition isFull (p : ThreadPool) : bool :=
  (0 <? maxQueueSize_ p) && (maxQueueSize_ p <=? zlen (queue_ p)).

(** A turn of run()'s loop by a producer. Without threads the task is run at once. *)
Definition run_turn (pick : nat) (t : Task) (p : ThreadPool) : res ThreadPool :=
  if bool_decide (threads_ p = []) then Ok (begin_task t p)
  else if isFull p then Ok (with_notFull (wait t (notFull_ p)) p)
  else
    _ ← assert_ (negb (isFull p));
    let p := push_back t p in
    Ok (with_notEmpty (notify pick (notEmpty_ p)) p).

(** A turn of take()'s loop by worker [i]: it waits, returns with the front task, or, when
    the pool is stopped and the queue empty, with an empty function, which runInThread does
    not call. *)
Definition take_turn (pick i : nat) (p : ThreadPool) : ThreadPool :=
  match queue_ p with
  | [] =>
      if running_ p then goto i Waiting (with_notEmpty (wait i (notEmpty_ p)) p)
      else goto i AtTest p
  | t :: q =>
      let p := pop_front t q p in
      let p := if 0 <? maxQueueSize_ p then with_notFull (notify pick (notFull_ p)) p else p in
      goto i (Took t) p
  end.

(** runInThread: the test, take(), and the task, called without the mutex. *)
Definition worker_step (pick i : nat) (p : ThreadPool) : ThreadPool :=
  match threads_ p !! i with
  | Some AtTest => goto i (if running_ p then InTake else Exited) p
  | Some InTake => take_turn pick i p
  | Some (Took t) => goto i (InTask t) (begin_task t p)
  | Some (InTask _) => goto i AtTest p
  | _ => p
  end.

(** stop(), up to the joins, which return when [joined]. *)
Definition stop (p : ThreadPool) : ThreadPool :=
  mkPool (notifyAll (notEmpty_ p)) (notFull_ p) (threads_ p) (queue_ p) (maxQueueSize_ p) false
    (added p) (taken p) (executed p).
Definition exited (w : worker Task) : bool := match w with Exited => true | _ => false end.
Definition joined (p : ThreadPool) : bool := forallb exited (threads_ p).

Inductive event :=
  | Run (pick : nat) (t : Task)
  | Worker (pick i : nat)
  | ResumeWorker (pick i : nat)
  | ResumeProducer (pick i : nat)
  | SpuriousWorker (i : nat)
  | SpuriousProducer (i : nat)
  | Stop.

Definition exec (e : event) (p : ThreadPool) : res ThreadPool :=
  match e with
  | Run pick t => run_turn pick t p
  | Worker pick i => Ok (worker_step pick i p)
  | ResumeWorker pick i =>
      Ok (match resume i (notEmpty_ p) with
          | Some (w, c) => take_turn pick w (with_notEmpty c p)
          | None => p
          end)
  | ResumeProducer pick i =>
      match resume i (notFull_ p) with
      | Some (t, c) => run_turn pick t (with_notFull c p)
      | None => Ok p
      end
  | SpuriousWorker i => Ok (with_notEmpty (release i (notEmpty_ p)) p)
  | SpuriousProducer i => Ok (with_notFull (release i (notFull_ p)) p)
  | Stop => Ok (stop p)
  end.

(** ** The invariant *)

(** The tasks that workers have taken and not yet begun. *)
Definition hold (w : worker Task) : list Task := match w with Took t => [t] | _ => [] end.
Definition held (p : ThreadPool) : list Task := threads_ p ≫= hold.

(** The tasks and the wakeups; [n] released workers and [m] released producers may be
    missing. *)
Record inv (n m : nat) (p : ThreadPool) : Prop := mkInv {
  inv_threads : threads_ p ≠ [];
  inv_fifo : taken p ++ queue_ p = added p;
  inv_held : executed p ++ held p ≡ₚ taken p;
  inv_bound : 0 < maxQueueSize_ p → zlen (queue_ p) ≤ maxQueueSize_ p;
  inv_takers : waiting (notEmpty_ p) ≠ [] →
    running_ p = true ∧ (length (queue_ p) - n ≤ length (woken (notEmpty_ p)))%nat;
  inv_putters : 0 < maxQueueSize_ p → waiting (notFull_ p) ≠ [] →
    (Z.to_nat (maxQueueSize_ p - zlen (queue_ p)) - m ≤ length (woken (notFull_ p)))%nat
}.

(** notEmpty_ holds exactly the workers that wait in it, worker [x] apart. *)
Record waiters (x : option nat) (p : ThreadPool) : Prop := mkWaiters {
  wa_nodup : NoDup (members (notEmpty_ p));
  wa_iff i : x ≠ Some i → (i ∈ members (notEmpty_ p) ↔ threads_ p !! i = Some Waiting);
  wa_out i : x = Some i → ¬ (i ∈ members (notEmpty_ p)) ∧ is_Some (threads_ p !! i)
}.

Definition holds_nothing (w : option (worker Task)) : Prop := ∀ t, w ≠ Some (Took t).

Lemma insert_nonempty {A} i (x : A) l : l ≠ [] → <[i := x]> l ≠ [].
Proof. destruct l, i; done. Qed.

Lemma bind_insert {A B} (f : A → list B) (l : list A) i w w' :
  l !! i = Some w → ((<[i := w']> l) ≫= f) ++ f w ≡ₚ (l ≫= f) ++ f w'.
Proof.
  revert i. induction l as [|x l IH]; intros [|i]; try done.
  - intros [= ->]. cbn. rewrite <-!app_assoc, (Permutation_app_comm (f w')), (Permutation_app_comm _ (f w)).
    by rewrite <-app_assoc.
  - intros Hi. change (<[S i := w']> (x :: l)) with (x :: <[i := w']> l). cbn.
    rewrite <-!app_assoc. by apply Permutation_app_head, IH.
Qed.

Lemma held_goto i w w' p :
  threads_ p !! i = Some w → held (goto i w' p) ++ hold w ≡ₚ held p ++ hold w'.
Proof. apply bind_insert. Qed.

Lemma held_goto_nil i w p :
  holds_nothing (threads_ p !! i) → hold w = [] → held (goto i w p) ≡ₚ held p.
Proof.
  intros Hn Hw. destruct (threads_ p !! i) as [w0|] eqn:E.
  - pose proof (held_goto i w0 w p E) as Hg. rewrite Hw in Hg.
    assert (hold w0 = []) as Hw0 by (destruct w0; try done; by destruct (Hn t)).
    by rewrite Hw0, !app_nil_r in Hg.
  - unfold held, goto. cbn. by rewrite list_insert_ge by (by apply lookup_ge_None).
Qed.

Lemma held_goto_took i t p :
  holds_nothing (threads_ p !! i) → is_Some (threads_ p !! i) → held (goto i (Took t) p) ≡ₚ held p ++ [t].
Proof.
  intros Hn [w0 E]. pose proof (held_goto i w0 (Took t) p E) as Hg.
  assert (hold w0 = []) as Hw0 by (destruct w0; try done; by rewrite E in Hn; destruct (Hn t0)).
  by rewrite Hw0, app_nil_r in Hg.
Qed.

Lemma waiters_goto i w p :
  waiters None p → threads_ p !! i ≠ Some Waiting → w ≠ Waiting → waiters None (goto i w p).
Proof.
  intros [Hn Hiff _] Hi Hw. split; cbn; [done| |done]. intros j _. rewrite (Hiff j) by done.
  destruct (decide (i = j)) as [<-|Hne].
  - split; [by intros ?|]. destruct (decide (i < length (threads_ p))%nat).
    + rewrite list_lookup_insert_eq by done. by intros [= ->].
    + by rewrite list_insert_ge by lia.
  - by rewrite list_lookup_insert_ne.
Qed.

Lemma pool_take_turn_inv pick i p :
  inv 1 0 p → holds_nothing (threads_ p !! i) → is_Some (threads_ p !! i) → inv 0 0 (take_turn pick i p).
Proof.
  intros [Ht Hf Hh Hb Hw Hp] Hno Hi. unfold take_turn. destruct (queue_ p) as [|t q] eqn:E.
  - assert (∀ w, hold w = [] → executed p ++ held (goto i w p) ≡ₚ taken p) as Hh'.
    { intros w Hx. by rewrite held_goto_nil. }
    destruct (running_ p) eqn:Er; split; cbn; rewrite ?E, ?Er; auto using insert_nonempty.
    + by apply (Hh' Waiting).
    + intros _. split; [done|]. cbn. lia.
    + by apply (Hh' AtTest).
  - assert (∀ c, inv 0 0 (goto i (Took t) (with_notFull c (pop_front t q p))) ↔
      (0 < maxQueueSize_ p → waiting c ≠ [] →
         (Z.to_nat (maxQueueSize_ p - zlen q) ≤ length (woken c))%nat)) as Hiff.
    { intros c. split; [intros [_ _ _ _ _ Hx]; cbn in Hx; by rewrite Nat.sub_0_r in Hx|]. intros Hc.
      split; cbn; rewrite ?Nat.sub_0_r; [by apply insert_nonempty|by rewrite <-app_assoc| | | |done].
      - change (executed p ++ held (goto i (Took t) p) ≡ₚ taken p ++ [t]).
        rewrite held_goto_took by done. rewrite app_assoc. by rewrite Hh.
      - intros Hm. specialize (Hb Hm). cbn in Hb. lia.
      - intros Hx. destruct (Hw Hx) as [Hr Hl]. cbn in Hl. split; [done|]. lia. }
    cbn [maxQueueSize_ pop_front notFull_]. destruct (Z.ltb_spec 0 (maxQueueSize_ p)) as [Hm|Hm].
    + apply Hiff. intros _ Hx. specialize (Hb Hm). cbn in Hb.
      replace (Z.to_nat (maxQueueSize_ p - zlen q)) with (S (Z.to_nat (maxQueueSize_ p - zlen (t :: q))))
        by (cbn; lia).
      apply Queues.notify_covers; [|done]. intros Hy. specialize (Hp Hm Hy). lia.
    + apply (Hiff (notFull_ p)). lia.
Qed.

Lemma waiters_take_turn pick i p :
  waiters (Some i) p → waiters None (take_turn pick i p).
Proof.
  intros [Hn Hiff Hout]. destruct (Hout i eq_refl) as [Hni Hi].
  assert (∀ w c, w ≠ Waiting → waiters None (goto i w (with_notFull c p))) as Hmove.
  { intros w c Hw. split; cbn; [done| |done]. intros j _. destruct (decide (i = j)) as [<-|Hne].
    - rewrite list_lookup_insert_eq by (by apply lookup_lt_is_Some). naive_solver.
    - rewrite list_lookup_insert_ne by done. apply Hiff. congruence. }
  unfold take_turn. destruct (queue_ p) as [|t q].
  - destruct (running_ p); [|by apply (Hmove AtTest (notFull_ p))].
    split; cbn; [by rewrite members_wait; constructor| |done]. intros j _.
    rewrite members_wait, elem_of_cons. destruct (decide (i = j)) as [<-|Hne].
    + rewrite list_lookup_insert_eq by (by apply lookup_lt_is_Some). naive_solver.
    + rewrite list_lookup_insert_ne by done. rewrite <-Hiff by congruence. naive_solver.
  - cbn [maxQueueSize_ pop_front notFull_].
    destruct (0 <? maxQueueSize_ p).
    + destruct (Hmove (Took t) (notify pick (notFull_ p))) as [H1 H2 _]; [done|]. by split.
    + destruct (Hmove (Took t) (notFull_ p)) as [H1 H2 _]; [done|]. by split.
Qed.

Lemma run_turn_spec pick t p :
  inv 0 1 p → waiters None p →
  ∃ p', run_turn pick t p = Ok p' ∧ inv 0 0 p' ∧ waiters None p' ∧ threads_ p' = threads_ p ∧
        running_ p' = running_ p.
Proof.
  intros [Ht Hf Hh Hb Hw Hp] [Hn Hiff Hout]. unfold run_turn.
  rewrite bool_decide_false by done.
  destruct (isFull p) eqn:E; cbn [negb assert_ mbind res_bind]; unfold isFull in E;
    eexists; (split; [done|]); split_and!; try done.
  - split; cbn; try done. intros Hm _. lia.
  - split; cbn; try done.
    + by rewrite app_assoc, Hf.
    + intros Hm. rewrite length_app. cbn. lia.
    + intros Hx. rewrite length_app, Nat.sub_0_r, Nat.add_1_r.
      assert (waiting (notEmpty_ p) ≠ []) as Hne.
      { intros E0. apply Hx. unfold notify, release. by rewrite E0, lookup_nil. }
      destruct (Hw Hne) as [Hr _]. split; [done|].
      apply Queues.notify_covers; [|done]. intros Hy. destruct (Hw Hy). lia.
    + intros Hm Hx. specialize (Hp Hm Hx). rewrite length_app. cbn. lia.
  - split; cbn; [by rewrite members_notify| |done]. intros i. rewrite members_notify. apply Hiff.
Qed.

Lemma inv_weaken n m p : inv 0 0 p → inv n m p.
Proof.
  intros [Ht Hf Hh Hb Hw Hp]. split; try done; intros Hx; [destruct (Hw Hx); split; [done|lia]|].
  intros Hy. specialize (Hp Hx Hy). lia.
Qed.

Lemma inv_goto i w p :
  inv 0 0 p → holds_nothing (threads_ p !! i) → hold w = [] → inv 0 0 (goto i w p).
Proof.
  intros [Ht Hf Hh Hb Hw Hp] Hn Hw0. split; cbn; auto using insert_nonempty.
  change (executed p ++ held (goto i w p) ≡ₚ taken p). by rewrite held_goto_nil.
Qed.

Lemma waiters_but i p : waiters None p → threads_ p !! i = Some InTake → waiters (Some i) p.
Proof.
  intros [Hn Hiff _] Hi. split; [done|naive_solver|]. intros j [= <-]. split; [|by eexists].
  rewrite Hiff by done. by rewrite Hi.
Qed.

Lemma worker_step_spec pick i p :
  inv 0 0 p → waiters None p → inv 0 0 (worker_step pick i p) ∧ waiters None (worker_step pick i p).
Proof.
  intros Hinv Hwa. unfold worker_step. destruct (threads_ p !! i) as [[| | |t|t|]|] eqn:E; try done.
  - split; [apply inv_goto; try done; rewrite ?E; by destruct (running_ p)|].
    apply waiters_goto; rewrite ?E; [done|done|]. by destruct (running_ p).
  - split.
    + apply pool_take_turn_inv; [by apply inv_weaken|by rewrite E|by rewrite E; eexists].
    + by apply waiters_take_turn, waiters_but.
  - destruct Hinv as [Ht Hf Hh Hb Hw Hp]. split.
    + split; cbn; auto using insert_nonempty.
      pose proof (held_goto i (Took t) (InTask t) p E) as Hg. cbn in Hg. rewrite app_nil_r in Hg.
      rewrite <-app_assoc, (Permutation_app_comm [t]). rewrite <-Hh. apply Permutation_app_head. exact Hg.
    + apply (waiters_goto i (InTask t) (begin_task t p)); cbn; rewrite ?E; try done. by destruct Hwa.
  - split; [apply inv_goto; try done; by rewrite E|]. apply waiters_goto; by rewrite ?E.
Qed.

Lemma pool_exec_spec e p :
  inv 0 0 p → waiters None p → ∃ p', exec e p = Ok p' ∧ inv 0 0 p' ∧ waiters None p'.
Proof.
  intros Hinv Hwa. destruct e as [pick t|pick i|pick i|pick i|i|i|]; cbn [exec].
  - destruct (run_turn_spec pick t p) as (p' & ? & ? & ? & _); [by apply inv_weaken|done|]. by exists p'.
  - eexists. split; [done|]. by apply worker_step_spec.
  - eexists. split; [done|]. destruct (resume i (notEmpty_ p)) as [[w c]|] eqn:E; [|done].
    pose proof (members_resume _ _ _ _ E) as Hperm. destruct Hwa as [Hn Hiff _].
    rewrite Hperm in Hn. apply NoDup_cons in Hn as [Hni Hn].
    assert (threads_ p !! w = Some Waiting) as Hwt by (apply Hiff; [done|]; rewrite Hperm; by left).
    split.
    + apply pool_take_turn_inv; cbn; [|by rewrite Hwt|by rewrite Hwt; eexists].
      destruct Hinv as [Ht Hf Hh Hb Hw Hp]. split; cbn; try done.
      intros Hx. pose proof E as [Ew _]%resume_length. rewrite Ew in Hx. destruct (Hw Hx) as [Hr Hl].
      split; [done|]. rewrite <-Ew in Hx.
      pose proof (Queues.resume_covers i _ _ _ (length (queue_ p)) E ltac:(intros; lia) Hx). lia.
    + apply waiters_take_turn. split; cbn; [done| |].
      * intros j Hj. rewrite <-(Hiff j), Hperm, elem_of_cons by done. naive_solver.
      * intros j [= <-]. split; [done|]. by rewrite Hwt.
  - destruct (resume i (notFull_ p)) as [[t c]|] eqn:E; [|by exists p].
    destruct (run_turn_spec pick t (with_notFull c p)) as (p' & ? & ? & ? & _); [|by destruct Hwa|by exists p'].
    destruct Hinv as [Ht Hf Hh Hb Hw Hp]. split; cbn; try done.
    intros Hm Hx. pose proof (Queues.resume_covers i _ _ _ _ E (Hp Hm) Hx). lia.
  - eexists. split; [done|]. destruct Hinv as [Ht Hf Hh Hb Hw Hp], Hwa as [Hn Hiff _]. split; split; cbn; try done.
    + intros Hx. assert (waiting (notEmpty_ p) ≠ []) as Hne.
      { intros E0. apply Hx. unfold release. by rewrite E0, lookup_nil. }
      destruct (Hw Hne) as [Hr Hl]. split; [done|]. destruct (release_length i (notEmpty_ p)). lia.
    + by rewrite members_release.
    + intros j. rewrite members_release. apply Hiff.
  - eexists. split; [done|]. destruct Hinv as [Ht Hf Hh Hb Hw Hp]. split; [|by destruct Hwa]. split; cbn; try done.
    intros Hm Hx. by apply Queues.release_covers; [apply Hp|].
  - eexists. split; [done|]. destruct Hinv as [Ht Hf Hh Hb Hw Hp], Hwa as [Hn Hiff _]. split; [by split|].
    split; cbn; [by rewrite members_notifyAll| |done]. intros j. rewrite members_notifyAll. apply Hiff.
Qed.

Lemma bind_replicate n : replicate n (@AtTest Task) ≫= hold = [].
Proof. by induction n. Qed.

Lemma start_inv max n :
  (0 < n)%nat → ∃ p, start n (setMaxQueueSize max newPool) = Ok p ∧ inv 0 0 p ∧ waiters None p.
Proof.
  intros Hn. eexists. split; [done|]. split; split; cbn; try done; [destruct n; [lia|done]| |lia|constructor|].
  - unfold held. cbn. by rewrite bind_replicate.
  - intros i _. split; [by intros ?%not_elem_of_nil|]. by intros [? ?]%lookup_replicate.
Qed.

Lemma run_inv es p :
  inv 0 0 p → waiters None p → ∃ p', mfold exec es p = Ok p' ∧ inv 0 0 p' ∧ waiters None p'.
Proof.
  revert p. induction es as [|e es IH]; intros p Hp Hwa; [by exists p|].
  destruct (pool_exec_spec e p Hp Hwa) as (p1 & E & Hp1 & Hwa1). cbn [mfold]. rewrite E. by apply IH.
Qed.

(** C22: a pool with threads takes its tasks in the order they were queued, and the worker
    that took a task begins it once: the tasks begun, with those that workers hold and are
    about to begin, are exactly those taken. The queue stays within setMaxQueueSize. No wakeup
    is lost on either condition: when workers are blocked, the pool is running and as many
    workers have been released as there are tasks; when producers are blocked, as many have
    been released as there are free places. This holds after any interleaving of producers,
    workers, spurious wakeups and stop(), none of which fails an assertion; stop() may leave
    tasks in the queue. *)
Theorem pool_correct (maxSize : Z) (n : nat) (es : list event) (Hn : (0 < n)%nat) :
  ∃ p0 p, start n (setMaxQueueSize maxSize newPool) = Ok p0 ∧ mfold exec es p0 = Ok p ∧
    taken p ++ queue_ p = added p ∧ executed p ++ held p ≡ₚ taken p ∧
    (0 < maxQueueSize_ p → zlen (queue_ p) ≤ maxQueueSize_ p) ∧
    (waiting (notEmpty_ p) ≠ [] →
       running_ p = true ∧ (length (queue_ p) ≤ length (woken (notEmpty_ p)))%nat) ∧
    (0 < maxQueueSize_ p → waiting (notFull_ p) ≠ [] →
       maxQueueSize_ p - zlen (queue_ p) ≤ zlen (woken (notFull_ p))).
Proof.
  destruct (start_inv maxSize n Hn) as (p0 & H0 & Hinv & Hwa).
  destruct (run_inv es p0 Hinv Hwa) as (p & Hp & [Ht Hf Hh Hb Hw Hpr] & _).
  exists p0, p. split_and!; try done.
  - intros Hx. destruct (Hw Hx). split; [done|]. lia.
  - intros Hm Hx. specialize (Hpr Hm Hx). lia.
Qed.

(** ** Stopping *)

(** The workers' steps that are possible, and everybody else's. *)
Definition can_move (e : event) (p : ThreadPool) : bool :=
  match e with
  | Worker _ i =>
      match threads_ p !! i with Some (AtTest | InTake | Took _ | InTask _) => true | _ => false end
  | ResumeWorker _ i => bool_decide (is_Some (woken (notEmpty_ p) !! i))
  | _ => false
  end.
Definition by_worker (e : event) : bool := match e with Worker _ _ | ResumeWorker _ _ => true | _ => false end.
Definition workers (p p' : ThreadPool) : Prop := ∃ e, can_move e p = true ∧ exec e p = Ok p'.
Definition others (p p' : ThreadPool) : Prop := ∃ e, by_worker e = false ∧ exec e p = Ok p'.

(** How many steps a worker needs to exit after stop(). *)
Definition to_go (w : worker Task) : nat :=
  match w with AtTest => 1 | InTask _ => 2 | Took _ => 3 | InTake | Waiting => 4 | Exited => 0 end.
Definition work_left (p : ThreadPool) : nat := sum_list (map to_go (threads_ p)).

Lemma sum_insert (l : list (worker Task)) i w w' :
  l !! i = Some w → (sum_list (map to_go (<[i := w']> l)) + to_go w = sum_list (map to_go l) + to_go w')%nat.
Proof.
  revert i. induction l as [|x l IH]; intros [|i]; try done.
  - intros [= ->]. cbn. lia.
  - intros Hi. specialize (IH i Hi). change (<[S i := w']> (x :: l)) with (x :: <[i := w']> l). cbn [map sum_list].
    lia.
Qed.

Lemma work_goto i w w' p :
  threads_ p !! i = Some w → (to_go w' < to_go w)%nat → (work_left (goto i w' p) < work_left p)%nat.
Proof. intros Hi Hlt. pose proof (sum_insert _ _ _ w' Hi). unfold work_left. cbn. lia. Qed.

Definition stopped (p : ThreadPool) : Prop := inv 0 0 p ∧ waiters None p ∧ running_ p = false.

Lemma running_take_turn pick i p : running_ (take_turn pick i p) = running_ p.
Proof.
  unfold take_turn. destruct (queue_ p); [by destruct (running_ p) eqn:E; cbn|].
  cbn. by destruct (0 <? maxQueueSize_ p).
Qed.

Lemma work_take_turn pick i p w :
  running_ p = false → threads_ p !! i = Some w → to_go w = 4%nat →
  (work_left (take_turn pick i p) < work_left p)%nat.
Proof.
  intros Hr Hi Hw. unfold take_turn. destruct (queue_ p) as [|t q].
  - rewrite Hr. apply (work_goto i w); [done|]. cbn. lia.
  - cbn. destruct (0 <? maxQueueSize_ p);
      (eapply Nat.lt_le_trans; [apply (work_goto i w); [done|cbn; lia]|done]).
Qed.

Lemma stopped_worker p p' : stopped p → workers p p' → stopped p' ∧ (work_left p' < work_left p)%nat.
Proof.
  intros (Hinv & Hwa & Hr) (e & Hc & He). destruct (pool_exec_spec e p Hinv Hwa) as (p1 & E & Hinv1 & Hwa1).
  rewrite E in He. injection He as <-.
  assert (running_ p1 = false ∧ (work_left p1 < work_left p)%nat) as [? ?]; [|done].
  destruct e as [| pick i | pick i | | | |]; try done; cbn in Hc, E; injection E as <-.
  - unfold worker_step. destruct (threads_ p !! i) as [[| | |t|t|]|] eqn:Ei; try done.
    + split; [done|]. rewrite Hr. apply (work_goto i AtTest); [done|cbn; lia].
    + split; [by rewrite running_take_turn|]. by apply (work_take_turn pick i p InTake).
    + split; [done|]. apply (work_goto i (Took t) (InTask t) (begin_task t p)); [done|cbn; lia].
    + split; [done|]. apply (work_goto i (InTask t)); [done|cbn; lia].
  - apply bool_decide_eq_true in Hc as [w Hw].
    destruct (resume i (notEmpty_ p)) as [[w' c]|] eqn:Er; [|unfold resume in Er; by rewrite Hw in Er].
    assert (threads_ p !! w' = Some Waiting) as Hwt.
    { apply (wa_iff _ _ Hwa); [done|]. rewrite (members_resume _ _ _ _ Er). by left. }
    split; [by rewrite running_take_turn|].
    by apply (work_take_turn pick w' (with_notEmpty c p) Waiting).
Qed.

Lemma stopped_other p p' : stopped p → others p p' → stopped p' ∧ work_left p' = work_left p.
Proof.
  intros (Hinv & Hwa & Hr) (e & Hc & He). destruct (pool_exec_spec e p Hinv Hwa) as (p1 & E & Hinv1 & Hwa1).
  pose proof E as E1. rewrite E in He. injection He as <-.
  assert (running_ p1 = false ∧ threads_ p1 = threads_ p) as [? Ht];
    [|split; [done|]; unfold work_left; by rewrite Ht].
  destruct e as [pick t| | |pick i|i|i|]; try done; cbn in E; try (injection E as <-; done).
  - destruct (run_turn_spec pick t p) as (p2 & E2 & _ & _ & Ht2 & Hr2); [by apply inv_weaken|done|].
    rewrite E2 in E. injection E as <-. by rewrite Hr2.
  - destruct (resume i (notFull_ p)) as [[t c]|] eqn:Er; [|by injection E as <-].
    unfold run_turn in E. rewrite bool_decide_false in E by (by destruct Hinv).
    destruct (isFull _); cbn in E; by injection E as <-.
Qed.

Lemma stopped_progress p : stopped p → work_left p ≠ 0%nat → ∃ p', workers p p'.
Proof.
  intros (Hinv & Hwa & Hr) Hne.
  assert (∃ i w, threads_ p !! i = Some w ∧ w ≠ Exited) as (i & w & Hi & Hw).
  { unfold work_left in Hne. clear -Hne. induction (threads_ p) as [|x l IH]; [done|].
    destruct x; try (by exists 0%nat; eexists). destruct (IH Hne) as (i & w & ? & ?). by exists (S i), w. }
  assert (can_move (Worker 0 i) p = true → ∃ p', workers p p') as Hown.
  { intros Hc. eexists. exists (Worker 0 i). by split. }
  cbn in Hown. rewrite Hi in Hown. destruct w; try (by apply Hown); try done.
  assert (i ∈ members (notEmpty_ p)) as Hm by (by apply (wa_iff _ _ Hwa)).
  unfold members in Hm. apply elem_of_app in Hm as [Hm|[j Hj]%list_elem_of_lookup].
  - destruct (inv_takers _ _ _ Hinv) as [Hrun _]; [|congruence]. intros E. rewrite E in Hm. by apply not_elem_of_nil in Hm.
  - eexists. exists (ResumeWorker 0 j). split; [|done]. cbn. apply bool_decide_eq_true. by eexists.
Qed.

Lemma work_left_joined p : work_left p = 0%nat → joined p = true.
Proof. unfold work_left, joined. induction (threads_ p) as [|[] l IH]; cbn; try done. Qed.

(** C23: stop() returns. Whatever producers, workers and spurious wakeups have done before
    stop() is called, the workers then all exit, so that the joins return: at any time as
    long as one has not exited, some worker can make a step, and whichever steps the workers
    make, and whatever producers, spurious wakeups and further stops do in between, they come
    to the end. Tasks are assumed to return. *)
Theorem stop_terminates (maxSize : Z) (n : nat) (es : list event) (p0 p : ThreadPool)
    (Hn : (0 < n)%nat) (Hs : start n (setMaxQueueSize maxSize newPool) = Ok p0)
    (Hp : mfold exec es p0 = Ok p) :
  inevitably workers others (λ p', joined p' = true) (stop p).
Proof.
  destruct (start_inv maxSize n Hn) as (p1 & H1 & Hinv & Hwa). rewrite Hs in H1. injection H1 as <-.
  destruct (run_inv es p0 Hinv Hwa) as (p1 & H1 & Hi1 & Hw1). rewrite Hp in H1. injection H1 as <-.
  destruct (pool_exec_spec Stop p Hi1 Hw1) as (p1 & [= <-] & Hi2 & Hw2).
  apply (inevitably_measure workers others stopped (λ p', joined p' = true) work_left); [..|done].
  - apply stopped_other.
  - apply stopped_worker.
  - intros q _. apply work_left_joined.
  - apply stopped_progress.
Qed.
End Pool.
Arguments ThreadPool : clear implicits.
Arguments event : clear implicits.

(** ** Witnesses *)

(** Two workers take a task each; the second is begun first. *)
Definition demo_events : list (event Z) :=
  [Worker 0 0; Worker 0 0; Worker 0 1; Run 0 10; Run 0 11; Run 0 12; ResumeWorker 0 0; ResumeProducer 0 0;
   Worker 0 1; Worker 0 1].
Lemma pool_correct_witness :
  ∃ p0 p, start 2 (setMaxQueueSize 1 newPool) = Ok p0 ∧ mfold exec demo_events p0 = Ok p ∧
    taken p ++ queue_ p = added p ∧ executed p ++ held p ≡ₚ taken p ∧
    taken p = [10; 11] ∧ executed p = [11] ∧ queue_ p = [] ∧ held p = [10] ∧ waiting (notFull_ p) = [] ∧
    woken (notFull_ p) = [12].
Proof.
  destruct (pool_correct 1 2 demo_events) as (p0 & p & H0 & Hp & Hf & Hh & _); [lia|].
  exists p0, p. injection H0 as <-. vm_compute in Hp. injection Hp as <-. by split_and!.
Defined.

(** One worker has taken a task, the other is blocked in take(). *)
Definition blocked_pool : ThreadPool Z :=
  mkPool (mkCond [1%nat] []) newCond [Took 10; Waiting] [] 0 true [10] [10] [].
Lemma stop_terminates_witness :
  (p0 ← start 2 (setMaxQueueSize 0 newPool);
   mfold exec [Worker 0 0; Worker 0 0; Run 0 10; ResumeWorker 0 0; Worker 0 1; Worker 0 1] p0) = Ok blocked_pool ∧
  inevitably workers others (λ p', joined p' = true) (stop blocked_pool).
Proof.
  split; [by vm_compute|].
  apply (stop_terminates 0 2 [Worker 0 0; Worker 0 0; Run 0 10; ResumeWorker 0 0; Worker 0 1; Worker 0 1]
    (mkPool newCond newCond [AtTest; AtTest] [] 0 true [] [] []) blocked_pool); [lia|by vm_compute|by vm_compute].
Defined.

(** Stop() abandons queued tasks and blocked producers. A pool of one worker and a queue
    of one: two tasks are submitted before stop(), the worker exits at its test of running_,
    and the joins return with the first task never run and the second producer still blocked
    in run(): stop() signals notEmpty_ only. *)
Theorem stop_abandons_tasks :
  ∃ p0 p, start 1 (setMaxQueueSize 1 newPool) = Ok p0 ∧
    mfold exec [Run 0 10; Run 0 11; Stop; Worker 0 0] p0 = Ok p ∧
    joined p = true ∧ executed p = [] ∧ queue_ p = [10] ∧ waiting (notFull_ p) = [11].
Proof. eexists _, _. by split_and!. Qed.

(** Tasks may be begun in another order than they were queued in: each worker calls its
    task after take() has released the mutex. *)
Theorem tasks_begin_out_of_order :
  ∃ p0 p, start 2 (setMaxQueueSize 0 newPool) = Ok p0 ∧
    mfold exec [Run 0 10; Run 0 11; Worker 0 0; Worker 0 0; Worker 0 1; Worker 0 1; Worker 0 1; Worker 0 0] p0 = Ok p ∧
    added p = [10; 11] ∧ executed p = [11; 10].
Proof. eexists _, _. by split_and!. Qed.
End Pool.
