(* ===== verification/IoThread.v ===== *)
(** * Thread and EventLoopThread
    (base/thread.h, base/thread.cc, net/event_loop_thread.h, net/event_loop_thread.cc)

    [Thr]: the Thread object and the first steps of the thread it creates, with the latch of
    Sync.v. [IoT]: EventLoopThread::startLoop as the interleaving of the thread that calls it
    (the owner) with the new thread, step by step: Thread::start and its latch, the init
    callback, the publication of loop_ under the mutex, the owner's condition wait, and the
    end of the loop. A step is what a thread does between two points where the other can
    observe it; [next] gives it, or None when the thread has to wait. *)

From S2P Require Import Prelude Sync Atomic LogStream Format.

Module Thr.

Record Thread := mkThr {
  started_ : bool;
  joined_ : bool;
  tid_ : Z;
  name_ : list byte;
  latch_ : Latch.CountDownLatch;
  detached : bool                 (* pthread_detach was called *)
}.

(** setDefaultName: "Thread<n>" for an unnamed thread. Also returns numCreated_. *)
Definition thread_prefix : list byte := [x54; x68; x72; x65; x61; x64].
Definition setDefaultName (n : list byte) (numCreated : Z) : res (list byte * Z) :=
  '(num, created) ← Atomic.incrementAndGet 32 numCreated;
  Ok (if bool_decide (n = []) then Format.snprintf 32 (thread_prefix ++ Format.fmt_d 0 num) else n, created).

Definition newThread (n : list byte) (numCreated : Z) : res (Thread * Z) :=
  '(name, created) ← setDefaultName n numCreated;
  Ok (mkThr false false 0 name (Latch.newLatch 1) false, created).

(** start(), up to the wait on the latch; [create_ok]: pthread_create succeeded. *)
Definition start (create_ok : bool) (t : Thread) : res Thread :=
  _ ← assert_ (negb (started_ t));
  Ok (mkThr create_ok (joined_ t) (tid_ t) (name_ t) (latch_ t) (detached t)).
(** One turn of latch_.wait() at the end of start(); Some when it returns. *)
Definition start_wait (t : Thread) : option (res Thread) :=
  if 0 <? Latch.getCount (latch_ t) then None
  else Some (_ ← assert_ (0 <? tid_ t); Ok t).

(** ThreadData::runInThread up to the call of func_, in the new thread. *)
Definition runInThread (gettid : Z) (t : Thread) : Thread :=
  mkThr (started_ t) (joined_ t) gettid (name_ t) (Latch.countDown (latch_ t)) (detached t).

Definition join (t : Thread) : res Thread :=
  _ ← assert_ (started_ t);
  _ ← assert_ (negb (joined_ t));
  Ok (mkThr (started_ t) true (tid_ t) (name_ t) (latch_ t) (detached t)).

Definition destructor (t : Thread) : Thread :=
  if started_ t && negb (joined_ t)
  then mkThr (started_ t) (joined_ t) (tid_ t) (name_ t) (latch_ t) true else t.
End Thr.

Module IoT.
Import Cond.

(** Where the owner is in startLoop(). *)
Inductive opc :=
  | Idle
  | InStart                  (* in Thread::start, waiting for the latch *)
  | Testing                  (* holds the mutex, about to test loop_ *)
  | Waiting                  (* in cond_.wait() *)
  | Unlocked                 (* has left the block, about to read loop_ again *)
  | Returned (loop : bool)   (* startLoop has returned; false: NULL *)
  | Gone.                    (* ~EventLoopThread has run *)
(** Where the new thread is. *)
Inductive tpc :=
  | NotBorn
  | Born                     (* before the latch *)
  | Ready                    (* about to construct its EventLoop and run callback_ *)
  | Publishing               (* about to take the mutex *)
  | Looping
  | Finished.
#[export] Instance opc_eq_dec : EqDecision opc.
Proof. solve_decision. Defined.
#[export] Instance returned_dec o : Decision (∃ l, o = Returned l).
Proof. destruct o; try (by right; intros [? ?]). left. by eexists. Defined.
#[export] Instance tpc_eq_dec : EqDecision tpc.
Proof. solve_decision. Defined.

Record iothread := mkIo {
  thread_ : Thr.Thread;
  loop_ : bool;              (* loop_ is not NULL *)
  cond_ : Condition unit;
  exiting_ : bool;
  owner : opc;
  io : tpc;
  calls : nat;               (* calls of callback_ *)
  quit : bool                (* quit() was called on the loop *)
}.

Definition newIo (t : Thr.Thread) : iothread := mkIo t false newCond false Idle NotBorn 0 false.

Inductive event :=
  | StartLoop (create_ok : bool)
  | LatchPassed
  | Test
  | Resume                   (* the owner, released from its wait, has the mutex again *)
  | Spurious
  | ReadLoop
  | TidSet (gettid : Z)
  | Callback
  | Publish
  | Quit
  | LoopEnds.

Definition next (e : event) (s : iothread) : option (res iothread) :=
  let 'mkIo t l c x o i k q := s in
  match e, o, i with
  (* EventLoopThread::startLoop *)
  | StartLoop ok, Idle, NotBorn =>
      Some (_ ← assert_ (negb (Thr.started_ t));
            t ← Thr.start ok t;
            Ok (if ok then mkIo t l c x InStart Born k q else mkIo t l c x Testing NotBorn k q))
  | LatchPassed, InStart, _ =>
      match Thr.start_wait t with
      | Some r => Some (t ← r; Ok (mkIo t l c x Testing i k q))
      | None => None
      end
  | Test, Testing, _ =>
      Some (Ok (if negb l then mkIo t l (wait tt c) x Waiting i k q else mkIo t l c x Unlocked i k q))
  | Resume, Waiting, _ =>
      match resume 0 c with Some (_, c) => Some (Ok (mkIo t l c x Testing i k q)) | None => None end
  | Spurious, Waiting, _ => Some (Ok (mkIo t l (release 0 c) x Waiting i k q))
  | ReadLoop, Unlocked, _ => Some (Ok (mkIo t l c x (Returned l) i k q))
  (* EventLoopThread::threadFunc *)
  | TidSet g, _, Born => Some (Ok (mkIo (Thr.runInThread g t) l c x o Ready k q))
  | Callback, _, Ready => Some (Ok (mkIo t l c x o Publishing (S k) q))
  | Publish, _, Publishing => Some (Ok (mkIo t true (notify 0 c) x o Looping k q))
  | Quit, _, Looping => Some (Ok (mkIo t l c x o i k true))
  | LoopEnds, _, Looping => if q then Some (Ok (mkIo t false c x o Finished k q)) else None
  | _, _, _ => None
  end.

(** ~EventLoopThread, when nothing else runs: quit() and, the loop thread having ended, join(). *)
Definition io_destructor (s : iothread) : res iothread :=
  let 'mkIo t l c _ _ i k q := s in
  if l then t ← Thr.join t; Ok (mkIo t false c true Gone Finished k true)
  else Ok (mkIo t l c true Gone i k q).

(** What the kernel guarantees, and that nobody quits the loop: thread ids are positive and
    pthread_create succeeds. *)
Definition allowed (e : event) : Prop :=
  match e with TidSet g => 0 < g | StartLoop ok => ok = true | Quit => False | _ => True end.

Inductive step (s s' : iothread) : Prop :=
  | step_intro e : allowed e → next e s = Some (Ok s') → step s s'.

(** The steps to go before startLoop returns: every step but a spurious wakeup takes one off. *)
Definition to_go_io (i : tpc) : nat :=
  match i with NotBorn => 4 | Born => 3 | Ready => 2 | Publishing => 1 | Looping | Finished => 0 end.
Definition to_go_owner (o : opc) (c : Condition unit) : nat :=
  match o with
  | Idle => 8 | InStart => 7
  | Waiting => match woken c with [] => 4 | _ => 6 end
  | Testing => 5
  | Unlocked => 1 | Returned _ | Gone => 0
  end.
Definition to_go (s : iothread) : nat := (10 * to_go_io (io s) + to_go_owner (owner s) (cond_ s))%nat.

Definition published (i : tpc) : bool := match i with Looping | Finished => true | _ => false end.
Definition past_latch (i : tpc) : bool := match i with NotBorn | Born => false | _ => true end.

Record inv (s : iothread) : Prop := mkInv {
  inv_loop : loop_ s = published (io s);
  inv_io : io s ≠ Finished ∧ quit s = false;
  inv_latch : Latch.count_ (Thr.latch_ (thread_ s)) = (if past_latch (io s) then 0 else 1);
  inv_tid : past_latch (io s) = true → 0 < Thr.tid_ (thread_ s);
  inv_thread : Thr.started_ (thread_ s) = bool_decide (owner s ≠ Idle) ∧ Thr.joined_ (thread_ s) = false;
  inv_born : io s = NotBorn ↔ owner s = Idle;
  inv_owner : match owner s with
    | Idle | InStart => True
    | Testing | Waiting => past_latch (io s) = true
    | Unlocked => io s = Looping
    | Returned l => l = true ∧ io s = Looping
    | Gone => False end;
  inv_cond : waiting (cond_ s) ++ woken (cond_ s) = (if decide (owner s = Waiting) then [tt] else []);
  inv_wait : waiting (cond_ s) ≠ [] → loop_ s = false;
  inv_calls : calls s = match io s with Publishing | Looping => 1%nat | _ => 0%nat end
}.

Lemma new_io_inv t : Thr.started_ t = false → Thr.joined_ t = false → Thr.latch_ t = Latch.newLatch 1 → inv (newIo t).
Proof. intros H1 H2 H3. by split; cbn; rewrite ?H1, ?H2, ?H3. Qed.

(** Every step that can be made keeps the invariant, fails no assertion and, unless it is a
    spurious wakeup, brings the return closer. *)
Lemma io_step_spec e s r :
  inv s → allowed e → next e s = Some r →
  ∃ s', r = Ok s' ∧ inv s' ∧ (e ≠ Spurious → (to_go s' < to_go s)%nat).
Proof.
  intros [Hl [Hi Hq] Hla Ht [Hs Hj] Hb Ho Hc Hw Hk] Ha. destruct s as [t l [ws wk] x o i k q]. cbn in *.
  destruct t as [st jo td nm la de], l, q; try done; try (by destruct i).
  all: destruct ws as [|[] [|]], wk as [|[] [|]]; try (by destruct o).
  all: destruct e as [ok| | | | | |g| | | |], o, i; try done; cbn in *; subst; try tauto;
    try (by destruct (proj1 Hb)); try (by destruct (proj2 Hb));
    try (unfold Thr.start_wait, Latch.getCount; cbn; rewrite Hla; cbn;
         rewrite ?(proj2 (Z.ltb_lt 0 td) (Ht eq_refl)); cbn).
  all: intros Hr; try done.
  all: injection Hr as <-; eexists; split; [reflexivity|]; split;
    [|intros Hns; try done; unfold to_go; cbn; lia].
  all: split; cbn; rewrite ?Hla; try done; try lia; try tauto;
    first [discriminate (proj2 Hb eq_refl) | by destruct Ho].
Qed.

Lemma io_reachable_inv t s :
  Thr.started_ t = false → Thr.joined_ t = false → Thr.latch_ t = Latch.newLatch 1 →
  rtc step (newIo t) s → inv s.
Proof.
  intros H1 H2 H3. apply rtc_invariant; [|by apply new_io_inv]. intros a b Ha [e He Hx].
  destruct (io_step_spec e a _ Ha He Hx) as (b' & [= <-] & Hb & _). done.
Qed.

(** While startLoop has not returned some thread can go on, other than by a spurious wakeup. *)
Lemma io_progress s :
  inv s → (∀ l, owner s ≠ Returned l) → ∃ e r, allowed e ∧ e ≠ Spurious ∧ next e s = Some r.
Proof.
  intros [Hl [Hi Hq] Hla Ht [Hs Hj] Hb Ho Hc Hw Hk] Hn. destruct s as [t l [ws wk] x o i k q]. cbn in *.
  destruct o; try done.
  - exists (StartLoop true). rewrite (proj2 Hb eq_refl). by eexists.
  - destruct i; try done; [discriminate (proj1 Hb eq_refl)|by exists (TidSet 1); eexists|..];
      exists LatchPassed; unfold next, Thr.start_wait, Latch.getCount; rewrite Hla; by eexists.
  - exists Test. by eexists.
  - destruct i; try done; [by exists Callback; eexists|by exists Publish; eexists|].
    destruct ws as [|[] ws]; [|by specialize (Hw ltac:(done)); subst].
    exists Resume. destruct wk as [|[] [|]]; try done. by eexists.
  - exists ReadLoop. by eexists.
  - by destruct (Hn loop).
Qed.

(** ** Theorems *)

(** C34: startLoop returns the loop of a thread that is up, when pthread_create succeeds and
    nobody quits the loop before startLoop has returned. However the two threads interleave
    and whatever spurious wakeups the condition variable delivers, no assertion fails;
    until startLoop has returned some thread can make a step, and every step but a spurious
    wakeup brings the return closer; when it has returned, it has returned a non-NULL loop,
    callback_ has run once, the thread is in its loop, and ~EventLoopThread can join it. *)
Theorem startLoop_returns (n : list byte) (created created' : Z) (t : Thr.Thread) (s : iothread)
    (Hnew : Thr.newThread n created = Ok (t, created')) (Hreach : rtc step (newIo t) s) :
  (∀ e r, allowed e → next e s = Some r → is_ok r = true) ∧
  (∀ e s', allowed e → e ≠ Spurious → next e s = Some (Ok s') → (to_go s' < to_go s)%nat) ∧
  ((∃ e r, allowed e ∧ e ≠ Spurious ∧ next e s = Some r) ∨
   (owner s = Returned true ∧ io s = Looping ∧ calls s = 1%nat ∧ is_ok (io_destructor s) = true)).
Proof.
  assert (inv s) as Hinv.
  { unfold Thr.newThread in Hnew. apply bind_Ok in Hnew as ([nm cr] & _ & [= <- _]).
    by eapply io_reachable_inv; [| | |exact Hreach]. }
  split_and!.
  - intros e r Ha Hr. by destruct (io_step_spec e s r Hinv Ha Hr) as (s' & -> & _).
  - intros e s' Ha Hs Hr. destruct (io_step_spec e s _ Hinv Ha Hr) as (s1 & [= <-] & _ & Hm). auto.
  - destruct (decide (∃ l, owner s = Returned l)) as [[l Hl]|Hn].
    + right. destruct Hinv as [Hlp _ _ _ [Hs Hj] _ Ho _ _ Hk]. rewrite Hl in *. destruct Ho as [-> Hi].
      rewrite Hi in *. split_and!; try done. destruct s as [t' l' c x o i k q]. cbn in *. subst.
      unfold Thr.join. by rewrite Hs, Hj.
    + left. apply io_progress; [done|]. intros l Hl. by destruct Hn; exists l.
Qed.


Definition demo_thread : Thr.Thread := Thr.mkThr false false 0 [x69; x6f] (Latch.newLatch 1) false.
Definition demo_after (es : list event) : iothread :=
  foldl (λ s e, match next e s with Some (Ok s') => s' | _ => s end) (newIo demo_thread) es.
Lemma demo_after_reachable es :
  Forall allowed es → (∀ i, is_Some (es !! i) → ∃ s' e, es !! i = Some e ∧ next e (demo_after (take i es)) = Some (Ok s')) →
  rtc step (newIo demo_thread) (demo_after es).
Proof.
  induction es as [|e es IH] using rev_ind; intros Ha Hs; [apply rtc_refl|].
  apply Forall_app in Ha as [Ha He]. eapply rtc_r.
  - apply IH; [done|]. intros i Hi. pose proof (lookup_lt_is_Some_1 _ _ Hi).
    destruct (Hs i) as (s' & e' & He' & Hn); [rewrite lookup_app_l by done; done|].
    rewrite lookup_app_l in He' by done. rewrite take_app_le in Hn by lia. eauto.
  - destruct (Hs (length es)) as (s' & e' & He' & Hn); [rewrite lookup_app_r, Nat.sub_diag by lia; by eexists|].
    rewrite lookup_app_r, Nat.sub_diag in He' by lia. injection He' as <-. rewrite take_app_length in Hn.
    exists e; [by inversion He|]. unfold demo_after at 2. rewrite foldl_app. cbn. fold (demo_after es). by rewrite Hn.
Qed.

(** The owner waits before the thread has published its loop. *)
Definition demo_events : list event :=
  [StartLoop true; TidSet 7; LatchPassed; Test; Spurious; Resume; Test; Callback; Publish; Resume; Test; ReadLoop].
Lemma startLoop_returns_witness :
  owner (demo_after demo_events) = Returned true ∧ calls (demo_after demo_events) = 1%nat.
Proof.
  destruct (startLoop_returns [x69; x6f] 0 1 demo_thread (demo_after demo_events)) as (_ & _ & Hor).
  - by vm_compute.
  - apply demo_after_reachable; [by repeat constructor|].
    intros i Hi. apply lookup_lt_is_Some_1 in Hi. cbn in Hi.
    do 12 (destruct i as [|i]; [do 2 eexists; split; [reflexivity|vm_compute; reflexivity]|]). lia.
  - destruct Hor as [(e & r & _ & He & Hn)|(H1 & _ & H2 & _)]; [|done].
    by destruct e; vm_compute in Hn.
Defined.

(** A failed pthread_create hangs startLoop. Thread::start only resets started_ and returns
    (its LOG_SYSFATAL is commented out), so no thread will ever set loop_, and the owner is at
    its test or in its wait in every state reached from then on. *)
Theorem failed_create_hangs (n : list byte) (created created' : Z) (t : Thr.Thread) (s s' : iothread)
    (Hnew : Thr.newThread n created = Ok (t, created')) (Hstart : next (StartLoop false) (newIo t) = Some (Ok s))
    (Hreach : rtc (λ a b, ∃ e, next e a = Some (Ok b)) s s') :
  (owner s' = Testing ∨ owner s' = Waiting) ∧ loop_ s' = false.
Proof.
  assert ((owner s' = Testing ∨ owner s' = Waiting) ∧ loop_ s' = false ∧ io s' = NotBorn) as (? & ? & _); [|done].
  revert Hreach. apply (rtc_invariant _ (λ s, (owner s = Testing ∨ owner s = Waiting) ∧ loop_ s = false ∧ io s = NotBorn)).
  - intros a b (Ho & Hl & Hi) [e He]. destruct a as [t' l c x o i k q]. cbn in *. subst.
    destruct Ho; subst; destruct e; try done; cbn in He.
    + injection He as <-. cbn. auto.
    + destruct (resume 0 c) as [[[] c']|]; [|done]. injection He as <-. cbn. auto.
    + injection He as <-. cbn. auto.
  - cbn in Hstart. injection Hstart as Hstart. apply bind_Ok in Hstart as (? & _ & Hstart).
    apply bind_Ok in Hstart as (? & _ & [= <-]). cbn. auto.
Qed.

Lemma failed_create_hangs_witness :
  owner (mkIo demo_thread false (wait tt newCond) false Waiting NotBorn 0 false) = Waiting.
Proof.
  pose (s0 := mkIo demo_thread false newCond false Testing NotBorn 0 false).
  pose (s1 := mkIo demo_thread false (wait tt newCond) false Waiting NotBorn 0 false).
  assert (rtc (λ a b, ∃ e, next e a = Some (Ok b)) s0 s1) as Hr by (apply rtc_once; by exists Test).
  destruct (failed_create_hangs [x69; x6f] 0 1 demo_thread s0 s1) as [[H|H] _]; [by vm_compute..|exact Hr|done|exact H].
Defined.
End IoT.
