(* ===== verification/ThreadEnd.v ===== *)
(** * How threads end (base/thread.cc, base/thread_pool.cc)

    What a thread function does when it returns or throws: the catch clauses of
    ThreadPool::runInThread inside those of ThreadData::runInThread, the handler of fork, and
    the pool's destructor. Code is a function of the thread's [world] that ends normally, with
    an exception, or by abort(). *)

From S2P Require Import Prelude Sync ThreadPool Format IoThread.

Module ThreadEnd.

Inductive exn :=
  | EException           (* ccnet::Exception *)
  | EStd                 (* another std::exception *)
  | EOther.
Inductive outcome := Normal | Throws (e : exn) | Aborts.

Record world := mkWorld {
  t_threadName : list byte;
  complaints : nat;                  (* blocks of lines written to stderr *)
  ran : list nat;                    (* the tasks that were begun *)
  data_deleted : bool                (* delete data in startThread *)
}.
Definition code := world → outcome * world.

Definition seq (a b : code) : code := λ w, match a w with (Normal, w) => b w | r => r end.
Definition skip : code := λ w, (Normal, w).
Definition with_name (n : list byte) (w : world) : world := mkWorld n (complaints w) (ran w) (data_deleted w).
Definition set_name (n : list byte) : code := λ w, (Normal, with_name n w).
Definition complain (w : world) : world := mkWorld (t_threadName w) (S (complaints w)) (ran w) (data_deleted w).
(** try: Exception derives from std::exception, so the first clause that fits is taken. *)
Definition try_ (body : code) (handler : exn → code) : code :=
  λ w, match body w with (Throws e, w) => handler e w | r => r end.

(** "finished", "crashed", "ccnetThread", "main" *)
Definition finished : list byte := [x66; x69; x6e; x69; x73; x68; x65; x64].
Definition crashed : list byte := [x63; x72; x61; x73; x68; x65; x64].
Definition ccnetThread : list byte := [x63; x63; x6e; x65; x74; x54; x68; x72; x65; x61; x64].
Definition main_name : list byte := [x6d; x61; x69; x6e].

(** ThreadPool::runInThread; [tasks]: what take() gives this worker until running_ is false,
    None for an empty function. *)
Definition pool_handler (e : exn) : code := λ w,
  match e with
  | EException | EStd => (Aborts, complain w)
  | EOther => (Throws EOther, complain w)          (* throw; *)
  end.
Fixpoint pool_loop (tasks : list (option code)) : code :=
  match tasks with
  | [] => skip
  | t :: tasks => seq (match t with Some task => task | None => skip end) (pool_loop tasks)
  end.
Definition pool_runInThread (threadInitCallback : option code) (tasks : list (option code)) : code :=
  try_ (seq (match threadInitCallback with Some cb => cb | None => skip end) (pool_loop tasks)) pool_handler.

(** ThreadData::runInThread from the call of func_ on *)
Definition thread_handler (e : exn) : code := λ w,
  let w := complain (with_name crashed w) in
  match e with EException | EStd => (Aborts, w) | EOther => (Throws EOther, w) end.
Definition thread_run (name : list byte) (func : code) : code :=
  seq (set_name (if bool_decide (name = []) then ccnetThread else name))
      (try_ (seq func (set_name finished)) thread_handler).

Definition startThread (name : list byte) (func : code) : code :=
  seq (thread_run name func) (λ w, (Normal, mkWorld (t_threadName w) (complaints w) (ran w) true)).

(** afterFork, in the child *)
Definition afterFork (gettid : Z) (t : Format.thread) (w : world) : Format.thread * world :=
  ((Format.tid gettid (Format.mkThread 0 (Format.t_tidString t))).2, with_name main_name w).

Definition pool_destructor {Task} (p : Pool.ThreadPool Task) : Pool.ThreadPool Task :=
  if Pool.running_ p then Pool.stop p else p.

(** ** Lemmas *)
(** Task number [i], which returns or throws. *)
Definition task (i : nat) (e : option exn) : code := λ w,
  (match e with None => Normal | Some e => Throws e end,
   mkWorld (t_threadName w) (complaints w) (ran w ++ [i]) (data_deleted w)).
Definition tasks_from (i : nat) (es : list (option exn)) : list (option code) :=
  imap (λ k e, Some (task (i + k) e)) es.

(** The tasks that are begun, and how the loop ends. *)
Fixpoint begun (es : list (option exn)) : nat :=
  match es with [] => 0 | None :: es => S (begun es) | Some _ :: _ => 1 end.
Fixpoint first_throw (es : list (option exn)) : option exn :=
  match es with [] => None | None :: es => first_throw es | Some e :: _ => Some e end.

Lemma tasks_from_cons i e es : tasks_from i (e :: es) = Some (task i e) :: tasks_from (S i) es.
Proof.
  unfold tasks_from. rewrite imap_cons, Nat.add_0_r. f_equal. apply imap_ext. intros k x _. cbn. do 2 f_equal. lia.
Qed.

Lemma pool_loop_spec i es w :
  pool_loop (tasks_from i es) w =
    (match first_throw es with None => Normal | Some e => Throws e end,
     mkWorld (t_threadName w) (complaints w) (ran w ++ List.seq i (begun es)) (data_deleted w)).
Proof.
  revert i w. induction es as [|[e|] es IH]; intros i w.
  - cbn. rewrite app_nil_r. by destruct w.
  - by rewrite tasks_from_cons.
  - rewrite tasks_from_cons. cbn [pool_loop]. unfold seq at 1, task at 1. rewrite IH. cbn.
    by rewrite <-app_assoc.
Qed.

(** ** Theorems *)

(** An exception never goes unnoticed. A pool worker whose tasks all return runs them all
    in order and ends with its name set to finished and its start data freed. If a task
    throws, the tasks after it are not begun and the thread does not end normally: for a
    std::exception the pool's handler aborts the process; anything else passes both
    handlers, each of which reports it, and leaves the thread function, so that the
    process is terminated, with the thread marked as crashed. *)
Theorem pool_thread_ends (name : list byte) (es : list (option exn)) (w : world) :
  startThread name (pool_runInThread None (tasks_from 0 es)) w =
    let shown := if bool_decide (name = []) then ccnetThread else name in
    let done := ran w ++ List.seq 0 (begun es) in
    match first_throw es with
    | None => (Normal, mkWorld finished (complaints w) done true)
    | Some EOther => (Throws EOther, mkWorld crashed (2 + complaints w) done (data_deleted w))
    | Some _ => (Aborts, mkWorld shown (S (complaints w)) done (data_deleted w))
    end.
Proof.
  unfold startThread, thread_run, pool_runInThread, try_, seq, skip, set_name. rewrite pool_loop_spec.
  destruct (first_throw es) as [[]|]; done.
Qed.

Lemma begun_all es : first_throw es = None ↔ Forall (λ e, e = None) es.
Proof.
  induction es as [|[e|] es IH]; cbn; [done|split; [done|by intros []%Forall_cons]|].
  rewrite IH, Forall_cons. naive_solver.
Qed.

(** The process goes on exactly if every task returned. *)
Theorem pool_thread_survives (name : list byte) (es : list (option exn)) (w : world) :
  (startThread name (pool_runInThread None (tasks_from 0 es)) w).1 = Normal ↔ Forall (λ e, e = None) es.
Proof. rewrite pool_thread_ends, <-begun_all. cbn. destruct (first_throw es) as [[]|]; cbn; naive_solver. Qed.

(** After fork the child reports its own thread id, whatever was cached. *)
Theorem fork_refreshes_tid (gettid : Z) (t : Format.thread) (w : world) (Hg : 0 < gettid) :
  (Format.tid gettid (afterFork gettid t w).1).1 = gettid ∧ t_threadName (afterFork gettid t w).2 = main_name.
Proof.
  unfold afterFork, Format.tid, Format.cacheTid. cbn. split; [|done]. by destruct (gettid =? 0) eqn:E.
Qed.

(** ~ThreadPool stops a running pool and does nothing to a stopped one. *)
Theorem pool_destructor_stops {Task} (p : Pool.ThreadPool Task) :
  Pool.running_ (pool_destructor p) = false ∧ pool_destructor (pool_destructor p) = pool_destructor p ∧
  pool_destructor (Pool.stop p) = Pool.stop p.
Proof. unfold pool_destructor. by destruct (Pool.running_ p) eqn:E; rewrite ?E. Qed.

(** ** Witness *)
Lemma fork_refreshes_tid_witness :
  (Format.tid 7 (afterFork 7 (Format.mkThread 5 []) (mkWorld [] 0 [] false)).1).1 = 7 ∧
  t_threadName (afterFork 7 (Format.mkThread 5 []) (mkWorld [] 0 [] false)).2 = main_name.
Proof. by apply fork_refreshes_tid. Defined.
End ThreadEnd.
