(* ===== verification/LoopPool.v ===== *)
(** * EventLoopThreadPool (net/event_loop_threadPool.h, net/event_loop_threadPool.cc)

    The io loops of a server. Loops are named by their addresses; what startLoop() returned
    for the i-th thread is an argument of [start]. [inits] records the loops on which the
    thread-init callback ran. *)

From S2P Require Import Prelude LogStream Format.

Module LoopPool.

Record EventLoopThreadPool := mkPool {
  baseLoop_ : Z;
  name_ : list byte;
  started_ : bool;
  numThreads_ : Z;
  next_ : Z;
  threads_ : list (list byte);     (* the names of the threads *)
  loops_ : list Z;
  inits : list Z
}.

Definition newPool (baseLoop : Z) (nameArg : list byte) : EventLoopThreadPool :=
  mkPool baseLoop nameArg false 0 0 [] [] [].
Definition setThreadNum (n : Z) (p : EventLoopThreadPool) : EventLoopThreadPool :=
  mkPool (baseLoop_ p) (name_ p) (started_ p) n (next_ p) (threads_ p) (loops_ p) (inits p).

(** One turn of start()'s loop. *)
Definition start_thread (cb : bool) (startLoop : Z → Z) (i : Z) (p : EventLoopThreadPool) : EventLoopThreadPool :=
  let buf := Format.snprintf (zlen (name_ p) + 32) (name_ p ++ Format.fmt_d 0 i) in
  mkPool (baseLoop_ p) (name_ p) (started_ p) (numThreads_ p) (next_ p) (threads_ p ++ [buf])
    (loops_ p ++ [startLoop i]) (if cb then inits p ++ [startLoop i] else inits p).

(** [cb]: a thread-init callback is given. *)
Definition start (cb : bool) (startLoop : Z → Z) (p : EventLoopThreadPool) : res EventLoopThreadPool :=
  _ ← assert_ (negb (started_ p));
  let p := mkPool (baseLoop_ p) (name_ p) true (numThreads_ p) (next_ p) (threads_ p) (loops_ p) (inits p) in
  let p := foldl (λ p i, start_thread cb startLoop i p) p (seqZ 0 (numThreads_ p)) in
  Ok (if (numThreads_ p =? 0) && cb
      then mkPool (baseLoop_ p) (name_ p) (started_ p) (numThreads_ p) (next_ p) (threads_ p) (loops_ p)
             (inits p ++ [baseLoop_ p])
      else p).

Definition with_next (n : Z) (p : EventLoopThreadPool) : EventLoopThreadPool :=
  mkPool (baseLoop_ p) (name_ p) (started_ p) (numThreads_ p) n (threads_ p) (loops_ p) (inits p).

(** std::vector's operator[]: out of range is undefined. *)
Definition at_ (v : list Z) (i : Z) : res Z :=
  if 0 <=? i then match v !! Z.to_nat i with Some x => Ok x | None => Err OutOfBounds end
  else Err OutOfBounds.

Definition getNextLoop (p : EventLoopThreadPool) : res (Z * EventLoopThreadPool) :=
  _ ← assert_ (started_ p);
  if bool_decide (loops_ p = []) then Ok (baseLoop_ p, p)
  else
    loop ← at_ (loops_ p) (next_ p);
    next ← checked 32 [] (next_ p + 1);
    let next := if zlen (loops_ p) <=? next then 0 else next in
    Ok (loop, with_next next p).

Definition getLoopForHash (hashCode : Z) (p : EventLoopThreadPool) : res Z :=
  if bool_decide (loops_ p = []) then Ok (baseLoop_ p)
  else at_ (loops_ p) (hashCode mod zlen (loops_ p)).

Definition getAllLoops (p : EventLoopThreadPool) : res (list Z) :=
  _ ← assert_ (started_ p);
  Ok (if bool_decide (loops_ p = []) then [baseLoop_ p] else loops_ p).

(** ** Round robin *)

(** The pool as its clients see it: the loops that do io, the next one of which is at [k]. *)
Definition all_loops (p : EventLoopThreadPool) : list Z :=
  if bool_decide (loops_ p = []) then [baseLoop_ p] else loops_ p.
Definition ready (p : EventLoopThreadPool) : Prop :=
  started_ p = true ∧ 0 ≤ next_ p < zlen (all_loops p) ∧ zlen (loops_ p) < 2 ^ 31.

Lemma at_lookup v i x : v !! i = Some x → at_ v (Z.of_nat i) = Ok x.
Proof. intros H. unfold at_. rewrite (proj2 (Z.leb_le 0 _)) by lia. by rewrite Nat2Z.id, H. Qed.

Lemma all_loops_nonempty p : all_loops p ≠ [].
Proof. unfold all_loops. by case_bool_decide. Qed.

Lemma start_threads cb startLoop n p :
  let p' := foldl (λ p i, start_thread cb startLoop i p) p (seqZ 0 (Z.of_nat n)) in
  loops_ p' = loops_ p ++ (startLoop <$> seqZ 0 (Z.of_nat n)) ∧
  inits p' = inits p ++ (if cb then startLoop <$> seqZ 0 (Z.of_nat n) else []) ∧
  length (threads_ p') = (length (threads_ p) + n)%nat ∧
  baseLoop_ p' = baseLoop_ p ∧ started_ p' = started_ p ∧ next_ p' = next_ p ∧ numThreads_ p' = numThreads_ p.
Proof.
  induction n as [|n IH].
  - cbn. rewrite !app_nil_r, Nat.add_0_r. by destruct cb; rewrite ?app_nil_r.
  - rewrite Nat2Z.inj_succ, <-Z.add_1_r, seqZ_app, foldl_app by lia. cbn [foldl].
    replace (seqZ (0 + Z.of_nat n) 1) with [Z.of_nat n] by done. cbn [foldl].
    destruct IH as (H1 & H2 & H3 & H4 & H5 & H6 & H7). cbn.
    rewrite fmap_app, H1, H2, length_app, H3. cbn.
    split_and!; try done; [by rewrite app_assoc| |lia].
    destruct cb; [by rewrite app_assoc|done].
Qed.

(** getNextLoop returns the loop whose turn it is and passes the turn on. *)
Lemma getNextLoop_spec p :
  ready p → ∃ l, all_loops p !! Z.to_nat (next_ p) = Some l ∧
    getNextLoop p = Ok (l, with_next ((next_ p + 1) mod zlen (all_loops p)) p) ∧
    ready (with_next ((next_ p + 1) mod zlen (all_loops p)) p).
Proof.
  intros (Hs & Hn & Hl). unfold ready, getNextLoop. rewrite Hs. cbn [assert_ mbind res_bind].
  pose proof (all_loops_nonempty p) as Hne. unfold all_loops in *. cbn [loops_ with_next baseLoop_ started_ next_].
  case_bool_decide as Hb.
  - cbn in Hn. assert (next_ p = 0) as E by lia. exists (baseLoop_ p). rewrite E. cbn [length].
    change ((0 + 1) mod Z.of_nat 1) with 0. split; [done|]. split; [|by rewrite Hb].
    destruct p. cbn in *. by subst.
  - destruct (lookup_lt_is_Some_2 (loops_ p) (Z.to_nat (next_ p))) as [l Hlk]; [lia|].
    exists l. split; [done|]. rewrite <-(Z2Nat.id (next_ p)) at 1 by lia. rewrite (at_lookup _ _ _ Hlk).
    cbn [mbind res_bind]. rewrite checked_ok by (repeat constructor; unfold in_s; cbn; lia).
    cbn [mbind res_bind].
    assert ((if zlen (loops_ p) <=? next_ p + 1 then 0 else next_ p + 1) = (next_ p + 1) mod zlen (loops_ p)) as ->.
    { destruct (Z.leb_spec (zlen (loops_ p)) (next_ p + 1)).
      - replace (next_ p + 1) with (zlen (loops_ p)) by lia. rewrite Z.mod_same by lia. done.
      - rewrite Z.mod_small by lia. done. }
    split; [done|]. split; [done|]. split; [|done]. apply Z.mod_pos_bound. lia.
Qed.

(** The loops given to [k] connections in a row. *)
Fixpoint assign (k : nat) (p : EventLoopThreadPool) : res (list Z * EventLoopThreadPool) :=
  match k with
  | O => Ok ([], p)
  | S k => '(l, p) ← getNextLoop p; '(ls, p) ← assign k p; Ok (l :: ls, p)
  end.

(** [k] elements of [v] in cyclic order from index [i]. *)
Definition cyclic (v : list Z) (i : Z) (k : nat) : list Z :=
  (λ j, v !!! Z.to_nat ((i + j) mod zlen v)) <$> seqZ 0 (Z.of_nat k).

Lemma assign_spec k p :
  ready p → ∃ p', assign k p = Ok (cyclic (all_loops p) (next_ p) k, p') ∧ ready p' ∧
    all_loops p' = all_loops p ∧ next_ p' = (next_ p + Z.of_nat k) mod zlen (all_loops p).
Proof.
  revert p. induction k as [|k IH]; intros p Hp.
  - exists p. split; [done|]. split; [done|]. split; [done|].
    destruct Hp as (_ & Hn & _). rewrite Z.add_0_r, Z.mod_small by done. done.
  - destruct (getNextLoop_spec p Hp) as (l & Hl & Hg & Hr). cbn [assign]. rewrite Hg. cbn [mbind res_bind].
    set (p1 := with_next _ p) in *. destruct (IH p1 Hr) as (p' & -> & Hr' & Ha & Hn'). cbn [mbind res_bind].
    assert (all_loops p1 = all_loops p) as Ha1 by done. destruct Hp as (_ & Hn & _).
    exists p'. split; [|split; [done|]; split; [congruence|]].
    + do 2 f_equal. unfold cyclic. rewrite Nat2Z.inj_succ, (seqZ_cons 0 (Z.succ (Z.of_nat k))) by lia.
      rewrite Z.pred_succ. cbn [fmap list_fmap]. f_equal.
      * rewrite Z.add_0_r, Z.mod_small by done. symmetry. by apply list_lookup_total_correct.
      * change (Z.succ 0) with (1 + 0). rewrite <-fmap_add_seqZ, <-list_fmap_compose. rewrite Ha1.
        apply list_fmap_ext. intros i j _. cbn. unfold p1. cbn. f_equal. f_equal.
        rewrite Zplus_mod_idemp_l. f_equal. lia.
    + rewrite Hn', Ha1. unfold p1. cbn. rewrite Zplus_mod_idemp_l. f_equal. lia.
Qed.

Lemma div_mod_succ k n : 0 < n →
  (k + 1) / n = k / n + (if k mod n + 1 <? n then 0 else 1) ∧
  (k + 1) mod n = (if k mod n + 1 <? n then k mod n + 1 else 0).
Proof.
  intros Hn. pose proof (Z.div_mod k n ltac:(lia)). pose proof (Z.mod_pos_bound k n Hn).
  destruct (Z.ltb_spec (k mod n + 1) n).
  - split; symmetry; [apply (Z.div_unique_pos _ _ _ (k mod n + 1))|apply (Z.mod_unique_pos _ _ (k / n))]; lia.
  - split; symmetry; [apply (Z.div_unique_pos _ _ _ 0)|apply (Z.mod_unique_pos _ _ (k / n + 1))]; lia.
Qed.

(** How often the element at index [i] is among [k] elements in cyclic order from the start. *)
Lemma cyclic_count v (i k : nat) x :
  NoDup v → v !! i = Some x →
  Z.of_nat (count_occ Z.eq_dec (cyclic v 0 k) x) =
    Z.of_nat k / zlen v + (if Z.of_nat i <? Z.of_nat k mod zlen v then 1 else 0).
Proof.
  intros Hnd Hx. pose proof (lookup_lt_Some _ _ _ Hx) as Hi. induction k as [|k IH].
  - cbn. rewrite Z.div_0_l, Z.mod_0_l by lia. by destruct (Z.ltb_spec (Z.of_nat i) 0); [lia|].
  - unfold cyclic. rewrite Nat2Z.inj_succ, <-Z.add_1_r, seqZ_app, fmap_app, count_occ_app by lia.
    fold (cyclic v 0 k). rewrite Nat2Z.inj_add, IH. replace (seqZ (0 + Z.of_nat k) 1) with [Z.of_nat k] by done.
    cbn [fmap list_fmap count_occ]. rewrite Z.add_0_l.
    pose proof (Z.mod_pos_bound (Z.of_nat k) (zlen v) ltac:(lia)) as Hr.
    destruct (lookup_lt_is_Some_2 v (Z.to_nat (Z.of_nat k mod zlen v))) as [y Hy]; [lia|].
    rewrite (list_lookup_total_correct _ _ _ Hy).
    assert (y = x ↔ Z.of_nat k mod zlen v = Z.of_nat i) as Hyx.
    { split.
      - intros ->. pose proof (NoDup_lookup _ _ _ _ Hnd Hy Hx). lia.
      - intros E. rewrite E, Nat2Z.id in Hy. congruence. }
    destruct (Z.eq_dec y x) as [E|E]; rewrite Hyx in E; cbn [Z.of_nat]; clear Hyx Hy IH;
      destruct (div_mod_succ (Z.of_nat k) (zlen v)) as [-> ->]; [lia| |lia|];
      repeat match goal with |- context [?a <? ?b] => destruct (Z.ltb_spec a b) end; lia.
Qed.

(** ** Theorem *)

(** Connections are spread evenly. After start() a pool of [n] threads (the base loop
    itself when [n] is 0) gives successive connections its loops in cyclic order, without
    running out of range, so that after any number of connections no loop has had more than
    one connection more than another; getLoopForHash is a function of the hash into the same
    loops, and the init callback has run once on each of them. *)
Theorem round_robin (base n : Z) (name : list byte) (cb : bool) (startLoop : Z → Z)
    (p : EventLoopThreadPool) (k : nat) (h : Z)
    (Hn : 0 ≤ n < 2 ^ 31) (Hnd : NoDup (startLoop <$> seqZ 0 n)) (Hh : 0 ≤ h)
    (Hstart : start cb startLoop (setThreadNum n (newPool base name)) = Ok p) :
  let loops := if n =? 0 then [base] else startLoop <$> seqZ 0 n in
  getAllLoops p = Ok loops ∧ inits p = (if cb then loops else []) ∧ zlen (threads_ p) = n ∧
  (∃ p', assign k p = Ok (cyclic loops 0 k, p')) ∧
  (∀ x y, x ∈ loops → y ∈ loops →
     (count_occ Z.eq_dec (cyclic loops 0 k) x ≤ count_occ Z.eq_dec (cyclic loops 0 k) y + 1)%nat) ∧
  (∃ l, getLoopForHash h p = Ok l ∧ l ∈ loops).
Proof.
  intros loops. unfold start, setThreadNum, newPool in Hstart. cbn -[seqZ foldl] in Hstart.
  injection Hstart as Hp. destruct (start_threads cb startLoop (Z.to_nat n) (mkPool base name true n 0 [] [] []))
    as (H1 & H2 & H3 & H4 & H5 & H6 & H7). rewrite Z2Nat.id in * by lia.
  set (p0 := foldl _ _ _) in *. cbn in H1, H2, H3, H4, H5, H6, H7.
  assert (loops_ p = startLoop <$> seqZ 0 n) as Hl by (rewrite <-Hp; by destruct (_ && _)).
  assert (all_loops p = loops) as Hal.
  { unfold all_loops, loops. rewrite Hl. destruct (Z.eqb_spec n 0) as [->|Hn0].
    - cbn. rewrite <-Hp. by destruct (_ && _).
    - rewrite bool_decide_false; [done|]. intros E%(f_equal length). rewrite length_fmap, length_seqZ in E. cbn in E. lia. }
  assert (started_ p = true) as Hs by (rewrite <-Hp; by destruct (_ && _)).
  assert (next_ p = 0) as Hx by (rewrite <-Hp; by destruct (_ && _)).
  assert (NoDup loops) as Hnd'.
  { unfold loops. destruct (n =? 0); [apply NoDup_singleton|done]. }
  assert (ready p) as Hr.
  { split; [done|]. rewrite Hl, length_fmap, length_seqZ, Z2Nat.id, Hx by lia. split; [|lia].
    pose proof (all_loops_nonempty p). destruct (all_loops p); cbn [length]; [done|lia]. }
  split_and!.
  - unfold getAllLoops. rewrite Hs. cbn. by rewrite <-Hal.
  - unfold loops. rewrite <-Hp. rewrite H7. destruct (Z.eqb_spec n 0) as [->|]; destruct cb; cbn -[seqZ] in *; try done.
    all: by rewrite H2, ?H4.
  - rewrite <-Hp. destruct (_ && _); cbn; rewrite H3; lia.
  - destruct (assign_spec k p Hr) as (p' & Ha & _). rewrite Hal, Hx in Ha. by exists p'.
  - intros x y [i Hi]%list_elem_of_lookup [j Hj]%list_elem_of_lookup.
    pose proof (cyclic_count loops i k x Hnd' Hi). pose proof (cyclic_count loops j k y Hnd' Hj).
    repeat match goal with H : context [?a <? ?b] |- _ => destruct (Z.ltb_spec a b) end; lia.
  - unfold getLoopForHash. rewrite <-Hal. unfold all_loops. case_bool_decide as Hb; [by eexists; split; [|left]|].
    assert (0 < zlen (loops_ p)) as Hpos by (destruct (loops_ p); cbn; [done|lia]).
    pose proof (Z.mod_pos_bound h (zlen (loops_ p)) Hpos).
    destruct (lookup_lt_is_Some_2 (loops_ p) (Z.to_nat (h mod zlen (loops_ p)))) as [l Hlk]; [lia|].
    exists l. split; [|by eapply list_elem_of_lookup_2]. rewrite <-(Z2Nat.id (h mod zlen (loops_ p))) by lia.
    by apply at_lookup.
Qed.

Definition demo_pool : EventLoopThreadPool :=
  match start true (λ i, 100 + i) (setThreadNum 3 (newPool 1 [x73])) with Ok p => p | Err _ => newPool 1 [] end.
Lemma round_robin_witness :
  getAllLoops demo_pool = Ok [100; 101; 102] ∧ threads_ demo_pool = [[x73; x30]; [x73; x31]; [x73; x32]] ∧
  ∃ p', assign 4 demo_pool = Ok ([100; 101; 102; 100], p').
Proof.
  destruct (round_robin 1 3 [x73] true (λ i, 100 + i) demo_pool 4 7) as (H1 & _ & _ & H2 & _);
    [done| |done|by vm_compute|].
  - apply NoDup_fmap_2; [intros ???; lia|apply NoDup_seqZ].
  - split; [exact H1|]. split; [by vm_compute|exact H2].
Defined.
End LoopPool.
