(* ===== verification/Inet.v ===== *)
(** * InetAddress and the address functions of sockets (net/inet_address.h,
    net/inet_address.cc, net/sockets_ops.cc)

    A sockaddr_in holds its port and address in network byte order, as integers of the host;
    [host] is the host's byte order. inet_ntop and inet_pton are those of the C library for
    AF_INET: dotted decimal, four numbers up to 255 without leading zeros. The kernel's
    answers to getsockname, getpeername and gethostbyname_r are arguments. *)

From S2P Require Import Prelude Endian LogStream Format.

Module Inet.

Definition AF_INET : Z := 2.
Definition INADDR_ANY : Z := 0.
Definition INADDR_LOOPBACK : Z := 2130706433.   (* 0x7f000001 *)
Definition INET_ADDRSTRLEN : Z := 16.

Record sockaddr_in := mkAddr { sin_family : Z; sin_port : Z; sin_addr : Z }.
Definition zero_addr : sockaddr_in := mkAddr 0 0 0.   (* bzero *)
#[export] Instance sockaddr_in_eq_dec : EqDecision sockaddr_in.
Proof. solve_decision. Defined.

(** ** inet_ntop and inet_pton *)
Definition dot : byte := x2e.
Definition inet_ntop (a : list byte) : list byte :=
  concat (zip_with app ([] :: replicate 3 [dot]) ((λ b, Format.dec (byte_unsigned b)) <$> a)).

(** [done]: the numbers finished; [cur]: the number being read, if a digit was seen. *)
Fixpoint pton_scan (l : list byte) (done : list Z) (cur : option Z) : option (list Z) :=
  match l with
  | [] =>
      match cur with
      | Some v => if (length done =? 3)%nat then Some (done ++ [v]) else None
      | None => None
      end
  | ch :: l =>
      match Log.digit_value ch, cur with
      | Some d, None => pton_scan l done (Some d)
      | Some d, Some v => if (v =? 0) || (255 <? v * 10 + d) then None else pton_scan l done (Some (v * 10 + d))
      | None, Some v => if bool_decide (ch = dot) && negb (length done =? 3)%nat
                        then pton_scan l (done ++ [v]) None else None
      | None, None => None
      end
  end.
Definition inet_pton (l : list byte) : option (list byte) :=
  match pton_scan l [] None with Some vs => Some (byte_of_Z <$> vs) | None => None end.

Section Host.
Context (host : endianness).

(** ** sockets:: *)
Definition toIp (size : Z) (addr : sockaddr_in) : res (list byte) :=
  _ ← assert_ (INET_ADDRSTRLEN <=? size);
  Ok (inet_ntop (store host 4 (sin_addr addr))).

Definition colon : byte := x3a.
Definition toIpPort (size : Z) (addr : sockaddr_in) : res (list byte) :=
  buf ← toIp size addr;
  let end_ := zlen buf in
  let port := networkToHost16 host (sin_port addr) in
  _ ← assert_ (end_ <? size);
  Ok (buf ++ Format.snprintf (size - end_) (colon :: Format.dec port)).

Definition fromIpPort (ip : list byte) (port : Z) (addr : sockaddr_in) : sockaddr_in :=
  mkAddr AF_INET (hostToNetwork16 host port)
    (match inet_pton ip with Some a => load host a | None => sin_addr addr end).

(** [r]: what the kernel stored, None when the call failed. *)
Definition getLocalAddr (r : option sockaddr_in) : sockaddr_in := default zero_addr r.
Definition getPeerAddr (r : option sockaddr_in) : sockaddr_in := default zero_addr r.
Definition isSelfConnect (local peer : option sockaddr_in) : bool :=
  let localaddr := getLocalAddr local in
  let peeraddr := getPeerAddr peer in
  (sin_port localaddr =? sin_port peeraddr) && (sin_addr localaddr =? sin_addr peeraddr).

(** [r]: SO_ERROR, or errno when getsockopt failed. *)
Definition getSocketError (r : Z + Z) : Z := match r with inl optval => optval | inr errno => errno end.

(** ** InetAddress *)
Definition InetAddress_port (port : Z) (loopbackOnly : bool) : sockaddr_in :=
  let ip := if loopbackOnly then INADDR_LOOPBACK else INADDR_ANY in
  mkAddr AF_INET (hostToNetwork16 host port) (hostToNetwork32 host ip).
Definition InetAddress_ip (ip : list byte) (port : Z) : sockaddr_in := fromIpPort ip port zero_addr.
Definition InetAddress_addr (addr : sockaddr_in) : sockaddr_in := addr.

Definition family (a : sockaddr_in) : Z := sin_family a.
Definition addr_toIpPort (a : sockaddr_in) : res (list byte) := toIpPort 64 a.
Definition addr_toIp (a : sockaddr_in) : res (list byte) := toIp 64 a.
Definition ipNetEndian (a : sockaddr_in) : res Z := _ ← assert_ (family a =? AF_INET); Ok (sin_addr a).
Definition portNetEndian (a : sockaddr_in) : Z := sin_port a.
Definition toPort (a : sockaddr_in) : Z := networkToHost16 host (portNetEndian a).

(** [r]: the address type, length and first address of gethostbyname_r, None on failure. *)
Definition resolve (r : option (Z * Z * Z)) (out : sockaddr_in) : res (bool * sockaddr_in) :=
  match r with
  | Some (h_addrtype, h_length, h_addr) =>
      _ ← assert_ ((h_addrtype =? AF_INET) && (h_length =? 4));
      Ok (true, mkAddr (sin_family out) (sin_port out) h_addr)
  | None => Ok (false, out)
  end.

(** ** Lemmas *)

(** A number up to 255 is read back from its decimal text. *)
Lemma scan_octet b rest done :
  pton_scan (Format.dec (byte_unsigned b) ++ rest) done None = pton_scan rest done (Some (byte_unsigned b)).
Proof. destruct b; reflexivity. Qed.

Lemma scan_dot rest done v :
  (length done < 3)%nat → pton_scan (dot :: rest) done (Some v) = pton_scan rest (done ++ [v]) None.
Proof.
  intros Hl. cbn [pton_scan]. change (Log.digit_value dot) with (@None Z). cbn iota.
  rewrite (proj2 (Nat.eqb_neq (length done) 3)) by lia. done.
Qed.

Lemma dec_octet_length b : 1 ≤ zlen (Format.dec (byte_unsigned b)) ≤ 3.
Proof. destruct b; vm_compute; split; congruence. Qed.

Lemma pton_ntop a : length a = 4%nat → inet_pton (inet_ntop a) = Some a.
Proof.
  intros Ha. destruct a as [|b1 [|b2 [|b3 [|b4 [|]]]]]; try done. unfold inet_pton, inet_ntop.
  cbn [fmap list_fmap zip_with concat app replicate]. rewrite app_nil_r.
  rewrite scan_octet, scan_dot, scan_octet, scan_dot, scan_octet, scan_dot by (cbn; lia).
  rewrite <-(app_nil_r (Format.dec (byte_unsigned b4))), scan_octet.
  cbn [pton_scan length app Nat.eqb fmap list_fmap].
  by rewrite !byte_of_Z_unsigned.
Qed.

Lemma ntop_length a : length a = 4%nat → 7 ≤ zlen (inet_ntop a) ≤ 15.
Proof.
  intros Ha. destruct a as [|b1 [|b2 [|b3 [|b4 [|]]]]]; try done. unfold inet_ntop.
  cbn [fmap list_fmap zip_with concat app replicate]. rewrite app_nil_r, !length_app. cbn [length].
  rewrite !length_app. cbn [length]. rewrite length_app. cbn [length].
  pose proof (dec_octet_length b1). pose proof (dec_octet_length b2).
  pose proof (dec_octet_length b3). pose proof (dec_octet_length b4). lia.
Qed.

Lemma load_store n z : 0 ≤ z < 256 ^ Z.of_nat n → load host (store host n z) = z.
Proof.
  intros Hz. destruct host; cbn; rewrite ?rev_involutive, le_value_bytes; by apply Z.mod_small.
Qed.

Lemma toPort_range a : 0 ≤ sin_port a < 65536 → 0 ≤ toPort a < 65536.
Proof.
  intros Hp. unfold toPort, portNetEndian, networkToHost16. destruct host; cbn [betoh]; [|done].
  unfold bswap. pose proof (le_value_range (rev (le_bytes 2 (sin_port a)))) as Hr.
  rewrite length_rev, length_le_bytes in Hr. exact Hr.
Qed.

(** The two conversions are inverse the other way round, too. *)
Lemma hton_ntoh p : 0 ≤ p < 65536 → hostToNetwork16 host (networkToHost16 host p) = p.
Proof. intros Hp. unfold hostToNetwork16, networkToHost16. destruct host; [|done]. by apply (betoh_htobe LittleEndian 2). Qed.

(** ** Theorem *)

(** An address as the kernel and the constructors make it. *)
Definition addr_ok (a : sockaddr_in) : Prop :=
  sin_family a = AF_INET ∧ 0 ≤ sin_port a < 65536 ∧ 0 ≤ sin_addr a < 2 ^ 32.

(** C36: addresses survive printing. For every IPv4 endpoint, on hosts of both byte orders,
    toIp prints a dotted-decimal text that fits INET_ADDRSTRLEN, toIpPort the same text, a
    colon and the port in decimal, whole in its 64-byte buffer, and the constructor from that
    text and toPort() gives the same endpoint back. A text that is not an address leaves the
    wildcard address 0.0.0.0. *)
Theorem inet_text_roundtrip (a : sockaddr_in) (ip : list byte) (port : Z)
    (Ha : addr_ok a) (Hp : 0 ≤ port < 65536) :
  (∃ text, addr_toIp a = Ok text ∧ 7 ≤ zlen text < INET_ADDRSTRLEN ∧
           addr_toIpPort a = Ok (text ++ colon :: Format.dec (toPort a)) ∧
           Log.parse_digits 10 Log.digit_value (Format.dec (toPort a)) 0 = Some (toPort a) ∧
           InetAddress_ip text (toPort a) = a) ∧
  toPort (InetAddress_port port false) = port ∧ toPort (InetAddress_ip ip port) = port ∧
  addr_ok (InetAddress_port port true) ∧
  (inet_pton ip = None → InetAddress_ip ip port = InetAddress_port port false).
Proof.
  destruct Ha as (Hf & Hpt & Had).
  assert (∀ f s, toPort (mkAddr f (hostToNetwork16 host port) s) = port) as Htp.
  { intros f s. by apply (betoh_htobe host 2). }
  split_and!; try apply Htp.
  - exists (inet_ntop (store host 4 (sin_addr a))). pose proof (toPort_range a Hpt) as Htr.
    pose proof (ntop_length (store host 4 (sin_addr a)) (length_store _ _ _)) as Hl.
    destruct (Format.dec_spec 5 (toPort a)) as [Hdl Hdp]; [lia|lia|].
    split_and!; try done; try (unfold INET_ADDRSTRLEN; lia).
    + unfold addr_toIpPort, toIpPort, toIp. cbn [INET_ADDRSTRLEN assert_ Z.leb mbind res_bind Z.compare Pos.compare Pos.compare_cont].
      rewrite (proj2 (Z.ltb_lt _ 64)) by lia. cbn [assert_ mbind res_bind]. do 2 f_equal.
      unfold Format.snprintf. rewrite take_ge; [done|]. cbn [length]. fold (toPort a).
      change (networkToHost16 host (sin_port a)) with (toPort a). lia.
    + unfold InetAddress_ip, fromIpPort. rewrite pton_ntop by apply length_store.
      rewrite load_store by done. unfold toPort, portNetEndian. rewrite hton_ntoh by done.
      destruct a. cbn in *. by subst.
  - pose proof (toPort_range (mkAddr 0 port 0) Hp) as Hr. unfold addr_ok, InetAddress_port. cbn [sin_family sin_port sin_addr].
    split; [done|]. split; [unfold toPort, portNetEndian in Hr; by destruct host|]. by destruct host.
  - intros Hn. unfold InetAddress_ip, fromIpPort, InetAddress_port. rewrite Hn. by destruct host.
Qed.
End Host.

Lemma inet_text_roundtrip_witness :
  addr_toIpPort LittleEndian (mkAddr AF_INET 20480 16777343) =
    Ok [x31; x32; x37; x2e; x30; x2e; x30; x2e; x31; x3a; x38; x30] ∧   (* 127.0.0.1:80 *)
  inet_pton [x31; x2e; x32] = None ∧
  InetAddress_ip LittleEndian [x31; x2e; x32] 80 = InetAddress_port LittleEndian 80 false.
Proof.
  destruct (inet_text_roundtrip LittleEndian (mkAddr AF_INET 20480 16777343) [x31; x2e; x32] 80)
    as ((text & H1 & _ & H2 & _) & _ & _ & _ & H3); [by vm_compute|by vm_compute|].
  split; [|split; [by vm_compute|apply H3; by vm_compute]].
  rewrite H2. replace text with (inet_ntop [x7f; x00; x00; x01]); [by vm_compute|].
  injection H1 as <-. by vm_compute.
Defined.
End Inet.
