(* ===== verification/Sockets.v ===== *)
(** * Socket and the socket calls (net/socket.h, socket.cc, sockets_ops.h, sockets_ops.cc)

    The wrappers over the socket system calls. The kernel is the class [SocketKernel]: the
    system calls with their results, and the descriptor table they act on; [SocketLaws] is
    what the manual pages promise of them. A call that fails returns -1 (or its errno, where
    the code looks at it) and leaves the table. *)

From Stdlib Require Import String.
From S2P Require Import Prelude LogStream Format Inet.

Module Sockets.

Definition SOMAXCONN : Z := 128.
Definition IPPROTO_TCP : Z := 6.
Definition TCP_NODELAY : Z := 1.
Definition SOL_SOCKET : Z := 1.
Definition SO_REUSEADDR : Z := 2.
Definition SO_KEEPALIVE : Z := 9.
Definition SO_REUSEPORT : Z := 15.

(** ** The descriptor table *)
Record sock := mkSock {
  nonblocking : bool;                    (* O_NONBLOCK and FD_CLOEXEC are set *)
  local : option Inet.sockaddr_in;
  peer : option Inet.sockaddr_in;
  backlog : option Z;                    (* set when the socket listens *)
  write_shut : bool;
  options : gmap (Z * Z) Z               (* (level, option name) to value *)
}.
Definition new_sock : sock := mkSock true None None None false ∅.

Definition with_local a s := mkSock (nonblocking s) (Some a) (peer s) (backlog s) (write_shut s) (options s).
Definition with_backlog n s := mkSock (nonblocking s) (local s) (peer s) (Some n) (write_shut s) (options s).
Definition with_write_shut s := mkSock (nonblocking s) (local s) (peer s) (backlog s) true (options s).
Definition with_option o v s :=
  mkSock (nonblocking s) (local s) (peer s) (backlog s) (write_shut s) (<[o := v]> (options s)).
Definition accepted_sock a := mkSock true None (Some a) None false ∅.

(** The system calls, with O_NONBLOCK and FD_CLOEXEC requested where the code does. *)
Class SocketKernel (K : Type) := {
  socks : K → gmap Z sock;
  sys_socket : Z → K → Z * K;                              (* the address family *)
  sys_bind : Z → Inet.sockaddr_in → K → Z * K;
  sys_listen : Z → Z → K → Z * K;
  sys_accept4 : Z → K → (Z * Inet.sockaddr_in + Z) * K;    (* inr: errno *)
  sys_shutdown_wr : Z → K → Z * K;
  sys_setsockopt : Z → Z * Z → Z → K → Z * K;
  sys_close : Z → K → Z * K
}.

(** A call on [fd] that succeeds applies [f] to its socket; one that fails changes nothing,
    and on a descriptor that is not open it fails. *)
Definition call_law {K : Type} `{SocketKernel K} (fd : Z) (f : sock → sock) (k : K) (r : Z * K)
    : Prop :=
  (r.1 = 0 ∧ is_Some (socks k !! fd) ∧ socks r.2 = alter f fd (socks k)) ∨
  (r.1 = -1 ∧ socks r.2 = socks k).

(** [local] records the address given to bind, not the port the kernel picks for port 0.
    close(2) is documented to fail on an open descriptor only with EINTR or EIO, which sockets
    do not give without SO_LINGER; these are left out. *)
Class SocketLaws (K : Type) `{SocketKernel K} := {
  socks_nonneg (k : K) fd : is_Some (socks k !! fd) → 0 ≤ fd;
  socket_law (k : K) family :
    let '(fd, k') := sys_socket family k in
    (0 ≤ fd ∧ socks k !! fd = None ∧ socks k' = <[fd := new_sock]> (socks k)) ∨
    (fd = -1 ∧ socks k' = socks k);
  bind_law (k : K) fd a : call_law fd (with_local a) k (sys_bind fd a k);
  listen_law (k : K) fd n : call_law fd (with_backlog n) k (sys_listen fd n k);
  shutdown_law (k : K) fd : call_law fd with_write_shut k (sys_shutdown_wr fd k);
  setsockopt_law (k : K) fd o v : call_law fd (with_option o v) k (sys_setsockopt fd o v k);
  accept4_law (k : K) fd :
    match sys_accept4 fd k with
    | (inl (connfd, a), k') =>
        0 ≤ connfd ∧ socks k !! connfd = None ∧ socks k' = <[connfd := accepted_sock a]> (socks k)
    | (inr _, k') => socks k' = socks k
    end;
  close_law (k : K) fd :
    let '(r, k') := sys_close fd k in
    if decide (is_Some (socks k !! fd)) then r = 0 ∧ socks k' = delete fd (socks k)
    else r = -1 ∧ socks k' = socks k
}.

Section Kernel.
Context {K : Type} `{SocketKernel K}.

(** ** sockets:: *)

(** The fatal message is commented out: -1 is returned. *)
Definition createNonblockingOrDie (family : Z) (k : K) : Z * K := sys_socket family k.

Definition bindOrDie (sockfd : Z) (addr : Inet.sockaddr_in) (k : K) : res K :=
  let '(ret, k) := sys_bind sockfd addr k in
  _ ← assert_ (ret =? 0); Ok k.
Definition listenOrDie (sockfd : Z) (k : K) : res K :=
  let '(ret, k) := sys_listen sockfd SOMAXCONN k in
  _ ← assert_ (ret =? 0); Ok k.

(** The expected errors restore errno; for the others it is left as accept4 set it, the
    fatal messages being commented out: the caller reads it in both cases. The address is
    written only when a connection was accepted. *)
Definition expected_errno (e : Z) : bool :=
  bool_decide (e ∈ [11; 103; 4; 71; 1; 24]).  (* EAGAIN ECONNABORTED EINTR EPROTO EPERM EMFILE *)
Definition accept (sockfd : Z) (addr : Inet.sockaddr_in) (k : K) : Z * Inet.sockaddr_in * Z * K :=
  match sys_accept4 sockfd k with
  | (inl (connfd, a), k) => (connfd, a, 0, k)
  | (inr errno, k) =>
      let savedErrno := errno in
      if expected_errno savedErrno then (-1, addr, savedErrno, k) else (-1, addr, errno, k)
  end.

Definition close (sockfd : Z) (k : K) : res K :=
  let '(ret, k) := sys_close sockfd k in _ ← assert_ (ret =? 0); Ok k.
Definition shutdownWrite (sockfd : Z) (k : K) : K := (sys_shutdown_wr sockfd k).2.

(** connect(2): the kernel reads [addrlen] bytes at the address; [mem] is the memory from
    the sockaddr_in on, as far as it may be read. *)
Definition sizeof_sockaddr_in : Z := 16.
Definition sizeof_sockaddr_in6 : Z := 28.
Definition connect (sys_connect : Z → list byte → K → Z * K) (sockfd : Z) (mem : list byte) (k : K)
    : res (Z * K) :=
  let addrlen := sizeof_sockaddr_in6 in
  if addrlen <=? zlen mem then Ok (sys_connect sockfd (take (Z.to_nat addrlen) mem) k)
  else Err OutOfBounds.

(** ** Socket *)
Record Socket := mkSocket { sockfd_ : Z }.

Definition destructor (s : Socket) (k : K) : res K := close (sockfd_ s) k.
Definition bindAddress (s : Socket) (addr : Inet.sockaddr_in) (k : K) : res K :=
  bindOrDie (sockfd_ s) addr k.
Definition listen (s : Socket) (k : K) : res K := listenOrDie (sockfd_ s) k.

(** The descriptor, *peeraddr afterwards, errno. *)
Definition Socket_accept (s : Socket) (peeraddr : Inet.sockaddr_in) (k : K)
    : Z * Inet.sockaddr_in * Z * K :=
  let addr := Inet.zero_addr in
  let '(connfd, addr, errno, k) := accept (sockfd_ s) addr k in
  let peeraddr := if 0 <=? connfd then addr else peeraddr in
  (connfd, peeraddr, errno, k).

Definition Socket_shutdownWrite (s : Socket) (k : K) : K := shutdownWrite (sockfd_ s) k.

Definition optval (on : bool) : Z := if on then 1 else 0.
Definition setTcpNoDelay (s : Socket) (on : bool) (k : K) : K :=
  (sys_setsockopt (sockfd_ s) (IPPROTO_TCP, TCP_NODELAY) (optval on) k).2.
Definition setReuseAddr (s : Socket) (on : bool) (k : K) : K :=
  (sys_setsockopt (sockfd_ s) (SOL_SOCKET, SO_REUSEADDR) (optval on) k).2.
Definition setReusePort (s : Socket) (on : bool) (k : K) : K :=
  (sys_setsockopt (sockfd_ s) (SOL_SOCKET, SO_REUSEPORT) (optval on) k).2.
Definition setKeepAlive (s : Socket) (on : bool) (k : K) : K :=
  (sys_setsockopt (sockfd_ s) (SOL_SOCKET, SO_KEEPALIVE) (optval on) k).2.

(** TcpConnection::setTcpNoDelay *)
Definition conn_setTcpNoDelay (socket : Socket) (on : bool) (k : K) : K := setTcpNoDelay socket on k.

(** The listening socket as Acceptor's constructor and listen() make it. *)
Definition listening_socket (addr : Inet.sockaddr_in) (reuseport : bool) (k : K) : res (Socket * K) :=
  let '(fd, k) := createNonblockingOrDie (Inet.family addr) k in
  let s := mkSocket fd in
  let k := setReuseAddr s true k in
  let k := setReusePort s reuseport k in
  k ← bindAddress s addr k;
  k ← listen s k;
  Ok (s, k).
End Kernel.

(** ** TCP_INFO: the fields that are printed *)
Record tcp_info := mkInfo {
  tcpi_retransmits : Z;   (* 8 bits; the others have 32 *)
  tcpi_rto : Z; tcpi_ato : Z; tcpi_snd_mss : Z; tcpi_rcv_mss : Z; tcpi_lost : Z;
  tcpi_retrans : Z; tcpi_rtt : Z; tcpi_rttvar : Z; tcpi_snd_ssthresh : Z; tcpi_snd_cwnd : Z;
  tcpi_total_retrans : Z
}.
Definition zero_info : tcp_info := mkInfo 0 0 0 0 0 0 0 0 0 0 0 0.

(** [r]: what getsockopt stored, None when it failed. *)
Definition getTcpInfo (r : option tcp_info) : bool * tcp_info :=
  match r with Some t => (true, t) | None => (false, zero_info) end.

(** The conversions of the format string, each with the literal text before it. *)
Definition info_fields (t : tcp_info) : list (string * Z) :=
  [("unrecovered=", tcpi_retransmits t); (" rto=", tcpi_rto t); (" ato=", tcpi_ato t);
   (" snd_mss=", tcpi_snd_mss t); (" rcv_mss=", tcpi_rcv_mss t); (" lost=", tcpi_lost t);
   (" retrans=", tcpi_retrans t); (" rtt=", tcpi_rtt t); (" rttvar=", tcpi_rttvar t);
   (" sshthresh=", tcpi_snd_ssthresh t); (" cwnd=", tcpi_snd_cwnd t);
   (" total_retrans=", tcpi_total_retrans t)]%string.
Definition print_fields (fs : list (string * Z)) : list byte :=
  concat (map (λ f : string * Z, list_byte_of_string f.1 ++ Format.dec f.2) fs).

(** [buf] is the C string in the caller's array of [len] bytes. *)
Definition getTcpInfoString (len : Z) (r : option tcp_info) (buf : list byte) : bool * list byte :=
  let '(ok, tcpi) := getTcpInfo r in
  (ok, if ok then Format.snprintf len (print_fields (info_fields tcpi)) else buf).

(** TcpConnection::getTcpInfo and getTcpInfoString *)
Definition conn_getTcpInfo : option tcp_info → bool * tcp_info := getTcpInfo.
Definition conn_getTcpInfoString (r : option tcp_info) : list byte := (getTcpInfoString 1024 r []).2.

(** ** Texts of labelled numbers can be read back *)
Abbreviation digits := (Forall (λ b, is_Some (Log.digit_value b))).

Lemma parse_digits_all l acc v :
  Log.parse_digits 10 Log.digit_value l acc = Some v → digits l.
Proof.
  revert acc. induction l as [|b l IH]; intros acc; cbn; [constructor|].
  destruct (Log.digit_value b) as [d|] eqn:E; cbn; [|done]. intros Hp. constructor; [by eexists|by eapply IH].
Qed.

(** What follows a number does not begin with a digit. *)
Definition no_digit (l : list byte) : Prop :=
  match l with [] => True | b :: _ => Log.digit_value b = None end.

Lemma split_number d1 d2 r1 r2 :
  digits d1 → digits d2 → no_digit r1 → no_digit r2 → d1 ++ r1 = d2 ++ r2 → d1 = d2 ∧ r1 = r2.
Proof.
  revert d2. induction d1 as [|b d1 IH]; intros [|c d2] H1 H2 Hr1 Hr2; cbn.
  - done.
  - intros ->. cbn in Hr1. apply Forall_cons in H2 as [[? ?] _]. congruence.
  - intros <-. cbn in Hr2. apply Forall_cons in H1 as [[? ?] _]. congruence.
  - intros [= <- He]. apply Forall_cons in H1 as [_ H1]. apply Forall_cons in H2 as [_ H2].
    destruct (IH d2) as [-> ->]; auto.
Qed.

Definition printable (fs : list (string * Z)) : Prop :=
  Forall (λ f, no_digit (list_byte_of_string f.1) ∧ list_byte_of_string f.1 ≠ [] ∧
               0 ≤ f.2 < 2 ^ 32) fs.

Lemma dec_u32 v : 0 ≤ v < 2 ^ 32 →
  zlen (Format.dec v) ≤ 10 ∧ Log.parse_digits 10 Log.digit_value (Format.dec v) 0 = Some v.
Proof. intros Hv. destruct (Format.dec_spec 10 v) as [? ?]; [lia|lia|]. split; [lia|done]. Qed.

Lemma print_fields_head fs : printable fs → no_digit (print_fields fs).
Proof.
  intros [|[l v] fs' (Hl & Hne & _) _]; [done|]. unfold print_fields. cbn -[list_byte_of_string] in *.
  by destruct (list_byte_of_string l).
Qed.

Lemma print_fields_inj fs fs' :
  printable fs → printable fs' → fs.*1 = fs'.*1 → print_fields fs = print_fields fs' → fs = fs'.
Proof.
  revert fs'. induction fs as [|[l v] fs IH]; intros [|[l' v'] fs'] H1 H2; try done.
  intros [= <- Hls]. unfold print_fields. cbn [map concat fst snd]. rewrite <-!app_assoc.
  intros He%app_inv_head. apply Forall_cons in H1 as [(_ & _ & Hv) H1].
  apply Forall_cons in H2 as [(_ & _ & Hv') H2]. cbn [snd] in *.
  destruct (dec_u32 v Hv) as [_ Hp]. destruct (dec_u32 v' Hv') as [_ Hp'].
  apply split_number in He as [Hd He]; [|by eapply parse_digits_all|by eapply parse_digits_all|
    by apply print_fields_head..].
  rewrite Hd in Hp. f_equal; [congruence|]. by apply IH.
Qed.

Lemma print_fields_length fs :
  printable fs →
  zlen (print_fields fs) ≤
    foldr (λ f n, zlen (list_byte_of_string f.1) + 10 + n) 0 fs.
Proof.
  induction 1 as [|[l v] fs (_ & _ & Hv) _ IH]; [done|]. unfold print_fields in *. cbn [map concat fst snd foldr] in *.
  destruct (dec_u32 v Hv) as [Hd _]. rewrite !length_app. lia.
Qed.

Definition info_ok (t : tcp_info) : Prop :=
  0 ≤ tcpi_retransmits t < 2 ^ 8 ∧ Forall (λ f : string * Z, 0 ≤ f.2 < 2 ^ 32) (info_fields t).

Lemma info_printable t : info_ok t → printable (info_fields t).
Proof.
  intros [_ Hf]. unfold printable, info_fields in *. repeat (apply Forall_cons in Hf as [? Hf]).
  repeat constructor; cbn in *; try done; lia.
Qed.

(** ** A reference kernel: the table alone; every call on an open descriptor succeeds *)
Definition ref_call (fd : Z) (f : sock → sock) (k : gmap nat sock) : Z * gmap nat sock :=
  if decide (0 ≤ fd ∧ is_Some (k !! Z.to_nat fd)) then (0, alter f (Z.to_nat fd) k) else (-1, k).

#[export] Instance ref_sockets : SocketKernel (gmap nat sock) := {
  socks k := kmap Z.of_nat k;
  sys_socket _ k := let fd := fresh (dom k) in (Z.of_nat fd, <[fd := new_sock]> k);
  sys_bind fd a := ref_call fd (with_local a);
  sys_listen fd n := ref_call fd (with_backlog n);
  sys_shutdown_wr fd := ref_call fd with_write_shut;
  sys_setsockopt fd o v := ref_call fd (with_option o v);
  sys_accept4 fd k :=
    if decide (0 ≤ fd ∧ is_Some (k !! Z.to_nat fd)) then
      let a := Inet.mkAddr 2 1 1 in
      let c := fresh (dom k) in (inl (Z.of_nat c, a), <[c := accepted_sock a]> k)
    else (inr 9, k);
  sys_close fd k :=
    if decide (0 ≤ fd ∧ is_Some (k !! Z.to_nat fd)) then (0, delete (Z.to_nat fd) k) else (-1, k)
}.

Lemma ref_open (k : gmap nat sock) fd :
  is_Some (socks k !! fd) ↔ 0 ≤ fd ∧ is_Some (k !! Z.to_nat fd).
Proof.
  cbn. split.
  - intros [s (n & -> & Hn)%lookup_kmap_Some]; [|apply _]. rewrite Nat2Z.id. split; [lia|by exists s].
  - intros [Hfd [s Hs]]. exists s. apply lookup_kmap_Some; [apply _|]. exists (Z.to_nat fd). split; [lia|done].
Qed.

Lemma ref_fresh (k : gmap nat sock) :
  socks k !! Z.of_nat (fresh (dom k)) = None.
Proof.
  apply eq_None_not_Some. rewrite ref_open, Nat2Z.id. intros [_ Hin%elem_of_dom].
  by apply is_fresh in Hin.
Qed.

Lemma ref_call_law fd f (k : gmap nat sock) : call_law fd f k (ref_call fd f k).
Proof.
  unfold ref_call. case_decide as E; [left|by right]. split; [done|]. split; [by apply ref_open|].
  cbn. destruct E as [Hfd _]. apply map_eq. intros fd'. rewrite <-(Z2Nat.id fd) at 2 by done.
  destruct (decide (0 ≤ fd')) as [Hp|Hn].
  - rewrite <-(Z2Nat.id fd') by done. rewrite lookup_kmap by apply _.
    destruct (decide (Z.to_nat fd = Z.to_nat fd')) as [->|Hne].
    + by rewrite !lookup_alter_eq, lookup_kmap by apply _.
    + rewrite !lookup_alter_ne by (done || lia). by rewrite lookup_kmap by apply _.
  - assert (∀ m : gmap nat sock, (kmap Z.of_nat m : gmap Z sock) !! fd' = None) as Hnone.
    { intros m. apply eq_None_not_Some. intros [s (n & -> & _)%lookup_kmap_Some]; [lia|apply _]. }
    rewrite Hnone, lookup_alter_ne, Hnone by lia. done.
Qed.

#[export] Instance ref_sockets_laws : SocketLaws (gmap nat sock).
Proof.
  split; try (intros; apply ref_call_law).
  - intros k fd Hfd%ref_open. lia.
  - intros k family. cbn. left. split; [lia|]. split; [apply ref_fresh|]. by rewrite kmap_insert by apply _.
  - intros k fd. cbn. case_decide; [|done]. split; [lia|]. split; [apply ref_fresh|].
    by rewrite kmap_insert by apply _.
  - intros k fd. cbn [sys_close ref_sockets]. case_decide as E.
    + rewrite decide_True by by apply ref_open. split; [done|]. cbn.
      rewrite kmap_delete by apply _. by rewrite Z2Nat.id by tauto.
    + rewrite decide_False; [done|]. by rewrite ref_open.
Qed.

(** ** Theorems *)
Section Theorems.
Context {K : Type} `{SocketLaws K}.

Lemma setsockopt_socks (k : K) fd o v :
  socks (sys_setsockopt fd o v k).2 = socks k ∨
  (is_Some (socks k !! fd) ∧ socks (sys_setsockopt fd o v k).2 = alter (with_option o v) fd (socks k)).
Proof. destruct (setsockopt_law k fd o v) as [(_ & ? & ?)|[_ ?]]; auto. Qed.

Lemma alter_insert_sock (m : gmap Z sock) fd f s : alter f fd (<[fd := s]> m) = <[fd := f s]> m.
Proof.
  apply map_eq. intros fd'. rewrite lookup_alter, !lookup_insert. case_decide; subst; [|done].
  by rewrite decide_True.
Qed.

(** A table that differs from [k]'s in the socket [fd] alone. *)
Definition holds (k : K) (fd : Z) (s : sock) (m : gmap Z sock) : Prop :=
  socks k = <[fd := s]> m.

Lemma setsockopt_holds k fd o v s m :
  holds k fd s m →
  ∃ s', holds (sys_setsockopt fd o v k).2 fd s' m ∧ (s' = s ∨ s' = with_option o v s).
Proof.
  unfold holds. intros Hk. destruct (setsockopt_socks k fd o v) as [E|[_ E]]; rewrite E, Hk.
  - exists s. auto.
  - rewrite alter_insert_sock. eauto.
Qed.

Lemma close_holds k fd s m :
  holds k fd s m → m !! fd = None → ∃ k', close fd k = Ok k' ∧ socks k' = m.
Proof.
  intros Hk Hm. unfold close. pose proof (close_law k fd) as Hc. destruct (sys_close fd k) as [r k'].
  rewrite Hk, decide_True in Hc by (rewrite lookup_insert_eq; by eexists). destruct Hc as [-> Hc].
  cbn. exists k'. split; [done|]. by rewrite Hc, delete_insert_id.
Qed.

(** The two calls that assert their success. *)
Lemma call_assert fd f (k : K) (r : Z * K) s m :
  call_law fd f k r → holds k fd s m →
  (∃ k', (let '(ret, k) := r in _ ← assert_ (ret =? 0); Ok k) = Ok k' ∧ holds k' fd (f s) m) ∨
  (r.1 = -1 ∧ (let '(ret, k) := r in _ ← assert_ (ret =? 0); Ok k) = Err AssertFailed).
Proof.
  unfold holds. intros Hl Hk. destruct r as [ret k']. destruct Hl as [(E & _ & Hs)|[E Hs]]; cbn in E, Hs; subst.
  - left. exists k'. cbn. split; [done|]. by rewrite Hs, Hk, alter_insert_sock.
  - by right.
Qed.

Lemma call_closed fd f (k : K) (r : Z * K) :
  call_law fd f k r → socks k !! fd = None →
  (let '(ret, k) := r in _ ← assert_ (ret =? 0); Ok k) = Err AssertFailed.
Proof.
  intros Hl Hk. destruct r as [ret k']. destruct Hl as [(_ & [? ?] & _)|[E _]]; [congruence|]. cbn in E. by subst.
Qed.

(** C24: setting up a listening socket. Whatever the kernel answers, it ends in one of two
    ways. Either the socket is there, on a descriptor that was free: non-blocking, bound to
    the address, listening with the full backlog, with no options but the two requested
    (which the kernel may have refused, silently); no other descriptor has changed, and
    destroying the Socket closes it and leaves the table as it was. Or socket, bind or listen
    has failed and an assertion stops the process: no half-made socket is ever returned. *)
Theorem listening_socket_ready (addr : Inet.sockaddr_in) (reuseport : bool) (k : K) :
  match listening_socket addr reuseport k with
  | Ok (s, k') =>
      0 ≤ sockfd_ s ∧ socks k !! sockfd_ s = None ∧
      (∃ sk, socks k' = <[sockfd_ s := sk]> (socks k) ∧ nonblocking sk = true ∧
             local sk = Some addr ∧ peer sk = None ∧ backlog sk = Some SOMAXCONN ∧
             write_shut sk = false ∧
             ∀ o v, options sk !! o = Some v →
               (o, v) = (SOL_SOCKET, SO_REUSEADDR, 1) ∨
               (o, v) = (SOL_SOCKET, SO_REUSEPORT, optval reuseport)) ∧
      ∃ k'', destructor s k' = Ok k'' ∧ socks k'' = socks k
  | Err e => e = AssertFailed
  end.
Proof.
  unfold listening_socket, createNonblockingOrDie. pose proof (socket_law k (Inet.family addr)) as Hs.
  destruct (sys_socket _ k) as [fd k0]. cbn [sockfd_]. destruct Hs as [(Hfd & Hfree & Hk0)|[-> Hk0]].
  - destruct (setsockopt_holds k0 fd (SOL_SOCKET, SO_REUSEADDR) (optval true) new_sock (socks k) Hk0)
      as (s1 & Hk1 & Hs1).
    destruct (setsockopt_holds _ fd (SOL_SOCKET, SO_REUSEPORT) (optval reuseport) s1 (socks k) Hk1)
      as (s2 & Hk2 & Hs2).
    unfold setReuseAddr, setReusePort, bindAddress, bindOrDie, listen, listenOrDie. cbn [sockfd_].
    set (k2 := (sys_setsockopt fd (SOL_SOCKET, SO_REUSEPORT) _ _).2) in *.
    destruct (call_assert _ _ _ _ _ _ (bind_law k2 fd addr) Hk2) as [(k3 & -> & Hk3)|[_ ->]]; [|done].
    cbn [mbind res_bind].
    destruct (call_assert _ _ _ _ _ _ (listen_law k3 fd SOMAXCONN) Hk3) as [(k4 & -> & Hk4)|[_ ->]]; [|done].
    cbn [mbind res_bind sockfd_]. split; [done|]. split; [done|]. split.
    + eexists. split; [exact Hk4|].
      assert (∀ o v, options s2 !! o = Some v →
        (o, v) = (SOL_SOCKET, SO_REUSEADDR, 1) ∨ (o, v) = (SOL_SOCKET, SO_REUSEPORT, optval reuseport)) as Ho.
      { intros o v. destruct Hs1 as [->| ->], Hs2 as [->| ->]; cbn; rewrite ?lookup_insert;
          repeat case_decide; naive_solver. }
      assert (nonblocking s2 = true ∧ peer s2 = None ∧ write_shut s2 = false) as (?&?&?).
      { by destruct Hs1 as [->| ->], Hs2 as [->| ->]. }
      by split_and!.
    + destruct (close_holds k4 fd _ (socks k) Hk4 Hfree) as (k5 & Hc & Hk5). by exists k5.
  - assert (socks k !! (-1) = None) as Hnone.
    { apply eq_None_not_Some. intros Hx%socks_nonneg. lia. }
    assert (∀ (k : K) o v, socks k !! (-1) = None → socks (sys_setsockopt (-1) o v k).2 !! (-1) = None) as Hopt.
    { intros k' o v Hk'. destruct (setsockopt_socks k' (-1) o v) as [-> |[[? ?] _]]; congruence. }
    unfold bindAddress, bindOrDie. cbn [sockfd_].
    erewrite call_closed; [done|apply bind_law|]. apply Hopt, Hopt. by rewrite Hk0.
Qed.

(** accept does what its comment says. A connection: a free non-negative descriptor,
    non-blocking, its peer stored; a failure: -1, *peeraddr and the table untouched, and errno
    what accept4 set, so the acceptor sees EMFILE. *)
Theorem accept_documented (s : Socket) (peeraddr : Inet.sockaddr_in) (k : K) :
  let '(connfd, peeraddr', errno, k') := Socket_accept s peeraddr k in
  match (sys_accept4 (sockfd_ s) k).1 with
  | inl (fd, a) => connfd = fd ∧ 0 ≤ connfd ∧ peeraddr' = a ∧ socks k !! connfd = None ∧
                   socks k' = <[connfd := accepted_sock a]> (socks k)
  | inr e => connfd = -1 ∧ peeraddr' = peeraddr ∧ errno = e ∧ socks k' = socks k
  end.
Proof.
  unfold Socket_accept, accept. pose proof (accept4_law k (sockfd_ s)) as Ha.
  destruct (sys_accept4 (sockfd_ s) k) as [[[fd a]|e] k']; cbn.
  - destruct Ha as (Hp & Hn & Hk). by rewrite (proj2 (Z.leb_le 0 fd)).
  - by destruct (expected_errno e).
Qed.
End Theorems.

(** TCP information is printed whole. For every value of the printed fields the 1024-byte
    array of TcpConnection holds the whole text, and the text determines all the fields; when
    the kernel gives no information the text is empty. *)
Theorem tcp_info_text_faithful (t t' : tcp_info) (Ht : info_ok t) (Ht' : info_ok t') :
  conn_getTcpInfoString (Some t) = print_fields (info_fields t) ∧
  (conn_getTcpInfoString (Some t) = conn_getTcpInfoString (Some t') → t = t') ∧
  conn_getTcpInfoString None = [].
Proof.
  assert (∀ t, info_ok t → conn_getTcpInfoString (Some t) = print_fields (info_fields t)) as Hwhole.
  { intros u Hu. unfold conn_getTcpInfoString, getTcpInfoString, Format.snprintf. cbn [getTcpInfo snd].
    apply take_ge. pose proof (print_fields_length _ (info_printable _ Hu)) as Hl.
    replace (foldr _ 0 (info_fields u)) with 220 in Hl by reflexivity. lia. }
  split; [by apply Hwhole|]. split; [|done]. rewrite !Hwhole by done. intros He.
  apply print_fields_inj in He; [|by apply info_printable..|done].
  unfold info_fields in He. destruct t, t'. cbn in He. by injection He as -> -> -> -> -> -> -> -> -> -> -> ->.
Qed.

Lemma tcp_info_text_faithful_witness :
  conn_getTcpInfoString (Some zero_info) = print_fields (info_fields zero_info) ∧
  (conn_getTcpInfoString (Some zero_info) = conn_getTcpInfoString (Some zero_info) → zero_info = zero_info) ∧
  conn_getTcpInfoString None = [].
Proof. apply (tcp_info_text_faithful zero_info zero_info); (split; [done|repeat constructor; cbn; lia]). Defined.

(** connect reads past the address. The length passed is that of an IPv6 address: the call
    stays within memory only if 12 more bytes can be read behind the sockaddr_in. *)
Theorem connect_reads_past_address {K : Type} (sys_connect : Z → list byte → K → Z * K) (sockfd : Z)
    (addr tail : list byte) (k : K) (Ha : zlen addr = sizeof_sockaddr_in) :
  is_ok (connect sys_connect sockfd (addr ++ tail) k) = true ↔ 12 ≤ zlen tail.
Proof.
  unfold connect, sizeof_sockaddr_in, sizeof_sockaddr_in6 in *. rewrite length_app.
  destruct (Z.leb_spec 28 (Z.of_nat (length addr + length tail))); cbn; split; intros; try done; lia.
Qed.

(** A kernel with descriptor 0 taken. *)
Definition demo_sockets : gmap nat sock := {[0%nat := new_sock]}.

Lemma listening_socket_ready_witness :
  ∃ s k', listening_socket (Inet.mkAddr 2 80 0) true demo_sockets = Ok (s, k') ∧ sockfd_ s = 1 ∧
    ∃ k'', destructor s k' = Ok k'' ∧ socks k'' = socks demo_sockets.
Proof.
  pose proof (listening_socket_ready (Inet.mkAddr 2 80 0) true demo_sockets) as Hx.
  destruct (listening_socket (Inet.mkAddr 2 80 0) true demo_sockets) as [[s k']|e] eqn:E.
  - exists s, k'. split; [reflexivity|]. split; [|exact (proj2 (proj2 (proj2 Hx)))].
    vm_compute in E. by injection E as <- _.
  - exfalso. vm_compute in E. discriminate.
Defined.

End Sockets.
