(* ===== verification/Acceptor.v ===== *)
(** * Acceptor (net/acceptor.h, net/acceptor.cc, net/socket.cc)

    The listening socket over any channel that satisfies the interface of Interfaces.v. The
    kernel's answers to socket, open, bind, listen and accept are arguments. [own] holds the
    descriptors the acceptor has open; [given] the connections passed to
    newConnectionCallback_ with the peers' addresses, and [dropped] those it closed itself. *)

From S2P Require Import Prelude Inet Sockets Interfaces.

Module Acc.

Definition EMFILE : Z := 24.

(** accept(2): a new descriptor and the peer's address, or errno. *)
Definition accept_result : Type := Z * Inet.sockaddr_in + Z.

Section Acceptor.
Context {C : Type} `{ChannelI C}.

Record acceptor := mkAcc {
  acceptSocket_ : Z;
  acceptChannel_ : C;
  listenning_ : bool;
  idleFd_ : Z;
  newConnectionCallback_ : bool;             (* the callback is set *)
  own : list Z;
  given : list (Z * Inet.sockaddr_in);
  dropped : list Z
}.

Definition with_channel (ch : C) (a : acceptor) : acceptor :=
  mkAcc (acceptSocket_ a) ch (listenning_ a) (idleFd_ a) (newConnectionCallback_ a) (own a) (given a) (dropped a).
Definition with_fds (idle : Z) (ow : list Z) (gi : list (Z * Inet.sockaddr_in)) (dr : list Z) (a : acceptor) : acceptor :=
  mkAcc (acceptSocket_ a) (acceptChannel_ a) (listenning_ a) idle (newConnectionCallback_ a) ow gi dr.
Definition setNewConnectionCallback (a : acceptor) : acceptor :=
  mkAcc (acceptSocket_ a) (acceptChannel_ a) (listenning_ a) (idleFd_ a) true (own a) (given a) (dropped a).

(** ::close, whose result is ignored: it fails on -1 and does nothing then; closing a
    descriptor that is not open here could close somebody else's. *)
Definition close (fd : Z) (ow : list Z) : res (list Z) :=
  if fd <? 0 then Ok ow
  else if bool_decide (fd ∈ ow) then Ok (filter (λ x, x ≠ fd) ow) else Err UseAfterFree.
(** sockets::close asserts that it succeeds. *)
Definition sockets_close (fd : Z) (ow : list Z) : res (list Z) :=
  if bool_decide (fd ∈ ow) && (0 <=? fd) then Ok (filter (λ x, x ≠ fd) ow) else Err AssertFailed.
(** A descriptor the kernel returned; -1 is not one. *)
Definition opened (fd : Z) (ow : list Z) : list Z := if 0 <=? fd then fd :: ow else ow.

(** The constructor: [sockfd] of socket(2), [idle] of open("/dev/null"), [bind_ok]. *)
Definition newAcceptor (sockfd idle : Z) (bind_ok : bool) (ch : C) : res acceptor :=
  _ ← assert_ (0 <=? idle);
  _ ← assert_ (bind_ok && (0 <=? sockfd));
  Ok (mkAcc sockfd ch false idle false (opened idle (opened sockfd [])) [] []).

Definition listen (listen_ok : bool) (a : acceptor) : res acceptor :=
  let a := mkAcc (acceptSocket_ a) (acceptChannel_ a) true (idleFd_ a) (newConnectionCallback_ a)
             (own a) (given a) (dropped a) in
  _ ← assert_ listen_ok;
  ch ← ch_enableReading (acceptChannel_ a);
  Ok (with_channel ch a).

(** Socket::accept over sockets::accept: the descriptor, the address to store in the caller's
    InetAddress, and errno. *)
Definition accept (r : accept_result) : Z * option Inet.sockaddr_in * Z :=
  match r with inl (connfd, addr) => (connfd, Some addr, 0) | inr errno => (-1, None, errno) end.

(** [r1], [r2]: the two calls of accept; [r3]: the descriptor of the second open. *)
Definition handleRead (r1 r2 : accept_result) (r3 : Z) (a : acceptor) : res acceptor :=
  let '(connfd, peer, errno) := accept r1 in
  let peerAddr := default (Inet.InetAddress_port Endian.LittleEndian 0 false) peer in
  let ow := opened connfd (own a) in
  if 0 <=? connfd then
    if newConnectionCallback_ a then
      Ok (with_fds (idleFd_ a) (filter (λ x, x ≠ connfd) ow) (given a ++ [(connfd, peerAddr)]) (dropped a) a)
    else
      ow ← sockets_close connfd ow;
      Ok (with_fds (idleFd_ a) ow (given a) (dropped a ++ [connfd]) a)
  else if errno =? EMFILE then
    ow ← close (idleFd_ a) ow;
    let '(idle, _, _) := accept r2 in
    let ow := opened idle ow in
    let dr := if 0 <=? idle then dropped a ++ [idle] else dropped a in
    ow ← close idle ow;
    Ok (with_fds r3 (opened r3 ow) (given a) dr a)
  else Ok a.

(** ~Acceptor, and the destructors of acceptChannel_ and acceptSocket_ *)
Definition destructor (a : acceptor) : res (list Z) :=
  ch ← ch_disableAll (acceptChannel_ a);
  ch ← ch_remove ch;
  ow ← close (idleFd_ a) (own a);
  _ ← assert_ (negb (ch_added ch));
  sockets_close (acceptSocket_ a) ow.

(** ** The acceptor in its loop *)
Inductive event :=
  | SetCallback
  | Listen (listen_ok : bool)
  | HandleRead (r1 r2 : accept_result) (r3 : Z).

Definition exec (e : event) (a : acceptor) : res acceptor :=
  match e with
  | SetCallback => Ok (setNewConnectionCallback a)
  | Listen ok => listen ok a
  | HandleRead r1 r2 r3 => handleRead r1 r2 r3 a
  end.

(** The kernel hands out descriptors that are not open: the acceptor's own, and what it
    opened earlier in the same call, are. *)
Definition fresh (fd : Z) (ow : list Z) : Prop := fd = -1 ∨ 0 ≤ fd ∧ fd ∉ ow.
Definition accepted (r : accept_result) : Z := match r with inl (fd, _) => fd | inr _ => -1 end.
Definition accept_ok (r : accept_result) (ow : list Z) : Prop :=
  match r with inl (fd, _) => 0 ≤ fd ∧ fd ∉ ow | inr _ => True end.

Definition enabled (e : event) (a : acceptor) : Prop :=
  match e with
  | SetCallback => True
  | Listen ok => ok = true
  | HandleRead r1 r2 r3 =>
      accept_ok r1 (own a) ∧ accept_ok r2 [acceptSocket_ a] ∧ fresh r3 [acceptSocket_ a]
  end.

(** What the acceptor has open: the listening socket and, when it could be opened, the spare. *)
Record inv (a : acceptor) : Prop := mkInv {
  inv_channel : ch_ok (acceptChannel_ a);
  inv_reading : ch_isWriting (acceptChannel_ a) = false;
  inv_socket : 0 ≤ acceptSocket_ a;
  inv_idle : fresh (idleFd_ a) [acceptSocket_ a];
  inv_own : own a = opened (idleFd_ a) [acceptSocket_ a]
}.

Context `{!ChannelLaws C}.

Lemma filter_fresh (fd : Z) ow : fd ∉ ow → filter (λ x, x ≠ fd) (fd :: ow) = ow.
Proof.
  intros Hn. rewrite filter_cons, decide_False by naive_solver. induction ow as [|x ow IH]; [done|].
  rewrite not_elem_of_cons in Hn. rewrite filter_cons, decide_True by naive_solver. f_equal. naive_solver.
Qed.

Lemma close_fresh fd ow : fresh fd ow → close fd (opened fd ow) = Ok ow.
Proof.
  unfold close, opened. intros [->|[Hp Hn]]; [done|].
  rewrite (proj2 (Z.ltb_ge fd 0)), (proj2 (Z.leb_le 0 fd)) by lia.
  rewrite bool_decide_true by (by left). by rewrite filter_fresh.
Qed.

Lemma accept_fresh r ow : accept_ok r ow → fresh (accepted r) ow.
Proof. destruct r as [[fd addr]|e]; cbn; [by right|by left]. Qed.

Lemma destructor_spec a : inv a → destructor a = Ok [].
Proof.
  intros [Hok Hw Hs Hi Ho]. unfold destructor.
  destruct (ch_disableAll_law _ Hok) as (ch1 & -> & Hok1 & Hr1 & Hw1 & Ha1). cbn [mbind res_bind].
  destruct (ch_remove_law _ Hok1 Ha1 Hr1 Hw1) as (ch2 & -> & _ & _ & _ & Ha2). cbn [mbind res_bind].
  rewrite Ho, close_fresh by done. cbn [mbind res_bind]. rewrite Ha2. cbn [negb assert_ mbind res_bind].
  unfold sockets_close. rewrite bool_decide_true by (by left). rewrite (proj2 (Z.leb_le 0 _)) by done. cbn [andb].
  by rewrite filter_fresh by apply not_elem_of_nil.
Qed.

(** What one readable event of the listening socket does. *)
Definition read_effect (r1 r2 : accept_result) (r3 : Z) (a a' : acceptor) : Prop :=
  match r1 with
  | inl (fd, addr) =>
      idleFd_ a' = idleFd_ a ∧
      if newConnectionCallback_ a then given a' = given a ++ [(fd, addr)] ∧ dropped a' = dropped a
      else given a' = given a ∧ dropped a' = dropped a ++ [fd]
  | inr errno =>
      if errno =? EMFILE
      then idleFd_ a' = r3 ∧ given a' = given a ∧
           dropped a' = dropped a ++ match r2 with inl (fd, _) => [fd] | inr _ => [] end
      else a' = a
  end.

Lemma handleRead_acc_spec r1 r2 r3 a :
  inv a → enabled (HandleRead r1 r2 r3) a →
  ∃ a', handleRead r1 r2 r3 a = Ok a' ∧ inv a' ∧ acceptSocket_ a' = acceptSocket_ a ∧ read_effect r1 r2 r3 a a'.
Proof.
  intros Hinv (H1 & H2 & H3). pose proof Hinv as [Hok Hw Hs Hi Ho]. unfold handleRead, read_effect.
  destruct r1 as [[fd addr]|e]; cbn [accept default].
  - destruct H1 as [Hp Hn]. unfold opened at 1 2. rewrite (proj2 (Z.leb_le 0 fd)) by done.
    destruct (newConnectionCallback_ a) eqn:Hcb.
    + rewrite filter_fresh by done. by eexists.
    + unfold sockets_close. rewrite bool_decide_true, (proj2 (Z.leb_le 0 fd)) by (done || by left).
      cbn [andb]. rewrite filter_fresh by done. by eexists.
  - cbn [Z.leb Z.compare]. destruct (e =? EMFILE); [|by exists a]. change (opened (-1) (own a)) with (own a).
    rewrite Ho, close_fresh by done. cbn [mbind res_bind].
    assert (∀ d : list Z, (if 0 <=? accepted r2 then d ++ [accepted r2] else d) =
      d ++ match r2 with inl (fd, _) => [fd] | inr _ => [] end) as Hd.
    { intros d. destruct r2 as [[fd addr]|e2]; cbn; [|by rewrite app_nil_r].
      by rewrite (proj2 (Z.leb_le 0 fd)) by apply H2. }
    rewrite <-Hd. apply accept_fresh in H2.
    replace (accept r2) with (accepted r2, (accept r2).1.2, (accept r2).2) by (by destruct r2 as [[fd addr]|e2]).
    rewrite close_fresh by done. cbn [mbind res_bind]. eexists. split; [done|]. split; [|done]. by split.
Qed.

Lemma acc_exec_spec e a :
  inv a → enabled e a → ∃ a', exec e a = Ok a' ∧ inv a' ∧ acceptSocket_ a' = acceptSocket_ a ∧
    match e with HandleRead r1 r2 r3 => read_effect r1 r2 r3 a a' | _ => given a' = given a ∧ dropped a' = dropped a end.
Proof.
  intros Hinv He. destruct e as [|ok|r1 r2 r3]; cbn [exec].
  - destruct Hinv. by eexists.
  - cbn in He. subst. pose proof Hinv as [Hok Hw Hs Hi Ho]. unfold listen. cbn [assert_ mbind res_bind acceptChannel_].
    destruct (ch_enableReading_law _ Hok) as (ch & -> & Hok' & _ & Hw' & _). cbn [mbind res_bind].
    eexists. split; [done|]. split; [|done]. split; try done. cbn. congruence.
  - by apply handleRead_acc_spec.
Qed.

Inductive step (a a' : acceptor) : Prop :=
  | step_intro e : enabled e a → exec e a = Ok a' → step a a'.

Lemma newAcceptor_inv sockfd idle bind_ok ch a :
  ch_ok ch → ch_isWriting ch = false → fresh idle [sockfd] → newAcceptor sockfd idle bind_ok ch = Ok a → inv a.
Proof.
  intros Hok Hw Hf Hn. unfold newAcceptor in Hn. apply bind_Ok in Hn as (? & Hi%assert_Ok & Hn).
  apply bind_Ok in Hn as (? & Hs%assert_Ok & [= <-]). split; try done; cbn.
  - lia.
  - unfold opened. by rewrite (proj2 (Z.leb_le 0 sockfd)) by lia.
Qed.

(** ** Theorems *)

(** The acceptor's view of accept is Socket::accept. For whatever accept4 answers, the
    descriptor, the address the caller ends up with and, on failure, errno agree. *)
Theorem accept_matches_socket {K : Type} `{Sockets.SocketLaws K} (s : Sockets.Socket)
    (peeraddr : Inet.sockaddr_in) (k : K) :
  let '(connfd, peeraddr', errno, _) := Sockets.Socket_accept s peeraddr k in
  let '(fd, addr, e) := accept (Sockets.sys_accept4 (Sockets.sockfd_ s) k).1 in
  connfd = fd ∧ peeraddr' = default peeraddr addr ∧ (connfd < 0 → errno = e).
Proof.
  unfold Sockets.Socket_accept, Sockets.accept.
  pose proof (Sockets.accept4_law k (Sockets.sockfd_ s)) as Ha.
  destruct (Sockets.sys_accept4 (Sockets.sockfd_ s) k) as [[[fd a]|e] k']; cbn.
  - destruct Ha as (Hp & _). by rewrite (proj2 (Z.leb_le 0 fd)).
  - by destruct (Sockets.expected_errno e).
Qed.

(** C35: the acceptor neither loses nor leaks a descriptor. From construction on, whatever
    accept and open answer, every event completes: an accepted connection is passed to the
    callback once, with its peer's address, or closed when there is no callback; when the
    process is out of descriptors the spare one is given up to accept and close one pending
    connection and then opened again; any other failure changes nothing. The acceptor always
    holds exactly its listening socket and, if it could be opened, the spare, and its
    destructor, also without listen() having been called, leaves nothing open. *)
Theorem acceptor_accounts (sockfd idle : Z) (bind_ok : bool) (ch : C) (a0 a : acceptor) (e : event)
    (Hch : ch_ok ch) (Hw : ch_isWriting ch = false) (Hidle : fresh idle [sockfd])
    (Hnew : newAcceptor sockfd idle bind_ok ch = Ok a0)
    (Hreach : rtc step a0 a) (He : enabled e a) :
  own a = opened (idleFd_ a) [acceptSocket_ a] ∧ destructor a = Ok [] ∧
  ∃ a', exec e a = Ok a' ∧ acceptSocket_ a' = acceptSocket_ a ∧
    match e with HandleRead r1 r2 r3 => read_effect r1 r2 r3 a a' | _ => given a' = given a ∧ dropped a' = dropped a end.
Proof.
  assert (inv a) as Hinv.
  { eapply rtc_invariant; [|by eapply newAcceptor_inv|done]. intros b b' Hb [e' He' Hx].
    destruct (acc_exec_spec e' b Hb He') as (b1 & Hb1 & ? & _). congruence. }
  split; [by destruct Hinv|]. split; [by apply destructor_spec|].
  destruct (acc_exec_spec e a Hinv He) as (a' & ? & _ & ? & ?). by exists a'.
Qed.
End Acceptor.
Arguments acceptor : clear implicits.

Import Demo.
(** A listening acceptor with its callback set, out of descriptors. *)
Definition demo_acceptor : acceptor demo_reactor :=
  match (a ← newAcceptor 5 6 true reactor0; mfold exec [SetCallback; Listen true] a) with
  | Ok a => a | Err _ => mkAcc 0 reactor0 false 0 false [] [] [] end.
Lemma acceptor_accounts_witness :
  ∃ a', exec (HandleRead (inr EMFILE) (inl (6, Inet.zero_addr)) 6) demo_acceptor = Ok a' ∧
        idleFd_ a' = 6 ∧ given a' = [] ∧ dropped a' = [6].
Proof.
  pose (a0 := mkAcc 5 reactor0 false 6 false [6; 5] [] []).
  destruct (acceptor_accounts 5 6 true reactor0 a0 demo_acceptor
    (HandleRead (inr EMFILE) (inl (6, Inet.zero_addr)) 6)) as (_ & _ & a' & H1 & _ & H2 & H3 & H4).
  - apply reactor0_ok.
  - apply reactor0_ok.
  - right. split; [done|]. apply not_elem_of_cons. split; [done|apply not_elem_of_nil].
  - reflexivity.
  - eapply rtc_l; [by exists SetCallback|]. apply rtc_once. by exists (Listen true).
  - split; [done|]. split; [|right]; (split; [done|]); apply not_elem_of_cons; (split; [done|apply not_elem_of_nil]).
  - exists a'. split; [exact H1|]. split; [exact H2|]. split; [exact H3|exact H4].
Defined.
End Acc.
