(* ===== verification/TcpServer.v ===== *)
(** * TcpServer (net/tcp_server.h, net/tcp_server.cc)

    The server with its io loops and its connections. [ConnectionI] is what a connection
    promises to its owner, a life in four stages; the instance at the end discharges it from
    the theorems about TcpConnection. [queue] holds the functors queued in all the loops, in
    the order they were queued, each with the address of its loop: a loop runs its own in
    that order, as EventLoop.v shows. Connections are named by their index in [conns];
    [connections_] maps names to them. *)

From S2P Require Import Prelude Buffer Poller Interfaces TcpConnection Atomic LogStream Format LoopPool.

(** ** A connection as its owner sees it *)
Inductive life :=
  | Connecting     (* constructed *)
  | Up             (* connectEstablished has run *)
  | Down           (* handleClose has run, up to the call of closeCallback_ *)
  | Destroyed.     (* connectDestroyed has run *)
#[export] Instance life_eq_dec : EqDecision life.
Proof. solve_decision. Defined.

Class ConnectionI (N : Type) := {
  cn_life : N → life;
  cn_established : N → res N;
  cn_close : N → res N;
  cn_destroyed : N → res N;
  cn_ok : N → Prop
}.

Class ConnectionLaws (N : Type) `{ConnectionI N} := {
  cn_established_law (n : N) : cn_ok n → cn_life n = Connecting →
    ∃ n', cn_established n = Ok n' ∧ cn_ok n' ∧ cn_life n' = Up;
  cn_close_law (n : N) : cn_ok n → cn_life n = Up →
    ∃ n', cn_close n = Ok n' ∧ cn_ok n' ∧ cn_life n' = Down;
  cn_destroyed_law (n : N) : cn_ok n → cn_life n = Down →
    ∃ n', cn_destroyed n = Ok n' ∧ cn_ok n' ∧ cn_life n' = Destroyed
}.

(** TcpConnection keeps these promises. *)
Section ConnInstance.
Import Conn.
Context {B : Type} `{ByteQueueLaws B} {C : Type} `{ChannelLaws C}.
Context (script : callback → conn (B := B) (C := C) → list api) (script_ok : ∀ cb c, calls_ok (script cb c) c).

Definition conn_life (c : conn (B := B) (C := C)) : life :=
  match state_ c with
  | kConnecting => Connecting
  | kConnected | kDisconnecting => Up
  | kDisconnected => if ch_added (channel_ c) then Down else Destroyed
  end.

(** handleClose up to the call of closeCallback_ *)
Definition close_part (c : conn (B := B) (C := C)) : res conn :=
  _ ← assert_ (open c);
  let c := setState kDisconnected c in
  c ← on_channel ch_disableAll c;
  run_callback script (CbConnection false) c.

Definition conn_interface : ConnectionI (conn (B := B) (C := C)) := {|
  cn_life := conn_life;
  cn_established := connectEstablished script;
  cn_close := close_part;
  cn_destroyed := connectDestroyed script;
  cn_ok c := inv (bool_decide (conn_life c = Down)) c
|}.

Lemma conn_interface_laws : ConnectionLaws (H := conn_interface) conn.
Proof.
  split; cbn.
  - intros c Hc Hl. rewrite Hl in Hc. cbn in Hc.
    assert (state_ c = kConnecting) as Hst.
    { unfold conn_life in Hl. destruct (state_ c); try done. by destruct (ch_added _). }
    destruct (connectEstablished_spec script script_ok c Hc Hst) as (c' & ? & Hinv & _ & Ho). exists c'.
    assert (conn_life c' = Up) as Hl'.
    { unfold open, conn_life in *. by destruct (state_ c'). }
    by rewrite Hl'.
  - intros c Hc Hl. rewrite Hl in Hc. cbn in Hc.
    assert (open c = true) as Ho.
    { unfold conn_life, open in *. destruct (state_ c); try done. by destruct (ch_added _). }
    destruct (go_down_spec script script_ok c Hc Ho) as (c1 & Hd1 & c' & Hd2 & Hinv & _ & Hst). exists c'.
    unfold close_part. rewrite Ho. cbn [assert_ mbind res_bind]. rewrite Hd1. cbn [mbind res_bind].
    assert (conn_life c' = Down) as Hl'.
    { unfold conn_life. rewrite Hst. pose proof (inv_destroy _ _ Hinv) as E. rewrite decide_True in E by done.
      destruct (ch_added (channel_ c')); [done|]. cbn in E. lia. }
    rewrite Hl'. by split_and!.
  - intros c Hc Hl. rewrite Hl in Hc. cbn in Hc.
    assert (state_ c = kDisconnected ∧ ch_added (channel_ c) = true) as [Hst Ha].
    { unfold conn_life in Hl. destruct (state_ c); try done. by destruct (ch_added (channel_ c)). }
    unfold connectDestroyed. rewrite Hst. cbn [bool_decide decide]. cbn.
    destruct (remove_spec c Hc Hst) as (c' & Hr & Hinv & _ & Hst').
    exists c'. split; [exact Hr|].
    assert (ch_added (channel_ c') = false) as Ha'.
    { destruct (inv_quiet _ _ Hc Hst) as [Hq1 Hq2].
      destruct (ch_remove_law (channel_ c) (inv_ch _ _ Hc) Ha Hq1 Hq2) as (ch & Hch & _ & _ & _ & Hf).
      unfold on_channel in Hr. rewrite Hch in Hr. cbn in Hr. by injection Hr as <-. }
    assert (conn_life c' = Destroyed) as Hl' by (unfold conn_life; by rewrite Hst', Ha').
    by rewrite Hl'.
Qed.
End ConnInstance.

Module Server.
Import LoopPool.

Inductive functor :=
  | FListen
  | FEstablished (c : nat)
  | FRemove (c : nat)            (* TcpServer::removeConnectionInLoop *)
  | FDestroyed (c : nat).
#[export] Instance functor_eq_dec : EqDecision functor.
Proof. solve_decision. Defined.

Section Server.
Context {N : Type} `{ConnectionI N}.

Record connection := mkConnection { c_name : list byte; c_loop : Z; c_fd : Z; c_n : N }.

Record server := mkServer {
  loop_ : Z;
  ipPort_ : list byte;
  name_ : list byte;
  threadPool_ : EventLoopThreadPool;
  started_ : Z;
  nextConnId_ : Z;
  connections_ : gmap (list byte) nat;
  listenning_ : bool;                  (* the acceptor listens *)
  conns : list connection;
  queue : list (Z * functor);
  alive : bool                         (* ~TcpServer has not run *)
}.

Definition newServer (loop : Z) (ipPort nameArg : list byte) : server :=
  mkServer loop ipPort nameArg (newPool loop nameArg) Atomic.new 1 ∅ false [] [] true.

(** Setters *)
Definition with_pool (p : EventLoopThreadPool) (s : server) : server :=
  mkServer (loop_ s) (ipPort_ s) (name_ s) p (started_ s) (nextConnId_ s) (connections_ s) (listenning_ s)
    (conns s) (queue s) (alive s).
Definition with_started (v : Z) (s : server) : server :=
  mkServer (loop_ s) (ipPort_ s) (name_ s) (threadPool_ s) v (nextConnId_ s) (connections_ s) (listenning_ s)
    (conns s) (queue s) (alive s).
Definition with_listenning (b : bool) (s : server) : server :=
  mkServer (loop_ s) (ipPort_ s) (name_ s) (threadPool_ s) (started_ s) (nextConnId_ s) (connections_ s) b
    (conns s) (queue s) (alive s).
Definition with_queue (q : list (Z * functor)) (s : server) : server :=
  mkServer (loop_ s) (ipPort_ s) (name_ s) (threadPool_ s) (started_ s) (nextConnId_ s) (connections_ s)
    (listenning_ s) (conns s) q (alive s).
Definition with_conns (id : Z) (m : gmap (list byte) nat) (cs : list connection) (s : server) : server :=
  mkServer (loop_ s) (ipPort_ s) (name_ s) (threadPool_ s) (started_ s) id m
    (listenning_ s) cs (queue s) (alive s).

Definition queueInLoop (l : Z) (f : functor) (s : server) : server := with_queue (queue s ++ [(l, f)]) s.

(** An operation on the connection [c]. *)
Definition on_conn (c : nat) (op : N → res N) (s : server) : res server :=
  match conns s !! c with
  | Some o => n ← op (c_n o);
              Ok (with_conns (nextConnId_ s) (connections_ s)
                    (<[c := mkConnection (c_name o) (c_loop o) (c_fd o) n]> (conns s)) s)
  | None => Err NullDeref
  end.

Definition removeConnectionInLoop (c : nat) (s : server) : res server :=
  if negb (alive s) then Err UseAfterFree else
  match conns s !! c with
  | Some o =>
      let n := match connections_ s !! c_name o with Some _ => 1 | None => 0 end in
      let s := with_conns (nextConnId_ s) (delete (c_name o) (connections_ s)) (conns s) s in
      _ ← assert_ (n =? 1);
      Ok (queueInLoop (c_loop o) (FDestroyed c) s)
  | None => Err NullDeref
  end.

(** Running a functor in its loop. *)
Definition run_functor (f : functor) (s : server) : res server :=
  match f with
  | FListen => if alive s then Ok (with_listenning true s) else Err UseAfterFree
  | FEstablished c => on_conn c cn_established s
  | FRemove c => removeConnectionInLoop c s
  | FDestroyed c => on_conn c cn_destroyed s
  end.

(** EventLoop::runInLoop of loop [l], called in the thread of loop [at]. *)
Definition runInLoop (here l : Z) (f : functor) (s : server) : res server :=
  if here =? l then run_functor f s else Ok (queueInLoop l f s).

Definition setThreadNum (n : Z) (s : server) : res server :=
  _ ← assert_ (0 <=? n); Ok (with_pool (LoopPool.setThreadNum n (threadPool_ s)) s).

Definition start (here : Z) (cb : bool) (startLoop : Z → Z) (s : server) : res server :=
  let '(old, v) := Atomic.getAndSet 1 (started_ s) in
  let s := with_started v s in
  if old =? 0 then
    p ← LoopPool.start cb startLoop (threadPool_ s);
    let s := with_pool p s in
    _ ← assert_ (negb (listenning_ s));
    runInLoop here (loop_ s) FListen s
  else Ok s.

(** "<name>-<ipPort>#<id>" *)
Definition connName (s : server) (id : Z) : list byte :=
  name_ s ++ Format.snprintf 64 ([x2d] ++ ipPort_ s ++ [x23] ++ Format.dec id).

(** [n]: the new TcpConnection object. *)
Definition newConnection (sockfd : Z) (n : N) (s : server) : res server :=
  '(ioLoop, p) ← getNextLoop (threadPool_ s);
  let nm := connName s (nextConnId_ s) in
  id ← checked 32 [] (nextConnId_ s + 1);
  let c := length (conns s) in
  let s := with_conns id (<[nm := c]> (connections_ s))
             (conns s ++ [mkConnection nm ioLoop sockfd n]) (with_pool p s) in
  runInLoop (loop_ s) ioLoop (FEstablished c) s.

(** Called by handleClose of connection [c] in the thread of its loop. *)
Definition removeConnection (c : nat) (s : server) : res server :=
  match conns s !! c with
  | Some o => if negb (alive s) then Err UseAfterFree else runInLoop (c_loop o) (loop_ s) (FRemove c) s
  | None => Err NullDeref
  end.

(** ~TcpServer, in the base loop's thread. *)
Definition destructor (s : server) : res server :=
  s ← mfold (λ p s, match conns s !! p.2 with
                    | Some o => runInLoop (loop_ s) (c_loop o) (FDestroyed p.2) s
                    | None => Err NullDeref
                    end) (map_to_list (connections_ s)) s;
  Ok (mkServer (loop_ s) (ipPort_ s) (name_ s) (threadPool_ s) (started_ s) (nextConnId_ s) ∅
        (listenning_ s) (conns s) (queue s) false).

(** ** The server in its loops *)
Inductive event :=
  | SetThreadNum (n : Z)
  | Start (here : Z) (cb : bool) (startLoop : Z → Z)
  | Accept (sockfd : Z) (n : N)       (* the acceptor's callback *)
  | RunFunctor (l : Z)                (* loop [l] runs its oldest functor *)
  | Traffic (c : nat) (n : N)         (* connection [c] sends and receives *)
  | Close (c : nat)                   (* handleClose of connection [c] *)
  | Destruct.

(** The oldest functor of loop [l], and the rest. *)
Fixpoint pop (l : Z) (q : list (Z * functor)) : option (functor * list (Z * functor)) :=
  match q with
  | [] => None
  | (l', f) :: q =>
      if l' =? l then Some (f, q)
      else match pop l q with Some (g, q') => Some (g, (l', f) :: q') | None => None end
  end.

Definition exec (e : event) (s : server) : res server :=
  match e with
  | SetThreadNum n => setThreadNum n s
  | Start here cb startLoop => start here cb startLoop s
  | Accept sockfd n => newConnection sockfd n s
  | RunFunctor l =>
      match pop l (queue s) with
      | Some (f, q) => run_functor f (with_queue q s)
      | None => Ok s
      end
  | Traffic c n => on_conn c (λ _, Ok n) s
  | Close c => s ← on_conn c cn_close s; removeConnection c s
  | Destruct => destructor s
  end.

(** When each can occur. *)
Definition enabled (e : event) (s : server) : Prop :=
  match e with
  | SetThreadNum n => started_ s = 0 ∧ 0 ≤ n < 2 ^ 31
  | Start _ _ _ => True
  | Accept _ n => listenning_ s = true ∧ cn_ok n ∧ cn_life n = Connecting ∧ nextConnId_ s < 2 ^ 31 - 1
  | RunFunctor _ => True
  | Traffic c n => ∃ o, conns s !! c = Some o ∧ cn_ok n ∧ cn_life n = cn_life (c_n o)
  | Close c => ∃ o, conns s !! c = Some o ∧ cn_life (c_n o) = Up
  | Destruct => False
  end.

(** ** The invariant *)

(** The stage a connection is in: its life, the functors queued for it, and whether the map
    holds it. [P]: all functors not yet run. *)
Definition stage (base : Z) (c : nat) (o : connection) (P : list (Z * functor)) (reg : bool) : Prop :=
  let e := cnt (c_loop o, FEstablished c) P in
  let r := cnt (base, FRemove c) P in
  let d := cnt (c_loop o, FDestroyed c) P in
  match cn_life (c_n o) with
  | Connecting => e = 1%nat ∧ r = 0%nat ∧ d = 0%nat ∧ reg = true
  | Up => e = 0%nat ∧ r = 0%nat ∧ d = 0%nat ∧ reg = true
  | Down => e = 0%nat ∧ (r = 1%nat ∧ d = 0%nat ∧ reg = true ∨ r = 0%nat ∧ d = 1%nat ∧ reg = false)
  | Destroyed => e = 0%nat ∧ r = 0%nat ∧ d = 0%nat ∧ reg = false
  end.

Definition registered (c : nat) (o : connection) (s : server) : bool :=
  bool_decide (connections_ s !! c_name o = Some c).

(** Where a functor belongs. *)
Definition at_home (s : server) (p : Z * functor) : Prop :=
  match p.2 with
  | FListen => p.1 = loop_ s
  | FEstablished c | FDestroyed c => ∃ o, conns s !! c = Some o ∧ c_loop o = p.1
  | FRemove c => p.1 = loop_ s ∧ is_Some (conns s !! c)
  end.

(** [h]: functors taken from the queue and not yet run, or about to be queued. *)
Record inv (h : list (Z * functor)) (s : server) : Prop := mkInv {
  inv_alive : alive s = true;
  inv_home : ∀ p, p ∈ h ++ queue s → at_home s p;
  inv_conn : ∀ c o, conns s !! c = Some o →
    cn_ok (c_n o) ∧ c_name o = connName s (Z.of_nat c + 1) ∧
    stage (loop_ s) c o (h ++ queue s) (registered c o s);
  inv_reg : ∀ nm c, connections_ s !! nm = Some c → ∃ o, conns s !! c = Some o ∧ c_name o = nm;
  inv_id : nextConnId_ s = Z.of_nat (length (conns s)) + 1 ∧ nextConnId_ s < 2 ^ 31;
  inv_listen : (Nat.b2n (listenning_ s) + cnt (loop_ s, FListen) (h ++ queue s) =
    if decide (started_ s = 0%Z) then 0 else 1)%nat;
  inv_pool : if decide (started_ s = 0)
    then conns s = [] ∧ LoopPool.started_ (threadPool_ s) = false ∧ loops_ (threadPool_ s) = [] ∧
         next_ (threadPool_ s) = 0 ∧ 0 ≤ numThreads_ (threadPool_ s) < 2 ^ 31
    else ready (threadPool_ s) ∧
         next_ (threadPool_ s) = Z.of_nat (length (conns s)) mod zlen (all_loops (threadPool_ s)) ∧
         ∀ c o, conns s !! c = Some o →
           all_loops (threadPool_ s) !! Z.to_nat (Z.of_nat c mod zlen (all_loops (threadPool_ s))) = Some (c_loop o);
  inv_text : zlen (ipPort_ s) ≤ 40
}.

Context `{!ConnectionLaws N}.

(** ** Names *)
Lemma dec_inj a b : 0 ≤ a < 2 ^ 31 → 0 ≤ b < 2 ^ 31 → Format.dec a = Format.dec b → a = b.
Proof.
  intros Ha Hb E. destruct (Format.dec_spec 10 a) as [_ Hpa]; [lia|lia|].
  destruct (Format.dec_spec 10 b) as [_ Hpb]; [lia|lia|]. rewrite E in Hpa. congruence.
Qed.

Lemma connName_text s id :
  zlen (ipPort_ s) ≤ 40 → 0 ≤ id < 2 ^ 31 →
  connName s id = name_ s ++ [x2d] ++ ipPort_ s ++ [x23] ++ Format.dec id.
Proof.
  intros Hl Hid. destruct (Format.dec_spec 10 id) as [Hd _]; [lia|lia|].
  unfold connName, Format.snprintf. rewrite take_ge; [done|]. cbn. rewrite !length_app. cbn. lia.
Qed.

Lemma connName_inj s a b :
  zlen (ipPort_ s) ≤ 40 → 0 ≤ a < 2 ^ 31 → 0 ≤ b < 2 ^ 31 → connName s a = connName s b → a = b.
Proof.
  intros Hl Ha Hb. rewrite !connName_text by done. intros E.
  apply app_inv_head in E. cbn in E. injection E as E. apply app_inv_head in E. cbn in E. injection E as E.
  by apply dec_inj.
Qed.

(** ** Frame *)

(** Functors of another connection do not matter. *)
Definition about (f : functor) : option nat :=
  match f with FListen => None | FEstablished c | FRemove c | FDestroyed c => Some c end.

Lemma cnt_other (l l' : Z) f g (P : list (Z * functor)) : f ≠ g → cnt (l, f) ((l', g) :: P) = cnt (l, f) P.
Proof. intros Hne. rewrite cnt_cons, decide_False by congruence. done. Qed.

Lemma stage_perm base c o P P' reg : P ≡ₚ P' → stage base c o P reg → stage base c o P' reg.
Proof. intros Hp. unfold stage. by rewrite !(cnt_perm _ P P' Hp). Qed.

Lemma stage_other base c o l g P reg :
  about g ≠ Some c → stage base c o ((l, g) :: P) reg ↔ stage base c o P reg.
Proof. intros Hg. unfold stage. rewrite !cnt_other; [done|..]; by intros <-. Qed.

Lemma pop_spec l q f q' : pop l q = Some (f, q') → q ≡ₚ (l, f) :: q'.
Proof.
  revert q'. induction q as [|[l' g] q IH]; intros q'; cbn; [done|].
  destruct (Z.eqb_spec l' l) as [->|]; [by intros [= -> ->]|].
  destruct (pop l q) as [[g' q1]|]; [|done]. intros [= -> <-]. rewrite (IH q1) by done. constructor.
Qed.

Lemma server_inv_perm h q h' q' s :
  h ++ q ≡ₚ h' ++ q' → inv h (with_queue q s) → inv h' (with_queue q' s).
Proof.
  intros Hp [Ha Hh Hc Hr Hi Hl Hpo Ht]. cbn in *. split; cbn; try done.
  - intros p Hin. apply Hh. by rewrite Hp.
  - intros c o Ho. destruct (Hc c o Ho) as (? & ? & Hs). split_and!; try done. eapply stage_perm; [exact Hp|done].
  - by rewrite <-(cnt_perm _ _ _ Hp).
Qed.

Lemma stage_others h base c c' o P reg :
  (∀ p, p ∈ h → about p.2 = Some c) → c' ≠ c → stage base c' o (h ++ P) reg ↔ stage base c' o P reg.
Proof.
  intros Hh Hne. induction h as [|[l f] h IH]; [done|]. cbn [app]. rewrite stage_other.
  - apply IH. intros p Hp. apply Hh. by right.
  - specialize (Hh (l, f) ltac:(left)). cbn in Hh. rewrite Hh. congruence.
Qed.

Lemma cnt_listen_others h c (l : Z) P :
  (∀ p, p ∈ h → about p.2 = Some c) → cnt (l, FListen) (h ++ P) = cnt (l, FListen) P.
Proof.
  intros Hh. induction h as [|[l' f] h IH]; [done|]. cbn [app]. rewrite cnt_other.
  - apply IH. intros p Hp. apply Hh. by right.
  - specialize (Hh (l', f) ltac:(left)). cbn in Hh. by intros <-.
Qed.

(** The connection [c] changes, and so do the functors in hand for it. *)
Definition set_conn (c : nat) (o : connection) (n : N) (s : server) : server :=
  with_conns (nextConnId_ s) (connections_ s) (<[c := mkConnection (c_name o) (c_loop o) (c_fd o) n]> (conns s)) s.

Lemma at_home_update c o n s p : conns s !! c = Some o → at_home s p → at_home (set_conn c o n s) p.
Proof.
  intros Ho Hp. assert (∀ c' o', conns s !! c' = Some o' →
    ∃ o'', conns (set_conn c o n s) !! c' = Some o'' ∧ c_loop o'' = c_loop o') as Hl.
  { intros c' o' Ho'. cbn. destruct (decide (c' = c)) as [->|Hne].
    - rewrite list_lookup_insert_eq by (by eapply lookup_lt_Some). rewrite Ho in Ho'. injection Ho' as <-. by eexists.
    - rewrite list_lookup_insert_ne by done. by eexists. }
  unfold at_home in *. destruct p.2; try done.
  - destruct Hp as (o' & Ho' & <-). destruct (Hl _ _ Ho') as (o'' & ? & ?). by exists o''.
  - destruct Hp as (? & o' & Ho'). split; [done|]. destruct (Hl _ _ Ho') as (o'' & ? & ?). by eexists.
  - destruct Hp as (o' & Ho' & <-). destruct (Hl _ _ Ho') as (o'' & ? & ?). by exists o''.
Qed.

Lemma update_inv h h' s c o n :
  inv h s → conns s !! c = Some o → cn_ok n →
  (∀ p, p ∈ h ++ h' → about p.2 = Some c) → (∀ p, p ∈ h' → at_home s p) →
  stage (loop_ s) c (mkConnection (c_name o) (c_loop o) (c_fd o) n) (h' ++ queue s) (registered c o s) →
  inv h' (set_conn c o n s).
Proof.
  intros [Ha Hh Hc Hr Hi Hl Hpo Ht] Ho Hn Hab Hat Hst.
  assert (∀ p, p ∈ h → about p.2 = Some c) as Hab1 by (intros p Hp; apply Hab, elem_of_app; by left).
  assert (∀ p, p ∈ h' → about p.2 = Some c) as Hab2 by (intros p Hp; apply Hab, elem_of_app; by right).
  assert (c < length (conns s))%nat as Hlt by (by eapply lookup_lt_Some).
  split; cbn; try done.
  - intros p [Hp|Hp]%elem_of_app; apply at_home_update; auto. apply Hh, elem_of_app. by right.
  - intros c' o' Ho'. destruct (decide (c' = c)) as [->|Hne].
    + rewrite list_lookup_insert_eq in Ho' by done. injection Ho' as <-. cbn.
      destruct (Hc c o Ho) as (_ & ? & _). by split_and!.
    + rewrite list_lookup_insert_ne in Ho' by done. destruct (Hc c' o' Ho') as (? & ? & Hs). split_and!; try done.
      rewrite (stage_others h' _ c) by done. by rewrite (stage_others h _ c) in Hs.
  - intros nm c' Hm. destruct (Hr nm c' Hm) as (o' & Ho' & Hnm). destruct (decide (c' = c)) as [->|Hne].
    + rewrite list_lookup_insert_eq by done. rewrite Ho in Ho'. injection Ho' as <-. by eexists.
    + rewrite list_lookup_insert_ne by done. by exists o'.
  - by rewrite length_insert.
  - rewrite (cnt_listen_others h' c) by done. by rewrite (cnt_listen_others h c) in Hl.
  - destruct (decide (started_ s = 0)).
    + destruct Hpo as (E & _). rewrite E in Hlt. cbn in Hlt. lia.
    + destruct Hpo as (Hp1 & Hp2 & Hp3). rewrite length_insert. split_and!; try done.
      intros c' o' Ho'. destruct (decide (c' = c)) as [->|Hne].
      * rewrite list_lookup_insert_eq in Ho' by done. injection Ho' as <-. cbn. by apply Hp3.
      * rewrite list_lookup_insert_ne in Ho' by done. by apply Hp3.
Qed.

Lemma on_conn_Ok c o op n s : conns s !! c = Some o → op (c_n o) = Ok n → on_conn c op s = Ok (set_conn c o n s).
Proof. intros Ho Hop. unfold on_conn. by rewrite Ho, Hop. Qed.

Ltac in_hand := intros p; rewrite ?app_nil_r, ?app_nil_l; first
  [intros ->%list_elem_of_singleton; done | intros Hp; exfalso; revert Hp; apply not_elem_of_nil].

(** The functors of the connections. *)
Lemma run_established l c s : inv [(l, FEstablished c)] s →
  ∃ s', run_functor (FEstablished c) s = Ok s' ∧ inv [] s'.
Proof.
  intros Hinv. destruct (inv_home _ _ Hinv (l, FEstablished c)) as (o & Ho & El); [left|]. cbn in El. subst l.
  destruct (inv_conn _ _ Hinv c o Ho) as (Hok & _ & Hst). unfold stage in Hst. cbn [app] in Hst.
  rewrite cnt_cons, decide_True, !cnt_other in Hst by done.
  assert (cn_life (c_n o) = Connecting) as Hlf by (destruct (cn_life (c_n o)); [done|exfalso; lia..]).
  rewrite Hlf in Hst. destruct (cn_established_law (c_n o) Hok Hlf) as (n & Hn & Hok' & Hl').
  eexists. split; [by apply on_conn_Ok|]. eapply update_inv; [exact Hinv|done|done|in_hand|in_hand|].
  unfold stage. cbn. rewrite Hl'. split_and!; [lia..|]. by destruct Hst as (_ & _ & _ & ->).
Qed.

Lemma run_destroyed l c s : inv [(l, FDestroyed c)] s →
  ∃ s', run_functor (FDestroyed c) s = Ok s' ∧ inv [] s'.
Proof.
  intros Hinv. destruct (inv_home _ _ Hinv (l, FDestroyed c)) as (o & Ho & El); [left|]. cbn in El. subst l.
  destruct (inv_conn _ _ Hinv c o Ho) as (Hok & _ & Hst). unfold stage in Hst. cbn [app] in Hst.
  rewrite cnt_cons, (cnt_cons (loop_ s, FRemove c)), (cnt_cons (c_loop o, FDestroyed c)) in Hst.
  rewrite !decide_False, decide_True in Hst by congruence.
  assert (cn_life (c_n o) = Down) as Hlf by (destruct (cn_life (c_n o)); [exfalso; lia..|done|exfalso; lia]).
  rewrite Hlf in Hst. destruct (cn_destroyed_law (c_n o) Hok Hlf) as (n & Hn & Hok' & Hl').
  eexists. split; [by apply on_conn_Ok|]. eapply update_inv; [exact Hinv|done|done|in_hand|in_hand|].
  unfold stage. cbn. rewrite Hl'. destruct Hst as (? & [Hx|(? & ? & ->)]); [lia|]. split_and!; try done; lia.
Qed.

(** Dropping a functor of the loop in hand onto its queue. *)
Lemma queue_server_inv l f s : inv [(l, f)] s → inv [] (queueInLoop l f s).
Proof.
  intros Hinv. unfold queueInLoop. eapply (server_inv_perm [(l, f)] (queue s)).
  - cbn. by rewrite <-Permutation_cons_append.
  - by destruct s.
Qed.

Lemma run_remove l c s : inv [(l, FRemove c)] s → ∃ s', run_functor (FRemove c) s = Ok s' ∧ inv [] s'.
Proof.
  intros Hinv. destruct (inv_home _ _ Hinv (l, FRemove c)) as (El & o & Ho); [left|]. cbn in El. subst l.
  destruct (inv_conn _ _ Hinv c o Ho) as (Hok & Hnm & Hst). unfold stage in Hst. cbn [app] in Hst.
  rewrite cnt_cons, (cnt_cons (loop_ s, FRemove c)), (cnt_cons (c_loop o, FDestroyed c)) in Hst.
  rewrite !decide_False, decide_True in Hst by congruence.
  assert (cn_life (c_n o) = Down) as Hlf by (destruct (cn_life (c_n o)); [exfalso; lia..|done|exfalso; lia]).
  rewrite Hlf in Hst. destruct Hst as (He & [(Hr & Hd & Hreg)|Hx]); [|lia].
  apply bool_decide_eq_true in Hreg. cbn [run_functor]. unfold removeConnectionInLoop.
  rewrite (inv_alive _ _ Hinv). cbn [negb]. rewrite Ho, Hreg. cbn [Z.eqb Pos.eqb assert_ mbind res_bind].
  eexists. split; [done|]. apply queue_server_inv. pose proof Hinv as [Ha Hh Hc Hrg [Hi1 Hi2] Hl Hpo Ht].
  split; cbn; try done.
  - intros p [->|Hp]%elem_of_cons; [by exists o|]. apply (Hh p). by right.
  - intros c' o' Ho'. destruct (Hc c' o' Ho') as (? & Hnm' & Hs'). split; [done|]. split; [done|].
    pose proof (lookup_lt_Some _ _ _ Ho). pose proof (lookup_lt_Some _ _ _ Ho').
    destruct (decide (c' = c)) as [->|Hne].
    + rewrite Ho in Ho'. injection Ho' as <-. unfold stage, registered. cbn. rewrite Hlf.
      rewrite cnt_cons, (cnt_cons (loop_ s, FRemove c)), (cnt_cons (c_loop o, FDestroyed c)).
      rewrite !decide_False, decide_True by congruence. rewrite lookup_delete_eq. split; [lia|]. right.
      split_and!; [lia|lia|done].
    + rewrite stage_other by (cbn; congruence). cbn [app] in Hs'. rewrite stage_other in Hs' by (cbn; congruence).
      unfold registered in *. cbn. rewrite lookup_delete_ne; [done|]. rewrite Hnm, Hnm'.
      intros E%connName_inj; [lia|done|lia|lia].
  - intros nm c' [_ Hm]%lookup_delete_Some. by apply Hrg.
  - cbn [app] in Hl. rewrite cnt_other by done. by rewrite cnt_other in Hl by done.
Qed.

Lemma run_listen l s : inv [(l, FListen)] s → ∃ s', run_functor FListen s = Ok s' ∧ inv [] s'.
Proof.
  intros [Ha Hh Hc Hrg Hi Hl Hpo Ht]. cbn [run_functor]. rewrite Ha. eexists. split; [done|].
  pose proof (Hh (l, FListen) ltac:(left)) as El. cbn in El. subst l.
  split; cbn; try done.
  - intros p Hp. apply (Hh p). by right.
  - intros c o Ho. destruct (Hc c o Ho) as (? & ? & Hs). split_and!; try done. cbn [app] in Hs. by rewrite stage_other in Hs.
  - cbn [app] in Hl. rewrite cnt_cons, decide_True in Hl by done.
    destruct (decide (started_ s = 0)), (listenning_ s); cbn in *; lia.
Qed.

Lemma server_run_functor l f s : inv [(l, f)] s → ∃ s', run_functor f s = Ok s' ∧ inv [] s'.
Proof.
  destruct f; [apply run_listen|apply run_established|apply run_remove|apply run_destroyed].
Qed.

Lemma runInLoop_spec here l f s : inv [(l, f)] s → ∃ s', runInLoop here l f s = Ok s' ∧ inv [] s'.
Proof.
  intros Hinv. unfold runInLoop. destruct (here =? l); [by eapply server_run_functor|].
  eexists. split; [done|]. by apply queue_server_inv.
Qed.

(** A new connection. *)
(** No functor is queued about a connection that does not exist yet. *)
Lemma fresh_functors l f s :
  inv [] s → about f = Some (length (conns s)) → cnt (l, f) (queue s) = 0%nat.
Proof.
  intros Hinv Hab. pose proof Hinv as [_ Hh _ _ _ _ _ _]. cbn [app] in Hh.
  destruct (decide (cnt (l, f) (queue s) = 0%nat)); [done|]. exfalso.
  assert ((l, f) ∈ queue s) as Hin by (apply cnt_pos; lia). specialize (Hh _ Hin). unfold at_home in Hh.
  assert (∀ o, conns s !! length (conns s) ≠ Some o) as Hno by (intros o ?%lookup_lt_Some; lia).
  cbn in Hh. destruct f; cbn in Hab; try done; injection Hab as ->.
  - destruct Hh as (o & Ho & _). by apply (Hno o).
  - destruct Hh as (_ & o & Ho). by apply (Hno o).
  - destruct Hh as (o & Ho & _). by apply (Hno o).
Qed.

Lemma newConnection_spec sockfd n s :
  inv [] s → enabled (Accept sockfd n) s → ∃ s', newConnection sockfd n s = Ok s' ∧ inv [] s'.
Proof.
  intros Hinv (Hlis & Hok & Hlf & Hid). pose proof Hinv as [Ha Hh Hc Hrg [Hi1 Hi2] Hl Hpo Ht].
  cbn [app] in *. rewrite Hlis in Hl. destruct (decide (started_ s = 0)) as [|Hst]; [cbn in Hl; lia|].
  destruct Hpo as (Hready & Hnext & Hrr). unfold newConnection.
  destruct (getNextLoop_spec _ Hready) as (l & Hlk & -> & Hready'). cbn [mbind res_bind].
  rewrite checked_ok by (repeat constructor; unfold in_s; cbn; lia). cbn [mbind res_bind].
  apply runInLoop_spec. set (c := length (conns s)). set (nm := connName s (nextConnId_ s)).
  assert (∀ c' o', conns s !! c' = Some o' → (c' < c)%nat) as Hlt by (intros ?? ?%lookup_lt_Some; done).
  assert (∀ l' f, about f = Some c → cnt (l', f) (queue s) = 0%nat) as Hzero by (intros; by apply fresh_functors).
  split; cbn; try done.
  - intros p [->|Hp]%elem_of_cons.
    + eexists. cbn. rewrite lookup_app_r, Nat.sub_diag by lia. by cbn.
    + specialize (Hh p Hp). unfold at_home in *. cbn. destruct p.2; try done.
      * destruct Hh as (o & Ho & ?). exists o. by rewrite lookup_app_l by (by eapply lookup_lt_Some).
      * destruct Hh as (? & o & Ho). split; [done|]. exists o. by rewrite lookup_app_l by (by eapply lookup_lt_Some).
      * destruct Hh as (o & Ho & ?). exists o. by rewrite lookup_app_l by (by eapply lookup_lt_Some).
  - intros c' o' [Ho'|[Hle Ho']]%lookup_app_Some.
    + specialize (Hlt _ _ Ho'). destruct (Hc c' o' Ho') as (? & Hnm' & Hs'). split_and!; try done.
      rewrite stage_other by (cbn; injection 1; lia). unfold registered in *. cbn. rewrite lookup_insert_ne; [done|].
      unfold nm. rewrite Hnm'. intros E%connName_inj; [lia|done|lia|lia].
    + apply list_lookup_singleton_Some in Ho' as [Hc0 <-]. assert (c' = c) as -> by lia. cbn.
      split; [done|]. split; [unfold nm; by rewrite Hi1|].
      unfold stage, registered. cbn. rewrite Hlf, cnt_cons, decide_True, !cnt_other, !Hzero by done.
      by rewrite lookup_insert_eq, bool_decide_true.
  - intros nm' c' [[<- <-]|[Hne Hm]]%lookup_insert_Some.
    + eexists. rewrite lookup_app_r, Nat.sub_diag by lia. by cbn.
    + destruct (Hrg _ _ Hm) as (o & Ho & ?). exists o. by rewrite lookup_app_l by (by eapply lookup_lt_Some).
  - rewrite length_app. cbn. lia.
  - rewrite cnt_other by done. rewrite Hlis, decide_False by done. exact Hl.
  - rewrite decide_False by done. set (p := with_next _ _) in *. split; [done|]. split.
    + cbn. rewrite length_app, Hnext, Zplus_mod_idemp_l. f_equal. cbn. lia.
    + intros c' o' [Ho'|[Hle Ho']]%lookup_app_Some; [by apply Hrr|].
      apply list_lookup_singleton_Some in Ho' as [Hc0 <-]. assert (c' = c) as -> by lia.
      cbn [c_loop]. change (all_loops p) with (all_loops (threadPool_ s)). unfold c. by rewrite <-Hnext.
Qed.

Lemma pool_start_ready cb startLoop p :
  LoopPool.started_ p = false → loops_ p = [] → next_ p = 0 → 0 ≤ numThreads_ p < 2 ^ 31 →
  ∃ p', LoopPool.start cb startLoop p = Ok p' ∧ ready p' ∧ next_ p' = 0.
Proof.
  intros Hs Hl Hn Ht. unfold LoopPool.start. rewrite Hs. cbn [negb assert_ mbind res_bind].
  set (p0 := mkPool _ _ _ _ _ _ _ _). destruct (start_threads cb startLoop (Z.to_nat (numThreads_ p)) p0)
    as (H1 & H2 & H3 & H4 & H5 & H6 & H7). rewrite Z2Nat.id in * by lia.
  change (numThreads_ p0) with (numThreads_ p). set (p1 := foldl _ _ _) in *.
  change (loops_ p0) with (loops_ p) in H1. change (next_ p0) with (next_ p) in H6. rewrite Hl in H1. eexists. split; [done|].
  assert (ready p1 ∧ next_ p1 = 0) as [Hr Hx]; [|destruct (_ && _); exact (conj Hr Hx)].
  split; [|congruence]. split; [done|]. rewrite H1, H6, Hn. cbn. rewrite length_fmap, length_seqZ. split; [|lia].
  pose proof (all_loops_nonempty p1). destruct (all_loops p1); cbn; [done|lia].
Qed.

Lemma start_spec here cb startLoop s : inv [] s → ∃ s', start here cb startLoop s = Ok s' ∧ inv [] s'.
Proof.
  intros Hinv. pose proof Hinv as [Ha Hh Hc Hrg Hi Hl Hpo Ht]. cbn [app] in *.
  unfold start. cbn [Atomic.getAndSet Atomic.lock_test_and_set].
  destruct (Z.eqb_spec (started_ s) 0) as [Hs|Hs].
  - destruct (decide (started_ s = 0)); [|done]. destruct Hpo as (Hnil & Hps & Hpl & Hpn & Hpt).
    cbn [threadPool_ with_started]. destruct (pool_start_ready cb startLoop _ Hps Hpl Hpn Hpt) as (p & -> & Hr & Hx).
    cbn [mbind res_bind]. assert (listenning_ s = false) as Hlis by (destruct (listenning_ s); cbn in Hl; [lia|done]).
    cbn [listenning_ with_pool with_started]. rewrite Hlis. cbn [negb assert_ mbind res_bind].
    apply runInLoop_spec. split; cbn; rewrite ?Hnil, ?Hlis; try done.
    + intros q [->|Hq]%elem_of_cons; [done|]. specialize (Hh q Hq). unfold at_home in *. cbn. by rewrite Hnil in *.
    + intros nm c Hm. destruct (Hrg nm c Hm) as (o & Ho & _). by rewrite Hnil in Ho.
    + by rewrite Hnil in Hi.
    + rewrite cnt_cons, decide_True by done. rewrite Hlis in Hl. cbn in Hl |- *. by rewrite Hl.
  - eexists. split; [done|]. destruct (decide (started_ s = 0)); [done|]. split; cbn; try done.
Qed.

Lemma server_exec_spec e s : inv [] s → enabled e s → ∃ s', exec e s = Ok s' ∧ inv [] s'.
Proof.
  intros Hinv He. destruct e as [n|here cb sl|fd n|l|c n|c|]; cbn [exec].
  - destruct He as [Hs Hn]. unfold setThreadNum. rewrite (proj2 (Z.leb_le 0 n)) by lia. cbn [assert_ mbind res_bind].
    eexists. split; [done|]. destruct Hinv as [Ha Hh Hc Hrg Hi Hl Hpo Ht]. split; cbn; try done.
    rewrite decide_True in Hpo |- * by done. destruct Hpo as (? & ? & ? & ? & ?). split_and!; try done; lia.
  - by apply start_spec.
  - by apply newConnection_spec.
  - destruct (pop l (queue s)) as [[f q]|] eqn:Hp; [|by exists s]. apply pop_spec in Hp.
    apply (server_run_functor l). eapply (server_inv_perm [] (queue s)); [|by destruct s]. cbn. by rewrite Hp.
  - destruct He as (o & Ho & Hok & Hlf). exists (set_conn c o n s). split; [by apply on_conn_Ok|].
    eapply update_inv; [exact Hinv|done|done|in_hand|in_hand|].
    destruct (inv_conn _ _ Hinv c o Ho) as (_ & _ & Hst). unfold stage in *. cbn in *. by rewrite Hlf.
  - destruct He as (o & Ho & Hlf). destruct (inv_conn _ _ Hinv c o Ho) as (Hok & _ & Hst).
    destruct (cn_close_law (c_n o) Hok Hlf) as (n & Hn & Hok' & Hl').
    rewrite (on_conn_Ok c o _ n) by done. cbn [mbind res_bind]. unfold removeConnection.
    cbn [conns set_conn with_conns alive loop_]. rewrite list_lookup_insert_eq by (by eapply lookup_lt_Some).
    rewrite (inv_alive _ _ Hinv). cbn [negb]. apply runInLoop_spec.
    eapply (update_inv [] [(loop_ s, FRemove c)]); [exact Hinv|done|done|in_hand| |].
    + intros p ->%list_elem_of_singleton. split; [done|]. by eexists.
    + unfold stage in *. cbn in *. rewrite Hl'. rewrite Hlf in Hst. destruct Hst as (? & ? & ? & Hreg).
      rewrite cnt_cons, (cnt_cons (loop_ s, FRemove c)), (cnt_cons (c_loop o, FDestroyed c)).
      rewrite decide_False, decide_True, decide_False by congruence. split; [lia|]. left. split_and!; [lia|lia|done].
  - done.
Qed.

Inductive step (s s' : server) : Prop :=
  | step_intro e : enabled e s → exec e s = Ok s' → step s s'.

Lemma server_reachable_inv loop ipPort name s :
  zlen ipPort ≤ 40 → rtc step (newServer loop ipPort name) s → inv [] s.
Proof.
  intros Ht. apply rtc_invariant.
  - intros a b Ha [e He Hx]. destruct (server_exec_spec e a Ha He) as (b' & Hb & ?). congruence.
  - split; cbn; try done.
    + intros p Hp. by apply not_elem_of_nil in Hp.
Qed.

(** The functors to run until all queues are empty. *)
Definition weight (p : Z * functor) : nat := match p.2 with FRemove _ => 2 | _ => 1 end.
Definition work (s : server) : nat := sum_list (map weight (queue s)).

Lemma sum_weights_perm q q' : q ≡ₚ q' → sum_list (map weight q) = sum_list (map weight q').
Proof. induction 1; cbn; lia. Qed.

Lemma run_functor_queue f s s' :
  run_functor f s = Ok s' → (sum_list (map weight (queue s')) < weight (0%Z, f) + sum_list (map weight (queue s)))%nat.
Proof.
  destruct f as [|c|c|c]; cbn [run_functor weight].
  - destruct (alive s); [|done]. intros [= <-]. cbn. lia.
  - unfold on_conn. destruct (conns s !! c); [|done]. intros (n & _ & [= <-])%bind_Ok. cbn. lia.
  - unfold removeConnectionInLoop. destruct (alive s), (conns s !! c) as [o|]; try done.
    intros (u & _ & [= <-])%bind_Ok. cbn. rewrite map_app, sum_list_with_app. cbn. lia.
  - unfold on_conn. destruct (conns s !! c); [|done]. intros (n & _ & [= <-])%bind_Ok. cbn. lia.
Qed.

(** ** Theorems *)

(** C5: the server is safe. However connections come up and close and the io loops and the
    base loop interleave, no assertion fails: every connection is established once, in its
    loop, removed from the map once, in the base loop, and destroyed once, in its loop
    again, in this order. The map holds every connection that is coming up or is up, under
    a name no other connection ever has. *)
Theorem server_safe (loop : Z) (ipPort name : list byte) (s : server) (e : event)
    (Ht : zlen ipPort ≤ 40) (Hreach : rtc step (newServer loop ipPort name) s) (He : enabled e s) :
  is_ok (exec e s) = true ∧
  (∀ nm c, connections_ s !! nm = Some c →
     ∃ o, conns s !! c = Some o ∧ c_name o = nm ∧ cn_life (c_n o) ≠ Destroyed) ∧
  (∀ c o, conns s !! c = Some o → cn_life (c_n o) = Connecting ∨ cn_life (c_n o) = Up →
     connections_ s !! c_name o = Some c) ∧
  NoDup (c_name <$> conns s).
Proof.
  pose proof (server_reachable_inv _ _ _ _ Ht Hreach) as Hinv. split.
  { by destruct (server_exec_spec e s Hinv He) as (s' & -> & _). }
  destruct Hinv as [_ _ Hc Hrg [Hi1 Hi2] _ _ Hl]. split_and!.
  - intros nm c Hm. destruct (Hrg nm c Hm) as (o & Ho & Hnm). exists o. split_and!; try done. intros Hd.
    destruct (Hc c o Ho) as (_ & _ & Hs). unfold stage in Hs. rewrite Hd in Hs. destruct Hs as (_ & _ & _ & Hr).
    unfold registered in Hr. by rewrite Hnm, bool_decide_true in Hr.
  - intros c o Ho Hlf. destruct (Hc c o Ho) as (_ & _ & Hs). unfold stage, registered in Hs.
    eapply bool_decide_eq_true_1. destruct Hlf as [E|E]; rewrite E in Hs; apply Hs.
  - apply NoDup_alt. intros i j nm. rewrite !list_lookup_fmap, !fmap_Some.
    intros (o & Ho & ->) (o' & Ho' & Hn). destruct (Hc i o Ho) as (_ & E & _). destruct (Hc j o' Ho') as (_ & E' & _).
    pose proof (lookup_lt_Some _ _ _ Ho). pose proof (lookup_lt_Some _ _ _ Ho').
    rewrite E, E' in Hn. apply connName_inj in Hn; [lia|done|lia|lia].
Qed.

(** C20: nothing is left over. Running functors, in whatever order the loops do it, comes to an
    end, and when all queues are empty every connection is either up and in the map, or
    destroyed and no longer there: the map holds exactly the connections that are up. The
    connections are spread over the loops in cyclic order. *)
Theorem server_settles (loop : Z) (ipPort name : list byte) (s : server)
    (Ht : zlen ipPort ≤ 40) (Hreach : rtc step (newServer loop ipPort name) s) :
  (∀ l s', is_Some (pop l (queue s)) → exec (RunFunctor l) s = Ok s' → (work s' < work s)%nat) ∧
  (queue s = [] → ∀ c o, conns s !! c = Some o →
     cn_life (c_n o) = Up ∧ connections_ s !! c_name o = Some c ∨
     cn_life (c_n o) = Destroyed ∧ connections_ s !! c_name o = None) ∧
  (∀ c o, conns s !! c = Some o →
     all_loops (threadPool_ s) !! Z.to_nat (Z.of_nat c mod zlen (all_loops (threadPool_ s))) = Some (c_loop o)).
Proof.
  pose proof (server_reachable_inv _ _ _ _ Ht Hreach) as [_ _ Hc Hrg [Hi1 Hi2] _ Hpo Hl]. split_and!.
  - intros l s' [[f q] Hp]. cbn [exec]. rewrite Hp. intros Hx%run_functor_queue. apply pop_spec in Hp.
    unfold work. rewrite (sum_weights_perm _ _ Hp). exact Hx.
  - intros Hq c o Ho. destruct (Hc c o Ho) as (_ & Hnm & Hs). unfold stage in Hs. rewrite Hq in Hs. cbn [app] in Hs. rewrite !cnt_nil in Hs.
    unfold registered in Hs. destruct (cn_life (c_n o)); try (exfalso; lia).
    + left. split; [done|]. eapply bool_decide_eq_true_1. apply Hs.
    + right. split; [done|]. destruct Hs as (_ & _ & _ & Hr). apply bool_decide_eq_false in Hr.
      destruct (connections_ s !! c_name o) as [c'|] eqn:Hm; [|done]. destruct (Hrg _ _ Hm) as (o' & Ho' & Hn').
      destruct (Hc c' o' Ho') as (_ & E' & _). rewrite Hnm, E' in Hn'.
      pose proof (lookup_lt_Some _ _ _ Ho). pose proof (lookup_lt_Some _ _ _ Ho').
      apply connName_inj in Hn'; [|done|lia|lia]. destruct Hr. f_equal. lia.
  - intros c o Ho. destruct (decide (started_ s = 0)); [destruct Hpo as (E & _); by rewrite E in Ho|]. by apply Hpo.
Qed.
End Server.
Arguments connection : clear implicits.
Arguments server : clear implicits.
Arguments event : clear implicits.

(** ** Witnesses: a server with two io loops over the real connection *)
Import Demo.
#[local] Instance demo_conn_interface : ConnectionI Conn.demo_conn := conn_interface Conn.echo.
#[local] Instance demo_conn_laws : ConnectionLaws Conn.demo_conn := conn_interface_laws Conn.echo Conn.echo_ok.

Definition fresh_conn : Conn.demo_conn := Conn.newConn reactor0.
Definition demo_server : server Conn.demo_conn := newServer 1 [x3a; x39] [x73].
Definition demo_after (es : list (event Conn.demo_conn)) : server Conn.demo_conn :=
  match mfold exec es demo_server with Ok s => s | Err _ => demo_server end.

Lemma fresh_conn_ok : cn_ok fresh_conn ∧ cn_life fresh_conn = Connecting.
Proof.
  split; [|done]. destruct reactor0_ok as (Hok & Hr & Hw).
  by destruct (Conn.newConn_Inv reactor0 Hok Hr Hw) as [Hinv _].
Qed.

Lemma demo_server_snoc es e :
  rtc step demo_server (demo_after es) → is_ok (mfold exec es demo_server) = true →
  enabled e (demo_after es) → is_ok (exec e (demo_after es)) = true → rtc step demo_server (demo_after (es ++ [e])).
Proof.
  intros Hr Hes He Hx. eapply rtc_r; [exact Hr|]. exists e; [done|]. revert Hx. unfold demo_after in *.
  rewrite mfold_app. destruct (mfold exec es demo_server) as [s|]; [|done]. cbn.
  by destruct (exec e s) as [s'|].
Qed.

(** Two connections, one of which is established and closes. *)
Definition demo_run : list (event Conn.demo_conn) :=
  [SetThreadNum 2; Start 1 true (λ i, 100 + i); Accept 7 fresh_conn; Accept 8 fresh_conn; RunFunctor 100; Close 0].

Ltac reach_server :=
  repeat (apply demo_server_snoc; [|by vm_compute| |by vm_compute]); try apply rtc_refl; cbn [enabled]; try done.

Lemma demo_run_reachable : rtc step demo_server (demo_after demo_run).
Proof.
  destruct fresh_conn_ok as [Hok Hlf].
  change demo_run with (((((([] ++ [SetThreadNum 2]) ++ [Start 1 true (λ i, 100 + i)]) ++ [Accept 7 fresh_conn]) ++
    [Accept 8 fresh_conn]) ++ [RunFunctor 100]) ++ [Close 0]).
  reach_server.
  - eexists. split; [vm_compute; reflexivity|by vm_compute].
Qed.

Lemma server_safe_witness :
  is_ok (exec (RunFunctor 1) (demo_after demo_run)) = true ∧ NoDup (c_name <$> conns (demo_after demo_run)) ∧
  c_name <$> conns (demo_after demo_run) = [[x73; x2d; x3a; x39; x23; x31]; [x73; x2d; x3a; x39; x23; x32]].
Proof.
  destruct (server_safe 1 [x3a; x39] [x73] (demo_after demo_run) (RunFunctor 1)) as (H1 & _ & _ & H2);
    [done|exact demo_run_reachable|done|].
  split; [exact H1|]. split; [exact H2|by vm_compute].
Defined.

(** All functors run: the first connection is gone, the second one is up. *)
Definition settled_run : list (event Conn.demo_conn) :=
  ((demo_run ++ [RunFunctor 1]) ++ [RunFunctor 100]) ++ [RunFunctor 101].
Lemma server_settles_witness :
  queue (demo_after settled_run) = [] ∧
  ∃ o, conns (demo_after settled_run) !! 0%nat = Some o ∧
       (cn_life (c_n o) = Up ∧ connections_ (demo_after settled_run) !! c_name o = Some 0%nat ∨
        cn_life (c_n o) = Destroyed ∧ connections_ (demo_after settled_run) !! c_name o = None).
Proof.
  assert (rtc step demo_server (demo_after settled_run)) as Hreach.
  { unfold settled_run. do 3 (apply demo_server_snoc; [|by vm_compute|done|by vm_compute]). exact demo_run_reachable. }
  assert (queue (demo_after settled_run) = []) as Hq by (vm_compute; reflexivity).
  split; [exact Hq|].
  destruct (conns (demo_after settled_run) !! 0%nat) as [o|] eqn:Ho; [|by vm_compute in Ho].
  exists o. split; [reflexivity|].
  exact (proj1 (proj2 (server_settles 1 [x3a; x39] [x73] (demo_after settled_run) ltac:(done) Hreach)) Hq 0%nat o Ho).
Defined.

(** A connection that closes while its server is destroyed calls back into the deleted
    server. The io loop has queued removeConnectionInLoop in the base loop with a plain
    [this]; ~TcpServer runs before it, and the base loop then runs it. *)
Theorem server_gone_use_after_free :
  mfold exec (demo_run ++ [Destruct; RunFunctor 1]) demo_server = Err UseAfterFree.
Proof. by vm_compute. Qed.
End Server.
