(* ===== verification/TcpClient.v ===== *)
(** * TcpClient (net/tcp_client.h, net/tcp_client.cc)

    The client: a Connector, and the connection it has made, over the interfaces of
    Interfaces.v and TcpServer.v. All of it runs in one loop; [batch] and [pending] are that
    loop's functors, in order, those of the connector ([Own]) among those of the connections,
    and the connector's own lists are their projections. [polled] says that the connection
    was registered before the current poll, so that the poll can report it. Connections are
    named by their index in [conns]. *)

From S2P Require Import Prelude Interfaces Poller Buffer TcpConnection Connector TcpServer LogStream Format.

Module Client.
Import Ctor.

Inductive item :=
  | Own (f : functor)          (* a functor of the connector *)
  | FForceClose (c : nat)      (* forceCloseInLoop of connection [c] *)
  | FDestroyed (c : nat).      (* connectDestroyed of connection [c] *)
#[export] Instance item_eq_dec : EqDecision item.
Proof. solve_decision. Defined.
Definition own_functor (i : item) : option functor := match i with Own f => Some f | _ => None end.

Section Client.
Context {C : Type} `{ChannelI C} {N : Type} `{ConnectionI N}.

Record client := mkClient {
  connector_ : connector C;
  name_ : list byte;
  retry_ : bool;
  connect_ : bool;
  nextConnId_ : Z;
  connection_ : option nat;
  conns : list (list byte * N);           (* name and object *)
  pending : list item;
  batch : list item;
  polled : bool
}.

Definition newClient (nameArg : list byte) : client :=
  mkClient newConnector nameArg false true 1 None [] [] [] false.

Definition with_connector (k : connector C) (s : client) : client :=
  mkClient k (name_ s) (retry_ s) (connect_ s) (nextConnId_ s) (connection_ s) (conns s) (pending s) (batch s) (polled s).
Definition with_flags (r c : bool) (s : client) : client :=
  mkClient (connector_ s) (name_ s) r c (nextConnId_ s) (connection_ s) (conns s) (pending s) (batch s) (polled s).
Definition with_conns (id : Z) (cur : option nat) (cs : list (list byte * N)) (p : bool) (s : client) : client :=
  mkClient (connector_ s) (name_ s) (retry_ s) (connect_ s) id cur cs (pending s) (batch s) p.
Definition with_items (p b : list item) (s : client) : client :=
  mkClient (connector_ s) (name_ s) (retry_ s) (connect_ s) (nextConnId_ s) (connection_ s) (conns s) p b (polled s).

Definition queueInLoop (i : item) (s : client) : client := with_items (pending s ++ [i]) (batch s) s.

(** An operation of the connector; what it queues is queued in the loop. *)
Definition on_connector (op : connector C → res (connector C)) (s : client) : res client :=
  let k := connector_ s in
  k' ← op k;
  Ok (with_connector k' (with_items (pending s ++ (Own <$> drop (length (Ctor.pending k)) (Ctor.pending k'))) (batch s) s)).

Definition on_conn (c : nat) (op : N → res N) (s : client) : res client :=
  match conns s !! c with
  | Some (nm, n) => n ← op n;
      Ok (with_conns (nextConnId_ s) (connection_ s) (<[c := (nm, n)]> (conns s)) (polled s) s)
  | None => Err NullDeref
  end.

(** ":<peer>#<id>" in a buffer of 32 bytes *)
Definition connName (s : client) (peer : list byte) : list byte :=
  name_ s ++ Format.snprintf 32 ([x3a] ++ peer ++ [x23] ++ Format.dec (nextConnId_ s)).

(** [n]: the new TcpConnection, [peer]: the peer's address as text. *)
Definition newConnection (peer : list byte) (n : N) (s : client) : res client :=
  let nm := connName s peer in
  id ← checked 32 [] (nextConnId_ s + 1);
  let c := length (conns s) in
  let s := with_conns id (Some c) (conns s ++ [(nm, n)]) false s in
  on_conn c cn_established s.

(** The close callback of connection [c]; [a]: what the kernel answers if it reconnects. *)
Definition removeConnection (c : nat) (a : attempt C) (s : client) : res client :=
  _ ← assert_ (bool_decide (connection_ s = Some c));
  let s := with_conns (nextConnId_ s) None (conns s) (polled s) s in
  let s := queueInLoop (FDestroyed c) s in
  if retry_ s && connect_ s
  then on_connector (restart (a_fd a) (a_errno a) (a_ch a)) s
  else Ok s.

(** handleClose of connection [c], with its close callback *)
Definition close (c : nat) (a : attempt C) (s : client) : res client :=
  s ← on_conn c cn_close s; removeConnection c a s.

Definition connect (a : attempt C) (s : client) : res client :=
  on_connector (start (a_fd a) (a_errno a) (a_ch a)) (with_flags (retry_ s) true s).
(** connection_->shutdown() changes the connection only: [n] is what it becomes. *)
Definition disconnect (n : option N) (s : client) : res client :=
  let s := with_flags (retry_ s) false s in
  match connection_ s, n with
  | Some c, Some n => on_conn c (λ _, Ok n) s
  | _, _ => Ok s
  end.
Definition stop (s : client) : res client :=
  on_connector (λ k, Ok (Ctor.stop k)) (with_flags (retry_ s) false s).
Definition enableRetry (s : client) : client := with_flags true (connect_ s) s.

(** ** The client in its loop *)
Inductive event :=
  | Connect (a : attempt C)
  | Disconnect (n : option N)
  | Stop
  | EnableRetry
  | Revents (revents err : Z) (selfConnect : bool) (peer : list byte) (n : N)
  | Timer (a : attempt C)
  | PollClose (c : nat) (a : attempt C)       (* the poll reports the connection closed *)
  | ForceClose (c : nat)                      (* forceClose() of a connection *)
  | Traffic (c : nat) (n : N)
  | Swap
  | RunFunctor (a : attempt C)
  | PollAgain.

Definition is_up (c : nat) (s : client) : bool :=
  match conns s !! c with Some (_, n) => bool_decide (cn_life n = Up) | None => false end.

Definition exec (e : event) (s : client) : res client :=
  match e with
  | Connect a => connect a s
  | Disconnect n => disconnect n s
  | Stop => stop s
  | EnableRetry => Ok (enableRetry s)
  | Revents v err sc peer n =>
      let old := length (delivered (connector_ s)) in
      s ← on_connector (on_revents v err sc) s;
      if bool_decide (length (delivered (connector_ s)) = old) then Ok s else newConnection peer n s
  | Timer a => on_connector (Ctor.exec (Ctor.Timer a)) s
  | PollClose c a => close c a s
  | ForceClose c => Ok (queueInLoop (FForceClose c) s)
  | Traffic c n => on_conn c (λ _, Ok n) s
  | Swap =>
      k ← Ctor.exec Ctor.Swap (connector_ s); Ok (with_connector k (with_items [] (pending s) s))
  | RunFunctor a =>
      match batch s with
      | [] => Ok s
      | i :: b =>
          let s := with_items (pending s) b s in
          match i with
          | Own _ => on_connector (Ctor.exec (Ctor.RunFunctor a)) s
          | FForceClose c => if is_up c s then close c a s else Ok s
          | FDestroyed c => on_conn c cn_destroyed s
          end
      end
  | PollAgain =>
      k ← Ctor.exec Ctor.PollAgain (connector_ s);
      Ok (with_conns (nextConnId_ s) (connection_ s) (conns s)
            (match connection_ s with Some _ => true | None => false end) (with_connector k s))
  end.

(** When each can occur: connect() is called on an idle client, socket(2) succeeds, a retry
    timer does not fire in the turn that set it before the connector's channel is reset; the
    rest is what the loop and the kernel guarantee. What the first three exclude goes wrong:
    [connect_again_aborts], [Ctor.socket_failure_aborts], [Ctor.slow_retry_aborts]. *)
Definition enabled (e : event) (s : client) : Prop :=
  let k := connector_ s in
  match e with
  | Connect a => Ctor.enabled (Ctor.Start a) k
  | Disconnect n =>
      match connection_ s, n with
      | Some c, Some n => ∃ x, conns s !! c = Some x ∧ cn_ok n ∧ cn_life n = cn_life x.2
      | _, _ => True
      end
  | Stop | EnableRetry => True
  | Revents v err sc peer n =>
      Ctor.enabled (Ctor.Revents v err sc) k ∧ cn_ok n ∧ cn_life n = Connecting ∧ nextConnId_ s < 2 ^ 31 - 1
  | Timer a => Ctor.enabled (Ctor.Timer a) k
  | PollClose c a => connection_ s = Some c ∧ polled s = true ∧ at_ k = Events ∧ attempt_ok a
  | ForceClose c => is_up c s = true
  | Traffic c n => ∃ x, conns s !! c = Some x ∧ cn_ok n ∧ cn_life n = cn_life x.2
  | Swap => Ctor.enabled Ctor.Swap k
  | RunFunctor a => at_ k = Functors ∧ attempt_ok a
  | PollAgain => at_ k = Functors ∧ batch s = []
  end.

(** ** The invariant *)

(** The current connection's forceClose comes after the connector has dropped its channel. *)
Definition reset_first (c : nat) (q : list item) : Prop :=
  ∀ i j, q !! i = Some (FForceClose c) → q !! j = Some (Own FResetChannel) → (j < i)%nat.

Record inv (s : client) : Prop := mkInv {
  inv_connector : Ctor.inv (connector_ s);
  inv_queues : omap own_functor (pending s) = Ctor.pending (connector_ s) ∧
               omap own_functor (batch s) = Ctor.batch (connector_ s);
  inv_phase : at_ (connector_ s) = Events → batch s = [];
  inv_current : match connection_ s with
    | Some c => (∃ x, conns s !! c = Some x ∧ cn_life x.2 = Up) ∧ state_ (connector_ s) = kConnected ∧
        (connect_ s = true → Ctor.connect_ (connector_ s) = true) ∧
        reset_first c (batch s ++ pending s) ∧
        (polled s = true → channel_ (connector_ s) = None) ∧
        (at_ (connector_ s) = Functors → Own FResetChannel ∉ pending s)
    | None => True
    end;
  inv_conns : ∀ c x, conns s !! c = Some x →
    cn_ok x.2 ∧
    match cn_life x.2 with
    | Connecting => False
    | Up => connection_ s = Some c ∧ cnt (FDestroyed c) (batch s ++ pending s) = 0%nat
    | Down => cnt (FDestroyed c) (batch s ++ pending s) = 1%nat
    | Destroyed => cnt (FDestroyed c) (batch s ++ pending s) = 0%nat
    end;
  inv_ids : ∀ c, FDestroyed c ∈ batch s ++ pending s ∨ FForceClose c ∈ batch s ++ pending s → is_Some (conns s !! c);
  inv_id : nextConnId_ s = Z.of_nat (length (conns s)) + 1 ∧ nextConnId_ s < 2 ^ 31
}.

Context `{!ChannelLaws C} `{!ConnectionLaws N}.

(** ** What the connector's operations queue *)
Definition grows (new : list functor) (k k' : connector C) : Prop :=
  Ctor.pending k' = Ctor.pending k ++ new ∧ Ctor.batch k' = Ctor.batch k ∧ at_ k' = at_ k.

Lemma grows_refl k : grows [] k k.
Proof. by split; rewrite ?app_nil_r. Qed.
Lemma grows_nil new k k1 k2 : grows new k k1 → grows [] k1 k2 → grows new k k2.
Proof. intros (E1 & E2 & E3) (F1 & F2 & F3). split_and!; try congruence. by rewrite F1, app_nil_r. Qed.

Lemma close_grows fd k k' : Ctor.close fd k = Ok k' → grows [] k k'.
Proof. unfold Ctor.close. destruct (bool_decide _); [|done]. intros [= <-]. by split_and!; cbn; rewrite ?app_nil_r. Qed.

Lemma retry_grows fd k k' : retry fd k = Ok k' → grows [] k k'.
Proof.
  unfold retry. intros (k1 & K1%close_grows & H2)%bind_Ok. eapply grows_nil; [exact K1|].
  destruct (Ctor.connect_ _); injection H2 as <-; by split_and!; cbn; rewrite ?app_nil_r.
Qed.

Lemma startInLoop_grows fd e ch k k' : startInLoop fd e ch k = Ok k' → grows [] k k'.
Proof.
  unfold startInLoop. intros (u & _ & Hs)%bind_Ok. destruct (Ctor.connect_ k); [|injection Hs as <-; apply grows_refl].
  unfold Ctor.connect in Hs. set (k1 := if 0 <=? fd then _ else k) in Hs.
  assert (grows [] k k1) as Hk1 by (unfold k1; destruct (0 <=? fd); by split_and!; cbn; rewrite ?app_nil_r).
  eapply grows_nil; [exact Hk1|]. destruct (_ || _ || _ || _); [|destruct (_ || _ || _ || _ || _)].
  - unfold connecting in Hs. apply bind_Ok in Hs as (? & _ & Hs). apply bind_Ok in Hs as (ch' & _ & [= <-]).
    by split_and!; cbn; rewrite ?app_nil_r.
  - by eapply retry_grows.
  - by eapply close_grows.
Qed.

Lemma detach_grows k fd k' : removeAndResetChannel k = Ok (fd, k') → grows [FResetChannel] k k'.
Proof.
  unfold removeAndResetChannel. destruct (channel_ k) as [[fd' ch]|]; [|done].
  intros (ch1 & _ & Hs)%bind_Ok. apply bind_Ok in Hs as (ch2 & _ & [= <- <-]). by split_and!.
Qed.

Lemma handleWrite_grows err sc k k' : handleWrite err sc k = Ok k' → ∃ new, grows new k k'.
Proof.
  unfold handleWrite. case_bool_decide.
  - intros ([fd k1] & K1%detach_grows & Hs)%bind_Ok. exists [FResetChannel]. eapply grows_nil; [exact K1|].
    destruct (negb (err =? 0)); [by eapply retry_grows|]. destruct sc; [by eapply retry_grows|].
    destruct (Ctor.connect_ _); [injection Hs as <-; by split_and!; cbn; rewrite ?app_nil_r|].
    apply close_grows in Hs. destruct Hs as (E1 & E2 & E3). by split_and!.
  - intros (u & _ & [= <-])%bind_Ok. exists []. apply grows_refl.
Qed.

Lemma fail_grows (st : States) k k' :
  ('(fd, k) ← removeAndResetChannel (with_state st k); retry fd k) = Ok k' → grows [FResetChannel] k k'.
Proof.
  intros ([fd k1] & K1%detach_grows & Hs%retry_grows)%bind_Ok. eapply grows_nil; [|exact Hs].
  destruct K1 as (E1 & E2 & E3). by split_and!.
Qed.

Lemma on_revents_grows v err sc k k' : on_revents v err sc k = Ok k' → ∃ new, grows new k k'.
Proof.
  unfold on_revents. intros (k1 & K1 & Hs)%bind_Ok. assert (∃ new, grows new k k1) as [new K1'].
  { destruct (negb _); [|injection K1 as <-; exists []; apply grows_refl]. unfold handleError in K1.
    case_bool_decide; [|injection K1 as <-; exists []; apply grows_refl].
    exists [FResetChannel]. apply (fail_grows (state_ k)). by destruct k. }
  destruct (negb (Z.land v Poll.POLLOUT =? 0)); [|injection Hs as <-; by exists new]. apply handleWrite_grows in Hs as [new' (E1 & E2 & E3)].
  exists (new ++ new'). destruct K1' as (F1 & F2 & F3). split_and!; try congruence. by rewrite E1, F1, app_assoc.
Qed.

(** A functor of the connector, run from the batch. *)
Lemma run_functor_grows f a k k' : Ctor.run_functor f a k = Ok k' → ∃ new, grows new k k'.
Proof.
  destruct f; cbn [Ctor.run_functor].
  - intros Hs%startInLoop_grows. by exists [].
  - unfold stopInLoop. case_bool_decide; [|intros [= <-]; exists []; apply grows_refl].
    intros Hs%fail_grows. by exists [FResetChannel].
  - unfold resetChannel. intros (u & _ & [= <-])%bind_Ok. exists []. by split_and!; cbn; rewrite ?app_nil_r.
Qed.

(** While connected, the connector's functors change nothing but the channel. *)
Lemma run_functor_connected f fs a k k' :
  Ctor.inv k → state_ k = kConnected → Ctor.batch k = f :: fs →
  Ctor.run_functor f a (Ctor.with_queue (Ctor.pending k) fs k) = Ok k' →
  Ctor.pending k' = Ctor.pending k ∧ Ctor.batch k' = fs ∧ at_ k' = at_ k ∧ state_ k' = kConnected ∧
  Ctor.connect_ k' = Ctor.connect_ k ∧ delivered k' = delivered k ∧ (channel_ k = None → channel_ k' = None).
Proof.
  intros Hinv Hst Hb. destruct f; cbn [Ctor.run_functor].
  - exfalso. assert (0 < tokens k)%nat as Ht.
    { unfold tokens, queued. rewrite Hb, cnt_cons, decide_True by done. lia. }
    apply (Ctor.inv_idle _ Hinv) in Ht. congruence.
  - unfold stopInLoop. rewrite bool_decide_false by (cbn; congruence). by intros [= <-].
  - unfold resetChannel. intros (u & _ & [= <-])%bind_Ok. by cbn.
Qed.

(** ** The queues *)
Lemma omap_own (new : list functor) : omap own_functor (Own <$> new) = new.
Proof. induction new as [|f new IH]; [done|]. cbn. by rewrite IH. Qed.

Lemma cnt_own c (new : list functor) : cnt (FDestroyed c) (Own <$> new) = 0%nat.
Proof. induction new as [|f new IH]; [done|]. cbn [fmap list_fmap]. by rewrite cnt_cons, IH. Qed.

Lemma elem_own f (q : list item) : f ∈ omap own_functor q ↔ Own f ∈ q.
Proof.
  rewrite list_elem_of_omap. split; [|by exists (Own f)]. intros ([g| |] & Hg & E); [|done..]. by injection E as ->.
Qed.

Lemma on_connector_Ok op k' new s :
  op (connector_ s) = Ok k' → grows new (connector_ s) k' →
  on_connector op s = Ok (with_connector k' (with_items (pending s ++ (Own <$> new)) (batch s) s)).
Proof.
  intros Hop (E1 & _ & _). unfold on_connector. rewrite Hop. cbn [mbind res_bind]. do 2 f_equal.
  rewrite E1, drop_app_length. done.
Qed.

(** A step of the connector, with the loop's queues. *)
Lemma connector_step_inv s k' q b :
  inv s → Ctor.inv k' → omap own_functor q = Ctor.pending k' → omap own_functor b = Ctor.batch k' →
  (at_ k' = Events → b = []) →
  (∀ c, cnt (FDestroyed c) (b ++ q) = cnt (FDestroyed c) (batch s ++ pending s)) →
  (∀ c, FForceClose c ∈ b ++ q → FForceClose c ∈ batch s ++ pending s) →
  (∀ c, connection_ s = Some c → state_ k' = kConnected ∧ (connect_ s = true → Ctor.connect_ k' = true) ∧
     reset_first c (b ++ q) ∧ (polled s = true → channel_ k' = None) ∧
     (at_ k' = Functors → Own FResetChannel ∉ q)) →
  inv (with_connector k' (with_items q b s)).
Proof.
  intros [Hk [Hq1 Hq2] Hp Hc Hcs Hid Hi] Hk' Eq Eb Hph Hd Hf Hcur. split; cbn; try done.
  - destruct (connection_ s) as [c|]; [|done]. destruct Hc as (Hx & _). split; [done|]. by apply Hcur.
  - intros c x Hx. destruct (Hcs c x Hx) as [? Hs]. split; [done|]. by rewrite Hd.
  - intros c [Hin|Hin]; apply Hid; [left|right; by apply Hf]. apply cnt_pos. rewrite <-Hd. by apply cnt_pos.
Qed.

Lemma grown_inv s k' new :
  inv s → Ctor.inv k' → grows new (connector_ s) k' → connection_ s = None →
  inv (with_connector k' (with_items (pending s ++ (Own <$> new)) (batch s) s)).
Proof.
  intros Hinv Hk' (E1 & E2 & E3) Hn. pose proof (inv_queues _ Hinv) as [Q1 Q2]. apply connector_step_inv; try done.
  - by rewrite omap_app, omap_own, Q1, E1.
  - congruence.
  - rewrite E3. apply Hinv.
  - intros c. rewrite !cnt_app, cnt_own. lia.
  - intros c. rewrite !elem_of_app, list_elem_of_fmap. intros [?|[?|(f & ? & _)]]; auto. done.
  - congruence.
Qed.

(** A connected connector has dropped its channel once no reset is queued. *)
Lemma no_reset_channel s :
  inv s → state_ (connector_ s) = kConnected → Own FResetChannel ∉ batch s ++ pending s →
  channel_ (connector_ s) = None.
Proof.
  intros Hinv Hst Hn. destruct (inv_queues _ Hinv) as [Q1 Q2].
  assert (queued FResetChannel (connector_ s) = 0%nat) as Hq.
  { unfold queued. rewrite <-Q1, <-Q2. rewrite elem_of_app in Hn.
    destruct (decide (cnt FResetChannel (omap own_functor (pending s)) = 0%nat)) as [->|Hx].
    - destruct (decide (cnt FResetChannel (omap own_functor (batch s)) = 0%nat)) as [->|Hx]; [done|].
      destruct Hn. left. apply elem_own, cnt_pos. lia.
    - destruct Hn. right. apply elem_own, cnt_pos. lia. }
  pose proof (Ctor.inv_channel _ (inv_connector _ Hinv)) as Hch. unfold channel_inv in Hch.
  destruct (channel_ (connector_ s)) as [[fd ch]|]; [|done]. destruct Hch as (_ & _ & Hx).
  rewrite decide_False in Hx by congruence. destruct Hx as (_ & _ & E & _). lia.
Qed.

(** A connection changes and keeps its life. *)
Lemma traffic_inv s c x n :
  inv s → conns s !! c = Some x → cn_ok n → cn_life n = cn_life x.2 →
  inv (with_conns (nextConnId_ s) (connection_ s) (<[c := (x.1, n)]> (conns s)) (polled s) s).
Proof.
  intros [Hk Hq Hp Hc Hcs Hid Hi] Hx Hok Hlf. assert (c < length (conns s))%nat as Hlt by (by eapply lookup_lt_Some).
  split; cbn; rewrite ?length_insert; try done.
  - destruct (connection_ s) as [c'|]; [|done]. destruct Hc as ((x' & Hx' & Hl') & Hrest). split; [|done].
    destruct (decide (c' = c)) as [->|Hne].
    + rewrite list_lookup_insert_eq by done. eexists. split; [done|]. cbn. congruence.
    + rewrite list_lookup_insert_ne by done. by exists x'.
  - intros c' x' Hx'. destruct (decide (c' = c)) as [->|Hne].
    + rewrite list_lookup_insert_eq in Hx' by done. injection Hx' as <-. cbn. rewrite Hlf.
      by destruct (Hcs c x Hx) as [_ ?].
    + rewrite list_lookup_insert_ne in Hx' by done. by apply Hcs.
  - intros c' Hin. destruct (decide (c' = c)) as [->|Hne].
    + rewrite list_lookup_insert_eq by done. by eexists.
    + rewrite list_lookup_insert_ne by done. by apply Hid.
Qed.

Lemma on_client_conn_Ok c x op n s :
  conns s !! c = Some x → op x.2 = Ok n →
  on_conn c op s = Ok (with_conns (nextConnId_ s) (connection_ s) (<[c := (x.1, n)]> (conns s)) (polled s) s).
Proof. intros Hx Hop. unfold on_conn. destruct x as [nm m]. cbn in *. by rewrite Hx, Hop. Qed.

(** The current connection closes, and its connectDestroyed is queued. *)
Lemma closed_inv c s :
  inv s → connection_ s = Some c →
  ∃ x n, on_conn c cn_close s = Ok (with_conns (nextConnId_ s) (connection_ s) (<[c := (x, n)]> (conns s)) (polled s) s) ∧
    inv (queueInLoop (FDestroyed c) (with_conns (nextConnId_ s) None (<[c := (x, n)]> (conns s)) (polled s) s)).
Proof.
  intros Hinv Hcur. pose proof Hinv as [Hk [Hq1 Hq2] Hp Hc Hcs Hid Hi]. rewrite Hcur in Hc.
  destruct Hc as ((x & Hx & Hlf) & _). destruct (Hcs c x Hx) as [Hok Hcx]. rewrite Hlf in Hcx.
  destruct (cn_close_law x.2 Hok Hlf) as (n & Hn & Hok' & Hlf').
  assert (c < length (conns s))%nat as Hlt by (by eapply lookup_lt_Some).
  exists x.1, n. split; [by apply (on_client_conn_Ok c x)|].
  split; cbn; rewrite ?length_insert, ?omap_app, ?app_nil_r; try done.
  - intros c' x' Hx'. rewrite app_assoc, cnt_app, cnt_cons, cnt_nil.
    destruct (decide (c' = c)) as [->|Hne].
    + rewrite list_lookup_insert_eq in Hx' by done. injection Hx' as <-. cbn. rewrite Hlf', decide_True by done.
      split; [done|lia].
    + rewrite list_lookup_insert_ne in Hx' by done. destruct (Hcs c' x' Hx') as [? Hs]. split; [done|].
      rewrite decide_False by congruence. rewrite !Nat.add_0_r.
      destruct (cn_life x'.2); try done. destruct Hs as [E _]. congruence.
  - intros c' Hin. destruct (decide (c' = c)) as [->|Hne].
    + rewrite list_lookup_insert_eq by done. by eexists.
    + rewrite list_lookup_insert_ne by done. apply Hid. rewrite app_assoc, !(elem_of_app _ [_]), !list_elem_of_singleton in Hin.
      naive_solver.
Qed.

(** handleClose of the current connection. *)
Lemma close_spec c a s :
  inv s → connection_ s = Some c → channel_ (connector_ s) = None → attempt_ok a →
  ∃ s', close c a s = Ok s' ∧ inv s' ∧ connection_ s' = None ∧
    if retry_ s && connect_ s
    then restart (a_fd a) (a_errno a) (a_ch a) (connector_ s) = Ok (connector_ s')
    else connector_ s' = connector_ s.
Proof.
  intros Hinv Hcur Hch Ha. destruct (closed_inv c s Hinv Hcur) as (x & n & Hn & Hinv1).
  unfold close. rewrite Hn. cbn [mbind res_bind]. unfold removeConnection.
  cbn [connection_ with_conns]. rewrite bool_decide_true by done. cbn [assert_ mbind res_bind].
  set (s1 := queueInLoop (FDestroyed c) (with_conns (nextConnId_ s) None _ _ s)) in Hinv1.
  change (queueInLoop (FDestroyed c) _) with s1. change (retry_ s1) with (retry_ s). change (connect_ s1) with (connect_ s).
  destruct (retry_ s && connect_ s) eqn:Er; [|by exists s1].
  pose proof Hinv as [Hk _ _ Hc _ _ _]. rewrite Hcur in Hc. destruct Hc as (_ & Hst & Hcon & _ & _ & _).
  apply andb_prop in Er as [_ Ec]. change (connector_ s) with (connector_ s1) in *.
  destruct (connector_restart_spec a (connector_ s1) Hk) as (k' & Hk' & Hik'); [by split_and!; auto|].
  pose proof Hk' as Hg. apply startInLoop_grows in Hg.
  assert (grows [] (connector_ s1) k') as Hg' by (destruct Hg as (E1 & E2 & E3); by split_and!).
  eexists. split; [apply (on_connector_Ok _ k' []); [exact Hk'|done]|]. split; [by apply grown_inv|]. done.
Qed.

(** A connection is handed over only by a connector that is connected. *)
Lemma close_delivered fd (k k' : connector C) : Ctor.close fd k = Ok k' → delivered k' = delivered k.
Proof. unfold Ctor.close. destruct (bool_decide _); [|done]. by intros [= <-]. Qed.
Lemma retry_delivered fd (k k' : connector C) : retry fd k = Ok k' → delivered k' = delivered k.
Proof.
  unfold retry. intros (k1 & <-%close_delivered & Hs)%bind_Ok. destruct (Ctor.connect_ _); by injection Hs as <-.
Qed.
Lemma detach_delivered (k : connector C) fd k' : removeAndResetChannel k = Ok (fd, k') → delivered k' = delivered k.
Proof.
  unfold removeAndResetChannel. destruct (channel_ k) as [[fd' ch]|]; [|done].
  intros (ch1 & _ & Hs)%bind_Ok. by apply bind_Ok in Hs as (ch2 & _ & [= <- <-]).
Qed.

Lemma handleWrite_delivered err sc (k k' : connector C) :
  handleWrite err sc k = Ok k' →
  delivered k' = delivered k ∨ state_ k' = kConnected ∧ Ctor.connect_ k' = true.
Proof.
  unfold handleWrite. case_bool_decide.
  - intros ([fd k1] & <-%detach_delivered & Hs)%bind_Ok. destruct (negb (err =? 0)).
    + left. by apply retry_delivered in Hs.
    + destruct sc; [left; by apply retry_delivered in Hs|].
      destruct (Ctor.connect_ (with_state kConnected k1)) eqn:Ec; [|left; by apply close_delivered in Hs].
      injection Hs as <-. by right.
  - intros (u & _ & [= <-])%bind_Ok. by left.
Qed.

Lemma on_revents_delivered v err sc (k k' : connector C) :
  on_revents v err sc k = Ok k' →
  delivered k' = delivered k ∨ state_ k' = kConnected ∧ Ctor.connect_ k' = true.
Proof.
  unfold on_revents. intros (k1 & K1 & Hs)%bind_Ok. assert (delivered k1 = delivered k) as <-.
  { destruct (negb _); [|by injection K1 as <-]. unfold handleError in K1. case_bool_decide; [|by injection K1 as <-].
    apply bind_Ok in K1 as ([fd k2] & <-%detach_delivered & K2). by apply retry_delivered in K2. }
  destruct (negb (Z.land v Poll.POLLOUT =? 0)); [by eapply handleWrite_delivered|injection Hs as <-; by left].
Qed.

Lemma client_newConnection_spec peer n s :
  inv s → connection_ s = None → state_ (connector_ s) = kConnected → Ctor.connect_ (connector_ s) = true →
  at_ (connector_ s) = Events → cn_ok n → cn_life n = Connecting → nextConnId_ s < 2 ^ 31 - 1 →
  ∃ s', newConnection peer n s = Ok s' ∧ inv s'.
Proof.
  intros Hinv Hnone Hst Hcon Hat Hok Hlf Hlim. pose proof Hinv as [Hk Hq Hp Hc Hcs Hid [Hi1 Hi2]].
  unfold newConnection. rewrite checked_ok by (repeat constructor; unfold in_s; cbn; lia). cbn [mbind res_bind].
  destruct (cn_established_law n Hok Hlf) as (n' & Hn & Hok' & Hlf').
  set (c := length (conns s)). set (nm := connName s peer).
  assert (∀ c', FDestroyed c' ∈ batch s ++ pending s ∨ FForceClose c' ∈ batch s ++ pending s → (c' < c)%nat) as Hlt.
  { intros c' Hin. destruct (Hid c' Hin) as [x Hx]. by eapply lookup_lt_Some. }
  rewrite (on_client_conn_Ok c (nm, n) _ n') by (cbn; by rewrite ?lookup_app_r, ?Nat.sub_diag by lia).
  eexists. split; [done|]. cbn [conns with_conns]. unfold c. rewrite insert_app_r_alt, Nat.sub_diag by lia. fold c. cbn.
  split; cbn; try done.
  - split; [exists (nm, n'); by rewrite lookup_app_r, Nat.sub_diag by lia|]. split_and!; try done; [|congruence].
    intros i j Hi. exfalso. assert (c < c)%nat; [|lia]. apply Hlt. right. by eapply list_elem_of_lookup_2.
  - intros c' x [Hx|[Hle Hx]]%lookup_app_Some.
    + destruct (Hcs c' x Hx) as [? Hs]. split; [done|]. destruct (cn_life x.2); try done. destruct Hs. congruence.
    + apply list_lookup_singleton_Some in Hx as [E <-]. cbn. rewrite Hlf'. split; [done|].
      assert (c' = c) as -> by lia. split; [done|].
      destruct (decide (cnt (FDestroyed c) (batch s ++ pending s) = 0%nat)); [done|].
      assert (c < c)%nat; [|lia]. apply Hlt. left. apply cnt_pos. lia.
  - intros c' Hin. apply lookup_lt_is_Some_2. rewrite length_app. cbn. specialize (Hlt c' Hin). unfold c in Hlt. lia.
  - rewrite length_app. cbn. lia.
Qed.

Lemma reset_first_snoc c q i : i ≠ Own FResetChannel → reset_first c q → reset_first c (q ++ [i]).
Proof.
  intros Hne Hr a b [Ha|[Hla Ha]]%lookup_app_Some [Hb|[Hlb Hb]]%lookup_app_Some.
  - by apply Hr.
  - apply list_lookup_singleton_Some in Hb as [_ ->]. done.
  - apply lookup_lt_Some in Hb. lia.
  - apply list_lookup_singleton_Some in Hb as [_ ->]. done.
Qed.

Lemma reset_first_tail c i q : reset_first c (i :: q) → reset_first c q.
Proof. intros Hr a b Ha Hb. specialize (Hr (S a) (S b) Ha Hb). lia. Qed.

(** The head of the batch is taken. *)
Lemma pop_item_inv s i b :
  inv s → batch s = i :: b → own_functor i = None → (∀ c, i ≠ FDestroyed c) →
  inv (with_items (pending s) b s).
Proof.
  intros [Hk [Hq1 Hq2] Hp Hc Hcs Hid Hi] Hb Hno Hnd. rewrite Hb in *. cbn in Hq2. rewrite Hno in Hq2.
  split; cbn; try done.
  - intros He. specialize (Hp He). done.
  - destruct (connection_ s) as [c|]; [|done]. destruct Hc as (? & ? & ? & Hr & ? & ?).
    split_and!; try done. by eapply reset_first_tail.
  - intros c x Hx. destruct (Hcs c x Hx) as [? Hs]. split; [done|]. cbn [app] in Hs.
    rewrite cnt_cons, decide_False in Hs by done. done.
  - intros c [Hin|Hin]; apply Hid; [left|right]; by right.
Qed.

Lemma run_destroyed_item s c b :
  inv s → batch s = FDestroyed c :: b →
  ∃ s', on_conn c cn_destroyed (with_items (pending s) b s) = Ok s' ∧ inv s'.
Proof.
  intros [Hk [Hq1 Hq2] Hp Hc Hcs Hid Hi] Hb. rewrite Hb in *.
  destruct (Hid c) as [x Hx]; [left; left|]. destruct (Hcs c x Hx) as [Hok Hs]. cbn [app] in Hs.
  rewrite cnt_cons, decide_True in Hs by done.
  assert (cn_life x.2 = Down) as Hlf by (destruct (cn_life x.2); [done|destruct Hs; lia|done|lia]).
  rewrite Hlf in Hs. destruct (cn_destroyed_law x.2 Hok Hlf) as (n & Hn & Hok' & Hlf').
  eexists. split; [by apply (on_client_conn_Ok c x)|]. assert (c < length (conns s))%nat as Hlt by (by eapply lookup_lt_Some).
  split; cbn; rewrite ?length_insert; try done.
  - intros He. specialize (Hp He). done.
  - destruct (connection_ s) as [c'|] eqn:Hcur; [|done]. destruct Hc as ((x' & Hx' & Hl') & ? & ? & Hr & ? & ?).
    split_and!; try done; [|by eapply reset_first_tail]. destruct (decide (c' = c)) as [->|Hne]; [congruence|].
    exists x'. by rewrite list_lookup_insert_ne by done.
  - intros c' x' Hx'. destruct (decide (c' = c)) as [->|Hne].
    + rewrite list_lookup_insert_eq in Hx' by done. injection Hx' as <-. cbn. rewrite Hlf'. split; [done|lia].
    + rewrite list_lookup_insert_ne in Hx' by done. destruct (Hcs c' x' Hx') as [? Hs']. split; [done|].
      cbn [app] in Hs'. by rewrite cnt_cons, decide_False in Hs' by congruence.
  - intros c' Hin. destruct (decide (c' = c)) as [->|Hne].
    + rewrite list_lookup_insert_eq by done. by eexists.
    + rewrite list_lookup_insert_ne by done. apply Hid. destruct Hin; [left|right]; by right.
Qed.

(** The connector's functor at the head of the batch. *)
Lemma run_own_item s f b a :
  inv s → batch s = Own f :: b → at_ (connector_ s) = Functors → attempt_ok a →
  ∃ s', on_connector (Ctor.exec (Ctor.RunFunctor a)) (with_items (pending s) b s) = Ok s' ∧ inv s'.
Proof.
  intros Hinv Hb Hat Ha. pose proof Hinv as [Hk [Hq1 Hq2] Hp Hc Hcs Hid Hi]. rewrite Hb in Hq2. cbn in Hq2.
  set (fs := omap own_functor b) in *.
  destruct (connector_exec_spec (Ctor.RunFunctor a) (connector_ s) Hk) as (k' & Hx & Hik'); [done|].
  pose proof Hx as Hr. cbn [Ctor.exec] in Hr. rewrite <-Hq2 in Hr.
  destruct (run_functor_grows _ _ _ _ Hr) as (new & E1 & E2 & E3). cbn in E1, E2, E3.
  eexists. split.
  { unfold on_connector. cbn [connector_ with_items]. rewrite Hx. cbn [mbind res_bind pending batch with_items].
    rewrite E1, drop_app_length. done. }
  change (with_connector k' _) with (with_connector k' (with_items (pending s ++ (Own <$> new)) b s)).
  apply connector_step_inv; try done.
  - by rewrite omap_app, omap_own, Hq1, E1.
  - rewrite E3, Hat. done.
  - intros c. rewrite Hb. cbn [app]. rewrite (cnt_cons _ (Own f)), decide_False, !cnt_app, cnt_own by done. lia.
  - intros c. rewrite Hb, !elem_of_app, list_elem_of_fmap, elem_of_cons.
    intros [?|[?|(g & ? & _)]]; auto. done.
  - intros c Hcur. rewrite Hcur in Hc. destruct Hc as (_ & Hst & Hcon & Hrf & Hpo & Hpe).
    destruct (run_functor_connected f fs a _ _ Hk Hst (eq_sym Hq2) Hr) as (F1 & _ & F3 & F4 & F5 & _ & F7).
    assert (new = []) as ->.
    { rewrite E1 in F1. apply (f_equal length) in F1. rewrite length_app in F1. destruct new; [done|cbn in F1; lia]. }
    cbn. rewrite app_nil_r. split_and!; try done; try congruence; auto.
    + by rewrite F5.
    + rewrite Hb in Hrf. cbn [app] in Hrf. by apply reset_first_tail in Hrf.
Qed.

(** What one event asks of the invariant. *)
Definition event_ok (e : event) : Prop :=
  ∀ s, inv s → enabled e s → ∃ s', exec e s = Ok s' ∧ inv s'.

Ltac open_event :=
  intros s Hinv He; pose proof Hinv as [Hk [Hq1 Hq2] Hp Hc Hcs Hid Hi]; cbn [exec enabled] in *.

Lemma event_connect a : event_ok (Connect a).
Proof.
  open_event.
  assert (connection_ s = None) as Hn.
  { destruct (connection_ s); [|done]. destruct Hc as (_ & Hst & _). destruct He as [(E & _) _]. congruence. }
  destruct (connector_exec_spec (Ctor.Start a) (connector_ s) Hk He) as (k' & Hx & Hik').
  pose proof Hx as Hg. cbn [Ctor.exec] in Hg. unfold start in Hg. apply startInLoop_grows in Hg.
  eexists. split.
  { apply (on_connector_Ok _ k' []); [exact Hx|]. destruct Hg as (E1 & E2 & E3). by split_and!. }
  apply grown_inv; try done.
  split; try done. cbn. by rewrite Hn.
Qed.

Lemma event_disconnect n : event_ok (Disconnect n).
Proof.
  open_event.
  unfold disconnect. cbn [connection_ with_flags].
  assert (inv (with_flags (retry_ s) false s)) as Hinv1.
  { split; cbn; try done. destruct (connection_ s); [|done]. destruct Hc as (? & ? & ? & ? & ? & ?). by split_and!. }
  destruct (connection_ s) as [c|] eqn:Hcur; [|by eexists]. destruct n as [n|]; [|by eexists].
  destruct He as (x & Hx & Hok & Hlf). eexists. split; [by apply (on_client_conn_Ok c x)|].
  by apply (traffic_inv (with_flags (retry_ s) false s) c x n).
Qed.

Lemma event_stop : event_ok (Stop).
Proof.
  open_event.
  unfold stop. set (s1 := with_flags (retry_ s) false s).
  destruct (connector_exec_spec Ctor.Stop (connector_ s) Hk I) as (k' & Hx & Hik'). cbn in Hx. injection Hx as <-.
  eexists. split; [apply (on_connector_Ok _ (Ctor.stop (connector_ s)) [FStopInLoop]); [done|by split_and!]|].
  assert (inv s1) as Hinv1.
  { split; cbn; try done. destruct (connection_ s); [|done]. destruct Hc as (? & ? & ? & ? & ? & ?). by split_and!. }
  apply connector_step_inv; try done; cbn.
  - by rewrite omap_app, Hq1.
  - intros c. rewrite !cnt_app, cnt_cons, cnt_nil, decide_False by done. lia.
  - intros c. rewrite !elem_of_app, list_elem_of_singleton. naive_solver.
  - intros c Hcur. rewrite Hcur in Hc. destruct Hc as (_ & ? & _ & Hrf & Hpo & Hpe). split_and!; try done.
    + rewrite app_assoc. by apply reset_first_snoc.
    + intros Hat. rewrite elem_of_app, list_elem_of_singleton. intros [?|?]; [by apply Hpe|done].
Qed.

Lemma event_enableRetry : event_ok (EnableRetry).
Proof.
  open_event.
  eexists. split; [done|]. split; cbn; try done.
Qed.

Lemma event_revents v err sc peer n : event_ok (Revents v err sc peer n).
Proof.
  open_event.
  destruct He as (He & Hok & Hlf & Hlim).
  assert (connection_ s = None) as Hn.
  { destruct (connection_ s); [|done]. destruct Hc as (_ & Hst & _). destruct He as (_ & fd & ch & Hch & Hw).
    pose proof (Ctor.inv_channel _ Hk) as Hx. unfold channel_inv in Hx. rewrite Hch, decide_False in Hx by congruence.
    destruct Hx as (_ & _ & _ & E & _). congruence. }
  destruct (connector_exec_spec (Ctor.Revents v err sc) (connector_ s) Hk He) as (k' & Hx & Hik').
  cbn [Ctor.exec] in Hx. destruct (on_revents_grows _ _ _ _ _ Hx) as [new Hg].
  rewrite (on_connector_Ok _ k' new) by done. cbn [mbind res_bind].
  pose proof (grown_inv s k' new Hinv Hik' Hg Hn) as Hinv1. set (s1 := with_connector k' _) in *.
  case_bool_decide as Hd; [by exists s1|]. change (delivered (connector_ s1)) with (delivered k') in Hd.
  destruct (on_revents_delivered _ _ _ _ _ Hx) as [E|[Hst Hcon]]; [by rewrite E in Hd|].
  apply client_newConnection_spec; try done. destruct Hg as (_ & _ & E3). cbn. rewrite E3. apply He.
Qed.

Lemma event_timer a : event_ok (Timer a).
Proof.
  open_event.
  destruct (connector_exec_spec (Ctor.Timer a) (connector_ s) Hk He) as (k' & Hx & Hik').
  assert (grows [] (connector_ s) k' ∧
    (timers (connector_ s) = [] → armed (connector_ s) = [] → k' = connector_ s)) as [Hg Hsame].
  { cbn [Ctor.exec] in Hx. destruct (timers (connector_ s)); [destruct (armed (connector_ s))|].
    - injection Hx as <-. split; [apply grows_refl|done].
    - apply startInLoop_grows in Hx. destruct Hx as (E1 & E2 & E3). by split.
    - apply startInLoop_grows in Hx. destruct Hx as (E1 & E2 & E3). by split. }
  rewrite (on_connector_Ok _ k' []) by done. eexists. split; [done|].
  destruct (connection_ s) as [c|] eqn:Hcur; [|by apply grown_inv].
  assert (tokens (connector_ s) = 0%nat) as Ht.
  { destruct (decide (tokens (connector_ s) = 0%nat)); [done|]. exfalso. destruct Hc as (_ & Hst & _).
    assert (0 < tokens (connector_ s))%nat as Htk by lia. apply (Ctor.inv_idle _ Hk) in Htk. congruence. }
  unfold tokens in Ht.
  rewrite Hsame by (apply length_zero_iff_nil; lia). cbn. rewrite app_nil_r. by destruct s.
Qed.

Lemma event_pollClose c a : event_ok (PollClose c a).
Proof.
  open_event.
  destruct He as (Hcur & Hpo & Hat & Ha). rewrite Hcur in Hc. destruct Hc as (_ & _ & _ & _ & Hch & _).
  destruct (close_spec c a s Hinv Hcur (Hch Hpo) Ha) as (s' & ? & ? & _). by exists s'.
Qed.

Lemma event_forceClose c : event_ok (ForceClose c).
Proof.
  open_event.
  eexists. split; [done|]. split; cbn; rewrite ?omap_app, ?app_nil_r; try done.
  - destruct (connection_ s) as [c'|]; [|done]. destruct Hc as (? & ? & ? & Hrf & ? & Hpe). split_and!; try done.
    + rewrite app_assoc. by apply reset_first_snoc.
    + intros Hat. rewrite elem_of_app, list_elem_of_singleton. intros [?|?]; [by apply Hpe|done].
  - intros c' x Hx. rewrite app_assoc, cnt_app, cnt_cons, cnt_nil, decide_False, !Nat.add_0_r by done. by apply Hcs.
  - intros c'. rewrite app_assoc, !(elem_of_app _ [_]), !list_elem_of_singleton. unfold is_up in He.
    intros [[?|?]|[?|E]]; try done; [by apply Hid; left|by apply Hid; right|]. injection E as ->.
    destruct (conns s !! c); [by eexists|done].
Qed.

Lemma event_traffic c n : event_ok (Traffic c n).
Proof.
  open_event.
  destruct He as (x & Hx & Hok & Hlf). eexists. split; [by apply (on_client_conn_Ok c x)|]. by apply traffic_inv.
Qed.

Lemma event_swap : event_ok (Swap).
Proof.
  open_event.
  destruct (connector_exec_spec Ctor.Swap (connector_ s) Hk He) as (k' & Hx & Hik'). cbn in Hx. injection Hx as <-.
  cbn [mbind res_bind Ctor.exec]. eexists. split; [done|]. specialize (Hp He). apply connector_step_inv; try done.
  - intros c. by rewrite Hp, app_nil_r.
  - intros c. by rewrite Hp, app_nil_r.
  - intros c Hcur. rewrite Hcur in Hc. destruct Hc as (_ & ? & ? & Hrf & ? & _). cbn. split_and!; try done.
    + rewrite app_nil_r. by rewrite Hp in Hrf.
    + intros _. apply not_elem_of_nil.
Qed.

Lemma event_runFunctor a : event_ok (RunFunctor a).
Proof.
  open_event.
  destruct He as [Hat Ha]. destruct (batch s) as [|[f|c|c] b] eqn:Hb; [by exists s|..].
  - by apply (run_own_item s f b).
  - assert (inv (with_items (pending s) b s)) as Hinv1 by (by eapply pop_item_inv).
    change (is_up c (with_items (pending s) b s)) with (is_up c s). destruct (is_up c s) eqn:Hup; [|by eexists].
    unfold is_up in Hup. destruct (conns s !! c) as [[nm n]|] eqn:Hx; [|done].
    apply bool_decide_eq_true in Hup. destruct (Hcs c _ Hx) as [_ Hs]. cbn in Hs. rewrite Hup in Hs.
    destruct Hs as [Hcur _]. rewrite Hcur in Hc. destruct Hc as (_ & Hst & _ & Hrf & _ & _).
    destruct (close_spec c a (with_items (pending s) b s) Hinv1 Hcur) as (s' & ? & ? & _); [|done|by exists s'].
    change (connector_ (with_items (pending s) b s)) with (connector_ s). apply no_reset_channel; try done.
    intros [j Hj]%list_elem_of_lookup. rewrite Hb in Hj. specialize (Hrf 0%nat j eq_refl Hj). lia.
  - by apply run_destroyed_item.
Qed.

Lemma event_pollAgain : event_ok (PollAgain).
Proof.
  open_event.
  destruct He as [Hat Hb]. assert (Ctor.batch (connector_ s) = []) as Hkb by (by rewrite <-Hq2, Hb).
  destruct (connector_exec_spec Ctor.PollAgain (connector_ s) Hk) as (k' & Hx & Hik'); [done|].
  cbn [Ctor.exec] in *. injection Hx as Hx. cbn [mbind res_bind]. eexists. split; [done|].
  rewrite Hx. split; cbn; try done; rewrite <-?Hx; cbn; try done.
  destruct (connection_ s) as [c|]; [|done]. destruct Hc as (? & Hst & ? & ? & _ & Hpe). split_and!; try done.
  intros _. apply no_reset_channel; try done. rewrite Hb. by apply Hpe.
Qed.

#[local] Hint Resolve event_connect event_disconnect event_stop event_enableRetry event_revents event_timer event_pollClose event_forceClose event_traffic event_swap event_runFunctor event_pollAgain : ccnet.

Lemma client_exec_spec e s : inv s → enabled e s → ∃ s', exec e s = Ok s' ∧ inv s'.
Proof. assert (event_ok e) by (destruct e; auto with ccnet). auto. Qed.

Inductive step (s s' : client) : Prop :=
  | step_intro e : enabled e s → exec e s = Ok s' → step s s'.

Lemma client_reachable_inv name s : rtc step (newClient name) s → inv s.
Proof.
  apply rtc_invariant.
  - intros a b Ha [e He Hx]. destruct (client_exec_spec e a Ha He) as (b' & Hb & ?). congruence.
  - split; cbn; try done; [apply connector_new_inv|]. intros c [Hin|Hin]; by apply not_elem_of_nil in Hin.
Qed.

(** ** Theorems *)

(** C10: the client is safe, and has one connection at a time. When connect() is called only
    while the connector is idle, socket(2) succeeds, no retry timer fires in the turn that set
    it before the old channel has been reset, and fewer than 2^31 connections are made, then
    however poll events, timers, functors, disconnect(), stop() and forceClose() interleave, no
    assertion of the client, its connector or its connections fails: in particular the connector has let go of its channel whenever the client
    restarts it. Only the current connection is up, and its connector is connected; every
    connection that has closed is destroyed by exactly one functor. *)
Theorem client_safe (name : list byte) (s : client) (e : event)
    (Hreach : rtc step (newClient name) s) (He : enabled e s) :
  is_ok (exec e s) = true ∧
  (∀ c x, conns s !! c = Some x → cn_life x.2 = Up → connection_ s = Some c) ∧
  (∀ c, connection_ s = Some c → state_ (connector_ s) = kConnected ∧
     ∃ x, conns s !! c = Some x ∧ cn_life x.2 = Up) ∧
  (∀ c x, conns s !! c = Some x → cnt (FDestroyed c) (batch s ++ pending s) =
     if decide (cn_life x.2 = Down) then 1%nat else 0%nat).
Proof.
  pose proof (client_reachable_inv _ _ Hreach) as Hinv. split.
  { by destruct (client_exec_spec e s Hinv He) as (s' & -> & _). }
  destruct Hinv as [_ _ _ Hc Hcs _ _]. split_and!.
  - intros c x Hx Hlf. destruct (Hcs c x Hx) as [_ Hs]. rewrite Hlf in Hs. by destruct Hs.
  - intros c Hcur. rewrite Hcur in Hc. by destruct Hc as (? & ? & _).
  - intros c x Hx. destruct (Hcs c x Hx) as [_ Hs]. destruct (cn_life x.2); try done. by destruct Hs.
Qed.

(** A lost connection is replaced when the client wants it. When the current connection
    closes, the client has no connection; with enableRetry() and without disconnect() or
    stop() its connector has started over, with the first retry delay, and is connecting,
    or has set its retry timer, or has given up on an error that is not retried; otherwise
    the connector is left as it was. *)
Theorem client_reconnects (name : list byte) (s s' : client) (c : nat) (a : attempt C)
    (Hreach : rtc step (newClient name) s) (He : enabled (PollClose c a) s) (Hx : exec (PollClose c a) s = Ok s') :
  connection_ s' = None ∧
  if retry_ s && connect_ s
  then (state_ (connector_ s') = kConnecting ∧ retryDelayMs_ (connector_ s') = kInitRetryDelayMs) ∨
       (state_ (connector_ s') = kDisconnected ∧ armed (connector_ s') = armed (connector_ s) ++ [kInitRetryDelayMs]) ∨
       (state_ (connector_ s') = kDisconnected ∧ armed (connector_ s') = armed (connector_ s) ∧ a_errno a ≠ 0)
  else connector_ s' = connector_ s.
Proof.
  pose proof (client_reachable_inv _ _ Hreach) as Hinv. destruct He as (Hcur & Hpo & _ & Ha).
  pose proof (inv_current _ Hinv) as Hc. rewrite Hcur in Hc. destruct Hc as (_ & _ & _ & _ & Hch & _).
  destruct (close_spec c a s Hinv Hcur (Hch Hpo) Ha) as (s1 & Hs1 & _ & Hn & Hk). cbn [exec] in Hx.
  rewrite Hs1 in Hx. injection Hx as <-. split; [done|]. destruct (retry_ s && connect_ s); [|done].
  unfold restart, startInLoop in Hk. cbn [state_ with_state with_retry with_connect] in Hk.
  rewrite bool_decide_true in Hk by done. cbn [assert_ mbind res_bind Ctor.connect_ with_connect] in Hk.
  unfold Ctor.connect in Hk. destruct Ha as (Hfd & _). rewrite (proj2 (Z.leb_le 0 _) Hfd) in Hk.
  destruct (_ || _ || _ || _) eqn:E1 in Hk; [|destruct (_ || _ || _ || _ || _) in Hk].
  - left. unfold connecting in Hk. apply bind_Ok in Hk as (? & _ & Hk). apply bind_Ok in Hk as (ch & _ & [= <-]). done.
  - right. left. unfold retry in Hk. apply bind_Ok in Hk as (k1 & Hk1 & Hk). unfold Ctor.close in Hk1.
    destruct (bool_decide _); [|done]. injection Hk1 as <-. cbn in Hk. by injection Hk as <-.
  - right. right. unfold Ctor.close in Hk. destruct (bool_decide _); [|done]. injection Hk as <-.
    split_and!; try done. intros E. by rewrite E in E1.
Qed.
End Client.
Arguments client : clear implicits.
Arguments event : clear implicits.

(** ** Witnesses: a client over the real channel and connection *)
Import Demo.
#[local] Instance client_conn_interface : ConnectionI Conn.demo_conn := conn_interface Conn.echo.
#[local] Instance client_conn_laws : ConnectionLaws Conn.demo_conn := conn_interface_laws Conn.echo Conn.echo_ok.

Definition demo_client : client demo_reactor Conn.demo_conn := newClient [x63].
Definition client_after (es : list (event demo_reactor Conn.demo_conn)) : client demo_reactor Conn.demo_conn :=
  match mfold exec es demo_client with Ok s => s | Err _ => demo_client end.

Lemma client_snoc es e :
  rtc step demo_client (client_after es) → is_ok (mfold exec es demo_client) = true →
  enabled e (client_after es) → is_ok (exec e (client_after es)) = true → rtc step demo_client (client_after (es ++ [e])).
Proof.
  intros Hr Hes He Hx. eapply rtc_r; [exact Hr|]. exists e; [done|]. revert Hx. unfold client_after in *.
  rewrite mfold_app. destruct (mfold exec es demo_client) as [s|]; [|done]. cbn.
  by destruct (exec e s) as [s'|].
Qed.

(** connect(), the socket becomes writable, and the connection is up in the next poll. *)
Definition connected_run : list (event demo_reactor Conn.demo_conn) :=
  [EnableRetry; Connect in_progress; PollAgain; Revents Poll.POLLOUT 0 false [x31] Server.fresh_conn; Swap;
   RunFunctor in_progress; PollAgain].
Lemma connected_reachable : rtc step demo_client (client_after connected_run).
Proof.
  destruct attempts_ok as [Ha1 Ha2]. destruct Server.fresh_conn_ok as [Hok Hlf].
  change connected_run with ((((((([] ++ [EnableRetry]) ++ [Connect in_progress]) ++ [PollAgain]) ++
    [Revents Poll.POLLOUT 0 false [x31] Server.fresh_conn]) ++ [Swap]) ++ [RunFunctor in_progress]) ++ [PollAgain]).
  repeat (apply client_snoc; [|by vm_compute| |by vm_compute]); try apply rtc_refl; cbn [enabled]; try done.
  - split; [|split; [exact Hok|split; [exact Hlf|by vm_compute]]]. split; [by vm_compute|].
    do 2 eexists. split; [vm_compute; reflexivity|by vm_compute].
Qed.

Lemma client_safe_witness :
  is_ok (exec (PollClose 0 refused) (client_after connected_run)) = true ∧
  connection_ (client_after connected_run) = Some 0%nat ∧ state_ (connector_ (client_after connected_run)) = kConnected.
Proof.
  destruct attempts_ok as [Ha1 Ha2].
  destruct (client_safe [x63] (client_after connected_run) (PollClose 0 refused) connected_reachable) as (K1 & _ & K2 & _).
  - split; [by vm_compute|]. split; [by vm_compute|]. split; [by vm_compute|exact Ha1].
  - assert (connection_ (client_after connected_run) = Some 0%nat) as Hc by (by vm_compute).
    split; [exact K1|]. split; [exact Hc|]. exact (proj1 (K2 0%nat Hc)).
Defined.

Lemma client_reconnects_witness :
  armed (connector_ (client_after (connected_run ++ [PollClose 0 refused]))) = [500] ∧
  connection_ (client_after (connected_run ++ [PollClose 0 refused])) = None.
Proof.
  destruct attempts_ok as [Ha1 Ha2].
  destruct (client_reconnects [x63] (client_after connected_run) (client_after (connected_run ++ [PollClose 0 refused]))
    0%nat refused connected_reachable) as (K1 & _).
  - split; [by vm_compute|]. split; [by vm_compute|]. split; [by vm_compute|exact Ha1].
  - vm_compute. reflexivity.
  - split; [by vm_compute|exact K1].
Defined.

(** Connect() on a client whose connection has ended aborts the process. Without
    enableRetry() nothing takes the connector out of kConnected, and startInLoop asserts
    kDisconnected. *)
Theorem connect_again_aborts :
  mfold exec (drop 1 connected_run ++ [PollClose 0 in_progress; Swap; RunFunctor in_progress; Connect in_progress])
    demo_client = Err AssertFailed.
Proof. by vm_compute. Qed.
End Client.
