(* ===== verification/ClientEnd.v ===== *)
(** * The end of a TcpClient (~TcpClient in net/tcp_client.cc, ~Connector in net/connector.cc)

    The destructor runs in the loop thread, on a client of TcpClient.v at any point of its
    life. What outlives the client is [rest], the loop's functors, the connections and the
    connector. The connector is shared: the client has let go of it, [hold] says that the
    one-second timer of the destructor still has it, retry timers have it too, and [alive]
    says that it has not been deleted. Functors of the connector carry its bare address.
    Of the client's own fields only [connection_] keeps a meaning, the connection whose close
    callback the destructor has replaced. *)

From S2P Require Import Prelude Interfaces Poller Buffer TcpConnection Connector TcpServer TcpClient.

Module ClientEnd.
Import Ctor Client.

Section ClientEnd.
Context {C : Type} `{ChannelI C} {N : Type} `{ConnectionI N}.

Record ended := mkEnded { rest : client C N; alive : bool; hold : bool }.

(** ~Connector *)
Definition connector_destructor (k : connector C) : res unit :=
  assert_ (match channel_ k with None => true | Some _ => false end).

(** A reference to the connector has gone; the last one deletes it. *)
Definition release (e : ended) : res ended :=
  let k := connector_ (rest e) in
  if alive e && negb (hold e) && bool_decide (timers k = []) && bool_decide (armed k = []) then
    _ ← connector_destructor k; Ok (mkEnded (rest e) false false)
  else Ok e.

(** detail::removeConnection, the close callback of an orphaned connection *)
Definition detail_removeConnection (c : nat) (s : client C N) : client C N :=
  Client.queueInLoop (FDestroyed c) (with_conns (nextConnId_ s) None (conns s) (polled s) s).

(** handleClose of the orphaned connection [c] *)
Definition orphan_close (c : nat) (s : client C N) : res (client C N) :=
  s ← on_conn c cn_close s; Ok (detail_removeConnection c s).

(** ~TcpClient; [unique]: nobody else has a reference to the connection. *)
Definition destroy (unique : bool) (s : client C N) : res ended :=
  let s := with_flags false (Client.connect_ s) s in
  match connection_ s with
  | Some c =>
      (* setCloseCallback(detail::removeConnection); forceClose() asks the state *)
      let s := if unique && is_up c s then Client.queueInLoop (FForceClose c) s else s in
      release (mkEnded s true false)
  | None =>
      s ← on_connector (λ k, Ok (Ctor.stop k)) s;
      release (mkEnded s true true)
  end.

(** ** What can still happen *)
Inductive late :=
  | LRevents (revents err : Z) (selfConnect : bool)
  | LTimer (a : attempt C)                    (* a retry timer *)
  | LExpire                                   (* the destructor's timer: removeConnector *)
  | LPollClose (c : nat)
  | LForceClose (c : nat)                     (* by whoever has the connection *)
  | LTraffic (c : nat) (n : N)
  | LSwap
  | LRun (a : attempt C)
  | LPollAgain.

Definition with_rest (s : client C N) (e : ended) : ended := mkEnded s (alive e) (hold e).

(** The channel's callbacks and the connector's functors use the connector's bare address,
    newConnectionCallback_ the client's. *)
Definition on_live (op : connector C → res (connector C)) (e : ended) : res ended :=
  if alive e then
    s ← on_connector op (rest e);
    if bool_decide (length (delivered (connector_ s)) = length (delivered (connector_ (rest e))))
    then Ok (with_rest s e) else Err UseAfterFree
  else Err UseAfterFree.

Definition exec_late (l : late) (e : ended) : res ended :=
  let s := rest e in
  match l with
  | LRevents v err sc => on_live (on_revents v err sc) e
  | LTimer a =>
      if bool_decide (timers (connector_ s) = []) && bool_decide (armed (connector_ s) = []) then Ok e
      else e ← on_live (Ctor.exec (Ctor.Timer a)) e; release e
  | LExpire => release (mkEnded s (alive e) false)
  | LPollClose c => s ← orphan_close c s; Ok (with_rest s e)
  | LForceClose c => Ok (with_rest (Client.queueInLoop (FForceClose c) s) e)
  | LTraffic c n => s ← on_conn c (λ _, Ok n) s; Ok (with_rest s e)
  | LSwap => s ← Client.exec Client.Swap s; Ok (with_rest s e)
  | LRun a =>
      match Client.batch s with
      | [] => Ok e
      | i :: b =>
          let e := with_rest (with_items (Client.pending s) b s) e in
          match i with
          | Own _ => on_live (Ctor.exec (Ctor.RunFunctor a)) e
          | FForceClose c => if is_up c s then s ← orphan_close c (rest e); Ok (with_rest s e) else Ok e
          | FDestroyed c => s ← on_conn c cn_destroyed (rest e); Ok (with_rest s e)
          end
      end
  | LPollAgain => s ← Client.exec Client.PollAgain s; Ok (with_rest s e)
  end.

(** No functor of the connector is queued. *)
Definition no_own (s : client C N) : Prop := omap own_functor (Client.batch s ++ Client.pending s) = [].

(** The destructor's timer comes when the loop has run the connector's functors; when a turn
    takes longer than the timer's second, [slow_turn_aborts] shows what happens. *)
Definition late_enabled (l : late) (e : ended) : Prop :=
  let k := connector_ (rest e) in
  match l with
  | LRevents v err sc => Ctor.enabled (Ctor.Revents v err sc) k
  | LTimer a => Ctor.enabled (Ctor.Timer a) k
  | LExpire => hold e = true ∧ at_ k = Events ∧ no_own (rest e)
  | LPollClose c => is_up c (rest e) = true ∧ polled (rest e) = true ∧ at_ k = Events
  | LForceClose c => is_up c (rest e) = true
  | LTraffic c n => ∃ x, conns (rest e) !! c = Some x ∧ cn_ok n ∧ cn_life n = cn_life x.2
  | LSwap => Ctor.enabled Ctor.Swap k
  | LRun a => at_ k = Functors ∧ attempt_ok a
  | LPollAgain => at_ k = Functors ∧ Client.batch (rest e) = []
  end.



Context `{!ChannelLaws C} `{!ConnectionLaws N}.

(** ** The connector after stop() *)
Definition stop_queued (k : connector C) : Prop := state_ k = kConnecting → (0 < queued FStopInLoop k)%nat.

Lemma retry_disconnects fd (k k' : connector C) : retry fd k = Ok k' → state_ k' = kDisconnected.
Proof. unfold retry. intros (k1 & _ & Hs)%bind_Ok. by destruct (Ctor.connect_ _); injection Hs as <-. Qed.

Lemma on_revents_leaves v err sc (k k' : connector C) :
  on_revents v err sc k = Ok k' → state_ k' = kConnecting → k' = k.
Proof.
  unfold on_revents. intros (k1 & K1 & Hs)%bind_Ok Hst.
  assert (k1 = k ∨ state_ k1 = kDisconnected) as Hk1.
  { destruct (negb _); [|injection K1 as <-; by left]. unfold handleError in K1.
    case_bool_decide; [|injection K1 as <-; by left]. apply bind_Ok in K1 as ([fd k2] & _ & K2%retry_disconnects). by right. }
  destruct (negb (Z.land v Poll.POLLOUT =? 0)).
  2: { injection Hs as <-. destruct Hk1; congruence. }
  unfold handleWrite in Hs. case_bool_decide as Hc.
  - exfalso. apply bind_Ok in Hs as ([fd k2] & _ & Hs). destruct (negb (err =? 0)); [apply retry_disconnects in Hs; congruence|].
    destruct sc; [apply retry_disconnects in Hs; congruence|]. destruct (Ctor.connect_ _); [by injection Hs as <-|].
    unfold Ctor.close in Hs. destruct (bool_decide _); [|done]. by injection Hs as <-.
  - apply bind_Ok in Hs as (u & _ & [= <-]). destruct Hk1; congruence.
Qed.

Lemma run_functor_late f fs a (k k' : connector C) :
  Ctor.connect_ k = false → Ctor.batch k = f :: fs → stop_queued k →
  Ctor.run_functor f a (Ctor.with_queue (Ctor.pending k) fs k) = Ok k' → stop_queued k'.
Proof.
  intros Hc Hb Hq Hr Hst. unfold stop_queued in Hq. rewrite (popped_queued f fs) in Hq by done.
  destruct f; cbn [Ctor.run_functor] in Hr.
  - unfold startInLoop in Hr. apply bind_Ok in Hr as (u & _ & Hr). cbn [Ctor.connect_ Ctor.with_queue] in Hr.
    rewrite Hc in Hr. injection Hr as <-. by apply Hq.
  - exfalso. unfold stopInLoop in Hr. case_bool_decide as Hx; [|injection Hr as <-; congruence].
    apply bind_Ok in Hr as ([fd k2] & _ & Hr%retry_disconnects). congruence.
  - unfold resetChannel in Hr. apply bind_Ok in Hr as (u & _ & [= <-]). by apply Hq.
Qed.

(** ** The invariant *)
Record einv (e : ended) : Prop := {
  ei_rest : Client.inv (rest e);
  ei_retry : retry_ (rest e) = false;
  ei_hold : hold e = true → alive e = true;
  ei_dead : alive e = false → timers (connector_ (rest e)) = [] ∧ armed (connector_ (rest e)) = [];
  ei_stopped : alive e = true → Ctor.connect_ (connector_ (rest e)) = false ∧ connection_ (rest e) = None ∧
                                stop_queued (connector_ (rest e));
  ei_free : hold e = false → no_own (rest e) ∧ channel_ (connector_ (rest e)) = None
}.

Lemma no_own_queued s f : Client.inv s → no_own s → queued f (connector_ s) = 0%nat.
Proof.
  intros Hinv Hno. destruct (Client.inv_queues _ Hinv) as [Q1 Q2]. unfold no_own in Hno.
  rewrite omap_app in Hno. apply app_nil in Hno as [E1 E2]. unfold queued. by rewrite <-Q1, <-Q2, E1, E2.
Qed.

(** With its functors run, the connector has no channel. *)
Lemma no_own_channel s :
  Client.inv s → no_own s → state_ (connector_ s) ≠ kConnecting →
  channel_ (connector_ s) = None ∧ own (connector_ s) = [].
Proof.
  intros Hinv Hno Hst. pose proof (no_own_queued s FResetChannel Hinv Hno) as Hq.
  pose proof (Ctor.inv_channel _ (Client.inv_connector _ Hinv)) as Hch. unfold channel_inv in Hch.
  destruct (channel_ (connector_ s)) as [[fd ch]|].
  - rewrite decide_False in Hch by done. destruct Hch as (_ & _ & _ & _ & E & _). lia.
  - by destruct Hch as (_ & _ & ?).
Qed.

Lemma release_ok e : einv e → ∃ e', release e = Ok e' ∧ einv e'.
Proof.
  intros He. unfold release. destruct (alive e && _ && _ && _) eqn:Hc; [|by exists e].
  rewrite !andb_true_iff, !bool_decide_eq_true in Hc. destruct Hc as [[[Hal Hh%negb_true_iff] Ht] Har].
  destruct He as [Hr Hre _ _ Hs Hf]. destruct (Hf Hh) as [Hno Hch]. unfold connector_destructor. rewrite Hch.
  cbn. eexists. split; [done|]. by constructor.
Qed.

Lemma on_connector_inv op (s s' : client C N) :
  on_connector op s = Ok s' →
  op (connector_ s) = Ok (connector_ s') ∧ retry_ s' = retry_ s ∧ connection_ s' = connection_ s.
Proof. unfold on_connector. by intros (k' & Hk & [= <-])%bind_Ok. Qed.

(** A step of a connector that is alive. *)
Lemma live_ok op e s' :
  retry_ (rest e) = false → alive e = true → Ctor.connect_ (connector_ (rest e)) = false → connection_ (rest e) = None →
  on_connector op (rest e) = Ok s' → Client.inv s' → stays_stopped (connector_ (rest e)) (connector_ s') →
  stop_queued (connector_ s') → (hold e = false → no_own s' ∧ channel_ (connector_ s') = None) →
  ∃ e', on_live op e = Ok e' ∧ einv e'.
Proof.
  intros Hre Hal Hc Hcur Hop Hinv Hs Hq Hf. unfold on_live. rewrite Hal, Hop. cbn [mbind res_bind].
  destruct (Hs Hc) as (Hc' & Hd & _). rewrite Hd, bool_decide_true by done.
  apply on_connector_inv in Hop as (_ & E1 & E2). eexists. split; [done|].
  constructor; cbn [with_rest rest alive hold]; try done; try congruence. intros _. split_and!; [done|congruence|done].
Qed.

Definition late_ok (l : late) : Prop := ∀ e, einv e → late_enabled l e → ∃ e', exec_late l e = Ok e' ∧ einv e'.

Lemma channel_alive e fd ch : einv e → channel_ (connector_ (rest e)) = Some (fd, ch) → alive e = true ∧ hold e = true.
Proof.
  intros [_ _ Hh _ _ Hf] Hch. destruct (hold e); [by split; [apply Hh|]|]. destruct (Hf eq_refl) as [_ E]. congruence.
Qed.

Lemma late_revents v err sc : late_ok (LRevents v err sc).
Proof.
  intros e He Hen. pose proof Hen as (_ & fd & ch & Hch & _).
  destruct (channel_alive e fd ch He Hch) as [Hal Hh]. destruct He as [Hr Hre _ _ Hs _].
  destruct (Hs Hal) as (Hc & Hcur & Hq).
  destruct (on_revents_spec v err sc (connector_ (rest e))) as (k' & Hk & Hik & Hst); [apply Hr|done|].
  pose proof Hk as Hg. apply on_revents_grows in Hg as [new Hg].
  apply (live_ok _ e (with_connector k' (with_items (Client.pending (rest e) ++ (Own <$> new)) (Client.batch (rest e)) (rest e))));
    try done; [by apply on_connector_Ok|by apply grown_inv| |congruence].
  cbn. intros Hx. pose proof (on_revents_leaves _ _ _ _ _ Hk Hx) as ->. by apply Hq.
Qed.

Lemma late_timer a : late_ok (LTimer a).
Proof.
  intros e He Hen. cbn [exec_late]. destruct (bool_decide (timers _ = []) && _) eqn:Ht; [by exists e|].
  destruct He as [Hr Hre Hh Hde Hs Hf].
  destruct (alive e) eqn:Hal; [|by destruct Hde as [E1 E2]; [done|]; rewrite E1, E2 in Ht].
  destruct (Hs eq_refl) as (Hc & Hcur & Hq).
  destruct (timer_spec a (connector_ (rest e))) as (k' & Hk & Hik & Hst); [apply Hr|done|].
  assert (∃ ar ts, k' = with_turn (Ctor.pending (connector_ (rest e))) (Ctor.batch (connector_ (rest e)))
                          (at_ (connector_ (rest e))) ar ts (connector_ (rest e))) as (ar & ts & ->).
  { assert (∀ ar ts, startInLoop (a_fd a) (a_errno a) (a_ch a) (with_turn (Ctor.pending (connector_ (rest e)))
      (Ctor.batch (connector_ (rest e))) (at_ (connector_ (rest e))) ar ts (connector_ (rest e))) = Ok k' →
      k' = with_turn (Ctor.pending (connector_ (rest e))) (Ctor.batch (connector_ (rest e)))
             (at_ (connector_ (rest e))) ar ts (connector_ (rest e))) as Hst'.
    { intros ar ts Hk'. unfold startInLoop in Hk'. apply bind_Ok in Hk' as (u & _ & Hk').
      cbn [Ctor.connect_ with_turn] in Hk'. rewrite Hc in Hk'. by injection Hk' as <-. }
    cbn [Ctor.exec] in Hk. destruct (timers _) as [|t ts]; [|by eexists _, _; apply Hst'].
    destruct (armed _) as [|t ar]; [done|]. by eexists _, _; apply Hst'. }
  destruct (live_ok (Ctor.exec (Ctor.Timer a)) e (with_connector (with_turn (Ctor.pending (connector_ (rest e)))
    (Ctor.batch (connector_ (rest e))) (at_ (connector_ (rest e))) ar ts (connector_ (rest e)))
    (with_items (Client.pending (rest e) ++ (Own <$> [])) (Client.batch (rest e)) (rest e)))) as (e' & -> & He'); try done.
  - apply on_connector_Ok; [done|]. by split_and!; cbn; rewrite ?app_nil_r.
  - apply grown_inv; try done. by split_and!; cbn; rewrite ?app_nil_r.
  - intros Hho. unfold no_own. cbn. rewrite app_nil_r. by apply Hf.
  - cbn [mbind res_bind]. by apply release_ok.
Qed.

Lemma late_expire : late_ok LExpire.
Proof.
  intros e [Hr Hre Hh Hde Hs _] (Hho & Hat & Hno). specialize (Hh Hho). destruct (Hs Hh) as (Hc & Hcur & Hq).
  apply release_ok. constructor; cbn [rest alive hold]; try done; try congruence. intros _. split; [done|].
  apply no_own_channel; try done. intros Hx. specialize (Hq Hx). rewrite no_own_queued in Hq by done. lia.
Qed.

(** A step of the connections only. *)
Lemma with_rest_inv e s' :
  einv e → Client.inv s' → connector_ s' = connector_ (rest e) → retry_ s' = false →
  (connection_ (rest e) = None → connection_ s' = None) →
  (no_own (rest e) → no_own s') → einv (with_rest s' e).
Proof.
  intros [Hr Hre Hh Hde Hs Hf] Hinv Hk Hre' Hcur Hno.
  constructor; cbn [with_rest rest alive hold]; rewrite ?Hk; try done.
  - intros Hal. destruct (Hs Hal) as (? & ? & ?). auto.
  - intros Hho. destruct (Hf Hho). auto.
Qed.

Lemma up_orphan e c : einv e → is_up c (rest e) = true → connection_ (rest e) = Some c ∧ alive e = false.
Proof.
  intros [Hr _ _ _ Hs _] Hup. unfold is_up in Hup. destruct (conns (rest e) !! c) as [[nm n]|] eqn:Hx; [|done].
  apply bool_decide_eq_true in Hup. destruct (Client.inv_conns _ Hr c _ Hx) as [_ Hc]. cbn in Hc. rewrite Hup in Hc.
  destruct Hc as [Hc _]. split; [done|]. destruct (alive e); [|done]. destruct (Hs eq_refl) as (_ & E & _). congruence.
Qed.

Lemma no_own_snoc (s : client C N) i : own_functor i = None → no_own s → no_own (Client.queueInLoop i s).
Proof. unfold no_own. cbn. intros Hi Hno. by rewrite app_assoc, omap_app, Hno; cbn; rewrite Hi. Qed.

Lemma no_own_tail (s : client C N) i b :
  Client.batch s = i :: b → no_own s → no_own (with_items (Client.pending s) b s).
Proof. unfold no_own. cbn. intros ->. cbn. by destruct (own_functor i). Qed.

Lemma orphan_close_ok c e :
  einv e → is_up c (rest e) = true → ∃ s', orphan_close c (rest e) = Ok s' ∧ einv (with_rest s' e).
Proof.
  intros He Hup. destruct (up_orphan e c He Hup) as [Hcur _]. pose proof He as [Hr Hre _ _ _ _].
  destruct (closed_inv c (rest e) Hr Hcur) as (x & n & Hn & Hinv). unfold orphan_close. rewrite Hn. cbn [mbind res_bind].
  eexists. split; [done|]. apply with_rest_inv; try done. intros Hno. by apply no_own_snoc.
Qed.

Lemma late_pollClose c : late_ok (LPollClose c).
Proof.
  intros e He (Hup & _). cbn [exec_late]. destruct (orphan_close_ok c e He Hup) as (s' & -> & Hs'). by eexists.
Qed.

Lemma late_forceClose c : late_ok (LForceClose c).
Proof.
  intros e He Hup. pose proof He as [Hr Hre _ _ _ _]. eexists. split; [done|].
  destruct (event_forceClose c (rest e) Hr Hup) as (s' & [= <-] & Hinv). apply with_rest_inv; try done.
  intros Hno. by apply no_own_snoc.
Qed.

Lemma late_traffic c n : late_ok (LTraffic c n).
Proof.
  intros e He Hen. pose proof He as [Hr Hre _ _ _ _]. cbn [exec_late].
  destruct (event_traffic c n (rest e) Hr Hen) as (s' & Hs & Hinv). cbn [exec] in Hs. rewrite Hs. eexists. split; [done|].
  unfold on_conn in Hs. destruct (conns (rest e) !! c) as [[nm m]|]; [|done]. injection Hs as <-. by apply with_rest_inv.
Qed.

(** The loop's own steps move functors and timers. *)
Lemma late_swap : late_ok LSwap.
Proof.
  intros e He Hen. pose proof He as [Hr Hre Hh Hde Hs Hf]. cbn [exec_late].
  destruct (event_swap (rest e) Hr Hen) as (s' & Hx & Hinv). rewrite Hx. eexists. split; [done|].
  cbn in Hx. injection Hx as <-. pose proof (Ctor.inv_phase _ (Client.inv_connector _ Hr) Hen) as Hb.
  pose proof (Client.inv_phase _ Hr Hen) as Hb'.
  constructor; cbn [with_rest rest alive hold]; try done.
  - intros Hal. destruct (Hs Hal) as (? & ? & Hq). split_and!; try done. unfold stop_queued, queued in *. cbn.
    rewrite Hb, cnt_nil in Hq. rewrite cnt_nil. intros Hst. specialize (Hq Hst). lia.
  - intros Hho. destruct (Hf Hho) as [Hno ?]. split; [|done]. unfold no_own in *. cbn. rewrite app_nil_r.
    by rewrite Hb' in Hno.
Qed.

Lemma late_pollAgain : late_ok LPollAgain.
Proof.
  intros e He Hen. pose proof He as [Hr Hre Hh Hde Hs Hf]. cbn [exec_late].
  destruct (event_pollAgain (rest e) Hr Hen) as (s' & Hx & Hinv). rewrite Hx. eexists. split; [done|].
  cbn in Hx. injection Hx as <-. constructor; cbn [with_rest rest alive hold]; try done.
  cbn. intros Hal. by destruct (Hde Hal) as [-> ->].
Qed.

Lemma late_run a : late_ok (LRun a).
Proof.
  intros e He [Hat Ha]. pose proof He as [Hr Hre Hh Hde Hs Hf]. cbn [exec_late].
  destruct (Client.batch (rest e)) as [|[f|c|c] b] eqn:Hb; [by exists e|..].
  - assert (hold e = true) as Hho.
    { destruct (hold e); [done|]. destruct (Hf eq_refl) as [Hno _]. unfold no_own in Hno. by rewrite Hb in Hno. }
    specialize (Hh Hho). destruct (Hs Hh) as (Hc & Hcur & Hq).
    destruct (run_own_item (rest e) f b a Hr Hb Hat Ha) as (s' & Hx & Hinv).
    assert (Ctor.batch (connector_ (rest e)) = f :: omap own_functor b) as Hkb.
    { destruct (Client.inv_queues _ Hr) as [_ Q2]. by rewrite <-Q2, Hb. }
    destruct (on_connector_inv _ _ _ Hx) as (Hop & _ & _). cbn [connector_ with_items Ctor.exec] in Hop. rewrite Hkb in Hop.
    destruct (connector_run_functor_spec f _ a _ (Client.inv_connector _ Hr) Hat Hkb Ha) as (k' & Hk & _ & Hst).
    rewrite Hop in Hk. injection Hk as <-.
    eapply live_ok; cbn [with_rest rest alive hold with_items connector_ connection_]; try done; [|congruence].
    by eapply run_functor_late.
  - assert (einv (with_rest (with_items (Client.pending (rest e)) b (rest e)) e)) as He1.
    { apply with_rest_inv; try done; [by eapply pop_item_inv|by eapply no_own_tail]. }
    destruct (is_up c (rest e)) eqn:Hup; [|by eexists].
    destruct (orphan_close_ok c _ He1) as (s' & -> & Hs'); [done|]. by eexists.
  - destruct (run_destroyed_item (rest e) c b Hr Hb) as (s' & Hx & Hinv). cbn [with_rest rest]. rewrite Hx.
    eexists. split; [done|]. unfold on_conn in Hx. destruct (conns _ !! c) as [[nm m]|]; [|done].
    apply bind_Ok in Hx as (n & _ & [= <-]). apply (with_rest_inv e); try done. intros Hno.
    by apply (no_own_tail (rest e) (FDestroyed c)).
Qed.

#[local] Hint Resolve late_revents late_timer late_expire late_pollClose late_forceClose late_traffic late_swap late_run late_pollAgain : ccnet.





















(** ** Theorems *)

End ClientEnd.

(** ** Witnesses *)
Import Demo.
#[local] Existing Instances client_conn_interface client_conn_laws.







(** Destroying the client in its connection callback aborts: the connector's channel is only
    reset by a functor of the next turn, and ~Connector asserts that it is gone. *)
Theorem destroy_in_callback_aborts (unique : bool) :
  destroy unique (client_after (take 4 connected_run)) = Err AssertFailed.
Proof. destruct unique; by vm_compute. Qed.

(** Stop() on a connected client and its destruction in the same turn: stopInLoop runs on the
    deleted connector. *)
Theorem destroy_after_stop_use_after_free (unique : bool) :
  (e ← destroy unique (client_after (connected_run ++ [Client.Stop]));
   mfold exec_late [LSwap; LRun in_progress] e) = Err UseAfterFree.
Proof. destruct unique; by vm_compute. Qed.

(** A client destroyed while connecting, in a turn of the loop that takes a second: stopInLoop
    has queued resetChannel when the destructor's timer lets go of the connector. *)
Theorem slow_turn_aborts (unique : bool) :
  (e ← destroy unique (client_after (take 3 connected_run));
   mfold exec_late [LSwap; LRun in_progress; LPollAgain; LExpire] e) = Err AssertFailed.
Proof. destruct unique; by vm_compute. Qed.
End ClientEnd.
