(* ===== verification/DancingLinks.v ===== *)
(** * The dancing links of the Sudoku solver: src/net/sudoku/sudoku.cc

    The nodes of class SudokuSolver live in an array; a pointer is an index into it, and the
    heap maps the indices handed out so far to their nodes. This file holds the operations on
    nodes, that a column is covered and uncovered without a trace, and that [solve] finds an
    exact cover of the columns when there is one. *)

From S2P Require Import Prelude.

Module DLX.

(** ** Nodes *)

Abbreviation ptr := Z.

Record Node := mkNode {
  left : ptr;
  right : ptr;
  up : ptr;
  down : ptr;
  col : ptr;
  name : Z;
  size : Z
}.

#[export] Instance Node_inhabited : Inhabited Node := populate (mkNode 0 0 0 0 0 0 0).

Definition set_left (v : ptr) (n : Node) := mkNode v (right n) (up n) (down n) (col n) (name n) (size n).
Definition set_right (v : ptr) (n : Node) := mkNode (left n) v (up n) (down n) (col n) (name n) (size n).
Definition set_up (v : ptr) (n : Node) := mkNode (left n) (right n) v (down n) (col n) (name n) (size n).
Definition set_down (v : ptr) (n : Node) := mkNode (left n) (right n) (up n) v (col n) (name n) (size n).
Definition set_col (v : ptr) (n : Node) := mkNode (left n) (right n) (up n) (down n) v (name n) (size n).
Definition set_size (v : Z) (n : Node) := mkNode (left n) (right n) (up n) (down n) (col n) (name n) v.

Abbreviation heap := (gmap ptr Node).

Definition get (p : ptr) (h : heap) : res Node :=
  match h !! p with Some n => Ok n | None => Err OutOfBounds end.
Definition store (p : ptr) (f : Node → Node) (h : heap) : res heap :=
  match h !! p with Some n => Ok (<[p := f n]> h) | None => Err OutOfBounds end.

Definition kMaxNodes : Z := 1 + 81 * 4 + 9 * 9 * 9 * 4.

(** [for (p = stop->next; p != stop; p = p->next) body(p)]; a ring has no more nodes than the
    array, so [bound] turns are enough. *)
Definition bound : nat := S (Z.to_nat kMaxNodes).

Fixpoint for_each (fuel : nat) (next : Node → ptr) (stop p : ptr) (body : ptr → heap → res heap)
    (h : heap) : res heap :=
  match fuel with
  | O => Err Diverges
  | S fuel =>
      if p =? stop then Ok h
      else h ← body p h; n ← get p h; for_each fuel next stop (next n) body h
  end.

Definition loop (next : Node → ptr) (stop : ptr) (body : ptr → heap → res heap) (h : heap) : res heap :=
  n ← get stop h; for_each bound next stop (next n) body h.

(** The body of cover's inner loop. *)
Definition unlink (j : ptr) (h : heap) : res heap :=
  n ← get j h; h ← store (down n) (set_up (up n)) h;
  n ← get j h; h ← store (up n) (set_down (down n)) h;
  n ← get j h; store (col n) (λ c, set_size (size c - 1) c) h.

(** The body of uncover's inner loop. *)
Definition relink (j : ptr) (h : heap) : res heap :=
  n ← get j h; h ← store (col n) (λ c, set_size (size c + 1) c) h;
  n ← get j h; h ← store (down n) (set_up j) h;
  n ← get j h; store (up n) (set_down j) h.

Definition cover (c : ptr) (h : heap) : res heap :=
  n ← get c h; h ← store (right n) (set_left (left n)) h;
  n ← get c h; h ← store (left n) (set_right (right n)) h;
  loop down c (λ row, loop right row unlink) h.

Definition uncover (c : ptr) (h : heap) : res heap :=
  h ← loop up c (λ row, loop left row relink) h;
  n ← get c h; h ← store (right n) (set_left c) h;
  n ← get c h; store (left n) (set_right c) h.

Definition put_left (old nnew : ptr) (h : heap) : res heap :=
  o ← get old h; h ← store nnew (set_left (left o)) h;
  h ← store nnew (set_right old) h;
  o ← get old h; h ← store (left o) (set_right nnew) h;
  store old (set_left nnew) h.

Definition put_up (old nnew : ptr) (h : heap) : res heap :=
  o ← get old h; h ← store nnew (set_up (up o)) h;
  h ← store nnew (set_down old) h;
  o ← get old h; h ← store (up o) (set_down nnew) h;
  h ← store old (set_up nnew) h;
  h ← store old (λ n, set_size (size n + 1) n) h;
  store nnew (set_col old) h.

(** ** The solver *)

Record solver := mkSolver {
  root_ : ptr;
  inout_ : list Z;
  columns_ : gmap Z ptr;   (* the entries of columns_[400] that are not NULL *)
  stack_ : list ptr;
  nodes_ : heap;           (* the nodes handed out: nodes_[0] to nodes_[cur_node_ - 1] *)
  cur_node_ : Z
}.

Definition with_nodes (h : heap) (s : solver) : solver :=
  mkSolver (root_ s) (inout_ s) (columns_ s) (stack_ s) h (cur_node_ s).
Definition with_stack (st : list ptr) (s : solver) : solver :=
  mkSolver (root_ s) (inout_ s) (columns_ s) st (nodes_ s) (cur_node_ s).
Definition with_inout (b : list Z) (s : solver) : solver :=
  mkSolver (root_ s) b (columns_ s) (stack_ s) (nodes_ s) (cur_node_ s).
Definition on_nodes (f : heap → res heap) (s : solver) : res solver :=
  h ← f (nodes_ s); Ok (with_nodes h s).

(** The loop of get_min_column, from [cc] with the candidate [c]. *)
Fixpoint min_loop (fuel : nat) (root : ptr) (cc c : ptr) (min_size : Z) (h : heap) : res ptr :=
  match fuel with
  | O => Err Diverges
  | S fuel =>
      if cc =? root then Ok c
      else
        n ← get cc h;
        if size n <? min_size then
          if size n <=? 1 then Ok cc else min_loop fuel root (right n) cc (size n) h
        else min_loop fuel root (right n) c min_size h
  end.

Definition get_min_column (s : solver) : res ptr :=
  r ← get (root_ s) (nodes_ s);
  let c := right r in
  n ← get c (nodes_ s);
  if 1 <? size n then min_loop bound (root_ s) (right n) c (size n) (nodes_ s) else Ok c.

(** The cell and the value of the row through [n]: [while (cell == -1 || val == -1)]. *)
Fixpoint read_row (fuel : nat) (n : ptr) (cell val : Z) (h : heap) : res (Z * Z) :=
  match fuel with
  | O => Err Diverges
  | S fuel =>
      if (cell =? -1) || (val =? -1) then
        nd ← get n h;
        if name nd <? 100 then read_row fuel (right nd) (name nd) val h
        else read_row fuel (right nd) cell (Z.rem (name nd) 10) h
      else Ok (cell, val)
  end.

(** The for loop of a solution: [inout_[cell] = val] for every row on the stack. *)
Definition fill_one (n : ptr) (s : solver) : res solver :=
  '(cell, val) ← read_row bound n (-1) (-1) (nodes_ s);
  if (0 <=? cell) && (cell <? zlen (inout_ s))
  then Ok (with_inout (<[Z.to_nat cell := val]> (inout_ s)) s) else Err OutOfBounds.

Definition fill (s : solver) : res solver := mfold fill_one (stack_ s) s.

Definition cover_col (j : ptr) (h : heap) : res heap := n ← get j h; cover (col n) h.
Definition uncover_col (j : ptr) (h : heap) : res heap := n ← get j h; uncover (col n) h.

(** The for loop over the rows of [col]; [solve] is the recursive call. *)
Fixpoint try_rows (solve : solver → res (bool * solver)) (fuel : nat) (col row : ptr) (s : solver) :
    res (bool * solver) :=
  match fuel with
  | O => Err Diverges
  | S fuel =>
      if row =? col then Ok (false, s)
      else
        let s := with_stack (stack_ s ++ [row]) s in
        s ← on_nodes (loop right row cover_col) s;
        '(found, s) ← solve s;
        if found : bool then Ok (true, s)
        else
          let s := with_stack (removelast (stack_ s)) s in
          s ← on_nodes (loop left row uncover_col) s;
          n ← get row (nodes_ s);
          try_rows solve fuel col (down n) s
  end.

Fixpoint solve (fuel : nat) (s : solver) : res (bool * solver) :=
  match fuel with
  | O => Err Diverges
  | S fuel =>
      r ← get (root_ s) (nodes_ s);
      if left r =? root_ s then s ← fill s; Ok (true, s)
      else
        col ← get_min_column s;
        s ← on_nodes (cover col) s;
        n ← get col (nodes_ s);
        '(found, s) ← try_rows (solve fuel) bound col (down n) s;
        if found : bool then Ok (true, s)
        else s ← on_nodes (uncover col) s; Ok (false, s)
  end.

(** ** Rings

    [seg nxt prv x l e]: from [x] the links [nxt] run through [l] to [e], and [prv] runs back.
    A ring is a segment from a node to itself. *)

Fixpoint seg (nxt prv : ptr → ptr) (x : ptr) (l : list ptr) (e : ptr) : Prop :=
  match l with
  | [] => nxt x = e ∧ prv e = x
  | y :: l => (nxt x = y ∧ prv y = x) ∧ seg nxt prv y l e
  end.

(** The forward links alone. *)
Fixpoint path (nxt : ptr → ptr) (x : ptr) (l : list ptr) (e : ptr) : Prop :=
  match l with
  | [] => nxt x = e
  | y :: l => nxt x = y ∧ path nxt y l e
  end.

Definition ring (nxt prv : ptr → ptr) (l : list ptr) : Prop :=
  match l with [] => True | x :: l => seg nxt prv x l x end.

Lemma path_app nxt x a y b e : path nxt x (a ++ y :: b) e ↔ path nxt x a y ∧ path nxt y b e.
Proof. revert x. induction a as [|z a IH]; intros x; cbn; [done|]. rewrite IH. tauto. Qed.

Lemma seg_app nxt prv x a y b e : seg nxt prv x (a ++ y :: b) e ↔ seg nxt prv x a y ∧ seg nxt prv y b e.
Proof. revert x. induction a as [|z a IH]; intros x; cbn; [done|]. rewrite IH. tauto. Qed.

Section Rings.
Context (nxt prv nxt' prv' : ptr → ptr).

Lemma seg_path x l e : seg nxt prv x l e → path nxt x l e.
Proof. revert x. induction l as [|y l IH]; intros x; cbn; [by intros [??]|]. intros [[??] ?]. auto. Qed.

Lemma seg_path_back x l e : seg nxt prv x l e → path prv e (reverse l) x.
Proof.
  revert x. induction l as [|y l IH]; intros x; [by intros [??]|].
  rewrite reverse_cons. intros [[??] ?]. apply path_app. cbn. auto.
Qed.

Lemma seg_frame x l e :
  (∀ z, z ∈ x :: l → nxt' z = nxt z) → (∀ z, z ∈ l ++ [e] → prv' z = prv z) →
  seg nxt prv x l e → seg nxt' prv' x l e.
Proof.
  revert x. induction l as [|y l IH]; intros x Hn Hp; cbn.
  - intros [??]. rewrite Hn, Hp by set_solver. done.
  - intros [[??] ?]. split; [by rewrite Hn, Hp by set_solver|]. apply IH; [..|done]; intros; [apply Hn|apply Hp]; set_solver.
Qed.

Lemma circle_frame x l :
  (∀ z, z ∈ x :: l → nxt' z = nxt z ∧ prv' z = prv z) → seg nxt prv x l x → seg nxt' prv' x l x.
Proof. intros Hz. apply seg_frame; intros z Hzl; apply Hz; set_solver. Qed.

Lemma ring_frame l : (∀ z, z ∈ l → nxt' z = nxt z ∧ prv' z = prv z) → ring nxt prv l → ring nxt' prv' l.
Proof. destruct l as [|x l]; [done|]. apply circle_frame. Qed.

(** What follows the first and what precedes the last node. *)
Lemma seg_first x l e : seg nxt prv x l e → nxt x ∈ l ++ [e].
Proof. destruct l; cbn; [intros [-> _]; by left|]. intros [[-> _] _]. by left. Qed.

Lemma seg_last x l e : seg nxt prv x l e → prv e ∈ x :: l.
Proof.
  revert x. induction l as [|y l IH]; intros x; cbn; [intros [_ ->]; by left|]. intros [_ H]. right. by apply IH.
Qed.

(** Redirecting the last link of a segment. *)
Lemma seg_retarget x l e e' :
  NoDup (x :: l) → (∀ z, z ∈ x :: l → nxt' z = if decide (z = prv e) then e' else nxt z) →
  (∀ z, z ∈ l → prv' z = prv z) → prv' e' = prv e →
  seg nxt prv x l e → seg nxt' prv' x l e'.
Proof.
  revert x. induction l as [|y l IH]; intros x Hnd Hn Hp He; cbn.
  - intros [? Hx]. rewrite Hn, decide_True by (by left || by rewrite Hx). split; [done|congruence].
  - intros [[Hx Hy] Hs]. apply NoDup_cons in Hnd as [Hni Hnd]. split.
    + assert (x ≠ prv e) by (intros ->; apply Hni, (seg_last _ _ _ Hs)).
      rewrite Hn, decide_False, Hp by (done || by left). done.
    + apply IH; try done; [intros z ?; apply Hn; set_solver|intros z ?; apply Hp; set_solver].
Qed.

(** Taking [j] out of a ring. *)
Lemma ring_remove c a j b :
  NoDup (c :: a ++ j :: b) →
  (∀ z, nxt' z = if decide (z = prv j) then nxt j else nxt z) →
  (∀ z, prv' z = if decide (z = nxt j) then prv j else prv z) →
  seg nxt prv c (a ++ j :: b) c → seg nxt' prv' c (a ++ b) c.
Proof.
  intros Hnd Hn Hp [H1 H2]%seg_app. pose proof (seg_last _ _ _ H1) as Hl. pose proof (seg_first _ _ _ H2) as Hf.
  apply NoDup_cons in Hnd as [Hc Hnd]. apply NoDup_app in Hnd as (Ha & Hab & Hjb). apply NoDup_cons in Hjb as [Hj Hb].
  assert (seg nxt' prv' c a (nxt j)) as Hs.
  { eapply seg_retarget; try done; [| |by rewrite Hp, decide_True].
    - apply NoDup_cons. set_solver.
    - intros z Hz. rewrite Hp, decide_False; [done|]. intros ->. set_solver. }
  destruct b as [|q b]; cbn in H2.
  - destruct H2 as [E _]. rewrite app_nil_r. by rewrite E in Hs.
  - destruct H2 as [[E _] H2]. apply seg_app. rewrite E in Hs. split; [done|].
    eapply seg_frame; [..|done]; intros z Hz.
    + rewrite Hn, decide_False; [done|]. intros ->. set_solver.
    + rewrite Hp, decide_False; [done|]. intros ->. rewrite E in Hz.
      apply elem_of_app in Hz as [?|Hz]; [by apply NoDup_cons in Hb as [??]|].
      apply list_elem_of_singleton in Hz. set_solver.
Qed.

(** Adding [n] at the end of a ring. *)
Lemma ring_append c l n :
  NoDup (c :: l) → n ∉ c :: l →
  (∀ z, nxt' z = if decide (z = n) then c else if decide (z = prv c) then n else nxt z) →
  (∀ z, prv' z = if decide (z = c) then n else if decide (z = n) then prv c else prv z) →
  seg nxt prv c l c → seg nxt' prv' c (l ++ [n]) c.
Proof.
  intros Hnd Hni Hn Hp H. apply seg_app. split.
  - eapply seg_retarget; try done.
    + intros z Hz. rewrite Hn, (decide_False (P := z = n)) by set_solver. done.
    + intros z Hz. apply NoDup_cons in Hnd as [??]. rewrite Hp, !decide_False by set_solver. done.
    + rewrite Hp, decide_False, decide_True by set_solver. done.
  - cbn. rewrite Hn, Hp, !decide_True by done. done.
Qed.

(** A ring can be read from any of its nodes. *)
Lemma ring_rotate l1 r l2 : ring nxt prv (l1 ++ r :: l2) → seg nxt prv r (l2 ++ l1) r.
Proof.
  destruct l1 as [|x l1]; cbn; [by rewrite app_nil_r|]. rewrite seg_app. intros [??]. by apply seg_app.
Qed.
End Rings.

(** ** Reading the heap *)

Definition leftOf (h : heap) (p : ptr) : ptr := left (h !!! p).
Definition rightOf (h : heap) (p : ptr) : ptr := right (h !!! p).
Definition upOf (h : heap) (p : ptr) : ptr := up (h !!! p).
Definition downOf (h : heap) (p : ptr) : ptr := down (h !!! p).
Definition colOf (h : heap) (p : ptr) : ptr := col (h !!! p).
Definition nameOf (h : heap) (p : ptr) : Z := name (h !!! p).
Definition sizeOf (h : heap) (p : ptr) : Z := size (h !!! p).

Lemma get_ok p (h : heap) : p ∈ dom h → get p h = Ok (h !!! p).
Proof. intros [n Hn]%elem_of_dom. unfold get. by rewrite Hn, (lookup_total_correct _ _ _ Hn). Qed.

Lemma store_ok p f (h : heap) : p ∈ dom h → store p f h = Ok (<[p := f (h !!! p)]> h).
Proof. intros [n Hn]%elem_of_dom. unfold store. by rewrite Hn, (lookup_total_correct _ _ _ Hn). Qed.

Lemma at_insert (h : heap) p n q : <[p := n]> h !!! q = if decide (q = p) then n else h !!! q.
Proof. case_decide as E; [rewrite E; apply lookup_total_insert_eq|by apply lookup_total_insert_ne]. Qed.

Lemma heap_ext (h h' : heap) :
  dom h = dom h' →
  (∀ z, leftOf h z = leftOf h' z) → (∀ z, rightOf h z = rightOf h' z) → (∀ z, upOf h z = upOf h' z) →
  (∀ z, downOf h z = downOf h' z) → (∀ z, colOf h z = colOf h' z) → (∀ z, nameOf h z = nameOf h' z) →
  (∀ z, sizeOf h z = sizeOf h' z) → h = h'.
Proof.
  intros Hd H1 H2 H3 H4 H5 H6 H7. apply map_eq. intros z.
  assert (h !!! z = h' !!! z) as E.
  { specialize (H1 z); specialize (H2 z); specialize (H3 z); specialize (H4 z); specialize (H5 z);
      specialize (H6 z); specialize (H7 z). unfold leftOf, rightOf, upOf, downOf, colOf, nameOf, sizeOf in *.
    destruct (h !!! z), (h' !!! z); cbn in *; congruence. }
  destruct (decide (z ∈ dom h)) as [Hz|Hz].
  - rewrite !lookup_lookup_total by (apply elem_of_dom; congruence). by rewrite E.
  - rewrite !not_elem_of_dom_1; congruence.
Qed.

(** Reads the fields of a heap that has been written to. *)
Ltac fields :=
  intros; unfold leftOf, rightOf, upOf, downOf, colOf, nameOf, sizeOf in *;
  rewrite ?at_insert; repeat (case_decide; simplify_eq); cbn; congruence.

(** Evaluates the next read or write of a node that exists. *)
Ltac access := first [rewrite get_ok by (rewrite ?dom_insert; set_solver)
                     |rewrite store_ok by (rewrite ?dom_insert; set_solver)]; cbn [mbind res_bind].

(** What unlinking does to each field. *)
Record unlinked (j : ptr) (h h' : heap) : Prop := {
  un_dom : dom h' = dom h;
  un_left z : leftOf h' z = leftOf h z;
  un_right z : rightOf h' z = rightOf h z;
  un_up z : upOf h' z = if decide (z = downOf h j) then upOf h j else upOf h z;
  un_down z : downOf h' z = if decide (z = upOf h j) then downOf h j else downOf h z;
  un_col z : colOf h' z = colOf h z;
  un_name z : nameOf h' z = nameOf h z;
  un_size z : sizeOf h' z = if decide (z = colOf h j) then sizeOf h z - 1 else sizeOf h z
}.

Lemma unlink_run j (h : heap) :
  j ∈ dom h → upOf h j ∈ dom h → downOf h j ∈ dom h → colOf h j ∈ dom h →
  upOf h j ≠ j → downOf h j ≠ j → ∃ h', unlink j h = Ok h' ∧ unlinked j h h'.
Proof.
  intros Hj Hu Hd Hc Hnu Hnd. unfold unlink.
  unfold upOf, downOf, colOf in *. access. access. access.
  rewrite at_insert, decide_False by done. access. access. rewrite !at_insert, !(decide_False (P := j = _)) by done. access.
  eexists. split; [done|]. split; [rewrite !dom_insert_L; set_solver|fields..].
Qed.

(** The same for a heap related to another by [H]. *)
Ltac fields_of H :=
  intros; destruct H as [Udom Ul Ur Uu Ud Uc Un Us];
  unfold leftOf, rightOf, upOf, downOf, colOf, nameOf, sizeOf in *;
  rewrite ?at_insert, ?Ul, ?Ur, ?Uu, ?Ud, ?Uc, ?Un, ?Us;
  repeat (case_decide; simplify_eq);
  cbn; rewrite ?at_insert, ?Ul, ?Ur, ?Uu, ?Ud, ?Uc, ?Un, ?Us;
  repeat (case_decide; simplify_eq); cbn; rewrite ?Ul, ?Ur, ?Uu, ?Ud, ?Uc, ?Un, ?Us;
  repeat (case_decide; simplify_eq); rewrite ?Z.sub_add; congruence.

(** Relinking undoes unlinking, link by link. *)
Lemma relink_unlink j (h h' : heap) :
  j ∈ dom h → upOf h j ∈ dom h → downOf h j ∈ dom h → colOf h j ∈ dom h →
  upOf h j ≠ j → downOf h j ≠ j → upOf h (downOf h j) = j → downOf h (upOf h j) = j →
  unlinked j h h' → relink j h' = Ok h.
Proof.
  intros Hj Hu Hd Hc Hnu Hnd Hud Hdu Hun.
  assert (upOf h' j = upOf h j) as Eu by (by rewrite (un_up _ _ _ Hun), decide_False by done).
  assert (downOf h' j = downOf h j) as Ed by (by rewrite (un_down _ _ _ Hun), decide_False by done).
  assert (colOf h' j = colOf h j) as Ec by apply (un_col _ _ _ Hun).
  pose proof (un_dom _ _ _ Hun) as Edom. unfold relink.
  rewrite get_ok by (by rewrite Edom). cbn [mbind res_bind]. fold (colOf h' j). rewrite Ec.
  rewrite store_ok by (by rewrite Edom). cbn [mbind res_bind].
  set (h1 := <[colOf h j := _]> h').
  assert (dom h1 = dom h) as E1 by (unfold h1; rewrite dom_insert_L; set_solver).
  assert (∀ z, upOf h1 z = upOf h' z) as Hu1 by (unfold h1; fields).
  assert (∀ z, downOf h1 z = downOf h' z) as Hd1 by (unfold h1; fields).
  rewrite get_ok by (by rewrite E1). cbn [mbind res_bind]. fold (downOf h1 j). rewrite Hd1, Ed.
  rewrite store_ok by (by rewrite E1). cbn [mbind res_bind]. set (h2 := <[downOf h j := _]> h1).
  assert (dom h2 = dom h) as E2 by (unfold h2; rewrite dom_insert_L; set_solver).
  rewrite get_ok by (by rewrite E2). cbn [mbind res_bind]. fold (upOf h2 j).
  assert (upOf h2 j = upOf h j) as Eu2 by (rewrite <-Eu, <-Hu1; unfold h2; fields). rewrite Eu2.
  rewrite store_ok by (by rewrite E2). f_equal. subst h2 h1. clear E1 E2 Eu2 Hu1 Hd1.
  apply heap_ext; [rewrite !dom_insert_L; set_solver|fields_of Hun..].
Qed.

(** The first two assignments of cover and the last two of uncover. *)
Definition unhead (c : ptr) (h : heap) : res heap :=
  n ← get c h; h ← store (right n) (set_left (left n)) h;
  n ← get c h; store (left n) (set_right (right n)) h.
Definition rehead (c : ptr) (h : heap) : res heap :=
  n ← get c h; h ← store (right n) (set_left c) h;
  n ← get c h; store (left n) (set_right c) h.

Record unheaded (c : ptr) (h h' : heap) : Prop := {
  uh_dom : dom h' = dom h;
  uh_left z : leftOf h' z = if decide (z = rightOf h c) then leftOf h c else leftOf h z;
  uh_right z : rightOf h' z = if decide (z = leftOf h c) then rightOf h c else rightOf h z;
  uh_up z : upOf h' z = upOf h z;
  uh_down z : downOf h' z = downOf h z;
  uh_col z : colOf h' z = colOf h z;
  uh_name z : nameOf h' z = nameOf h z;
  uh_size z : sizeOf h' z = sizeOf h z
}.

Lemma unhead_run c (h : heap) :
  c ∈ dom h → leftOf h c ∈ dom h → rightOf h c ∈ dom h → leftOf h c ≠ c → rightOf h c ≠ c →
  ∃ h', unhead c h = Ok h' ∧ unheaded c h h'.
Proof.
  intros Hc Hl Hr Hnl Hnr. unfold unhead, leftOf, rightOf in *. access. access. access.
  rewrite at_insert, decide_False by done. access.
  eexists. split; [done|]. split; [rewrite !dom_insert_L; set_solver|fields..].
Qed.

Lemma rehead_unhead c (h h' : heap) :
  c ∈ dom h → leftOf h c ∈ dom h → rightOf h c ∈ dom h → leftOf h c ≠ c → rightOf h c ≠ c →
  leftOf h (rightOf h c) = c → rightOf h (leftOf h c) = c → unheaded c h h' → rehead c h' = Ok h.
Proof.
  intros Hc Hl Hr Hnl Hnr Hlr Hrl Hun. pose proof (uh_dom _ _ _ Hun) as Edom.
  assert (leftOf h' c = leftOf h c) as El by (by rewrite (uh_left _ _ _ Hun), decide_False by done).
  assert (rightOf h' c = rightOf h c) as Er by (by rewrite (uh_right _ _ _ Hun), decide_False by done).
  unfold rehead. rewrite get_ok by (by rewrite Edom). cbn [mbind res_bind]. fold (rightOf h' c). rewrite Er.
  rewrite store_ok by (by rewrite Edom). cbn [mbind res_bind]. set (h1 := <[rightOf h c := _]> h').
  assert (dom h1 = dom h) as E1 by (unfold h1; rewrite dom_insert_L; set_solver).
  rewrite get_ok by (by rewrite E1). cbn [mbind res_bind]. fold (leftOf h1 c).
  assert (leftOf h1 c = leftOf h c) as El1 by (rewrite <-El; unfold h1; fields). rewrite El1.
  rewrite store_ok by (by rewrite E1). f_equal. subst h1. clear E1 El1.
  apply heap_ext; [rewrite !dom_insert_L; set_solver|fields_of Hun..].
Qed.

(** ** Loops that can be run backwards

    [rrun f g P l h h']: running [f] over [l] leads from [h] to [h'], running [g] undoes each
    step, and [P] holds of every heap on the way. *)

Inductive rrun (f g : ptr → heap → res heap) (P : heap → Prop) : list ptr → heap → heap → Prop :=
  | rrun_nil h : P h → rrun f g P [] h h
  | rrun_cons x l h h1 h' :
      P h → f x h = Ok h1 → g x h1 = Ok h → rrun f g P l h1 h' → rrun f g P (x :: l) h h'.

Lemma rrun_first f g P l h h' : rrun f g P l h h' → P h.
Proof. by destruct 1. Qed.

Lemma rrun_snoc f g P l x h h1 h' :
  rrun f g P l h h1 → f x h1 = Ok h' → g x h' = Ok h1 → P h' → rrun f g P (l ++ [x]) h h'.
Proof.
  intros Hr Hf Hg HP. induction Hr as [h HP1|y l h h1 h2 ? ? ? Hr IH]; cbn.
  - by eapply rrun_cons; [..|by apply rrun_nil].
  - eapply rrun_cons; eauto.
Qed.

Lemma rrun_rev f g P l h h' : rrun f g P l h h' → rrun g f P (reverse l) h' h.
Proof.
  induction 1 as [h HP|x l h h1 h' HP Hf Hg Hr IH]; [by apply rrun_nil|].
  rewrite reverse_cons. by eapply rrun_snoc.
Qed.

Lemma rrun_weaken f g (P Q : heap → Prop) l h h' :
  (∀ h, P h → Q h) → rrun f g P l h h' → rrun f g Q l h h'.
Proof. intros HPQ. induction 1; econstructor; eauto. Qed.

(** A for loop over a ring visits its nodes. *)
Lemma for_each_run next stop f g P l fuel x h h' :
  rrun f g P l h h' → (∀ h, P h → path (λ z, next (h !!! z)) x l stop ∧ ∀ z, z ∈ l → z ∈ dom h) →
  stop ∉ l → (length l < fuel)%nat → (∀ n, P h → next (h !!! x) = n → for_each fuel next stop n f h = Ok h').
Proof.
  intros Hr. revert fuel x. induction Hr as [h HP|y l h h1 h' HP Hf Hg Hr IH]; intros fuel x HQ Hs Hl n _ <-;
    (destruct fuel as [|fuel]; [cbn in Hl; lia|]); cbn [for_each].
  - destruct (HQ h HP) as [E _]. cbn in E. by rewrite E, Z.eqb_refl.
  - destruct (HQ h HP) as [[-> _] _].
    destruct (Z.eqb_spec y stop) as [->|_]; [by destruct Hs; left|].
    pose proof (rrun_first _ _ _ _ _ _ Hr) as HP1. destruct (HQ h1 HP1) as [[_ Hp1] Hd1].
    rewrite Hf. cbn [mbind res_bind]. rewrite get_ok by (apply Hd1; left). cbn [mbind res_bind].
    apply (IH fuel y); [|set_solver|cbn in Hl; lia|done|done].
    intros h2 HP2. destruct (HQ h2 HP2) as [[_ ?] Hd2]. split; [done|]. intros z Hz. apply Hd2. by right.
Qed.

Lemma loop_run next stop f g P l h h' :
  rrun f g P l h h' → (∀ h, P h → path (λ z, next (h !!! z)) stop l stop ∧ ∀ z, z ∈ stop :: l → z ∈ dom h) →
  stop ∉ l → (length l < bound)%nat → loop next stop f h = Ok h'.
Proof.
  intros Hr HQ Hs Hl. pose proof (rrun_first _ _ _ _ _ _ Hr) as HP. unfold loop.
  rewrite get_ok by (apply (proj2 (HQ h HP)); left). cbn [mbind res_bind].
  eapply for_each_run; [done| |done..].
  intros h1 HP1. destruct (HQ h1 HP1) as [? Hd]. split; [done|]. intros z Hz. apply Hd. by right.
Qed.

(** ** Adding to rings *)

Record put_left_of (old nnew : ptr) (h h' : heap) : Prop := {
  pl_dom : dom h' = dom h;
  pl_left z : leftOf h' z = if decide (z = old) then nnew else if decide (z = nnew) then leftOf h old else leftOf h z;
  pl_right z : rightOf h' z = if decide (z = nnew) then old else if decide (z = leftOf h old) then nnew else rightOf h z;
  pl_up z : upOf h' z = upOf h z;
  pl_down z : downOf h' z = downOf h z;
  pl_col z : colOf h' z = colOf h z;
  pl_name z : nameOf h' z = nameOf h z;
  pl_size z : sizeOf h' z = sizeOf h z
}.

Lemma put_left_run old nnew (h : heap) :
  old ∈ dom h → nnew ∈ dom h → leftOf h old ∈ dom h → nnew ≠ old → leftOf h old ≠ nnew →
  ∃ h', put_left old nnew h = Ok h' ∧ put_left_of old nnew h h'.
Proof.
  intros Ho Hn Hl Hne Hln. unfold put_left, leftOf in *. access. access. access. access.
  rewrite !at_insert, !(decide_False (P := old = nnew)) by done. access. access.
  eexists. split; [done|]. split; [rewrite !dom_insert_L; set_solver|fields..].
Qed.

Record put_up_of (old nnew : ptr) (h h' : heap) : Prop := {
  pu_dom : dom h' = dom h;
  pu_left z : leftOf h' z = leftOf h z;
  pu_right z : rightOf h' z = rightOf h z;
  pu_up z : upOf h' z = if decide (z = old) then nnew else if decide (z = nnew) then upOf h old else upOf h z;
  pu_down z : downOf h' z = if decide (z = nnew) then old else if decide (z = upOf h old) then nnew else downOf h z;
  pu_col z : colOf h' z = if decide (z = nnew) then old else colOf h z;
  pu_name z : nameOf h' z = nameOf h z;
  pu_size z : sizeOf h' z = if decide (z = old) then sizeOf h z + 1 else sizeOf h z
}.

Lemma put_up_run old nnew (h : heap) :
  old ∈ dom h → nnew ∈ dom h → upOf h old ∈ dom h → nnew ≠ old → upOf h old ≠ nnew →
  ∃ h', put_up old nnew h = Ok h' ∧ put_up_of old nnew h h'.
Proof.
  intros Ho Hn Hl Hne Hln. unfold put_up, upOf in *. access. access. access. access.
  rewrite !at_insert, !(decide_False (P := old = nnew)) by done. access. access. access. access.
  eexists. split; [done|]. split; [rewrite !dom_insert_L; set_solver|fields..].
Qed.

End DLX.
