(* ===== verification/ExactCover.v ===== *)
(** * Exact covers by dancing links: SudokuSolver::cover, uncover and solve

    The matrix is fixed: its [rows], the column [colf] and the name [namef] of every node.
    What changes while [solve] searches is which columns are still to be covered; [Inv] says
    how the links of the heap represent them. *)

From S2P Require Import Prelude DancingLinks.
Import DLX.

Module XC.

(** ** Lists *)

Lemma filter_all {A} (P : A → Prop) `{∀ x, Decision (P x)} (l : list A) : (∀ x, x ∈ l → P x) → filter P l = l.
Proof.
  induction l as [|x l IH]; intros Hl; [done|]. rewrite filter_cons_True by (apply Hl; left).
  f_equal. apply IH. intros y Hy. apply Hl. by right.
Qed.

Lemma filter_none {A} (P : A → Prop) `{∀ x, Decision (P x)} (l : list A) : (∀ x, x ∈ l → ¬ P x) → filter P l = [].
Proof.
  induction l as [|x l IH]; intros Hl; [done|]. rewrite filter_cons_False by (apply Hl; left).
  apply IH. intros y Hy. apply Hl. by right.
Qed.

Lemma filter_remove {A} `{EqDecision A} (a b : list A) j :
  NoDup (a ++ j :: b) → filter (.≠ j) (a ++ j :: b) = a ++ b.
Proof.
  intros (_ & Ha & [Hb _]%NoDup_cons)%NoDup_app.
  rewrite filter_app, filter_cons_False by naive_solver.
  rewrite !filter_all; [done|intros x Hx ->; done|intros x Hx ->; apply (Ha j Hx); by left].
Qed.

Lemma in_concat {A} (ll : list (list A)) x : x ∈ concat ll ↔ ∃ l, l ∈ ll ∧ x ∈ l.
Proof.
  induction ll as [|l ll IH]; cbn; [set_solver|]. rewrite elem_of_app, IH. set_solver.
Qed.

Lemma concat_nodup_in {A} (ll : list (list A)) l : NoDup (concat ll) → l ∈ ll → NoDup l.
Proof.
  induction ll as [|l' ll IH]; cbn; [set_solver|]. intros (? & _ & ?)%NoDup_app [->|?]%elem_of_cons; auto.
Qed.

Lemma concat_nodup_inj {A} (ll : list (list A)) l1 l2 x :
  NoDup (concat ll) → l1 ∈ ll → l2 ∈ ll → x ∈ l1 → x ∈ l2 → l1 = l2.
Proof.
  induction ll as [|l' ll IH]; cbn; [set_solver|]. intros (? & Hd & ?)%NoDup_app.
  intros [->|H1]%elem_of_cons [->|H2]%elem_of_cons Hx1 Hx2; [done|..|by apply IH];
    exfalso; (apply (Hd x); [done|]); apply in_concat; eauto.
Qed.

(** ** The matrix *)

Section Matrix.
Context (root : ptr) (rows : list (list ptr)) (colf : ptr → ptr) (namef : ptr → Z) (dm : gset ptr).

Record matrix_ok : Prop := {
  m_nodup : NoDup (concat rows);
  m_row row : row ∈ rows → NoDup (colf <$> row);
  m_node j : j ∈ concat rows → j ∈ dm ∧ colf j ≠ j ∧ colf (colf j) = colf j;
  m_root : root ∈ dm ∧ colf root = root;
  m_size : Z.of_nat (base.size dm) ≤ kMaxNodes
}.

(** The other nodes of the row of [r], from its right on. *)
Definition peers_in (row : list ptr) (r : ptr) : list ptr :=
  match list_find (r =.) row with Some (i, _) => drop (S i) row ++ take i row | None => [] end.
Definition peers (r : ptr) : list ptr :=
  match list_find (λ row, r ∈ row) rows with Some (_, row) => peers_in row r | None => [] end.

Context (Hm : matrix_ok).

Lemma peers_split row l1 r l2 : row ∈ rows → row = l1 ++ r :: l2 → peers r = l2 ++ l1.
Proof.
  intros Hrow E. assert (r ∈ row) as Hr by (rewrite E; set_solver). unfold peers.
  destruct (list_find_elem_of (λ row, r ∈ row) rows row Hrow Hr) as [[i row'] Hf]. rewrite Hf.
  apply list_find_Some in Hf as (Hi & Hr' & _).
  assert (row' = row) as -> by (eapply concat_nodup_inj; eauto using m_nodup, list_elem_of_lookup_2).
  pose proof (concat_nodup_in _ _ (m_nodup Hm) Hrow) as Hnd. unfold peers_in. rewrite E in *.
  assert (list_find (r =.) (l1 ++ r :: l2) = Some (length l1, r)) as ->.
  { apply list_find_Some. split_and!; [by apply list_lookup_middle|done|].
    intros j y Hj Hlt <-. rewrite lookup_app_l in Hj by done. apply NoDup_app in Hnd as (_ & Hd & _).
    apply (Hd r); [by eapply list_elem_of_lookup_2|by left]. }
  rewrite <-Nat.add_1_r, drop_app_add', take_app_length by lia. done.
Qed.

Lemma in_row r : r ∈ concat rows → ∃ l1 l2, (l1 ++ r :: l2) ∈ rows ∧ peers r = l2 ++ l1.
Proof.
  intros (row & Hrow & (l1 & l2 & ->)%list_elem_of_split)%in_concat. exists l1, l2. eauto using peers_split.
Qed.

(** The peers of a node are in the other columns of its row. *)
Lemma peers_spec r row : row ∈ rows → r ∈ row →
  NoDup (r :: peers r) ∧ NoDup (colf <$> r :: peers r) ∧ ∀ j, j ∈ row ↔ j ∈ r :: peers r.
Proof.
  intros Hrow (l1 & l2 & E)%list_elem_of_split. rewrite (peers_split _ _ _ _ Hrow E).
  assert (r :: l2 ++ l1 ≡ₚ row) as Hp by (rewrite E; solve_Permutation).
  split_and!.
  - rewrite Hp. eauto using concat_nodup_in, m_nodup.
  - rewrite Hp. by apply (m_row Hm).
  - intros j. by rewrite Hp.
Qed.

Lemma peers_col r j : r ∈ concat rows → j ∈ peers r → j ∈ concat rows ∧ colf j ≠ colf r.
Proof.
  intros (row & Hrow & Hr)%in_concat Hj. destruct (peers_spec r row Hrow Hr) as (_ & Hc & Hin). split.
  - apply in_concat. exists row. split; [done|]. apply Hin. by right.
  - cbn in Hc. apply NoDup_cons in Hc as [Hc _]. intros E. apply Hc. rewrite <-E. by apply list_elem_of_fmap_2.
Qed.

(** ** The invariant

    [H] are the columns in the ring of headers, [V] the columns whose vertical rings are
    intact and [ns c] the nodes linked in column [c]. *)

Record Inv (h : heap) (H V : list ptr) (ns : ptr → list ptr) : Prop := {
  i_dom : dom h = dm;
  i_col z : colOf h z = colf z;
  i_name z : nameOf h z = namef z;
  i_rows row : row ∈ rows → ring (rightOf h) (leftOf h) row;
  i_head : seg (rightOf h) (leftOf h) root H root;
  i_heads : NoDup (root :: H) ∧ ∀ c, c ∈ H → c ∈ dm ∧ colf c = c;
  i_cols c : c ∈ V → c ∈ dm ∧ colf c = c;
  i_vert c : c ∈ V → seg (downOf h) (upOf h) c (ns c) c;
  i_nodes c : c ∈ V → NoDup (ns c) ∧ ∀ j, j ∈ ns c → j ∈ concat rows ∧ colf j = c;
  i_size c : c ∈ V → sizeOf h c = zlen (ns c)
}.

Lemma Inv_ext h H V V' ns ns' :
  (∀ c, c ∈ V' → c ∈ V ∧ ns' c = ns c) → Inv h H V ns → Inv h H V' ns'.
Proof.
  intros Hext []. split; try done; intros c Hc; destruct (Hext c Hc) as [? E]; rewrite ?E; auto.
Qed.

Lemma node_in h H V ns c j : Inv h H V ns → c ∈ V → j ∈ c :: ns c → j ∈ dm ∧ colf j = c.
Proof.
  intros Hi Hc [->|Hj]%elem_of_cons; [by apply (i_cols _ _ _ _ Hi)|].
  destruct (i_nodes _ _ _ _ Hi c Hc) as [_ Hn]. destruct (Hn j Hj) as [Hr ?]. split; [|done].
  by apply (m_node Hm).
Qed.

(** The links of a node that is in its column. *)
Lemma node_links h H V ns c a j b :
  Inv h H V ns → c ∈ V → ns c = a ++ j :: b →
  NoDup (c :: a ++ j :: b) ∧ j ∈ dm ∧ colf j = c ∧ upOf h j ≠ j ∧ downOf h j ≠ j ∧
  upOf h j ∈ c :: ns c ∧ downOf h j ∈ c :: ns c ∧ upOf h (downOf h j) = j ∧ downOf h (upOf h j) = j.
Proof.
  intros Hi Hc E. pose proof (i_vert _ _ _ _ Hi c Hc) as Hsg. destruct (i_nodes _ _ _ _ Hi c Hc) as [Hnd Hns].
  destruct (Hns j) as [Hjr Hjc]; [rewrite E; set_solver|]. destruct (m_node Hm j Hjr) as (Hjd & Hjj & _).
  rewrite E in *. apply seg_app in Hsg as [Ha Hb].
  assert (NoDup (c :: a ++ j :: b)) as Hndc.
  { apply NoDup_cons. split; [|done]. intros (Hcr & _)%Hns. destruct (m_node Hm c Hcr) as (_ & E1 & _).
    by destruct E1; apply (i_cols _ _ _ _ Hi). }
  pose proof (seg_last _ _ _ _ _ Ha) as Hu. pose proof (seg_first _ _ _ _ _ Hb) as Hdn.
  assert (upOf h j ≠ j ∧ downOf h j ≠ j) as [Hnu Hnd'].
  { apply NoDup_cons in Hndc as [? (_ & Hab & [Hjb _]%NoDup_cons)%NoDup_app]. split; intros E1; rewrite E1 in *.
    - apply elem_of_cons in Hu as [?|Hu]; [set_solver|]. apply (Hab j Hu). by left.
    - apply elem_of_app in Hdn as [?|?%list_elem_of_singleton]; [done|set_solver]. }
  split_and!; try done; [set_solver|set_solver|..].
  - destruct b; cbn in Hb; destruct Hb; naive_solver congruence.
  - destruct a as [|x a'] using rev_ind; cbn in Ha; [destruct Ha; congruence|].
    apply seg_app in Ha as [_ [? ?]]. congruence.
Qed.

Lemma unlink_inv h H V ns c j :
  Inv h H V ns → c ∈ V → j ∈ ns c →
  ∃ h', unlink j h = Ok h' ∧ relink j h' = Ok h ∧ Inv h' H V (λ d, filter (.≠ j) (ns d)).
Proof.
  intros Hi Hc Hj. pose proof (λ j, node_in h H V ns c j Hi Hc) as Hin.
  pose proof Hi as [Hd Hcol Hnm Hrw Hhd Hhs Hcs Hv Hn Hs]. pose proof (Hv c Hc) as Hsg.
  apply list_elem_of_split in Hj as (a & b & E).
  destruct (node_links _ _ _ _ _ _ _ _ Hi Hc E) as (Hndc & Hjd & Hjc & Hnu & Hnd' & Hu & Hdn & Hud' & Hdu').
  destruct (Hin _ Hu) as [Hud Huc]. destruct (Hin _ Hdn) as [Hdd Hdc]. rewrite E in Hsg.
  pose proof (proj2 (proj1 (NoDup_cons _ _) Hndc)) as Hnd.
  assert (colOf h j ∈ dom h) as Hcd by (rewrite Hcol, Hjc, Hd; by apply Hcs).
  assert (j ∈ dom h ∧ upOf h j ∈ dom h ∧ downOf h j ∈ dom h) as (? & ? & ?) by (by rewrite Hd).
  destruct (unlink_run j h) as (h' & Hrun & Hun); try done.
  exists h'. split; [done|]. split; [by eapply relink_unlink|].
  split.
  - by rewrite (un_dom _ _ _ Hun).
  - intros z. by rewrite (un_col _ _ _ Hun).
  - intros z. by rewrite (un_name _ _ _ Hun).
  - intros row Hrow. specialize (Hrw row Hrow). destruct row as [|x row]; [done|]. cbn in *.
    eapply seg_frame; [..|exact Hrw]; intros z _; [apply (un_right _ _ _ Hun)|apply (un_left _ _ _ Hun)].
  - eapply seg_frame; [..|exact Hhd]; intros z _; [apply (un_right _ _ _ Hun)|apply (un_left _ _ _ Hun)].
  - done.
  - done.
  - intros d HdV. destruct (decide (d = c)) as [->|Hdc'].
    + rewrite E, filter_remove by done.
      eapply ring_remove; [done|apply (un_down _ _ _ Hun)|apply (un_up _ _ _ Hun)|done].
    + rewrite filter_all by (intros x Hx ->; destruct (Hn d HdV) as [_ Hnd2]; destruct (Hnd2 j Hx); congruence).
      pose proof (λ z, node_in h H V ns d z Hi HdV) as Hz.
      eapply seg_frame; [..|by apply Hv]; intros z Hzl.
      * rewrite (un_down _ _ _ Hun), decide_False; [done|]. intros ->. destruct (Hz _ Hzl). congruence.
      * rewrite (un_up _ _ _ Hun), decide_False; [done|]. intros ->.
        destruct (Hz (downOf h j)) as [_ ?]; [set_solver|congruence].
  - intros d HdV. destruct (Hn d HdV) as [Hnd2 Hns2]. split; [by apply NoDup_filter|].
    intros k [_ Hk]%list_elem_of_filter. by apply Hns2.
  - intros d HdV. rewrite (un_size _ _ _ Hun), Hcol, Hjc, Hs by done. destruct (decide (d = c)) as [->|Hdc'].
    + rewrite E, filter_remove, !length_app by done. cbn. lia.
    + rewrite filter_all; [done|]. intros x Hx ->. destruct (Hn d HdV) as [_ Hnd2]. destruct (Hnd2 j Hx); congruence.
Qed.
(** [P]: the column [c0] is as it was. *)
Definition keeps (H V : list ptr) (c0 : ptr) (ns0 : list ptr) (h : heap) : Prop :=
  ∃ ns, Inv h H V ns ∧ ns c0 = ns0.

Lemma unlinks_run H V c0 ns0 L h ns :
  Inv h H V ns → ns c0 = ns0 → NoDup L →
  (∀ j, j ∈ L → colf j ∈ V ∧ j ∈ ns (colf j) ∧ colf j ≠ c0) → c0 ∈ V →
  ∃ h', rrun unlink relink (keeps H V c0 ns0) L h h' ∧ Inv h' H V (λ d, filter (.∉ L) (ns d)).
Proof.
  revert h ns. induction L as [|j L IH]; intros h ns Hi H0 Hnd HL Hc0.
  - exists h. split; [apply rrun_nil; by exists ns|]. eapply Inv_ext; [|done]. intros c Hc. split; [done|].
    apply filter_all. intros x _. apply not_elem_of_nil.
  - apply NoDup_cons in Hnd as [Hj Hnd]. destruct (HL j) as (HjV & Hjn & Hjc); [by left|].
    destruct (unlink_inv h H V ns (colf j) j) as (h1 & Hu & Hr & Hi1); try done.
    destruct (IH h1 (λ d, filter (.≠ j) (ns d))) as (h' & Hrun & Hi'); try done.
    + rewrite filter_all; [done|]. intros x Hx ->. destruct (i_nodes _ _ _ _ Hi c0 Hc0) as [_ Hn].
      by destruct (Hn j Hx).
    + intros k Hk. destruct (HL k) as (? & ? & ?); [by right|]. split_and!; try done.
      apply list_elem_of_filter. split; [|done]. by intros ->.
    + exists h'. split; [eapply rrun_cons; try done; by exists ns|]. eapply Inv_ext; [|done]. intros c Hc.
      split; [done|]. rewrite list_filter_filter. apply list_filter_iff. intros x. rewrite not_elem_of_cons. tauto.
Qed.

Lemma short l : NoDup l → (∀ z, z ∈ l → z ∈ dm) → (length l < bound)%nat.
Proof.
  intros Hnd Hin. pose proof (m_size Hm) as Hs. unfold bound.
  assert (base.size (list_to_set l : gset ptr) ≤ base.size dm)%nat as Hle.
  { apply subseteq_size. intros z. rewrite elem_of_list_to_set. apply Hin. }
  rewrite size_list_to_set in Hle by done. lia.
Qed.

(** The nodes of a row, from [r] rightwards and leftwards. *)
Lemma row_paths h H V ns r :
  Inv h H V ns → r ∈ concat rows →
  path (rightOf h) r (peers r) r ∧ path (leftOf h) r (reverse (peers r)) r ∧
  (∀ z, z ∈ r :: peers r → z ∈ dom h) ∧ (r ∉ peers r) ∧ (length (peers r) < bound)%nat.
Proof.
  intros Hi Hr. destruct (in_row r Hr) as (l1 & l2 & Hrow & E). pose proof (i_rows _ _ _ _ Hi _ Hrow) as Hring.
  apply ring_rotate in Hring. rewrite <-E in Hring.
  destruct (peers_spec r _ Hrow) as (Hnd & _ & Hin); [set_solver|].
  assert (∀ z, z ∈ r :: peers r → z ∈ dm) as Hdm.
  { intros z Hz%Hin. apply (m_node Hm), in_concat. eauto. }
  split_and!; [by eapply seg_path|by eapply seg_path_back|by rewrite (i_dom _ _ _ _ Hi)|by apply NoDup_cons in Hnd as []|].
  apply NoDup_cons in Hnd as [_ ?]. apply short; set_solver.
Qed.

Lemma row_run H V c0 ns0 h ns r :
  Inv h H V ns → ns c0 = ns0 → c0 ∈ V → r ∈ concat rows → colf r = c0 →
  (∀ j, j ∈ peers r → colf j ∈ V ∧ j ∈ ns (colf j)) →
  ∃ h', loop right r unlink h = Ok h' ∧ loop left r relink h' = Ok h ∧
        Inv h' H V (λ d, filter (.∉ peers r) (ns d)).
Proof.
  intros Hi H0 Hc0 Hr Hrc Hp. pose proof Hr as (row & Hrow & Hrr)%in_concat.
  destruct (peers_spec r row Hrow Hrr) as (Hnd & _ & _). apply NoDup_cons in Hnd as [Hni Hnd].
  destruct (unlinks_run H V c0 ns0 (peers r) h ns) as (h' & Hrun & Hi'); try done.
  { intros j Hj. destruct (Hp j Hj). destruct (peers_col r j Hr Hj). split_and!; congruence. }
  exists h'. split_and!; [..|done].
  - eapply loop_run; [exact Hrun|..]; [|done|by eapply row_paths].
    intros h1 (ns1 & Hi1 & _). by destruct (row_paths _ _ _ _ _ Hi1 Hr) as (? & _ & ? & _).
  - eapply loop_run; [apply rrun_rev; exact Hrun|..].
    + intros h1 (ns1 & Hi1 & _). destruct (row_paths _ _ _ _ _ Hi1 Hr) as (_ & ? & Hd & _). split; [done|].
      intros z. rewrite elem_of_cons, elem_of_reverse, <-elem_of_cons. apply Hd.
    + by rewrite elem_of_reverse.
    + rewrite length_reverse. by eapply row_paths.
Qed.

Lemma rows_run H V c0 ns0 rs h ns :
  Inv h H V ns → ns c0 = ns0 → c0 ∈ V → NoDup (rs ≫= peers) →
  (∀ r, r ∈ rs → r ∈ concat rows ∧ colf r = c0 ∧ ∀ j, j ∈ peers r → colf j ∈ V ∧ j ∈ ns (colf j)) →
  ∃ h', rrun (λ r, loop right r unlink) (λ r, loop left r relink) (keeps H V c0 ns0) rs h h' ∧
        Inv h' H V (λ d, filter (.∉ (rs ≫= peers)) (ns d)).
Proof.
  revert h ns. induction rs as [|r rs IH]; intros h ns Hi H0 Hc0 Hnd Hrs.
  - exists h. split; [apply rrun_nil; by exists ns|]. eapply Inv_ext; [|done]. intros c Hc. split; [done|].
    apply filter_all. intros x _. apply not_elem_of_nil.
  - cbn in Hnd. apply NoDup_app in Hnd as (_ & Hdis & Hnd). destruct (Hrs r) as (Hr & Hrc & Hp); [by left|].
    destruct (row_run H V c0 ns0 h ns r) as (h1 & Hf & Hg & Hi1); try done.
    destruct (IH h1 (λ d, filter (.∉ peers r) (ns d))) as (h' & Hrun & Hi'); try done.
    + rewrite filter_all; [done|]. intros x Hx Hxp. destruct (i_nodes _ _ _ _ Hi c0 Hc0) as [_ Hn].
      destruct (Hn x); [congruence|]. destruct (peers_col r x Hr Hxp). congruence.
    + intros r' Hr'. destruct (Hrs r') as (? & ? & Hp'); [by right|]. split_and!; try done.
      intros j Hj. destruct (Hp' j Hj). split; [done|]. apply list_elem_of_filter. split; [|done].
      intros Hjr. apply (Hdis j Hjr). apply list_elem_of_bind. eauto.
    + exists h'. split; [eapply rrun_cons; try done; by exists ns|]. eapply Inv_ext; [|done]. intros c Hc.
      split; [done|]. rewrite list_filter_filter. apply list_filter_iff. intros x. cbn. rewrite not_elem_of_app. tauto.
Qed.

(** ** Cover and uncover *)

Lemma head_links h H V ns a c b :
  Inv h H V ns → H = a ++ c :: b →
  c ∈ dm ∧ leftOf h c ∈ root :: H ∧ rightOf h c ∈ root :: H ∧ leftOf h c ≠ c ∧ rightOf h c ≠ c ∧
  leftOf h (rightOf h c) = c ∧ rightOf h (leftOf h c) = c.
Proof.
  intros Hi E. pose proof (i_head _ _ _ _ Hi) as Hsg. destruct (i_heads _ _ _ _ Hi) as [Hnd Hcs]. rewrite E in *.
  apply seg_app in Hsg as [Ha Hb].
  pose proof (seg_last _ _ _ _ _ Ha) as Hl. pose proof (seg_first _ _ _ _ _ Hb) as Hr.
  apply NoDup_cons in Hnd as [Hrt (_ & Hab & [Hcb _]%NoDup_cons)%NoDup_app].
  assert (c ≠ root) by (intros ->; set_solver).
  split_and!; [apply Hcs; set_solver|set_solver|set_solver|..].
  - intros E1. rewrite E1 in Hl. apply elem_of_cons in Hl as [?|Hl]; [done|]. apply (Hab c Hl). by left.
  - intros E1. rewrite E1 in Hr. apply elem_of_app in Hr as [?|?%list_elem_of_singleton]; done.
  - destruct b; cbn in Hb; destruct Hb; naive_solver congruence.
  - destruct a as [|x a'] using rev_ind; cbn in Ha; [destruct Ha; congruence|].
    apply seg_app in Ha as [_ [? ?]]. congruence.
Qed.

Lemma header_in h H V ns z : Inv h H V ns → z ∈ root :: H → z ∈ dm ∧ colf z = z.
Proof.
  intros Hi [->|Hz]%elem_of_cons; [apply (m_root Hm)|by apply (i_heads _ _ _ _ Hi)].
Qed.

Lemma head_inv h H V ns a c b :
  Inv h H V ns → H = a ++ c :: b →
  ∃ h', unhead c h = Ok h' ∧ rehead c h' = Ok h ∧ Inv h' (a ++ b) V ns.
Proof.
  intros Hi E. destruct (head_links _ _ _ _ _ _ _ Hi E) as (Hc & Hl & Hr & Hlc & Hrc & Hlr & Hrl).
  destruct (header_in _ _ _ _ _ Hi Hl) as [Hld Hlh]. destruct (header_in _ _ _ _ _ Hi Hr) as [Hrd Hrh].
  pose proof Hi as [Hd Hcol Hnm Hrw Hhd [Hhn Hhc] Hcs Hv Hn Hs].
  assert (c ∈ dom h ∧ leftOf h c ∈ dom h ∧ rightOf h c ∈ dom h) as (? & ? & ?) by (by rewrite Hd).
  destruct (unhead_run c h) as (h' & Hrun & Hun); try done.
  exists h'. split; [done|]. split; [by eapply rehead_unhead|]. split.
  - by rewrite (uh_dom _ _ _ Hun).
  - intros z. by rewrite (uh_col _ _ _ Hun).
  - intros z. by rewrite (uh_name _ _ _ Hun).
  - intros row Hrow. assert (∀ z, z ∈ row → colf z ≠ z) as Hnh by (intros z Hz; apply (m_node Hm), in_concat; eauto).
    specialize (Hrw row Hrow). destruct row as [|x row]; [done|]. cbn in *.
    eapply seg_frame; [..|exact Hrw]; intros z Hz.
    + rewrite (uh_right _ _ _ Hun), decide_False; [done|]. intros ->. by apply (Hnh (leftOf h c)).
    + rewrite (uh_left _ _ _ Hun), decide_False; [done|]. intros ->. apply (Hnh (rightOf h c)); [set_solver|done].
  - rewrite E in Hhd. eapply ring_remove; [by rewrite <-E|apply (uh_right _ _ _ Hun)|apply (uh_left _ _ _ Hun)|done].
  - rewrite E in *. split; [|set_solver]. apply NoDup_cons in Hhn as [Hnr Hnd]. apply NoDup_cons. split; [set_solver|].
    apply NoDup_app in Hnd as (? & ? & [??]%NoDup_cons). apply NoDup_app. set_solver.
  - done.
  - intros d Hdv. eapply seg_frame; [..|by apply Hv]; intros z _; [apply (uh_down _ _ _ Hun)|apply (uh_up _ _ _ Hun)].
  - done.
  - intros d Hdv. rewrite (uh_size _ _ _ Hun). by apply Hs.
Qed.

Lemma cover_unhead c h : cover c h = unhead c h ≫= loop down c (λ row, loop right row unlink).
Proof.
  unfold cover, unhead. destruct (get c h) as [n|]; cbn; [|done]. destruct (store _ _ h) as [h1|]; cbn; [|done].
  by destruct (get c h1).
Qed.

Lemma uncover_rehead c h : uncover c h = loop up c (λ row, loop left row relink) h ≫= rehead c.
Proof. done. Qed.

(** Two nodes of one column have no peers in common. *)
Lemma column_peers l c :
  NoDup l → (∀ r, r ∈ l → r ∈ concat rows ∧ colf r = c) → NoDup (l ≫= peers).
Proof.
  intros Hnd Hns. apply NoDup_bind; [|intros r Hrc|done].
  - intros r1 r2 y Hr1 Hr2 Hy1 Hy2. destruct (Hns r1 Hr1) as [Hc1 E1]. destruct (Hns r2 Hr2) as [Hc2 E2].
    destruct (decide (r1 = r2)) as [|Hne]; [done|]. exfalso.
    apply in_concat in Hc1 as (row1 & Hrow1 & Hin1). apply in_concat in Hc2 as (row2 & Hrow2 & Hin2).
    destruct (peers_spec r1 row1 Hrow1 Hin1) as (_ & Hcn & Hi1r). destruct (peers_spec r2 row2 Hrow2 Hin2) as (_ & _ & Hi2r).
    assert (row1 = row2) as <-.
    { apply (concat_nodup_inj rows _ _ y (m_nodup Hm)); try done; [apply Hi1r; by right|apply Hi2r; by right]. }
    apply Hi1r in Hin2. apply elem_of_cons in Hin2 as [|Hin2]; [done|]. cbn in Hcn.
    apply NoDup_cons in Hcn as [Hcn _]. apply Hcn. rewrite E1, <-E2. by apply list_elem_of_fmap_2.
  - destruct (Hns r Hrc) as [(row & Hrow & Hin)%in_concat _].
    destruct (peers_spec r row Hrow Hin) as ([_ ?]%NoDup_cons & _). done.
Qed.

(** Covering column [c] takes its header out of the ring of headers and its rows out of the
    other columns, and uncovering brings back the very same heap. *)
Lemma cover_run h H V ns a c b :
  Inv h H V ns → H = a ++ c :: b → c ∈ V → (∀ r j, r ∈ ns c → j ∈ peers r → colf j ∈ V ∧ j ∈ ns (colf j)) →
  ∃ h', cover c h = Ok h' ∧ uncover c h' = Ok h ∧ Inv h' (a ++ b) V (λ d, filter (.∉ (ns c ≫= peers)) (ns d)).
Proof.
  intros Hi E HcV Hp. destruct (head_inv _ _ _ _ _ _ _ Hi E) as (h1 & Hu & Hr & Hi1).
  destruct (i_nodes _ _ _ _ Hi c HcV) as [Hnd Hns].
  destruct (rows_run (a ++ b) V c (ns c) (ns c) h1 ns) as (h' & Hrun & Hi'); try done.
  { by eapply column_peers. }
  { intros r Hrc. destruct (Hns r Hrc). split_and!; try done. intros j Hj. by apply (Hp r). }
  assert (∀ h2, keeps (a ++ b) V c (ns c) h2 → path (downOf h2) c (ns c) c ∧ path (upOf h2) c (reverse (ns c)) c ∧
            ∀ z, z ∈ c :: ns c → z ∈ dom h2) as Hpath.
  { intros h2 (ns2 & Hi2 & E2). pose proof (i_vert _ _ _ _ Hi2 c HcV) as Hsg. rewrite E2 in Hsg.
    split_and!; [by eapply seg_path|by eapply seg_path_back|]. intros z Hz. rewrite (i_dom _ _ _ _ Hi2).
    eapply (node_in h2); [done..|by rewrite E2]. }
  assert (c ∉ ns c) as Hcn.
  { intros (Hcr & _)%Hns. destruct (m_node Hm c Hcr) as (_ & E1 & _). by destruct E1; apply (i_cols _ _ _ _ Hi). }
  assert (length (ns c) < bound)%nat as Hlen.
  { apply short; [done|]. intros z (Hz & _)%Hns. by apply (m_node Hm). }
  exists h'. split_and!; [..|done].
  - rewrite cover_unhead, Hu. cbn. eapply loop_run; [exact Hrun|..]; [|done|done].
    intros h2 Hk. by destruct (Hpath h2 Hk) as (? & _ & ?).
  - rewrite uncover_rehead. enough (loop up c (λ row, loop left row relink) h' = Ok h1) as -> by done.
    eapply loop_run; [apply rrun_rev; exact Hrun|..]; [|by rewrite elem_of_reverse|by rewrite length_reverse].
    intros h2 Hk. destruct (Hpath h2 Hk) as (_ & ? & Hd). split; [done|].
    intros z. rewrite elem_of_cons, elem_of_reverse, <-elem_of_cons. apply Hd.
Qed.

(** ** The columns still to be covered *)

(** The rows within the columns [cols], and their nodes in column [c]. *)
Definition active (cols : list ptr) : list (list ptr) := filter (λ row, Forall (.∈ cols) (colf <$> row)) rows.
Definition nodes_of (cols : list ptr) (c : ptr) : list ptr := filter (λ j, colf j = c) (concat (active cols)).
Definition Cols (h : heap) (cols : list ptr) : Prop := Inv h cols cols (nodes_of cols).

Lemma in_active cols row : row ∈ active cols ↔ row ∈ rows ∧ ∀ j, j ∈ row → colf j ∈ cols.
Proof.
  unfold active. rewrite list_elem_of_filter, Forall_fmap, Forall_forall. cbn. naive_solver.
Qed.

Lemma in_nodes_of cols c r :
  r ∈ nodes_of cols c ↔ ∃ row, row ∈ rows ∧ r ∈ row ∧ colf r = c ∧ ∀ j, j ∈ row → colf j ∈ cols.
Proof.
  unfold nodes_of. rewrite list_elem_of_filter, in_concat. setoid_rewrite in_active. naive_solver.
Qed.

Lemma nodes_of_peers cols c r j :
  r ∈ nodes_of cols c → j ∈ peers r → colf j ∈ cols ∧ j ∈ nodes_of cols (colf j).
Proof.
  intros (row & Hrow & Hr & _ & Hc)%in_nodes_of Hj. destruct (peers_spec r row Hrow Hr) as (_ & _ & Hin).
  assert (j ∈ row) by (apply Hin; by right). split; [by apply Hc|]. apply in_nodes_of. eauto 6.
Qed.

(** Removing the rows of [c] from column [d] leaves the rows within the other columns. *)
Lemma nodes_of_cover a c b d :
  NoDup (a ++ c :: b) → d ∈ a ++ b →
  filter (.∉ (nodes_of (a ++ c :: b) c ≫= peers)) (nodes_of (a ++ c :: b) d) = nodes_of (a ++ b) d.
Proof.
  intros Hnd Hd. set (cols := a ++ c :: b). set (X := nodes_of cols c ≫= peers).
  assert (d ≠ c ∧ c ∉ a ++ b) as [Hdc Hcab].
  { apply NoDup_app in Hnd as (_ & Ha & [Hb _]%NoDup_cons). split; set_solver. }
  assert (∀ row j, row ∈ rows → j ∈ row → j ∈ X → c ∈ colf <$> row) as HX.
  { intros row j Hrow Hj (r & Hjr & (row' & Hrow' & Hr & <- & _)%in_nodes_of)%list_elem_of_bind.
    destruct (peers_spec r row' Hrow' Hr) as (_ & _ & Hin).
    rewrite (concat_nodup_inj rows row row' j (m_nodup Hm) Hrow Hrow' Hj) by (apply Hin; by right).
    by apply list_elem_of_fmap_2. }
  unfold nodes_of, active. assert (∀ row, row ∈ rows → row ∈ rows) as Hsub by done. revert Hsub.
  generalize rows at 1 3 4 as R. induction R as [|row R IH]; intros Hsub; [done|].
  specialize (IH (λ row' Hr, Hsub row' (list_elem_of_further _ _ _ Hr))). pose proof (Hsub row (list_elem_of_here _ _)) as Hrow.
  rewrite !filter_cons.
  destruct (decide (Forall (.∈ a ++ b) (colf <$> row))) as [Hab|Hab].
  - rewrite decide_True by (eapply Forall_impl; [exact Hab|]; cbn; intros x; unfold cols; set_solver). cbn.
    rewrite !filter_app, IH. f_equal. apply filter_all. intros j [_ Hj]%list_elem_of_filter Hx.
    apply Hcab. rewrite Forall_forall in Hab. by apply Hab, (HX row j).
  - case_decide as Hcs; [|done]. cbn. rewrite !filter_app, IH.
    rewrite (filter_none (.∉ X)); [done|]. intros j [Hjd Hj]%list_elem_of_filter Hx. apply Hx. clear Hx.
    assert (c ∈ colf <$> row) as (r & Er & Hr)%list_elem_of_fmap.
    { destruct (decide (c ∈ colf <$> row)) as [|Hn]; [done|]. destruct Hab. rewrite Forall_forall in *.
      intros x Hx. specialize (Hcs x Hx). unfold cols in Hcs. set_solver. }
    apply list_elem_of_bind. exists r. destruct (peers_spec r row Hrow Hr) as (_ & _ & Hin). split.
    + assert (j ∈ r :: peers r) as Hj2 by (by apply Hin). apply elem_of_cons in Hj2 as [->|Hj2]; [congruence|done].
    + apply in_nodes_of. exists row. split_and!; try done. intros k Hk. rewrite Forall_forall in Hcs.
      by apply Hcs, list_elem_of_fmap_2.
Qed.

Lemma cover_cols h a c b :
  Cols h (a ++ c :: b) →
  ∃ h', cover c h = Ok h' ∧ uncover c h' = Ok h ∧ Cols h' (a ++ b) ∧
        seg (downOf h') (upOf h') c (nodes_of (a ++ c :: b) c) c.
Proof.
  intros Hi. destruct (i_heads _ _ _ _ Hi) as [[_ Hnd]%NoDup_cons _].
  destruct (cover_run h _ _ _ a c b Hi eq_refl) as (h' & Hc & Hu & Hi'); [set_solver|..].
  { intros r j. apply nodes_of_peers. }
  exists h'. split_and!; try done.
  - eapply Inv_ext; [|done]. intros d Hd. split; [set_solver|]. symmetry. by apply nodes_of_cover.
  - pose proof (i_vert _ _ _ _ Hi' c ltac:(set_solver)) as Hsg. cbn in Hsg. rewrite filter_all in Hsg; [done|].
    intros j Hj (r & Hjr & Hr)%list_elem_of_bind. apply in_nodes_of in Hj as (_ & _ & _ & <- & _).
    apply in_nodes_of in Hr as (row & Hrow & Hr & E & _).
    destruct (peers_col r j) as [_ ?]; [apply in_concat; eauto|done|congruence].
Qed.

Lemma cover_one h cols c :
  Cols h cols → c ∈ cols →
  ∃ h', cover c h = Ok h' ∧ uncover c h' = Ok h ∧ Cols h' (filter (.≠ c) cols) ∧
        seg (downOf h') (upOf h') c (nodes_of cols c) c.
Proof.
  intros Hi Hc. destruct (i_heads _ _ _ _ Hi) as [[_ Hnd]%NoDup_cons _].
  apply list_elem_of_split in Hc as (a & b & ->). rewrite filter_remove by done. by apply cover_cols.
Qed.

(** Covering the columns of the nodes [js], one after the other. *)
Lemma covers_run js h cols :
  Cols h cols → NoDup (colf <$> js) → (∀ j, j ∈ js → j ∈ concat rows ∧ colf j ∈ cols) →
  ∃ h', rrun cover_col uncover_col (λ h, ∃ cols, Cols h cols) js h h' ∧
        Cols h' (filter (.∉ (colf <$> js)) cols).
Proof.
  revert h cols. induction js as [|j js IH]; intros h cols Hi Hnd Hjs.
  - exists h. split; [apply rrun_nil; by exists cols|]. rewrite filter_all; [done|]. intros x _. apply not_elem_of_nil.
  - cbn in Hnd. apply NoDup_cons in Hnd as [Hj Hnd]. destruct (Hjs j) as [Hjr Hjc]; [by left|].
    assert (∀ h2, Cols h2 (filter (.≠ colf j) cols) ∨ h2 = h → get j h2 = Ok (h2 !!! j) ∧ col (h2 !!! j) = colf j) as Hg.
    { intros h2 H2. assert (∃ cs, Cols h2 cs) as [cs Hi2] by (destruct H2 as [?| ->]; eauto).
      split; [|apply (i_col _ _ _ _ Hi2)]. apply get_ok. rewrite (i_dom _ _ _ _ Hi2). by apply (m_node Hm). }
    destruct (cover_one h cols (colf j) Hi Hjc) as (h1 & Hc & Hu & Hi1 & _).
    destruct (IH h1 (filter (.≠ colf j) cols)) as (h' & Hrun & Hi'); try done.
    + intros k Hk. destruct (Hjs k) as [? ?]; [by right|]. split; [done|]. apply list_elem_of_filter. split; [|done].
      intros E. apply Hj. rewrite <-E. by apply list_elem_of_fmap_2.
    + exists h'. split.
      * eapply rrun_cons; [by exists cols| | |done].
        -- unfold cover_col. destruct (Hg h) as [-> E]; [by right|]. cbn. by rewrite E.
        -- unfold uncover_col. destruct (Hg h1) as [-> E]; [by left|]. cbn. by rewrite E.
      * rewrite list_filter_filter in Hi'. cbn. erewrite list_filter_iff; [exact Hi'|].
        intros x. cbn. rewrite not_elem_of_cons. tauto.
Qed.

(** Choosing the row through [r], and taking the choice back. *)
Lemma choose_row r h cols :
  Cols h cols → r ∈ concat rows → (∀ j, j ∈ peers r → colf j ∈ cols) →
  ∃ h', loop right r cover_col h = Ok h' ∧ loop left r uncover_col h' = Ok h ∧
        Cols h' (filter (.∉ (colf <$> peers r)) cols).
Proof.
  intros Hi Hr Hp. pose proof Hr as (row & Hrow & Hrr)%in_concat.
  destruct (peers_spec r row Hrow Hrr) as (_ & Hnd & _). cbn in Hnd. apply NoDup_cons in Hnd as [_ Hnd].
  destruct (covers_run (peers r) h cols) as (h' & Hrun & Hi'); try done.
  { intros j Hj. split; [by eapply peers_col|by apply Hp]. }
  exists h'. split_and!; [..|done].
  - eapply loop_run; [exact Hrun|..]; [|by eapply row_paths..].
    intros h1 (cs & Hi1). by destruct (row_paths _ _ _ _ _ Hi1 Hr) as (? & _ & ? & _).
  - eapply loop_run; [apply rrun_rev; exact Hrun|..].
    + intros h1 (cs & Hi1). destruct (row_paths _ _ _ _ _ Hi1 Hr) as (_ & ? & Hd & _). split; [done|].
      intros z. rewrite elem_of_cons, elem_of_reverse, <-elem_of_cons. apply Hd.
    + rewrite elem_of_reverse. by eapply row_paths.
    + rewrite length_reverse. by eapply row_paths.
Qed.

(** ** get_min_column *)

Lemma min_loop_spec h cols c l1 l2 fuel x :
  Cols h cols → cols = l1 ++ l2 → c ∈ l1 → (∀ d, d ∈ l1 → sizeOf h c ≤ sizeOf h d) → 
  path (rightOf h) x l2 root → (length l2 < fuel)%nat →
  ∃ c', min_loop fuel root (rightOf h x) c (sizeOf h c) h = Ok c' ∧ c' ∈ cols ∧
        (sizeOf h c' ≤ 1 ∨ ∀ d, d ∈ cols → sizeOf h c' ≤ sizeOf h d).
Proof.
  intros Hi. revert c l1 fuel x. induction l2 as [|y l2 IH]; intros c l1 fuel x E Hc Hmin Hp Hl;
    (destruct fuel as [|fuel]; [cbn in Hl; lia|]); cbn [min_loop]; cbn in Hp.
  - rewrite Hp, Z.eqb_refl. exists c. rewrite E, app_nil_r. eauto.
  - destruct Hp as [-> Hp]. destruct (i_heads _ _ _ _ Hi) as [[Hrt _]%NoDup_cons Hcs].
    assert (y ∈ cols) as Hy by (rewrite E; set_solver). destruct (Z.eqb_spec y root) as [->|_]; [done|].
    rewrite get_ok by (rewrite (i_dom _ _ _ _ Hi); by apply Hcs). cbn [mbind res_bind].
    change (size (h !!! y)) with (sizeOf h y). change (right (h !!! y)) with (rightOf h y).
    rewrite cons_middle, app_assoc in E.
    destruct (Z.ltb_spec (sizeOf h y) (sizeOf h c)) as [Hlt|Hge]; [destruct (Z.leb_spec (sizeOf h y) 1)|].
    + exists y. eauto.
    + apply (IH y (l1 ++ [y])); [done|set_solver| |done|cbn in Hl; lia].
      intros d [Hd|Hd%list_elem_of_singleton]%elem_of_app; [specialize (Hmin d Hd); lia|by subst].
    + apply (IH c (l1 ++ [y])); [done|set_solver| |done|cbn in Hl; lia].
      intros d [Hd|Hd%list_elem_of_singleton]%elem_of_app; [by apply Hmin|by subst].
Qed.

Lemma get_min_column_spec s cols :
  Cols (nodes_ s) cols → root_ s = root → cols ≠ [] →
  ∃ c, get_min_column s = Ok c ∧ c ∈ cols ∧
       (sizeOf (nodes_ s) c ≤ 1 ∨ ∀ d, d ∈ cols → sizeOf (nodes_ s) c ≤ sizeOf (nodes_ s) d).
Proof.
  intros Hi Hroot Hne. destruct cols as [|y cols]; [done|]. pose proof (i_head _ _ _ _ Hi) as [[Hy _] Hsg].
  destruct (i_heads _ _ _ _ Hi) as [[_ Hnd]%NoDup_cons Hcs]. destruct (Hcs y) as [Hyd _]; [by left|].
  unfold get_min_column. rewrite Hroot, get_ok by (rewrite (i_dom _ _ _ _ Hi); apply (m_root Hm)). cbn [mbind res_bind].
  change (right (nodes_ s !!! root)) with (rightOf (nodes_ s) root). rewrite Hy.
  rewrite get_ok by (by rewrite (i_dom _ _ _ _ Hi)). cbn [mbind res_bind].
  change (size (nodes_ s !!! y)) with (sizeOf (nodes_ s) y). change (right (nodes_ s !!! y)) with (rightOf (nodes_ s) y).
  destruct (Z.ltb_spec 1 (sizeOf (nodes_ s) y)) as [Hgt|Hle].
  - apply (min_loop_spec _ _ y [y] cols); [done|done|by left| |by eapply seg_path|].
    + intros d Hd%list_elem_of_singleton. by subst.
    + apply NoDup_cons in Hnd as [_ Hnd]. apply short; [done|]. intros z Hz. apply Hcs. by right.
  - exists y. split_and!; [done|by left|by left].
Qed.

(** ** Reading a solution

    The first node of a row names its cell, the others name units and, in their last digit,
    the value. *)

Context (cellf valf : ptr → Z).

Definition row_named (row : list ptr) : Prop :=
  ∃ n0 rest, row = n0 :: rest ∧ rest ≠ [] ∧ 0 ≤ namef n0 < 81 ∧
    ∀ r, r ∈ row → cellf r = namef n0 ∧ 0 ≤ valf r ∧
      ∀ j, j ∈ rest → 100 ≤ namef j ∧ Z.rem (namef j) 10 = valf r.

Context (Hnamed : ∀ row, row ∈ rows → row_named row).

Lemma read_cell_last h cols n0 v cell l x fuel :
  Cols h cols → (∀ z, z ∈ x :: l ++ [n0] → z ∈ dm) → path (rightOf h) x l n0 → 0 ≤ cell < 81 → namef n0 = cell →
  0 ≤ v → (∀ z, z ∈ x :: l → 100 ≤ namef z ∧ Z.rem (namef z) 10 = v) → (length l + 2 < fuel)%nat →
  ∀ v0, read_row fuel x (-1) v0 h = Ok (cell, v).
Proof.
  intros Hi Hd Hp Hcell Hn0 Hv Hvs Hl v0. revert x v0 fuel Hd Hp Hvs Hl.
  induction l as [|y l IH]; intros x v0 fuel Hd Hp Hvs Hl; (destruct fuel as [|fuel]; [cbn in Hl; lia|]); cbn [read_row].
  all: rewrite Z.eqb_refl; cbn [orb]; rewrite get_ok by (rewrite (i_dom _ _ _ _ Hi); apply Hd; set_solver).
  all: cbn [mbind res_bind]; change (right (h !!! x)) with (rightOf h x).
  all: change (name (h !!! x)) with (nameOf h x); rewrite (i_name _ _ _ _ Hi).
  all: destruct (Hvs x) as [Hx E]; [by left|]; destruct (Z.ltb_spec (namef x) 100); [lia|]; rewrite E.
  - cbn in Hp. rewrite Hp. do 2 (destruct fuel as [|fuel]; [cbn in Hl; lia|]). cbn [read_row]. cbn [orb].
    rewrite Z.eqb_refl. cbn [orb]. rewrite get_ok by (rewrite (i_dom _ _ _ _ Hi); apply Hd; set_solver).
    cbn [mbind res_bind]. change (name (h !!! n0)) with (nameOf h n0). rewrite (i_name _ _ _ _ Hi), Hn0.
    destruct (Z.ltb_spec cell 100); [|lia]. destruct (Z.eqb_spec cell (-1)); [lia|].
    by destruct (Z.eqb_spec v (-1)); [lia|].
  - destruct Hp as [-> Hp]. apply IH; [intros; apply Hd; set_solver|done|intros; apply Hvs; set_solver|cbn in Hl; lia].
Qed.

Lemma read_row_spec h cols r :
  Cols h cols → r ∈ concat rows → read_row bound r (-1) (-1) h = Ok (cellf r, valf r) ∧ 0 ≤ cellf r < 81.
Proof.
  intros Hi Hr. pose proof Hr as (row & Hrow & Hrr)%in_concat.
  destruct (Hnamed row Hrow) as (n0 & rest & E & Hne & Hc & Hall). destruct (Hall r Hrr) as (Ec & Hv & Hrest).
  rewrite Ec. split; [|done]. destruct (row_paths _ _ _ _ _ Hi Hr) as (Hp & _ & Hd & Hni & Hlen).
  rewrite (i_dom _ _ _ _ Hi) in Hd. pose proof Hrr as (l1 & l2 & E')%list_elem_of_split.
  rewrite (peers_split row l1 r l2 Hrow E') in *. destruct l1 as [|x l1]; cbn in E'; rewrite E in E'.
  - injection E' as <- <-. rewrite app_nil_r in *. destruct rest as [|y rest]; [done|]. cbn in Hp. destruct Hp as [Hr0 Hp].
    assert (bound = S (S (S (Z.to_nat kMaxNodes - 2)))) as -> by (vm_compute; done).
    cbn [read_row]. rewrite Z.eqb_refl. cbn [orb]. rewrite get_ok by (rewrite (i_dom _ _ _ _ Hi); apply Hd; set_solver).
    cbn [mbind res_bind]. change (name (h !!! n0)) with (nameOf h n0). rewrite (i_name _ _ _ _ Hi).
    change (right (h !!! n0)) with (rightOf h n0). rewrite Hr0. destruct (Z.ltb_spec (namef n0) 100); [|lia].
    rewrite orb_true_r. rewrite get_ok by (rewrite (i_dom _ _ _ _ Hi); apply Hd; set_solver).
    cbn [mbind res_bind]. change (name (h !!! y)) with (nameOf h y). rewrite (i_name _ _ _ _ Hi).
    destruct (Hrest y) as [Hy ->]; [by left|]. destruct (Z.ltb_spec (namef y) 100); [lia|].
    destruct (Z.eqb_spec (namef n0) (-1)); [lia|]. by destruct (Z.eqb_spec (valf n0) (-1)); [lia|].
  - injection E' as <- E'. apply path_app in Hp as [Hp _].
    assert (length (r :: l2 ++ n0 :: l1) < bound)%nat as Hlen2.
    { destruct (peers_spec r row Hrow Hrr) as (Hnd & _ & _). rewrite (peers_split row (n0 :: l1) r l2) in Hnd; [|done|].
      - by apply short.
      - by rewrite E, E'. }
    cbn in Hlen2. rewrite length_app in Hlen2. cbn in Hlen2.
    eapply read_cell_last; try done; [|intros z Hz; apply Hrest; rewrite E'; set_solver|lia].
    intros z Hz. apply Hd. set_solver.
Qed.

(** Writing the rows on the stack into the board. *)
Definition put (b : list Z) (r : ptr) : list Z := <[Z.to_nat (cellf r) := valf r]> b.

Lemma fill_one_spec s cols r :
  Cols (nodes_ s) cols → r ∈ concat rows → zlen (inout_ s) = 81 →
  fill_one r s = Ok (with_inout (put (inout_ s) r) s).
Proof.
  intros Hi Hr Hl. destruct (read_row_spec _ _ r Hi Hr) as [E Hc]. unfold fill_one. rewrite E. cbn [mbind res_bind].
  rewrite Hl. destruct (Z.leb_spec 0 (cellf r)); [|lia]. by destruct (Z.ltb_spec (cellf r) 81); [|lia].
Qed.

Lemma fill_spec s cols l :
  Cols (nodes_ s) cols → Forall (.∈ concat rows) l → zlen (inout_ s) = 81 →
  mfold fill_one l s = Ok (with_inout (foldl put (inout_ s) l) s).
Proof.
  intros Hi Hl. revert s Hi. induction Hl as [|r l Hr Hl IH]; intros s Hi Hlen; cbn [mfold foldl]; [by destruct s|].
  rewrite (fill_one_spec s cols) by done. cbn [mbind res_bind]. rewrite IH; [done|done|].
  cbn. unfold put. by rewrite length_insert.
Qed.

(** ** The search *)

Definition cols_of (row : list ptr) : list ptr := colf <$> row.

(** [sel] is a choice of rows that covers every column of [cols] exactly once. *)
Definition exact (cols : list ptr) (sel : list (list ptr)) : Prop :=
  (∀ row, row ∈ sel → row ∈ rows) ∧ concat (cols_of <$> sel) ≡ₚ cols.

(** What is left of the columns when the row through [r] is chosen. *)
Definition rest_of (cols : list ptr) (r : ptr) : list ptr := filter (.∉ (colf <$> r :: peers r)) cols.

Lemma remove_perm (cs cols : list ptr) :
  NoDup cs → NoDup cols → (∀ c, c ∈ cs → c ∈ cols) → cs ++ filter (.∉ cs) cols ≡ₚ cols.
Proof.
  intros H1 H2 Hin. apply NoDup_Permutation; [|done|].
  - apply NoDup_app. split_and!; [done|by intros x ? [? _]%list_elem_of_filter|by apply NoDup_filter].
  - intros c. rewrite elem_of_app, list_elem_of_filter. destruct (decide (c ∈ cs)); naive_solver.
Qed.

Lemma row_perm cols c r row :
  NoDup cols → row ∈ rows → r ∈ row → r ∈ nodes_of cols c →
  (colf <$> row) ++ rest_of cols r ≡ₚ cols.
Proof.
  intros Hnd Hrow Hr (row' & Hrow' & Hr' & Ec & Hcs)%in_nodes_of.
  assert (row' = row) as -> by (eapply concat_nodup_inj; eauto using m_nodup).
  destruct (peers_spec r row Hrow Hr) as (Hnr & Hnc & Hin).
  assert (r :: peers r ≡ₚ row) as Hp.
  { apply NoDup_Permutation; [done|eauto using concat_nodup_in, m_nodup|]. intros j. by rewrite Hin. }
  unfold rest_of. rewrite <-Hp. apply remove_perm; [done|done|].
  intros d (j & -> & Hj%Hin)%list_elem_of_fmap. by apply Hcs.
Qed.

(** An exact cover contains a row through every column, and the rest of it covers the rest. *)
Lemma exact_step cols c sel :
  NoDup cols → c ∈ cols → exact cols sel →
  ∃ r, r ∈ nodes_of cols c ∧ ∃ sel', exact (rest_of cols r) sel'.
Proof.
  intros Hnd Hc [Hsub Hp]. assert (c ∈ concat (cols_of <$> sel)) as Hin by (by rewrite Hp).
  apply in_concat in Hin as (cs & (row & -> & Hrow)%list_elem_of_fmap & (r & -> & Hr)%list_elem_of_fmap).
  apply list_elem_of_split in Hrow as (s1 & s2 & ->). assert (row ∈ rows) as Hrow by (apply Hsub; set_solver).
  rewrite fmap_app, concat_app in Hp. cbn in Hp.
  assert ((colf <$> row) ++ concat (cols_of <$> s1 ++ s2) ≡ₚ cols) as Hp'.
  { rewrite <-Hp, fmap_app, concat_app. solve_Permutation. }
  assert (r ∈ nodes_of cols (colf r)) as Hrn.
  { apply in_nodes_of. exists row. split_and!; try done. intros j Hj. rewrite <-Hp', elem_of_app. left.
    by apply list_elem_of_fmap_2. }
  exists r. split; [done|]. exists (s1 ++ s2). split; [intros row' Hr'; apply Hsub; set_solver|].
  apply (Permutation_app_inv_l (colf <$> row)). by rewrite Hp', (row_perm cols (colf r)).
Qed.

(** A solver that has yet to cover [cols]. *)
Definition ready (s : solver) (cols : list ptr) : Prop :=
  Cols (nodes_ s) cols ∧ root_ s = root ∧ Forall (.∈ concat rows) (stack_ s) ∧ zlen (inout_ s) = 81.

Definition found (s : solver) (cols : list ptr) (x : res (bool * solver)) : Prop :=
  ∃ rs sel s', x = Ok (true, s') ∧ inout_ s' = foldl put (inout_ s) (stack_ s ++ rs) ∧
               exact cols sel ∧ Forall2 (λ r row, r ∈ row) rs sel.

(** The rows [rs] of column [c], already covered, are tried in turn. *)
Lemma try_rows_spec sv cols c rs fuel x s :
  NoDup cols → (∀ r, r ∈ rs → r ∈ nodes_of cols c) → c ∉ rs →
  (∀ s' r, r ∈ rs → ready s' (rest_of cols r) →
     found s' (rest_of cols r) (sv s') ∨ (sv s' = Ok (false, s') ∧ ∀ sel, ¬ exact (rest_of cols r) sel)) →
  ready s (filter (.≠ c) cols) → path (downOf (nodes_ s)) x rs c → (length rs < fuel)%nat →
  found s cols (try_rows sv fuel c (downOf (nodes_ s) x) s) ∨
  (try_rows sv fuel c (downOf (nodes_ s) x) s = Ok (false, s) ∧ ∀ r, r ∈ rs → ∀ sel, ¬ exact (rest_of cols r) sel).
Proof.
  intros Hnd. revert fuel x. induction rs as [|r rs IH]; intros fuel x Hrs Hc Hsv Hrd Hp Hl;
    (destruct fuel as [|fuel]; [cbn in Hl; lia|]); cbn [try_rows]; cbn in Hp.
  - right. rewrite Hp, Z.eqb_refl. split; [done|]. intros r Hr. by apply not_elem_of_nil in Hr.
  - destruct Hp as [-> Hp]. destruct (Z.eqb_spec r c) as [->|_]; [by destruct Hc; left|].
    pose proof Hrd as (Hi & Hroot & Hst & Hio). assert (r ∈ nodes_of cols c) as Hrn by (apply Hrs; left).
    pose proof Hrn as (row & Hrow & Hr & Ec & Hcs)%in_nodes_of.
    assert (r ∈ concat rows) as Hrc by (apply in_concat; eauto).
    destruct (choose_row r (nodes_ s) (filter (.≠ c) cols)) as (h' & Hc1 & Hu1 & Hi1); [done|done|..].
    { intros j Hj. apply list_elem_of_filter. destruct (peers_col r j Hrc Hj). split; [congruence|].
      by destruct (nodes_of_peers cols c r j Hrn Hj). }
    unfold on_nodes. cbn [nodes_ with_stack]. rewrite Hc1. cbn [mbind res_bind].
    set (s1 := with_nodes h' _).
    assert (ready s1 (rest_of cols r)) as Hrd1.
    { split_and!; try done; [|cbn; apply Forall_app; auto]. cbn. unfold rest_of.
      rewrite list_filter_filter in Hi1. erewrite list_filter_iff; [exact Hi1|].
      intros z. cbn. rewrite not_elem_of_cons, Ec. tauto. }
    destruct (Hsv s1 r) as [(rs' & sel & s' & -> & Hin & Hex & Hf2)|[-> Hno]]; [by left|done|..]; cbn [mbind res_bind].
    + left. exists (r :: rs'), (row :: sel), s'. split_and!; [done|rewrite Hin; cbn; by rewrite <-app_assoc| |by constructor].
      destruct Hex as [Hsub Hperm]. split; [intros row' [->|?]%elem_of_cons; auto|].
      cbn. rewrite Hperm. by apply (row_perm cols c).
    + unfold s1. cbn [nodes_ with_stack with_nodes stack_]. rewrite Hu1. cbn [mbind res_bind].
      rewrite removelast_last. cbn [nodes_].
      assert (with_nodes (nodes_ s) (with_stack (stack_ s) s1) = s) as Es by (by destruct s).
      unfold s1 in Es. rewrite Es. rewrite get_ok by (rewrite (i_dom _ _ _ _ Hi); by apply (m_node Hm)).
      cbn [mbind res_bind]. change (down (nodes_ s !!! r)) with (downOf (nodes_ s) r).
      destruct (IH fuel r) as [Hf|[E Hno']]; try done; [set_solver|set_solver| |cbn in Hl; lia|by left|].
      * intros s' r' Hr'. apply Hsv. by right.
      * right. split; [done|]. intros r' [->|Hr']%elem_of_cons; auto.
Qed.

(** solve() comes to an end; it finds an exact cover of the columns when there is one, and
    otherwise leaves the solver exactly as it was. *)
Lemma solve_spec fuel s cols :
  ready s cols → (length cols < fuel)%nat →
  found s cols (solve fuel s) ∨ (solve fuel s = Ok (false, s) ∧ ∀ sel, ¬ exact cols sel).
Proof.
  revert s cols. induction fuel as [|fuel IH]; intros s cols Hrd Hl; [lia|]. cbn [solve].
  pose proof Hrd as (Hi & Hroot & Hst & Hio). pose proof (i_head _ _ _ _ Hi) as Hsg.
  destruct (i_heads _ _ _ _ Hi) as [[Hrt Hnd]%NoDup_cons Hcs].
  rewrite get_ok by (rewrite (i_dom _ _ _ _ Hi), Hroot; apply (m_root Hm)). cbn [mbind res_bind].
  change (left (nodes_ s !!! root_ s)) with (leftOf (nodes_ s) (root_ s)). rewrite Hroot.
  destruct (decide (cols = [])) as [->|Hne].
  { cbn in Hsg. destruct Hsg as [_ ->]. rewrite Z.eqb_refl. unfold fill.
    rewrite (fill_spec s []) by done. cbn [mbind res_bind]. left. exists [], [].
    eexists. split_and!; [done|by rewrite app_nil_r|by split; [set_solver|]|done]. }
  assert (leftOf (nodes_ s) root ≠ root) as Hlr.
  { destruct cols as [|y cols] using rev_ind; [done|]. apply seg_app in Hsg as [_ [_ ->]]. set_solver. }
  destruct (Z.eqb_spec (leftOf (nodes_ s) root) root); [done|].
  destruct (get_min_column_spec s cols Hi Hroot Hne) as (c & -> & Hc & _). cbn [mbind res_bind].
  destruct (cover_one (nodes_ s) cols c Hi Hc) as (h1 & Hc1 & Hu1 & Hi1 & Hv1). unfold on_nodes. rewrite Hc1.
  cbn [mbind res_bind]. set (s1 := with_nodes h1 s).
  rewrite get_ok by (cbn; rewrite (i_dom _ _ _ _ Hi1); by apply Hcs). cbn [mbind res_bind].
  change (down (nodes_ s1 !!! c)) with (downOf (nodes_ s1) c).
  destruct (i_nodes _ _ _ _ Hi c Hc) as [Hnn Hns].
  destruct (try_rows_spec (solve fuel) cols c (nodes_of cols c) bound c s1) as [Hf|[-> Hno]]; try done.
  - intros (Hcr & _)%Hns. destruct (m_node Hm c Hcr) as (_ & E1 & _). by destruct E1; apply Hcs.
  - intros s' r Hr Hrd'. apply IH; [done|]. pose proof Hr as (row & Hrow & Hrr & _)%in_nodes_of.
    pose proof (Permutation_length (row_perm cols c r row Hnd Hrow Hrr Hr)) as Hlen. rewrite length_app, length_fmap in Hlen.
    destruct row; [by apply not_elem_of_nil in Hrr|]. cbn in Hlen. lia.
  - by eapply seg_path.
  - apply short; [done|]. intros z (Hz & _)%Hns. by apply (m_node Hm).
  - left. destruct Hf as (rs & sel & s' & -> & ?). cbn. by exists rs, sel, s'.
  - right. cbn [mbind res_bind]. cbn [nodes_ with_nodes s1]. rewrite Hu1. cbn [mbind res_bind].
    split; [by destruct s|]. intros sel Hex. destruct (exact_step cols c sel Hnd Hc Hex) as (r & Hr & sel' & Hex').
    by apply (Hno r Hr sel').
Qed.

End Matrix.
End XC.
