(* ===== verification/SudokuSolver.v ===== *)
(** * The Sudoku solver: the constructor of class SudokuSolver and solveSudoku

    src/net/sudoku/sudoku.cc. The constructor turns the board into an exact-cover problem over
    the dancing links of the DancingLinks file; [solveSudoku] reads the puzzle, solves it and
    prints the result. *)

From S2P Require Import Prelude DancingLinks ExactCover.
Import DLX XC.

Module Solver.

Definition kCells : Z := 81.
Definition kRow : Z := 100.
Definition kCol : Z := 200.
Definition kBox : Z := 300.
(** "NoSolution" *)
Definition kNoSolution : list byte := [x4e; x6f; x53; x6f; x6c; x75; x74; x69; x6f; x6e].

Definition get_row_col (row val : Z) : Z := kRow + row * 10 + val.
Definition get_col_col (col val : Z) : Z := kCol + col * 10 + val.
Definition get_box_col (box val : Z) : Z := kBox + box * 10 + val.

Definition row_of (i : Z) : Z := i / 9.
Definition col_of (i : Z) : Z := i mod 9.
Definition box_of (i : Z) : Z := row_of i / 3 * 3 + col_of i / 3.

(** columns_[n] *)
Definition column (n : Z) (s : solver) : res (option ptr) :=
  if (0 <=? n) && (n <? 400) then Ok (columns_ s !! n) else Err OutOfBounds.

Definition new_column (n : Z) (s : solver) : res (ptr * solver) :=
  _ ← assert_ (cur_node_ s <? kMaxNodes);
  let c := cur_node_ s in
  Ok (c, mkSolver (root_ s) (inout_ s) (columns_ s) (stack_ s)
           (<[c := mkNode c c c c c n 0]> (nodes_ s)) (cur_node_ s + 1)).

Definition append_column (n : Z) (s : solver) : res solver :=
  o ← column n s;
  _ ← assert_ (bool_decide (o = None));
  '(c, s) ← new_column n s;
  s ← on_nodes (put_left (root_ s) c) s;
  Ok (mkSolver (root_ s) (inout_ s) (<[n := c]> (columns_ s)) (stack_ s) (nodes_ s) (cur_node_ s)).

Definition new_row (col : Z) (s : solver) : res (ptr * solver) :=
  o ← column col s;
  match o with
  | None => Err AssertFailed
  | Some c =>
      _ ← assert_ (cur_node_ s <? kMaxNodes);
      let r := cur_node_ s in
      let s := mkSolver (root_ s) (inout_ s) (columns_ s) (stack_ s)
                 (<[r := mkNode r r r r c col 0]> (nodes_ s)) (cur_node_ s + 1) in
      s ← on_nodes (put_up c r) s;
      Ok (r, s)
  end.

(** bool rows[kCells][10], as the set of the entries that are true. *)
Abbreviation marks := (gset (Z * Z)).
Definition mark (i v : Z) (m : marks) : res marks :=
  if (0 <=? i) && (i <? kCells) && (0 <=? v) && (v <? 10) then Ok ({[(i, v)]} ∪ m) else Err OutOfBounds.
Definition marked (i v : Z) (m : marks) : bool := bool_decide ((i, v) ∈ m).

Definition cell_at (board : list Z) (i : Z) : res Z :=
  match board !! Z.to_nat i with Some v => Ok v | None => Err OutOfBounds end.

(** The first loop: what the given cells use up. *)
Definition mark_cell (board : list Z) (i : Z) (m : marks * marks * marks) : res (marks * marks * marks) :=
  val ← cell_at board i;
  rows ← mark (row_of i) val m.1.1;
  cols ← mark (col_of i) val m.1.2;
  boxes ← mark (box_of i) val m.2;
  Ok (rows, cols, boxes).

(** The second loop *)
Definition append_cell (i : Z) (s : solver) : res solver :=
  val ← cell_at (inout_ s) i;
  if val =? 0 then append_column i s else Ok s.

(** The third loop *)
Definition append_units (m : marks * marks * marks) (i : Z) (s : solver) : res solver :=
  mfold (λ v s,
    s ← (if negb (marked i v m.1.1) then append_column (get_row_col i v) s else Ok s);
    s ← (if negb (marked i v m.1.2) then append_column (get_col_col i v) s else Ok s);
    if negb (marked i v m.2) then append_column (get_box_col i v) s else Ok s) (seqZ 1 9) s.

(** The four nodes of the option to write [v] in cell [i]. *)
Definition append_option (i v : Z) (s : solver) : res solver :=
  '(n0, s) ← new_row i s;
  '(nr, s) ← new_row (get_row_col (row_of i) v) s;
  '(nc, s) ← new_row (get_col_col (col_of i) v) s;
  '(nb, s) ← new_row (get_box_col (box_of i) v) s;
  s ← on_nodes (put_left n0 nr) s;
  s ← on_nodes (put_left n0 nc) s;
  on_nodes (put_left n0 nb) s.

(** The last loop *)
Definition append_options (m : marks * marks * marks) (i : Z) (s : solver) : res solver :=
  val ← cell_at (inout_ s) i;
  if val =? 0 then
    mfold (λ v s,
      if negb (marked (row_of i) v m.1.1 || marked (col_of i) v m.1.2 || marked (box_of i) v m.2)
      then append_option i v s else Ok s) (seqZ 1 9) s
  else Ok s.

Definition newSolver (board : list Z) : res solver :=
  '(root, s) ← new_column 0 (mkSolver 0 board ∅ [] ∅ 0);
  let s := mkSolver root (inout_ s) (columns_ s) (stack_ s) (nodes_ s) (cur_node_ s) in
  h ← store root (set_right root) (nodes_ s);
  h ← store root (set_left root) h;
  let s := with_nodes h s in
  m ← mfold (mark_cell board) (seqZ 0 kCells) (∅, ∅, ∅);
  s ← mfold append_cell (seqZ 0 kCells) s;
  s ← mfold (append_units m) (seqZ 0 9) s;
  mfold (append_options m) (seqZ 0 kCells) s.

(** The characters of the puzzle; [char] is signed. *)
Definition read_cell (b : byte) : Z := swrap 8 (byte_unsigned b) - 48.

Definition solveSudoku (puzzle : list byte) : res (list byte) :=
  _ ← assert_ (zlen puzzle =? kCells);
  let board := read_cell <$> puzzle in
  let valid := forallb (λ v, (0 <=? v) && (v <=? 9)) board in
  if valid then
    s ← newSolver board;
    '(solved, s) ← solve bound s;
    if solved : bool then Ok ((λ v, byte_of_Z (v + 48)) <$> inout_ s) else Ok kNoSolution
  else Ok kNoSolution.

(** ** The matrix under construction

    [cols] are the headers and [rows] the rows so far, in the order in which they were made. *)

Definition column_nodes (h : heap) (rows : list (list ptr)) (c : ptr) : list ptr :=
  filter (λ j, colOf h j = c) (concat rows).

Record built (s : solver) (cols : list ptr) (rows : list (list ptr)) : Prop := {
  b_inv : Inv (root_ s) rows (colOf (nodes_ s)) (nameOf (nodes_ s)) (dom (nodes_ s)) (nodes_ s) cols cols
            (column_nodes (nodes_ s) rows);
  b_mat : matrix_ok (root_ s) rows (colOf (nodes_ s)) (dom (nodes_ s));
  b_dom z : z ∈ dom (nodes_ s) ↔ 0 ≤ z < cur_node_ s;
  b_cols n c : columns_ s !! n = Some c ↔ c ∈ cols ∧ nameOf (nodes_ s) c = n;
  b_node j : j ∈ concat rows → colOf (nodes_ s) j ∈ cols ∧ nameOf (nodes_ s) (colOf (nodes_ s) j) = nameOf (nodes_ s) j;
  b_cur : cur_node_ s = 1 + zlen cols + zlen (concat rows);
  b_stack : stack_ s = []
}.

Lemma list_filter_iff' {A} (P Q : A → Prop) `{∀ x, Decision (P x)} `{∀ x, Decision (Q x)} (l : list A) :
  (∀ x, x ∈ l → P x ↔ Q x) → filter P l = filter Q l.
Proof.
  induction l as [|x l IH]; intros Hl; [done|]. rewrite !filter_cons, IH by (intros y Hy; apply Hl; by right).
  destruct (Hl x (list_elem_of_here _ _)). do 2 case_decide; naive_solver.
Qed.

Lemma field_insert {A} (f : Node → A) (h : heap) p n z :
  f (<[p := n]> h !!! z) = if decide (z = p) then f n else f (h !!! z).
Proof. rewrite at_insert. by case_decide. Qed.

Lemma dom_size (h : heap) (n : Z) : 0 ≤ n → (∀ z, z ∈ dom h ↔ 0 ≤ z < n) → Z.of_nat (base.size (dom h)) = n.
Proof.
  intros Hn Hd. assert (dom h = list_to_set (seqZ 0 n)) as ->.
  { apply set_eq. intros z. rewrite Hd, elem_of_list_to_set, elem_of_seqZ. lia. }
  rewrite size_list_to_set by apply NoDup_seqZ. rewrite length_seqZ. lia.
Qed.

Section Append.
Context (s : solver) (cols : list ptr) (rows : list (list ptr)) (Hb : built s cols rows).

Lemma built_root : root_ s ∈ dom (nodes_ s) ∧ colOf (nodes_ s) (root_ s) = root_ s.
Proof. apply (m_root _ _ _ _ (b_mat _ _ _ Hb)). Qed.

Lemma built_header z : z ∈ root_ s :: cols → z ∈ dom (nodes_ s) ∧ colOf (nodes_ s) z = z.
Proof. intros Hz. eapply header_in; [apply (b_mat _ _ _ Hb)|apply (b_inv _ _ _ Hb)|done]. Qed.

Lemma built_node j : j ∈ concat rows → j ∈ dom (nodes_ s) ∧ colOf (nodes_ s) j ≠ j.
Proof. intros Hj. by destruct (m_node _ _ _ _ (b_mat _ _ _ Hb) j Hj) as (? & ? & _). Qed.

Lemma built_fresh z : z ∈ dom (nodes_ s) → z ≠ cur_node_ s.
Proof. rewrite (b_dom _ _ _ Hb). lia. Qed.

End Append.

(** A new header [c] at the end of the ring of headers. *)
Record column_added (root c : ptr) (n : Z) (h h' : heap) : Prop := {
  ca_dom : dom h' = {[c]} ∪ dom h;
  ca_left z : leftOf h' z = if decide (z = root) then c else if decide (z = c) then leftOf h root else leftOf h z;
  ca_right z : rightOf h' z = if decide (z = c) then root else if decide (z = leftOf h root) then c else rightOf h z;
  ca_up z : upOf h' z = if decide (z = c) then c else upOf h z;
  ca_down z : downOf h' z = if decide (z = c) then c else downOf h z;
  ca_col z : colOf h' z = if decide (z = c) then c else colOf h z;
  ca_name z : nameOf h' z = if decide (z = c) then n else nameOf h z;
  ca_size z : sizeOf h' z = if decide (z = c) then 0 else sizeOf h z
}.

Lemma add_column_run root c n (h : heap) :
  c ∉ dom h → root ∈ dom h → leftOf h root ∈ dom h →
  ∃ h', put_left root c (<[c := mkNode c c c c c n 0]> h) = Ok h' ∧ column_added root c n h h'.
Proof.
  intros Hc Hr Hl. set (h0 := <[c := _]> h). assert (root ≠ c) by (by intros ->).
  assert (dom h0 = {[c]} ∪ dom h) as Hd by apply dom_insert_L.
  assert (leftOf h0 root = leftOf h root) as Hl0 by (unfold leftOf, h0; by rewrite field_insert, decide_False).
  assert (leftOf h root ≠ c) by (by intros E; rewrite E in Hl).
  assert (root ∈ dom h0 ∧ c ∈ dom h0 ∧ leftOf h root ∈ dom h0) as (? & ? & ?) by (rewrite Hd; set_solver).
  destruct (put_left_run root c h0) as (h' & Hrun & []); [done|done|by rewrite Hl0|done|by rewrite Hl0|].
  exists h'. split; [done|]. rewrite Hl0 in *. split; [congruence|intros z..];
    rewrite ?pl_left0, ?pl_right0, ?pl_up0, ?pl_down0, ?pl_col0, ?pl_name0, ?pl_size0;
    unfold leftOf, rightOf, upOf, downOf, colOf, nameOf, sizeOf, h0; rewrite ?field_insert; cbn;
    repeat (case_decide; simplify_eq); congruence.
Qed.

(** A new node [r] of the name [n] at the end of column [c]. *)
Record node_added (c r : ptr) (n : Z) (h h' : heap) : Prop := {
  na_dom : dom h' = {[r]} ∪ dom h;
  na_left z : leftOf h' z = if decide (z = r) then r else leftOf h z;
  na_right z : rightOf h' z = if decide (z = r) then r else rightOf h z;
  na_up z : upOf h' z = if decide (z = c) then r else if decide (z = r) then upOf h c else upOf h z;
  na_down z : downOf h' z = if decide (z = r) then c else if decide (z = upOf h c) then r else downOf h z;
  na_col z : colOf h' z = if decide (z = r) then c else colOf h z;
  na_name z : nameOf h' z = if decide (z = r) then n else nameOf h z;
  na_size z : sizeOf h' z = if decide (z = c) then sizeOf h c + 1 else if decide (z = r) then 0 else sizeOf h z
}.

Lemma add_node_run c r n (h : heap) :
  r ∉ dom h → c ∈ dom h → upOf h c ∈ dom h →
  ∃ h', put_up c r (<[r := mkNode r r r r c n 0]> h) = Ok h' ∧ node_added c r n h h'.
Proof.
  intros Hc Hr Hl. set (h0 := <[r := _]> h). assert (c ≠ r) by (by intros ->).
  assert (dom h0 = {[r]} ∪ dom h) as Hd by apply dom_insert_L.
  assert (upOf h0 c = upOf h c) as Hl0 by (unfold upOf, h0; by rewrite field_insert, decide_False).
  assert (upOf h c ≠ r) by (by intros E; rewrite E in Hl).
  assert (c ∈ dom h0 ∧ r ∈ dom h0 ∧ upOf h c ∈ dom h0) as (? & ? & ?) by (rewrite Hd; set_solver).
  destruct (put_up_run c r h0) as (h' & Hrun & []); [done|done|by rewrite Hl0|done|by rewrite Hl0|].
  exists h'. split; [done|]. rewrite Hl0 in *. split; [congruence|intros z..];
    rewrite ?pu_left0, ?pu_right0, ?pu_up0, ?pu_down0, ?pu_col0, ?pu_name0, ?pu_size0;
    unfold leftOf, rightOf, upOf, downOf, colOf, nameOf, sizeOf, h0; rewrite ?field_insert; cbn;
    repeat (case_decide; simplify_eq); congruence.
Qed.

(** ** Each step keeps the invariant *)

Abbreviation inv root rows h cols :=
  (Inv root rows (colOf h) (nameOf h) (dom h) h cols cols (column_nodes h rows)).
Abbreviation mat root rows h := (matrix_ok root rows (colOf h) (dom h)).

Section Steps.
Context (root : ptr) (h : heap) (cols : list ptr) (rows : list (list ptr)).
Context (Hi : inv root rows h cols) (Hm : mat root rows h).
Context (Hcols : ∀ j, j ∈ concat rows → colOf h j ∈ cols).

Lemma hdr z : z ∈ root :: cols → z ∈ dom h ∧ colOf h z = z.
Proof. by eapply header_in. Qed.

Lemma row_node j row : row ∈ rows → j ∈ row → j ∈ dom h ∧ colOf h j ≠ j.
Proof. intros Hr Hj. destruct (m_node _ _ _ _ Hm j) as (? & ? & _); [apply in_concat; eauto|done]. Qed.

(** The part of the matrix that does not depend on the links. *)
Lemma mat_frame (h' : heap) :
  (∀ z, z ∈ dom h → z ∈ dom h' ∧ colOf h' z = colOf h z) → Z.of_nat (base.size (dom h')) ≤ kMaxNodes → mat root rows h'.
Proof.
  intros Hold Hsz. destruct Hm as [Hmn Hmr Hmd [Hrd Hrc] _]. split; try done.
  - intros row Hrow. erewrite Forall_fmap_ext_1; [by apply Hmr|]. apply Forall_forall.
    intros z Hz. apply Hold. by eapply row_node.
  - intros j Hj. destruct (Hmd j Hj) as (Hjd & ? & ?). destruct (Hold j Hjd) as [? ->].
    destruct (Hold (colOf h j)) as [? ->]; [apply hdr; right; by apply Hcols|done].
  - destruct (Hold root Hrd) as [? ->]. done.
Qed.

Lemma add_column_inv c n h' :
  column_added root c n h h' → c ∉ dom h → Z.of_nat (base.size (dom h')) ≤ kMaxNodes →
  inv root rows h' (cols ++ [c]) ∧ mat root rows h'.
Proof.
  intros [Hd Hl Hr Hu Hdn Hc Hn Hs] Hfr Hsz. destruct (m_root _ _ _ _ Hm) as [Hrd Hrc].
  assert (∀ z, z ∈ dom h → z ≠ c) as Hne by (by intros z Hz ->).
  pose proof (seg_last _ _ _ _ _ (i_head _ _ _ _ _ _ _ _ _ Hi)) as Hlast. destruct (hdr _ Hlast) as [Hld Hlc].
  destruct (i_heads _ _ _ _ _ _ _ _ _ Hi) as [Hnd Hhs].
  assert (∀ z, z ∈ dom h → z ∈ dom h' ∧ colOf h' z = colOf h z) as Hold.
  { intros z Hz. rewrite Hc, decide_False by auto. split; [rewrite Hd; set_solver|done]. }
  assert (∀ d, d ∈ cols → column_nodes h' rows d = column_nodes h rows d) as Hcn.
  { intros d Hdc. apply list_filter_iff'. intros j Hj. by rewrite (proj2 (Hold j ltac:(by apply (m_node _ _ _ _ Hm)))). }
  assert (column_nodes h' rows c = []) as Hcc.
  { apply filter_none. intros j Hj. rewrite (proj2 (Hold j ltac:(by apply (m_node _ _ _ _ Hm)))). intros E.
    apply (Hne c); [|done]. rewrite <-E. apply hdr. right. by apply Hcols. }
  assert (∀ d, d ∈ cols ++ [c] → d ∈ dom h' ∧ colOf h' d = d) as Hall.
  { intros d [Hdc| ->%list_elem_of_singleton]%elem_of_app; [|by rewrite Hc, decide_True, Hd by done; set_solver].
    destruct (Hhs d Hdc) as [Hdd ?]. destruct (Hold d Hdd) as [? ->]. done. }
  split; [split; try done|by apply mat_frame].
  - intros row Hrow. eapply ring_frame; [|by apply (i_rows _ _ _ _ _ _ _ _ _ Hi row Hrow)]. intros z Hz.
    destruct (row_node z row Hrow Hz). rewrite Hr, Hl, !decide_False by (congruence || by apply Hne). done.
  - apply (ring_append (rightOf h) (leftOf h)); try done; [|by apply (i_head _ _ _ _ _ _ _ _ _ Hi)].
    intros Hin. by destruct (hdr c Hin).
  - split; [|done]. rewrite app_comm_cons. apply NoDup_app. split_and!; [done| |apply NoDup_singleton].
    intros x Hx ->%list_elem_of_singleton. by destruct (hdr c Hx).
  - intros d [Hdc| ->%list_elem_of_singleton]%elem_of_app; [|rewrite Hcc; cbn; by rewrite Hdn, Hu, !decide_True].
    rewrite Hcn by done. eapply circle_frame; [|by apply (i_vert _ _ _ _ _ _ _ _ _ Hi)]. intros z Hz.
    rewrite Hdn, Hu, !decide_False by (by apply Hne, (node_in _ _ _ _ _ Hm _ _ _ _ d z Hi Hdc)). done.
  - intros d [Hdc| ->%list_elem_of_singleton]%elem_of_app.
    + rewrite Hcn by done. destruct (i_nodes _ _ _ _ _ _ _ _ _ Hi d Hdc) as [? Hns]. split; [done|].
      intros j Hj. destruct (Hns j Hj) as [Hjr ?]. split; [done|].
      by rewrite (proj2 (Hold j ltac:(by apply (m_node _ _ _ _ Hm)))).
    + rewrite Hcc. split; [apply NoDup_nil_2|]. intros j Hj. by apply not_elem_of_nil in Hj.
  - intros d [Hdc| ->%list_elem_of_singleton]%elem_of_app; [|by rewrite Hcc, Hs, decide_True].
    rewrite Hcn, Hs, decide_False by (try done; apply Hne, Hhs, Hdc). by apply (i_size _ _ _ _ _ _ _ _ _ Hi).
Qed.

(** A new node [r] of column [c], in a row of its own. *)
Section AddNode.
Context (c r : ptr) (n : Z) (h' : heap).
Context (Hna : node_added c r n h h') (Hfr : r ∉ dom h) (Hcc : c ∈ cols).
Context (Hsz : Z.of_nat (base.size (dom h')) ≤ kMaxNodes).

Lemma an_old z : z ∈ dom h → z ≠ r ∧ z ∈ dom h' ∧ colOf h' z = colOf h z.
Proof.
  intros Hz. assert (z ≠ r) by (by intros ->). rewrite (na_col _ _ _ _ _ Hna), decide_False, (na_dom _ _ _ _ _ Hna) by done.
  set_solver.
Qed.

Lemma an_new : colOf h' r = c ∧ r ∉ concat rows.
Proof.
  split; [by rewrite (na_col _ _ _ _ _ Hna), decide_True|]. intros Hin. by apply Hfr, (m_node _ _ _ _ Hm).
Qed.

Lemma an_nodes d : column_nodes h' (rows ++ [[r]]) d = column_nodes h rows d ++ if decide (c = d) then [r] else [].
Proof.
  unfold column_nodes. rewrite concat_app, filter_app. f_equal.
  - apply list_filter_iff'. intros j Hj. destruct (an_old j) as (_ & _ & ->); [by apply (m_node _ _ _ _ Hm)|done].
  - change (concat [[r]]) with [r]. by rewrite filter_cons, (proj1 an_new), filter_nil.
Qed.

Lemma an_vert d :
  d ∈ cols → seg (downOf h') (upOf h') d (column_nodes h rows d ++ if decide (c = d) then [r] else []) d.
Proof.
  intros Hdc. pose proof (λ z, node_in _ _ _ _ _ Hm _ _ _ _ d z Hi Hdc) as Hz.
  pose proof (i_vert _ _ _ _ _ _ _ _ _ Hi d Hdc) as Hsg. case_decide as Hcd.
  - subst d. apply (ring_append (downOf h) (upOf h)); [| |apply (na_down _ _ _ _ _ Hna)|apply (na_up _ _ _ _ _ Hna)|done].
    + apply NoDup_cons. split; [|apply (i_nodes _ _ _ _ _ _ _ _ _ Hi c Hdc)].
      intros [_ Hin]%list_elem_of_filter. destruct (m_node _ _ _ _ Hm c Hin) as (_ & Hne & _). destruct Hne.
      by apply (Hz c (list_elem_of_here _ _)).
    + intros [Hrd _]%Hz. done.
  - rewrite app_nil_r. pose proof (node_in _ _ _ _ _ Hm _ _ _ _ c (upOf h c) Hi Hcc) as [_ Huc];
      [eapply seg_last, (i_vert _ _ _ _ _ _ _ _ _ Hi c Hcc)|].
    pose proof (node_in _ _ _ _ _ Hm _ _ _ _ c c Hi Hcc (list_elem_of_here _ _)) as [_ Hch].
    eapply circle_frame; [|exact Hsg]. intros z [Hzd Hzc]%Hz. destruct (an_old z Hzd) as (? & _ & _).
    rewrite (na_down _ _ _ _ _ Hna), (na_up _ _ _ _ _ Hna), !decide_False by congruence. done.
Qed.

Lemma add_node_mat : mat root (rows ++ [[r]]) h'.
Proof.
  destruct (mat_frame h') as [Hmn Hmr Hmd Hmrt _]; [apply an_old|done|]. destruct an_new as [Hrc Hrr].
  destruct (i_heads _ _ _ _ _ _ _ _ _ Hi) as [_ Hhs]. destruct (Hhs c Hcc) as [Hcd Hch].
  destruct (an_old c Hcd) as (Hcr & Hcd' & Hcc'). split; try done.
  - rewrite concat_app. apply NoDup_app. cbn. split_and!; [done| |apply NoDup_singleton].
    intros j Hj ->%list_elem_of_singleton. done.
  - intros row [Hrow|Hrow%list_elem_of_singleton]%elem_of_app; [by apply Hmr|]. subst. apply NoDup_singleton.
  - intros j. rewrite concat_app. cbn. intros [Hj| ->%list_elem_of_singleton]%elem_of_app; [by apply Hmd|].
    rewrite Hrc, Hcc'. split_and!; [rewrite (na_dom _ _ _ _ _ Hna); set_solver|done|done].
Qed.

Lemma add_node_inv : inv root (rows ++ [[r]]) h' cols ∧ mat root (rows ++ [[r]]) h'.
Proof.
  split; [|apply add_node_mat]. pose proof an_new as [Hrc Hrr]. destruct (i_heads _ _ _ _ _ _ _ _ _ Hi) as [Hnd Hhs].
  assert (∀ z, z ∈ dom h → rightOf h' z = rightOf h z ∧ leftOf h' z = leftOf h z) as Hlr.
  { intros z (? & _)%an_old. by rewrite (na_right _ _ _ _ _ Hna), (na_left _ _ _ _ _ Hna), !decide_False. }
  assert (∀ d, d ∈ cols → d ∈ dom h' ∧ colOf h' d = d) as Hcs.
  { intros d Hd. destruct (Hhs d Hd) as [Hdd ?]. destruct (an_old d Hdd) as (_ & ? & ->). done. }
  split; try done.
  - intros row [Hrow|Hrow%list_elem_of_singleton]%elem_of_app.
    + eapply ring_frame; [|by apply (i_rows _ _ _ _ _ _ _ _ _ Hi row Hrow)]. intros z Hz. apply Hlr. by eapply row_node.
    + subst. cbn. by rewrite (na_right _ _ _ _ _ Hna), (na_left _ _ _ _ _ Hna), !decide_True.
  - eapply circle_frame; [|by apply (i_head _ _ _ _ _ _ _ _ _ Hi)]. intros z Hz. by apply Hlr, hdr.
  - intros d Hdc. rewrite an_nodes. by apply an_vert.
  - intros d Hdc. rewrite an_nodes. destruct (i_nodes _ _ _ _ _ _ _ _ _ Hi d Hdc) as [Hndd Hns]. split.
    + apply NoDup_app. split_and!; [done| |case_decide; [apply NoDup_singleton|apply NoDup_nil_2]].
      intros j Hj. destruct (Hns j Hj) as [Hjr _]. case_decide; [|apply not_elem_of_nil].
      rewrite list_elem_of_singleton. intros ->. done.
    + intros j. rewrite concat_app, !elem_of_app. intros [Hj|Hj].
      * destruct (Hns j Hj) as [Hjr Ej]. destruct (an_old j) as (_ & _ & ->); [by apply (m_node _ _ _ _ Hm)|auto].
      * case_decide; [|by apply not_elem_of_nil in Hj]. apply list_elem_of_singleton in Hj as ->. subst d.
        split; [right; by left|done].
  - intros d Hdc. rewrite an_nodes, (na_size _ _ _ _ _ Hna), length_app.
    pose proof (i_size _ _ _ _ _ _ _ _ _ Hi d Hdc) as Hsd. destruct (an_old d (proj1 (Hhs d Hdc))) as (? & _).
    destruct (decide (d = c)) as [->|]; [rewrite decide_True by done; cbn; lia|].
    rewrite !decide_False by congruence. cbn. lia.
Qed.
End AddNode.
End Steps.

(** Putting a row of one node at the end of the row before it. *)
Section Join.
Context (root : ptr) (h h' : heap) (cols : list ptr) (R : list (list ptr)) (n0 : ptr) (l : list ptr) (x : ptr).
Context (T : list (list ptr)).
Abbreviation rows := (R ++ (n0 :: l) :: [x] :: T).
Abbreviation rows' := (R ++ (n0 :: l ++ [x]) :: T).
Context (Hi : inv root rows h cols) (Hm : mat root rows h).
Context (Hx : colOf h x ∉ colOf h <$> n0 :: l) (Hpl : put_left_of n0 x h h').

Lemma join_concat : concat rows' = concat rows.
Proof. rewrite !concat_app. cbn. by rewrite <-!app_assoc. Qed.

Lemma join_nodes d : column_nodes h' rows' d = column_nodes h rows d.
Proof. unfold column_nodes. rewrite join_concat. apply list_filter_iff. intros j. by rewrite (pl_col _ _ _ _ Hpl). Qed.

Lemma join_nodup : NoDup (concat rows').
Proof. rewrite join_concat. apply (m_nodup _ _ _ _ Hm). Qed.

Lemma join_row : NoDup ((n0 :: l) ++ [x]) ∧ (∀ z, z ∈ (n0 :: l) ++ [x] → z ∈ concat rows) ∧ leftOf h n0 ∈ n0 :: l.
Proof.
  split_and!.
  - eapply concat_nodup_in; [exact join_nodup|set_solver].
  - intros z Hz. rewrite <-join_concat. apply in_concat. exists (n0 :: l ++ [x]). split; [set_solver|done].
  - eapply seg_last, (i_rows _ _ _ _ _ _ _ _ _ Hi (n0 :: l)). set_solver.
Qed.

Lemma join_other row : row ∈ rows' → row = n0 :: l ++ [x] ∨ (row ∈ rows ∧ ∀ z, z ∈ row → z ∉ (n0 :: l) ++ [x]).
Proof.
  intros Hrow. destruct (decide (row = n0 :: l ++ [x])) as [|Hne]; [by left|right]. split; [set_solver|].
  intros z Hz Hz'. apply Hne. eapply concat_nodup_inj; [exact join_nodup|done|set_solver|done|done].
Qed.

(** Links outside the joined row stay. *)
Lemma join_frame z : z ∉ (n0 :: l) ++ [x] → rightOf h' z = rightOf h z ∧ leftOf h' z = leftOf h z.
Proof.
  intros Hz. destruct join_row as (_ & _ & Hlast). rewrite (pl_right _ _ _ _ Hpl), (pl_left _ _ _ _ Hpl).
  rewrite !decide_False by (intros ->; set_solver). done.
Qed.

Lemma join_rows_mat : mat root rows' h'.
Proof.
  assert (∀ row, colOf h' <$> row = colOf h <$> row) as Hf by (intros row; apply list_fmap_ext; intros; apply (pl_col _ _ _ _ Hpl)).
  split; rewrite ?(pl_dom _ _ _ _ Hpl).
  - apply join_nodup.
  - intros row Hrow. rewrite Hf. destruct (join_other row Hrow) as [->|[? _]]; [|by apply (m_row _ _ _ _ Hm)].
    rewrite app_comm_cons, fmap_app. apply NoDup_app.
    split_and!; [|by intros c Hcc ->%list_elem_of_singleton|apply NoDup_singleton]. apply (m_row _ _ _ _ Hm). set_solver.
  - intros j. rewrite join_concat, !(pl_col _ _ _ _ Hpl). apply (m_node _ _ _ _ Hm).
  - rewrite (pl_col _ _ _ _ Hpl). apply (m_root _ _ _ _ Hm).
  - apply (m_size _ _ _ _ Hm).
Qed.

Lemma join_rows_inv : inv root rows' h' cols ∧ mat root rows' h'.
Proof.
  split; [|apply join_rows_mat]. destruct (i_heads _ _ _ _ _ _ _ _ _ Hi) as [Hhn Hhs].
  destruct join_row as (Hnd0 & Hin & _). pose proof Hnd0 as (Hnd1 & Hnx & _)%NoDup_app. split; try done.
  - intros row [->|[Hrow Hz]]%join_other.
    + apply (ring_append (rightOf h) (leftOf h)); [done| |apply (pl_right _ _ _ _ Hpl)|apply (pl_left _ _ _ _ Hpl)|].
      * intros Hxl. apply (Hnx x Hxl). by left.
      * apply (i_rows _ _ _ _ _ _ _ _ _ Hi (n0 :: l)). set_solver.
    + eapply ring_frame; [|by apply (i_rows _ _ _ _ _ _ _ _ _ Hi row Hrow)]. intros z ?. by apply join_frame, Hz.
  - eapply circle_frame; [|by apply (i_head _ _ _ _ _ _ _ _ _ Hi)]. intros z Hz. apply join_frame.
    intros Hz'%Hin. destruct (m_node _ _ _ _ Hm z Hz') as (_ & Hne & _). destruct Hne.
    by apply (header_in _ _ _ _ _ Hm _ _ _ _ _ Hi).
  - split; [done|]. intros c. rewrite (pl_dom _ _ _ _ Hpl), (pl_col _ _ _ _ Hpl). apply Hhs.
  - intros c. rewrite (pl_dom _ _ _ _ Hpl), (pl_col _ _ _ _ Hpl). apply Hhs.
  - intros c Hcc. rewrite join_nodes. eapply circle_frame; [|by apply (i_vert _ _ _ _ _ _ _ _ _ Hi)].
    intros z _. by rewrite (pl_down _ _ _ _ Hpl), (pl_up _ _ _ _ Hpl).
  - intros c Hcc. rewrite join_nodes, join_concat. destruct (i_nodes _ _ _ _ _ _ _ _ _ Hi c Hcc) as [? Hns].
    split; [done|]. intros j Hj. rewrite (pl_col _ _ _ _ Hpl). by apply Hns.
  - intros c Hcc. rewrite join_nodes, (pl_size _ _ _ _ Hpl). by apply (i_size _ _ _ _ _ _ _ _ _ Hi).
Qed.
End Join.

End Solver.
