(* ===== verification/SudokuBuild.v ===== *)
(** * Building the matrix: append_column, new_row and the constructor of SudokuSolver

    The matrix is described by names alone: the names of its columns and, row by row, of its
    nodes. The constructor is shown to build the matrix of the board. *)

From S2P Require Import Prelude DancingLinks ExactCover SudokuSolver.
Import DLX XC Solver.

Module Build.

Definition names (h : heap) (rows : list (list ptr)) : list (list Z) := (λ row : list ptr, nameOf h <$> row) <$> rows.

(** The solver holds a matrix with columns named [cn] and rows named [rn]. *)
Definition made (s : solver) (cn : list Z) (rn : list (list Z)) : Prop :=
  ∃ cols rows, built s cols rows ∧ nameOf (nodes_ s) <$> cols = cn ∧ names (nodes_ s) rows = rn.

Lemma concat_names h rows : concat (names h rows) = nameOf h <$> concat rows.
Proof. unfold names. induction rows as [|row rows IH]; cbn; [done|]. by rewrite IH, fmap_app. Qed.

Lemma fmap_ext_in {A B} (f g : A → B) (l : list A) : (∀ x, x ∈ l → f x = g x) → f <$> l = g <$> l.
Proof. intros Hl. apply Forall_fmap_ext_1, Forall_forall. done. Qed.

Lemma names_ext h h' rows : (∀ z, z ∈ concat rows → nameOf h' z = nameOf h z) → names h' rows = names h rows.
Proof.
  intros Hn. apply fmap_ext_in. intros row Hrow. apply fmap_ext_in. intros z Hz. apply Hn, in_concat. eauto.
Qed.

Section Ops.
Context (s : solver) (cols : list ptr) (rows : list (list ptr)) (Hb : built s cols rows).

Lemma b_fresh : cur_node_ s ∉ dom (nodes_ s).
Proof. rewrite (b_dom _ _ _ Hb). lia. Qed.

Lemma b_size (h' : heap) :
  dom h' = {[cur_node_ s]} ∪ dom (nodes_ s) → cur_node_ s < kMaxNodes →
  Z.of_nat (base.size (dom h')) ≤ kMaxNodes ∧ ∀ z, z ∈ dom h' ↔ 0 ≤ z < cur_node_ s + 1.
Proof.
  intros Hd Hc. pose proof (b_cur _ _ _ Hb).
  assert (∀ z, z ∈ dom h' ↔ 0 ≤ z < cur_node_ s + 1) as Hz.
  { intros z. rewrite Hd, elem_of_union, elem_of_singleton, (b_dom _ _ _ Hb). lia. }
  split; [|done]. rewrite (dom_size h' (cur_node_ s + 1)) by (lia || done). lia.
Qed.

Lemma append_column_built n :
  0 ≤ n < 400 → columns_ s !! n = None → cur_node_ s < kMaxNodes →
  ∃ s', append_column n s = Ok s' ∧ built s' (cols ++ [cur_node_ s]) rows ∧ inout_ s' = inout_ s ∧
        (∀ z, nameOf (nodes_ s') z = if decide (z = cur_node_ s) then n else nameOf (nodes_ s) z).
Proof.
  intros Hn Hnone Hcur. unfold append_column, column.
  destruct (Z.leb_spec 0 n); [|lia]. destruct (Z.ltb_spec n 400); [|lia]. cbn [andb mbind res_bind].
  rewrite bool_decide_true by done. cbn [assert_ mbind res_bind]. unfold new_column.
  destruct (Z.ltb_spec (cur_node_ s) kMaxNodes); [|lia]. cbn [assert_ mbind res_bind root_].
  pose proof Hb as [Hi Hm Hd Hcs Hnd Hcu Hst]. destruct (m_root _ _ _ _ Hm) as [Hrd _].
  pose proof (seg_last _ _ _ _ _ (i_head _ _ _ _ _ _ _ _ _ Hi)) as [Hld _]%(built_header _ _ _ Hb).
  destruct (add_column_run (root_ s) (cur_node_ s) n (nodes_ s) b_fresh Hrd Hld) as (h' & Hrun & Hca).
  unfold on_nodes. cbn [nodes_]. rewrite Hrun. cbn [mbind res_bind].
  destruct (b_size h' (ca_dom _ _ _ _ _ Hca) Hcur) as [Hsz Hdom].
  eexists. split; [done|]. cbn. split_and!; [|done|apply (ca_name _ _ _ _ _ Hca)].
  destruct (add_column_inv _ _ _ _ Hi Hm (λ j Hj, proj1 (Hnd j Hj)) _ _ _ Hca b_fresh Hsz) as [Hi' Hm'].
  assert (∀ z, z ∈ dom (nodes_ s) → nameOf h' z = nameOf (nodes_ s) z ∧ colOf h' z = colOf (nodes_ s) z) as Hold.
  { intros z Hz. rewrite (ca_name _ _ _ _ _ Hca), (ca_col _ _ _ _ _ Hca), !decide_False by (by apply (built_fresh _ _ _ Hb)). done. }
  assert (∀ c, c ∈ cols → c ∈ dom (nodes_ s)) as Hcd by (intros c Hc; apply (built_header _ _ _ Hb); by right).
  split; try done; cbn.
  - intros m c. destruct (decide (m = n)) as [->|Hne].
    + rewrite lookup_insert_eq. split; [intros [= <-]|].
      * split; [set_solver|]. by rewrite (ca_name _ _ _ _ _ Hca), decide_True.
      * intros [[Hc| ->%list_elem_of_singleton]%elem_of_app E]; [|done]. exfalso.
        rewrite (proj1 (Hold c (Hcd c Hc))) in E. rewrite (proj2 (Hcs n c)) in Hnone by done. done.
    + rewrite lookup_insert_ne, Hcs by done. split.
      * intros [Hc E]. rewrite (proj1 (Hold c (Hcd c Hc))). set_solver.
      * intros [[Hc| ->%list_elem_of_singleton]%elem_of_app E].
        -- by rewrite (proj1 (Hold c (Hcd c Hc))) in E.
        -- rewrite (ca_name _ _ _ _ _ Hca), decide_True in E by done. congruence.
  - intros j Hj. destruct (Hnd j Hj) as [Hjc E]. destruct (m_node _ _ _ _ Hm j Hj) as (Hjd & _).
    rewrite (proj2 (Hold j Hjd)), (proj1 (Hold j Hjd)), (proj1 (Hold _ (Hcd _ Hjc))). split; [set_solver|done].
  - rewrite length_app, Hcu. cbn. lia.
Qed.

Lemma new_row_built n c :
  0 ≤ n < 400 → columns_ s !! n = Some c → cur_node_ s < kMaxNodes →
  ∃ s', new_row n s = Ok (cur_node_ s, s') ∧ built s' cols (rows ++ [[cur_node_ s]]) ∧ inout_ s' = inout_ s ∧
        columns_ s' = columns_ s ∧ cur_node_ s' = cur_node_ s + 1 ∧
        (∀ z, nameOf (nodes_ s') z = if decide (z = cur_node_ s) then n else nameOf (nodes_ s) z) ∧
        (∀ z, colOf (nodes_ s') z = if decide (z = cur_node_ s) then c else colOf (nodes_ s) z).
Proof.
  intros Hn Hsome Hcur. unfold new_row, column.
  destruct (Z.leb_spec 0 n); [|lia]. destruct (Z.ltb_spec n 400); [|lia]. cbn [andb mbind res_bind]. rewrite Hsome.
  destruct (Z.ltb_spec (cur_node_ s) kMaxNodes); [|lia]. cbn [assert_ mbind res_bind].
  pose proof Hb as [Hi Hm Hd Hcs Hnd Hcu Hst]. destruct (proj1 (Hcs n c) Hsome) as [Hcc Hcn].
  assert (∀ c, c ∈ cols → c ∈ dom (nodes_ s)) as Hcd by (intros d Hc; apply (built_header _ _ _ Hb); by right).
  assert (upOf (nodes_ s) c ∈ dom (nodes_ s)) as Hud.
  { pose proof (seg_last _ _ _ _ _ (i_vert _ _ _ _ _ _ _ _ _ Hi c Hcc)) as Hl.
    apply (node_in _ _ _ _ _ Hm _ _ _ _ c _ Hi Hcc Hl). }
  destruct (add_node_run c (cur_node_ s) n (nodes_ s) b_fresh (Hcd c Hcc) Hud) as (h' & Hrun & Hna).
  unfold on_nodes. cbn [nodes_]. rewrite Hrun. cbn [mbind res_bind].
  destruct (b_size h' (na_dom _ _ _ _ _ Hna) Hcur) as [Hsz Hdom].
  eexists. split; [done|]. cbn. split_and!; [|done|done|done|apply (na_name _ _ _ _ _ Hna)|apply (na_col _ _ _ _ _ Hna)].
  destruct (add_node_inv _ _ _ _ Hi Hm (λ j Hj, proj1 (Hnd j Hj)) _ _ _ _ Hna b_fresh Hcc Hsz) as [Hi' Hm'].
  assert (∀ z, z ∈ dom (nodes_ s) → nameOf h' z = nameOf (nodes_ s) z ∧ colOf h' z = colOf (nodes_ s) z) as Hold.
  { intros z Hz. rewrite (na_name _ _ _ _ _ Hna), (na_col _ _ _ _ _ Hna), !decide_False by (by apply (built_fresh _ _ _ Hb)). done. }
  split; try done; cbn.
  - intros m d. rewrite Hcs. split; intros [Hc E]; (split; [done|]); rewrite <-E, (proj1 (Hold d (Hcd d Hc))); done.
  - intros j. rewrite concat_app. cbn. intros [Hj| ->%list_elem_of_singleton]%elem_of_app.
    + destruct (Hnd j Hj) as [Hjc E]. destruct (m_node _ _ _ _ Hm j Hj) as (Hjd & _).
      by rewrite (proj2 (Hold j Hjd)), (proj1 (Hold j Hjd)), (proj1 (Hold _ (Hcd _ Hjc))).
    + rewrite (na_col _ _ _ _ _ Hna), decide_True, (proj1 (Hold c (Hcd c Hcc))) by done.
      by rewrite (na_name _ _ _ _ _ Hna), decide_True.
  - rewrite concat_app, length_app, Hcu. cbn. lia.
Qed.
End Ops.

Lemma join_built s cols R n0 l x T :
  built s cols (R ++ (n0 :: l) :: [x] :: T) → colOf (nodes_ s) x ∉ colOf (nodes_ s) <$> n0 :: l →
  ∃ s', on_nodes (put_left n0 x) s = Ok s' ∧ built s' cols (R ++ (n0 :: l ++ [x]) :: T) ∧ inout_ s' = inout_ s ∧
        (∀ z, nameOf (nodes_ s') z = nameOf (nodes_ s) z) ∧ (∀ z, colOf (nodes_ s') z = colOf (nodes_ s) z).
Proof.
  intros Hb Hx. pose proof Hb as [Hi Hm Hd Hcs Hnd Hcu Hst].
  set (rows := R ++ (n0 :: l) :: [x] :: T) in *.
  assert (concat (R ++ (n0 :: l ++ [x]) :: T) = concat rows) as Hcat.
  { unfold rows. rewrite !concat_app. cbn. by rewrite <-!app_assoc. }
  assert (∀ z, z ∈ n0 :: l ++ [x] → z ∈ dom (nodes_ s)) as Hin.
  { intros z Hz. apply (m_node _ _ _ _ Hm). rewrite <-Hcat. apply in_concat.
    exists (n0 :: l ++ [x]). split; [set_solver|done]. }
  pose proof (i_rows _ _ _ _ _ _ _ _ _ Hi (n0 :: l) ltac:(unfold rows; set_solver)) as Hring. cbn in Hring.
  pose proof (seg_last _ _ _ _ _ Hring) as Hlast.
  assert (NoDup ((n0 :: l) ++ [x])) as (_ & Hnx & _)%NoDup_app.
  { pose proof (m_nodup _ _ _ _ Hm) as Hn. rewrite <-Hcat in Hn. eapply concat_nodup_in; [exact Hn|set_solver]. }
  destruct (put_left_run n0 x (nodes_ s)) as (h' & Hrun & Hpl); [apply Hin; set_solver..| | |].
  { intros ->. apply (Hnx n0); set_solver. }
  { intros E. rewrite E in Hlast. apply (Hnx x Hlast). set_solver. }
  unfold on_nodes. rewrite Hrun. cbn. eexists. split; [done|]. cbn.
  split_and!; [|done|apply (pl_name _ _ _ _ Hpl)|apply (pl_col _ _ _ _ Hpl)].
  destruct (join_rows_inv _ _ _ _ _ _ _ _ _ Hi Hm Hx Hpl) as [Hi' Hm'].
  split; try done; cbn; rewrite ?Hcat; try done.
  - by rewrite (pl_dom _ _ _ _ Hpl).
  - intros n c. by rewrite (pl_name _ _ _ _ Hpl).
  - intros j Hj. rewrite (pl_col _ _ _ _ Hpl), !(pl_name _ _ _ _ Hpl). by apply Hnd.
Qed.

(** ** By names alone *)

Lemma made_lookup s cols rows n :
  built s cols rows → n ∈ nameOf (nodes_ s) <$> cols → ∃ c, columns_ s !! n = Some c.
Proof. intros Hb (c & -> & Hc)%list_elem_of_fmap. exists c. by apply (b_cols _ _ _ Hb). Qed.

Lemma append_column_made s cn rn n :
  made s cn rn → 0 ≤ n < 400 → n ∉ cn → 1 + zlen cn + zlen (concat rn) < kMaxNodes →
  ∃ s', append_column n s = Ok s' ∧ made s' (cn ++ [n]) rn.
Proof.
  intros (cols & rows & Hb & <- & <-) Hn Hni Hroom. rewrite concat_names, !length_fmap in Hroom.
  destruct (append_column_built s cols rows Hb n) as (s' & Hs & Hb' & _ & Hnm); [done| |rewrite (b_cur _ _ _ Hb); lia|].
  { destruct (columns_ s !! n) as [c|] eqn:E; [|done]. apply (b_cols _ _ _ Hb) in E as [Hc E]. destruct Hni.
    rewrite <-E. by apply list_elem_of_fmap_2. }
  exists s'. split; [done|]. exists (cols ++ [cur_node_ s]), rows. split; [done|].
  assert (∀ z, z ∈ dom (nodes_ s) → nameOf (nodes_ s') z = nameOf (nodes_ s) z) as Hold.
  { intros z Hz. rewrite Hnm, decide_False by (by apply (built_fresh _ _ _ Hb)). done. }
  split.
  - rewrite fmap_app. cbn. rewrite Hnm, decide_True by done. f_equal. apply fmap_ext_in.
    intros c Hc. apply Hold, (built_header _ _ _ Hb). by right.
  - apply names_ext. intros z Hz. by apply Hold, (built_node _ _ _ Hb).
Qed.

(** One more node of a row that is being built. *)
Lemma new_row_step s cols rows n :
  built s cols rows → 0 ≤ n < 400 → n ∈ nameOf (nodes_ s) <$> cols → cur_node_ s < kMaxNodes →
  ∃ s', new_row n s = Ok (cur_node_ s, s') ∧ built s' cols (rows ++ [[cur_node_ s]]) ∧
        nameOf (nodes_ s') <$> cols = nameOf (nodes_ s) <$> cols ∧
        (∀ z, z ≠ cur_node_ s → nameOf (nodes_ s') z = nameOf (nodes_ s) z) ∧
        nameOf (nodes_ s') (cur_node_ s) = n ∧ cur_node_ s' = cur_node_ s + 1.
Proof.
  intros Hb Hn Hin Hcur. destruct (made_lookup _ _ _ _ Hb Hin) as [c Hc].
  destruct (new_row_built s cols rows Hb n c) as (s' & Hs & Hb' & _ & _ & Hcu & Hnm & _); [done..|].
  assert (∀ z, z ≠ cur_node_ s → nameOf (nodes_ s') z = nameOf (nodes_ s) z) as Hold.
  { intros z Hz. by rewrite Hnm, decide_False. }
  exists s'. split_and!; [done|done| |done|by rewrite Hnm, decide_True|done].
  apply fmap_ext_in. intros d Hd. apply Hold, (built_fresh _ _ _ Hb), (built_header _ _ _ Hb). by right.
Qed.

(** Nodes of different names are in different columns. *)
Lemma different_columns s cols rows x (l : list ptr) :
  built s cols rows → x ∈ concat rows → (∀ z, z ∈ l → z ∈ concat rows) →
  nameOf (nodes_ s) x ∉ nameOf (nodes_ s) <$> l → colOf (nodes_ s) x ∉ colOf (nodes_ s) <$> l.
Proof.
  intros Hb Hx Hl Hn (z & E & Hz)%list_elem_of_fmap. apply Hn.
  rewrite <-(proj2 (b_node _ _ _ Hb x Hx)), E, (proj2 (b_node _ _ _ Hb z (Hl z Hz))). by apply list_elem_of_fmap_2.
Qed.

Lemma join_step s cols R n0 l x T :
  built s cols (R ++ (n0 :: l) :: [x] :: T) → nameOf (nodes_ s) x ∉ nameOf (nodes_ s) <$> n0 :: l →
  ∃ s', on_nodes (put_left n0 x) s = Ok s' ∧ built s' cols (R ++ (n0 :: l ++ [x]) :: T) ∧
        (∀ z, nameOf (nodes_ s') z = nameOf (nodes_ s) z).
Proof.
  intros Hb Hx. destruct (join_built s cols R n0 l x T Hb) as (s' & ? & ? & _ & ? & _); [|by exists s'].
  eapply different_columns; [exact Hb|..|done]; intros; apply in_concat.
  - exists [x]. set_solver.
  - exists (n0 :: l). set_solver.
Qed.

Lemma append_option_made s cn rn i v :
  let opt := [i; get_row_col (row_of i) v; get_col_col (col_of i) v; get_box_col (box_of i) v] in
  made s cn rn → NoDup opt → (∀ n, n ∈ opt → 0 ≤ n < 400 ∧ n ∈ cn) →
  1 + zlen cn + zlen (concat rn) + 4 ≤ kMaxNodes →
  ∃ s', append_option i v s = Ok s' ∧ made s' cn (rn ++ [opt]).
Proof.
  intros opt (cols & rows & Hb & <- & <-) Hnd Hopt Hroom. rewrite concat_names, !length_fmap in Hroom.
  pose proof (b_cur _ _ _ Hb) as Hcur. unfold append_option. unfold opt in *. clear opt.
  set (n1 := get_row_col (row_of i) v) in *. set (n2 := get_col_col (col_of i) v) in *.
  set (n3 := get_box_col (box_of i) v) in *. clearbody n1 n2 n3.
  destruct (new_row_step s cols rows i) as (s1 & -> & Hb1 & Hc1 & Hr1 & Hx1 & Hcu1); [done|apply Hopt; set_solver..|lia|].
  cbn [mbind res_bind].
  destruct (new_row_step s1 cols _ n1 Hb1) as (s2 & -> & Hb2 & Hc2 & Hr2 & Hx2 & Hcu2);
    [apply Hopt; set_solver|rewrite Hc1; apply Hopt; set_solver|lia|]. cbn [mbind res_bind].
  destruct (new_row_step s2 cols _ n2 Hb2) as (s3 & -> & Hb3 & Hc3 & Hr3 & Hx3 & Hcu3);
    [apply Hopt; set_solver|rewrite Hc2, Hc1; apply Hopt; set_solver|lia|]. cbn [mbind res_bind].
  destruct (new_row_step s3 cols _ n3 Hb3) as (s4 & -> & Hb4 & Hc4 & Hr4 & Hx4 & Hcu4);
    [apply Hopt; set_solver|rewrite Hc3, Hc2, Hc1; apply Hopt; set_solver|lia|]. cbn [mbind res_bind].
  rewrite <-!app_assoc in Hb4. cbn [app] in Hb4. rewrite Hcu3, Hcu2, Hcu1 in *. set (k := cur_node_ s) in *.
  assert (nameOf (nodes_ s4) k = i) as N0 by (rewrite Hr4, Hr3, Hr2 by lia; done).
  assert (nameOf (nodes_ s4) (k + 1) = n1) as N1 by (rewrite Hr4, Hr3 by lia; done).
  assert (nameOf (nodes_ s4) (k + 1 + 1) = n2) as N2 by (rewrite Hr4 by lia; done).
  assert (i ≠ n1 ∧ (n2 ∉ [i; n1]) ∧ (n3 ∉ [i; n1; n2])) as (D1 & D2 & D3).
  { rewrite !NoDup_cons in Hnd. set_solver. }
  destruct (join_step s4 cols rows k [] (k + 1) _ Hb4) as (s5 & -> & Hb5 & E5).
  { cbn. rewrite N0, N1. set_solver. }
  destruct (join_step s5 cols rows k [k + 1] (k + 1 + 1) _ Hb5) as (s6 & Hs6 & Hb6 & E6).
  { cbn. rewrite !E5, N0, N1, N2. done. }
  cbn [mbind res_bind]. rewrite Hs6. cbn [mbind res_bind app] in *.
  destruct (join_step s6 cols rows k [k + 1; k + 1 + 1] (k + 1 + 1 + 1) [] Hb6) as (s7 & -> & Hb7 & E7).
  { cbn. rewrite !E6, !E5, N0, N1, N2, Hx4. done. }
  cbn [app] in Hb7. eexists. split; [done|]. eexists cols, _. split; [exact Hb7|]. split.
  - rewrite <-Hc1, <-Hc2, <-Hc3, <-Hc4. apply fmap_ext_in. intros z _. by rewrite E7, E6, E5.
  - unfold names. rewrite fmap_app. cbn. rewrite !E7, !E6, !E5, N0, N1, N2, Hx4. f_equal.
    apply names_ext. intros z Hz. rewrite E7, E6, E5.
    assert (z ≠ k ∧ z < k) as [? ?].
    { destruct (built_node _ _ _ Hb z Hz) as [Hd%(b_dom _ _ _ Hb) _]. lia. }
    rewrite Hr4, Hr3, Hr2, Hr1 by lia. done.
Qed.

(** ** The matrix of a board *)

Definition val (board : list Z) (i : Z) : Z := board !!! Z.to_nat i.

(** Whether value [v] is given in the row, column or box [k]; [u] is [row_of], [col_of] or
    [box_of]. *)
Definition used (u : Z → Z) (board : list Z) (k v : Z) : bool :=
  existsb (λ i, (u i =? k) && (val board i =? v)) (seqZ 0 81).

Definition cell_names (board : list Z) : list Z := filter (λ i, val board i = 0) (seqZ 0 81).
Definition unit_names_at (board : list Z) (k v : Z) : list Z :=
  (if used row_of board k v then [] else [get_row_col k v]) ++
  (if used col_of board k v then [] else [get_col_col k v]) ++
  (if used box_of board k v then [] else [get_box_col k v]).
Definition unit_names (board : list Z) : list Z :=
  seqZ 0 9 ≫= λ k, seqZ 1 9 ≫= unit_names_at board k.
Definition column_names (board : list Z) : list Z := cell_names board ++ unit_names board.

Definition allowed (board : list Z) (i v : Z) : bool :=
  negb (used row_of board (row_of i) v || used col_of board (col_of i) v || used box_of board (box_of i) v).
Definition options_at (board : list Z) (i : Z) : list (Z * Z) :=
  (λ v, (i, v)) <$> filter (λ v, allowed board i v = true) (seqZ 1 9).
Definition options (board : list Z) : list (Z * Z) := cell_names board ≫= options_at board.
Definition option_names (o : Z * Z) : list Z :=
  [o.1; get_row_col (row_of o.1) o.2; get_col_col (col_of o.1) o.2; get_box_col (box_of o.1) o.2].

Definition board_ok (board : list Z) : Prop := length board = 81%nat ∧ Forall (λ v, 0 ≤ v ≤ 9) board.

Lemma cell_at_val board i : board_ok board → 0 ≤ i < 81 → cell_at board i = Ok (val board i) ∧ 0 ≤ val board i ≤ 9.
Proof.
  intros [Hl Hf] Hi. unfold cell_at, val. destruct (lookup_lt_is_Some_2 board (Z.to_nat i)) as [v Hv]; [lia|].
  rewrite Hv, (list_lookup_total_correct _ _ _ Hv). split; [done|]. by eapply (Forall_lookup_1 _ _ _ _ Hf).
Qed.

Lemma unit_range i : 0 ≤ i < 81 → 0 ≤ row_of i < 9 ∧ 0 ≤ col_of i < 9 ∧ 0 ≤ box_of i < 9.
Proof. intros Hi. unfold box_of, row_of, col_of. dlia. Qed.

Lemma mark_cell_ok (board : list Z) (i : Z) (m : marks * marks * marks) :
  board_ok board → 0 ≤ i < 81 →
  mark_cell board i m = Ok ({[(row_of i, val board i)]} ∪ m.1.1, {[(col_of i, val board i)]} ∪ m.1.2,
                            {[(box_of i, val board i)]} ∪ m.2).
Proof.
  intros Hb Hi. destruct (cell_at_val board i Hb Hi) as [Hc Hv]. destruct (unit_range i Hi) as (H1 & H2 & H3).
  unfold mark_cell. rewrite Hc. cbn [mbind res_bind].
  assert (∀ k m, 0 ≤ k < 9 → mark k (val board i) m = Ok ({[(k, val board i)]} ∪ m)) as Hmk.
  { intros k m' Hk. unfold mark, kCells. replace (_ && _) with true by lia. done. }
  by rewrite !Hmk by done.
Qed.

(** The first loop marks what is used. *)
Lemma marks_spec board :
  board_ok board →
  ∃ m, mfold (mark_cell board) (seqZ 0 kCells) (∅, ∅, ∅) = Ok m ∧
    ∀ k v, marked k v m.1.1 = used row_of board k v ∧ marked k v m.1.2 = used col_of board k v ∧
           marked k v m.2 = used box_of board k v.
Proof.
  intros Hb. unfold used. change kCells with 81.
  assert (∀ l (m0 : marks * marks * marks), (∀ i, i ∈ l → 0 ≤ i < 81) →
    ∃ m, mfold (mark_cell board) l m0 = Ok m ∧ ∀ k v,
      marked k v m.1.1 = marked k v m0.1.1 || existsb (λ i, (row_of i =? k) && (val board i =? v)) l ∧
      marked k v m.1.2 = marked k v m0.1.2 || existsb (λ i, (col_of i =? k) && (val board i =? v)) l ∧
      marked k v m.2 = marked k v m0.2 || existsb (λ i, (box_of i =? k) && (val board i =? v)) l) as Hgen.
  { intros l. induction l as [|i l IH]; intros m0 Hl; cbn [mfold existsb].
    - exists m0. split; [done|]. intros k v. by rewrite !orb_false_r.
    - rewrite mark_cell_ok by (done || (apply Hl; left)). cbn [mbind res_bind].
      destruct (IH ({[(row_of i, val board i)]} ∪ m0.1.1, {[(col_of i, val board i)]} ∪ m0.1.2, {[(box_of i, val board i)]} ∪ m0.2))
        as (m & -> & Hm); [intros; apply Hl; by right|].
      exists m. split; [done|]. intros k v. destruct (Hm k v) as (-> & -> & ->). cbn.
      assert (∀ k' (M : marks), marked k v ({[(k', val board i)]} ∪ M) = marked k v M || ((k' =? k) && (val board i =? v))) as Hu.
      { intros k' M. unfold marked. destruct (Z.eqb_spec k' k), (Z.eqb_spec (val board i) v); cbn; rewrite ?orb_false_r, ?orb_true_r.
        1: apply bool_decide_true; set_solver. all: apply bool_decide_ext; set_solver. }
      rewrite !Hu, !orb_assoc. done. }
  destruct (Hgen (seqZ 0 81) (∅, ∅, ∅)) as (m & -> & Hm); [intros i; rewrite elem_of_seqZ; lia|].
  exists m. split; [done|]. intros k v. destruct (Hm k v) as (-> & -> & ->). done.
Qed.

(** ** The names are distinct, in range and not too many *)

Lemma in_cell_names board n : n ∈ cell_names board ↔ 0 ≤ n < 81 ∧ val board n = 0.
Proof. unfold cell_names. rewrite list_elem_of_filter, elem_of_seqZ. lia. Qed.

Lemma in_unit_names_at board k v n :
  n ∈ unit_names_at board k v ↔
  (n = get_row_col k v ∧ used row_of board k v = false) ∨ (n = get_col_col k v ∧ used col_of board k v = false) ∨
  (n = get_box_col k v ∧ used box_of board k v = false).
Proof. unfold unit_names_at. repeat case_match; set_solver. Qed.

Lemma in_unit_names board n :
  n ∈ unit_names board ↔ ∃ k v, 0 ≤ k < 9 ∧ 1 ≤ v < 10 ∧ n ∈ unit_names_at board k v.
Proof.
  unfold unit_names. rewrite list_elem_of_bind. setoid_rewrite list_elem_of_bind. setoid_rewrite elem_of_seqZ. naive_solver lia.
Qed.

Ltac unfold_names := unfold get_row_col, get_col_col, get_box_col, kRow, kCol, kBox in *.

Lemma column_names_range board n : n ∈ column_names board → 0 ≤ n < 400.
Proof.
  unfold column_names. rewrite elem_of_app, in_cell_names, in_unit_names. setoid_rewrite in_unit_names_at. unfold_names.
  intros [?|(k & v & ? & ? & ?)]; lia.
Qed.

Lemma column_names_nodup board : NoDup (column_names board).
Proof.
  unfold column_names. apply NoDup_app. split_and!.
  - apply NoDup_filter, NoDup_seqZ.
  - intros n. rewrite in_cell_names, in_unit_names. setoid_rewrite in_unit_names_at. unfold_names.
    intros ? (k & v & ? & ? & ?). lia.
  - apply NoDup_bind; [|intros k _; apply NoDup_bind; [| |apply NoDup_seqZ]|apply NoDup_seqZ].
    + intros k1 k2 n Hk1%elem_of_seqZ Hk2%elem_of_seqZ. rewrite !list_elem_of_bind.
      intros (v1 & H1 & Hv1%elem_of_seqZ) (v2 & H2 & Hv2%elem_of_seqZ). apply in_unit_names_at in H1, H2.
      unfold_names. lia.
    + intros v1 v2 n Hv1%elem_of_seqZ Hv2%elem_of_seqZ H1 H2. apply in_unit_names_at in H1, H2. unfold_names. lia.
    + intros v _. unfold unit_names_at, get_row_col, get_col_col, get_box_col, kRow, kCol, kBox.
      repeat case_match; cbn [app]; rewrite ?NoDup_cons, ?not_elem_of_cons; split_and?; try lia;
        try apply not_elem_of_nil; apply NoDup_nil_2.
Qed.

Lemma length_bind_le {A B} (f : A → list B) (l : list A) (b : nat) :
  (∀ x, x ∈ l → length (f x) ≤ b)%nat → (length (l ≫= f) ≤ length l * b)%nat.
Proof.
  induction l as [|x l IH]; intros Hl; cbn; [done|]. rewrite length_app.
  pose proof (Hl x (list_elem_of_here _ _)). specialize (IH (λ y Hy, Hl y (list_elem_of_further _ _ _ Hy))).
  lia.
Qed.

Lemma cell_names_length board : (length (cell_names board) ≤ 81)%nat.
Proof. unfold cell_names. pose proof (length_filter (λ i, val board i = 0) (seqZ 0 81)). by rewrite length_seqZ in *. Qed.

Lemma column_names_length board : (length (column_names board) ≤ 324)%nat.
Proof.
  unfold column_names. rewrite length_app. pose proof (cell_names_length board).
  assert (length (unit_names board) ≤ length (seqZ 0 9) * 27)%nat as Hu.
  { apply length_bind_le. intros k _. change 27%nat with (length (seqZ 1 9) * 3)%nat. apply length_bind_le. intros v _.
    unfold unit_names_at. repeat case_match; cbn; lia. }
  rewrite length_seqZ in Hu. lia.
Qed.

Lemma in_options board i v :
  (i, v) ∈ options board ↔ (0 ≤ i < 81 ∧ val board i = 0) ∧ 1 ≤ v < 10 ∧ allowed board i v = true.
Proof.
  unfold options. rewrite list_elem_of_bind. setoid_rewrite in_cell_names. unfold options_at.
  setoid_rewrite list_elem_of_fmap. setoid_rewrite list_elem_of_filter. setoid_rewrite elem_of_seqZ. split.
  - intros (i' & (v' & [= -> ->] & ? & ?) & ?). naive_solver lia.
  - intros (? & ? & ?). exists i. split; [|done]. exists v. naive_solver lia.
Qed.

Lemma option_names_ok board o :
  o ∈ options board → NoDup (option_names o) ∧ ∀ n, n ∈ option_names o → 0 ≤ n < 400 ∧ n ∈ column_names board.
Proof.
  destruct o as [i v]. intros (Hi & Hv & Ha)%in_options. unfold allowed in Ha.
  apply negb_true_iff in Ha as [[Hr Hc]%orb_false_iff Hb]%orb_false_iff.
  destruct (unit_range i (proj1 Hi)) as (Hrr & Hcr & Hbr). split.
  - unfold option_names. cbn. unfold_names. rewrite !NoDup_cons, !not_elem_of_cons.
    split_and!; try lia; try apply not_elem_of_nil. apply NoDup_nil_2.
  - intros n Hn. assert (n ∈ column_names board) as Hin; [|split; [by eapply column_names_range|done]].
    unfold column_names. rewrite elem_of_app, in_cell_names, in_unit_names. setoid_rewrite in_unit_names_at.
    unfold option_names in Hn. cbn in Hn. rewrite !elem_of_cons in Hn. destruct Hn as [->|[->|[->|[->|Hn]]]].
    + by left.
    + right. exists (row_of i), v. naive_solver lia.
    + right. exists (col_of i), v. naive_solver lia.
    + right. exists (box_of i), v. naive_solver lia.
    + by apply not_elem_of_nil in Hn.
Qed.

Lemma options_length board : (length (options board) ≤ 729)%nat.
Proof.
  pose proof (cell_names_length board).
  assert (length (options board) ≤ length (cell_names board) * 9)%nat; [|lia].
  apply length_bind_le. intros i _. unfold options_at. rewrite length_fmap.
  pose proof (length_filter (λ v, allowed board i v = true) (seqZ 1 9)). by rewrite length_seqZ in *.
Qed.

(** ** The loops *)

Ltac inv_bind :=
  repeat match goal with
  | H : _ ≫= _ = Ok _ |- _ => apply bind_Ok in H; destruct H as (? & ? & ?)
  | x : _ * solver |- _ => destruct x
  | H : Ok _ = Ok _ |- _ => injection H as H
  | H : context [if ?b then _ else _] |- _ => destruct b eqn:?; try done
  | H : context [match ?o with Some _ => _ | None => _ end] |- _ => destruct o; try done
  end.

Lemma on_nodes_inout f s s' : on_nodes f s = Ok s' → inout_ s' = inout_ s.
Proof. unfold on_nodes. intros H. inv_bind. by subst. Qed.

Lemma append_column_inout n s s' : append_column n s = Ok s' → inout_ s' = inout_ s.
Proof.
  unfold append_column, new_column. intros H. inv_bind. subst. cbn. simplify_eq.
  match goal with H : on_nodes _ _ = Ok _ |- _ => apply on_nodes_inout in H end. done.
Qed.

Lemma new_row_inout n s r s' : new_row n s = Ok (r, s') → inout_ s' = inout_ s.
Proof.
  unfold new_row. intros H. inv_bind. simplify_eq.
  match goal with H : on_nodes _ _ = Ok _ |- _ => apply on_nodes_inout in H end. done.
Qed.

Lemma append_option_inout o s s' : append_option o.1 o.2 s = Ok s' → inout_ s' = inout_ s.
Proof.
  unfold append_option. intros H. inv_bind.
  repeat match goal with
  | H : new_row _ _ = Ok _ |- _ => apply new_row_inout in H
  | H : on_nodes _ _ = Ok _ |- _ => apply on_nodes_inout in H
  end. congruence.
Qed.

(** A loop whose every turn does some of the operations [k] does them all in order. *)
Lemma mfold_flat {A B} (f : A → solver → res solver) (g : A → list B) (k : B → solver → res solver) board l s :
  (∀ x s s', k x s = Ok s' → inout_ s' = inout_ s) →
  (∀ x s, x ∈ l → inout_ s = board → f x s = mfold k (g x) s) →
  inout_ s = board → mfold f l s = mfold k (l ≫= g) s.
Proof.
  intros Hk Hf. revert s. induction l as [|x l IH]; intros s Hs; [done|]. cbn. rewrite mfold_app, Hf by (done || by left).
  destruct (mfold k (g x) s) as [s'|e] eqn:E; [|done]. cbn. apply IH; [intros; apply Hf; [by right|done]|].
  eapply (mfold_inv (λ t, inout_ t = board)); [|exact Hs|exact E]. intros y t t' _ Ht Hy. rewrite <-Ht. by eapply Hk.
Qed.

Lemma append_columns_made ns s cn rn :
  made s cn rn → NoDup (cn ++ ns) → (∀ n, n ∈ ns → 0 ≤ n < 400) →
  1 + zlen (cn ++ ns) + zlen (concat rn) ≤ kMaxNodes →
  ∃ s', mfold append_column ns s = Ok s' ∧ made s' (cn ++ ns) rn ∧ inout_ s' = inout_ s.
Proof.
  revert s cn. induction ns as [|n ns IH]; intros s cn Hm Hnd Hr Hroom.
  - exists s. by rewrite app_nil_r.
  - rewrite cons_middle, app_assoc in Hnd, Hroom |- *. pose proof Hnd as (Hn1 & _ & _)%NoDup_app.
    apply NoDup_app in Hn1 as (_ & Hn1 & _). rewrite !length_app in Hroom. cbn in Hroom.
    destruct (append_column_made s cn rn n) as (s1 & Hs1 & Hm1); [done|apply Hr; by left| |lia|].
    { intros Hin. apply (Hn1 n Hin). by left. }
    cbn [mfold]. rewrite Hs1. cbn [mbind res_bind].
    destruct (IH s1 (cn ++ [n])) as (s' & ? & ? & Hio); [done|done|intros; apply Hr; by right| |].
    { rewrite !length_app. cbn. lia. }
    exists s'. split_and!; [done|done|]. rewrite Hio. by eapply append_column_inout.
Qed.

Lemma append_options_made os s cn rn :
  made s cn rn → (∀ o, o ∈ os → NoDup (option_names o) ∧ ∀ n, n ∈ option_names o → 0 ≤ n < 400 ∧ n ∈ cn) →
  1 + zlen cn + zlen (concat rn) + 4 * zlen os ≤ kMaxNodes →
  ∃ s', mfold (λ o, append_option o.1 o.2) os s = Ok s' ∧ made s' cn (rn ++ (option_names <$> os)) ∧ inout_ s' = inout_ s.
Proof.
  revert s rn. induction os as [|o os IH]; intros s rn Hm Ho Hroom.
  - exists s. by rewrite app_nil_r.
  - cbn in Hroom. destruct (Ho o) as [Hnd Hin]; [by left|].
    destruct (append_option_made s cn rn o.1 o.2) as (s1 & Hs1 & Hm1); [done|done|done|lia|].
    cbn [mfold fmap list_fmap]. rewrite Hs1. cbn [mbind res_bind].
    destruct (IH s1 (rn ++ [option_names o])) as (s' & ? & Hm' & Hio); [done|intros; apply Ho; by right| |].
    { rewrite concat_app, length_app. cbn. lia. }
    exists s'. split_and!; [done|by rewrite <-app_assoc in Hm'|]. rewrite Hio. by eapply append_option_inout.
Qed.

Lemma filter_bind {A} (P : A → Prop) `{∀ x, Decision (P x)} (l : list A) :
  filter P l = l ≫= λ x, if decide (P x) then [x] else [].
Proof. induction l as [|x l IH]; [done|]. rewrite filter_cons. cbn. rewrite IH. by case_decide. Qed.

Lemma cells_loop board s :
  board_ok board → inout_ s = board → mfold append_cell (seqZ 0 kCells) s = mfold append_column (cell_names board) s.
Proof.
  intros Hb Hs. unfold cell_names. rewrite filter_bind. apply (mfold_flat _ _ _ board); [apply append_column_inout| |done].
  intros i s' Hi%elem_of_seqZ Hs'. unfold append_cell. rewrite Hs', (proj1 (cell_at_val board i Hb ltac:(unfold kCells in *; lia))).
  cbn [mbind res_bind]. destruct (Z.eqb_spec (val board i) 0); case_decide; try done. cbn. by destruct (append_column i s').
Qed.

Lemma units_loop board m s :
  (∀ k v, marked k v m.1.1 = used row_of board k v ∧ marked k v m.1.2 = used col_of board k v ∧
          marked k v m.2 = used box_of board k v) →
  inout_ s = board → mfold (append_units m) (seqZ 0 9) s = mfold append_column (unit_names board) s.
Proof.
  intros Hm Hs. apply (mfold_flat _ _ _ board); [apply append_column_inout| |done]. intros k s1 _ Hs1.
  apply (mfold_flat _ _ _ board); [apply append_column_inout| |done]. intros v s2 _ _.
  destruct (Hm k v) as (-> & -> & ->). unfold unit_names_at.
  assert (∀ n t, mfold append_column [n] t = append_column n t) as H1 by (intros n t; cbn; by destruct (append_column n t)).
  destruct (used row_of board k v), (used col_of board k v), (used box_of board k v); cbn [negb app mbind res_bind];
    rewrite ?mfold_cons, ?H1; try done; destruct (append_column _ s2) as [s3|]; cbn [mbind res_bind]; rewrite ?H1; try done;
    rewrite ?mfold_cons; destruct (append_column _ s3) as [s4|]; cbn [mbind res_bind mfold]; try done;
    by destruct (append_column _ s4).
Qed.

Lemma bind_filter {A B} (P : A → Prop) `{∀ x, Decision (P x)} (f : A → list B) (l : list A) :
  filter P l ≫= f = l ≫= λ x, if decide (P x) then f x else [].
Proof. induction l as [|x l IH]; [done|]. rewrite filter_cons. cbn. rewrite <-IH. by case_decide. Qed.

Lemma fmap_filter {A B} (P : A → Prop) `{∀ x, Decision (P x)} (f : A → B) (l : list A) :
  f <$> filter P l = l ≫= λ x, if decide (P x) then [f x] else [].
Proof. induction l as [|x l IH]; [done|]. rewrite filter_cons. cbn. rewrite <-IH. by case_decide. Qed.

Lemma options_loop board m s :
  board_ok board →
  (∀ k v, marked k v m.1.1 = used row_of board k v ∧ marked k v m.1.2 = used col_of board k v ∧
          marked k v m.2 = used box_of board k v) →
  inout_ s = board →
  mfold (append_options m) (seqZ 0 kCells) s = mfold (λ o, append_option o.1 o.2) (options board) s.
Proof.
  intros Hb Hm Hs. unfold options, cell_names. rewrite bind_filter.
  apply (mfold_flat _ _ _ board); [apply append_option_inout| |done].
  intros i s1 Hi%elem_of_seqZ Hs1. unfold append_options.
  rewrite Hs1, (proj1 (cell_at_val board i Hb ltac:(unfold kCells in *; lia))). cbn [mbind res_bind].
  destruct (Z.eqb_spec (val board i) 0); case_decide; try done. unfold options_at. rewrite fmap_filter.
  apply (mfold_flat _ _ _ board); [apply append_option_inout| |done]. intros v s2 _ _.
  destruct (Hm (row_of i) v) as (-> & _). destruct (Hm (col_of i) v) as (_ & -> & _).
  destruct (Hm (box_of i) v) as (_ & _ & ->). fold (allowed board i v).
  destruct (allowed board i v); case_decide; try done. cbn. by destruct (append_option i v s2).
Qed.

(** ** The constructor *)

Definition empty_solver (board : list Z) : solver :=
  mkSolver 0 board ∅ [] {[0 := mkNode 0 0 0 0 0 0 0]} 1.

Lemma empty_made board : made (empty_solver board) [] [].
Proof.
  exists [], []. split; [|done].
  assert (∀ z, z ∈ dom (nodes_ (empty_solver board)) ↔ z = 0) as Hd by (intros z; cbn; rewrite dom_singleton_L; set_solver).
  assert (matrix_ok 0 [] (colOf (nodes_ (empty_solver board))) (dom (nodes_ (empty_solver board)))) as Hm.
  { split; [apply NoDup_nil_2|..].
    - intros row Hr. by apply not_elem_of_nil in Hr.
    - intros j Hj. by apply not_elem_of_nil in Hj.
    - by split; [apply Hd|].
    - cbn. rewrite dom_singleton_L, size_singleton. done. }
  split; try done.
  - split; try done; try (intros c Hc; by apply not_elem_of_nil in Hc).
    split; [apply NoDup_singleton|]. intros c Hc. by apply not_elem_of_nil in Hc.
  - intros z. rewrite Hd. cbn. lia.
  - intros n c. cbn. rewrite lookup_empty. split; [done|]. intros [Hc _]. by apply not_elem_of_nil in Hc.
  - intros j Hj. by apply not_elem_of_nil in Hj.
Qed.

Lemma length_concat_options (l : list (Z * Z)) : length (concat (option_names <$> l)) = (4 * length l)%nat.
Proof. induction l as [|o l IH]; [done|]. cbn. rewrite IH. lia. Qed.

Lemma newSolver_loops board :
  newSolver board =
  (m ← mfold (mark_cell board) (seqZ 0 kCells) (∅, ∅, ∅);
   s ← mfold append_cell (seqZ 0 kCells) (empty_solver board);
   s ← mfold (append_units m) (seqZ 0 9) s;
   mfold (append_options m) (seqZ 0 kCells) s).
Proof. reflexivity. Qed.

(** The constructor succeeds on every board and builds the board's matrix. *)
Lemma newSolver_made board :
  board_ok board →
  ∃ s, newSolver board = Ok s ∧ made s (column_names board) (option_names <$> options board) ∧ inout_ s = board.
Proof.
  intros Hb. rewrite newSolver_loops. destruct (marks_spec board Hb) as (m & -> & Hm). cbn [mbind res_bind].
  pose proof (column_names_nodup board) as Hnd. pose proof (column_names_length board) as Hlen.
  pose proof (options_length board) as Hol.
  rewrite (cells_loop board) by done.
  destruct (append_columns_made (cell_names board) (empty_solver board) [] []) as (s1 & Hs1 & Hm1 & Hio1).
  { apply empty_made. }
  { cbn. unfold column_names in Hnd. by apply NoDup_app in Hnd as (? & _ & _). }
  { intros n Hn. apply (column_names_range board). unfold column_names. set_solver. }
  { unfold column_names in Hlen. rewrite length_app in Hlen. unfold kMaxNodes. cbn. lia. }
  change (inout_ (empty_solver board)) with board in Hio1.
  rewrite Hs1. cbn [mbind res_bind app] in *. rewrite (units_loop board) by done.
  destruct (append_columns_made (unit_names board) s1 (cell_names board) []) as (s2 & Hs2 & Hm2 & Hio2); [done|done|..].
  { intros n Hn. apply (column_names_range board). unfold column_names. set_solver. }
  { fold (column_names board). unfold kMaxNodes. cbn. lia. }
  rewrite Hs2. cbn [mbind res_bind]. rewrite (options_loop board) by (done || congruence).
  destruct (append_options_made (options board) s2 (column_names board) []) as (s3 & -> & Hm3 & Hio3); [done|..].
  { apply option_names_ok. }
  { unfold kMaxNodes. cbn. lia. }
  exists s3. split_and!; [done|done|congruence].
Qed.

End Build.
