(* ===== verification/SudokuRules.v ===== *)
(** * solveSudoku solves Sudoku

    The exact covers of the matrix the constructor builds are the solutions of the puzzle, so
    that with the search of ExactCover [solveSudoku] answers with a solution when there is one
    and with NoSolution when there is none. *)

From S2P Require Import Prelude DancingLinks ExactCover SudokuSolver SudokuBuild.
Import DLX XC Solver Build.

Module Rules.

(** ** From pointers to names *)

(** A choice of options that covers every column of the board's matrix exactly once. *)
Definition covers (board : list Z) (os : list (Z * Z)) : Prop :=
  (∀ o, o ∈ os → o ∈ options board) ∧ os ≫= option_names ≡ₚ column_names board.

Definition write (b : list Z) (o : Z * Z) : list Z := <[Z.to_nat o.1 := o.2]> b.

Lemma concat_fmap {A B} (f : A → list B) (l : list A) : concat (f <$> l) = l ≫= f.
Proof. induction l as [|x l IH]; cbn; [done|]. by rewrite IH. Qed.

Section Solve.
Context (s : solver) (board : list Z) (cols : list ptr) (rows : list (list ptr)).
Context (Hb : built s cols rows) (Hcn : nameOf (nodes_ s) <$> cols = column_names board).
Context (Hrn : names (nodes_ s) rows = option_names <$> options board).

Abbreviation h := (nodes_ s).

(** Each row is an option, and each option a row. *)
Lemma row_option row : row ∈ rows → ∃ o, o ∈ options board ∧ nameOf h <$> row = option_names o.
Proof.
  intros Hrow. assert (nameOf h <$> row ∈ names h rows) as Hin by (unfold names; by apply (list_elem_of_fmap_2 (λ row, nameOf h <$> row))).
  rewrite Hrn in Hin. apply list_elem_of_fmap in Hin as (o & E & Ho). eauto.
Qed.

Lemma option_row o : o ∈ options board → ∃ row, row ∈ rows ∧ nameOf h <$> row = option_names o.
Proof.
  intros Ho. assert (option_names o ∈ names h rows) as Hin by (rewrite Hrn; by apply list_elem_of_fmap_2).
  apply list_elem_of_fmap in Hin as (row & E & Hrow). eauto.
Qed.

(** The header with a given name. *)
Definition header (n : Z) : ptr := default 0 (columns_ s !! n).

Lemma header_name c : c ∈ cols → header (nameOf h c) = c.
Proof. intros Hc. unfold header. by rewrite (proj2 (b_cols _ _ _ Hb (nameOf h c) c)). Qed.

Lemma header_node j : j ∈ concat rows → header (nameOf h j) = colOf h j.
Proof. intros Hj. destruct (b_node _ _ _ Hb j Hj) as [Hc <-]. by apply header_name. Qed.

Definition first_two (r : ptr) : Z * Z :=
  match list_find (λ row, r ∈ row) rows with Some (_, n0 :: n1 :: _) => (nameOf h n0, nameOf h n1) | _ => (0, 0) end.
Definition cellf (r : ptr) : Z := (first_two r).1.
Definition valf (r : ptr) : Z := Z.rem (first_two r).2 10.

Lemma row_spec row o :
  row ∈ rows → o ∈ options board → nameOf h <$> row = option_names o →
  row_named (nameOf h) cellf valf row ∧ ∀ r, r ∈ row → cellf r = o.1 ∧ valf r = o.2.
Proof.
  destruct o as [i v]. intros Hrow ((Hi & _) & Hv & _)%in_options E. destruct (unit_range i Hi) as (? & ? & ?).
  unfold option_names in E. cbn in E. unfold_names.
  destruct row as [|n0 [|n1 [|n2 [|n3 [|]]]]]; try done. cbn in E. injection E as E0 E1 E2 E3.
  assert (∀ r, r ∈ [n0; n1; n2; n3] → cellf r = i ∧ valf r = v) as Hr.
  { intros r Hr. unfold cellf, valf, first_two.
    destruct (list_find_elem_of (λ row, r ∈ row) rows _ Hrow Hr) as [[k row'] Hf]. rewrite Hf.
    apply list_find_Some in Hf as (Hk & Hr' & _).
    assert (row' = [n0; n1; n2; n3]) as ->.
    { eapply concat_nodup_inj; [apply (m_nodup _ _ _ _ (b_mat _ _ _ Hb))|by eapply list_elem_of_lookup_2|done..]. }
    cbn. rewrite E0, E1. split; [done|]. rewrite rem_mod by lia. dlia. }
  split; [|done]. exists n0, [n1; n2; n3]. split_and!; [done|done|lia|lia|]. intros r Hrr.
  destruct (Hr r Hrr) as [-> ->]. split_and!; [done|lia|].
  intros j Hj. rewrite !elem_of_cons in Hj. destruct Hj as [->|[->|[->|Hj]]]; [..|by apply not_elem_of_nil in Hj];
    rewrite ?E1, ?E2, ?E3, rem_mod by lia; dlia.
Qed.

Lemma rows_named row : row ∈ rows → row_named (nameOf h) cellf valf row.
Proof. intros Hrow. destruct (row_option row Hrow) as (o & Ho & E). by apply (row_spec row o). Qed.

Lemma start_cols : Cols (root_ s) rows (colOf h) (nameOf h) (dom h) h cols.
Proof.
  eapply Inv_ext; [|apply (b_inv _ _ _ Hb)]. intros c Hc. split; [done|]. unfold nodes_of, column_nodes, active.
  rewrite (filter_all (λ row, Forall _ _)); [done|]. intros row Hrow. apply Forall_fmap, Forall_forall. intros j Hj.
  apply (b_node _ _ _ Hb), in_concat. eauto.
Qed.

(** The columns of a row, by name. *)
Lemma cols_of_names row o :
  row ∈ rows → nameOf h <$> row = option_names o → cols_of (colOf h) row = header <$> option_names o.
Proof.
  intros Hrow <-. unfold cols_of. rewrite <-list_fmap_compose. apply fmap_ext_in. intros j Hj. cbn.
  symmetry. apply header_node, in_concat. eauto.
Qed.

Lemma exact_covers sel :
  exact rows (colOf h) cols sel →
  ∃ os, covers board os ∧ Forall2 (λ row o, row ∈ rows ∧ o ∈ options board ∧ nameOf h <$> row = option_names o) sel os.
Proof.
  intros [Hsub Hp].
  assert (∃ os, Forall2 (λ row o, row ∈ rows ∧ o ∈ options board ∧ nameOf h <$> row = option_names o) sel os) as [os Hf].
  { clear Hp. induction sel as [|row sel IH]; [by exists []|]. destruct IH as [os Hf]; [intros; apply Hsub; by right|].
    destruct (row_option row) as (o & ? & ?); [apply Hsub; by left|]. exists (o :: os). constructor; [|done].
    split_and!; try done. apply Hsub. by left. }
  exists os. split; [|done]. split.
  - intros o Ho. apply list_elem_of_lookup in Ho as [k Hk]. destruct (Forall2_lookup_r _ _ _ _ _ Hf Hk) as (row & _ & _ & ? & _). done.
  - rewrite <-Hcn, <-Hp. clear Hp Hsub. induction Hf as [|row o sel os (Hrow & _ & E) Hf IH]; [done|].
    change ((o :: os) ≫= option_names) with (option_names o ++ (os ≫= option_names)). cbn [concat fmap list_fmap].
    rewrite IH, fmap_app, <-E. f_equiv. unfold cols_of. rewrite <-list_fmap_compose. apply reflexive_eq, fmap_ext_in.
    intros j Hj. cbn. symmetry. apply (b_node _ _ _ Hb), in_concat. eauto.
Qed.

Lemma covers_exact os : covers board os → ∃ sel, exact rows (colOf h) cols sel.
Proof.
  intros [Hsub Hp].
  assert (∃ sel, (∀ row, row ∈ sel → row ∈ rows) ∧ concat (cols_of (colOf h) <$> sel) = header <$> os ≫= option_names)
    as (sel & Hsel & E).
  { clear Hp. induction os as [|o os IH]; [exists []; split; [intros row Hr; by apply not_elem_of_nil in Hr|done]|].
    destruct IH as (sel & Hsel & E); [intros; apply Hsub; by right|].
    destruct (option_row o) as (row & Hrow & Er); [apply Hsub; by left|]. exists (row :: sel). split.
    - intros row' [->|?]%elem_of_cons; auto.
    - change ((o :: os) ≫= option_names) with (option_names o ++ (os ≫= option_names)).
      rewrite fmap_app, <-E. cbn [concat fmap list_fmap]. f_equal. by apply cols_of_names. }
  exists sel. split; [done|]. rewrite E, Hp, <-Hcn, <-list_fmap_compose.
  rewrite (fmap_ext_in _ id), list_fmap_id; [done|]. intros c Hc. by apply header_name.
Qed.

Lemma writes_of b rs os :
  Forall2 (λ r o, cellf r = o.1 ∧ valf r = o.2) rs os → foldl (put cellf valf) b rs = foldl write b os.
Proof.
  intros Hf. revert b. induction Hf as [|r o rs os [E1 E2] Hf IH]; intros b; cbn; [done|].
  rewrite IH. f_equal. unfold put, write. by rewrite E1, E2.
Qed.

Lemma solve_covers :
  inout_ s = board → board_ok board →
  ∃ b s', solve bound s = Ok (b, s') ∧
    if b : bool then ∃ os, covers board os ∧ inout_ s' = foldl write board os else ∀ os, ¬ covers board os.
Proof.
  intros Hio [Hlen _].
  assert (ready (root_ s) rows (colOf h) (nameOf h) (dom h) s cols) as Hrd.
  { split_and!; [apply start_cols|done|by rewrite (b_stack _ _ _ Hb)|rewrite Hio; lia]. }
  assert (length cols < bound)%nat as Hl.
  { rewrite <-(length_fmap (nameOf h)), Hcn. pose proof (column_names_length board). unfold bound, kMaxNodes. lia. }
  destruct (solve_spec _ _ _ _ _ (b_mat _ _ _ Hb) cellf valf rows_named bound s cols Hrd Hl)
    as [(rs & sel & s' & -> & Hin & Hex & Hf)|[-> Hno]].
  - exists true, s'. split; [done|]. destruct (exact_covers sel Hex) as (os & Hc & Hf2). exists os. split; [done|].
    rewrite Hin, Hio, (b_stack _ _ _ Hb). cbn [app]. apply writes_of.
    clear -Hf Hf2 Hb. revert os Hf2. induction Hf as [|r row rs sel Hr Hf IH]; intros os Hf2; inversion Hf2 as [|? o ? os' (Hrow & Ho & E)]; subst; constructor; [|by apply IH].
    by apply (row_spec row o).
  - exists false, s. split; [done|]. intros os Hc. destruct (covers_exact os Hc) as [sel Hsel]. by apply (Hno sel).
Qed.
End Solve.

(** ** The rules of the game *)

Definition unit_of (u : Z → Z) : Prop := u = row_of ∨ u = col_of ∨ u = box_of.

(** [g] is a filled board that keeps the given cells of [board] and has every digit in every
    row, column and box. *)
Definition solution (board g : list Z) : Prop :=
  length g = 81%nat ∧ (∀ i, 0 ≤ i < 81 → 1 ≤ val g i ≤ 9) ∧
  (∀ i, 0 ≤ i < 81 → val board i ≠ 0 → val g i = val board i) ∧
  ∀ u k v, unit_of u → 0 ≤ k < 9 → 1 ≤ v ≤ 9 → ∃ i, 0 ≤ i < 81 ∧ u i = k ∧ val g i = v.

Lemma used_spec u board k v : used u board k v = true ↔ ∃ i, 0 ≤ i < 81 ∧ u i = k ∧ val board i = v.
Proof.
  unfold used. rewrite existsb_exists. split.
  - intros (i & Hi & ?). apply list_elem_of_In, elem_of_seqZ in Hi. exists i. lia.
  - intros (i & Hi & ? & ?). exists i. split; [apply list_elem_of_In, elem_of_seqZ; lia|lia].
Qed.

(** The columns for the values in the units of one kind are named in one way. *)
Lemma unit_kind u : unit_of u → ∃ t, 1 ≤ t ≤ 3 ∧
  (∀ board k v, 0 ≤ k < 9 → 1 ≤ v ≤ 9 → used u board k v = false → 100 * t + 10 * k + v ∈ column_names board) ∧
  (∀ o, 100 * t + 10 * u o.1 + o.2 ∈ option_names o) ∧
  (∀ o k v, 0 ≤ o.1 < 81 → 1 ≤ o.2 ≤ 9 → 0 ≤ k < 9 → 1 ≤ v ≤ 9 →
     100 * t + 10 * k + v ∈ option_names o → u o.1 = k ∧ o.2 = v) ∧
  (∀ i, 0 ≤ i < 81 → 0 ≤ u i < 9).
Proof.
  intros [->|[->| ->]]; [exists 1|exists 2|exists 3]; (split; [lia|]); split_and!.
  all: try (intros i Hi; by apply (unit_range i)).
  all: try (intros o; unfold option_names; unfold_names; set_unfold; naive_solver lia).
  all: try (intros o k v Ho; destruct (unit_range _ Ho) as (? & ? & ?); unfold option_names; unfold_names;
            rewrite !elem_of_cons; intros ? ? ? [?|[?|[?|[?|Hn]]]]; [lia..|by apply not_elem_of_nil in Hn]).
  all: intros board k v Hk Hv Hu; unfold column_names; rewrite elem_of_app, in_unit_names;
       right; exists k, v; rewrite in_unit_names_at; unfold_names; naive_solver lia.
Qed.

(** ** Covers are solutions *)

Lemma foldl_write_val os g i :
  0 ≤ i < 81 → length g = 81%nat → NoDup os.*1 → (∀ o, o ∈ os → 0 ≤ o.1 < 81) →
  length (foldl write g os) = 81%nat ∧
  (∀ v, (i, v) ∈ os → val (foldl write g os) i = v) ∧ ((∀ v, (i, v) ∉ os) → val (foldl write g os) i = val g i).
Proof.
  intros Hi. revert g. induction os as [|o os IH]; intros g Hl Hnd Hos; cbn [foldl].
  { split_and!; [done| |done]. intros v Hv. by apply not_elem_of_nil in Hv. }
  cbn in Hnd. apply NoDup_cons in Hnd as [Ho Hnd]. pose proof (Hos o (list_elem_of_here _ _)) as Hor.
  destruct (IH (write g o)) as (H1 & H2 & H3); [unfold write; by rewrite length_insert|done|intros; apply Hos; by right|].
  assert (∀ v, o = (i, v) → (∀ w, (i, w) ∉ os)) as Hfst.
  { intros v -> w Hw. apply Ho. cbn. by apply (list_elem_of_fmap_2 fst _ (i, w)). }
  split_and!; [done|..].
  - intros v [E|Hv]%elem_of_cons; [|by apply H2]. rewrite H3 by (by eapply Hfst). unfold val, write. rewrite <-E. cbn.
    apply list_lookup_total_insert_eq. lia.
  - intros Hn. rewrite H3 by (intros v Hv; apply (Hn v); by right). unfold val, write.
    apply list_lookup_total_insert_ne. intros E. apply (Hn o.2). destruct o as [j w]. cbn in *.
    replace i with j by lia. by left.
Qed.

Section Cover.
Context (board : list Z) (Hb : board_ok board) (os : list (Z * Z)) (Hc : covers board os).

Lemma cover_option o : o ∈ os → (0 ≤ o.1 < 81 ∧ val board o.1 = 0) ∧ 1 ≤ o.2 ≤ 9.
Proof.
  intros Ho. destruct Hc as [Hsub _]. destruct o as [i v].
  pose proof (Hsub _ Ho) as (? & ? & _)%in_options. cbn. split; [done|lia].
Qed.

Lemma cover_nodup : NoDup os.*1.
Proof.
  destruct Hc as [_ Hp]. assert (NoDup (os ≫= option_names)) as Hnd by (rewrite Hp; apply column_names_nodup).
  clear Hp Hc Hb. induction os as [|o l IH]; cbn; [apply NoDup_nil_2|].
  change ((o :: l) ≫= option_names) with (option_names o ++ (l ≫= option_names)) in Hnd.
  apply NoDup_app in Hnd as (_ & Hd & Hnd). apply NoDup_cons. split; [|by apply IH].
  intros (o' & E & Ho')%list_elem_of_fmap. apply (Hd o.1); [by left|]. apply list_elem_of_bind. exists o'.
  split; [rewrite E; by left|done].
Qed.

Lemma covered n : n ∈ column_names board → ∃ o, o ∈ os ∧ n ∈ option_names o.
Proof. destruct Hc as [_ Hp]. rewrite <-Hp, list_elem_of_bind. naive_solver. Qed.

Lemma covers_solution : solution board (foldl write board os).
Proof.
  destruct Hb as [Hl Hf]. set (g := foldl write board os).
  assert (∀ i, 0 ≤ i < 81 → length g = 81%nat ∧ (∀ v, (i, v) ∈ os → val g i = v) ∧
            ((∀ v, (i, v) ∉ os) → val g i = val board i)) as Hg.
  { intros i Hi. apply foldl_write_val; [done|done|apply cover_nodup|]. intros o Ho. by apply cover_option. }
  assert (∀ i, 0 ≤ i < 81 → val board i ≠ 0 → val g i = val board i) as Hgiven.
  { intros i Hi Hne. apply (Hg i Hi). intros v Hv. by destruct (cover_option _ Hv) as [[_ ?] _]. }
  split_and!; [by apply (Hg 0)| |done|].
  - intros i Hi. destruct (decide (val board i = 0)) as [E|E].
    + destruct (covered i) as (o & Ho & Hn).
      { unfold column_names. rewrite elem_of_app, in_cell_names. by left. }
      destruct (cover_option o Ho) as [[Ho1 _] Ho2]. destruct (unit_range _ Ho1) as (? & ? & ?).
      assert (o.1 = i) as <-.
      { unfold option_names in Hn. unfold_names. rewrite !elem_of_cons in Hn.
        destruct Hn as [?|[?|[?|[?|Hn]]]]; [lia..|by apply not_elem_of_nil in Hn]. }
      rewrite (proj1 (proj2 (Hg _ Hi)) o.2); [done|by destruct o].
    + rewrite Hgiven by done. destruct (cell_at_val board i (conj Hl Hf) Hi). lia.
  - intros u k v Hu Hk Hv. destruct (used u board k v) eqn:Hus.
    + apply used_spec in Hus as (i & Hi & ? & E). exists i. split_and!; [lia..|done|]. rewrite Hgiven; [done|done|lia].
    + destruct (unit_kind u Hu) as (t & _ & Hin & _ & Hinv & _).
      destruct (covered _ (Hin board k v Hk Hv Hus)) as (o & Ho & Hn). destruct (cover_option o Ho) as [[Ho1 _] Ho2].
      destruct (Hinv o k v) as [E1 E2]; try done. exists o.1. split_and!; [lia..|done|].
      rewrite (proj1 (proj2 (Hg _ Ho1)) o.2); [done|by destruct o].
Qed.
End Cover.

(** ** Solutions are covers *)

Definition cells_in (u : Z → Z) (k : Z) : list Z := filter (λ i, u i = k) (seqZ 0 81).

Lemma nine_cells u k : unit_of u → 0 ≤ k < 9 → length (cells_in u k) = 9%nat.
Proof.
  intros Hu Hk. assert (forallb (λ k, length (cells_in u k) =? 9)%nat (seqZ 0 9) = true) as Hall.
  { by destruct Hu as [->|[->| ->]]; vm_compute. }
  rewrite forallb_forall in Hall. apply Nat.eqb_eq, Hall, list_elem_of_In, elem_of_seqZ. lia.
Qed.

Section Solution.
Context (board g : list Z) (Hb : board_ok board) (Hs : solution board g).

(** Nine cells with all nine digits have each of them once. *)
Lemma solution_inj u i j : unit_of u → 0 ≤ i < 81 → 0 ≤ j < 81 → u i = u j → val g i = val g j → i = j.
Proof.
  intros Hu Hi Hj Hk Hv. destruct Hs as (_ & _ & _ & Hall). destruct (unit_kind u Hu) as (_ & _ & _ & _ & _ & Hrg).
  pose proof (Hrg i Hi) as Hki. set (l := val g <$> cells_in u (u i)).
  assert (seqZ 1 9 ≡ₚ l) as Hp.
  { apply submseteq_length_Permutation.
    - apply NoDup_submseteq; [apply NoDup_seqZ|]. intros v Hv'%elem_of_seqZ.
      destruct (Hall u (u i) v Hu Hki ltac:(lia)) as (c & Hc & Huc & <-). apply list_elem_of_fmap_2.
      unfold cells_in. rewrite list_elem_of_filter, elem_of_seqZ. lia.
    - unfold l. by rewrite length_fmap, nine_cells, length_seqZ by done. }
  assert (NoDup l) as Hnd by (rewrite <-Hp; apply NoDup_seqZ).
  assert (∀ x, 0 ≤ x < 81 → u x = u i → ∃ n, cells_in u (u i) !! n = Some x) as Hlk.
  { intros x Hx Hux. apply list_elem_of_lookup. unfold cells_in. rewrite list_elem_of_filter, elem_of_seqZ. lia. }
  destruct (Hlk i Hi eq_refl) as [n Hn]. destruct (Hlk j Hj (eq_sym Hk)) as [m Hm].
  assert (n = m) as ->; [|congruence]. apply (NoDup_lookup l n m (val g i)); [done|..]; unfold l; rewrite list_lookup_fmap.
  - by rewrite Hn.
  - rewrite Hm. cbn. by rewrite Hv.
Qed.

Definition choice : list (Z * Z) := (λ i, (i, val g i)) <$> cell_names board.

Lemma in_choice o : o ∈ choice ↔ (0 ≤ o.1 < 81 ∧ val board o.1 = 0) ∧ o.2 = val g o.1.
Proof.
  unfold choice. rewrite list_elem_of_fmap. setoid_rewrite in_cell_names. destruct o as [i v]. cbn. split.
  - intros (? & [= -> ->] & ?). done.
  - intros [? ->]. eauto.
Qed.

Lemma choice_allowed u i :
  unit_of u → 0 ≤ i < 81 → val board i = 0 → used u board (u i) (val g i) = false.
Proof.
  intros Hu Hi H0. apply not_true_iff_false. intros (j & Hj & Huj & Hv)%used_spec.
  destruct Hs as (_ & Hrg & Hgv & _). pose proof (Hrg i Hi).
  assert (j = i) as ->; [|lia]. apply (solution_inj u); try done. rewrite Hgv; [done|done|lia].
Qed.

Lemma solution_covers : covers board choice.
Proof.
  pose proof Hs as (_ & Hrg & Hgv & Hall).
  assert (∀ o, o ∈ choice → o ∈ options board) as Hsub.
  { intros [i v] [[Hi H0] E]%in_choice. cbn in *. subst v. apply in_options. pose proof (Hrg i Hi). split_and!; [lia..|].
    unfold allowed. by rewrite !choice_allowed by (done || (unfold unit_of; auto)). }
  split; [done|]. apply NoDup_Permutation; [|apply column_names_nodup|].
  - apply NoDup_bind.
    + intros [i v] [j w] n [[Hi _] Ev]%in_choice [[Hj _] Ew]%in_choice Hn1 Hn2. cbn in *. subst v w.
      assert (i = j) as ->; [|done]. pose proof (Hrg i Hi). pose proof (Hrg j Hj).
      destruct (unit_range i Hi) as (? & ? & ?). destruct (unit_range j Hj) as (? & ? & ?).
      assert (i = j ∨ ∃ u, unit_of u ∧ u i = u j ∧ val g i = val g j) as [|(u & Hu & E1 & E2)]; [|done|by eapply solution_inj].
      unfold option_names in Hn1, Hn2. unfold_names. unfold unit_of. set_unfold in Hn1. set_unfold in Hn2. cbn in *.
      destruct Hn1 as [?|[?|[?|[?|[]]]]], Hn2 as [?|[?|[?|[?|[]]]]]; try lia; right;
        [exists row_of|exists col_of|exists box_of]; (split; [auto|]); lia.
    + intros o Ho. by apply (option_names_ok board), Hsub.
    + apply (NoDup_fmap_2_strong (λ i, (i, val g i))); [by intros ???? [=]|]. apply NoDup_filter, NoDup_seqZ.
  - intros n. rewrite list_elem_of_bind. split.
    + intros (o & Hn & Ho). by apply (option_names_ok board o (Hsub o Ho)).
    + unfold column_names. rewrite elem_of_app, in_cell_names, in_unit_names. intros [[Hi H0]|(k & v & Hk & Hv & Hn)].
      * exists (n, val g n). split; [by left|]. by apply in_choice.
      * assert (∃ u t, unit_of u ∧ n = 100 * t + 10 * k + v ∧ used u board k v = false ∧
                  ∀ o, 100 * t + 10 * u o.1 + o.2 ∈ option_names o) as (u & t & Hu & -> & Hus & Hopt).
        { apply in_unit_names_at in Hn. unfold_names. unfold unit_of.
          destruct Hn as [[-> ?]|[[-> ?]|[-> ?]]]; [exists row_of, 1|exists col_of, 2|exists box_of, 3];
            (split; [auto|]); (split; [lia|]); (split; [done|]); intros o; unfold option_names; unfold_names;
            set_unfold; naive_solver lia. }
        destruct (Hall u k v Hu Hk ltac:(lia)) as (i & Hi & Hui & Hvi). exists (i, val g i).
        split; [rewrite <-Hui, <-Hvi; apply (Hopt (i, val g i))|]. apply in_choice. cbn. split; [|done]. split; [done|].
        destruct (decide (val board i = 0)) as [|Hne]; [done|]. exfalso.
        assert (used u board k v = true); [|congruence]. apply used_spec. exists i. split_and!; [lia..|done|].
        by rewrite <-Hvi, Hgv.
Qed.
End Solution.

(** ** Counting what is left *)

(** A column's nodes are as many as the rows through it. *)
Lemma count_rows (colf : ptr → ptr) c (A : list (list ptr)) :
  (∀ row, row ∈ A → NoDup (colf <$> row)) →
  length (filter (λ j, colf j = c) (concat A)) = length (filter (λ row, c ∈ colf <$> row) A).
Proof.
  induction A as [|row A IH]; intros Hnd; [done|]. cbn [concat].
  rewrite filter_app, length_app, filter_cons, IH by (intros; apply Hnd; by right).
  pose proof (Hnd row (list_elem_of_here _ _)) as Hr. case_decide as Hc; cbn [length].
  - apply list_elem_of_fmap in Hc as (j & -> & (l1 & l2 & ->)%list_elem_of_split). rewrite fmap_app in Hr.
    apply NoDup_app in Hr as (_ & H1 & [H2 _]%NoDup_cons). rewrite filter_app, filter_cons_True by done.
    rewrite (filter_none _ l1), (filter_none _ l2); [done|..]; intros x Hx E.
    + apply H2. rewrite <-E. by apply list_elem_of_fmap_2.
    + apply (H1 (colf x)); [by apply list_elem_of_fmap_2|]. rewrite E. by left.
  - rewrite filter_none; [done|]. intros x Hx <-. apply Hc. by apply list_elem_of_fmap_2.
Qed.

Lemma length_filter_Forall2 {A B} (R : A → B → Prop) (P : A → Prop) (Q : B → Prop) `{∀ x, Decision (P x)} `{∀ x, Decision (Q x)}
    (l : list A) (k : list B) :
  Forall2 R l k → (∀ x y, x ∈ l → R x y → P x ↔ Q y) → length (filter P l) = length (filter Q k).
Proof.
  induction 1 as [|x y l k Hxy Hf IH]; intros Hpq; [done|]. rewrite !filter_cons.
  pose proof (Hpq x y (list_elem_of_here _ _) Hxy).
  specialize (IH (λ x' y' Hx', Hpq x' y' (list_elem_of_further _ _ _ Hx'))).
  do 2 case_decide; cbn; try naive_solver.
Qed.

(** The options through the column named [n] that avoid the columns named [covered]. *)
Definition open_options (board : list Z) (covered : list Z) (n : Z) : list (Z * Z) :=
  filter (λ o, n ∈ option_names o ∧ Forall (.∉ covered) (option_names o)) (options board).

Section Sizes.
Context (s : solver) (board : list Z) (cols : list ptr) (rows : list (list ptr)).
Context (Hb : built s cols rows) (Hcn : nameOf (nodes_ s) <$> cols = column_names board).
Context (Hrn : names (nodes_ s) rows = option_names <$> options board).

Lemma open_size cs c :
  (∀ d, d ∈ cs → d ∈ cols) → c ∈ cols → c ∉ cs →
  zlen (nodes_of rows (colOf (nodes_ s)) (filter (.∉ cs) cols) c) =
  zlen (open_options board (nameOf (nodes_ s) <$> cs) (nameOf (nodes_ s) c)).
Proof.
  intros Hcs Hc Hni. unfold nodes_of.
  rewrite count_rows by (intros row [Hrow _]%(in_active (root_ s) _ _ id); by apply (m_row _ _ _ _ (b_mat _ _ _ Hb))).
  unfold active, open_options. rewrite list_filter_filter. f_equal.
  apply (length_filter_Forall2 (λ row o, nameOf (nodes_ s) <$> row = option_names o)).
  { assert (Forall2 eq (names (nodes_ s) rows) (option_names <$> options board)) as Hf by (by rewrite Hrn; apply Forall_Forall2_diag, Forall_true).
    unfold names in Hf. by rewrite Forall2_fmap in Hf. }
  intros row o Hrow E. rewrite <-E.
  assert (∀ j, j ∈ row → colOf (nodes_ s) j ∈ cols ∧ nameOf (nodes_ s) (colOf (nodes_ s) j) = nameOf (nodes_ s) j) as Hj.
  { intros j Hj. apply (b_node _ _ _ Hb), in_concat. eauto. }
  assert (∀ j d, j ∈ row → d ∈ cols → colOf (nodes_ s) j = d ↔ nameOf (nodes_ s) j = nameOf (nodes_ s) d) as Hiff.
  { intros j d Hjr Hd. destruct (Hj j Hjr) as [Hjc <-]. split; [by intros ->|]. intros En.
    by rewrite <-(header_name s cols rows Hb _ Hjc), En, (header_name s cols rows Hb _ Hd). }
  rewrite !list_elem_of_fmap, !Forall_fmap, !Forall_forall. split.
  - intros [(j & -> & Hjr) Hall]. split; [exists j; by destruct (Hj j Hjr)|].
    intros i Hi (d & En & Hd)%list_elem_of_fmap. specialize (Hall i Hi). cbn in Hall.
    apply list_elem_of_filter in Hall as [Hni' _]. apply Hni'. by rewrite (proj2 (Hiff i d Hi (Hcs d Hd)) En).
  - intros [(j & En & Hjr) Hall]. split; [exists j; split; [symmetry; by apply (Hiff j c Hjr Hc)|done]|].
    intros i Hi. cbn. apply list_elem_of_filter. destruct (Hj i Hi) as [Hic En']. split; [|done].
    intros Hin. apply (Hall i Hi). cbn. rewrite <-En'. by apply list_elem_of_fmap_2.
Qed.

Lemma covers_undo cs h cols0 :
  Cols (root_ s) rows (colOf (nodes_ s)) (nameOf (nodes_ s)) (dom (nodes_ s)) h cols0 →
  NoDup cs → (∀ c, c ∈ cs → c ∈ cols0) →
  ∃ h', mfold cover cs h = Ok h' ∧ mfold uncover (reverse cs) h' = Ok h ∧
        Cols (root_ s) rows (colOf (nodes_ s)) (nameOf (nodes_ s)) (dom (nodes_ s)) h' (filter (.∉ cs) cols0).
Proof.
  revert h cols0. induction cs as [|c cs IH]; intros h cols0 Hi Hnd Hin.
  - exists h. split_and!; try done. rewrite filter_all; [done|]. intros x _. apply not_elem_of_nil.
  - apply NoDup_cons in Hnd as [Hc Hnd].
    destruct (cover_one _ _ _ _ _ (b_mat _ _ _ Hb) h cols0 c Hi) as (h1 & H1 & H2 & Hi1 & _); [apply Hin; by left|].
    destruct (IH h1 (filter (.≠ c) cols0)) as (h' & H3 & H4 & Hi'); [done|done|..].
    { intros d Hd. apply list_elem_of_filter. split; [by intros ->|]. apply Hin. by right. }
    exists h'. split_and!.
    + cbn. by rewrite H1.
    + rewrite reverse_cons, mfold_app, H4. cbn. by rewrite H2.
    + rewrite list_filter_filter in Hi'. erewrite list_filter_iff; [exact Hi'|].
      intros x. cbn. rewrite not_elem_of_cons. tauto.
Qed.
End Sizes.

(** ** Theorems *)

(** C19: the constructor is safe and complete. On every board of 81 cells from 0 to 9 it runs
    without a failed assertion or an access out of bounds, and within the node array: it makes
    one column for every empty cell and for every digit missing from a row, column or box, and
    the size of each column is the number of options, digits that may be written in cells,
    that fill it. *)
Theorem constructor_builds_board (board : list Z) (Hb : board_ok board) :
  ∃ s, newSolver board = Ok s ∧ inout_ s = board ∧ stack_ s = [] ∧
       cur_node_ s = 1 + zlen (column_names board) + 4 * zlen (options board) ∧ cur_node_ s ≤ kMaxNodes ∧
       ∀ n, match columns_ s !! n with
            | Some c => n ∈ column_names board ∧ sizeOf (nodes_ s) c = zlen (open_options board [] n)
            | None => n ∉ column_names board
            end.
Proof.
  destruct (newSolver_made board Hb) as (s & Hs & (cols & rows & Hbu & Hcn & Hrn) & Hio). exists s.
  assert (zlen (concat rows) = 4 * zlen (options board)) as Hlen.
  { rewrite <-(length_fmap (nameOf (nodes_ s)) (concat rows)), <-concat_names, Hrn, length_concat_options. lia. }
  pose proof (b_cur _ _ _ Hbu) as Hcur. rewrite Hlen, <-(length_fmap (nameOf (nodes_ s)) cols), Hcn in Hcur.
  pose proof (column_names_length board). pose proof (options_length board).
  split_and!; [done|done|by apply (b_stack _ _ _ Hbu)|done|unfold kMaxNodes; lia|].
  intros n. destruct (columns_ s !! n) as [c|] eqn:E.
  - apply (b_cols _ _ _ Hbu) in E as [Hc <-]. split; [rewrite <-Hcn; by apply list_elem_of_fmap_2|].
    pose proof (open_size s board cols rows Hbu Hrn [] c) as Ho. cbn [fmap list_fmap] in Ho.
    rewrite <-Ho; [|intros d Hd; by apply not_elem_of_nil in Hd|done|apply not_elem_of_nil].
    rewrite (filter_all _ cols) by (intros; apply not_elem_of_nil).
    apply (i_size _ _ _ _ _ _ _ _ _ (start_cols s cols rows Hbu)). done.
  - rewrite <-Hcn. intros (c & -> & Hc)%list_elem_of_fmap.
    rewrite (proj2 (b_cols _ _ _ Hbu (nameOf (nodes_ s) c) c)) in E; done.
Qed.

(** The links dance. On the matrix of any board, covering any columns, in any order, and
    uncovering them in the opposite order succeeds and brings every node back exactly as it
    was; in between, the size of every other column is the number of the options through it
    that avoid the covered columns. *)
Theorem uncover_undoes_cover (board : list Z) (s : solver) (cs : list ptr)
    (Hb : board_ok board) (Hs : newSolver board = Ok s) (Hnd : NoDup cs)
    (Hcs : ∀ c, c ∈ cs → ∃ n, columns_ s !! n = Some c) :
  ∃ h, mfold cover cs (nodes_ s) = Ok h ∧ mfold uncover (reverse cs) h = Ok (nodes_ s) ∧
       ∀ n c, columns_ s !! n = Some c → c ∉ cs →
         sizeOf h c = zlen (open_options board (nameOf (nodes_ s) <$> cs) n).
Proof.
  destruct (newSolver_made board Hb) as (s' & Hs' & (cols & rows & Hbu & Hcn & Hrn) & _).
  rewrite Hs in Hs'. injection Hs' as <-.
  assert (∀ c, c ∈ cs → c ∈ cols) as Hin.
  { intros c Hc. destruct (Hcs c Hc) as [n Hn]. by apply (b_cols _ _ _ Hbu) in Hn as [? _]. }
  destruct (covers_undo s cols rows Hbu cs (nodes_ s) cols) as (h & H1 & H2 & Hi); [by eapply start_cols|done|done|].
  exists h. split_and!; [done|done|]. intros n c Hc Hni. apply (b_cols _ _ _ Hbu) in Hc as [Hcc <-].
  rewrite <-(open_size s board cols rows Hbu Hrn cs c) by done. apply (i_size _ _ _ _ _ _ _ _ _ Hi).
  by apply list_elem_of_filter.
Qed.

(** What an answer to a puzzle must be. *)
Definition digits (board : list Z) : Prop := Forall (λ v, 0 ≤ v ≤ 9) board.
Definition answers (puzzle answer : list byte) : Prop :=
  let board := read_cell <$> puzzle in
  (digits board ∧ solution board (read_cell <$> answer)) ∨
  (answer = kNoSolution ∧ ¬ (digits board ∧ ∃ g, solution board g)).

Lemma read_show v : 1 ≤ v ≤ 9 → read_cell (byte_of_Z (v + 48)) = v.
Proof.
  intros Hv. unfold read_cell. rewrite byte_unsigned_of_Z, Z.mod_small by lia.
  rewrite swrap_small by (unfold in_s; lia). lia.
Qed.

Lemma read_show_board g :
  length g = 81%nat → (∀ i, 0 ≤ i < 81 → 1 ≤ val g i ≤ 9) → read_cell <$> ((λ v, byte_of_Z (v + 48)) <$> g) = g.
Proof.
  intros Hl Hv. rewrite <-list_fmap_compose. transitivity (id <$> g); [|apply list_fmap_id].
  apply fmap_ext_in. intros v [k Hk]%list_elem_of_lookup. cbn. apply read_show.
  specialize (Hv (Z.of_nat k)). unfold val in Hv. rewrite Nat2Z.id, (list_lookup_total_correct _ _ _ Hk) in Hv.
  apply Hv. apply lookup_lt_Some in Hk. lia.
Qed.

Lemma digits_valid board : forallb (λ v, (0 <=? v) && (v <=? 9)) board = true ↔ digits board.
Proof.
  unfold digits. rewrite forallb_forall, Forall_forall. setoid_rewrite list_elem_of_In.
  split; intros H x Hx; specialize (H x Hx); lia.
Qed.

Lemma solveSudoku_answers puzzle :
  zlen puzzle = kCells → ∃ answer, solveSudoku puzzle = Ok answer ∧ answers puzzle answer.
Proof.
  intros Hlen. unfold solveSudoku, answers. rewrite Hlen, Z.eqb_refl. cbn [assert_ mbind res_bind].
  set (board := read_cell <$> puzzle).
  destruct (forallb _ board) eqn:Hv.
  - apply digits_valid in Hv. assert (board_ok board) as Hb by (split; [unfold board; rewrite length_fmap; unfold kCells in Hlen; lia|done]).
    destruct (newSolver_made board Hb) as (s & -> & (cols & rows & Hbu & Hcn & Hrn) & Hio). cbn [mbind res_bind].
    destruct (solve_covers s board cols rows Hbu Hcn Hrn Hio Hb) as ([] & s' & -> & Hcase); cbn [mbind res_bind].
    + destruct Hcase as (os & Hc & ->). pose proof (covers_solution board Hb os Hc) as Hsol.
      eexists. split; [done|]. left. split; [done|]. pose proof Hsol as (? & ? & _). by rewrite read_show_board.
    + eexists. split; [done|]. right. split; [done|]. intros [_ [g Hg]].
      apply (Hcase (choice board g)). by apply solution_covers.
  - eexists. split; [done|]. right. split; [done|]. intros [Hd%digits_valid _]. congruence.
Qed.

(** C6: solveSudoku is correct. For every string of 81 characters it terminates without a
    failed assertion, an access out of bounds or an endless loop, and its answer is a filled
    board that keeps the given digits and has every digit in every row, column and box, or it
    is NoSolution, and then the puzzle has a character that is not a digit or no solution. *)
Theorem solveSudoku_correct (puzzle : list byte) (Hlen : zlen puzzle = kCells) :
  ∃ answer, solveSudoku puzzle = Ok answer ∧
    let board := read_cell <$> puzzle in
    (digits board ∧ solution board (read_cell <$> answer)) ∨
    (answer = kNoSolution ∧ ¬ (digits board ∧ ∃ g, solution board g)).
Proof. by apply solveSudoku_answers. Qed.

(** ** Witnesses *)

Definition demo_board : list Z :=
  [5;3;0;0;7;0;0;0;0; 6;0;0;1;9;5;0;0;0; 0;9;8;0;0;0;0;6;0;
   8;0;0;0;6;0;0;0;3; 4;0;0;8;0;3;0;0;1; 7;0;0;0;2;0;0;0;6;
   0;6;0;0;0;0;2;8;0; 0;0;0;4;1;9;0;0;5; 0;0;0;0;8;0;0;7;9].
Definition demo_solved : list Z :=
  [5;3;4;6;7;8;9;1;2; 6;7;2;1;9;5;3;4;8; 1;9;8;3;4;2;5;6;7;
   8;5;9;7;6;1;4;2;3; 4;2;6;8;5;3;7;9;1; 7;1;3;9;2;4;8;5;6;
   9;6;1;5;3;7;2;8;4; 2;8;7;4;1;9;6;3;5; 3;4;5;2;8;6;1;7;9].
Definition show (g : list Z) : list byte := (λ v, byte_of_Z (v + 48)) <$> g.

Lemma demo_board_ok : board_ok demo_board.
Proof. split; [done|]. repeat constructor; lia. Qed.

Lemma solveSudoku_correct_witness :
  solveSudoku (show demo_board) = Ok (show demo_solved) ∧ solution demo_board demo_solved.
Proof.
  assert (solveSudoku (show demo_board) = Ok (show demo_solved)) as E by (by vm_compute). split; [exact E|].
  destruct (solveSudoku_correct (show demo_board)) as (answer & Ha & Hcase); [by vm_compute|].
  rewrite E in Ha. injection Ha as <-.
  change (read_cell <$> show demo_board) with demo_board in Hcase.
  destruct Hcase as [[_ Hs]|[Hno _]].
  - exact Hs.
  - by vm_compute in Hno.
Defined.

Lemma constructor_builds_board_witness :
  ∃ s, newSolver demo_board = Ok s ∧ inout_ s = demo_board ∧
       ∀ n, match columns_ s !! n with
            | Some c => n ∈ column_names demo_board ∧ sizeOf (nodes_ s) c = zlen (open_options demo_board [] n)
            | None => n ∉ column_names demo_board
            end.
Proof.
  destruct (constructor_builds_board demo_board demo_board_ok) as (s & H1 & H2 & _ & _ & _ & H3).
  exists s. split_and!; [exact H1|exact H2|exact H3].
Defined.

Definition demo_solver : solver :=
  match newSolver demo_board with Ok s => s | Err _ => mkSolver 0 [] ∅ [] ∅ 0 end.

Lemma uncover_undoes_cover_witness :
  ∃ h, mfold cover [3; 1; 2] (nodes_ demo_solver) = Ok h ∧ mfold uncover [2; 1; 3] h = Ok (nodes_ demo_solver).
Proof.
  destruct (uncover_undoes_cover demo_board demo_solver [3; 1; 2]) as (h & H1 & H2 & _).
  - exact demo_board_ok.
  - by vm_compute.
  - by apply (bool_decide_unpack _); vm_compute.
  - intros c Hc. rewrite !elem_of_cons in Hc. destruct Hc as [->|[->|[->|Hc]]].
    + exists 5. by vm_compute.
    + exists 2. by vm_compute.
    + exists 3. by vm_compute.
    + by apply not_elem_of_nil in Hc.
  - exists h. split; [exact H1|exact H2].
Defined.

End Rules.
