(* ===== verification/SudokuServer.v ===== *)
(** * The Sudoku server's protocol (net/sudoku/server_threadpool.cc)

    onMessage takes requests off the connection's input buffer, the Buffer of Buffer.v, and
    processRequest hands them to the thread pool. What they do is returned as a list of
    actions, in order. A request is one line, the puzzle of 81 cells, with an id and a colon
    before it if the client wants the answer tagged. [fuel] bounds the turns of onMessage's
    loop: every turn that goes on has consumed at least the two bytes of a CRLF. The answers
    are those of the solver of SudokuSolver.v. *)

From S2P Require Import Prelude Buffer SudokuSolver SudokuRules.

Module Sudoku.
Import Buf Solver Rules.

Definition colon : byte := x3a.

Inductive action :=
  | Run (puzzle id : list byte)       (* threadPool_.run(solve(conn, puzzle, id)) *)
  | Send (message : list byte)
  | Shutdown.

Definition bad_request : list byte :=
  [x42; x61; x64; x20; x52; x65; x71; x75; x65; x73; x74; x21; x0d; x0a].   (* "Bad Request!\r\n" *)
Definition id_too_long : list byte :=
  [x49; x64; x20; x74; x6f; x6f; x20; x6c; x6f; x6e; x67; x21; x0d; x0a].   (* "Id too long!\r\n" *)

(** std::find of a colon: the index, or the length. *)
Fixpoint find_colon (l : list byte) : nat :=
  match l with [] => 0 | b :: l => if bool_decide (b = colon) then 0 else S (find_colon l) end.

Definition processRequest (request : list byte) : bool * list action :=
  let i := find_colon request in
  let '(id, puzzle) := (if negb (i =? length request)%nat
                        then (take i request, drop (S i) request) else ([], request)) in
  if zlen puzzle =? kCells then (true, [Run puzzle id]) else (false, []).

Fixpoint onMessage_loop (fuel : nat) (len : Z) (acts : list action) (buf : Buffer) : res (list action * Buffer) :=
  match fuel with
  | O => Ok (acts, buf)
  | S fuel =>
      if kCells + 2 <=? len then
        match findCRLF buf with
        | Some crlf =>
            let request := range buf (peek buf) crlf in
            buf ← retrieveUntil buf (crlf + 2);
            let len := readableBytes buf in
            let '(good, a) := processRequest request in
            if negb good then Ok (acts ++ a ++ [Send bad_request; Shutdown], buf)
            else onMessage_loop fuel len (acts ++ a) buf
        | None =>
            if 100 <? len then Ok (acts ++ [Send id_too_long; Shutdown], buf)
            else Err FatalAbort                    (* LOG_FATAL << "CRLF" *)
        end
      else Ok (acts, buf)
  end.

Definition onMessage (buf : Buffer) : res (list action * Buffer) :=
  let len := readableBytes buf in onMessage_loop (S (Z.to_nat len)) len [] buf.

(** The answer to one request, as a task of the thread pool sends it. *)
Definition solve (puzzle id : list byte) : res (list byte) :=
  result ← solveSudoku puzzle;
  Ok (if bool_decide (id = []) then result ++ kCRLF else id ++ [colon] ++ result ++ kCRLF).

(** ** Requests on the wire *)
Definition line (p : list byte) : list byte := p ++ kCRLF.
(** A request without an id. *)
Definition request_ok (p : list byte) : Prop := zlen p = kCells ∧ (x0d ∉ p) ∧ (colon ∉ p).
(** A request with an id, which may be empty, and its text. *)
Definition request_text (r : list byte * list byte) : list byte :=
  if bool_decide (r.1 = []) then r.2 else r.1 ++ [colon] ++ r.2.
Definition id_request_ok (r : list byte * list byte) : Prop :=
  zlen r.2 = kCells ∧ (x0d ∉ r.1) ∧ (x0d ∉ r.2) ∧ (colon ∉ r.1) ∧ (r.1 = [] → colon ∉ r.2).

(** The bytes arrive in pieces; onMessage runs after each. *)
Fixpoint feed (chunks : list (list byte)) (buf : Buffer) : res (list action * Buffer) :=
  match chunks with
  | [] => Ok ([], buf)
  | d :: chunks =>
      buf ← append buf d (zlen d);
      '(a, buf) ← onMessage buf;
      '(a', buf) ← feed chunks buf;
      Ok (a ++ a', buf)
  end.

(** ** Lemmas *)
Lemma find_colon_none l : colon ∉ l → find_colon l = length l.
Proof.
  induction l as [|b l IH]; [done|]. rewrite not_elem_of_cons. intros [Hb Hl]. cbn.
  rewrite bool_decide_false by congruence. by rewrite IH.
Qed.

Lemma find_colon_id id p : colon ∉ id → find_colon (id ++ [colon] ++ p) = length id.
Proof.
  induction id as [|b l IH]; [done|]. rewrite not_elem_of_cons. intros [Hb Hl]. cbn.
  rewrite bool_decide_false by congruence. cbn in IH. by rewrite IH.
Qed.

Lemma processRequest_ok r : id_request_ok r → processRequest (request_text r) = (true, [Run r.2 r.1]).
Proof.
  destruct r as [id p]. intros (Hl & _ & _ & Hi & Hc). unfold processRequest, request_text. cbn [fst snd] in *.
  case_bool_decide as E.
  - subst. rewrite find_colon_none, Nat.eqb_refl by auto. cbn [negb]. by rewrite Hl.
  - rewrite find_colon_id by done. rewrite (proj2 (Nat.eqb_neq _ _)) by (rewrite !length_app; cbn; lia). cbn [negb].
    rewrite take_app_length. replace (drop (S (length id)) (id ++ [colon] ++ p)) with p.
    { by rewrite Hl. }
    rewrite app_assoc, drop_app_length'; [done|]. rewrite length_app. cbn. lia.
Qed.

Lemma request_text_ok r : id_request_ok r → (x0d ∉ request_text r) ∧ kCells ≤ zlen (request_text r).
Proof.
  intros (Hl & Hi & Hp & _). unfold request_text. case_bool_decide; [by split; [|lia]|].
  rewrite !length_app. split; [|lia]. rewrite !elem_of_app, list_elem_of_singleton. intros [?|[?|?]]; done.
Qed.

Lemma plain_request p : request_ok p → id_request_ok ([], p).
Proof. intros (Hl & Hcr & Hc). by split_and!; try apply not_elem_of_nil. Qed.

(** The first line ends at the first CR if that is followed by LF. *)
Lemma first_line_no_cr l rest line' rest' :
  x0d ∉ l → first_line (l ++ kCRLF ++ rest) line' rest' → line' = l ∧ rest' = rest.
Proof.
  intros Hcr [Heq Hmin]. specialize (Hmin l rest eq_refl) as Hle.
  assert (line' = take (length line') l) as Hp.
  { apply (f_equal (take (length line'))) in Heq. rewrite take_app_length, take_app_le in Heq by lia. by symmetry. }
  destruct (decide (length line' = length l)) as [El|Hlt].
  - rewrite El, firstn_all in Hp. subst line'. split; [done|]. by apply app_inv_head, app_inv_head in Heq.
  - exfalso. apply Hcr. apply (f_equal (lookup (length line'))) in Heq.
    rewrite lookup_app_l, (lookup_app_r line') in Heq by lia. rewrite Nat.sub_diag in Heq. cbn in Heq.
    by apply list_elem_of_lookup_2 in Heq.
Qed.

(** Complete requests are taken off one by one; the rest stays. *)
Lemma onMessage_lines rs part fuel acts buf :
  wf buf → Forall id_request_ok rs → content buf = concat ((λ r, line (request_text r)) <$> rs) ++ part →
  zlen part < kCells + 2 → (length rs < fuel)%nat →
  ∃ buf', onMessage_loop fuel (readableBytes buf) acts buf = Ok (acts ++ ((λ r, Run r.2 r.1) <$> rs), buf') ∧
          wf buf' ∧ content buf' = part.
Proof.
  intros Hwf Hok. revert fuel acts buf Hwf. induction Hok as [|p ps Hp Hok IH]; intros fuel acts buf Hwf Hc Hpart Hfuel.
  - destruct fuel as [|fuel]; [cbn in Hfuel; lia|]. cbn [onMessage_loop]. cbn in Hc.
    rewrite <-(length_content buf Hwf), Hc, (proj2 (Z.leb_gt _ _)) by lia. exists buf.
    cbn. by rewrite app_nil_r.
  - destruct fuel as [|fuel]; [cbn in Hfuel; lia|]. cbn [onMessage_loop].
    pose proof (length_content buf Hwf) as Hlen. pose proof (request_text_ok p Hp) as (Hcr & Hl).
    rewrite fmap_cons, concat_cons in Hc. unfold line in Hc at 1. rewrite <-!app_assoc in Hc.
    assert (kCells + 2 ≤ readableBytes buf) as Hge.
    { rewrite <-Hlen, Hc, !length_app. cbn [length kCRLF]. lia. }
    rewrite (proj2 (Z.leb_le _ _)) by done. pose proof (findCRLF_cases buf Hwf) as Hf.
    destruct (findCRLF buf) as [crlf|]; [|by eapply Hf in Hc].
    destruct Hf as (l & rest & buf' & Hfl & -> & Hret & Hwf' & Hrest). rewrite Hc in Hfl.
    apply first_line_no_cr in Hfl as [-> ->]; [|done]. rewrite Hret. cbn [mbind res_bind].
    rewrite processRequest_ok by done. cbn [negb].
    destruct (IH fuel (acts ++ [Run p.2 p.1]) buf' Hwf' Hrest Hpart) as (b2 & H2 & ? & ?); [cbn in Hfuel; lia|].
    exists b2. rewrite H2. split; [|done]. by rewrite <-app_assoc.
Qed.

(** Any prefix of a stream of lines is some complete lines and a part of the next one. *)
Definition part_of_next (ps : list (list byte)) (tail part : list byte) : Prop :=
  match ps with [] => zlen part ≤ zlen tail | p :: _ => zlen part < zlen (line p) end.

Lemma split_lines ps tail t rest :
  t ++ rest = concat (line <$> ps) ++ tail →
  ∃ ps1 ps2 part, ps = ps1 ++ ps2 ∧ t = concat (line <$> ps1) ++ part ∧
                  part ++ rest = concat (line <$> ps2) ++ tail ∧ part_of_next ps2 tail part.
Proof.
  revert t. induction ps as [|p ps IH]; intros t Heq; cbn in Heq.
  - exists [], [], t. split_and!; [done..|]. cbn. rewrite <-Heq, length_app. lia.
  - destruct (decide (zlen t < zlen (line p))) as [Hlt|Hge].
    { exists [], (p :: ps), t. by split_and!. }
    rewrite <-app_assoc in Heq.
    assert (t = line p ++ drop (length (line p)) t) as Ht.
    { rewrite <-(take_drop (length (line p)) t) at 1. f_equal.
      apply (f_equal (take (length (line p)))) in Heq. rewrite take_app_le in Heq by lia.
      by rewrite Heq, take_app_length. }
    rewrite Ht, <-app_assoc in Heq. apply app_inv_head in Heq.
    destruct (IH _ Heq) as (ps1 & ps2 & part & -> & Ht' & Hrest & Hpart).
    exists (p :: ps1), ps2, part. split_and!; try done. cbn. by rewrite <-app_assoc, <-Ht'.
Qed.

Lemma length_lines ps : (length ps ≤ length (concat (line <$> ps)))%nat.
Proof. induction ps as [|p ps IH]; [done|]. cbn. unfold line at 1. rewrite !length_app. cbn. lia. Qed.

Lemma length_line p : zlen (line p) = zlen p + 2.
Proof. unfold line. rewrite length_app. cbn. lia. Qed.

Lemma feed_spec chunks ps buf :
  wf buf → Forall request_ok ps → zlen (content buf) < kCells + 2 →
  content buf ++ concat chunks = concat (line <$> ps) →
  Forall (λ d, zlen d ≤ 2 ^ 40) chunks →
  ∃ buf', feed chunks buf = Ok ((λ p, Run p []) <$> ps, buf') ∧ wf buf' ∧ content buf' = [].
Proof.
  intros Hwf Hok Hlt Heq Hd. revert ps buf Hwf Hok Hlt Heq.
  induction Hd as [|d chunks Hd Hds IH]; intros ps buf Hwf Hok Hlt Heq; cbn in Heq.
  - rewrite app_nil_r in Heq. exists buf. destruct ps as [|p ps]; [by rewrite Heq|]. exfalso.
    cbn in Heq. rewrite Heq, length_app in Hlt. inversion Hok as [|?? (Hl & _)]; subst.
    pose proof (length_line p). lia.
  - rewrite app_assoc, <-(app_nil_r (concat (line <$> ps))) in Heq.
    destruct (split_lines ps [] (content buf ++ d) (concat chunks) Heq) as (ps1 & ps2 & part & -> & Ht & Hrest & Hp).
    apply Forall_app in Hok as [Hok1 Hok2]. rewrite app_nil_r in Hrest.
    assert (zlen part < kCells + 2) as Hpart.
    { destruct Hok2 as [|p ? (Hl & _)]; [unfold kCells; cbn in Hp; lia|]. cbn in Hp. rewrite length_line in Hp. lia. }
    change (2 ^ 40) with 1099511627776 in Hd. unfold kCells in *.
    destruct (append_spec buf d) as (b1 & Ha & Hwf1 & Hc1 & _); [done|unfold_consts; lia| |].
    { apply room_of_readable; [done|lia|]. rewrite <-length_content by done. unfold_consts. lia. }
    cbn [feed]. rewrite Ha. cbn [mbind res_bind]. unfold onMessage.
    destruct (onMessage_lines (pair [] <$> ps1) part (S (Z.to_nat (readableBytes b1))) [] b1) as (b2 & -> & Hwf2 & Hc2); try done.
    { apply Forall_fmap. eapply Forall_impl; [exact Hok1|]. apply plain_request. }
    { by rewrite Hc1, Ht, <-list_fmap_compose. }
    { rewrite length_fmap, <-(length_content b1 Hwf1), Hc1, Ht, length_app. pose proof (length_lines ps1). lia. }
    rewrite <-list_fmap_compose.
    cbn [mbind res_bind app]. destruct (IH ps2 b2) as (b3 & -> & ? & ?); try done; [by rewrite Hc2|by rewrite Hc2|].
    cbn [mbind res_bind]. exists b3. split; [|done]. by rewrite fmap_app.
Qed.

Lemma solve_answers p : request_ok p → ∃ answer, solve p [] = Ok (answer ++ kCRLF) ∧ answers p answer.
Proof.
  intros (Hl & _). destruct (solveSudoku_answers p Hl) as (answer & Hs & Ha). exists answer.
  unfold solve. by rewrite Hs.
Qed.

(** ** Theorems *)

(** Whole requests, with and without ids, that are in the buffer when onMessage runs are handed
    to the solver with their ids, in order, and the answer to each begins with its id. *)
Theorem requests_with_ids (rs : list (list byte * list byte)) (buf : Buffer)
    (Hwf : wf buf) (Hrs : Forall id_request_ok rs)
    (Hc : content buf = concat ((λ r, line (request_text r)) <$> rs)) :
  (∃ buf', onMessage buf = Ok ((λ r, Run r.2 r.1) <$> rs, buf') ∧ content buf' = []) ∧
  Forall (λ r, ∃ answer, solve r.2 r.1 = Ok (request_text (r.1, answer) ++ kCRLF) ∧ answers r.2 answer) rs.
Proof.
  split.
  - unfold onMessage. destruct (onMessage_lines rs [] (S (Z.to_nat (readableBytes buf))) [] buf) as (b & ? & _ & ?);
      try done; [by rewrite app_nil_r| |by exists b].
    rewrite <-(length_content buf Hwf), Hc. pose proof (length_lines (request_text <$> rs)) as Hl.
    rewrite length_fmap, <-list_fmap_compose in Hl. unfold compose in Hl. lia.
  - eapply Forall_impl; [exact Hrs|]. intros [id p] (Hl & _). cbn [fst snd] in *.
    destruct (solveSudoku_answers p Hl) as (answer & Hs & Ha). exists answer. split; [|done].
    unfold solve, request_text. rewrite Hs. cbn. case_bool_decide; [done|]. by rewrite <-app_assoc.
Qed.

(** C25: requests are recognised however TCP cuts the stream. When a client sends requests
    without ids, each a line of 81 cells, then whatever the pieces in which the bytes
    arrive, every puzzle is handed to the solver exactly once, in order, nothing is
    rejected, and no byte is left over; the task sends one line back, a solution of the
    puzzle or NoSolution when it has none. (With ids this fails when a piece ends inside a
    request of 83 bytes or more: [unfinished_request_aborts]; whole requests with ids:
    [requests_with_ids].) *)
Theorem requests_any_chunks (ps : list (list byte)) (chunks : list (list byte)) (buf : Buffer)
    (Hps : Forall request_ok ps) (Hchunks : concat chunks = concat (line <$> ps))
    (Hsize : Forall (λ d, zlen d ≤ 2 ^ 40) chunks) (Hnew : newBuffer kInitialSize = Ok buf) :
  (∃ buf', feed chunks buf = Ok ((λ p, Run p []) <$> ps, buf') ∧ content buf' = []) ∧
  Forall (λ p, ∃ answer, solve p [] = Ok (answer ++ kCRLF) ∧ answers p answer) ps.
Proof.
  split; [|by eapply Forall_impl; [exact Hps|apply solve_answers]].
  destruct (newBuffer_spec kInitialSize) as (b & Hb & Hwf & Hc & _); [by vm_compute..|].
  rewrite Hb in Hnew. injection Hnew as ->.
  destruct (feed_spec chunks ps buf) as (b' & ? & _ & ?); try done; [by rewrite Hc| |by exists b']. by rewrite Hc.
Qed.

Lemma onMessage_loop_spec fuel acts buf :
  wf buf → readableBytes buf < 2 * Z.of_nat fuel →
  match onMessage_loop fuel (readableBytes buf) acts buf with
  | Ok (acts', buf') =>
      wf buf' ∧ (∃ new, acts' = acts ++ new) ∧ (∃ used, content buf = used ++ content buf') ∧
      (kCells + 2 ≤ readableBytes buf' → Shutdown ∈ acts')
  | Err f => f = FatalAbort
  end.
Proof.
  revert acts buf. induction fuel as [|fuel IH]; intros acts buf Hwf Hf.
  { pose proof (length_content buf Hwf). lia. }
  cbn [onMessage_loop]. destruct (Z.leb_spec (kCells + 2) (readableBytes buf)) as [Hge|Hlt].
  2: { split_and!; [done|exists []; by rewrite app_nil_r|by exists []|lia]. }
  pose proof (findCRLF_cases buf Hwf) as Hc. destruct (findCRLF buf) as [crlf|].
  - destruct Hc as (l & rest & b' & [Hfl _] & -> & Hret & Hwf' & Hrest). rewrite Hret. cbn [mbind res_bind].
    destruct (processRequest l) as [good a]. destruct good; cbn [negb].
    + pose proof (length_content buf Hwf) as Hl. pose proof (length_content b' Hwf') as Hl'.
      rewrite Hfl, !length_app in Hl. rewrite Hrest in Hl'. cbn [length kCRLF] in Hl.
      specialize (IH (acts ++ a) b' Hwf' ltac:(lia)).
      destruct (onMessage_loop fuel _ _ b') as [[acts' b2]|]; [|done].
      destruct IH as (? & (new & ->) & (used & Hu) & ?). split_and!; try done.
      * exists (a ++ new). by rewrite app_assoc.
      * exists (l ++ kCRLF ++ used). rewrite Hfl, <-Hrest, Hu. by rewrite !app_assoc.
    + split_and!; try done.
      * by eexists.
      * exists (l ++ kCRLF). rewrite Hfl, <-Hrest. by rewrite app_assoc.
      * intros _. rewrite !elem_of_app. right. right. right. left.
  - destruct (100 <? readableBytes buf); [|done]. split_and!; try done.
    + by eexists.
    + by exists [].
    + intros _. rewrite elem_of_app. right. right. left.
Qed.

(** Whatever bytes a client sends, onMessage comes to an end, reads only what is in the
    buffer and removes only a prefix of it; when it stops with room for another request
    still unread it has shut the connection down; the only way it fails is the LOG_FATAL. *)
Theorem onMessage_safe (buf : Buffer) (Hwf : wf buf) :
  match onMessage buf with
  | Ok (acts, buf') =>
      wf buf' ∧ (∃ used, content buf = used ++ content buf') ∧
      (kCells + 2 ≤ readableBytes buf' → Shutdown ∈ acts)
  | Err f => f = FatalAbort
  end.
Proof.
  unfold onMessage. pose proof (length_content buf Hwf).
  pose proof (onMessage_loop_spec (S (Z.to_nat (readableBytes buf))) [] buf Hwf ltac:(lia)) as Hs.
  destruct (onMessage_loop _ _ _ _) as [[acts b]|]; [|done]. by destruct Hs as (? & _ & ? & ?).
Qed.

(** A request with an id can bring the server down. Between 83 and 100 bytes without a
    CRLF, which is what an unfinished request with an id looks like, end in LOG_FATAL, which
    aborts the process. *)
Theorem unfinished_request_aborts (buf : Buffer) (Hwf : wf buf)
    (Hlen : kCells + 2 ≤ readableBytes buf ≤ 100) (Hcrlf : ∀ l rest, content buf ≠ l ++ kCRLF ++ rest) :
  onMessage buf = Err FatalAbort.
Proof.
  unfold onMessage. cbn [onMessage_loop]. rewrite (proj2 (Z.leb_le _ _)) by lia.
  pose proof (findCRLF_cases buf Hwf) as Hc. destruct (findCRLF buf) as [crlf|].
  - destruct Hc as (l & rest & b' & [Hfl _] & _). by destruct (Hcrlf l rest).
  - by rewrite (proj2 (Z.ltb_ge _ _)) by lia.
Qed.

(** ** Witnesses *)
Definition empty_puzzle : list byte := replicate 81 x30.
Definition demo_buffer : Buffer := match newBuffer kInitialSize with Ok b => b | Err _ => mkBuffer [] 0 0 end.

Lemma requests_any_chunks_witness :
  request_ok empty_puzzle ∧
  ∃ buf', feed [replicate 50 x30; replicate 31 x30 ++ [x0d]; [x0a]] demo_buffer = Ok ([Run empty_puzzle []], buf') ∧
          content buf' = [].
Proof.
  assert (request_ok empty_puzzle) as Hok.
  { split; [done|]. split; by intros [? _]%elem_of_replicate. }
  split; [exact Hok|].
  destruct (requests_any_chunks [empty_puzzle] [replicate 50 x30; replicate 31 x30 ++ [x0d]; [x0a]] demo_buffer)
    as ((b & Hb & Hc) & _).
  - by constructor.
  - by vm_compute.
  - by repeat constructor.
  - by vm_compute.
  - exists b. split; [exact Hb|exact Hc].
Defined.

(** "id too long": 101 bytes without a line end *)
Definition long_buffer : Buffer := mkBuffer (replicate 8 x00 ++ replicate 101 x31) 8 109.
Lemma onMessage_safe_witness :
  wf long_buffer ∧ ∃ acts buf', onMessage long_buffer = Ok (acts, buf') ∧ wf buf' ∧ Shutdown ∈ acts.
Proof.
  assert (wf long_buffer) as Hwf by (by vm_compute). split; [exact Hwf|].
  pose proof (onMessage_safe long_buffer Hwf) as Hs.
  destruct (onMessage long_buffer) as [[acts b]|] eqn:E.
  - exists acts, b. destruct Hs as (H1 & _ & H2). split; [reflexivity|]. split; [exact H1|].
    apply H2. vm_compute in E. injection E as _ <-. by vm_compute.
  - by vm_compute in E.
Defined.

(** An unfinished request: an id of eight digits, a colon and the puzzle, still without CRLF. *)
Definition unfinished_buffer : Buffer :=
  mkBuffer (replicate 8 x00 ++ replicate 8 x31 ++ [colon] ++ replicate 81 x30) 8 98.
Lemma unfinished_request_aborts_witness : onMessage unfinished_buffer = Err FatalAbort.
Proof.
  apply (unfinished_request_aborts unfinished_buffer); [by vm_compute|by vm_compute|].
  intros l rest E. assert (x0d ∈ content unfinished_buffer) as Hin.
  { rewrite E, !elem_of_app. right. left. left. }
  change (content unfinished_buffer) with (replicate 8 x31 ++ [colon] ++ replicate 81 x30) in Hin.
  rewrite !elem_of_app, !elem_of_replicate, list_elem_of_singleton in Hin.
  by destruct Hin as [[? _]|[?|[? _]]].
Defined.
End Sudoku.
