(* ===== verification/SudokuBatch.v ===== *)
(** * The Sudoku batch client (net/sudoku/batch.cc)

    A load generator: runClient reads a file of puzzles, opens a number of connections, sends
    every puzzle on each and counts the lines that come back. A client calls [cb_], the
    function [done], when it has as many answers as puzzles; when all clients have, done has
    the loop quit one second later. [event]s are what the loop reports: a connection is up or
    down, or bytes have arrived on it. What a client does is returned as a list of actions.
    The text of the log lines is left out. *)

From S2P Require Import Prelude Buffer Timestamp LogStream Format SudokuSolver SudokuBuild SudokuRules SudokuServer.

Module Batch.
Import Buf Ts Log Format Solver Rules.

(** ** The input file *)
Definition newline : byte := x0a.

(** std::getline until it fails: the last line counts without its newline if it is not empty. *)
Fixpoint getlines (line : list byte) (l : list byte) : list (list byte) :=
  match l with
  | [] => if bool_decide (line = []) then [] else [line]
  | b :: l => if bool_decide (b = newline) then line :: getlines [] l else getlines (line ++ [b]) l
  end.

(** A std::string from line.c_str() ends at the first NUL. *)
Fixpoint c_str (l : list byte) : list byte :=
  match l with [] => [] | b :: l => if bool_decide (b = x00) then [] else b :: c_str l end.

Definition readInput (file : list byte) : list (list byte) :=
  c_str <$> filter (λ line, line ≠ []) (getlines [] file).

(** ** SudokuClient *)
Record SudokuClient := mkClient {
  name_ : list byte;
  input_ : list (list byte);
  count_ : Z;
  start_ : Timestamp;
}.

Inductive action :=
  | Send (message : list byte)
  | Done (name : list byte) (elapsed : double) (count : Z)     (* cb_(name_, elapsed, count_) *)
  | Shutdown.

Definition newClient (name : list byte) (input : list (list byte)) : SudokuClient :=
  mkClient name input 0 (mkTimestamp 0).

Definition verify (result : list byte) : bool := true.

(** LogStream buf; buf << line << "\r\n" *)
Definition request (line : list byte) : res (list byte) :=
  buf ← put_string line (newFixed kSmallBuffer);
  buf ← put_cstr (Some kCRLF) buf;
  Ok (fixed_toString buf).

Definition onConnection (connected : bool) (now : Timestamp) (c : SudokuClient) : res (list action * SudokuClient) :=
  if connected then
    sends ← mfold (λ line acts, m ← request line; Ok (acts ++ [Send m])) (input_ c) [];
    Ok (sends, mkClient (name_ c) (input_ c) (count_ c) now)
  else Ok ([], c).

Fixpoint onMessage_loop (fuel : nat) (len count : Z) (buf : Buffer) : res (list action * Z * Buffer) :=
  match fuel with
  | O => Err Diverges
  | S fuel =>
      if kCells + 2 <=? len then
        match findCRLF buf with
        | Some crlf =>
            let response := range buf (peek buf) crlf in
            buf ← retrieveUntil buf (crlf + 2);
            let len := readableBytes buf in
            count ← checked 32 [] (count + 1);
            if negb (verify response) then Ok ([Shutdown], count, buf)
            else onMessage_loop fuel len count buf
        | None => if 100 <? len then Ok ([Shutdown], count, buf) else Ok ([], count, buf)
        end
      else Ok ([], count, buf)
  end.

Definition onMessage (now : Timestamp) (c : SudokuClient) (buf : Buffer) : res (list action * SudokuClient * Buffer) :=
  let len := readableBytes buf in
  '(acts, count, buf) ← onMessage_loop (S (Z.to_nat len)) len (count_ c) buf;
  let c := mkClient (name_ c) (input_ c) count (start_ c) in
  if count =? i32 (zlen (input_ c)) then
    elapsed ← timeDifference now (start_ c);
    Ok (acts ++ [Done (name_ c) elapsed count; Shutdown], c, buf)
  else Ok (acts, c, buf).

(** Bytes arrive: the connection has read them into its input buffer. *)
Definition arrive (now : Timestamp) (d : list byte) (c : SudokuClient) (buf : Buffer) : res (list action * SudokuClient * Buffer) :=
  buf ← append buf d (zlen d); onMessage now c buf.

(** The answers to one client, in pieces. *)
Fixpoint feed (chunks : list (Timestamp * list byte)) (c : SudokuClient) (buf : Buffer) : res (list action * SudokuClient * Buffer) :=
  match chunks with
  | [] => Ok ([], c, buf)
  | (now, d) :: chunks =>
      '(acts, c, buf) ← arrive now d c buf;
      '(acts', c, buf) ← feed chunks c buf;
      Ok (acts ++ acts', c, buf)
  end.

(** ** The whole program: clients on one loop

    A client stands with the input buffer of its connection; [scheduled] counts the calls of
    g_loop->runAfter(1.0, quit). *)
Record batch := mkBatch {
  clients : list (SudokuClient * Buffer);
  g_finished : Z;
  g_connections : Z;
  scheduled : nat;
}.

Definition client_name (i : Z) : res (list byte) :=
  n ← checked 32 [] (i + 1);
  Fmt ([x63; x6c; x69; x65; x6e; x74; x2d] ++ fmt_0d 3 n).          (* "client-%03d" *)

Definition add_client (input : list (list byte)) (i : Z) (clients : list (SudokuClient * Buffer)) : res (list (SudokuClient * Buffer)) :=
  name ← client_name i;
  buf ← newBuffer kInitialSize;
  Ok (clients ++ [(newClient name input, buf)]).

Definition runClient (file : list byte) (conn : Z) : res batch :=
  let input := readInput file in
  clients ← mfold (add_client input) (seqZ 0 conn) [];
  Ok (mkBatch clients 0 conn 0).

Definition done (b : batch) : res batch :=
  finished ← checked 32 [] (g_finished b + 1);
  Ok (mkBatch (clients b) finished (g_connections b)
        (if finished =? g_connections b then S (scheduled b) else scheduled b)).

Definition perform (a : action) (b : batch) : res batch :=
  match a with Done _ _ _ => done b | Send _ | Shutdown => Ok b end.

Inductive event :=
  | Connection (i : nat) (connected : bool) (now : Timestamp)
  | Data (i : nat) (now : Timestamp) (d : list byte).

Definition set_client (i : nat) (cb : SudokuClient * Buffer) (b : batch) : batch :=
  mkBatch (<[i := cb]> (clients b)) (g_finished b) (g_connections b) (scheduled b).

Definition handle (e : event) (b : batch) : res batch :=
  match e with
  | Connection i connected now =>
      match clients b !! i with
      | Some (c, buf) => '(acts, c) ← onConnection connected now c;
                         mfold perform acts (set_client i (c, buf) b)
      | None => Ok b
      end
  | Data i now d =>
      match clients b !! i with
      | Some (c, buf) => '(acts, c, buf) ← arrive now d c buf;
                         mfold perform acts (set_client i (c, buf) b)
      | None => Ok b
      end
  end.

(** ** Answers on the wire *)
(** An answer a client can read in any pieces: long enough to be looked for, and short enough
    that a part of it is not taken for a runaway line. *)
Definition answer_ok (r : list byte) : Prop := kCells ≤ zlen r ≤ 99 ∧ (x0d ∉ r).

(** What makes the loop stop and wait. *)
Definition incomplete (part : list byte) : Prop :=
  zlen part < kCells + 2 ∨ (zlen part ≤ 100 ∧ ∀ l rest, part ≠ l ++ kCRLF ++ rest).

(** ** Lemmas *)
Lemma int_checked n : 0 ≤ n < 2 ^ 31 → checked 32 [] n = Ok n.
Proof. intros H. apply checked_ok. repeat constructor; unfold in_s; change (2 ^ (32 - 1)) with (2 ^ 31); lia. Qed.

Lemma loop_stops part fuel count buf :
  wf buf → content buf = part → incomplete part →
  onMessage_loop (S fuel) (readableBytes buf) count buf = Ok ([], count, buf).
Proof.
  intros Hwf Hc Hpart. cbn [onMessage_loop]. pose proof (length_content buf Hwf) as Hl. rewrite Hc in Hl.
  destruct (Z.leb_spec (kCells + 2) (readableBytes buf)); [|done].
  destruct Hpart as [?|[Hle Hno]]; [lia|]. pose proof (findCRLF_cases buf Hwf) as Hf. rewrite Hc in Hf.
  destruct (findCRLF buf) as [p|].
  - destruct Hf as (l & rest & _ & [Heq _] & _). by destruct (Hno l rest).
  - by rewrite (proj2 (Z.ltb_ge _ _)) by lia.
Qed.

Lemma loop_lines rs part fuel count buf :
  wf buf → Forall answer_ok rs → content buf = concat (Sudoku.line <$> rs) ++ part → incomplete part →
  (length rs < fuel)%nat → 0 ≤ count → count + zlen rs < 2 ^ 31 →
  ∃ buf', onMessage_loop fuel (readableBytes buf) count buf = Ok ([], count + zlen rs, buf') ∧
          wf buf' ∧ content buf' = part.
Proof.
  intros Hwf Hok. revert fuel count buf Hwf.
  induction Hok as [|r rs (Hr & Hcr) Hok IH]; intros fuel count buf Hwf Hc Hpart Hfuel H0 Hmax;
    (destruct fuel as [|fuel]; [cbn in Hfuel; lia|]).
  { exists buf. cbn in Hc. rewrite (loop_stops part) by done. by rewrite Z.add_0_r. }
  cbn [onMessage_loop]. pose proof (length_content buf Hwf) as Hlen.
  cbn [fmap list_fmap concat] in Hc. unfold Sudoku.line in Hc at 1. rewrite <-!app_assoc in Hc.
  rewrite Hc, !length_app in Hlen. change (length kCRLF) with 2%nat in Hlen.
  rewrite (proj2 (Z.leb_le _ _)) by lia. pose proof (findCRLF_cases buf Hwf) as Hf.
  destruct (findCRLF buf) as [crlf|]; [|by destruct (Hf r (concat (Sudoku.line <$> rs) ++ part))].
  destruct Hf as (l & rest & buf' & Hfl & -> & -> & Hwf' & Hrest). rewrite Hc in Hfl.
  apply Sudoku.first_line_no_cr in Hfl as [-> ->]; [|done]. cbn [mbind res_bind length] in *.
  rewrite int_checked by lia.
  cbn [mbind res_bind verify negb].
  destruct (IH fuel (count + 1) buf' Hwf' Hrest Hpart) as (b2 & -> & Hb2); [lia..|].
  exists b2. split; [|done]. do 3 f_equal. lia.
Qed.

(** A proper part of an answer's line holds no CRLF. *)
Lemma part_no_crlf r part rest l l' :
  x0d ∉ r → part ++ rest = Sudoku.line r → zlen part < zlen (Sudoku.line r) → part ≠ l ++ kCRLF ++ l'.
Proof.
  intros Hcr Heq Hlt ->. unfold Sudoku.line in *. rewrite <-!app_assoc in Heq.
  destruct (decide (length l < length r)%nat) as [Hl|Hl].
  - apply Hcr. apply (f_equal (lookup (length l))) in Heq.
    rewrite lookup_app_r, Nat.sub_diag, (lookup_app_l r) in Heq by lia. cbn in Heq. symmetry in Heq.
    by apply list_elem_of_lookup_2 in Heq.
  - rewrite !length_app in Hlt. cbn in Hlt. lia.
Qed.

Lemma next_incomplete rs tail part rest :
  Forall answer_ok rs → zlen tail < kCells + 2 → part ++ rest = concat (Sudoku.line <$> rs) ++ tail →
  Sudoku.part_of_next rs tail part → incomplete part.
Proof.
  intros [|r rs' (Hr & Hcr) _] Htail Heq Hpart; cbn in Hpart; [left; lia|]. right.
  rewrite Sudoku.length_line in Hpart. split; [lia|]. intros l l'.
  eapply (part_no_crlf r _ (drop (length part) (Sudoku.line r))); [done| |rewrite Sudoku.length_line; lia].
  cbn in Heq. rewrite <-app_assoc in Heq. apply (f_equal (take (length part))) in Heq.
  rewrite take_app_length, take_app_le in Heq.
  - rewrite Heq at 1. by rewrite take_drop.
  - pose proof (Sudoku.length_line r). lia.
Qed.

(** Times the clock gives, so that differences stay in 64 bits. *)
Definition good_time (t : Timestamp) : Prop := 0 ≤ microSecondsSinceEpoch_ t < 2 ^ 62.
(** What read(2) hands over at once. *)
Definition good_chunk (d : list byte) : Prop := d ≠ [] ∧ zlen d ≤ 2 ^ 40.

Lemma elapsed_ok t1 t2 : good_time t1 → good_time t2 → ∃ e, timeDifference t1 t2 = Ok e.
Proof.
  intros [??] [??]. unfold timeDifference. rewrite checked_ok; [by eexists|].
  repeat constructor; unfold in_s; change (2 ^ (64 - 1)) with (2 * 2 ^ 62); lia.
Qed.

(** A client in the middle of its answers: [rs] have not been counted, [tail] follows them,
    and of all this [rest] has not arrived. *)
Record waiting (rs : list (list byte)) (tail rest : list byte) (c : SudokuClient) (buf : Buffer) : Prop := {
  wt_wf : wf buf;
  wt_answers : Forall answer_ok rs;
  wt_tail : zlen tail < kCells + 2;
  wt_stream : content buf ++ rest = concat (Sudoku.line <$> rs) ++ tail;
  wt_part : Sudoku.part_of_next rs tail (content buf);
  wt_count : 0 ≤ count_ c;
  wt_more : count_ c + zlen rs ≤ zlen (input_ c) < 2 ^ 31;
  wt_start : good_time (start_ c);
}.

Definition advance (k : Z) (c : SudokuClient) : SudokuClient :=
  mkClient (name_ c) (input_ c) (count_ c + k) (start_ c).

Definition report (now : Timestamp) (c : SudokuClient) : list action :=
  match timeDifference now (start_ c) with
  | Ok elapsed => if count_ c =? zlen (input_ c) then [Done (name_ c) elapsed (count_ c); Shutdown] else []
  | Err _ => []
  end.

Lemma waiting_incomplete rs tail rest c buf : waiting rs tail rest c buf → incomplete (content buf).
Proof. intros [????????]. by eapply next_incomplete. Qed.

Lemma onMessage_spec now c buf rs part :
  wf buf → Forall answer_ok rs → content buf = concat (Sudoku.line <$> rs) ++ part → incomplete part →
  0 ≤ count_ c → count_ c + zlen rs ≤ zlen (input_ c) < 2 ^ 31 → good_time now → good_time (start_ c) →
  ∃ buf', onMessage now c buf = Ok (report now (advance (zlen rs) c), advance (zlen rs) c, buf') ∧
          wf buf' ∧ content buf' = part.
Proof.
  intros Hwf Hok Hc Hpart H0 Hn Hnow Hstart. unfold onMessage.
  destruct (loop_lines rs part (S (Z.to_nat (readableBytes buf))) (count_ c) buf) as (b & -> & Hb); try done.
  { pose proof (length_content buf Hwf) as Hl. rewrite Hc, length_app in Hl. pose proof (Sudoku.length_lines rs). lia. }
  { lia. }
  exists b. split; [|done]. cbn [mbind res_bind input_ start_ name_]. unfold report, advance.
  cbn [count_ input_ start_ name_]. rewrite i32_small by lia.
  destruct (elapsed_ok now (start_ c) Hnow Hstart) as [e ->]. by case_match.
Qed.

Lemma arrive_spec now d rs tail rest c buf :
  waiting rs tail (d ++ rest) c buf → good_time now → zlen d ≤ 2 ^ 40 →
  ∃ rs1 rs2 buf', rs = rs1 ++ rs2 ∧
    arrive now d c buf = Ok (report now (advance (zlen rs1) c), advance (zlen rs1) c, buf') ∧
    waiting rs2 tail rest (advance (zlen rs1) c) buf'.
Proof.
  intros Hw Hnow Hd. pose proof (waiting_incomplete _ _ _ _ _ Hw) as Hinc.
  destruct Hw as [Hwf Hok Htail Hs _ H0 Hn Hstart]. change (2 ^ 40) with 1099511627776 in Hd.
  assert (zlen (content buf) ≤ 100) as Hlen by (destruct Hinc as [|[]]; unfold kCells in *; lia).
  destruct (append_spec buf d) as (b1 & Ha & Hwf1 & Hc1 & _); [done|unfold_consts; lia| |].
  { apply room_of_readable; [done|lia|]. rewrite <-length_content by done. unfold_consts. lia. }
  rewrite app_assoc, <-Hc1 in Hs. destruct (Sudoku.split_lines _ _ _ _ Hs) as (rs1 & rs2 & part & -> & Hp & Hrest & Hpart).
  apply Forall_app in Hok as [Hok1 Hok2]. rewrite length_app in Hn.
  destruct (onMessage_spec now c b1 rs1 part) as (b2 & Hm & Hwf2 & Hc2); try done; [by eapply next_incomplete|lia|].
  exists rs1, rs2, b2. unfold arrive. rewrite Ha. cbn [mbind res_bind]. split_and!; [done..|].
  constructor; rewrite ?Hc2; try done; cbn [advance count_ input_]; lia.
Qed.

(** *** One client *)
Definition chunk_ok (chunk : Timestamp * list byte) : Prop := good_time chunk.1 ∧ good_chunk chunk.2.

Lemma no_chunks chunks : Forall chunk_ok chunks → concat (snd <$> chunks) = [] → chunks = [].
Proof. destruct 1 as [|[t d] ? [_ [Hd _]] _]; [done|]. by intros [? _]%app_nil. Qed.

Lemma waiting_all_arrived rs tail c buf : waiting rs tail [] c buf → rs = [].
Proof.
  intros [_ _ _ Hs Hp _ _ _]. destruct rs as [|r rs]; [done|]. exfalso. rewrite app_nil_r in Hs.
  rewrite Hs in Hp. cbn in Hp. rewrite !length_app in Hp. lia.
Qed.

Lemma waiting_nothing_left rest c buf : waiting [] [] rest c buf → content buf = [] ∧ rest = [].
Proof. intros [_ _ _ Hs _ _ _ _]. by apply app_nil in Hs. Qed.

Lemma report_partial now c : count_ c < zlen (input_ c) → report now c = [].
Proof. intros. unfold report. rewrite (proj2 (Z.eqb_neq _ _)) by lia. by case_match. Qed.

Lemma report_full now c :
  count_ c = zlen (input_ c) → good_time now → good_time (start_ c) →
  ∃ elapsed, timeDifference now (start_ c) = Ok elapsed ∧ report now c = [Done (name_ c) elapsed (count_ c); Shutdown].
Proof.
  intros Hc Hn Hs. destruct (elapsed_ok now (start_ c) Hn Hs) as [e He]. exists e. unfold report.
  by rewrite He, (proj2 (Z.eqb_eq _ _)).
Qed.

(** All the answers arrive: the client reports once, with the last piece. *)
Lemma feed_all chunks rs c buf :
  Forall chunk_ok chunks → rs ≠ [] → waiting rs [] (concat (snd <$> chunks)) c buf →
  count_ c + zlen rs = zlen (input_ c) →
  ∃ elapsed buf', feed chunks c buf = Ok ([Done (name_ c) elapsed (zlen (input_ c)); Shutdown], advance (zlen rs) c, buf') ∧
    content buf' = [].
Proof.
  intros Hok. revert rs c buf. induction Hok as [|[now d] chunks [Hnow [Hd Hmax]] Hok IH]; intros rs c buf Hne Hw Hn.
  { by apply waiting_all_arrived in Hw. }
  cbn [fmap list_fmap concat] in Hw.
  destruct (arrive_spec now d rs [] _ c buf Hw Hnow Hmax) as (rs1 & rs2 & b1 & -> & Ha & Hw1).
  cbn [feed]. rewrite Ha. cbn [mbind res_bind]. destruct (decide (rs2 = [])) as [->|Hne2].
  - apply waiting_nothing_left in Hw1 as Hnil. destruct Hnil as [Hc Hrest]. apply no_chunks in Hrest as ->; [|done].
    rewrite app_nil_r in *. destruct (report_full now (advance (zlen rs1) c)) as (e & _ & ->); try done.
    { apply Hw. }
    exists e, b1. split; [|done]. cbn [feed mbind res_bind app advance name_ count_]. by rewrite Hn.
  - rewrite length_app in Hn. assert (0 < length rs2)%nat by (destruct rs2; [done|cbn; lia]).
    rewrite report_partial by (cbn [advance count_ input_]; lia). cbn [app].
    destruct (IH rs2 _ b1 Hne2 Hw1) as (e & b2 & -> & Hc); [cbn [advance count_ input_]; lia|].
    exists e, b2. split; [|done]. cbn [mbind res_bind advance name_ count_ input_ start_]. do 2 f_equal. f_equal. unfold advance. cbn.
    f_equal. rewrite length_app. lia.
Qed.

(** Fewer answers than puzzles are counted: the client goes on waiting. *)
Lemma feed_short chunks rs tail c buf :
  Forall chunk_ok chunks → waiting rs tail (concat (snd <$> chunks)) c buf →
  count_ c + zlen rs < zlen (input_ c) →
  ∃ buf', feed chunks c buf = Ok ([], advance (zlen rs) c, buf') ∧ content buf' = tail.
Proof.
  intros Hok. revert rs c buf. induction Hok as [|[now d] chunks [Hnow [Hd Hmax]] Hok IH]; intros rs c buf Hw Hn.
  { pose proof (wt_stream _ _ _ _ _ Hw) as Hs. apply waiting_all_arrived in Hw as ->. rewrite app_nil_r in Hs.
    exists buf. split; [|done]. cbn. unfold advance. rewrite Z.add_0_r. by destruct c. }
  cbn [fmap list_fmap concat] in Hw.
  destruct (arrive_spec now d rs tail _ c buf Hw Hnow Hmax) as (rs1 & rs2 & b1 & -> & Ha & Hw1).
  rewrite length_app in Hn. cbn [feed]. rewrite Ha. cbn [mbind res_bind].
  rewrite report_partial by (cbn [advance count_ input_]; lia).
  destruct (IH rs2 _ b1 Hw1) as (b2 & -> & Hc); [cbn [advance count_ input_]; lia|]. exists b2. split; [|done].
  cbn [mbind res_bind app]. do 3 f_equal. unfold advance. cbn. f_equal. rewrite length_app. lia.
Qed.

Lemma waiting_start rs tail c buf :
  wf buf → content buf = [] → Forall answer_ok rs → zlen tail < kCells + 2 → 0 ≤ count_ c →
  count_ c + zlen rs ≤ zlen (input_ c) < 2 ^ 31 → good_time (start_ c) →
  waiting rs tail (concat (Sudoku.line <$> rs) ++ tail) c buf.
Proof.
  intros Hwf Hc Hok Ht H0 Hn Hs. constructor; try done; rewrite Hc; [done|].
  destruct rs as [|r rs]; cbn; [lia|]. rewrite Sudoku.length_line. lia.
Qed.

(** *** What a client sends *)
Lemma request_spec p : ∃ m, request p = Ok m ∧ (zlen p < kSmallBuffer - 2 → m = Sudoku.line p).
Proof.
  unfold request, put_string, put_cstr.
  assert (fixed_wf (newFixed kSmallBuffer)) as Hwf by (unfold fixed_wf, newFixed; cbn [cur_ data_]; lia).
  destruct (fixed_append_spec p _ Hwf) as (b1 & -> & Hwf1 & Hl1 & Ht1).
  destruct (fixed_append_spec kCRLF _ Hwf1) as (b2 & Hb2 & _ & _ & Ht2).
  cbn [mbind res_bind]. rewrite Hb2. cbn [mbind res_bind]. eexists. split; [done|]. intros Hp.
  assert (avail (newFixed kSmallBuffer) = kSmallBuffer) as Hav.
  { unfold avail, newFixed. cbn [cur_ data_]. by rewrite length_replicate. }
  rewrite Hav, (proj2 (Z.ltb_lt _ _)) in Ht1 by lia. change (fixed_toString (newFixed kSmallBuffer)) with (@nil byte) in Ht1.
  rewrite Ht2, Ht1, (proj2 (Z.ltb_lt _ _)); [done|]. unfold avail. rewrite Hl1, <-(length_toString b1 Hwf1), Ht1.
  cbn [newFixed data_]. rewrite length_replicate. cbn [app length kCRLF]. unfold kSmallBuffer in *. lia.
Qed.

Lemma sends_spec ps acts :
  ∃ ms, mfold (λ line acts, m ← request line; Ok (acts ++ [Send m])) ps acts = Ok (acts ++ (Send <$> ms)) ∧
        (Forall (λ p, zlen p < kSmallBuffer - 2) ps → ms = Sudoku.line <$> ps).
Proof.
  revert acts. induction ps as [|p ps IH]; intros acts; cbn [mfold].
  { exists []. by rewrite app_nil_r. }
  destruct (request_spec p) as (m & -> & Hm). cbn [mbind res_bind]. destruct (IH (acts ++ [Send m])) as (ms & -> & Hms).
  exists (m :: ms). rewrite <-app_assoc. split; [done|]. intros [??]%Forall_cons. cbn. rewrite Hm, Hms by done. done.
Qed.

(** *** The input file *)
Definition puzzle_line (p : list byte) : Prop := p ≠ [] ∧ (newline ∉ p) ∧ (x00 ∉ p).

Lemma getlines_line p acc l : newline ∉ p → getlines acc (p ++ [newline] ++ l) = (acc ++ p) :: getlines [] l.
Proof.
  revert acc. induction p as [|b p IH]; intros acc Hp; [by rewrite app_nil_r|].
  apply not_elem_of_cons in Hp as [Hb Hp]. cbn. rewrite bool_decide_false by congruence.
  rewrite IH by done. by rewrite <-app_assoc.
Qed.

Lemma c_str_whole l : x00 ∉ l → c_str l = l.
Proof.
  induction l as [|b l IH]; [done|]. intros [Hb Hl]%not_elem_of_cons. cbn.
  rewrite bool_decide_false by congruence. by rewrite IH.
Qed.

Lemma readInput_lines ps : Forall puzzle_line ps → readInput (concat ((λ p, p ++ [newline]) <$> ps)) = ps.
Proof.
  unfold readInput. induction 1 as [|p ps (Hne & Hnl & H0) _ IH]; [done|]. cbn [fmap list_fmap concat].
  rewrite <-app_assoc, getlines_line by done. cbn [app]. rewrite filter_cons_True by done.
  cbn [fmap list_fmap]. rewrite c_str_whole by done. f_equal. exact IH.
Qed.

(** *** What the server answers *)
Lemma read_cell_cr : read_cell x0d = -35.
Proof. by vm_compute. Qed.

Lemma solution_ok board a : solution board (read_cell <$> a) → answer_ok a.
Proof.
  intros (Hl & Hv & _). rewrite length_fmap in Hl. split; [unfold kCells; lia|].
  intros [i Hi]%list_elem_of_lookup. apply lookup_lt_Some in Hi as Hlt. specialize (Hv (Z.of_nat i) ltac:(lia)).
  unfold Build.val in Hv. rewrite Nat2Z.id, list_lookup_total_alt, list_lookup_fmap, Hi in Hv. cbn in Hv.
  rewrite read_cell_cr in Hv. lia.
Qed.

(** A puzzle that can be solved. *)
Definition puzzle_ok (p : list byte) : Prop :=
  zlen p = kCells ∧ digits (read_cell <$> p) ∧ ∃ g, solution (read_cell <$> p) g.

Lemma digits_not p b : digits (read_cell <$> p) → ¬ (0 ≤ read_cell b ≤ 9) → b ∉ p.
Proof. intros Hd Hb Hin. apply Hb. unfold digits in Hd. rewrite Forall_fmap, Forall_forall in Hd. by apply Hd. Qed.

Lemma puzzle_ok_request p : puzzle_ok p → Sudoku.request_ok p ∧ puzzle_line p.
Proof.
  intros (Hl & Hd & _). unfold Sudoku.request_ok, puzzle_line. split_and!; try done;
    try (apply digits_not; [done|]; vm_compute; intuition congruence).
  intros ->. unfold kCells in Hl. cbn in Hl. lia.
Qed.

Lemma puzzle_ok_answer p : puzzle_ok p →
  ∃ r, Sudoku.solve p [] = Ok (Sudoku.line r) ∧ solution (read_cell <$> p) (read_cell <$> r).
Proof.
  intros Hp. destruct (Sudoku.solve_answers p) as (r & Hs & Ha); [by apply puzzle_ok_request|].
  exists r. split; [exact Hs|]. destruct Hp as (_ & Hd & Hg). destruct Ha as [[_ ?]|[_ []]]; [done|]. by split.
Qed.

Lemma all_answers ps : Forall puzzle_ok ps →
  ∃ rs, Forall2 (λ p r, Sudoku.solve p [] = Ok (Sudoku.line r) ∧ solution (read_cell <$> p) (read_cell <$> r)) ps rs.
Proof.
  induction 1 as [|p ps (r & Hr)%puzzle_ok_answer _ [rs Hrs]]; [by exists []|].
  exists (r :: rs). by constructor.
Qed.

Definition fresh_buffer : Buffer := match newBuffer kInitialSize with Ok b => b | Err _ => mkBuffer [] 0 0 end.
Lemma fresh_buffer_spec : newBuffer kInitialSize = Ok fresh_buffer ∧ wf fresh_buffer ∧ content fresh_buffer = [].
Proof.
  unfold fresh_buffer. destruct (newBuffer_spec kInitialSize) as (b & Hb & Hwf & Hc & _); [by vm_compute..|].
  by rewrite Hb.
Qed.

(** *** Every client on the loop *)
Lemma length_filter_insert {A} (P : A → Prop) `{∀ x, Decision (P x)} (l : list A) i x y :
  l !! i = Some x →
  (length (filter P (<[i := y]> l)) + (if decide (P x) then 1 else 0) =
   length (filter P l) + (if decide (P y) then 1 else 0))%nat.
Proof.
  intros Hi. rewrite <-(take_drop_middle l i x Hi) at 2.
  rewrite insert_take_drop by (by apply lookup_lt_Some in Hi).
  rewrite !filter_app, !filter_cons, !length_app.
  destruct (decide (P x)), (decide (P y)); cbn [length]; lia.
Qed.

Definition finished (cb : SudokuClient * Buffer) : Prop := count_ cb.1 = zlen (input_ cb.1).
#[export] Instance finished_dec cb : Decision (finished cb).
Proof. unfold finished. apply _. Defined.

(** The bytes still to arrive at client [i]. *)
Definition data (i : nat) (evs : list event) : list byte :=
  concat ((λ e, match e with Data j _ d => if decide (j = i) then d else [] | Connection _ _ _ => [] end) <$> evs).

Definition event_ok (e : event) : Prop :=
  match e with Connection _ _ now => good_time now | Data _ now d => good_time now ∧ good_chunk d end.

Definition clients_ok (n : Z) (evs : list event) (l : list (SudokuClient * Buffer)) : Prop :=
  ∀ i c buf, l !! i = Some (c, buf) →
    zlen (input_ c) = n ∧ ∃ rs, waiting rs [] (data i evs) c buf ∧ count_ c + zlen rs = n.

(** The answers still missing are on their way; done has counted the others. *)
Record running (n m : Z) (evs : list event) (b : batch) : Prop := {
  rn_clients : clients_ok n evs (clients b);
  rn_finished : g_finished b = zlen (filter finished (clients b));
  rn_connections : g_connections b = m ∧ zlen (clients b) = m ∧ m < 2 ^ 31;
  rn_scheduled : scheduled b = if decide (g_finished b = g_connections b) then 1%nat else 0%nat;
}.

(** A client that is not finished keeps the loop from quitting. *)
Lemma unfinished_left n m evs b i cb :
  running n m evs b → clients b !! i = Some cb → ¬ finished cb → g_finished b < g_connections b ∧ scheduled b = 0%nat.
Proof.
  intros [_ Hf (Hc & Hl & _) Hs] Hi Hnf. enough (g_finished b < g_connections b) as Hlt.
  { split; [done|]. rewrite Hs. by rewrite decide_False by lia. }
  rewrite Hf, Hc, <-Hl. clear Hl. apply Nat2Z.inj_lt.
  pose proof (length_filter_insert finished (clients b) i cb (mkClient [] [] 0 (mkTimestamp 0), cb.2) Hi) as Hl.
  rewrite decide_False, decide_True in Hl by done. pose proof (length_filter finished (<[i:=(mkClient [] [] 0 (mkTimestamp 0), cb.2)]> (clients b))).
  rewrite length_insert in *. lia.
Qed.

Lemma perform_sends ms b : mfold perform (Send <$> ms) b = Ok b.
Proof. by induction ms. Qed.

Lemma clients_replace n evs evs' l i c' buf' rs :
  clients_ok n evs l → (∀ j, j ≠ i → data j evs = data j evs') →
  zlen (input_ c') = n → waiting rs [] (data i evs') c' buf' → count_ c' + zlen rs = n →
  clients_ok n evs' (<[i := (c', buf')]> l).
Proof.
  intros Hcl Hd Hn Hw Hrs j c2 buf2 [(<- & [= <- <-] & _)|[Hj Hl]]%list_lookup_insert_Some; [by eauto|].
  rewrite <-Hd by done. by apply Hcl.
Qed.

(** Replacing a client by one that is as far as it was. *)
Lemma running_replace n m evs evs' b i c buf c' buf' rs :
  running n m evs b → clients b !! i = Some (c, buf) → (∀ j, j ≠ i → data j evs = data j evs') →
  zlen (input_ c') = n → waiting rs [] (data i evs') c' buf' → count_ c' + zlen rs = n →
  (finished (c', buf') ↔ finished (c, buf)) →
  running n m evs' (set_client i (c', buf') b).
Proof.
  intros [Hcl Hf Hc Hs] Hi Hd Hn Hw Hrs Hfin.
  constructor; cbn [set_client clients g_finished g_connections scheduled]; rewrite ?length_insert; try done.
  - by eapply clients_replace.
  - rewrite Hf. f_equal. pose proof (length_filter_insert finished _ _ _ (c', buf') Hi) as Hl.
    destruct (decide (finished (c, buf))), (decide (finished (c', buf'))); try tauto; lia.
Qed.

Lemma connection_runs n m evs b i connected now :
  running n m (Connection i connected now :: evs) b → good_time now →
  ∃ b', handle (Connection i connected now) b = Ok b' ∧ running n m evs b'.
Proof.
  intros Hr Hnow. assert (∀ j, data j (Connection i connected now :: evs) = data j evs) as Hd by done.
  cbn [handle]. destruct (clients b !! i) as [[c buf]|] eqn:Hi.
  2: { exists b. split; [done|]. destruct Hr. by constructor. }
  destruct (rn_clients _ _ _ _ Hr i c buf Hi) as (Hn & rs & Hw & Hrs). unfold onConnection. destruct connected.
  - destruct (sends_spec (input_ c) []) as (ms & -> & _). cbn [mbind res_bind app]. rewrite perform_sends.
    eexists. split; [done|]. eapply running_replace; try done. destruct Hw. by constructor.
  - cbn [mbind res_bind mfold]. eexists. split; [done|]. by eapply running_replace.
Qed.

(** Replacing a client by one that has just finished, and calling done. *)
Lemma running_done n m evs evs' b i c buf c' buf' :
  running n m evs b → clients b !! i = Some (c, buf) → (∀ j, j ≠ i → data j evs = data j evs') →
  zlen (input_ c') = n → waiting [] [] (data i evs') c' buf' → count_ c' = n → ¬ finished (c, buf) →
  ∃ b', done (set_client i (c', buf') b) = Ok b' ∧ running n m evs' b'.
Proof.
  intros Hr Hi Hd Hn Hw Hc Hnf. destruct (unfinished_left _ _ _ _ _ _ Hr Hi Hnf) as [Hlt Hs0].
  destruct Hr as [Hcl Hf (Hg & Hl & Hm) Hs]. unfold done. cbn [set_client clients g_finished g_connections scheduled].
  rewrite int_checked by lia. cbn [mbind res_bind]. eexists. split; [done|].
  constructor; cbn [clients g_finished g_connections scheduled]; rewrite ?length_insert.
  - eapply clients_replace; [done..|]. cbn. lia.
  - pose proof (length_filter_insert finished _ _ _ (c', buf') Hi) as Hi'.
    rewrite decide_False, decide_True in Hi' by (done || unfold finished; cbn; congruence). lia.
  - done.
  - rewrite Hs0. by destruct (Z.eqb_spec (g_finished b + 1) (g_connections b)); [rewrite decide_True|rewrite decide_False].
Qed.

Lemma data_runs n m evs b i now d :
  running n m (Data i now d :: evs) b → event_ok (Data i now d) →
  ∃ b', handle (Data i now d) b = Ok b' ∧ running n m evs b'.
Proof.
  intros Hr [Hnow [Hne Hmax]].
  assert (∀ j, j ≠ i → data j (Data i now d :: evs) = data j evs) as Hd.
  { intros j Hj. unfold data. cbn. by rewrite decide_False. }
  cbn [handle]. destruct (clients b !! i) as [[c buf]|] eqn:Hi.
  2: { exists b. split; [done|]. destruct Hr as [Hcl ???]. constructor; try done. intros j c2 b2 Hj.
       rewrite <-Hd by congruence. by apply Hcl. }
  destruct (rn_clients _ _ _ _ Hr i c buf Hi) as (Hn & rs & Hw & Hrs).
  assert (data i (Data i now d :: evs) = d ++ data i evs) as E by (unfold data; cbn; by rewrite decide_True).
  rewrite E in Hw. destruct (arrive_spec now d rs [] _ c buf Hw Hnow Hmax) as (rs1 & rs2 & b1 & -> & -> & Hw1).
  cbn [mbind res_bind]. rewrite length_app in Hrs.
  assert (¬ finished (c, buf)) as Hnf.
  { unfold finished. cbn. intros Hf. assert (rs1 = [] ∧ rs2 = []) as [-> ->].
    { destruct rs1, rs2; try done; cbn in Hrs; lia. }
    by apply waiting_nothing_left in Hw as [_ [? _]%app_nil]. }
  destruct rs2 as [|r rs2].
  - destruct (report_full now (advance (zlen rs1) c)) as (e & _ & ->); [cbn in *; lia|done|apply Hw|].
    cbn [mfold perform]. destruct (running_done n m _ evs b i c buf (advance (zlen rs1) c) b1 Hr Hi Hd) as (b' & -> & ?);
      [done|done|cbn in *; lia|done|]. by exists b'.
  - cbn [length] in Hrs. rewrite report_partial by (cbn; lia). eexists. split; [done|].
    eapply running_replace; try done; [cbn; lia|]. split; [|done]. unfold finished. cbn. lia.
Qed.

Lemma events_run n m evs evs' b :
  running n m (evs ++ evs') b → Forall event_ok evs → ∃ b', mfold handle evs b = Ok b' ∧ running n m evs' b'.
Proof.
  intros Hr Hok. revert b Hr. induction Hok as [|e evs He Hok IH]; intros b Hr; [by exists b|].
  cbn [mfold]. assert (∃ b', handle e b = Ok b' ∧ running n m (evs ++ evs') b') as (b' & -> & Hr').
  { destruct e; [by apply connection_runs|by apply data_runs]. }
  cbn [mbind res_bind]. by apply IH.
Qed.

(** *** The start *)
Lemma client_name_ok i : 0 ≤ i < 2 ^ 31 - 1 → ∃ name, client_name i = Ok name.
Proof.
  intros Hi. unfold client_name. rewrite int_checked by lia. cbn [mbind res_bind]. unfold Fmt.
  destruct (dec_spec 10 (i + 1)) as [Hl _]; [lia|change (10 ^ Z.of_nat 10) with 10000000000; lia|].
  rewrite assert_true; [by eexists|]. rewrite length_app. unfold fmt_0d, pad.
  rewrite (proj2 (Z.ltb_ge (i + 1) 0)), length_app, length_replicate by lia. cbn [length]. lia.
Qed.

Lemma add_client_ok input i acc :
  0 ≤ i < 2 ^ 31 - 1 → ∃ name, add_client input i acc = Ok (acc ++ [(newClient name input, fresh_buffer)]).
Proof.
  intros Hi. destruct (client_name_ok i Hi) as [name Hname]. exists name. unfold add_client.
  by rewrite Hname, (proj1 fresh_buffer_spec).
Qed.

Lemma make_clients input ks acc :
  Forall (λ i, 0 ≤ i < 2 ^ 31 - 1) ks →
  ∃ names, length names = length ks ∧
    mfold (add_client input) ks acc = Ok (acc ++ ((λ name, (newClient name input, fresh_buffer)) <$> names)).
Proof.
  intros His. revert acc. induction His as [|i ks Hi His IH]; intros acc.
  { exists []. by rewrite app_nil_r. }
  destruct (add_client_ok input i acc Hi) as [name Hname]. cbn [mfold]. rewrite Hname. cbn [mbind res_bind].
  destruct (IH (acc ++ [(newClient name input, fresh_buffer)])) as (names & Hl & ->).
  exists (name :: names). rewrite <-app_assoc. split; [cbn; by rewrite Hl|done].
Qed.

Lemma runClient_spec file conn :
  0 ≤ conn < 2 ^ 31 →
  ∃ names, zlen names = conn ∧
    runClient file conn =
      Ok (mkBatch ((λ name, (newClient name (readInput file), fresh_buffer)) <$> names) 0 conn 0).
Proof.
  intros Hc. destruct (make_clients (readInput file) (seqZ 0 conn) []) as (names & Hl & Hm).
  { apply Forall_forall. intros i Hi%elem_of_seqZ. lia. }
  exists names. unfold runClient. rewrite Hm. split; [|done]. rewrite Hl, length_seqZ. lia.
Qed.

Lemma none_finished input buf (names : list (list byte)) :
  0 < zlen input → filter finished ((λ name, (newClient name input, buf)) <$> names) = [].
Proof.
  intros Hin. induction names as [|name names IH]; [done|]. cbn [fmap list_fmap].
  rewrite filter_cons_False; [exact IH|]. unfold finished. cbn. lia.
Qed.

(** The clients start with all their answers to come. *)
Lemma runClient_running file conn evs :
  1 ≤ conn < 2 ^ 31 → 1 ≤ zlen (readInput file) < 2 ^ 31 →
  (∀ i, (i < Z.to_nat conn)%nat → ∃ rs, Forall answer_ok rs ∧ length rs = length (readInput file) ∧
                                        data i evs = concat (Sudoku.line <$> rs)) →
  ∃ b, runClient file conn = Ok b ∧ running (zlen (readInput file)) conn evs b.
Proof.
  intros Hconn Hin Hd. destruct (runClient_spec file conn) as (names & Hl & Hrun); [lia|].
  eexists. split; [exact Hrun|]. destruct fresh_buffer_spec as (_ & Hwf & Hc).
  constructor; cbn [clients g_finished g_connections scheduled].
  - intros i c buf Hi. rewrite list_lookup_fmap in Hi. apply fmap_Some in Hi as (name & Hi & [= -> ->]).
    apply lookup_lt_Some in Hi. split; [done|]. destruct (Hd i) as (rs & Hok & Hlen & Hs); [lia|].
    exists rs. split; [|cbn; lia]. rewrite Hs, <-(app_nil_r (concat _)).
    apply waiting_start; try done; cbn [newClient count_ input_ start_]; unfold good_time, kCells; cbn; lia.
  - by rewrite none_finished by lia.
  - rewrite length_fmap. lia.
  - by rewrite decide_False by lia.
Qed.

Lemma all_finished l : Forall finished l → filter finished l = l.
Proof. induction 1 as [|x l Hx _ IH]; [done|]. by rewrite filter_cons_True, IH. Qed.

Lemma running_end n m b : running n m [] b → Forall finished (clients b) ∧ scheduled b = 1%nat.
Proof.
  intros [Hcl Hf (Hg & Hl & _) Hs]. assert (Forall finished (clients b)) as Hall.
  { apply Forall_forall. intros [c buf] [i Hi]%list_elem_of_lookup.
    destruct (Hcl i c buf Hi) as (Hn & rs & Hw%waiting_all_arrived & Hrs). subst rs. unfold finished. cbn in *. lia. }
  split; [done|]. rewrite Hs, decide_True; [done|]. rewrite Hf, Hg, <-Hl. do 2 f_equal.
  by apply all_finished.
Qed.

(** ** Theorems *)

(** C27: the load generator waits for everyone. With at least one connection and at least one
    puzzle, however the connections' data interleave and are cut, when every client gets one answer line per puzzle, of
    81 to 99 characters, the loop is told to quit exactly once, by the client whose last
    answer comes last; as long as any client lacks bytes of an answer it is not told to. *)
Theorem batch_quits_after_last (file : list byte) (conn : Z) (evs : list event)
    (Hconn : 1 ≤ conn < 2 ^ 31) (Hinput : 1 ≤ zlen (readInput file) < 2 ^ 31) (Hevs : Forall event_ok evs)
    (Hdata : ∀ i, (i < Z.to_nat conn)%nat → ∃ rs, Forall answer_ok rs ∧ length rs = length (readInput file) ∧
                                                  data i evs = concat (Sudoku.line <$> rs)) :
  ∃ b b', runClient file conn = Ok b ∧ mfold handle evs b = Ok b' ∧
    scheduled b' = 1%nat ∧ Forall finished (clients b') ∧
    ∀ evs1 evs2 i, evs = evs1 ++ evs2 → (i < Z.to_nat conn)%nat → data i evs2 ≠ [] →
      ∃ b1, mfold handle evs1 b = Ok b1 ∧ scheduled b1 = 0%nat.
Proof.
  destruct (runClient_running file conn evs Hconn Hinput Hdata) as (b & Hb & Hr).
  rewrite <-(app_nil_r evs) in Hr. destruct (events_run _ _ _ _ _ Hr Hevs) as (b' & Hb' & Hr').
  destruct (running_end _ _ _ Hr') as [Hall Hs]. exists b, b'. split_and!; try done.
  intros evs1 evs2 i -> Hi Hne. rewrite app_nil_r in Hr. apply Forall_app in Hevs as [Hevs1 _].
  destruct (events_run _ _ _ _ _ Hr Hevs1) as (b1 & Hb1 & Hr1). exists b1. split; [done|].
  destruct (rn_connections _ _ _ _ Hr1) as (_ & Hl & _).
  destruct (lookup_lt_is_Some_2 (clients b1) i) as [[c buf] Hc]; [lia|].
  destruct (rn_clients _ _ _ _ Hr1 i c buf Hc) as (Hn & rs & Hw & Hrs).
  eapply unfinished_left; [done|done|]. unfold finished. cbn. intros Hf. destruct rs; [|cbn in Hrs; lia].
  by apply waiting_nothing_left in Hw as [_ ?].
Qed.

(** C26: a client and the server understand each other. A file with one solvable puzzle per
    line is read as those puzzles; once connected the client sends them, each on a line of
    its own; in whatever pieces the bytes reach the server, it starts one task per puzzle;
    each task answers with a solution; and in whatever order the tasks finish and whatever
    pieces the answers arrive in, the client reports exactly once, with the number of puzzles,
    then shuts the connection down, and nothing is left unread. *)
Theorem batch_session_completes (ps : list (list byte)) (name : list byte) (now : Timestamp)
    (Hps : Forall puzzle_ok ps) (Hlen : 1 ≤ zlen ps < 2 ^ 31) (Hnow : good_time now) :
  ∃ c, onConnection true now (newClient name (readInput (concat ((λ p, p ++ [newline]) <$> ps)))) =
         Ok ((λ p, Send (Sudoku.line p)) <$> ps, c) ∧
  (∀ chunks, concat chunks = concat (Sudoku.line <$> ps) → Forall (λ d, zlen d ≤ 2 ^ 40) chunks →
     ∃ buf, Sudoku.feed chunks fresh_buffer = Ok ((λ p, Sudoku.Run p []) <$> ps, buf) ∧ content buf = []) ∧
  ∃ rs, Forall2 (λ p r, Sudoku.solve p [] = Ok (Sudoku.line r) ∧ solution (read_cell <$> p) (read_cell <$> r)) ps rs ∧
  ∀ rs' chunks, rs' ≡ₚ rs → Forall chunk_ok chunks → concat (snd <$> chunks) = concat (Sudoku.line <$> rs') →
    ∃ elapsed c' buf, feed chunks c fresh_buffer = Ok ([Done name elapsed (zlen ps); Shutdown], c', buf) ∧
      content buf = [].
Proof.
  assert (Forall Sudoku.request_ok ps ∧ Forall puzzle_line ps) as [Hreq Hline].
  { apply Forall_and. eapply Forall_impl; [exact Hps|]. apply puzzle_ok_request. }
  rewrite readInput_lines by done. unfold onConnection. cbn [newClient input_ name_ count_].
  destruct (sends_spec ps []) as (ms & -> & Hms). rewrite Hms; clear Hms ms.
  2: { eapply Forall_impl; [exact Hps|]. intros p (Hl & _). rewrite Hl. by vm_compute. }
  destruct fresh_buffer_spec as (_ & Hwf & Hc). eexists. split; [|split].
  - cbn [mbind res_bind app]. by rewrite <-list_fmap_compose.
  - intros chunks Hcat Hmax. destruct (Sudoku.feed_spec chunks ps fresh_buffer) as (b & Hf & _ & Hb); try done.
    by exists b.
  - destruct (all_answers ps Hps) as [rs Hrs]. exists rs. split; [done|]. intros rs' chunks Hperm Hok Hcat.
    apply Forall2_length in Hrs as Hl. rewrite <-(Permutation_length Hperm) in Hl.
    assert (Forall answer_ok rs') as Hans.
    { rewrite Hperm. eapply Forall2_Forall_r; [exact Hrs|]. apply Forall_true. intros p r [_ ?]. by eapply solution_ok. }
    destruct (feed_all chunks rs' (mkClient name ps 0 now) fresh_buffer) as (e & b & Hf & Hb); try done.
    + intros ->. cbn in *. lia.
    + rewrite Hcat, <-(app_nil_r (concat _)). apply waiting_start; try done; cbn; lia.
    + cbn. lia.
    + by exists e, (advance (zlen rs') (mkClient name ps 0 now)), b.
Qed.

(** An answer of NoSolution can leave a client waiting for ever. The line is shorter than the
    83 bytes the loop asks for, so when it comes last, in whatever pieces, it stays in the
    buffer uncounted: the client neither reports nor closes the connection. *)
Theorem no_solution_hangs (ps rs : list (list byte)) (c : SudokuClient) (chunks : list (Timestamp * list byte))
    (Hc : input_ c = ps ∧ count_ c = 0 ∧ good_time (start_ c)) (Hrs : Forall answer_ok rs)
    (Hlen : length ps = S (length rs)) (Hmax : zlen ps < 2 ^ 31) (Hok : Forall chunk_ok chunks)
    (Hdata : concat (snd <$> chunks) = concat (Sudoku.line <$> (rs ++ [kNoSolution]))) :
  ∃ c' buf, feed chunks c fresh_buffer = Ok ([], c', buf) ∧ count_ c' = zlen ps - 1 ∧
            content buf = Sudoku.line kNoSolution.
Proof.
  destruct Hc as (<- & H0 & Hs). destruct fresh_buffer_spec as (_ & Hwf & Hc).
  rewrite fmap_app, concat_app in Hdata. cbn [fmap list_fmap concat] in Hdata. rewrite app_nil_r in Hdata.
  destruct (feed_short chunks rs (Sudoku.line kNoSolution) c fresh_buffer) as (b & Hf & Hb); try done.
  - rewrite Hdata. apply waiting_start; try done; rewrite ?H0; lia.
  - lia.
  - exists (advance (zlen rs) c), b. split_and!; try done. cbn. lia.
Qed.

(** ** Witnesses *)
Definition demo_puzzle : list byte := show demo_board.
Definition demo_answer : list byte := show demo_solved.
Definition at_time (t : Z) : Timestamp := mkTimestamp t.

Lemma demo_puzzle_ok : puzzle_ok demo_puzzle.
Proof.
  split; [by vm_compute|]. split; [apply (bool_decide_unpack _); by vm_compute|].
  destruct (solveSudoku_answers demo_puzzle) as (a & Ha & Hcase); [by vm_compute|].
  destruct Hcase as [[_ Hs]|[-> _]]; [by eexists|]. exfalso. by vm_compute in Ha.
Qed.

Lemma demo_answer_ok : answer_ok demo_answer.
Proof. split; [by vm_compute|]. apply (bool_decide_unpack _). by vm_compute. Qed.

Lemma answer_chunk r t : answer_ok r → good_time t → chunk_ok (t, Sudoku.line r).
Proof.
  intros [Hr _] Ht. pose proof (Sudoku.length_line r) as Hl. split; [exact Ht|]. cbn [snd]. split; [|lia].
  intros E. rewrite E in Hl. cbn in Hl. lia.
Qed.

Lemma batch_session_completes_witness :
  puzzle_ok demo_puzzle ∧
  ∃ c, onConnection true (at_time 5) (newClient [] (readInput (demo_puzzle ++ [newline]))) =
         Ok ([Send (Sudoku.line demo_puzzle)], c) ∧
       ∃ r, Sudoku.solve demo_puzzle [] = Ok (Sudoku.line r) ∧
            ∃ elapsed c' buf, feed [(at_time 9, Sudoku.line r)] c fresh_buffer = Ok ([Done [] elapsed 1; Shutdown], c', buf).
Proof.
  split; [exact demo_puzzle_ok|].
  destruct (batch_session_completes [demo_puzzle] [] (at_time 5)) as (c & Hsend & _ & rs & Hrs & Hfeed).
  - constructor; [exact demo_puzzle_ok|constructor].
  - by vm_compute.
  - by vm_compute.
  - exists c. split; [exact Hsend|].
    apply Forall2_cons_inv_l in Hrs as (r & rs' & [Hr Hsol%solution_ok] & ->%Forall2_nil_inv_l & ->).
    exists r. split; [exact Hr|].
    destruct (Hfeed [r] [(at_time 9, Sudoku.line r)]) as (e & c' & b & Hf & _).
    + reflexivity.
    + constructor; [apply answer_chunk; [exact Hsol|unfold good_time; cbn; lia]|constructor].
    + reflexivity.
    + exists e, c', b. exact Hf.
Defined.

(** Two clients; the second gets its answer while the first waits for the rest of its own. *)
Definition demo_events : list event :=
  [Connection 0 true (at_time 1); Connection 1 true (at_time 2);
   Data 0 (at_time 3) (take 40 (Sudoku.line demo_answer)); Data 1 (at_time 4) (Sudoku.line demo_answer);
   Data 0 (at_time 5) (drop 40 (Sudoku.line demo_answer)); Connection 1 false (at_time 6)].

Lemma batch_quits_after_last_witness :
  ∃ b b' b1, runClient (demo_puzzle ++ [newline]) 2 = Ok b ∧ mfold handle demo_events b = Ok b' ∧ scheduled b' = 1%nat ∧
    mfold handle (take 4 demo_events) b = Ok b1 ∧ scheduled b1 = 0%nat.
Proof.
  destruct (batch_quits_after_last (demo_puzzle ++ [newline]) 2 demo_events) as (b & b' & H1 & H2 & H3 & _ & H4).
  - by vm_compute.
  - by vm_compute.
  - by repeat constructor.
  - intros i Hi. exists [demo_answer]. split; [constructor; [exact demo_answer_ok|constructor]|].
    split; [by vm_compute|]. destruct i as [|[|i]]; [by vm_compute..|]. vm_compute in Hi. lia.
  - destruct (H4 (take 4 demo_events) (drop 4 demo_events) 0%nat) as (b1 & H5 & H6); [by vm_compute|cbn; lia|by vm_compute|].
    exists b, b', b1. split_and!; assumption.
Defined.

Lemma no_solution_hangs_witness :
  ∃ c' buf, feed [(at_time 7, Sudoku.line kNoSolution)] (newClient [] [demo_puzzle]) fresh_buffer = Ok ([], c', buf) ∧
            count_ c' = 0 ∧ content buf = Sudoku.line kNoSolution.
Proof.
  apply (no_solution_hangs [demo_puzzle] [] (newClient [] [demo_puzzle]) [(at_time 7, Sudoku.line kNoSolution)]).
  - by vm_compute.
  - constructor.
  - reflexivity.
  - by vm_compute.
  - by repeat constructor.
  - by vm_compute.
Defined.
End Batch.
