(* ===== verification/Mains.v ===== *)
(** * The two programs (net/sudoku/server_threadpool.cc, net/sudoku/batch.cc)

    The main functions: how the command line becomes a server with its threads, and a batch
    run with its connections. atoi is the C library's: white space, a sign, digits; a value
    that does not fit an int is undefined. Files are a parameter: [open] gives the contents of
    those that can be read. *)

From S2P Require Import Prelude Endian Timestamp LogStream Format Inet TcpConnection LoopPool TcpServer ThreadPool Buffer SudokuBatch.

Module Mains.

(** ** atoi *)
Definition is_space (b : byte) : bool :=
  bool_decide (b ∈ [x20; x09; x0a; x0b; x0c; x0d]).
Fixpoint skip_space (s : list byte) : list byte :=
  match s with b :: s' => if is_space b then skip_space s' else s | [] => [] end.
Fixpoint leading_digits (s : list byte) (acc : Z) : Z :=
  match s with
  | b :: s' => match Log.digit_value b with Some d => leading_digits s' (10 * acc + d) | None => acc end
  | [] => acc
  end.
Definition atoi (s : list byte) : res Z :=
  let s := skip_space s in
  match s with
  | x2d :: s' => checked 32 [] (- leading_digits s' 0)
  | x2b :: s' => checked 32 [] (leading_digits s' 0)
  | _ => checked 32 [] (leading_digits s 0)
  end.

(** ** The server *)
Section Server.
Context {N : Type} `{ConnectionI N} {Task : Type}.

Record SudokuServer := mkSudokuServer {
  server_ : Server.server N;
  threadPool_ : Pool.ThreadPool Task;
  numThreads_ : Z
}.

(** "SudokuServer" *)
Definition server_name : list byte := [x53; x75; x64; x6f; x6b; x75; x53; x65; x72; x76; x65; x72].

Definition newSudokuServer (loop : Z) (ipPort : list byte) (numThreads : Z) : res SudokuServer :=
  s ← Server.setThreadNum 8 (Server.newServer loop ipPort server_name);
  Ok (mkSudokuServer s Pool.newPool numThreads).

(** ThreadPool::start with its vector: reserve converts the int to size_t, and throws beyond
    max_size() of a vector of pointers. *)
Definition max_size : Z := 2 ^ 60 - 1.
Definition pool_start (numThreads : Z) (p : Pool.ThreadPool Task) : res (Pool.ThreadPool Task) :=
  _ ← assert_ (bool_decide (Pool.threads_ p = []));
  _ ← (if max_size <? u64 numThreads then Err LengthError else Ok ());
  Pool.start (Z.to_nat numThreads) p.

(** [here]: the thread's loop; [startLoop]: the loops of the I/O threads. *)
Definition start (here : Z) (startLoop : Z → Z) (s : SudokuServer) : res SudokuServer :=
  p ← pool_start (numThreads_ s) (threadPool_ s);
  srv ← Server.start here false startLoop (server_ s);
  Ok (mkSudokuServer srv p (numThreads_ s)).

Definition kPort : Z := 9981.

(** main, up to loop.loop() *)
Definition server_main (host : endianness) (loop : Z) (startLoop : Z → Z) (argv : list (list byte))
    : res SudokuServer :=
  numThreads ← (match argv with _ :: arg :: _ => atoi arg | _ => Ok 0 end);
  ipPort ← Inet.addr_toIpPort host (Inet.InetAddress_port host kPort false);
  s ← newSudokuServer loop ipPort numThreads;
  start loop startLoop s.
End Server.

(** ** The batch client *)
Inductive outcome :=
  | Usage
  | CannotOpen (input : list byte)
  | Run (serverAddr : Inet.sockaddr_in) (b : Batch.batch).

(** "127.0.0.1" *)
Definition localhost : list byte := [x31; x32; x37; x2e; x30; x2e; x30; x2e; x31].

(** The cases of the switch fall through from 4 to 2. *)
Definition batch_main (host : endianness) (open : list byte → option (list byte))
    (argv : list (list byte)) : res outcome :=
  let serverAddr := Inet.InetAddress_ip host localhost kPort in
  args ← (match argv with
          | [_; input; ip; n] =>
              conn ← atoi n; Ok (Some (input, Inet.InetAddress_ip host ip kPort, conn))
          | [_; input; ip] => Ok (Some (input, Inet.InetAddress_ip host ip kPort, 1))
          | [_; input] => Ok (Some (input, serverAddr, 1))
          | _ => Ok None
          end);
  match args with
  | None => Ok Usage
  | Some (input, serverAddr, conn) =>
      match open input with
      | Some file => b ← Batch.runClient file conn; Ok (Run serverAddr b)
      | None => Ok (CannotOpen input)
      end
  end.

(** ** Lemmas *)
Lemma leading_digits_parse s acc v :
  Log.parse_digits 10 Log.digit_value s acc = Some v → leading_digits s acc = v.
Proof.
  revert acc. induction s as [|b s IH]; intros acc; cbn; [congruence|].
  destruct (Log.digit_value b); cbn; [|done]. apply IH.
Qed.

(** A digit is neither white space nor a sign. *)
Lemma digit_not_special b d : Log.digit_value b = Some d → is_space b = false ∧ b ≠ x2d ∧ b ≠ x2b.
Proof. by destruct b. Qed.

Lemma atoi_dec v : 0 ≤ v < 2 ^ 31 → atoi (Format.dec v) = Ok v.
Proof.
  intros Hv. destruct (Format.dec_spec 10 v) as [Hl Hp]; [lia|lia|].
  destruct (Format.dec v) as [|b s] eqn:E; [cbn in Hl; lia|].
  destruct (Log.digit_value b) as [d|] eqn:Eb; [|cbn in Hp; by rewrite Eb in Hp].
  destruct (digit_not_special b d Eb) as (H1 & H2 & H3). unfold atoi. cbn [skip_space]. rewrite H1.
  assert (checked 32 [] (leading_digits (b :: s) 0) = Ok v) as Hc.
  { rewrite (leading_digits_parse _ _ _ Hp). apply checked_ok. repeat constructor; unfold in_s;
      change (2 ^ (32 - 1)) with (2 ^ 31); lia. }
  destruct b; done.
Qed.

Definition is_connection (e : Batch.event) : Prop :=
  match e with Batch.Connection _ _ _ => True | Batch.Data _ _ _ => False end.

(** Clients without puzzles send nothing and are never done. *)
Lemma connections_idle evs (b : Batch.batch) :
  Forall is_connection evs → Forall (λ cb : Batch.SudokuClient * Buf.Buffer, Batch.input_ cb.1 = []) (Batch.clients b) →
  ∃ b', mfold Batch.handle evs b = Ok b' ∧ Batch.scheduled b' = Batch.scheduled b.
Proof.
  intros He. revert b. induction He as [|e evs He _ IH]; intros b Hb; cbn; [by exists b|].
  assert (∃ b1, Batch.handle e b = Ok b1 ∧ Batch.scheduled b1 = Batch.scheduled b ∧
    Forall (λ cb : Batch.SudokuClient * Buf.Buffer, Batch.input_ cb.1 = []) (Batch.clients b1)) as (b1 & -> & Hs & Hb1).
  { destruct e as [i up now|]; [|done]. cbn.
    destruct (Batch.clients b !! i) as [[c buf]|] eqn:Ei; [|by exists b].
    pose proof (Forall_lookup_1 _ _ _ _ Hb Ei) as Hc. cbn in Hc. unfold Batch.onConnection. rewrite Hc.
    destruct up; cbn; eexists; (split; [done|]); (split; [done|]); cbn; apply Forall_insert; done. }
  cbn. destruct (IH b1 Hb1) as (b2 & -> & Hs2). exists b2. split; [done|congruence].
Qed.

(** ** Theorems *)

(** The server comes up as asked. Without an argument, or with a thread count in decimal, main
    gives the pool exactly that many threads (none: the I/O threads solve), starts the eight
    I/O loops and listens on port 9981. *)
Theorem server_main_starts {N : Type} `{ConnectionI N} {Task : Type} (host : endianness) (loop : Z)
    (startLoop : Z → Z) (prog : list byte) (n : Z) (argv : list (list byte)) (Hn : 0 ≤ n < 2 ^ 31)
    (Hargv : argv = [prog] ∧ n = 0 ∨ ∃ rest, argv = prog :: Format.dec n :: rest) :
  ∃ s : SudokuServer (Task := Task), server_main host loop startLoop argv = Ok s ∧
    Pool.threads_ (threadPool_ s) = replicate (Z.to_nat n) Pool.AtTest ∧
    Pool.running_ (threadPool_ s) = true ∧ Server.listenning_ (server_ s) = true ∧
    LoopPool.loops_ (Server.threadPool_ (server_ s)) = startLoop <$> seqZ 0 8.
Proof.
  unfold server_main.
  assert ((match argv with _ :: arg :: _ => atoi arg | _ => Ok 0 end) = Ok n) as ->.
  { destruct Hargv as [[-> ->]|[rest ->]]; [done|by apply atoi_dec]. }
  cbn [mbind res_bind].
  assert (∃ text, Inet.addr_toIpPort host (Inet.InetAddress_port host kPort false) = Ok text) as [text ->]
    by (destruct host; eexists; vm_compute; reflexivity).
  cbn [mbind res_bind]. unfold newSudokuServer, start, pool_start. cbn [Server.setThreadNum assert_ Z.leb Z.compare mbind res_bind].
  cbn [threadPool_ numThreads_ Pool.newPool Pool.threads_ bool_decide decide_rel mbind res_bind assert_].
  assert ((max_size <? u64 n) = false) as ->.
  { apply Z.ltb_ge. unfold u64. rewrite uwrap_small; unfold in_u, max_size; lia. }
  cbn [mbind res_bind]. unfold Pool.start. cbn [Pool.newPool Pool.threads_].
  rewrite bool_decide_true by done. cbn [assert_ mbind res_bind server_].
  set (s0 := Server.with_pool _ _).
  assert (∃ srv, Server.start loop false startLoop s0 = Ok srv ∧ Server.listenning_ srv = true ∧
    LoopPool.loops_ (Server.threadPool_ srv) = startLoop <$> seqZ 0 8) as (srv & -> & Hl & Hp).
  { unfold Server.start, Server.runInLoop. cbn. rewrite Z.eqb_refl. cbn. eexists. split; [reflexivity|].
    split; reflexivity. }
  eexists. split; [reflexivity|]. by split_and!.
Qed.

Lemma server_main_starts_witness :
  ∃ s : SudokuServer (N := Conn.demo_conn) (Task := nat),
    server_main (H := Server.demo_conn_interface) LittleEndian 1 (λ i, 100 + i) [[x73]; Format.dec 4] = Ok s ∧
    Pool.threads_ (threadPool_ s) = replicate 4 Pool.AtTest ∧
    Pool.running_ (threadPool_ s) = true ∧ Server.listenning_ (server_ s) = true ∧
    LoopPool.loops_ (Server.threadPool_ (server_ s)) = (λ i, 100 + i) <$> seqZ 0 8.
Proof.
  apply (server_main_starts (H := Server.demo_conn_interface) LittleEndian 1 (λ i, 100 + i) [x73] 4);
    [lia|right; by eexists].
Defined.

(** A negative thread count ends the server: reserve() takes it for a huge size_t and throws
    std::length_error, which nothing catches. *)
Theorem server_negative_threads_throws {N : Type} `{ConnectionI N} {Task : Type} (host : endianness)
    (loop : Z) (startLoop : Z → Z) (prog arg : list byte) (rest : list (list byte)) (n : Z)
    (Harg : atoi arg = Ok n) (Hn : - 2 ^ 31 ≤ n < 0) :
  server_main (N := N) (Task := Task) host loop startLoop (prog :: arg :: rest) = Err LengthError.
Proof.
  unfold server_main. rewrite Harg. cbn [mbind res_bind].
  assert (∃ text, Inet.addr_toIpPort host (Inet.InetAddress_port host kPort false) = Ok text) as [text ->]
    by (destruct host; eexists; vm_compute; reflexivity).
  cbn [mbind res_bind]. unfold newSudokuServer, start, pool_start.
  cbn [Server.setThreadNum assert_ Z.leb Z.compare mbind res_bind threadPool_ numThreads_ Pool.newPool Pool.threads_].
  rewrite bool_decide_true by done. cbn [assert_ mbind res_bind].
  assert ((max_size <? u64 n) = true) as ->; [|done].
  apply Z.ltb_lt. unfold u64, uwrap, max_size. rewrite <-(Z_mod_plus_full n 1), Z.mod_small; lia.
Qed.

(** The batch client does what its command line says. With a file it can read, a server
    address and a count of connections in decimal, it starts that many clients, each with all
    the puzzles of the file, against that address; without a count one, without an address
    against 127.0.0.1; a file it cannot read is reported, and any other number of arguments
    prints the usage. *)
Theorem batch_main_runs (host : endianness) (open : list byte → option (list byte))
    (prog input ip file : list byte) (n : Z) (argv : list (list byte)) (Hn : 0 ≤ n < 2 ^ 31)
    (Hopen : open input = Some file) (Hargc : (length argv < 2 ∨ 4 < length argv)%nat) :
  (∃ b, batch_main host open [prog; input; ip; Format.dec n] =
          Ok (Run (Inet.InetAddress_ip host ip kPort) b) ∧
        zlen (Batch.clients b) = n ∧ Batch.g_connections b = n ∧
        Forall (λ cb, Batch.input_ (fst cb) = Batch.readInput file) (Batch.clients b)) ∧
  batch_main host open [prog; input; ip] = batch_main host open [prog; input; ip; Format.dec 1] ∧
  batch_main host open [prog; input] = batch_main host open [prog; input; localhost] ∧
  batch_main host open argv = Ok Usage.
Proof.
  split_and!.
  - unfold batch_main. rewrite atoi_dec by done. cbn [mbind res_bind]. rewrite Hopen.
    destruct (Batch.runClient_spec file n Hn) as (names & Hl & ->). cbn [mbind res_bind]. eexists.
    split; [done|]. cbn. rewrite length_fmap. split_and!; try done.
    apply Forall_fmap, Forall_true. done.
  - unfold batch_main. by rewrite (atoi_dec 1) by done.
  - done.
  - destruct argv as [|a [|b [|c [|d [|e l]]]]]; try done; cbn in Hargc; lia.
Qed.

(** The batch client can wait for ever. With a count of connections that is zero, negative or
    no number at all there is no client; with a file without puzzles there are clients, but
    they send nothing, so no answer comes. In both cases nothing ever makes the loop quit. *)
Theorem batch_never_quits (host : endianness) (open : list byte → option (list byte))
    (prog input ip arg file : list byte) (n : Z) (Hopen : open input = Some file)
    (Harg : atoi arg = Ok n) (Hn : - 2 ^ 31 ≤ n < 2 ^ 31) (Hidle : n ≤ 0 ∨ Batch.readInput file = []) :
  ∃ b, batch_main host open [prog; input; ip; arg] =
         Ok (Run (Inet.InetAddress_ip host ip kPort) b) ∧
       ∀ evs, (n ≤ 0 ∨ Forall is_connection evs) →
         ∃ b', mfold Batch.handle evs b = Ok b' ∧ Batch.scheduled b' = 0%nat.
Proof.
  unfold batch_main. rewrite Harg. cbn [mbind res_bind]. rewrite Hopen.
  destruct (decide (n ≤ 0)) as [Hle|Hgt].
  - assert (Batch.runClient file n = Ok (Batch.mkBatch [] 0 n 0)) as ->.
    { unfold Batch.runClient, seqZ. replace (Z.to_nat n) with 0%nat by lia. done. }
    cbn [mbind res_bind]. eexists. split; [done|]. intros evs _. exists (Batch.mkBatch [] 0 n 0).
    split; [|done]. induction evs as [|e evs IH]; [done|]. cbn. by destruct e.
  - destruct Hidle as [?|Hin]; [lia|].
    destruct (Batch.runClient_spec file n) as (names & Hl & ->); [lia|]. cbn [mbind res_bind]. eexists.
    split; [done|]. intros evs [?|Hev]; [lia|]. apply connections_idle; [done|]. cbn.
    apply Forall_fmap, Forall_true. done.
Qed.

(** The file system of the examples: every file holds one puzzle, "empty" none. *)
Definition demo_open (input : list byte) : option (list byte) :=
  Some (if bool_decide (input = [x65]) then [] else Batch.demo_puzzle).

Lemma batch_main_runs_witness :
  (∃ b, batch_main LittleEndian demo_open [[x70]; [x66]; localhost; Format.dec 3] =
          Ok (Run (Inet.InetAddress_ip LittleEndian localhost kPort) b) ∧
        zlen (Batch.clients b) = 3 ∧ Batch.g_connections b = 3 ∧
        Forall (λ cb, Batch.input_ (fst cb) = Batch.readInput Batch.demo_puzzle) (Batch.clients b)) ∧
  batch_main LittleEndian demo_open [[x70]; [x66]; localhost] =
    batch_main LittleEndian demo_open [[x70]; [x66]; localhost; Format.dec 1] ∧
  batch_main LittleEndian demo_open [[x70]; [x66]] =
    batch_main LittleEndian demo_open [[x70]; [x66]; localhost] ∧
  batch_main LittleEndian demo_open [[x70]] = Ok Usage.
Proof.
  apply (batch_main_runs LittleEndian demo_open [x70] [x66] localhost Batch.demo_puzzle 3 [[x70]]);
    [lia|reflexivity|cbn; lia].
Defined.

Lemma batch_never_quits_witness :
  ∃ b, batch_main LittleEndian demo_open [[x70]; [x66]; localhost; [x6d; x61; x6e; x79]] =
         Ok (Run (Inet.InetAddress_ip LittleEndian localhost kPort) b) ∧
       ∀ evs, (0 ≤ 0 ∨ Forall is_connection evs) →
         ∃ b', mfold Batch.handle evs b = Ok b' ∧ Batch.scheduled b' = 0%nat.
Proof.
  apply (batch_never_quits LittleEndian demo_open [x70] [x66] localhost [x6d; x61; x6e; x79]
           Batch.demo_puzzle 0); [reflexivity|reflexivity|lia|left; lia].
Defined.

End Mains.
